(* ===== verification/_CoqProject ===== *)
-Q . S2P
Prelude.v
GoStrings.v
GoFloat.v
Bytes.v
NetIP.v
Metadata.v
Ranges.v
Wildcard.v
Lru.v
FakeIP.v
TrafficModel.v
TrafficQuota.v
TrafficReports.v
TrafficSessions.v
TuicProtocol.v
TuicFrag.v
TuicServer.v
DomainTrie.v
DomainSet.v
DomainSetFacts.v
DomainSetBuild.v
CidrSet.v
CidrSetBin.v
LogicRules.v
Rules.v
Routing.v
GroupDag.v
ProxyGroup.v
LoadBalance.v
GroupParse.v
OverrideValue.v
OverrideEval.v
OverrideFacts.v
OverrideApply.v
OverrideParse.v
OverrideParseFacts.v
OverridePrint.v
