(* ===== verification/Prelude.v ===== *)
(** * A verification of the core of aster-core

    aster-core is a proxy server written in Go. A listener accepts a connection
    and hands it, with its metadata, to the tunnel; the tunnel evaluates the
    rules of the configuration to choose an outbound and relays the bytes.
    Around this path sit the traffic controller (usage counters, quotas, reports
    per device, rule and target), the fake-IP pool of the DNS server, matchers
    for domains and addresses that the rules and the DNS server share, the
    transports, and the proxies themselves: providers deliver them (overrides
    rewrite what a provider delivers) and groups choose among them. This development models the components that carry the program's
    own logic and leaves the I/O around them out.

    ** Files

    - [Prelude] (this file): the fragment of Go everything is written in.
      [str] is a Go string or byte slice, a list of 8-bit [ascii]; [result] is
      what a fallible function returns (a value, an error, or a run-time panic)
      with its monad; [int_type] and [wrap] are fixed-width integers kept as [Z]
      with the wrap-around written out; [SortSlice] is what [sort.Slice]
      promises (a sorted permutation, not stable); then the shared lemmas and
      tactics.
    - [GoStrings]: what is used of [strings], [strconv] and [utf8].
      [GoFloat]: float64 over the standard library's [SpecFloat]. [Bytes]:
      big-endian integers and sequential readers. [NetIP]: [net/netip].
    - [Ranges] (src/common/utils/range.go, ranges.go): integer ranges, their
      parser and printer, and [Merge] with its in-place overwriting.
    - [Wildcard] (src/component/wildcard/wildcard.go): the iterative matcher
      with backtracking, as a step function on its loop variables.
    - [Lru] (src/common/lru/lrucache.go): the cache over a heap of entries and
      the interface of the linked list package.
    - [FakeIP] (src/component/fakeip/pool.go, memory.go): the pool over the store
      interface, a class with laws; the in-memory store, made of two [Lru]
      caches, is an instance.
    - [TrafficModel], [TrafficQuota], [TrafficReports], [TrafficSessions]
      (src/component/trafficcontrol/model.go, manager.go): the configuration;
      the counters and the rolling window of one policy; the report series; the
      manager with its sessions, which composes the other three.
    - [TuicProtocol], [TuicFrag], [TuicServer] (src/transport/tuic/v5/protocol.go,
      frag.go, server.go): the wire format, fragmentation and reassembly (over
      [Lru]), and the server handler as a step relation on events.
    - [DomainTrie] (src/component/trie/domain.go, node.go) and [CidrSet]
      (src/component/cidr/ipcidr_set.go): the domain and address matchers;
      [CidrSetBin] (ipcidr_set_bin.go): the binary form of an address set.
    - [DomainSet], [DomainSetFacts], [DomainSetBuild]
      (src/component/trie/domain_set.go, domain_set_bin.go): the packed form of a
      domain trie, with its look-up, its enumeration and its binary format; what
      a well-formed set means as a tree; the set that is built from a trie.
    - [Metadata] (src/constant/metadata.go): what a connection carries.
    - [LogicRules] (src/rules/logic/logic.go, src/rules/common/base.go,
      src/constant/rule.go and [verifySubRule] of src/config/config.go): the
      parser and the evaluation of AND, OR, NOT and SUB-RULE, over any other
      rules (class [RuleLeaf]).
    - [Rules] (src/rules/common, src/rules/parser.go): the rules that look at one
      property, an instance of [RuleLeaf], and [ParseRule]; it uses [Ranges] for
      ports and [Wildcard] for patterns.
    - [Routing] (src/tunnel/tunnel.go, src/rules/wrapper/wrapper.go,
      src/adapter/outbound/rematch.go, and [parseRules] and [parseSubRules] of
      src/config/config.go): from the lines of the configuration to the outbound
      of a connection, over the outbounds as an interface (class [ProxyEnv]).
    - [GroupDag] (src/config/utils.go): the order of the proxy groups and the
      check of the dialer proxies. [ProxyGroup] (groupbase.go, selector.go,
      fallback.go, urltest.go of src/adapter/outboundgroup, src/common/singledo)
      and [LoadBalance] (loadbalance.go, over [Lru] and [GoFloat]): the proxies
      of a group and its choice. [GroupParse] (parser.go, the health checks of
      src/adapter/provider, and [parseProxies] of src/config/config.go) composes
      them into the loading of a configuration's outbounds.
    - [OverrideValue], [OverrideEval], [OverrideFacts], [OverrideApply],
      [OverrideParse], [OverrideParseFacts], [OverridePrint]
      (src/adapter/provider/override_expr.go, override.go): the expression
      language of provider overrides: values and their arithmetic, paths and
      streams, what they do, statements and the override of a mapping, the lexer
      and parser, that they return, and that printed statements are read back.

    A definition has the name of the Go function or type it translates where
    Rocq allows it; helpers that translate one loop of a function are next to
    it. Components call each other in the model where they do in the code.

    ** What the theorems show

    - Refinement and equivalence: the cache behaves as an abstract
      least-recently-used list; the wildcard matcher decides the declarative
      relation; the merged address set contains what was added, before and after
      [Merge]; searching the domain trie gives the best matching pattern; lazy
      pruning of quota buckets equals eager pruning; rolling reports up does not
      change what they answer; the check of sub-rules accepts exactly the closed
      acyclic maps; the packed domain set answers as the trie it was built from,
      and enumerates the same patterns.
    - Routing: the first rule that applies decides the outbound, and for a
      configuration that was accepted the decision is always reached; parsing a
      rule returns, and parsed rules are well built; the host rules compare without regard to case; the
      address rules compare leading and trailing bits.
    - Proxy groups: loading the outbounds returns and leaves every group with
      the proxies it lists; groups are sorted by containment or the loops are
      reported; dialer proxies are accepted exactly when they exist and end; the
      proxies of a group are never out of date and are those its filters let
      through, one of each name where it looks at names; what a fallback and a
      URL-test group use in every case; the jump hash is in range and consistent,
      round robin is fair, and a session keeps its proxy for ten minutes among
      the connections of up to 999 others.
    - Overrides: assignments store the result and change nothing else; deletions
      leave exactly what the paths do not select; results are well formed, and
      the only panic left is the remainder by a converted float64 out of range.
    - Functional correctness: a policy's rolling window is the traffic of the
      window; recorded bytes reach the matching policies once; [Merge] of ranges
      is the normal form of the union; the parts of a logical payload are its
      outermost groups.
    - Invariants and safety: active counters count the open sessions; a parsed
      configuration is valid; fake addresses are not handed out twice before the
      pool wraps; the TUIC server serves only authenticated users, and the
      reassembler never panics.
    - Round trips: fake-IP lookup and look-back over the in-memory store, TUIC commands and fragments,
      durations, the configuration document, range lists, the binary forms of
      a domain set and of an address set, printed override statements.
    - Termination: the flush loop, evaluation of every rule over a verified map
      of sub-rules, the lexer and parser of overrides on every text, the graph
      algorithms of the groups in every order of Go's map ranges.
    - Errors: an address length of 255 crashes the TUIC server before
      authentication; binding a SUB-RULE rule never returns when a sub-rule list
      holds one; out-of-range numbers are truncated by the range parser; a
      domain-set file of any bytes is refused or safe to search.

    ** Fuel and bounds

    Recursion that is not structural takes fuel, and a theorem shows that there
    is enough: [Wildcard] runs a number of steps computed from both lengths;
    [verifySubRule] uses one more than the number of lists (the names on a chain
    are distinct); [ParseRule] one more than the length of the payload (running out is [Panic],
    which is excluded); [Match]
    of a rule takes fuel as an argument and [Match_returns] shows that some is
    enough and that more changes nothing; [matchWithState] takes one more round
    than there are rematch outbounds and unwraps groups to their depth. The
    override lexer takes the length of the text and the parser [parse_fuel], the
    square of the tokens and a margin (nested calls each consume a token); the
    loops over a packed domain set take the number of its nodes or bytes; the
    queues of the group sort take the size of the graph (a name is queued once),
    a chain of dialers one more than that, the jump hash one turn per bucket.
    Integers that can overflow (byte counters, lengths written to the wire,
    port ranges) are reduced to their width where the code converts them.

    ** What is not modelled

    Third-party packages, Unicode tables, hashing, the clock, random numbers and
    the file system are parameters: class fields or arguments with their
    documented behaviour as laws, each with a concrete instance. Mutexes make
    the modelled operations atomic, so concurrency appears as the order of
    operations. Sockets, TLS, HTTP handlers, the database, the kernel programs,
    and the protocols that are framing around crypto libraries are left out; so
    are the geo databases and the process lookups behind single rules. Of the
    overrides, the texts and positions of errors are left out, and so are the
    sharing of values that [|=] creates and the half-updated mapping after an
    error, which the callers drop; a NaN compares as a value, not by address. Of
    the domain set, rank and select are a parameter, and names beyond ASCII are
    defined but not in the theorems. Of the groups, decoding a mapping, regular
    expressions, the hash and the public suffix list are parameters; dialing,
    running the URL tests, the JSON views and the calls that [singledo] joins are
    left out.

    ** What could follow

    The deque of src/common/deque, TUIC v4 (close to v5), the rate limiters of the traffic
    controller and the subscriptions of the proxy providers. *)
From Stdlib Require Export Ascii.
From stdpp Require Export gmap strings list fin_maps sorting.
From stdpp Require Export options.

#[export] Set Default Proof Using "Type".

(** ** Notations, tactics and hint databases of the development *)

Declare Scope go_scope.
Delimit Scope go_scope with go.

Create HintDb go.

(** Split every [if]/[match] of the goal, then try the arithmetic solver. *)
Ltac split_cases :=
  repeat (case_match || case_decide || case_bool_decide).
Ltac go_lia := simpl in *; try lia.
(** Turn boolean comparisons on [Z] and [nat] into propositions. *)
Ltac zify_bool :=
  repeat match goal with
  | H : (_ && _) = true |- _ => apply andb_true_iff in H as [??]
  | H : (_ || _) = false |- _ => apply orb_false_iff in H as [??]
  | H : (_ <? _)%Z = true |- _ => apply Z.ltb_lt in H
  | H : (_ <? _)%Z = false |- _ => apply Z.ltb_ge in H
  | H : (_ <=? _)%Z = true |- _ => apply Z.leb_le in H
  | H : (_ <=? _)%Z = false |- _ => apply Z.leb_gt in H
  | H : (_ =? _)%Z = true |- _ => apply Z.eqb_eq in H
  | H : (_ =? _)%Z = false |- _ => apply Z.eqb_neq in H
  | H : negb _ = true |- _ => apply negb_true_iff in H
  | H : negb _ = false |- _ => apply negb_false_iff in H
  end.

(** ** Strings and byte slices *)

(** A Go [string] and a Go []byte are the same sequence of bytes. *)
Abbreviation str := (list ascii).

Definition lit (s : string) : str := String.list_ascii_of_string s.

(** The numeric value of a byte and the conversion [byte(z)], which keeps
    the low eight bits. *)
Definition byteZ (c : ascii) : Z := Z.of_N (N_of_ascii c).
Definition byte_of (z : Z) : ascii := ascii_of_N (Z.to_N (z mod 256)).

Lemma byteZ_range c : (0 ≤ byteZ c < 256)%Z.
Proof. unfold byteZ. pose proof (N_ascii_bounded c). lia. Qed.

Lemma byteZ_byte_of z : byteZ (byte_of z) = (z mod 256)%Z.
Proof.
  unfold byteZ, byte_of. pose proof (Z.mod_pos_bound z 256 ltac:(lia)).
  rewrite N_ascii_embedding; lia.
Qed.

Lemma byte_of_byteZ c : byte_of (byteZ c) = c.
Proof.
  unfold byte_of, byteZ. pose proof (N_ascii_bounded c).
  rewrite Z.mod_small by lia. rewrite N2Z.id. apply ascii_N_embedding.
Qed.

Lemma byteZ_inj c d : byteZ c = byteZ d → c = d.
Proof. intros H. rewrite <- (byte_of_byteZ c), H. apply byte_of_byteZ. Qed.

#[export] Instance byteZ_Inj : Inj (=) (=) byteZ := byteZ_inj.

(** ** Results *)

Inductive result (A : Type) : Type :=
| Ok (a : A)
| Err (e : string)
| Panic.
Arguments Ok {A} a.
Arguments Err {A} e.
Arguments Panic {A}.

#[export] Instance result_ret : MRet result := @Ok.
#[export] Instance result_bind : MBind result := λ A B f m,
  match m with Ok a => f a | Err e => Err e | Panic => Panic end.
#[export] Instance result_fmap : FMap result := λ A B f m,
  match m with Ok a => Ok (f a) | Err e => Err e | Panic => Panic end.

#[export] Instance result_eq_dec `{EqDecision A} : EqDecision (result A).
Proof. solve_decision. Defined.

Lemma result_bind_Ok {A B} (f : A → result B) (m : result A) b :
  m ≫= f = Ok b ↔ ∃ a, m = Ok a ∧ f a = Ok b.
Proof. destruct m; simpl; naive_solver. Qed.
Lemma result_bind_Panic {A B} (f : A → result B) (m : result A) :
  m ≫= f = Panic ↔ m = Panic ∨ ∃ a, m = Ok a ∧ f a = Panic.
Proof. destruct m; simpl; naive_solver. Qed.

(** ** Fixed-width integers *)

Record int_type := IntType { it_signed : bool; it_bits : Z }.

Definition int_min (T : int_type) : Z :=
  if it_signed T then (- 2 ^ (it_bits T - 1))%Z else 0%Z.
Definition int_max (T : int_type) : Z :=
  if it_signed T then (2 ^ (it_bits T - 1) - 1)%Z else (2 ^ it_bits T - 1)%Z.

(** The value of an arithmetic result that does not fit: two's complement. *)
Definition wrap (T : int_type) (z : Z) : Z :=
  ((z - int_min T) mod 2 ^ it_bits T + int_min T)%Z.

Definition in_int (T : int_type) (z : Z) : Prop := (int_min T ≤ z ≤ int_max T)%Z.
Definition wf_int_type (T : int_type) : Prop := (1 ≤ it_bits T)%Z.

Definition int64 := IntType true 64.
Definition uint64 := IntType false 64.
Definition uint32 := IntType false 32.
Definition uint16 := IntType false 16.
Definition uint8 := IntType false 8.

Lemma int_span T : wf_int_type T → (int_max T - int_min T = 2 ^ it_bits T - 1)%Z.
Proof.
  intros HT. unfold int_max, int_min, wf_int_type in *. destruct (it_signed T); [|lia].
  replace (it_bits T) with (Z.succ (it_bits T - 1)) at 3 by lia.
  rewrite Z.pow_succ_r by lia. lia.
Qed.

Lemma pow_bits_pos T : wf_int_type T → (0 < 2 ^ it_bits T)%Z.
Proof. intros. apply Z.pow_pos_nonneg; unfold wf_int_type in *; lia. Qed.

Lemma wrap_id T z : wf_int_type T → in_int T z → wrap T z = z.
Proof.
  intros HT Hz. unfold wrap, in_int in *. pose proof (int_span T HT).
  rewrite Z.mod_small; lia.
Qed.

Lemma wrap_in T z : wf_int_type T → in_int T (wrap T z).
Proof.
  intros HT. unfold wrap, in_int. pose proof (int_span T HT).
  pose proof (Z.mod_pos_bound (z - int_min T) _ (pow_bits_pos T HT)). lia.
Qed.

(** The successor of the largest value is the smallest one. *)
Lemma wrap_succ_max T : wf_int_type T → wrap T (int_max T + 1) = int_min T.
Proof.
  intros HT. unfold wrap. pose proof (int_span T HT).
  replace (int_max T + 1 - int_min T)%Z with (2 ^ it_bits T)%Z by lia.
  rewrite Z.mod_same; [lia|]. pose proof (pow_bits_pos T HT). lia.
Qed.

Lemma int_min_le_max T : wf_int_type T → (int_min T ≤ int_max T)%Z.
Proof. intros HT. pose proof (int_span T HT). pose proof (pow_bits_pos T HT). lia. Qed.

#[export] Hint Resolve wrap_in int_min_le_max pow_bits_pos : go.

(** ** Sorting *)

(** [sort.Slice(l, less)]: some rearrangement of [l] in which no element is
    [less] than an earlier one, whenever [less] is a strict weak order. *)
Definition strict_weak {A} (less : A → A → bool) : Prop :=
  (∀ x y, less x y = true → less y x = false) ∧
  (∀ x y z, less y x = false → less z y = false → less z x = false).

Class SortSlice := {
  sort_slice : ∀ {A}, (A → A → bool) → list A → list A;
  sort_slice_perm : ∀ {A} (less : A → A → bool) (l : list A), sort_slice less l ≡ₚ l;
  sort_slice_sorted : ∀ {A} (less : A → A → bool) (l : list A), strict_weak less →
    StronglySorted (λ x y, less y x = false) (sort_slice less l)
}.

(** Merge sort is one implementation; the witnesses of the development use it. *)
Definition less_le {A} (less : A → A → bool) (x y : A) : Prop := less y x = false.
#[export] Instance less_le_dec {A} (less : A → A → bool) x y : Decision (less_le less x y).
Proof. unfold less_le. apply _. Defined.

Definition sort_by {A} (less : A → A → bool) (l : list A) : list A :=
  merge_sort (less_le less) l.

Lemma sort_by_sorted {A} (less : A → A → bool) (l : list A) : strict_weak less →
  StronglySorted (λ x y, less y x = false) (sort_by less l).
Proof.
  intros [Hasym Htrans].
  assert (Transitive (less_le less)) by (intros x y z Hxy Hyz; unfold less_le in *; eauto).
  assert (Total (less_le less)).
  { intros x y. unfold less_le. destruct (less y x) eqn:E; [right|left]; eauto. }
  by apply (StronglySorted_merge_sort (less_le less)).
Qed.

Definition merge_sort_slice : SortSlice := {|
  sort_slice := @sort_by;
  sort_slice_perm := λ A less l, merge_sort_Permutation (less_le less) l;
  sort_slice_sorted := @sort_by_sorted
|}.

(** ** Lists *)

(** [l[lo:hi]] inside bounds. *)
Definition slice {A} (l : list A) (lo hi : nat) : list A := take (hi - lo) (drop lo l).

Lemma slice_full {A} (l : list A) : slice l 0 (length l) = l.
Proof. unfold slice. rewrite drop_0, Nat.sub_0_r. by apply take_ge. Qed.

Lemma slice_nil {A} (l : list A) a : slice l a a = [].
Proof. unfold slice. by rewrite Nat.sub_diag. Qed.

Lemma slice_drop {A} (l : list A) a b : a ≤ b → drop a l = slice l a b ++ drop b l.
Proof.
  intros H. unfold slice. rewrite <- (take_drop (b - a) (drop a l)) at 1. f_equal.
  rewrite drop_drop. f_equal. lia.
Qed.

Lemma slice_snoc {A} (l : list A) a b x : a ≤ b → l !! b = Some x →
  slice l a (S b) = slice l a b ++ [x].
Proof.
  intros Hab Hx. unfold slice. replace (S b - a) with (S (b - a)) by lia.
  apply take_S_r. rewrite lookup_drop. by replace (a + (b - a)) with b by lia.
Qed.

Lemma length_slice {A} (l : list A) a b : a ≤ b → b ≤ length l → length (slice l a b) = b - a.
Proof. intros. unfold slice. rewrite length_take, length_drop. lia. Qed.

Lemma StronglySorted_lookup {A} (R : relation A) (l : list A) i j x y :
  StronglySorted R l → i < j → l !! i = Some x → l !! j = Some y → R x y.
Proof.
  intros Hs. revert i j. induction Hs as [|z l Hs IH Hz]; intros i j Hij Hi Hj; [done|].
  destruct j as [|j]; [lia|]. destruct i as [|i]; simpl in *.
  - simplify_eq. rewrite Forall_forall in Hz. apply Hz. by eapply list_elem_of_lookup_2.
  - eapply (IH i j); eauto. lia.
Qed.

Lemma StronglySorted_impl {A} (R R' : relation A) (l : list A) :
  (∀ x y, R x y → R' x y) → StronglySorted R l → StronglySorted R' l.
Proof.
  intros HR. induction 1 as [|x l Hl IH Hx]; constructor; [done|].
  eapply Forall_impl; [exact Hx|]. auto.
Qed.

Lemma existsb_perm {A} (f : A → bool) (l k : list A) : l ≡ₚ k → existsb f l = existsb f k.
Proof.
  induction 1 as [|x l k _ IH|x y l|l k m _ IH1 _ IH2]; simpl; [done|by rewrite IH| |congruence].
  by destruct (f x), (f y).
Qed.

Lemma existsb_app_bool {A} (f : A → bool) (l k : list A) :
  existsb f (l ++ k) = existsb f l || existsb f k.
Proof. apply existsb_app. Qed.

(** Loop bodies that stop at the first failing element. *)
Fixpoint foldM {A S} (f : S → A → result S) (s : S) (l : list A) : result S :=
  match l with
  | [] => Ok s
  | x :: l => s ← f s x; foldM f s l
  end.

Lemma foldM_invariant {A S} (P : S → Prop) (f : S → A → result S) l s s' :
  (∀ s x s', x ∈ l → P s → f s x = Ok s' → P s') → P s → foldM f s l = Ok s' → P s'.
Proof.
  revert s. induction l as [|x l IH]; intros s Hf Hs; cbn [foldM]; [by intros [= <-]|].
  intros (s1 & H1 & Hl)%result_bind_Ok. eapply (IH s1); [|by eapply Hf; [left|..]|done].
  intros ? ? ? ?. apply Hf. by right.
Qed.

(** Predicates that agree on the elements select the same sublist. *)
Lemma filter_ext_in {A} (P Q : A → Prop) `{!∀ x, Decision (P x), !∀ x, Decision (Q x)} (l : list A) :
  (∀ x, x ∈ l → P x ↔ Q x) → filter P l = filter Q l.
Proof.
  induction l as [|x l IH]; intros Hl; [done|]. rewrite !filter_cons, IH by (intros; apply Hl; by right).
  pose proof (Hl x ltac:(left)). repeat case_decide; tauto || done.
Qed.
