(* ===== verification/GoStrings.v ===== *)
(** * GoStrings: the parts of [strings], [strconv] and [utf8] the sources use

    - [split_on], [join]: [strings.Split] and [strings.Join] with a one-byte
      separator, and their round trips;
    - [decode_rune], [decode_last_rune], [is_space], [trim_space]: UTF-8
      decoding, [unicode.IsSpace] and [strings.TrimSpace];
    - [format_uint], [parse_uint], [parse_int]: decimal printing and parsing,
      with the round trip [parse_uint_format];
    - [str_contains], [Split]: substrings and separators of any length. *)
From S2P Require Import Prelude.

(** ** Split and Join *)

Fixpoint split_on (c : ascii) (s : str) : list str :=
  match s with
  | [] => [[]]
  | x :: s' =>
    if decide (x = c) then [] :: split_on c s'
    else match split_on c s' with
         | p :: ps => (x :: p) :: ps
         | [] => [[x]]
         end
  end.

Fixpoint join (sep : str) (l : list str) : str :=
  match l with
  | [] => []
  | [s] => s
  | s :: l' => s ++ sep ++ join sep l'
  end.

Lemma split_on_nonempty c s : split_on c s ≠ [].
Proof. destruct s as [|x s]; simpl; [done|]. case_decide; [done|]. by case_match. Qed.

(** A part without the separator at the front of a string is split off whole. *)
Lemma split_on_part c p s : c ∉ p →
  split_on c (p ++ s) = match split_on c s with q :: qs => (p ++ q) :: qs | [] => [] end.
Proof.
  intros Hp. induction p as [|x p IH]; simpl.
  - pose proof (split_on_nonempty c s). by destruct (split_on c s).
  - apply not_elem_of_cons in Hp as [Hx Hp]. case_decide; [congruence|]. rewrite (IH Hp).
    pose proof (split_on_nonempty c s). by destruct (split_on c s).
Qed.

Lemma split_on_no_sep c p : c ∉ p → split_on c p = [p].
Proof. intros Hp. rewrite <- (app_nil_r p) at 1. rewrite split_on_part by done. simpl. by rewrite app_nil_r. Qed.

(** Joining separator-free parts and splitting gives the parts back. *)
Lemma split_on_join c l : l ≠ [] → Forall (λ p, c ∉ p) l → split_on c (join [c] l) = l.
Proof.
  intros Hne Hl. induction Hl as [|p l Hp Hl IH]; [done|].
  destruct l as [|q l]; simpl; [by apply split_on_no_sep|].
  rewrite split_on_part by done. simpl. rewrite decide_True by done.
  rewrite app_nil_r. f_equal. by apply IH.
Qed.

(** Splitting and joining gives the string back. *)
Lemma join_split_on c s : join [c] (split_on c s) = s.
Proof.
  induction s as [|x s IH]; simpl; [done|]. pose proof (split_on_nonempty c s) as Hne.
  case_decide as Hx; subst.
  - destruct (split_on c s) as [|p ps]; [done|]. simpl in *. by rewrite IH.
  - destruct (split_on c s) as [|p ps]; [done|]. destruct ps; simpl in *; by rewrite <- IH.
Qed.

Lemma split_on_no_sep_parts c s : Forall (λ p, c ∉ p) (split_on c s).
Proof.
  induction s as [|x s IH]; simpl; [repeat constructor; set_solver|].
  case_decide; [constructor; [set_solver|done]|].
  destruct (split_on c s) as [|p ps]; [repeat constructor; set_solver|].
  apply Forall_cons in IH as [Hp Hps]. constructor; [set_solver|done].
Qed.

(** ** UTF-8 and white space *)

Definition in_z (lo hi z : Z) : bool := (lo <=? z)%Z && (z <=? hi)%Z.

(** [utf8.DecodeRuneInString]: the first rune and its width; an invalid
    encoding is (RuneError, 1). *)
Definition decode_rune (s : str) : option (Z * nat) :=
  match byteZ <$> s with
  | [] => None
  | b0 :: t =>
    if (b0 <? 128)%Z then Some (b0, 1)
    else if in_z 194 223 b0 then
      match t with
      | b1 :: _ => if in_z 128 191 b1
                   then Some (((b0 - 192) * 64 + (b1 - 128))%Z, 2) else Some (65533%Z, 1)
      | _ => Some (65533%Z, 1)
      end
    else if in_z 224 239 b0 then
      match t with
      | b1 :: b2 :: _ =>
        if in_z (if (b0 =? 224)%Z then 160 else 128) (if (b0 =? 237)%Z then 159 else 191) b1
           && in_z 128 191 b2
        then Some ((((b0 - 224) * 64 + (b1 - 128)) * 64 + (b2 - 128))%Z, 3)
        else Some (65533%Z, 1)
      | _ => Some (65533%Z, 1)
      end
    else if in_z 240 244 b0 then
      match t with
      | b1 :: b2 :: b3 :: _ =>
        if in_z (if (b0 =? 240)%Z then 144 else 128) (if (b0 =? 244)%Z then 143 else 191) b1
           && in_z 128 191 b2 && in_z 128 191 b3
        then Some (((((b0 - 240) * 64 + (b1 - 128)) * 64 + (b2 - 128)) * 64 + (b3 - 128))%Z, 4)
        else Some (65533%Z, 1)
      | _ => Some (65533%Z, 1)
      end
    else Some (65533%Z, 1)
  end.

Definition rune_start (c : ascii) : bool := negb (in_z 128 191 (byteZ c)).

(** The last index [i] in [lo, hi) (searched downwards) where a rune starts. *)
Fixpoint last_start (s : str) (steps hi : nat) : nat :=
  match steps, hi with
  | S n, S i => match s !! i with
                | Some c => if rune_start c then i else last_start s n i
                | None => i
                end
  | _, _ => hi
  end.

(** [utf8.DecodeLastRuneInString]: look back at most four bytes for a start
    byte and accept the rune only if it ends the string. *)
Definition decode_last_rune (s : str) : option (Z * nat) :=
  let n := length s in
  match last s with
  | None => None
  | Some c =>
    if (byteZ c <? 128)%Z then Some (byteZ c, 1)
    else
      let start := last_start s 3 (n - 1) in
      match decode_rune (drop start s) with
      | Some (r, size) => if (start + size =? n)%nat then Some (r, size) else Some (65533%Z, 1)
      | None => Some (65533%Z, 1)
      end
  end.

(** [unicode.IsSpace]: the code points with the White_Space property. *)
Definition is_space (r : Z) : bool :=
  existsb (Z.eqb r) [9; 10; 11; 12; 13; 32; 133; 160; 5760; 8232; 8233; 8239; 8287; 12288]%Z
  || in_z 8192 8202 r.

Fixpoint trim_left_fuel (fuel : nat) (s : str) : str :=
  match fuel with
  | 0 => s
  | S f => match decode_rune s with
           | Some (r, n) => if is_space r then trim_left_fuel f (drop n s) else s
           | None => s
           end
  end.

Fixpoint trim_right_fuel (fuel : nat) (s : str) : str :=
  match fuel with
  | 0 => s
  | S f => match decode_last_rune s with
           | Some (r, n) => if is_space r then trim_right_fuel f (take (length s - n) s) else s
           | None => s
           end
  end.

(** [strings.TrimSpace]; every round drops at least a byte, so the length is
    enough fuel. *)
Definition trim_space (s : str) : str :=
  let t := trim_left_fuel (length s) s in trim_right_fuel (length t) t.

(** [strings.Trim(s, cutset)] for a one-byte cutset alphabet. *)
Fixpoint drop_while_in (cut : str) (s : str) : str :=
  match s with
  | x :: s' => if decide (x ∈ cut) then drop_while_in cut s' else s
  | [] => []
  end.
Definition trim_cut (cut : str) (s : str) : str :=
  rev (drop_while_in cut (rev (drop_while_in cut s))).

(** An ASCII byte that is not white space. *)
Definition plain (c : ascii) : bool := (byteZ c <? 128)%Z && negb (is_space (byteZ c)).

Lemma trim_left_plain f x s : plain x = true → trim_left_fuel f (x :: s) = x :: s.
Proof.
  intros Hx. unfold plain in Hx. apply andb_true_iff in Hx as [H1 H2].
  destruct f; simpl; [done|]. unfold decode_rune; simpl. rewrite H1. simpl.
  apply negb_true_iff in H2. by rewrite H2.
Qed.

Lemma trim_right_plain f x s : plain x = true → trim_right_fuel f (s ++ [x]) = s ++ [x].
Proof.
  intros Hx. unfold plain in Hx. apply andb_true_iff in Hx as [H1 H2].
  destruct f; simpl; [done|]. unfold decode_last_rune. rewrite last_snoc, H1.
  apply negb_true_iff in H2. by rewrite H2.
Qed.

(** A non-empty string of plain bytes is its own trimming. *)
Lemma trim_space_plain s : forallb plain s = true → trim_space s = s.
Proof.
  intros Hs. unfold trim_space. destruct s as [|x s]; [done|].
  pose proof Hs as Hs'. simpl in Hs. apply andb_true_iff in Hs as [Hx Hs].
  rewrite trim_left_plain by done.
  destruct (exists_last (l := x :: s)) as (t & y & Ht); [done|]. rewrite Ht in *.
  apply trim_right_plain. rewrite forallb_app in Hs'. simpl in Hs'.
  apply andb_true_iff in Hs' as [_ Hy]. by rewrite andb_true_r in Hy.
Qed.

(** ** Decimal numbers *)

Definition digit_of (d : Z) : ascii := byte_of (48 + d).
Definition is_digit (c : ascii) : bool := in_z 48 57 (byteZ c).

Fixpoint format_fuel (fuel : nat) (n : Z) (acc : str) : str :=
  match fuel with
  | 0 => acc
  | S f =>
    if (n <? 10)%Z then digit_of n :: acc
    else format_fuel f (n / 10) (digit_of (n mod 10) :: acc)
  end.

(** [strconv.FormatUint(n, 10)]; a number has at most [log2 n + 1] digits. *)
Definition format_uint (n : Z) : str := format_fuel (S (Z.to_nat (Z.log2 n))) n [].
Definition format_int (n : Z) : str :=
  if (n <? 0)%Z then lit "-" ++ format_uint (- n) else format_uint n.

(** The value of a string of digits read left to right. *)
Fixpoint digits_val (acc : Z) (s : str) : option Z :=
  match s with
  | [] => Some acc
  | c :: s' => if is_digit c then digits_val (acc * 10 + (byteZ c - 48)) s' else None
  end.

(** [strconv.ParseUint(s, 10, bits)]. *)
Definition parse_uint (bits : Z) (s : str) : result Z :=
  match s with
  | [] => Err "invalid syntax"
  | _ => match digits_val 0 s with
         | None => Err "invalid syntax"
         | Some n => if (n <? 2 ^ bits)%Z then Ok n else Err "value out of range"
         end
  end.

(** [strconv.ParseInt(s, 10, bits)]: an optional sign, then [ParseUint]. *)
Definition parse_int (bits : Z) (s : str) : result Z :=
  match s with
  | [] => Err "invalid syntax"
  | c :: t =>
    let neg := bool_decide (c = "-"%char) in
    let body := if neg || bool_decide (c = "+"%char) then t else s in
    n ← parse_uint bits body;
    if neg then if (n <=? 2 ^ (bits - 1))%Z then Ok (- n)%Z else Err "value out of range"
    else if (n <? 2 ^ (bits - 1))%Z then Ok n else Err "value out of range"
  end.

Lemma byteZ_digit_of d : (0 ≤ d < 10)%Z → byteZ (digit_of d) = (48 + d)%Z.
Proof. intros. unfold digit_of. rewrite byteZ_byte_of. apply Z.mod_small. lia. Qed.

Lemma is_digit_digit_of d : (0 ≤ d < 10)%Z → is_digit (digit_of d) = true.
Proof.
  intros. unfold is_digit, in_z. rewrite byteZ_digit_of by done.
  apply andb_true_iff; split; apply Z.leb_le; lia.
Qed.

Lemma digits_val_app acc s t : digits_val acc (s ++ t) = digits_val acc s ≫= λ a, digits_val a t.
Proof. revert acc. induction s as [|c s IH]; intros acc; simpl; [done|]. by case_match. Qed.

Lemma digits_val_snoc acc s d : (0 ≤ d < 10)%Z →
  digits_val acc (s ++ [digit_of d]) = (λ a, a * 10 + d)%Z <$> digits_val acc s.
Proof.
  intros. rewrite digits_val_app. destruct (digits_val acc s); simpl; [|done].
  rewrite is_digit_digit_of, byteZ_digit_of by done. do 2 f_equal. lia.
Qed.

(** Every number is printed as a non-empty string of digits. *)
Lemma format_fuel_spec f n acc : (0 ≤ n)%Z → (n < 2 ^ Z.of_nat f)%Z →
  ∃ ds, format_fuel f n acc = ds ++ acc ∧ Forall (λ c, is_digit c = true) ds
        ∧ digits_val 0 ds = Some n ∧ (f ≠ 0 → ds ≠ []).
Proof.
  revert n acc. induction f as [|f IH]; intros n acc Hn Hlt.
  - exists []. simpl in *. assert (n = 0%Z) as -> by lia. repeat split; done || constructor.
  - simpl format_fuel. destruct (Z.ltb_spec n 10).
    + exists [digit_of n]. split; [done|]. split; [by constructor; [apply is_digit_digit_of; lia|]|].
      split; [|done]. simpl. rewrite is_digit_digit_of, byteZ_digit_of by lia. f_equal. lia.
    + pose proof (Z.div_mod n 10 ltac:(lia)). pose proof (Z.mod_pos_bound n 10 ltac:(lia)).
      assert (0 < Z.of_nat f)%Z.
      { destruct f; [simpl in Hlt|]; lia. }
      destruct (IH (n / 10)%Z (digit_of (n mod 10) :: acc)) as (ds & -> & Hds & Hv & Hne).
      { apply Z.div_pos; lia. }
      { rewrite Nat2Z.inj_succ, Z.pow_succ_r in Hlt by lia. lia. }
      exists (ds ++ [digit_of (n mod 10)]). split; [by rewrite <- app_assoc|].
      split; [apply Forall_app; split; [done|by constructor; [apply is_digit_digit_of|]]|].
      split; [|by destruct ds]. rewrite digits_val_snoc, Hv by lia. simpl. f_equal. lia.
Qed.

Lemma format_uint_spec n : (0 ≤ n)%Z →
  digits_val 0 (format_uint n) = Some n ∧ format_uint n ≠ []
  ∧ Forall (λ c, is_digit c = true) (format_uint n).
Proof.
  intros Hn. unfold format_uint.
  destruct (format_fuel_spec (S (Z.to_nat (Z.log2 n))) n []) as (ds & -> & Hds & Hv & Hne); [done| |].
  - rewrite Nat2Z.inj_succ, Z2Nat.id by apply Z.log2_nonneg.
    destruct (decide (n = 0%Z)) as [->|]; [done|]. apply Z.log2_spec. lia.
  - rewrite app_nil_r. auto.
Qed.

(** [ParseUint] reads back what [FormatUint] prints. *)
Lemma parse_uint_format bits n : (0 ≤ n < 2 ^ bits)%Z → parse_uint bits (format_uint n) = Ok n.
Proof.
  intros [H0 Hn]. destruct (format_uint_spec n H0) as (Hv & Hne & _). unfold parse_uint.
  destruct (format_uint n) eqn:E; [done|]. rewrite Hv.
  destruct (Z.ltb_spec n (2 ^ bits)); [done|lia].
Qed.

(** Digits are neither separators nor white space. *)
Lemma is_digit_plain c : is_digit c = true → plain c = true.
Proof.
  unfold is_digit, plain, is_space, in_z. intros H. zify_bool. simpl.
  repeat match goal with |- context [(byteZ c =? ?k)%Z] => destruct (Z.eqb_spec (byteZ c) k); [lia|] end.
  simpl. destruct (Z.leb_spec 8192 (byteZ c)); [lia|]. simpl.
  destruct (Z.ltb_spec (byteZ c) 128); [done|lia].
Qed.

Lemma is_digit_not c d : is_digit c = true → is_digit d = false → c ≠ d.
Proof. congruence. Qed.

Lemma format_uint_not_in c n : (0 ≤ n)%Z → is_digit c = false → c ∉ format_uint n.
Proof.
  intros Hn Hc Hin. destruct (format_uint_spec n Hn) as (_ & _ & Hd).
  rewrite Forall_forall in Hd. apply Hd in Hin. congruence.
Qed.

Lemma format_uint_plain n : (0 ≤ n)%Z → forallb plain (format_uint n) = true.
Proof.
  intros Hn. destruct (format_uint_spec n Hn) as (_ & _ & Hd). apply forallb_forall.
  intros c Hc. rewrite Forall_forall in Hd. apply is_digit_plain, Hd. by apply list_elem_of_In.
Qed.

(** Trimming a cutset off a string that has none of it changes nothing. *)
Lemma drop_while_in_none cut s : Forall (λ c, c ∉ cut) s → drop_while_in cut s = s.
Proof. destruct 1; simpl; [done|]. by rewrite decide_False. Qed.

Lemma trim_cut_none cut s : Forall (λ c, c ∉ cut) s → trim_cut cut s = s.
Proof.
  intros H. unfold trim_cut. rewrite (drop_while_in_none cut s) by done.
  rewrite drop_while_in_none; [apply rev_involutive|]. by apply List.Forall_rev.
Qed.

(** ** Case mapping and small helpers *)

Definition is_ascii (s : str) : bool := forallb (λ c, byteZ c <? 128)%Z s.
Definition lower_byte (c : ascii) : ascii := if in_z 65 90 (byteZ c) then byte_of (byteZ c + 32) else c.
Definition upper_byte (c : ascii) : ascii := if in_z 97 122 (byteZ c) then byte_of (byteZ c - 32) else c.

(** [strings.ToLower] and [strings.ToUpper] map ASCII strings byte by byte and
    others through Unicode's tables, which are a parameter. *)
Definition ToLower (unicode_lower : str → str) (s : str) : str :=
  if is_ascii s then lower_byte <$> s else unicode_lower s.
Definition ToUpper (unicode_upper : str → str) (s : str) : str :=
  if is_ascii s then upper_byte <$> s else unicode_upper s.

Lemma lower_byte_range c : lower_byte c = c ∨ (in_z 65 90 (byteZ c) = true ∧ byteZ (lower_byte c) = (byteZ c + 32)%Z).
Proof.
  unfold lower_byte. destruct (in_z 65 90 (byteZ c)) eqn:E; [right|by left]. split; [done|].
  unfold in_z in E. zify_bool. rewrite byteZ_byte_of. apply Z.mod_small. lia.
Qed.

Lemma lower_byte_idem c : lower_byte (lower_byte c) = lower_byte c.
Proof.
  destruct (lower_byte_range c) as [Heq|[E Hb]]; [congruence|]. unfold lower_byte at 1.
  assert (in_z 65 90 (byteZ (lower_byte c)) = false) as ->; [|done].
  unfold in_z in *. zify_bool. rewrite Hb. destruct (byteZ c + 32 <=? 90)%Z eqn:E'; zify_bool; [lia|]. by rewrite andb_false_r.
Qed.
Lemma lower_idem (s : str) : lower_byte <$> (lower_byte <$> s) = lower_byte <$> s.
Proof. rewrite <- list_fmap_compose. apply list_fmap_ext. intros _ c _. apply lower_byte_idem. Qed.

Lemma is_ascii_lower s : is_ascii s = true → is_ascii (lower_byte <$> s) = true.
Proof.
  unfold is_ascii. rewrite !forallb_forall. intros Hs c (x & -> & Hx%list_elem_of_In)%list_elem_of_In%list_elem_of_fmap.
  specialize (Hs _ Hx). destruct (lower_byte_range x) as [->|[E Hb]]; [done|]. rewrite Hb.
  unfold in_z in E. zify_bool. apply Z.ltb_lt. lia.
Qed.

(** The longest prefix of bytes that satisfy [p], and the rest. *)
Fixpoint span (p : ascii → bool) (s : str) : str * str :=
  match s with
  | c :: s' => if p c then let '(a, b) := span p s' in (c :: a, b) else ([], s)
  | [] => ([], [])
  end.

(** [hex.EncodeToString]. *)
Definition hex_digit (d : Z) : ascii := if (d <? 10)%Z then byte_of (48 + d) else byte_of (87 + d).
Definition hex_encode (s : str) : str :=
  s ≫= λ c, [hex_digit (byteZ c / 16); hex_digit (byteZ c mod 16)].

Lemma length_hex_encode s : length (hex_encode s) = 2 * length s.
Proof. induction s as [|c s IH]; [done|]. simpl in *. rewrite IH. lia. Qed.

Lemma span_app p a b : Forall (λ c, p c = true) a →
  (match b with [] => True | c :: _ => p c = false end) → span p (a ++ b) = (a, b).
Proof.
  intros Ha Hb. induction Ha as [|c a Hc _ IH]; simpl.
  - destruct b as [|c b]; [done|]. simpl. by rewrite Hb.
  - by rewrite Hc, IH.
Qed.

Lemma span_eq p s : (span p s).1 ++ (span p s).2 = s.
Proof. induction s as [|c s IH]; simpl; [done|]. destruct (p c); [|done]. destruct (span p s). simpl in *. by rewrite IH. Qed.

Lemma span_head p c s : p c = true → (span p (c :: s)).1 ≠ [].
Proof. intros Hc. simpl. rewrite Hc. by destruct (span p s). Qed.

(** *** [TrimSpace] is idempotent *)

(** Cutting bytes off the end leaves the first rune as it is or makes it an
    invalid encoding. *)
Lemma decode_rune_take k s : 0 < k →
  decode_rune (take k s) = decode_rune s ∨ decode_rune (take k s) = Some (65533%Z, 1).
Proof.
  intros Hk. destruct k as [|k]; [lia|]. destruct s as [|c0 s]; [by left|]. unfold decode_rune. simpl.
  destruct (byteZ c0 <? 128)%Z; [by left|]. destruct (in_z 194 223 (byteZ c0)).
  { destruct k as [|k], s as [|c1 s]; simpl; auto. }
  destruct (in_z 224 239 (byteZ c0)).
  { destruct k as [|[|k]], s as [|c1 [|c2 s]]; simpl; auto. }
  destruct (in_z 240 244 (byteZ c0)); [|by left].
  destruct k as [|[|[|k]]], s as [|c1 [|c2 [|c3 s]]]; simpl; auto.
Qed.

Lemma decode_rune_width s r n : decode_rune s = Some (r, n) → 1 ≤ n.
Proof.
  unfold decode_rune. intros Hd. destruct (byteZ <$> s) as [|b0 t]; [done|].
  repeat (case_match; simplify_eq; try lia).
Qed.

Lemma decode_last_rune_width s r n : decode_last_rune s = Some (r, n) → 1 ≤ n ∧ s ≠ [].
Proof.
  unfold decode_last_rune. intros Hd. destruct (last s) as [c|] eqn:Hl; [|done].
  split; [|by intros ->]. case_match; simplify_eq; [done|].
  destruct (decode_rune _) as [[r' n']|] eqn:Hr; [|by simplify_eq].
  apply decode_rune_width in Hr. case_match; by simplify_eq.
Qed.

(** A string that does not start (end) with white space. *)
Definition left_trimmed (s : str) : Prop := ∀ r n, decode_rune s = Some (r, n) → is_space r = false.
Definition right_trimmed (s : str) : Prop := ∀ r n, decode_last_rune s = Some (r, n) → is_space r = false.

Lemma trim_left_id f s : left_trimmed s → trim_left_fuel f s = s.
Proof. intros Hs. destruct f; simpl; [done|]. destruct (decode_rune s) as [[r n]|] eqn:E; [|done]. by rewrite (Hs _ _ E). Qed.

Lemma trim_right_id f s : right_trimmed s → trim_right_fuel f s = s.
Proof. intros Hs. destruct f; simpl; [done|]. destruct (decode_last_rune s) as [[r n]|] eqn:E; [|done]. by rewrite (Hs _ _ E). Qed.

Lemma trim_left_trimmed f s : length s ≤ f → left_trimmed (trim_left_fuel f s).
Proof.
  revert s. induction f as [|f IH]; intros s Hf; simpl.
  - destruct s; simpl in Hf; [done|lia].
  - destruct (decode_rune s) as [[r n]|] eqn:E; [|intros ??; congruence].
    destruct (is_space r) eqn:Hr; [|intros ??; congruence]. apply IH.
    apply decode_rune_width in E. rewrite length_drop. destruct s; simpl in *; lia.
Qed.

Lemma trim_right_trimmed f s : length s ≤ f → left_trimmed s →
  right_trimmed (trim_right_fuel f s) ∧ left_trimmed (trim_right_fuel f s).
Proof.
  revert s. induction f as [|f IH]; intros s Hf Hl; simpl.
  - destruct s; simpl in Hf; [done|lia].
  - destruct (decode_last_rune s) as [[r n]|] eqn:E; [|split; [intros ??; congruence|done]].
    destruct (is_space r) eqn:Hr; [|split; [intros ??; congruence|done]].
    apply decode_last_rune_width in E as [Hn Hne]. apply IH.
    + rewrite length_take. destruct s; simpl in *; [done|lia].
    + intros r' n' Hd. destruct (decide (length s - n = 0)) as [Hz|Hz]; [by rewrite Hz in Hd|].
      destruct (decode_rune_take (length s - n) s ltac:(lia)) as [He|He]; rewrite He in Hd; [by eapply Hl|by simplify_eq].
Qed.

Lemma trim_space_idem s : trim_space (trim_space s) = trim_space s.
Proof.
  unfold trim_space at 1 3. set (t := trim_left_fuel (length s) s).
  destruct (trim_right_trimmed (length t) t) as [Hr Hl]; [done|by apply trim_left_trimmed|].
  unfold trim_space. fold t. rewrite (trim_left_id _ _ Hl). by apply trim_right_id.
Qed.

(** [strings.Fields]: the maximal runs of runes that are not white space. *)
Fixpoint fields_fuel (fuel : nat) (cur s : str) : list str :=
  let emit := if decide (cur = []) then [] else [cur] in
  match fuel, decode_rune s with
  | S f, Some (r, n) =>
    if is_space r then emit ++ fields_fuel f [] (drop n s)
    else fields_fuel f (cur ++ take n s) (drop n s)
  | _, _ => emit
  end.
Definition Fields (s : str) : list str := fields_fuel (length s) [] s.

(** ** Substrings *)

(** [strings.Contains]. *)
Fixpoint str_contains (s sub : str) : bool :=
  bool_decide (sub `prefix_of` s) || match s with [] => false | _ :: s' => str_contains s' sub end.

(** [strings.Split] with a separator of any length: the leftmost occurrences
    that do not overlap; [skip] bytes of the separator remain to be passed. *)
Fixpoint split_str (sep s : str) (skip : nat) (cur : str) : list str :=
  match s, skip with
  | [], _ => [cur]
  | _ :: s', S k => split_str sep s' k cur
  | c :: s', 0 =>
    if decide (sep `prefix_of` s) then cur :: split_str sep s' (length sep - 1) []
    else split_str sep s' 0 (cur ++ [c])
  end.

(** An empty separator cuts the string into its runes. *)
Fixpoint explode_fuel (fuel : nat) (s : str) : list str :=
  match fuel, decode_rune s with
  | S f, Some (_, n) => take n s :: explode_fuel f (drop n s)
  | _, _ => []
  end.
Definition Split (s sep : str) : list str :=
  if decide (sep = []) then explode_fuel (length s) s else split_str sep s 0 [].

Lemma split_str_nonempty sep s k cur : split_str sep s k cur ≠ [].
Proof. revert k cur. induction s as [|c s IH]; intros [|k] cur; simpl; [done..| |apply IH]. case_decide; [done|apply IH]. Qed.

Lemma join_cons sep p l : l ≠ [] → join sep (p :: l) = p ++ sep ++ join sep l.
Proof. by destruct l. Qed.

Lemma join_split_str sep s k cur : sep ≠ [] →
  join sep (split_str sep s k cur) = cur ++ drop k s.
Proof.
  intros Hsep. revert k cur. induction s as [|c s IH]; intros [|k] cur; cbn [split_str]; [by rewrite app_nil_r|by rewrite app_nil_r| |by rewrite IH].
  destruct (decide _) as [[t Ht]|]; [|by rewrite IH, <- app_assoc].
  rewrite join_cons by apply split_str_nonempty. rewrite IH. simpl. f_equal.
  destruct sep as [|x sep]; [done|]. simpl in *. simplify_eq. f_equal.
  by rewrite Nat.sub_0_r, drop_app_length.
Qed.

Lemma concat_explode f s : length s ≤ f → concat (explode_fuel f s) = s.
Proof.
  revert s. induction f as [|f IH]; intros s Hf; simpl.
  - by destruct s; [|simpl in Hf; lia].
  - destruct (decode_rune s) as [[r n]|] eqn:E.
    + pose proof (decode_rune_width _ _ _ E). destruct s as [|c s]; [done|].
      cbn [concat]. rewrite IH; [apply take_drop|]. rewrite length_drop. simpl in *. lia.
    + destruct s as [|c s]; [done|]. exfalso. unfold decode_rune in E. simpl in E. by repeat case_match.
Qed.

Lemma join_nil l : join [] l = concat l.
Proof. induction l as [|p [|q l] IH]; simpl in *; [done|by rewrite app_nil_r|by rewrite <- IH]. Qed.

(** Joining what [Split] returns gives the string back, for every separator. *)
Lemma join_Split s sep : join sep (Split s sep) = s.
Proof.
  unfold Split. case_decide as Hs; [subst; rewrite join_nil; by apply concat_explode|].
  by rewrite join_split_str.
Qed.
