(* ===== verification/GoFloat.v ===== *)
(** * GoFloat: float64

    binary64 in the standard library's [SpecFloat]: the operations the sources
    use, conversions from and to integers, integers below [2^53], which are exact,
    and the bounds of one rounding. *)
From S2P Require Import Prelude GoStrings.
From Stdlib Require Import SpecFloat.

(** binary64 *)
Definition f64_add := SFadd 53 1024.
Definition f64_sub := SFsub 53 1024.
Definition f64_mul := SFmul 53 1024.
Definition f64_div := SFdiv 53 1024.
Definition float_of_int (n : Z) : spec_float := binary_normalize 53 1024 n 0 false.

(** [math.Mod]: the exact remainder of truncated division. *)
Definition f64_mod (x y : spec_float) : spec_float :=
  match x, y with
  | S754_nan, _ | _, S754_nan | S754_infinity _, _ | _, S754_zero _ => S754_nan
  | _, S754_infinity _ | S754_zero _, _ => x
  | S754_finite sx mx ex, S754_finite _ my ey =>
    let e := Z.min ex ey in
    let r := Z.rem (Zpos mx * 2 ^ (ex - e)) (Zpos my * 2 ^ (ey - e)) in
    match r with
    | Z0 => S754_zero sx
    | _ => binary_normalize 53 1024 (if sx then - r else r) e sx
    end
  end.

(** The integer part of a finite number. *)
Definition float_trunc (s : bool) (m : positive) (e : Z) : Z :=
  let a := if (0 <=? e)%Z then (Zpos m * 2 ^ e)%Z else (Zpos m / 2 ^ (- e))%Z in
  if s then (- a)%Z else a.

Definition in_int64 (n : Z) : bool := in_z (int_min int64) (int_max int64) n.

(** ** Small integers are exact *)

Lemma digits2_pos_bounds p :
  (2 ^ (Zpos (digits2_pos p) - 1) ≤ Zpos p < 2 ^ Zpos (digits2_pos p))%Z.
Proof.
  induction p as [p IH|p IH|]; simpl digits2_pos; [..|done];
    rewrite Pos2Z.inj_succ, Z.pow_succ_r by lia;
    replace (Z.succ (Zpos (digits2_pos p)) - 1)%Z with (Z.succ (Zpos (digits2_pos p) - 1)) by lia;
    rewrite Z.pow_succ_r by lia; lia.
Qed.

Lemma digits2_iter p k : Zpos (digits2_pos (Pos.iter xO p k)) = (Zpos (digits2_pos p) + Zpos k)%Z.
Proof.
  induction k as [|k IH] using Pos.peano_ind; [simpl; lia|].
  rewrite Pos.iter_succ. simpl digits2_pos. lia.
Qed.

Lemma iter_xO_mul p k : Zpos (Pos.iter xO p k) = (Zpos p * 2 ^ Zpos k)%Z.
Proof.
  induction k as [|k IH] using Pos.peano_ind; [simpl; lia|].
  rewrite Pos.iter_succ, Pos2Z.inj_succ, Z.pow_succ_r, (Pos2Z.inj_xO (Pos.iter _ _ _)), IH by lia. lia.
Qed.

(** A mantissa of 53 digits is not changed by rounding. *)
Lemma binary_round_aux_53 s m e : (Zpos (digits2_pos m) = 53)%Z → (-1074 ≤ e ≤ 971)%Z →
  binary_round_aux 53 1024 s (Zpos m) e loc_Exact = S754_finite s m e.
Proof.
  intros Hd He. unfold binary_round_aux, shr_fexp, fexp, emin. simpl Zdigits2. rewrite Hd.
  replace (Z.max (53 + e - 53) (3 - 1024 - 53) - e)%Z with 0%Z by lia. simpl. rewrite Hd.
  replace (Z.max (53 + e - 53) (3 - 1024 - 53) - e)%Z with 0%Z by lia. simpl.
  destruct (Z.leb_spec e (1024 - 53)); [done|lia].
Qed.

(** The float64 of a positive number below [2^53]: normalised and exact. *)
Lemma binary_round_small s p : (Zpos p < 2 ^ 53)%Z →
  ∃ m e, binary_round 53 1024 s p 0 = S754_finite s m e ∧ (2 ^ 52 ≤ Zpos m < 2 ^ 53)%Z
    ∧ (-52 ≤ e ≤ 0)%Z ∧ Zpos m = (Zpos p * 2 ^ (- e))%Z.
Proof.
  intros Hp. pose proof (digits2_pos_bounds p) as Hb.
  assert (Zpos (digits2_pos p) ≤ 53)%Z as Hd.
  { destruct (Z.le_gt_cases (Zpos (digits2_pos p)) 53); [done|].
    pose proof (Z.pow_le_mono_r 2 53 (Zpos (digits2_pos p) - 1)). lia. }
  unfold binary_round, fexp, emin, shl_align.
  replace (Z.max (Zpos (digits2_pos p) + 0 - 53) (3 - 1024 - 53) - 0)%Z
    with (Zpos (digits2_pos p) - 53)%Z by lia.
  replace (Z.max (Zpos (digits2_pos p) + 0 - 53) (3 - 1024 - 53))%Z
    with (Zpos (digits2_pos p) - 53)%Z by lia.
  destruct (Zpos (digits2_pos p) - 53)%Z as [|k|k] eqn:Ek; [|lia|].
  - exists p, 0%Z. split; [apply binary_round_aux_53; lia|].
    replace (Zpos (digits2_pos p)) with 53%Z in Hb by lia. simpl Z.sub in Hb. lia.
  - pose proof (digits2_iter p k) as Hi. pose proof (digits2_pos_bounds (Pos.iter xO p k)) as Hb'.
    exists (Pos.iter xO p k), (Zneg k). split; [apply binary_round_aux_53; lia|].
    replace (Zpos (digits2_pos (Pos.iter xO p k))) with 53%Z in Hb' by lia. simpl Z.sub in Hb'.
    split; [lia|]. split; [lia|]. rewrite iter_xO_mul. simpl Z.opp. done.
Qed.

(** What [float_of_int] gives for the numbers up to [2^53] in size. *)
Definition exact_float (n : Z) (f : spec_float) : Prop :=
  (n = 0 ∧ f = S754_zero false)%Z ∨
  ∃ s m e, f = S754_finite s m e ∧ (2 ^ 52 ≤ Zpos m < 2 ^ 53)%Z ∧ (-52 ≤ e ≤ 1)%Z
    ∧ (Zpos m * 2 ^ (e + 52) = Z.abs n * 2 ^ 52)%Z ∧ (if s then n < 0 else 0 < n)%Z.

Lemma float_of_int_exact n : (- 2 ^ 53 ≤ n ≤ 2 ^ 53)%Z → exact_float n (float_of_int n).
Proof.
  intros Hn. unfold exact_float, float_of_int, binary_normalize.
  destruct n as [|p|p]; [by left|right..].
  - destruct (decide (p = 9007199254740992%positive)) as [->|Hp].
    { exists false, 4503599627370496%positive, 1%Z. vm_compute. intuition congruence. }
    destruct (binary_round_small false p) as (m & e & -> & Hm & He & Hv); [lia|].
    exists false, m, e. rewrite Hv. split_and!; try done; try lia.
    rewrite <- Z.mul_assoc, <- Z.pow_add_r by lia. by replace (- e + (e + 52))%Z with 52%Z by lia.
  - destruct (decide (p = 9007199254740992%positive)) as [->|Hp].
    { exists true, 4503599627370496%positive, 1%Z. vm_compute. intuition congruence. }
    destruct (binary_round_small true p) as (m & e & -> & Hm & He & Hv); [lia|].
    exists true, m, e. rewrite Hv. split_and!; try done; try lia.
    rewrite <- Z.mul_assoc, <- Z.pow_add_r by lia. by replace (- e + (e + 52))%Z with 52%Z by lia.
Qed.

Lemma exact_float_trunc (s : bool) m e n :
  (-52 ≤ e ≤ 1)%Z → (Zpos m * 2 ^ (e + 52) = Z.abs n * 2 ^ 52)%Z → (if s then n < 0 else 0 < n)%Z →
  float_trunc s m e = n.
Proof.
  intros He Hv Hs. unfold float_trunc.
  assert ((if (0 <=? e)%Z then (Zpos m * 2 ^ e) else (Zpos m / 2 ^ (- e))) = Z.abs n)%Z as ->.
  2: { destruct s; lia. }
  destruct (Z.leb_spec 0 e).
  - rewrite Z.pow_add_r in Hv by lia. nia.
  - assert (2 ^ 52 = 2 ^ (e + 52) * 2 ^ (- e))%Z as Hp by (rewrite <- Z.pow_add_r by lia; f_equal; lia).
    rewrite Hp in Hv. pose proof (Z.pow_pos_nonneg 2 (e + 52) ltac:(lia) ltac:(lia)).
    assert (Zpos m = Z.abs n * 2 ^ (- e))%Z as -> by nia.
    apply Z.div_mul. pose proof (Z.pow_pos_nonneg 2 (- e) ltac:(lia) ltac:(lia)). lia.
Qed.

(** Normalised numbers of one sign are ordered by exponent, then mantissa. *)
Lemma exact_magnitude m1 e1 m2 e2 a b :
  (2 ^ 52 ≤ Zpos m1 < 2 ^ 53)%Z → (2 ^ 52 ≤ Zpos m2 < 2 ^ 53)%Z → (-52 ≤ e1)%Z → (-52 ≤ e2)%Z →
  (Zpos m1 * 2 ^ (e1 + 52) = a * 2 ^ 52)%Z → (Zpos m2 * 2 ^ (e2 + 52) = b * 2 ^ 52)%Z →
  match (e1 ?= e2)%Z with Lt => Lt | Gt => Gt | Eq => Pos.compare_cont Eq m1 m2 end = (a ?= b)%Z.
Proof.
  intros H1 H2 He1 He2 Ha Hb.
  assert (∀ m m' x y z w : Z, (0 ≤ x)%Z → (x < y)%Z → (2 ^ 52 ≤ m')%Z → (m < 2 ^ 53)%Z →
    (m * 2 ^ x = z * 2 ^ 52)%Z → (m' * 2 ^ y = w * 2 ^ 52)%Z → (z < w)%Z) as Hlt.
  { intros m m' x y z w Hx Hxy Hm' Hm Hz Hw.
    pose proof (Z.pow_pos_nonneg 2 x ltac:(lia) Hx).
    pose proof (Z.pow_le_mono_r 2 (x + 1) y ltac:(lia) ltac:(lia)) as Hp.
    rewrite Z.pow_add_r in Hp by lia. nia. }
  destruct (Z.compare_spec e1 e2) as [->|Hl|Hl]; symmetry.
  - change (Pos.compare_cont Eq m1 m2) with (Pos.compare m1 m2).
    pose proof (Z.pow_pos_nonneg 2 (e2 + 52) ltac:(lia) ltac:(lia)).
    destruct (Pos.compare_spec m1 m2) as [->|Hm|Hm]; [apply Z.compare_eq_iff|apply Z.compare_lt_iff|apply Z.compare_gt_iff]; nia.
  - apply Z.compare_lt_iff. eapply (Hlt (Zpos m1) (Zpos m2) (e1 + 52)%Z (e2 + 52)%Z); [lia..|exact Ha|exact Hb].
  - apply Z.compare_gt_iff. eapply (Hlt (Zpos m2) (Zpos m1) (e2 + 52)%Z (e1 + 52)%Z); [lia..|exact Hb|exact Ha].
Qed.

Lemma SFcompare_exact a b f g : exact_float a f → exact_float b g → SFcompare f g = Some (a ?= b)%Z.
Proof.
  intros [[-> ->]|(s & m & e & -> & Hm & He & Hv & Hs)] [[-> ->]|(s' & m' & e' & -> & Hm' & He' & Hv' & Hs')];
    unfold SFcompare; f_equal.
  - destruct s'; destruct b; done || lia.
  - destruct s; destruct a; done || lia.
  - pose proof (exact_magnitude m e m' e' (Z.abs a) (Z.abs b) ltac:(lia) ltac:(lia) ltac:(lia) ltac:(lia) Hv Hv') as Hc.
    destruct s, s'; [|symmetry; apply Z.compare_lt_iff; lia|symmetry; apply Z.compare_gt_iff; lia|].
    + replace a with (- Z.abs a)%Z by lia. replace b with (- Z.abs b)%Z by lia.
      rewrite Z.compare_opp, (Z.compare_antisym (Z.abs a) (Z.abs b)), <- Hc. by destruct (e ?= e')%Z.
    + rewrite Hc. f_equal; lia.
Qed.


(** ** The bounds of one rounding *)

Lemma shr_1_div r : (0 ≤ shr_m r)%Z → shr_m (shr_1 r) = (shr_m r / 2)%Z.
Proof. rewrite <- Z.div2_div. destruct r as [[|[p|p|]|p] b c]; simpl; lia. Qed.

Lemma shr_iter_div n r : (0 ≤ shr_m r)%Z → shr_m (SpecFloat.iter_pos shr_1 n r) = (shr_m r / 2 ^ Zpos n)%Z.
Proof.
  assert (∀ k r, (0 ≤ shr_m r)%Z → shr_m (Nat.iter k shr_1 r) = (shr_m r / 2 ^ Z.of_nat k)%Z ∧ (0 ≤ shr_m (Nat.iter k shr_1 r))%Z) as Hnat.
  { induction k as [|k IH]; intros s Hs; [split; [by rewrite Z.pow_0_r, Z.div_1_r|done]|]. destruct (IH s Hs) as [E Hn].
    rewrite Nat.iter_succ, shr_1_div, E by done. rewrite Nat2Z.inj_succ, Z.pow_succ_r, (Z.mul_comm 2), <- Z.div_div by lia. split; [done|].
    apply Z.div_pos; [|lia]. apply Z.div_pos; lia. }
  assert (∀ n (r : shr_record), SpecFloat.iter_pos shr_1 n r = Nat.iter (Pos.to_nat n) shr_1 r) as Hit.
  { clear. induction n as [n IH|n IH|]; intros r; cbn [SpecFloat.iter_pos]; [| |done]; rewrite !IH, <- Nat.iter_add.
    - rewrite <- Nat.iter_succ_r. f_equal. lia.
    - f_equal. lia. }
  intros Hr. rewrite Hit. destruct (Hnat (Pos.to_nat n) r Hr) as [-> _]. by rewrite positive_nat_Z.
Qed.

Definition round_shift (m : Z) : Z := Z.max 0 (Zdigits2 m - 53).

Lemma shr_fexp_spec m e l : (0 < m)%Z → (-1074 ≤ e)%Z →
  ∃ r, shr_fexp 53 1024 m e l = (r, e + round_shift m)%Z ∧ shr_m r = (m / 2 ^ round_shift m)%Z.
Proof.
  intros Hm He. unfold shr_fexp, shr, fexp, emin.
  assert (shr_m (shr_record_of_loc m l) = m) as Hrec by (by destruct l as [|[]]).
  assert (Z.max (Zdigits2 m + e - 53) (3 - 1024 - 53) - e = Zdigits2 m - 53 ∨
    Z.max (Zdigits2 m + e - 53) (3 - 1024 - 53) - e ≤ 0 ∧ Zdigits2 m - 53 ≤ 0)%Z as Hk by lia.
  set (k := (Z.max _ _ - e)%Z) in *. unfold round_shift. destruct k as [|p|p] eqn:Ek.
  - eexists. split; [f_equal; lia|]. replace (Z.max 0 (Zdigits2 m - 53)) with 0%Z by lia. by rewrite Hrec, Z.pow_0_r, Z.div_1_r.
  - eexists. split; [f_equal; lia|]. replace (Z.max 0 (Zdigits2 m - 53)) with (Zpos p) by lia. rewrite shr_iter_div by lia. by rewrite Hrec.
  - eexists. split; [f_equal; lia|]. replace (Z.max 0 (Zdigits2 m - 53)) with 0%Z by lia. by rewrite Hrec, Z.pow_0_r, Z.div_1_r.
Qed.

Lemma Zdigits2_bounds m : (0 < m)%Z → (2 ^ (Zdigits2 m - 1) ≤ m < 2 ^ Zdigits2 m)%Z ∧ (1 ≤ Zdigits2 m)%Z.
Proof. destruct m as [|p|p]; try lia. intros _. split; [apply digits2_pos_bounds|simpl; lia]. Qed.

Lemma Zdigits2_unique m d : (0 < m)%Z → (2 ^ (d - 1) ≤ m < 2 ^ d)%Z → (1 ≤ d)%Z → Zdigits2 m = d.
Proof.
  intros Hm [Hl Hu] Hd. destruct (Zdigits2_bounds m Hm) as [[Hl' Hu'] Hd'].
  destruct (Z.lt_trichotomy (Zdigits2 m) d) as [Hlt|[He|Hgt]]; [|done|].
  - pose proof (Z.pow_le_mono_r 2 (Zdigits2 m) (d - 1)). lia.
  - pose proof (Z.pow_le_mono_r 2 d (Zdigits2 m - 1)). lia.
Qed.

(** The mantissa after the shift has at most 53 digits, and 53 when something
    was shifted out. *)
Lemma shifted_range m : (0 < m)%Z → (0 < m / 2 ^ round_shift m < 2 ^ 53)%Z ∧ ((0 < round_shift m)%Z → (2 ^ 52 ≤ m / 2 ^ round_shift m)%Z).
Proof.
  intros Hm. destruct (Zdigits2_bounds m Hm) as [[Hl Hu] Hd]. unfold round_shift.
  destruct (Z.le_gt_cases (Zdigits2 m) 53) as [Hle|Hgt].
  - replace (Z.max 0 (Zdigits2 m - 53)) with 0%Z by lia. rewrite Z.pow_0_r, Z.div_1_r.
    pose proof (Z.pow_le_mono_r 2 (Zdigits2 m) 53). lia.
  - replace (Z.max 0 (Zdigits2 m - 53)) with (Zdigits2 m - 53)%Z by lia.
    assert (0 < 2 ^ (Zdigits2 m - 53))%Z as Hp by (apply Z.pow_pos_nonneg; lia).
    assert (2 ^ 52 ≤ m / 2 ^ (Zdigits2 m - 53) < 2 ^ 53)%Z; [|lia]. split.
    + apply Z.div_le_lower_bound; [done|]. rewrite <- Z.pow_add_r by lia. by replace (Zdigits2 m - 53 + 52)%Z with (Zdigits2 m - 1)%Z by lia.
    + apply Z.div_lt_upper_bound; [done|]. rewrite <- Z.pow_add_r by lia. by replace (Zdigits2 m - 53 + 53)%Z with (Zdigits2 m) by lia.
Qed.

(** Rounding gives the shifted mantissa or its successor, which is brought back
    to 53 digits. *)
Lemma binary_round_aux_bounds m e l : (0 < m)%Z → (-1074 ≤ e)%Z → (e + round_shift m ≤ 900)%Z →
  ∃ mz ez, binary_round_aux 53 1024 false m e l = S754_finite false mz ez
  ∧ let q := (m / 2 ^ round_shift m)%Z in
    (ez = e + round_shift m ∧ (Zpos mz = q ∨ Zpos mz = q + 1) ∧ Zpos mz < 2 ^ 53)%Z
    ∨ (ez = e + round_shift m + 1 ∧ Zpos mz = 2 ^ 52 ∧ q = 2 ^ 53 - 1)%Z.
Proof.
  intros Hm He Hbig. unfold binary_round_aux. destruct (shr_fexp_spec m e l Hm He) as (r & -> & Hr).
  destruct (shifted_range m Hm) as [Hq _]. set (q := (m / 2 ^ round_shift m)%Z) in *. set (e1 := (e + round_shift m)%Z) in *.
  assert (0 ≤ round_shift m)%Z as Hs by (unfold round_shift; lia).
  assert (round_nearest_even (shr_m r) (loc_of_shr_record r) = q ∨ round_nearest_even (shr_m r) (loc_of_shr_record r) = q + 1)%Z as Hx.
  { rewrite Hr. destruct (loc_of_shr_record r) as [|[]]; simpl; try (by left); try (by right). destruct (Z.even q); [by left|by right]. }
  set (x := round_nearest_even _ _) in *. clearbody x.
  destruct (shr_fexp_spec x e1 loc_Exact) as (r2 & -> & Hr2); [lia|lia|].
  destruct (decide (x = 2 ^ 53)%Z) as [->|Hne].
  - assert (round_shift (2 ^ 53) = 1)%Z as Hrs by reflexivity. rewrite Hrs in *. rewrite Hr2. change (2 ^ 53 / 2 ^ 1)%Z with (Zpos 4503599627370496).
    rewrite (proj2 (Z.leb_le _ _)) by lia. exists 4503599627370496%positive, (e1 + 1)%Z. split; [done|]. right. split; [done|]. split; [done|]. lia.
  - assert (round_shift x = 0)%Z as Hrs.
    { unfold round_shift. destruct (Zdigits2_bounds x) as [[Hl _] _]; [lia|].
      destruct (Z.le_gt_cases (Zdigits2 x) 53); [lia|]. pose proof (Z.pow_le_mono_r 2 53 (Zdigits2 x - 1)). lia. }
    rewrite Hrs, Z.pow_0_r, Z.div_1_r in Hr2. rewrite Hr2, Hrs, Z.add_0_r. destruct x as [|p|p]; [lia| |lia].
    rewrite (proj2 (Z.leb_le _ _)) by lia. exists p, e1. split; [done|]. left. split; [done|]. split; [done|]. lia.
Qed.
