(* ===== verification/Bytes.v ===== *)
(** * Bytes: big-endian integers and sequential reads

    [encoding/binary.BigEndian] on fixed-width unsigned integers, and the
    readers the wire-format code uses ([io.ReadFull], [ReadByte]): a reader is
    the list of bytes that are left, and a short read is an error. *)
From S2P Require Import Prelude.

(** ** Big-endian integers *)

(** [PutUint]: the low [8 n] bits of [z], most significant byte first. *)
Fixpoint be_put (n : nat) (z : Z) : str :=
  match n with
  | 0 => []
  | S n' => byte_of (Z.shiftr z (8 * Z.of_nat n')) :: be_put n' z
  end.

(** [Uint]: the value of a byte string. *)
Fixpoint be_get_acc (acc : Z) (s : str) : Z :=
  match s with
  | [] => acc
  | c :: s' => be_get_acc (Z.lor (Z.shiftl acc 8) (byteZ c)) s'
  end.
Definition be_get (s : str) : Z := be_get_acc 0 s.

Lemma length_be_put n z : length (be_put n z) = n.
Proof. induction n; simpl; congruence. Qed.

(** Appending a byte below a shifted value is addition. *)
Lemma lor_shiftl_byte a c : Z.lor (Z.shiftl a 8) (byteZ c) = (a * 256 + byteZ c)%Z.
Proof.
  pose proof (byteZ_range c). rewrite Z.shiftl_mul_pow2 by lia. change (2 ^ 8)%Z with 256%Z.
  assert (Hland : Z.land (a * 256) (byteZ c) = 0%Z).
  { apply Z.bits_inj'. intros i Hi. rewrite Z.land_spec, Z.bits_0.
    change 256%Z with (2 ^ 8)%Z. destruct (Z.ltb_spec i 8).
    - rewrite Z.mul_pow2_bits_low by lia. done.
    - replace (byteZ c) with (byteZ c mod 2 ^ 8)%Z by (apply Z.mod_small; lia).
      rewrite (Z.mod_pow2_bits_high (byteZ c) 8 i) by lia. apply andb_false_r. }
  pose proof (Z.add_lor_land (a * 256) (byteZ c)). lia.
Qed.

Lemma be_get_acc_linear acc s : be_get_acc acc s = (acc * 2 ^ (8 * Z.of_nat (length s)) + be_get_acc 0 s)%Z.
Proof.
  revert acc. induction s as [|c s IH]; intros acc; simpl; [lia|].
  rewrite IH, (IH (Z.lor (Z.shiftl 0 8) (byteZ c))), !lor_shiftl_byte.
  replace (8 * Z.of_nat (S (length s)))%Z with (8 + 8 * Z.of_nat (length s))%Z by lia.
  rewrite Z.pow_add_r by lia. change (2 ^ 8)%Z with 256%Z. lia.
Qed.

Lemma be_get_cons c s : be_get (c :: s) = (byteZ c * 2 ^ (8 * Z.of_nat (length s)) + be_get s)%Z.
Proof. unfold be_get. simpl. rewrite be_get_acc_linear, lor_shiftl_byte. lia. Qed.

Lemma be_get_range s : (0 ≤ be_get s < 2 ^ (8 * Z.of_nat (length s)))%Z.
Proof.
  induction s as [|c s IH]; [vm_compute; done|]. rewrite be_get_cons. pose proof (byteZ_range c).
  simpl length. replace (8 * Z.of_nat (S (length s)))%Z with (8 + 8 * Z.of_nat (length s))%Z by lia.
  rewrite Z.pow_add_r by lia. change (2 ^ 8)%Z with 256%Z.
  pose proof (Z.pow_pos_nonneg 2 (8 * Z.of_nat (length s))). nia.
Qed.

(** Decoding what was encoded gives the value modulo the width. *)
Lemma be_get_put n z : be_get (be_put n z) = (z mod 2 ^ (8 * Z.of_nat n))%Z.
Proof.
  induction n as [|n IH].
  - simpl. by rewrite Z.mod_1_r.
  - simpl be_put. rewrite be_get_cons, byteZ_byte_of, length_be_put, IH, Z.shiftr_div_pow2 by lia.
    replace (8 * Z.of_nat (S n))%Z with (8 * Z.of_nat n + 8)%Z by lia.
    rewrite Z.pow_add_r by lia. change (2 ^ 8)%Z with 256%Z.
    pose proof (Z.pow_pos_nonneg 2 (8 * Z.of_nat n)).
    rewrite (Z.rem_mul_r z (2 ^ (8 * Z.of_nat n)) 256) by lia. lia.
Qed.

Lemma be_get_put_small n z : (0 ≤ z < 2 ^ (8 * Z.of_nat n))%Z → be_get (be_put n z) = z.
Proof. intros. rewrite be_get_put. by apply Z.mod_small. Qed.

Lemma be_get_inj s t : length s = length t → be_get s = be_get t → s = t.
Proof.
  revert t. induction s as [|c s IH]; intros [|d t] Hlen Hget; try done. simpl in Hlen. injection Hlen as Hlen.
  rewrite !be_get_cons, Hlen in Hget. pose proof (be_get_range s) as Hs. pose proof (be_get_range t) as Ht.
  rewrite Hlen in Hs. pose proof (Z.pow_pos_nonneg 2 (8 * Z.of_nat (length t))).
  assert (byteZ c = byteZ d) as Hcd by nia.
  apply byteZ_inj in Hcd as ->. f_equal. apply IH; [done|]. nia.
Qed.

(** Encoding what was decoded gives the bytes back. *)
Lemma be_put_get s : be_put (length s) (be_get s) = s.
Proof.
  apply be_get_inj; [apply length_be_put|]. apply be_get_put_small, be_get_range.
Qed.

Lemma be_put_get_n n s : length s = n → be_put n (be_get s) = s.
Proof. intros <-. apply be_put_get. Qed.

(** ** Readers *)

(** [io.ReadFull(r, buf)] with [len(buf) = n]. *)
Definition read_full (n : nat) (r : str) : result (str * str) :=
  if (length r <? n)%nat then Err "unexpected EOF" else Ok (take n r, drop n r).

Definition read_byte (r : str) : result (ascii * str) :=
  match r with [] => Err "EOF" | c :: r' => Ok (c, r') end.

(** [binary.Read(r, binary.BigEndian, &x)] for an unsigned [x] of [n] bytes. *)
Definition read_uint (n : nat) (r : str) : result (Z * str) :=
  '(b, r) ← read_full n r; Ok (be_get b, r).

Lemma read_full_returns n r : read_full n r ≠ Panic.
Proof. unfold read_full. by case_match. Qed.
Lemma read_full_app n s r : length s = n → read_full n (s ++ r) = Ok (s, r).
Proof.
  intros <-. unfold read_full. rewrite length_app. destruct (Nat.ltb_spec (length s + length r) (length s)); [lia|].
  by rewrite take_app_length, drop_app_length.
Qed.

Lemma read_uint_app n z r : (0 ≤ z < 2 ^ (8 * Z.of_nat n))%Z → read_uint n (be_put n z ++ r) = Ok (z, r).
Proof.
  intros Hz. unfold read_uint. rewrite read_full_app by apply length_be_put. simpl.
  by rewrite be_get_put_small.
Qed.
