(* ===== verification/NetIP.v ===== *)
(** * NetIP: the addresses of [net/netip]

    What the components use of Go's [net/netip]: [Addr] (the zero value, an
    IPv4 address, or an IPv6 address with a zone), its order, successor and
    predecessor, its byte forms, and [Prefix]. *)
From S2P Require Import Prelude Bytes.

Inductive Addr :=
| AddrZero
| Addr4 (v : Z)
| Addr6 (v : Z) (zone : str).

#[export] Instance Addr_eq_dec : EqDecision Addr.
Proof. solve_decision. Defined.

#[export] Instance Addr_countable : Countable Addr.
Proof.
  apply (inj_countable'
    (λ a, match a with AddrZero => None | Addr4 v => Some (inl v) | Addr6 v z => Some (inr (v, z)) end)
    (λ o, match o with None => AddrZero | Some (inl v) => Addr4 v | Some (inr (v, z)) => Addr6 v z end)).
  by intros [].
Defined.

(** Addresses whose number fits the family. *)
Definition wf_addr (a : Addr) : Prop :=
  match a with
  | AddrZero => True
  | Addr4 v => (0 ≤ v < 2 ^ 32)%Z
  | Addr6 v _ => (0 ≤ v < 2 ^ 128)%Z
  end.

Definition BitLen (a : Addr) : Z :=
  match a with AddrZero => 0 | Addr4 _ => 32 | Addr6 _ _ => 128 end.
Definition addr_num (a : Addr) : Z :=
  match a with AddrZero => 0 | Addr4 v => v | Addr6 v _ => v end.
Definition addr_zone (a : Addr) : str := match a with Addr6 _ z => z | _ => [] end.

Definition IsValid (a : Addr) : bool := negb (bool_decide (a = AddrZero)).
Definition Is4 (a : Addr) : bool := match a with Addr4 _ => true | _ => false end.
Definition Is6 (a : Addr) : bool := match a with Addr6 _ _ => true | _ => false end.

(** [WithZone("")]. *)
Definition without_zone (a : Addr) : Addr := match a with Addr6 v _ => Addr6 v [] | _ => a end.

(** Byte-wise order of strings. *)
Fixpoint str_ltb (s t : str) : bool :=
  match s, t with
  | [], [] => false
  | [], _ => true
  | _, [] => false
  | c :: s', d :: t' => if decide (c = d) then str_ltb s' t' else (byteZ c <? byteZ d)%Z
  end.

(** [Addr.Less]: by family, then by number, then by zone. *)
Definition Less (a b : Addr) : bool :=
  if (BitLen a =? BitLen b)%Z then
    if (addr_num a =? addr_num b)%Z then str_ltb (addr_zone a) (addr_zone b)
    else (addr_num a <? addr_num b)%Z
  else (BitLen a <? BitLen b)%Z.

(** [Addr.Next] and [Addr.Prev]: the zero [Addr] past the ends. *)
Definition Next (a : Addr) : Addr :=
  match a with
  | AddrZero => AddrZero
  | Addr4 v => if (v =? 2 ^ 32 - 1)%Z then AddrZero else Addr4 (v + 1)
  | Addr6 v z => if (v =? 2 ^ 128 - 1)%Z then AddrZero else Addr6 (v + 1) z
  end.
Definition Prev (a : Addr) : Addr :=
  match a with
  | AddrZero => AddrZero
  | Addr4 v => if (v =? 0)%Z then AddrZero else Addr4 (v - 1)
  | Addr6 v z => if (v =? 0)%Z then AddrZero else Addr6 (v - 1) z
  end.

Definition As4 (a : Addr) : str := be_put 4 (addr_num a).
Definition As16 (a : Addr) : str :=
  match a with
  | Addr4 v => be_put 16 (Z.lor (Z.shiftl 65535 32) v)
  | _ => be_put 16 (addr_num a)
  end.
Definition AddrFrom4 (b : str) : Addr := Addr4 (be_get b).
Definition AddrFrom16 (b : str) : Addr := Addr6 (be_get b) [].
Definition AsSlice (a : Addr) : str :=
  match a with AddrZero => [] | Addr4 v => be_put 4 v | Addr6 v _ => be_put 16 v end.

(** [Addr.Unmap]: an IPv4-mapped IPv6 address becomes the IPv4 address. *)
Definition Is4In6 (a : Addr) : bool :=
  match a with Addr6 v _ => (Z.shiftr v 32 =? 65535)%Z | _ => false end.
Definition Unmap (a : Addr) : Addr := if Is4In6 a then Addr4 (addr_num a mod 2 ^ 32) else a.

(** ** Prefixes *)

Record Prefix := MkPrefix { p_addr : Addr; p_bits : Z }.

#[export] Instance Prefix_eq_dec : EqDecision Prefix.
Proof. solve_decision. Defined.

Definition prefix_valid (p : Prefix) : bool :=
  IsValid (p_addr p) && (0 <=? p_bits p)%Z && (p_bits p <=? BitLen (p_addr p))%Z.

(** The number with the host bits cleared. *)
Definition mask_num (len bits v : Z) : Z := Z.shiftl (Z.shiftr v (len - bits)) (len - bits).

Definition Masked (p : Prefix) : Prefix :=
  if prefix_valid p then
    match p_addr p with
    | AddrZero => p
    | Addr4 v => MkPrefix (Addr4 (mask_num 32 (p_bits p) v)) (p_bits p)
    | Addr6 v _ => MkPrefix (Addr6 (mask_num 128 (p_bits p) v) []) (p_bits p)
    end
  else MkPrefix AddrZero (-1).

(** [Prefix.Contains]: same family, no zone, same network bits. *)
Definition prefix_contains (p : Prefix) (a : Addr) : bool :=
  prefix_valid p && IsValid a && bool_decide (addr_zone a = []) && (BitLen (p_addr p) =? BitLen a)%Z
  && (Z.shiftr (addr_num a) (BitLen a - p_bits p) =? Z.shiftr (addr_num (p_addr p)) (BitLen a - p_bits p))%Z.

(** ** Facts *)

Lemma IsValid_true a : IsValid a = true ↔ a ≠ AddrZero.
Proof. unfold IsValid. rewrite negb_true_iff, bool_decide_eq_false. done. Qed.

Lemma str_ltb_irrefl s : str_ltb s s = false.
Proof. induction s; simpl; [done|]. by rewrite decide_True. Qed.

Lemma Less_irrefl a : Less a a = false.
Proof. unfold Less. by rewrite !Z.eqb_refl, str_ltb_irrefl. Qed.

(** The addresses of one family and zone are ordered like their numbers. *)
Definition same_family (a b : Addr) : Prop := BitLen a = BitLen b ∧ addr_zone a = addr_zone b.

#[export] Instance same_family_equiv : Equivalence same_family.
Proof. split; [by intros a|intros a b []; split; congruence|intros a b c [] []; split; congruence]. Qed.

Lemma Less_family a b : same_family a b → Less a b = (addr_num a <? addr_num b)%Z.
Proof.
  intros [Hl Hz]. unfold Less. rewrite Hl, Z.eqb_refl, Hz, str_ltb_irrefl.
  destruct (Z.eqb_spec (addr_num a) (addr_num b)) as [->|]; [|done]. by rewrite Z.ltb_irrefl.
Qed.

Lemma family_num_eq a b : same_family a b → addr_num a = addr_num b → a = b.
Proof. intros [Hl Hz] Hn. destruct a, b; simpl in *; congruence || done. Qed.

(** Below another address of its family an address has a successor in it. *)
Lemma Next_below a b : wf_addr b → same_family a b → a ≠ AddrZero → (addr_num a < addr_num b)%Z →
  same_family (Next a) b ∧ Next a ≠ AddrZero ∧ addr_num (Next a) = (addr_num a + 1)%Z.
Proof.
  intros Hb [Hl Hz] Ha Hlt. destruct a as [|v|v z], b as [|w|w z']; simpl in *; try done.
  - destruct (Z.eqb_spec v (2 ^ 32 - 1)); [lia|]. split; [done|]. by split.
  - destruct (Z.eqb_spec v (2 ^ 128 - 1)); [lia|]. split; [done|]. by split.
Qed.

Lemma Prev_above a : wf_addr a → a ≠ AddrZero → (0 < addr_num a)%Z →
  same_family (Prev a) a ∧ Prev a ≠ AddrZero ∧ addr_num (Prev a) = (addr_num a - 1)%Z.
Proof.
  intros Ha Hne Hpos. destruct a as [|v|v z]; simpl in *; [done| |];
    (destruct (Z.eqb_spec v 0); [lia|]); (split; [done|]); by split.
Qed.

Lemma AddrFrom4_As4 v : (0 ≤ v < 2 ^ 32)%Z → AddrFrom4 (As4 (Addr4 v)) = Addr4 v.
Proof. intros. unfold AddrFrom4, As4. simpl addr_num. by rewrite be_get_put_small. Qed.

Lemma AddrFrom16_As16 v : (0 ≤ v < 2 ^ 128)%Z → AddrFrom16 (As16 (Addr6 v [])) = Addr6 v [].
Proof. intros. unfold AddrFrom16, As16. simpl addr_num. by rewrite be_get_put_small. Qed.

(** ** Prefixes: masking and membership *)

Lemma prefix_contains_between net a ip b : same_family a ip → same_family ip b →
  prefix_contains net a = true → prefix_contains net b = true →
  (addr_num a ≤ addr_num ip ≤ addr_num b)%Z → prefix_contains net ip = true.
Proof.
  unfold prefix_contains. intros [Hl Hz] [Hl' Hz'] Ha Hb Hr.
  rewrite !andb_true_iff, !bool_decide_eq_true, !Z.eqb_eq in *. destruct Ha as ((((? & Hva) & ?) & ?) & Ha).
  destruct Hb as (((_ & ?) & ?) & Hb). rewrite <- Hl' in Hb. rewrite Hl in Ha.
  split; [split; [split; [split; [done|]|congruence]|congruence]|].
  - apply IsValid_true. intros ->. apply IsValid_true in Hva. destruct a; done.
  - assert (Hmono : ∀ x y, (x ≤ y)%Z → (Z.shiftr x (BitLen ip - p_bits net) ≤ Z.shiftr y (BitLen ip - p_bits net))%Z).
    { intros x y Hxy. assert (0 ≤ BitLen ip - p_bits net)%Z.
      { unfold prefix_valid in *. zify_bool. lia. }
      rewrite !Z.shiftr_div_pow2 by done. apply Z.div_le_mono; lia. }
    pose proof (Hmono _ _ (proj1 Hr)). pose proof (Hmono _ _ (proj2 Hr)). lia.
Qed.

Lemma Masked_addr net : prefix_valid net = true → wf_addr (p_addr net) →
  wf_addr (p_addr (Masked net)) ∧ prefix_contains net (p_addr (Masked net)) = true.
Proof.
  intros Hv Hw. assert (Hmask : ∀ len bits v, (0 ≤ bits ≤ len)%Z → (0 ≤ v < 2 ^ len)%Z →
    (0 ≤ mask_num len bits v < 2 ^ len)%Z ∧ Z.shiftr (mask_num len bits v) (len - bits) = Z.shiftr v (len - bits)).
  { intros len bits v Hb Hvv. unfold mask_num. split.
    - rewrite Z.shiftl_mul_pow2, Z.shiftr_div_pow2 by lia.
      pose proof (Z.mul_div_le v (2 ^ (len - bits)) ltac:(lia)).
      pose proof (Z.div_pos v (2 ^ (len - bits)) ltac:(lia) ltac:(lia)). nia.
    - rewrite Z.shiftr_shiftl_l by lia. by rewrite Z.sub_diag, Z.shiftl_0_r. }
  pose proof Hv as Hv'. unfold prefix_valid in Hv'. unfold Masked, prefix_contains. rewrite Hv.
  destruct net as [[|v|v z] bits]; cbn -[Z.pow Z.shiftr mask_num] in *; [done| |]; zify_bool.
  - destruct (Hmask 32%Z bits v ltac:(lia) Hw) as [Hr Hs]. split; [done|]. by rewrite Hs, Z.eqb_refl.
  - destruct (Hmask 128%Z bits v ltac:(lia) Hw) as [Hr Hs]. split; [done|]. by rewrite Hs, Z.eqb_refl.
Qed.

Lemma Next_family a : Next a ≠ AddrZero → wf_addr a →
  same_family (Next a) a ∧ wf_addr (Next a) ∧ addr_num (Next a) = (addr_num a + 1)%Z ∧ a ≠ AddrZero.
Proof.
  destruct a as [|v|v z]; simpl; [done| |].
  - destruct (Z.eqb_spec v (2 ^ 32 - 1)); intros; [done|]. simpl. split_and!; done || lia.
  - destruct (Z.eqb_spec v (2 ^ 128 - 1)); intros; [done|]. simpl. split_and!; done || lia.
Qed.

Lemma Masked_idem p : prefix_valid p = true → addr_zone (p_addr p) = [] →
  prefix_valid (Masked p) = true ∧ addr_zone (p_addr (Masked p)) = [] ∧ Masked (Masked p) = Masked p.
Proof.
  intros Hv Hz. unfold Masked at 1 2 4. rewrite Hv. pose proof Hv as Hv'. unfold prefix_valid in Hv'.
  assert (Hmm : ∀ len bits v, (bits ≤ len)%Z → mask_num len bits (mask_num len bits v) = mask_num len bits v).
  { intros len bits v Hb. unfold mask_num. f_equal. rewrite Z.shiftr_shiftl_l by lia.
    by rewrite Z.sub_diag, Z.shiftl_0_r. }
  destruct p as [[|v|v z] bits]; cbn -[mask_num] in *; [done| |]; zify_bool.
  - unfold Masked, prefix_valid; cbn -[mask_num]. split; [|split; [done|]].
    + rewrite (proj2 (Z.leb_le 0 bits)), (proj2 (Z.leb_le bits 32)) by lia. done.
    + rewrite (proj2 (Z.leb_le 0 bits)), (proj2 (Z.leb_le bits 32)) by lia. cbn -[mask_num]. by rewrite Hmm by lia.
  - unfold Masked, prefix_valid; cbn -[mask_num]. split; [|split; [done|]].
    + rewrite (proj2 (Z.leb_le 0 bits)), (proj2 (Z.leb_le bits 128)) by lia. done.
    + rewrite (proj2 (Z.leb_le 0 bits)), (proj2 (Z.leb_le bits 128)) by lia. cbn -[mask_num]. by rewrite Hmm by lia.
Qed.

(** ** The order of strings *)

Lemma str_ltb_asym s t : str_ltb s t = true → str_ltb t s = false.
Proof.
  revert t. induction s as [|c s IH]; intros [|d t]; simpl; try done.
  destruct (decide (c = d)) as [->|Hne]; [rewrite decide_True by done; apply IH|].
  rewrite decide_False by done. rewrite Z.ltb_lt, Z.ltb_ge. lia.
Qed.

Lemma str_ltb_negtrans s t u : str_ltb t s = false → str_ltb u t = false → str_ltb u s = false.
Proof.
  revert s u. induction t as [|d t IH]; intros [|c s] [|e u]; simpl; try done.
  repeat case_decide; subst; try done; rewrite ?Z.ltb_ge; intros; try lia; [by apply IH|].
  assert (byteZ c ≠ byteZ d) by (by intros ?%byteZ_inj). lia.
Qed.
