(* ===== verification/Metadata.v ===== *)
(** * Metadata: what a connection carries to the rules

    [src/constant/metadata.go]: the networks, the kinds of inbound, and the
    [Metadata] of a connection, which listeners fill in, rules read and change,
    and outbounds dial. [DNSMode] is that of [src/constant/dns.go].

    The raw socket addresses are left out (no modelled function reads them);
    [SrcGeoIP] and [DstGeoIP] are [None] for a nil slice. *)
From S2P Require Import Prelude GoStrings NetIP.

Inductive NetWork := TCP | UDP | ALLNet | InvalidNet.
#[export] Instance NetWork_eq_dec : EqDecision NetWork.
Proof. solve_decision. Defined.

Definition NetWork_String (n : NetWork) : string :=
  match n with TCP => "tcp" | UDP => "udp" | ALLNet => "all" | InvalidNet => "invalid" end.

(** [Type]: the inbound a connection came through. *)
Inductive ConnType :=
| HTTP | HTTPS | SOCKS4 | SOCKS5 | SHADOWSOCKS | SNELL | VMESS | VLESS | REDIR | TPROXY | TROJAN | TUNNEL | TUN | TUIC
| HYSTERIA2 | ANYTLS | MIERU | SUDOKU | TRUSTTUNNEL | SHADOWQUIC | INNER.
#[export] Instance ConnType_eq_dec : EqDecision ConnType.
Proof. solve_decision. Defined.

Definition Type_String (t : ConnType) : string :=
  match t with
  | HTTP => "HTTP" | HTTPS => "HTTPS" | SOCKS4 => "Socks4" | SOCKS5 => "Socks5" | SHADOWSOCKS => "ShadowSocks"
  | SNELL => "Snell" | VMESS => "Vmess" | VLESS => "Vless" | REDIR => "Redir" | TPROXY => "TProxy"
  | TROJAN => "Trojan" | TUNNEL => "Tunnel" | TUN => "Tun" | TUIC => "Tuic" | HYSTERIA2 => "Hysteria2"
  | ANYTLS => "AnyTLS" | MIERU => "Mieru" | SUDOKU => "Sudoku" | TRUSTTUNNEL => "TrustTunnel"
  | SHADOWQUIC => "ShadowQuic" | INNER => "Inner"
  end.

(** The names [ParseType] accepts, in the order of its cases. *)
Definition type_names : list (string * ConnType) :=
  [("HTTP", HTTP); ("HTTPS", HTTPS); ("SOCKS4", SOCKS4); ("SOCKS5", SOCKS5); ("SHADOWSOCKS", SHADOWSOCKS);
   ("SNELL", SNELL); ("VMESS", VMESS); ("VLESS", VLESS); ("REDIR", REDIR); ("TPROXY", TPROXY); ("TROJAN", TROJAN);
   ("TUNNEL", TUNNEL); ("TUN", TUN); ("TUIC", TUIC); ("HYSTERIA2", HYSTERIA2); ("ANYTLS", ANYTLS); ("MIERU", MIERU);
   ("SUDOKU", SUDOKU); ("TRUSTTUNNEL", TRUSTTUNNEL); ("SHADOWQUIC", SHADOWQUIC); ("INNER", INNER)]%string.
Definition ParseType (t : str) : result ConnType :=
  match list_find (λ e, lit e.1 = t) type_names with
  | Some (_, (_, res)) => Ok res
  | None => Err "unknown type"
  end.

Inductive DNSMode := DNSNormal | DNSFakeIP | DNSMapping | DNSHosts.
#[export] Instance DNSMode_eq_dec : EqDecision DNSMode.
Proof. solve_decision. Defined.

Record Metadata := MkMetadata {
  m_NetWork : NetWork; m_Type : ConnType; m_SrcIP : Addr; m_DstIP : Addr;
  m_SrcGeoIP : option (list str); m_DstGeoIP : option (list str); m_SrcIPASN : str; m_DstIPASN : str;
  m_SrcPort : Z; m_DstPort : Z; m_InIP : Addr; m_InPort : Z; m_InName : str; m_InUser : str; m_RematchName : str;
  m_Host : str; m_DNSMode : DNSMode; m_Uid : Z; m_Process : str; m_ProcessPath : str;
  m_SpecialProxy : str; m_SpecialRules : str; m_RemoteDst : str; m_DSCP : Z; m_SniffHost : str
}.
#[export] Instance Metadata_eq_dec : EqDecision Metadata.
Proof. solve_decision. Defined.

(** The zero value, and assignments to the fields the sources assign. *)
Definition metadata_zero : Metadata :=
  MkMetadata TCP HTTP AddrZero AddrZero None None [] [] 0 0 AddrZero 0 [] [] [] [] DNSNormal 0 [] [] [] [] [] 0 [].

Definition with_Host (h : str) (m : Metadata) : Metadata :=
  let '(MkMetadata a b c d e f g i j k l n o p q _ s t u v w x y z z') := m in
  MkMetadata a b c d e f g i j k l n o p q h s t u v w x y z z'.
Definition with_DstIP (ip : Addr) (m : Metadata) : Metadata :=
  let '(MkMetadata a b c _ e f g i j k l n o p q h s t u v w x y z z') := m in
  MkMetadata a b c ip e f g i j k l n o p q h s t u v w x y z z'.
Definition with_DstPort (port : Z) (m : Metadata) : Metadata :=
  let '(MkMetadata a b c d e f g i j _ l n o p q h s t u v w x y z z') := m in
  MkMetadata a b c d e f g i j port l n o p q h s t u v w x y z z'.
Definition with_Process (process path : str) (uid : Z) (m : Metadata) : Metadata :=
  let '(MkMetadata a b c d e f g i j k l n o p q h s _ _ _ w x y z z') := m in
  MkMetadata a b c d e f g i j k l n o p q h s uid process path w x y z z'.
Definition with_RematchName (name : str) (m : Metadata) : Metadata :=
  let '(MkMetadata a b c d e f g i j k l n o p _ h s t u v w x y z z') := m in
  MkMetadata a b c d e f g i j k l n o p name h s t u v w x y z z'.
Definition with_SpecialRules (name : str) (m : Metadata) : Metadata :=
  let '(MkMetadata a b c d e f g i j k l n o p q h s t u v w _ y z z') := m in
  MkMetadata a b c d e f g i j k l n o p q h s t u v w name y z z'.

(** ** Methods *)

Inductive AddrType := TIPv4 | TDomainName | TIPv6.

Definition Metadata_AddrType (m : Metadata) : AddrType :=
  if negb (bool_decide (m_Host m = [])) || negb (IsValid (m_DstIP m)) then TDomainName
  else if Is4 (m_DstIP m) then TIPv4
  else TIPv6.

Definition SourceValid (m : Metadata) : bool := negb (m_SrcPort m =? 0)%Z && IsValid (m_SrcIP m).
Definition Resolved (m : Metadata) : bool := IsValid (m_DstIP m).
Definition RuleHost (m : Metadata) : str := if bool_decide (m_SniffHost m = []) then m_Host m else m_SniffHost m.

Definition Pure (m : Metadata) : Metadata :=
  if bool_decide (m_DNSMode m = DNSMapping ∨ m_DNSMode m = DNSHosts) && IsValid (m_DstIP m) then with_Host [] m else m.
Definition Metadata_Valid (m : Metadata) : bool := negb (bool_decide (m_Host m = [])) || IsValid (m_DstIP m).

Definition SourceAddrPort (m : Metadata) : Addr * Z := (Unmap (m_SrcIP m), m_SrcPort m).
Definition Metadata_AddrPort (m : Metadata) : Addr * Z := (Unmap (m_DstIP m), m_DstPort m).
Definition UDPAddr (m : Metadata) : option (Addr * Z) :=
  if negb (bool_decide (m_NetWork m = UDP)) || negb (IsValid (m_DstIP m)) then None else Some (Metadata_AddrPort m).

Definition SwapSrcDst (m : Metadata) : Metadata :=
  let '(MkMetadata a b src dst srcGeo dstGeo srcASN dstASN srcPort dstPort l n o p q h s t u v w x y z z') := m in
  MkMetadata a b dst src dstGeo srcGeo dstASN srcASN dstPort srcPort l n o p q h s t u v w x y z z'.

Lemma SwapSrcDst_involutive m : SwapSrcDst (SwapSrcDst m) = m.
Proof. by destruct m. Qed.

(** The printed name of an inbound kind is read back when it is upper case. *)
Lemma ParseType_String unicode_upper t : ParseType (ToUpper unicode_upper (lit (Type_String t))) = Ok t.
Proof. by destruct t. Qed.
