(* ===== verification/Ranges.v ===== *)
(** * Ranges: integer ranges of [common/utils]

    [Range] and [IntRanges] of [src/common/utils/range.go] and
    [src/common/utils/ranges.go]: port lists, expected HTTP status codes.
    The element type [T] is a fixed-width integer type, kept as [Z].

    [IntRanges_Merge] keeps the source's sharing: the merged slice grows in
    place over the front of the sorted array the loop is still reading. *)
From S2P Require Import Prelude GoStrings.

Record Range := MkRange { r_start : Z; r_end : Z }.

#[export] Instance Range_eq_dec : EqDecision Range.
Proof. solve_decision. Defined.

(** ** range.go *)

Definition NewRange (start end_ : Z) : Range :=
  if (start >? end_)%Z then MkRange end_ start else MkRange start end_.

Definition Contains (r : Range) (t : Z) : bool := (t >=? r_start r)%Z && (t <=? r_end r)%Z.
Definition LeftContains (r : Range) (t : Z) : bool := (t >=? r_start r)%Z && (t <? r_end r)%Z.
Definition RightContains (r : Range) (t : Z) : bool := (t >? r_start r)%Z && (t <=? r_end r)%Z.

Definition Range_String (r : Range) : str :=
  if (r_start r =? r_end r)%Z then format_int (r_start r)
  else format_int (r_start r) ++ lit "-" ++ format_int (r_end r).

(** The conversion [T(val)] keeps the low bits of the 64-bit value. *)
Definition parseUnsigned (T : int_type) (s : str) : result Z :=
  wrap T <$> parse_uint 64 s.
Definition parseSigned (T : int_type) (s : str) : result Z :=
  wrap T <$> parse_int 64 s.

Definition invalid_range {A} : result A := Err "invalid range".

Definition newIntRange (parseFn : str → result Z) (s : str) : result Range :=
  let s := trim_space s in
  match s with
  | [] => Ok (NewRange 0 0)
  | _ =>
    let status := split_on "-" s in
    match parseFn (trim_cut (lit "[ ]") (default [] (status !! 0))) with
    | Ok start =>
      match status with
      | [_] => Ok (NewRange start start)
      | [_; e] => match parseFn (trim_cut (lit "[ ]") e) with
                  | Ok end_ => Ok (NewRange start end_)
                  | _ => invalid_range
                  end
      | _ => invalid_range
      end
    | _ => invalid_range
    end
  end.

Definition NewUnsignedRange (T : int_type) := newIntRange (parseUnsigned T).
Definition NewSignedRange (T : int_type) := newIntRange (parseSigned T).

(** ** ranges.go *)

Fixpoint newIntRangesFromList (parseFn : str → result Z) (l : list str) : result (list Range) :=
  match l with
  | [] => Ok []
  | s :: l' =>
    if decide (s = []) then newIntRangesFromList parseFn l'
    else r ← newIntRange parseFn s;
         rs ← newIntRangesFromList parseFn l';
         Ok (r :: rs)
  end.

(** [strings.ReplaceAll(s, ",", "/")]. *)
Definition comma_to_slash (s : str) : str :=
  map (λ c, if decide (c = ","%char) then "/"%char else c) s.

Definition newIntRanges (parseFn : str → result Z) (expected : str) : result (list Range) :=
  let expected := trim_space expected in
  if decide (expected = [] ∨ expected = lit "*") then Ok []
  else
    let l := split_on "/" (comma_to_slash expected) in
    if (28 <? length l)%nat then Err "intRanges error, too many ranges to use, maximum support 28 ranges"
    else newIntRangesFromList parseFn l.

Definition NewUnsignedRanges (T : int_type) := newIntRanges (parseUnsigned T).
Definition NewUnsignedRangesFromList (T : int_type) := newIntRangesFromList (parseUnsigned T).
Definition NewSignedRanges (T : int_type) := newIntRanges (parseSigned T).
Definition NewSignedRangesFromList (T : int_type) := newIntRangesFromList (parseSigned T).

Definition IntRanges_Check (ranges : list Range) (status : Z) : bool :=
  match ranges with
  | [] => true
  | _ => existsb (λ segment, Contains segment status) ranges
  end.

Definition IntRanges_String (ranges : list Range) : str :=
  match ranges with
  | [] => lit "*"
  | _ => join (lit "/") (Range_String <$> ranges)
  end.

Section iterate.
Context {S : Type} (T : int_type) (f : S → Z → S * bool).

(** The inner loop over one range: the state and whether [f] stopped the
    iteration; [None] when the fuel is too small. *)
Fixpoint range_inner (fuel : nat) (r : Range) (i : Z) (s : S) : option (S * bool) :=
  if (i <=? r_end r)%Z && (i >=? r_start r)%Z then
    match fuel with
    | 0 => None
    | Datatypes.S fuel =>
      let '(s, continue) := f s i in
      if negb continue then Some (s, false)
      else if (wrap T (i + 1) <? i)%Z then Some (s, true)
      else range_inner fuel r (wrap T (i + 1)) s
    end
  else Some (s, true).

Definition range_fuel (r : Range) : nat := Z.to_nat (r_end r - r_start r + 1).

Fixpoint IntRanges_Range (ranges : list Range) (s : S) : option S :=
  match ranges with
  | [] => Some s
  | r :: ranges' =>
    match range_inner (range_fuel r) r (r_start r) s with
    | Some (s, true) => IntRanges_Range ranges' s
    | Some (s, false) => Some s
    | None => None
    end
  end.

(** Feed a list of values to [f] until it returns false. *)
Fixpoint feed (l : list Z) (s : S) : S * bool :=
  match l with
  | [] => (s, true)
  | i :: l' => let '(s, continue) := f s i in
               if continue then feed l' s else (s, false)
  end.
End iterate.

Section merge.
Context (T : int_type).

(** One round of the loop of [Merge]. [arr] is the array behind both the
    input and the merged slice, [m] the length of the merged slice
    ([rangeIndex + 1]) and [j] the index being read. *)
Definition merge_body (j : nat) (arr : list Range) (m : nat) : result (list Range * nat) :=
  match arr !! j, arr !! (m - 1) with
  | Some r, Some cur =>
    let next := wrap T (r_end cur + 1) in
    if (next >? r_end cur)%Z && (r_start r >? next)%Z then
      Ok (<[m := r]> arr, S m)
    else if (r_end r >? r_end cur)%Z then
      Ok (<[m - 1 := MkRange (r_start cur) (r_end r)]> arr, m)
    else Ok (arr, m)
  | _, _ => Panic
  end.

Fixpoint merge_loop (js : list nat) (arr : list Range) (m : nat) : result (list Range * nat) :=
  match js with
  | [] => Ok (arr, m)
  | j :: js => '(arr, m) ← merge_body j arr m; merge_loop js arr m
  end.

(** [Merge]: the merged slice and the array it shares with the receiver. *)
Definition IntRanges_Merge `{SortSlice} (ranges : list Range) : result (list Range * list Range) :=
  match ranges with
  | [] => Ok ([], [])
  | _ =>
    let arr := sort_slice (λ a b, (r_start a <? r_start b)%Z) ranges in
    '(arr, m) ← merge_loop (seq 1 (length arr - 1)) arr 1;
    Ok (take m arr, arr)
  end.
End merge.

(** ** Iteration *)

Section iterate_spec.
Context {S : Type} (T : int_type) (HT : wf_int_type T) (f : S → Z → S * bool).

Lemma range_inner_feed n r i s :
  in_int T i → in_int T (r_end r) → (r_start r ≤ i)%Z →
  Z.of_nat n = (r_end r - i + 1)%Z ∨ (r_end r < i)%Z ∧ n = 0 →
  range_inner T f n r i s = Some (feed f (seqZ i (r_end r - i + 1)) s).
Proof using HT.
  revert i s. induction n as [|n IH]; intros i s Hi He Hs Hn; simpl.
  - destruct (Z.leb_spec i (r_end r)); [lia|]. simpl. by rewrite seqZ_nil by lia.
  - destruct Hn as [Hn|[_ ?]]; [|done].
    rewrite (Zle_imp_le_bool i (r_end r)) by lia.
    replace (i >=? r_start r)%Z with true by (symmetry; apply Z.geb_le; lia). simpl.
    rewrite seqZ_cons by lia. simpl.
    destruct (f s i) as [s' c]. destruct c; simpl; [|done].
    destruct (decide (i = int_max T)) as [->|Hmax].
    + rewrite wrap_succ_max by done. unfold in_int in *.
      assert (r_end r = int_max T) as Hre by lia.
      destruct (Z.ltb_spec (int_min T) (int_max T)) as [|Hle].
      * rewrite seqZ_nil by lia. done.
      * assert (int_min T = int_max T) as Hmm by lia.
        pose proof (int_span T HT) as Hsp. rewrite Hmm in Hsp.
        unfold wf_int_type in HT. pose proof (Z.pow_le_mono_r 2 1 (it_bits T)). lia.
    + rewrite wrap_id by (done || unfold in_int in *; lia).
      destruct (Z.ltb_spec (i + 1) i); [lia|].
      rewrite IH; [do 3 f_equal; lia| | |lia|lia]; unfold in_int in *; lia.
Qed.

Lemma feed_app l k s :
  feed f (l ++ k) s = let '(s, c) := feed f l s in if c then feed f k s else (s, false).
Proof.
  revert s. induction l as [|i l IH]; intros s; simpl; [done|].
  destruct (f s i) as [s' []]; [apply IH|done].
Qed.

Lemma IntRanges_Range_feed rs s :
  Forall (λ r, in_int T (r_start r) ∧ in_int T (r_end r) ∧ r_start r ≤ r_end r)%Z rs →
  IntRanges_Range T f rs s =
  Some (feed f (rs ≫= λ r, seqZ (r_start r) (r_end r - r_start r + 1)) s).1.
Proof using HT.
  intros Hrs. revert s. induction Hrs as [|r rs (H1 & H2 & H3) Hrs IH]; intros s; simpl; [done|].
  rewrite range_inner_feed by (unfold range_fuel; done || lia).
  rewrite feed_app. destruct (feed f _ s) as [s' []]; [apply IH|done].
Qed.
End iterate_spec.

(** ** Merging *)

(** Merging a sorted list without an array: the reference definition. *)
Fixpoint merge_ref (T : int_type) (cur : Range) (l : list Range) : list Range :=
  match l with
  | [] => [cur]
  | r :: l' =>
    if (r_end cur <? int_max T)%Z && (r_end cur + 1 <? r_start r)%Z then cur :: merge_ref T r l'
    else merge_ref T (MkRange (r_start cur) (r_end r `max` r_end cur)) l'
  end.

(** A range of [T]: both ends are values of [T], in order. *)
Definition wf_range (T : int_type) (r : Range) : Prop :=
  in_int T (r_start r) ∧ in_int T (r_end r) ∧ (r_start r ≤ r_end r)%Z.

(** Ranges in increasing order with a gap of at least one value between
    neighbours: no two overlap or touch. *)
Definition separated : list Range → Prop :=
  StronglySorted (λ a b, r_end a + 1 < r_start b)%Z.

Section merge_spec.
Context (T : int_type) (HT : wf_int_type T).

Lemma merge_guard cur r : wf_range T cur →
  (wrap T (r_end cur + 1) >? r_end cur)%Z && (r_start r >? wrap T (r_end cur + 1))%Z =
  (r_end cur <? int_max T)%Z && (r_end cur + 1 <? r_start r)%Z.
Proof using HT.
  intros (_ & He & _). destruct (Z.ltb_spec (r_end cur) (int_max T)) as [Hlt|Hge].
  - rewrite wrap_id by (done || unfold in_int in *; lia). simpl.
    rewrite !Z.gtb_ltb. destruct (Z.ltb_spec (r_end cur) (r_end cur + 1)); [done|lia].
  - unfold in_int in He. assert (r_end cur = int_max T) as -> by lia.
    rewrite wrap_succ_max by done. rewrite Z.gtb_ltb. pose proof (int_min_le_max T HT).
    destruct (Z.ltb_spec (int_max T) (int_min T)); [lia|done].
Qed.

Lemma merge_append pre (cur : Range) junk r rest :
  <[S (length pre):=r]> (pre ++ cur :: junk ++ r :: rest) =
  (pre ++ [cur]) ++ r :: tail (junk ++ [r]) ++ rest.
Proof.
  rewrite insert_app_r_alt by lia. replace (_ - _) with 1 by lia. rewrite <- app_assoc. simpl.
  do 2 f_equal. destruct junk as [|k junk]; simpl; [done|]. by rewrite <- app_assoc.
Qed.

(** The in-place loop only overwrites elements it has already read: with
    [pre ++ [cur]] merged so far and [rest] unread, it computes what the
    reference computes. *)
Lemma merge_loop_ref pre cur junk rest :
  wf_range T cur → Forall (wf_range T) rest →
  ∃ arr m, merge_loop T (seq (S (length pre + length junk)) (length rest))
             (pre ++ cur :: junk ++ rest) (S (length pre)) = Ok (arr, m)
         ∧ take m arr = pre ++ merge_ref T cur rest ∧ m ≤ length arr.
Proof using HT.
  revert pre cur junk. induction rest as [|r rest IH]; intros pre cur junk Hcur Hrest; simpl.
  - exists (pre ++ cur :: junk ++ []), (S (length pre)). split; [done|]. split.
    + rewrite take_app, take_ge by lia. replace (S (length pre) - length pre) with 1 by lia. done.
    + rewrite length_app. simpl. lia.
  - apply Forall_cons in Hrest as [Hr Hrest].
    unfold merge_body.
    assert ((pre ++ cur :: junk ++ r :: rest) !! S (length pre + length junk) = Some r) as ->.
    { rewrite lookup_app_r by lia. replace (_ - _) with (S (length junk)) by lia. simpl.
      rewrite lookup_app_r by lia. by rewrite Nat.sub_diag. }
    replace (S (length pre) - 1) with (length pre) by lia.
    rewrite list_lookup_middle by done. rewrite merge_guard by done.
    destruct (_ && _) eqn:E; simpl.
    + rewrite merge_append.
      destruct (IH (pre ++ [cur]) r (tail (junk ++ [r])) Hr Hrest) as (arr & m & Hl & Ht & Hm).
      rewrite length_app, length_tl, length_app in Hl. simpl in Hl.
      replace (length pre + 1 + (length junk + 1 - 1))
        with (S (length pre + length junk)) in Hl by lia.
      rewrite Nat.add_1_r in Hl. exists arr, m. rewrite Ht. repeat split; [done|by rewrite <- app_assoc|done].
    + assert (Hcur' : wf_range T (MkRange (r_start cur) (r_end r `max` r_end cur))).
      { unfold wf_range, in_int in *; simpl in *; lia. }
      set (cur' := MkRange _ _) in *.
      assert ((if (r_end r >? r_end cur)%Z
               then Ok (<[length pre:=MkRange (r_start cur) (r_end r)]> (pre ++ cur :: junk ++ r :: rest), S (length pre))
               else Ok (pre ++ cur :: junk ++ r :: rest, S (length pre)))
              = Ok (pre ++ cur' :: (junk ++ [r]) ++ rest, S (length pre))) as ->.
      { rewrite <- app_assoc. simpl. rewrite Z.gtb_ltb. destruct (Z.ltb_spec (r_end cur) (r_end r)).
        - rewrite insert_app_r_alt, Nat.sub_diag by lia. simpl. unfold cur'. by rewrite Z.max_l by lia.
        - unfold cur'. rewrite Z.max_r by lia. by destruct cur. }
      simpl. destruct (IH pre cur' (junk ++ [r]) Hcur' Hrest) as (arr & m & Hl & Ht & Hm).
      rewrite length_app in Hl. simpl in Hl. rewrite Nat.add_1_r, Nat.add_succ_r in Hl.
      exists arr, m. auto.
Qed.

Lemma merge_ref_check cur l t : wf_range T cur → Forall (wf_range T) l →
  StronglySorted (λ a b, r_start a ≤ r_start b)%Z (cur :: l) →
  existsb (λ r, Contains r t) (merge_ref T cur l) = existsb (λ r, Contains r t) (cur :: l).
Proof using HT.
  revert cur. induction l as [|r l IH]; intros cur Hcur Hl Hs; simpl; [done|].
  apply Forall_cons in Hl as [Hr Hl].
  apply StronglySorted_inv in Hs as [Hs Hc]. apply Forall_cons in Hc as [Hcr Hc].
  destruct (_ && _) eqn:E; [simpl; by rewrite IH|].
  apply StronglySorted_inv in Hs as [Hs _].
  rewrite IH; [simpl|unfold wf_range, in_int in *; simpl; lia|done|by constructor].
  rewrite orb_assoc. f_equal. unfold Contains; simpl. unfold wf_range, in_int in *.
  destruct (Z.ltb_spec (r_end cur) (int_max T)); simpl in E;
    [apply Z.ltb_ge in E|]; repeat (rewrite Z.geb_leb || case_match);
    repeat match goal with |- context [(?a <=? ?b)%Z] => destruct (Z.leb_spec a b) end;
    simpl; try done; lia.
Qed.

Lemma merge_ref_separated cur l : wf_range T cur → Forall (wf_range T) l →
  StronglySorted (λ a b, r_start a ≤ r_start b)%Z (cur :: l) →
  separated (merge_ref T cur l) ∧ Forall (wf_range T) (merge_ref T cur l)
  ∧ Forall (λ x, r_start cur ≤ r_start x)%Z (merge_ref T cur l).
Proof.
  revert cur. induction l as [|r l IH]; intros cur Hcur Hl Hs; simpl.
  { split; [apply SSorted_cons; [apply SSorted_nil|done]|].
    split; apply Forall_singleton; [done|lia]. }
  apply Forall_cons in Hl as [Hr Hl].
  apply StronglySorted_inv in Hs as [Hs Hc]. apply Forall_cons in Hc as [Hcr Hc].
  destruct (_ && _) eqn:E.
  - destruct (IH r Hr Hl Hs) as (H1 & H2 & H3). zify_bool.
    split; [apply SSorted_cons; [done|]|split; [by apply Forall_cons|apply Forall_cons; split; [lia|]]];
      (eapply Forall_impl; [exact H3|]); simpl; lia.
  - apply StronglySorted_inv in Hs as [Hs _].
    apply (IH (MkRange (r_start cur) (r_end r `max` r_end cur)));
      [unfold wf_range, in_int in *; simpl; lia|done|by constructor].
Qed.
End merge_spec.

Lemma merge_ref_ne T cur l : merge_ref T cur l ≠ [].
Proof. revert cur. induction l; intros cur; simpl; [done|]. by case_match. Qed.

Lemma start_less_strict_weak : strict_weak (λ a b, (r_start a <? r_start b)%Z).
Proof.
  split; intros *; rewrite ?Z.ltb_lt, ?Z.ltb_ge; lia.
Qed.

(** C11: [Merge] returns (it never indexes outside its array) a list of ranges
    that are in increasing order, pairwise disjoint and not even adjacent, and
    that accept exactly the values the input accepts - although it overwrites
    the front of the array it is reading, whatever order [sort.Slice] leaves
    equal starts in, and also when a range ends at the type's largest value. *)
Theorem IntRanges_Merge_correct `{SortSlice} (T : int_type) (rs : list Range) :
  wf_int_type T → Forall (wf_range T) rs →
  ∃ merged arr, IntRanges_Merge T rs = Ok (merged, arr)
    ∧ separated merged ∧ Forall (wf_range T) merged
    ∧ ∀ t, IntRanges_Check merged t = IntRanges_Check rs t.
Proof.
  intros HT Hrs. unfold IntRanges_Merge. destruct rs as [|r0 rs0].
  { exists [], []. repeat split; constructor. }
  set (rs := r0 :: rs0) in *. set (less := λ a b, (r_start a <? r_start b)%Z).
  pose proof (sort_slice_perm less rs) as Hperm.
  pose proof (sort_slice_sorted less rs start_less_strict_weak) as Hsorted.
  destruct (sort_slice less rs) as [|cur l]; [by apply Permutation_nil_cons in Hperm|].
  rewrite <- Hperm in Hrs. apply Forall_cons in Hrs as [Hcur Hl].
  assert (Hs : StronglySorted (λ a b, r_start a ≤ r_start b)%Z (cur :: l)).
  { eapply StronglySorted_impl; [|exact Hsorted]. intros a b. unfold less. rewrite Z.ltb_ge. lia. }
  destruct (merge_loop_ref T HT [] cur [] l Hcur Hl) as (arr & m & Hloop & Htake & _).
  simpl in Hloop, Htake. simpl. rewrite Nat.sub_0_r, Hloop. simpl. rewrite Htake.
  exists (merge_ref T cur l), arr. split; [done|].
  destruct (merge_ref_separated T cur l Hcur Hl Hs) as (H1 & H2 & _). repeat split; [done..|].
  intros t. unfold IntRanges_Check. transitivity (existsb (λ r, Contains r t) rs); [|done].
  rewrite <- (existsb_perm _ _ _ Hperm), <- (merge_ref_check T HT cur l) by done.
  pose proof (merge_ref_ne T cur l). by destruct (merge_ref T cur l).
Qed.

Definition witness_ranges : list Range := [MkRange 250 255; MkRange 3 5; MkRange 6 9; MkRange 12 12].

Lemma IntRanges_Merge_correct_witness :
  ∃ merged arr, IntRanges_Merge (H := merge_sort_slice) uint8 witness_ranges = Ok (merged, arr)
    ∧ separated merged ∧ Forall (wf_range uint8) merged
    ∧ ∀ t, IntRanges_Check merged t = IntRanges_Check witness_ranges t.
Proof.
  apply (IntRanges_Merge_correct (H := merge_sort_slice) uint8 witness_ranges).
  - unfold wf_int_type. simpl. lia.
  - unfold witness_ranges, wf_range, in_int, int_min, int_max; simpl.
    repeat (apply Forall_cons; split; [simpl; lia|]). by apply Forall_nil.
Defined.

Example merge_example :
  IntRanges_Merge (H := merge_sort_slice) uint8 witness_ranges
  = Ok ([MkRange 3 9; MkRange 12 12; MkRange 250 255],
        [MkRange 3 9; MkRange 12 12; MkRange 250 255; MkRange 250 255]).
Proof. reflexivity. Qed.

(** Iterating over ranges hands the callback every value of every range
    once and in order until the callback returns false, and it ends: also for
    a range that reaches the largest value of its type, where the loop
    variable wraps around. *)
Theorem IntRanges_Range_visits {S} (T : int_type) (f : S → Z → S * bool) rs s :
  wf_int_type T → Forall (wf_range T) rs →
  IntRanges_Range T f rs s =
  Some (feed f (rs ≫= λ r, seqZ (r_start r) (r_end r - r_start r + 1)) s).1.
Proof. intros HT Hrs. by apply IntRanges_Range_feed. Qed.

(** Collect the values, stopping after 255 has been seen. *)
Definition witness_visit (l : list Z) (i : Z) : list Z * bool := (l ++ [i], true).

Lemma IntRanges_Range_visits_witness :
  IntRanges_Range uint8 witness_visit [MkRange 253 255; MkRange 7 8] [] =
  Some (feed witness_visit ([MkRange 253 255; MkRange 7 8] ≫= λ r, seqZ (r_start r) (r_end r - r_start r + 1)) []).1.
Proof.
  apply (IntRanges_Range_visits uint8 witness_visit).
  - unfold wf_int_type. simpl. lia.
  - unfold wf_range, in_int, int_min, int_max; simpl.
    repeat (apply Forall_cons; split; [simpl; lia|]). by apply Forall_nil.
Defined.

Example visits_example :
  IntRanges_Range uint8 witness_visit [MkRange 253 255; MkRange 7 8] [] = Some [253; 254; 255; 7; 8]%Z.
Proof. reflexivity. Qed.

(** ** Printing and parsing *)

Lemma format_int_nonneg n : (0 ≤ n)%Z → format_int n = format_uint n.
Proof. intros. unfold format_int. destruct (Z.ltb_spec n 0); [lia|done]. Qed.

Definition unsigned_type (T : int_type) : Prop :=
  it_signed T = false ∧ (1 ≤ it_bits T ≤ 64)%Z.

Lemma unsigned_bound T z : unsigned_type T → in_int T z → (0 ≤ z < 2 ^ 64)%Z.
Proof.
  intros [Hs Hb] Hz. unfold in_int, int_min, int_max in Hz. rewrite Hs in Hz.
  pose proof (Z.pow_le_mono_r 2 (it_bits T) 64). lia.
Qed.

(** A digit string survives the trimming of ["[ ]"] and parses to its value. *)
Lemma parseUnsigned_format T n : unsigned_type T → in_int T n →
  parseUnsigned T (trim_cut (lit "[ ]") (format_uint n)) = Ok n.
Proof.
  intros HT Hn. pose proof (unsigned_bound T n HT Hn) as Hb.
  rewrite trim_cut_none.
  - unfold parseUnsigned. rewrite parse_uint_format by lia. simpl. f_equal.
    apply wrap_id; [|done]. unfold wf_int_type. destruct HT. lia.
  - apply Forall_forall. intros c Hc Hcut.
    destruct (format_uint_spec n ltac:(lia)) as (_ & _ & Hd). rewrite Forall_forall in Hd.
    apply Hd in Hc. apply list_elem_of_In in Hcut. simpl in Hcut.
    destruct Hcut as [<-|[<-|[<-|[]]]]; vm_compute in Hc; congruence.
Qed.

(** The bytes a printed range is made of. *)
Definition range_byte (c : ascii) : bool := is_digit c || bool_decide (c = "-"%char).

Lemma Range_String_bytes T r : unsigned_type T → wf_range T r →
  Forall (λ c, range_byte c = true) (Range_String r) ∧ Range_String r ≠ [].
Proof.
  intros HT (H1 & H2 & H3). pose proof (unsigned_bound T _ HT H1). pose proof (unsigned_bound T _ HT H2).
  unfold Range_String. rewrite !format_int_nonneg by lia.
  destruct (format_uint_spec (r_start r)) as (_ & Hn1 & Hd1); [lia|].
  destruct (format_uint_spec (r_end r)) as (_ & Hn2 & Hd2); [lia|].
  assert (Hdig : ∀ l, Forall (λ c, is_digit c = true) l → Forall (λ c, range_byte c = true) l).
  { intros l Hl. eapply Forall_impl; [exact Hl|]. unfold range_byte. by intros c ->. }
  case_match; [by auto|]. split; [|by destruct (format_uint (r_start r))].
  rewrite !Forall_app. repeat split; auto. by apply Forall_singleton.
Qed.

Lemma range_byte_plain c : range_byte c = true → plain c = true.
Proof.
  unfold range_byte. intros [H|H]%orb_true_iff; [by apply is_digit_plain|].
  apply bool_decide_eq_true in H as ->. reflexivity.
Qed.

Lemma range_byte_ne c d : range_byte c = true → range_byte d = false → c ≠ d.
Proof. congruence. Qed.

Lemma newIntRange_String T r : unsigned_type T → wf_range T r →
  newIntRange (parseUnsigned T) (Range_String r) = Ok r.
Proof.
  intros HT Hr. destruct (Range_String_bytes T r HT Hr) as [Hb Hne].
  unfold newIntRange. rewrite trim_space_plain.
  2:{ apply forallb_forall. intros c Hc%list_elem_of_In. rewrite Forall_forall in Hb. by apply range_byte_plain, Hb. }
  destruct (Range_String r) as [|c0 t0] eqn:Es; [done|]. rewrite <- Es. clear Hne Hb.
  destruct Hr as (H1 & H2 & H3). pose proof (unsigned_bound T _ HT H1). pose proof (unsigned_bound T _ HT H2).
  unfold Range_String. rewrite !format_int_nonneg by lia. destruct (Z.eqb_spec (r_start r) (r_end r)) as [He|He].
  - rewrite split_on_no_sep by (apply format_uint_not_in; [lia|done]). simpl.
    rewrite parseUnsigned_format by done. unfold NewRange. rewrite Z.gtb_ltb, Z.ltb_irrefl.
    destruct r; simpl in *; by subst.
  - rewrite split_on_part by (apply format_uint_not_in; [lia|done]). simpl.
    rewrite split_on_no_sep by (apply format_uint_not_in; [lia|done]). simpl.
    rewrite app_nil_r, !parseUnsigned_format by done. unfold NewRange. rewrite Z.gtb_ltb.
    destruct (Z.ltb_spec (r_end r) (r_start r)); [lia|]. by destruct r.
Qed.

Lemma newIntRangesFromList_String T rs : unsigned_type T → Forall (wf_range T) rs →
  newIntRangesFromList (parseUnsigned T) (Range_String <$> rs) = Ok rs.
Proof.
  intros HT Hrs. induction Hrs as [|r rs Hr Hrs IH]; simpl; [done|].
  destruct (Range_String_bytes T r HT Hr) as [_ Hne]. rewrite decide_False by done.
  rewrite newIntRange_String by done. simpl. fold (fmap Range_String rs). rewrite IH. done.
Qed.

Lemma join_Forall (P : ascii → Prop) sep l : Forall P sep → Forall (Forall P) l → Forall P (join sep l).
Proof.
  intros Hsep Hl. induction Hl as [|s l Hs Hl IH]; simpl; [constructor|].
  destruct l; [done|]. by rewrite !Forall_app.
Qed.

Lemma comma_to_slash_none s : ","%char ∉ s → comma_to_slash s = s.
Proof.
  unfold comma_to_slash. induction s as [|c s IH]; intros Hs; simpl; [done|].
  apply not_elem_of_cons in Hs as [Hc Hs]. rewrite decide_False by done. by rewrite IH.
Qed.

(** Parsing a list of ranges returns. *)
Lemma NewUnsignedRanges_returns T s : NewUnsignedRanges T s ≠ Panic.
Proof.
  assert (∀ parse s, newIntRange parse s ≠ Panic) as H1.
  { intros parse t. unfold newIntRange. repeat case_match; done. }
  assert (∀ parse l, newIntRangesFromList parse l ≠ Panic) as H2.
  { intros parse l. induction l as [|x l IH]; cbn; [done|]. case_decide; [done|]. specialize (H1 parse x).
    destruct (newIntRange parse x); [|done..]. cbn. by destruct (newIntRangesFromList parse l). }
  unfold NewUnsignedRanges, newIntRanges. repeat case_match; done || apply H2.
Qed.

(** Parsing what [String] prints gives the ranges back, for every list of
    at most 28 ranges of an unsigned type (the empty list prints as the
    wildcard and parses to the empty list). *)
Theorem NewUnsignedRanges_String (T : int_type) (rs : list Range) :
  unsigned_type T → Forall (wf_range T) rs → length rs ≤ 28 →
  NewUnsignedRanges T (IntRanges_String rs) = Ok rs.
Proof.
  intros HT Hrs Hlen. unfold NewUnsignedRanges, newIntRanges, IntRanges_String.
  destruct rs as [|r rs0]; [done|]. set (rs := r :: rs0) in *.
  assert (Hterms : Forall (Forall (λ c, range_byte c = true)) (Range_String <$> rs)).
  { apply Forall_fmap. eapply Forall_impl; [exact Hrs|]. intros x Hx. by apply (Range_String_bytes T). }
  set (s := join (lit "/") (Range_String <$> rs)).
  assert (Hs : Forall (λ c, range_byte c = true ∨ c = "/"%char) s).
  { apply join_Forall; [apply Forall_singleton; by right|].
    eapply Forall_impl; [exact Hterms|]. intros t Ht. eapply Forall_impl; [exact Ht|]. auto. }
  rewrite trim_space_plain.
  2:{ apply forallb_forall. intros c Hc%list_elem_of_In. rewrite Forall_forall in Hs.
      destruct (Hs c Hc) as [?| ->]; [by apply range_byte_plain|reflexivity]. }
  destruct (Range_String_bytes T r HT) as [Hb Hne]; [by apply Forall_cons in Hrs as [??]|].
  assert (∃ c t, s = c :: t ∧ range_byte c = true) as (c & t & Hs0 & Hc).
  { unfold s, rs. simpl. destruct (Range_String r) as [|c t]; [done|]. apply Forall_cons in Hb as [Hc _].
    destruct rs0; simpl; eauto. }
  rewrite decide_False by (rewrite Hs0; intros [?|?]; simplify_eq/=; done).
  rewrite comma_to_slash_none.
  2:{ intros Hin. rewrite Forall_forall in Hs. by destruct (Hs _ Hin). }
  unfold s. rewrite split_on_join; [|done|].
  - rewrite length_fmap. destruct (Nat.ltb_spec 28 (length rs)); [lia|].
    by apply newIntRangesFromList_String.
  - eapply Forall_impl; [exact Hterms|]. intros u Hu Hin. rewrite Forall_forall in Hu.
    by apply Hu in Hin.
Qed.

Lemma NewUnsignedRanges_String_witness :
  NewUnsignedRanges uint16 (IntRanges_String [MkRange 80 80; MkRange 8000 8999]) =
  Ok [MkRange 80 80; MkRange 8000 8999].
Proof.
  apply (NewUnsignedRanges_String uint16).
  - unfold unsigned_type. simpl. lia.
  - unfold wf_range, in_int, int_min, int_max; simpl.
    repeat (apply Forall_cons; split; [simpl; lia|]). by apply Forall_nil.
  - simpl. lia.
Defined.

(** A number too large for the element type is not refused: it is parsed
    as a 64-bit integer and then converted, so the range that results is the
    number reduced modulo the type's size (the port list "70000" becomes the
    port 4464). *)
Theorem NewUnsignedRange_truncates (T : int_type) (n : Z) :
  wf_int_type T → (0 ≤ n < 2 ^ 64)%Z →
  NewUnsignedRange T (format_uint n) = Ok (MkRange (wrap T n) (wrap T n)).
Proof.
  intros HT Hn. destruct (format_uint_spec n) as (_ & Hne & Hd); [lia|].
  unfold NewUnsignedRange, newIntRange. rewrite trim_space_plain by (apply format_uint_plain; lia).
  destruct (format_uint n) as [|c0 t0] eqn:Es; [done|]. rewrite <- Es in *. clear Es c0 t0.
  rewrite split_on_no_sep by (apply format_uint_not_in; [lia|done]). simpl.
  rewrite trim_cut_none.
  - unfold parseUnsigned. rewrite parse_uint_format by lia. simpl.
    unfold NewRange. by rewrite Z.gtb_ltb, Z.ltb_irrefl.
  - eapply Forall_impl; [exact Hd|]. intros c Hc Hcut%list_elem_of_In. simpl in Hcut.
    destruct Hcut as [<-|[<-|[<-|[]]]]; vm_compute in Hc; congruence.
Qed.

Lemma NewUnsignedRange_truncates_witness :
  NewUnsignedRange uint16 (lit "70000") = Ok (MkRange 4464 4464).
Proof.
  apply (NewUnsignedRange_truncates uint16 70000).
  - unfold wf_int_type. simpl. lia.
  - lia.
Defined.
