(* ===== verification/Wildcard.v ===== *)
(** * Wildcard: the glob matcher of [component/wildcard]

    [Match] and [matchByString] of [src/component/wildcard/wildcard.go]: '*'
    matches any sequence of bytes, '?' exactly one. The source is one loop with
    [goto] and a single remembered star; [wstep] is a round of it and
    [match_loop] iterates it with fuel. [glob] says what matching means. *)
From S2P Require Import Prelude.

(** The variables of the loop; [star] is [-1] in the source when it is unset. *)
Record wstate := WState {
  patternIndex : nat; sIndex : nat; lastStar : nat; star : option nat
}.

Inductive wresult := Next (st : wstate) | Exit (patternIndex : nat) | Done (b : bool).

(** Retry from the last star, one byte further into [s]. *)
Definition backtrack (st : wstate) : wresult :=
  match star st with
  | Some k => Next (WState (S k) (S (lastStar st)) (S (lastStar st)) (Some k))
  | None => Done false
  end.

(** One round of the code between [Loop] and the [goto Loop] that ends it;
    [Exit] is the jump to [checkPattern]. *)
Definition wstep (pattern s : str) (st : wstate) : wresult :=
  match s !! sIndex st with
  | None => Exit (patternIndex st)
  | Some x =>
    match pattern !! patternIndex st with
    | None => backtrack st
    | Some c =>
      if decide (c = "?"%char) then
        Next (WState (S (patternIndex st)) (S (sIndex st)) (lastStar st) (star st))
      else if decide (c = "*"%char) then
        Next (WState (S (patternIndex st)) (sIndex st) (sIndex st) (Some (patternIndex st)))
      else if decide (c = x) then
        Next (WState (S (patternIndex st)) (S (sIndex st)) (lastStar st) (star st))
      else backtrack st
    end
  end.

(** [checkPattern]: skip the stars that are left. *)
Fixpoint skip_stars (fuel : nat) (pattern : str) (i : nat) : nat :=
  match fuel with
  | 0 => i
  | S f => match pattern !! i with
           | Some c => if decide (c = "*"%char) then skip_stars f pattern (S i) else i
           | None => i
           end
  end.

Fixpoint match_loop (fuel : nat) (pattern s : str) (st : wstate) : option bool :=
  match fuel with
  | 0 => None
  | S f =>
    match wstep pattern s st with
    | Next st' => match_loop f pattern s st'
    | Exit i => Some (bool_decide (skip_stars (length pattern) pattern i = length pattern))
    | Done b => Some b
    end
  end.

(** A measure that every round decreases. *)
Definition wmeasure (pattern s : str) (st : wstate) : nat :=
  (length s + 1 - lastStar st) * (length pattern + 1) + (length pattern - patternIndex st).

Definition wfuel (pattern s : str) : nat := S (wmeasure pattern s (WState 0 0 0 None)).

Definition matchByString (pattern s : str) : option bool :=
  match_loop (wfuel pattern s) pattern s (WState 0 0 0 None).

Definition Match (pattern s : str) : option bool :=
  if decide (pattern = []) then Some (bool_decide (s = pattern))
  else if decide (pattern = lit "*" ∨ s = pattern) then Some true
  else matchByString pattern s.

(** What the pattern language means. *)
Inductive glob : str → str → Prop :=
| glob_nil : glob [] []
| glob_char c p s : c ≠ "*"%char → c ≠ "?"%char → glob p s → glob (c :: p) (c :: s)
| glob_question x p s : glob p s → glob ("?"%char :: p) (x :: s)
| glob_star_none p s : glob p s → glob ("*"%char :: p) s
| glob_star_more x p s : glob ("*"%char :: p) s → glob ("*"%char :: p) (x :: s).

(** ** The meaning of patterns *)

(** A star-free byte matches one byte of the string. *)
Definition byte_ok (c x : ascii) : Prop := c ≠ "*"%char ∧ (c = "?"%char ∨ c = x).

Lemma glob_star_inv p s : glob ("*"%char :: p) s ↔ ∃ n, n ≤ length s ∧ glob p (drop n s).
Proof.
  split.
  - remember ("*"%char :: p) as q eqn:Hq. induction 1; simplify_eq.
    + by exists 0; split; [lia|].
    + destruct IHglob as (n & Hn & Hg); [done|]. exists (S n). simpl. split; [lia|done].
  - intros (n & Hn & Hg). revert s Hn Hg. induction n as [|n IH]; intros s Hn Hg.
    + by apply glob_star_none.
    + destruct s as [|x s]; simpl in *; [lia|]. apply glob_star_more, IH; [lia|done].
Qed.

Lemma glob_cons_inv c p s : c ≠ "*"%char →
  glob (c :: p) s ↔ ∃ x s', s = x :: s' ∧ byte_ok c x ∧ glob p s'.
Proof.
  intros Hc. split.
  - inversion 1; simplify_eq; repeat eexists; try done; auto.
  - intros (x & s' & -> & [_ [->|<-]] & Hg); [by constructor|].
    destruct (decide (c = "?"%char)) as [->|]; by constructor.
Qed.

(** [q] is star-free and matches [t] byte by byte. *)
Definition literal_match (q t : str) : Prop := Forall2 byte_ok q t.

Lemma glob_literal_app q r t u : literal_match q t → glob (q ++ r) (t ++ u) ↔ glob r u.
Proof.
  induction 1 as [|c x q t [Hc Hok] Hqt IH]; simpl; [done|].
  rewrite glob_cons_inv by done. rewrite <- IH. split.
  - by intros (y & s' & [= <- <-] & _ & Hg).
  - intros Hg. exists x, (t ++ u). by repeat split.
Qed.

(** A star-free pattern prefix needs as many bytes as it has. *)
Lemma glob_literal_inv q r s : Forall (λ c, c ≠ "*"%char) q → glob (q ++ r) s →
  length q ≤ length s ∧ literal_match q (take (length q) s) ∧ glob r (drop (length q) s).
Proof.
  intros Hq. revert s. induction Hq as [|c q Hc Hq IH]; intros s Hg; simpl in *.
  - rewrite drop_0. repeat split; [lia|constructor|done].
  - apply glob_cons_inv in Hg as (x & s' & -> & Hok & Hg); [|done]. destruct (IH s' Hg) as (H1 & H2 & H3).
    simpl. repeat split; [lia|by constructor|done].
Qed.

Lemma literal_match_nostar q t : literal_match q t → Forall (λ c, c ≠ "*"%char) q.
Proof. induction 1 as [|c x q t [Hc _] _ IH]; constructor; auto. Qed.

(** ** The invariant of the loop *)

(** What has been matched so far, and the question that is left: with no star
    the two indices agree and the rest of the pattern must match the rest of
    the string; with a star at [k], some suffix from [lastStar] on must match
    the pattern after the star. *)
Definition winv (pattern s : str) (st : wstate) : Prop :=
  patternIndex st ≤ length pattern ∧ sIndex st ≤ length s ∧ lastStar st ≤ sIndex st ∧
  match star st with
  | None => lastStar st = 0 ∧
      literal_match (take (patternIndex st) pattern) (take (sIndex st) s)
  | Some k => k < patternIndex st ∧
      literal_match (slice pattern (S k) (patternIndex st)) (slice s (lastStar st) (sIndex st))
      ∧ (glob pattern s ↔ glob ("*"%char :: drop (S k) pattern) (drop (lastStar st) s))
  end.

Section invariant.
Context (pattern s : str).

Lemma winv_init : winv pattern s (WState 0 0 0 None).
Proof. unfold winv; simpl. repeat split; try lia. constructor. Qed.

(** With no star the rest of the pattern decides. *)
Lemma winv_rest_none st : winv pattern s st → star st = None →
  glob pattern s ↔ glob (drop (patternIndex st) pattern) (drop (sIndex st) s).
Proof.
  intros (_ & _ & _ & Hst) Hn. rewrite Hn in Hst. destruct Hst as [_ Hlit].
  rewrite <- (take_drop (patternIndex st) pattern) at 1.
  rewrite <- (take_drop (sIndex st) s) at 1. by apply glob_literal_app.
Qed.

(** With a star, a first attempt at [lastStar] needs the rest to match. *)
Lemma winv_rest_star st k : winv pattern s st → star st = Some k →
  glob (drop (S k) pattern) (drop (lastStar st) s) ↔
  glob (drop (patternIndex st) pattern) (drop (sIndex st) s).
Proof.
  intros (_ & _ & Hls & Hst) Hk. rewrite Hk in Hst. destruct Hst as (Hkp & Hlit & _).
  rewrite (slice_drop pattern (S k) (patternIndex st)) by lia.
  rewrite (slice_drop s (lastStar st) (sIndex st)) by lia. by apply glob_literal_app.
Qed.

(** A matched byte extends what has been matched. *)
Lemma winv_advance st c x : winv pattern s st →
  pattern !! patternIndex st = Some c → s !! sIndex st = Some x → byte_ok c x →
  winv pattern s (WState (S (patternIndex st)) (S (sIndex st)) (lastStar st) (star st)).
Proof.
  intros (H1 & H2 & H3 & Hst) Hc Hx Hok.
  pose proof (lookup_lt_Some _ _ _ Hc). pose proof (lookup_lt_Some _ _ _ Hx).
  unfold winv; simpl. repeat split; try lia. destruct (star st) as [k|].
  - destruct Hst as (Hk & Hlit & Hg). repeat split; [lia| |tauto..].
    rewrite (slice_snoc pattern _ _ c), (slice_snoc s _ _ x) by (done || lia).
    apply Forall2_app; [done|by constructor].
  - destruct Hst as (Hl & Hlit). split; [done|].
    rewrite (take_S_r _ _ c), (take_S_r _ _ x) by done. apply Forall2_app; [done|by constructor].
Qed.

Lemma glob_star_weaken p t u : glob ("*"%char :: p) u → glob ("*"%char :: p) (t ++ u).
Proof. intros Hg. induction t; simpl; [done|]. by constructor. Qed.

(** A new star makes the older one irrelevant. *)
Lemma winv_new_star st : winv pattern s st → pattern !! patternIndex st = Some "*"%char →
  winv pattern s (WState (S (patternIndex st)) (sIndex st) (sIndex st) (Some (patternIndex st))).
Proof.
  intros Hinv Hc. pose proof Hinv as (H1 & H2 & H3 & Hst). pose proof (lookup_lt_Some _ _ _ Hc).
  unfold winv; simpl. split; [lia|]. split; [lia|]. split; [lia|]. split; [lia|].
  rewrite !slice_nil. split; [constructor|].
  destruct (star st) as [k|] eqn:Hk.
  - destruct Hst as (Hkp & Hlit & ->). pose proof (winv_rest_star st k Hinv Hk) as Hrest.
    rewrite (drop_S _ _ _ Hc) in Hrest. rewrite <- Hrest. split; [|by apply glob_star_none].
    rewrite glob_star_inv. intros (n & Hn & Hg). rewrite drop_drop in Hg. rewrite Hrest.
    rewrite (slice_drop pattern (S k) (patternIndex st)) in Hg by lia.
    apply glob_literal_inv in Hg as (Hlen & _ & Hg); [|by eapply literal_match_nostar].
    rewrite drop_drop, (drop_S _ _ _ Hc), length_slice in Hg by lia.
    apply Forall2_length in Hlit. rewrite !length_slice in Hlit by lia.
    rewrite length_drop, length_slice in Hlen by lia.
    rewrite (slice_drop s (sIndex st) (lastStar st + n + (patternIndex st - S k))) by lia.
    by apply glob_star_weaken.
  - rewrite (winv_rest_none st) by done. by rewrite (drop_S _ _ _ Hc).
Qed.

(** If the attempt at [lastStar] cannot succeed, the next one decides. *)
Lemma winv_backtrack st k x : winv pattern s st → star st = Some k → s !! sIndex st = Some x →
  ¬ glob (drop (patternIndex st) pattern) (drop (sIndex st) s) →
  winv pattern s (WState (S k) (S (lastStar st)) (S (lastStar st)) (Some k)).
Proof.
  intros Hinv Hk Hx Hno. pose proof Hinv as (H1 & H2 & H3 & Hst). rewrite Hk in Hst.
  destruct Hst as (Hkp & Hlit & Hg). pose proof (lookup_lt_Some _ _ _ Hx).
  rewrite <- (winv_rest_star st k Hinv Hk) in Hno.
  unfold winv; simpl. split; [lia|]. split; [lia|]. split; [lia|]. split; [lia|].
  rewrite !slice_nil. split; [constructor|]. rewrite Hg.
  destruct (drop (lastStar st) s) as [|y u] eqn:Hd.
  { apply (f_equal length) in Hd. rewrite length_drop in Hd. simpl in Hd. lia. }
  assert (drop (S (lastStar st)) s = u) as ->.
  { rewrite <- Nat.add_1_r, <- drop_drop, Hd. done. }
  split; [|by apply glob_star_more]. by inversion 1; simplify_eq.
Qed.
End invariant.

Section correctness.
Context (pattern s : str).

(** The bytes under the indices rule out a match of the rests. *)
Lemma rest_mismatch st x : s !! sIndex st = Some x →
  (pattern !! patternIndex st = None ∨
   ∃ c, pattern !! patternIndex st = Some c ∧ c ≠ "*"%char ∧ ¬ byte_ok c x) →
  ¬ glob (drop (patternIndex st) pattern) (drop (sIndex st) s).
Proof.
  intros Hx Hp Hg. rewrite (drop_S _ _ _ Hx) in Hg. destruct Hp as [Hp|(c & Hp & Hc & Hok)].
  - apply lookup_ge_None in Hp. rewrite drop_ge in Hg by done. inversion Hg.
  - rewrite (drop_S _ _ _ Hp) in Hg. apply glob_cons_inv in Hg as (y & s' & [= <- <-] & Hy & _); done.
Qed.

Lemma winv_backtrack_spec st x : winv pattern s st → s !! sIndex st = Some x →
  ¬ glob (drop (patternIndex st) pattern) (drop (sIndex st) s) →
  match backtrack st with
  | Next st' => winv pattern s st' ∧ wmeasure pattern s st' < wmeasure pattern s st
  | Exit _ => False
  | Done b => b = false ∧ ¬ glob pattern s
  end.
Proof.
  intros Hinv Hx Hno. unfold backtrack. destruct (star st) as [k|] eqn:Hk.
  - split; [by eapply winv_backtrack|]. pose proof Hinv as (H1 & H2 & H3 & Hst).
    rewrite Hk in Hst. destruct Hst as (Hkp & _). pose proof (lookup_lt_Some _ _ _ Hx).
    unfold wmeasure; simpl.
    replace (length s + 1 - lastStar st) with (S (length s + 1 - S (lastStar st))) by lia. nia.
  - split; [done|]. by rewrite (winv_rest_none pattern s st).
Qed.

Lemma wstep_spec st : winv pattern s st →
  match wstep pattern s st with
  | Next st' => winv pattern s st' ∧ wmeasure pattern s st' < wmeasure pattern s st
  | Exit i => i = patternIndex st ∧ sIndex st = length s
  | Done b => b = false ∧ ¬ glob pattern s
  end.
Proof.
  intros Hinv. pose proof Hinv as (H1 & H2 & H3 & Hst). unfold wstep.
  destruct (s !! sIndex st) as [x|] eqn:Hx.
  2:{ apply lookup_ge_None in Hx. split; [done|lia]. }
  assert (Hback := winv_backtrack_spec st x Hinv Hx).
  destruct (pattern !! patternIndex st) as [c|] eqn:Hc.
  2:{ destruct (backtrack st) eqn:Hb; [apply Hback| |apply Hback];
        try (apply rest_mismatch with x; auto). by destruct Hback; apply rest_mismatch with x; auto. }
  pose proof (lookup_lt_Some _ _ _ Hc). pose proof (lookup_lt_Some _ _ _ Hx).
  assert (Hm : ∀ i j l k, i = S (patternIndex st) → lastStar st ≤ l ≤ length s →
            wmeasure pattern s (WState i j l k) < wmeasure pattern s st).
  { intros i j l k -> Hl. unfold wmeasure; simpl. nia. }
  case_decide as Hq; [|case_decide as Hs; [|case_decide as Hcx]].
  - split; [|apply Hm; [done|lia]]. apply (winv_advance pattern s st c x); try done. split; [|by left].
    by subst.
  - split; [|apply Hm; [done|lia]]. subst. by apply winv_new_star.
  - split; [|apply Hm; [done|lia]]. apply (winv_advance pattern s st c x); try done. split; [done|by right].
  - assert (Hno : ¬ glob (drop (patternIndex st) pattern) (drop (sIndex st) s)).
    { apply rest_mismatch with x; [done|]. right. exists c. repeat split; [done..|].
      intros [_ [?|?]]; done. }
    specialize (Hback Hno). by destruct (backtrack st).
Qed.

Lemma skip_stars_spec n i : i ≤ length pattern → length pattern - i ≤ n →
  skip_stars n pattern i = length pattern ↔ glob (drop i pattern) [].
Proof.
  revert i. induction n as [|n IH]; intros i Hi Hn; simpl.
  - assert (i = length pattern) as -> by lia. rewrite drop_ge by done. split; [constructor|done].
  - destruct (pattern !! i) as [c|] eqn:Hc.
    + pose proof (lookup_lt_Some _ _ _ Hc). rewrite (drop_S _ _ _ Hc). case_decide as Hs; subst.
      * rewrite IH by lia. split; [by constructor|]. by inversion 1; simplify_eq.
      * split; [lia|]. intros Hg. by apply glob_cons_inv in Hg as (x & s' & ? & _).
    + apply lookup_ge_None in Hc. rewrite drop_ge by done. split; [constructor|lia].
Qed.

(** At the end of the string only stars may be left. *)
Lemma winv_exit st : winv pattern s st → sIndex st = length s →
  glob pattern s ↔ glob (drop (patternIndex st) pattern) [].
Proof.
  intros Hinv Hend. assert (Hnil : drop (sIndex st) s = []) by (rewrite drop_ge; [done|lia]).
  destruct (star st) as [k|] eqn:Hk.
  - pose proof (winv_rest_star pattern s st k Hinv Hk) as Hr. rewrite Hnil in Hr. rewrite <- Hr.
    destruct Hinv as (H1 & H2 & H3 & Hst). rewrite Hk in Hst. destruct Hst as (Hkp & Hlit & ->).
    split; [|by apply glob_star_none]. rewrite glob_star_inv. intros (n & Hn & Hg).
    destruct n as [|n]; [by rewrite drop_0 in Hg|]. exfalso. rewrite drop_drop in Hg.
    rewrite (slice_drop pattern (S k) (patternIndex st)) in Hg by lia.
    apply glob_literal_inv in Hg as (Hlen & _); [|by eapply literal_match_nostar].
    apply Forall2_length in Hlit. rewrite !length_slice in Hlit by lia.
    rewrite length_slice in Hlen by lia. rewrite length_drop in Hlen, Hn. lia.
  - by rewrite (winv_rest_none pattern s st), Hnil.
Qed.

Lemma match_loop_correct n st : winv pattern s st → wmeasure pattern s st < n →
  ∃ b, match_loop n pattern s st = Some b ∧ (b = true ↔ glob pattern s).
Proof.
  revert st. induction n as [|n IH]; intros st Hinv Hn; [lia|]. simpl.
  pose proof (wstep_spec st Hinv) as Hstep. destruct (wstep pattern s st) as [st'|i|b].
  - destruct Hstep as [Hinv' Hm]. apply IH; [done|lia].
  - destruct Hstep as [-> Hend]. eexists; split; [done|]. rewrite bool_decide_eq_true.
    rewrite (winv_exit st) by done. apply skip_stars_spec; [apply Hinv|lia].
  - destruct Hstep as [-> Hno]. eexists; split; [done|]. by split.
Qed.
End correctness.

Lemma glob_refl s : glob s s.
Proof.
  induction s as [|c s IH]; [constructor|].
  destruct (decide (c = "*"%char)) as [->|]; [by apply glob_star_more, glob_star_none|].
  destruct (decide (c = "?"%char)) as [->|]; by constructor.
Qed.

Lemma glob_all s : glob (lit "*") s.
Proof. induction s; [apply glob_star_none; constructor|by constructor]. Qed.

Lemma Match_decides pattern s :
  ∃ b, Match pattern s = Some b ∧ (b = true ↔ glob pattern s).
Proof.
  unfold Match. case_decide as Hp; [|case_decide as Hq].
  - eexists; split; [done|]. rewrite bool_decide_eq_true. subst. split; [intros ->; constructor|by inversion 1].
  - eexists; split; [done|]. split; [|done]. intros _. destruct Hq as [->| ->]; [apply glob_all|apply glob_refl].
  - apply match_loop_correct; [apply winv_init|]. unfold wfuel. lia.
Qed.

(** C10: The matcher always returns, and it returns true exactly when the
    string is in the language of the pattern: remembering only the last star
    and retrying one byte further loses no match. *)
Theorem Match_correct pattern s :
  ∃ b, Match pattern s = Some b ∧ (b = true ↔ glob pattern s).
Proof. apply Match_decides. Qed.

Example match_example : Match (lit "*.goo?le.*") (lit "www.mail.google.com") = Some true.
Proof. reflexivity. Qed.
Example mismatch_example : Match (lit "*.goo?le.?") (lit "www.google.com") = Some false.
Proof. reflexivity. Qed.
