(* ===== verification/Lru.v ===== *)
(** * Lru: the cache of [common/lru]

    [LruCache] of [src/common/lru/lrucache.go]: a map from keys to elements of
    a doubly linked list of entries, least recently used first. Entries are
    heap objects ([*entry]), so the model has a heap: an update through one
    cache is visible through every cache that holds the same entry, which is
    what [CloneTo] sets up.

    The linked list is a third-party package (generic-list-go, the generic
    [container/list]); [GenericList] states what its documentation promises.
    An element is identified with the entry pointer it carries, which occurs
    at most once in a list.

    [now] is the clock reading of one operation, in Unix seconds. *)
From S2P Require Import Prelude.

Section removep.
(** The list without the element [p]. *)
Definition removep (p : nat) (l : list nat) : list nat := filter (λ q, q ≠ p) l.

Lemma elem_of_removep p q l : q ∈ removep p l ↔ q ≠ p ∧ q ∈ l.
Proof. unfold removep. by rewrite list_elem_of_filter. Qed.

Lemma removep_NoDup p l : NoDup l → NoDup (removep p l).
Proof. apply NoDup_filter. Qed.

Lemma removep_notin p l : p ∉ l → removep p l = l.
Proof.
  unfold removep. induction l as [|q l IH]; intros Hp; [done|].
  apply not_elem_of_cons in Hp as [Hq Hp]. rewrite filter_cons_True by done. by rewrite IH.
Qed.

Lemma removep_head p l : p ∉ l → removep p (p :: l) = l.
Proof. intros Hp. unfold removep. rewrite filter_cons_False by auto. by apply removep_notin. Qed.
End removep.

(** A linked list of element handles. *)
Class GenericList := {
  glist : Type;
  gl_elems : glist → list nat;
  gl_new : glist;
  gl_push_back : nat → glist → glist;
  gl_move_to_back : nat → glist → glist;
  gl_remove : nat → glist → glist;
  gl_front : glist → option nat;
  gl_len : glist → nat;
  gl_elems_new : gl_elems gl_new = [];
  gl_elems_push_back : ∀ p l, gl_elems (gl_push_back p l) = gl_elems l ++ [p];
  gl_elems_move_to_back : ∀ p l, NoDup (gl_elems l) → p ∈ gl_elems l →
    gl_elems (gl_move_to_back p l) = removep p (gl_elems l) ++ [p];
  gl_elems_remove : ∀ p l, NoDup (gl_elems l) → gl_elems (gl_remove p l) = removep p (gl_elems l);
  gl_front_elems : ∀ l, gl_front l = head (gl_elems l);
  gl_len_elems : ∀ l, gl_len l = length (gl_elems l)
}.

(** A plain list is such a list; the witnesses compute with it. *)
Definition plain_list : GenericList := {|
  glist := list nat; gl_elems := λ l, l; gl_new := []; gl_push_back := λ p l, l ++ [p];
  gl_move_to_back := λ p l, removep p l ++ [p]; gl_remove := removep;
  gl_front := head; gl_len := length;
  gl_elems_new := eq_refl; gl_elems_push_back := λ _ _, eq_refl;
  gl_elems_move_to_back := λ _ _ _ _, eq_refl; gl_elems_remove := λ _ _ _, eq_refl;
  gl_front_elems := λ _, eq_refl; gl_len_elems := λ _, eq_refl
|}.

Record entry (K V : Type) := Entry { e_key : K; e_value : V; e_expires : Z }.
Arguments Entry {K V} _ _ _.
Arguments e_key {K V} _.
Arguments e_value {K V} _.
Arguments e_expires {K V} _.

(** The entries allocated so far; pointers are numbers. *)
Record heap (K V : Type) := Heap { h_cells : gmap nat (entry K V); h_next : nat }.
Arguments Heap {K V} _ _.
Arguments h_cells {K V} _.
Arguments h_next {K V} _.

Definition empty_heap {K V} : heap K V := Heap ∅ 0.

Record LruCache `{GenericList} (K V : Type) `{Countable K} := Lru {
  maxAge : Z;
  maxSize : Z;
  cache : gmap K nat;
  lru : glist;
  updateAgeOnGet : bool;
  staleReturn : bool;
  onEvict : bool;          (* whether a callback is set *)
  evicted : list (K * V)   (* the calls made to it *)
}.
Arguments Lru {_ K V _ _} _ _ _ _ _ _ _ _.
Arguments maxAge {_ K V _ _} _.
Arguments maxSize {_ K V _ _} _.
Arguments cache {_ K V _ _} _.
Arguments lru {_ K V _ _} _.
Arguments updateAgeOnGet {_ K V _ _} _.
Arguments staleReturn {_ K V _ _} _.
Arguments onEvict {_ K V _ _} _.
Arguments evicted {_ K V _ _} _.

Section operations.
Context `{GenericList} {K V : Type} `{Countable K}.
Abbreviation Cache := (LruCache K V).
Abbreviation State := (heap K V * LruCache K V)%type.

(** Assignments to the mutable fields. *)
Definition with_lists (c : Cache) (m : gmap K nat) (l : glist) : Cache :=
  Lru (maxAge c) (maxSize c) m l (updateAgeOnGet c) (staleReturn c) (onEvict c) (evicted c).
Definition with_evicted (c : Cache) (ev : list (K * V)) : Cache :=
  Lru (maxAge c) (maxSize c) (cache c) (lru c) (updateAgeOnGet c) (staleReturn c) (onEvict c) ev.
Definition store_cell (h : heap K V) (p : nat) (e : entry K V) : heap K V :=
  Heap (<[p := e]> (h_cells h)) (h_next h).
Definition alloc (h : heap K V) (e : entry K V) : nat * heap K V :=
  (h_next h, Heap (<[h_next h := e]> (h_cells h)) (S (h_next h))).

(** *** Options and construction *)
Definition WithEvict (c : Cache) : Cache :=
  Lru (maxAge c) (maxSize c) (cache c) (lru c) (updateAgeOnGet c) (staleReturn c) true (evicted c).
Definition WithUpdateAgeOnGet (c : Cache) : Cache :=
  Lru (maxAge c) (maxSize c) (cache c) (lru c) true (staleReturn c) (onEvict c) (evicted c).
Definition WithAge (age : Z) (c : Cache) : Cache :=
  Lru age (maxSize c) (cache c) (lru c) (updateAgeOnGet c) (staleReturn c) (onEvict c) (evicted c).
Definition WithSize (size : Z) (c : Cache) : Cache :=
  Lru (maxAge c) size (cache c) (lru c) (updateAgeOnGet c) (staleReturn c) (onEvict c) (evicted c).
Definition WithStale (stale : bool) (c : Cache) : Cache :=
  Lru (maxAge c) (maxSize c) (cache c) (lru c) (updateAgeOnGet c) stale (onEvict c) (evicted c).

Definition Clear (c : Cache) : Cache := with_lists c ∅ gl_new.

Definition New (options : list (Cache → Cache)) : Cache :=
  foldl (λ lc option, option lc) (Clear (Lru 0 0 ∅ gl_new false false false [])) options.

(** *** The unexported operations *)
Definition deleteElement (p : nat) (st : State) : State :=
  let '(h, c) := st in
  match h_cells h !! p with
  | Some e =>
    let c := with_lists c (delete (e_key e) (cache c)) (gl_remove p (lru c)) in
    (h, if onEvict c then with_evicted c (evicted c ++ [(e_key e, e_value e)]) else c)
  | None => (h, c)
  end.

Fixpoint delete_expired (fuel : nat) (now : Z) (st : State) : State :=
  match fuel with
  | 0 => st
  | S f =>
    match gl_front (lru st.2) ≫= λ p, pair p <$> h_cells st.1 !! p with
    | Some (p, e) =>
      if (e_expires e <=? now)%Z then delete_expired f now (deleteElement p st) else st
    | None => st
    end
  end.

Definition maybeDeleteOldest (now : Z) (st : State) : State :=
  if negb (staleReturn st.2) && (maxAge st.2 >? 0)%Z
  then delete_expired (gl_len (lru st.2)) now st else st.

Definition get (now : Z) (key : K) (st : State) : option (entry K V) * State :=
  let '(h, c) := st in
  match cache c !! key ≫= λ p, pair p <$> h_cells h !! p with
  | None => (None, st)
  | Some (p, e) =>
    if negb (staleReturn c) && (maxAge c >? 0)%Z && (e_expires e <=? now)%Z then
      (None, maybeDeleteOldest now (deleteElement p st))
    else
      let c := with_lists c (cache c) (gl_move_to_back p (lru c)) in
      if (maxAge c >? 0)%Z && updateAgeOnGet c then
        let e := Entry (e_key e) (e_value e) (wrap int64 (now + maxAge c)) in
        (Some e, (store_cell h p e, c))
      else (Some e, (h, c))
  end.

Definition setWithExpire (now : Z) (key : K) (value : V) (expires : Z) (st : State) : State :=
  let '(h, c) := st in
  let st :=
    match cache c !! key ≫= λ p, pair p <$> h_cells h !! p with
    | Some (p, e) =>
      (store_cell h p (Entry (e_key e) value expires),
       with_lists c (cache c) (gl_move_to_back p (lru c)))
    | None =>
      let '(p, h) := alloc h (Entry key value expires) in
      let c := with_lists c (<[key := p]> (cache c)) (gl_push_back p (lru c)) in
      if (maxSize c >? 0)%Z && (Z.of_nat (gl_len (lru c)) >? maxSize c)%Z then
        match gl_front (lru c) with
        | Some q => deleteElement q (h, c)
        | None => (h, c)
        end
      else (h, c)
    end in
  maybeDeleteOldest now st.

Definition set (now : Z) (key : K) (value : V) (st : State) : State :=
  let expires := if (maxAge st.2 >? 0)%Z then wrap int64 (now + maxAge st.2) else 0%Z in
  setWithExpire now key value expires st.

Definition delete_key (key : K) (st : State) : State :=
  match cache st.2 !! key with Some p => deleteElement p st | None => st end.

(** *** The exported operations *)
Definition Get (now : Z) (key : K) (st : State) : option V * State :=
  let '(r, st) := get now key st in (e_value <$> r, st).

Definition GetOrStore (now : Z) (key : K) (constructor : V) (st : State) : (V * bool) * State :=
  match get now key st with
  | (None, st) => ((constructor, false), set now key constructor st)
  | (Some e, st) => ((e_value e, true), st)
  end.

Definition GetWithExpire (now : Z) (key : K) (st : State) : option (V * Z) * State :=
  let '(r, st) := get now key st in ((λ e, (e_value e, e_expires e)) <$> r, st).

Definition Exist (key : K) (st : State) : bool := bool_decide (is_Some (cache st.2 !! key)).

Definition Set_ (now : Z) (key : K) (value : V) (st : State) : State := set now key value st.
Definition SetWithExpire (now : Z) (key : K) (value : V) (expires : Z) (st : State) : State :=
  setWithExpire now key value expires st.
Definition Delete (key : K) (st : State) : State := delete_key key st.

(** [CloneTo]: the target's elements carry the very entries of the source. *)
Definition CloneTo (h : heap K V) (c n : Cache) : Cache :=
  foldl (λ n p, match h_cells h !! p with
                | Some e => with_lists n (<[e_key e := p]> (cache n)) (gl_push_back p (lru n))
                | None => n
                end) (with_lists n ∅ gl_new) (gl_elems (lru c)).

Definition Compute (now : Z) (key : K) (valueFn : option V → V * bool) (st : State)
    : option V * State :=
  let '(r, st) := get now key st in
  let '(newValue, del) := valueFn (e_value <$> r) in
  if del then (None, match r with Some _ => delete_key key st | None => st end)
  else (Some newValue, set now key newValue st).
End operations.

(** ** The abstract cache: a list of entries, least recently used first *)

Section spec.
Context {K V : Type} `{EqDecision K}.
Abbreviation alist := (list (entry K V)).

(** The configuration the abstract operations depend on. *)
Record config := Config { c_age : Z; c_size : Z; c_refresh : bool; c_stale : bool }.

Definition expires_enabled (g : config) : bool := negb (c_stale g) && (c_age g >? 0)%Z.

Fixpoint afind (k : K) (l : alist) : option (entry K V) :=
  match l with
  | [] => None
  | e :: l' => if decide (e_key e = k) then Some e else afind k l'
  end.
Definition aremove (k : K) (l : alist) : alist := filter (λ e, e_key e ≠ k) l.

Fixpoint drop_expired (now : Z) (l : alist) : alist :=
  match l with
  | [] => []
  | e :: l' => if (e_expires e <=? now)%Z then drop_expired now l' else l
  end.
Definition a_expire (g : config) (now : Z) (l : alist) : alist :=
  if expires_enabled g then drop_expired now l else l.

Definition a_get (g : config) (now : Z) (k : K) (l : alist) : option (entry K V) * alist :=
  match afind k l with
  | None => (None, l)
  | Some e =>
    if expires_enabled g && (e_expires e <=? now)%Z then (None, a_expire g now (aremove k l))
    else
      let e := if (c_age g >? 0)%Z && c_refresh g
               then Entry (e_key e) (e_value e) (wrap int64 (now + c_age g)) else e in
      (Some e, aremove k l ++ [e])
  end.

Definition a_set (g : config) (now : Z) (k : K) (v : V) (exp : Z) (l : alist) : alist :=
  let fresh := aremove k l ++ [Entry k v exp] in
  let l' := match afind k l with
            | Some _ => fresh
            | None => if (c_size g >? 0)%Z && (Z.of_nat (length fresh) >? c_size g)%Z
                      then tail fresh else fresh
            end in
  a_expire g now l'.

Lemma afind_Some k l e : afind k l = Some e → e ∈ l ∧ e_key e = k.
Proof.
  induction l as [|x l IH]; simpl; [done|]. case_decide; intros; simplify_eq.
  - split; [left|done].
  - destruct IH; [done|]. split; [by right|done].
Qed.

Lemma afind_None k l : afind k l = None ↔ k ∉ (e_key <$> l).
Proof.
  induction l as [|x l IH]; simpl; [split; [set_solver|done]|]. rewrite not_elem_of_cons.
  case_decide; [split; [done|by intros [??]]|]. rewrite IH. naive_solver.
Qed.

Lemma aremove_notin k l : k ∉ (e_key <$> l) → aremove k l = l.
Proof.
  unfold aremove. induction l as [|x l IH]; intros Hk; [done|]. simpl in Hk.
  apply not_elem_of_cons in Hk as [H1 H2]. rewrite filter_cons_True by auto. by rewrite IH.
Qed.

Lemma aremove_keys k l : e_key <$> aremove k l = filter (λ x, x ≠ k) (e_key <$> l).
Proof.
  unfold aremove. induction l as [|x l IH]; [done|]. rewrite fmap_cons, !filter_cons.
  case_decide; rewrite ?fmap_cons; by rewrite IH.
Qed.

Lemma aremove_length k l : length (aremove k l) ≤ length l.
Proof. apply length_filter. Qed.

Lemma afind_aremove_ne k k' l : k ≠ k' → afind k (aremove k' l) = afind k l.
Proof.
  intros Hne. unfold aremove. induction l as [|x l IH]; [done|]. rewrite filter_cons.
  case_decide as Hx; simpl; rewrite IH; [done|]. case_decide; [congruence|done].
Qed.

Lemma afind_app k l l' : afind k (l ++ l') = match afind k l with Some e => Some e | None => afind k l' end.
Proof. induction l as [|x l IH]; simpl; [done|]. by case_decide. Qed.

Lemma afind_unique k l e : NoDup (e_key <$> l) → e ∈ l → e_key e = k → afind k l = Some e.
Proof.
  induction l as [|x l IH]; intros Hnd Hin Hk; [by apply elem_of_nil in Hin|]. simpl in *.
  apply NoDup_cons in Hnd as [Hx Hnd]. apply elem_of_cons in Hin as [->|Hin].
  - by rewrite decide_True.
  - rewrite decide_False; [by apply IH|]. intros Hxk. apply Hx. rewrite Hxk, <- Hk.
    by apply list_elem_of_fmap_2.
Qed.
End spec.
Arguments config : clear implicits.

(** ** Refinement: every operation of the cache implements the abstract one *)

Section refinement.
Context `{GenericList} {K V : Type} `{Countable K}.
Abbreviation Cache := (LruCache K V).
Abbreviation State := (heap K V * LruCache K V)%type.

Definition cfg (c : Cache) : config := Config (maxAge c) (maxSize c) (updateAgeOnGet c) (staleReturn c).

(** The map and the list describe the same set of live entries. *)
Record lru_ok (st : State) : Prop := {
  ok_nodup : NoDup (gl_elems (lru st.2));
  ok_list : ∀ p, p ∈ gl_elems (lru st.2) → ∃ e, h_cells st.1 !! p = Some e ∧ cache st.2 !! e_key e = Some p;
  ok_map : ∀ k p, cache st.2 !! k = Some p →
    p ∈ gl_elems (lru st.2) ∧ ∃ e, h_cells st.1 !! p = Some e ∧ e_key e = k;
  ok_fresh : ∀ p e, h_cells st.1 !! p = Some e → p < h_next st.1
}.

Definition entries (h : heap K V) (ps : list nat) : list (entry K V) := omap (λ p, h_cells h !! p) ps.

(** The abstraction function. *)
Definition view (st : State) : list (entry K V) := entries st.1 (gl_elems (lru st.2)).

Lemma entries_app h l k : entries h (l ++ k) = entries h l ++ entries h k.
Proof. apply omap_app. Qed.

Lemma entries_cons h p l :
  entries h (p :: l) = match h_cells h !! p with Some e => e :: entries h l | None => entries h l end.
Proof. done. Qed.

Lemma entries_ext h h' l : (∀ p, p ∈ l → h_cells h' !! p = h_cells h !! p) → entries h' l = entries h l.
Proof.
  induction l as [|p l IH]; intros Hl; [done|]. rewrite !entries_cons.
  rewrite (Hl p) by left. by rewrite IH by (intros; apply Hl; by right).
Qed.

Lemma elem_of_entries h l e : e ∈ entries h l ↔ ∃ p, p ∈ l ∧ h_cells h !! p = Some e.
Proof. apply list_elem_of_omap. Qed.

(** In a good state a pointer is determined by the key of its entry. *)
Lemma ok_key_inj st p q e f : lru_ok st → p ∈ gl_elems (lru st.2) → q ∈ gl_elems (lru st.2) →
  h_cells st.1 !! p = Some e → h_cells st.1 !! q = Some f → e_key e = e_key f → p = q.
Proof.
  intros Hok Hp Hq He Hf Hk. destruct (ok_list _ Hok p Hp) as (e' & He' & Hc).
  destruct (ok_list _ Hok q Hq) as (f' & Hf' & Hd). simplify_eq. rewrite Hk in Hc. congruence.
Qed.

Lemma view_removep st p e : lru_ok st → p ∈ gl_elems (lru st.2) → h_cells st.1 !! p = Some e →
  entries st.1 (removep p (gl_elems (lru st.2))) = aremove (e_key e) (view st).
Proof.
  intros Hok Hp He. unfold view.
  assert (Hl : ∀ q, q ∈ gl_elems (lru st.2) → ∃ f, h_cells st.1 !! q = Some f ∧ (e_key f = e_key e ↔ q = p)).
  { intros q Hq. destruct (ok_list _ Hok q Hq) as (f & Hf & _). exists f. split; [done|].
    split; [intros; by eapply ok_key_inj|intros ->; congruence]. }
  unfold removep, aremove. revert Hl. generalize (gl_elems (lru st.2)) as l.
  induction l as [|q l IH]; intros Hl; [done|]. rewrite filter_cons, entries_cons.
  destruct (Hl q ltac:(left)) as (f & Hf & Hqp). rewrite Hf, filter_cons.
  rewrite <- IH by (intros; apply Hl; by right).
  destruct (decide (q ≠ p)), (decide (e_key f ≠ e_key e));
    rewrite ?entries_cons, ?Hf; try done; naive_solver.
Qed.

Lemma view_keys_nodup st : lru_ok st → NoDup (e_key <$> view st).
Proof.
  intros Hok. unfold view.
  assert (Hsub : ∀ l, l ⊆ gl_elems (lru st.2) → NoDup l → NoDup (e_key <$> entries st.1 l)).
  { induction l as [|p l IH]; intros Hsub Hnd; [constructor|]. rewrite entries_cons.
    apply NoDup_cons in Hnd as [Hp Hnd]. destruct (ok_list _ Hok p ltac:(apply Hsub; left)) as (e & He & _).
    rewrite He, fmap_cons. apply NoDup_cons. split; [|apply IH; [set_solver|done]].
    intros Hin. apply list_elem_of_fmap in Hin as (f & Hk & Hf).
    apply elem_of_entries in Hf as (q & Hq & Hfq).
    assert (p = q) as -> by (eapply ok_key_inj; eauto; apply Hsub; [left|by right]). done. }
  apply Hsub; [done|apply Hok].
Qed.

Lemma afind_view st k : lru_ok st →
  afind k (view st) = cache st.2 !! k ≫= λ p, h_cells st.1 !! p.
Proof.
  intros Hok. destruct (cache st.2 !! k) as [p|] eqn:Hc; simpl.
  - destruct (ok_map _ Hok k p Hc) as (Hp & e & He & Hk). rewrite He.
    apply afind_unique; [by apply view_keys_nodup| |done]. apply elem_of_entries. eauto.
  - apply afind_None. intros Hin. apply list_elem_of_fmap in Hin as (e & -> & He).
    apply elem_of_entries in He as (p & Hp & He). destruct (ok_list _ Hok p Hp) as (e' & He' & Hc').
    simplify_eq.
Qed.
End refinement.

Section operations_refine.
Context `{GenericList} {K V : Type} `{Countable K}.
Abbreviation Cache := (LruCache K V).
Abbreviation State := (heap K V * LruCache K V)%type.
Implicit Types (st : State) (h : heap K V) (c : Cache).

(** [st'] is a good state with the configuration of [st] whose abstract
    value is [al]. *)
Definition refines_to (st st' : State) (al : list (entry K V)) : Prop :=
  lru_ok st' ∧ view st' = al ∧ cfg st'.2 = cfg st.2.

Lemma refines_to_trans st1 st2 st3 al al' :
  refines_to st1 st2 al → refines_to st2 st3 al' → refines_to st1 st3 al'.
Proof. intros (_ & _ & E1) (H1 & H2 & E2). split; [done|]. split; congruence. Qed.

Lemma lru_ok_with_evicted h c ev : lru_ok (h, c) → lru_ok (h, with_evicted c ev).
Proof. intros [H1 H2 H3 H4]. by split. Qed.

Lemma deleteElement_refines st p e :
  lru_ok st → p ∈ gl_elems (lru st.2) → h_cells st.1 !! p = Some e →
  refines_to st (deleteElement p st) (aremove (e_key e) (view st))
  ∧ (deleteElement p st).1 = st.1
  ∧ gl_elems (lru (deleteElement p st).2) = removep p (gl_elems (lru st.2)).
Proof.
  intros Hok Hp He. pose proof (view_removep st p e Hok Hp He) as Hview.
  destruct st as [h c]; simpl in *. rewrite He.
  set (c' := with_lists c _ _).
  assert (Hel : gl_elems (lru c') = removep p (gl_elems (lru c))).
  { apply gl_elems_remove, (ok_nodup _ Hok). }
  assert (lru_ok (h, c')) as Hok'.
  { split; simpl.
    - change (NoDup (gl_elems (lru c'))). rewrite Hel. apply removep_NoDup, (ok_nodup _ Hok).
    - intros q Hq. change (q ∈ gl_elems (lru c')) in Hq. rewrite Hel in Hq.
      apply elem_of_removep in Hq as [Hne Hq]. destruct (ok_list _ Hok q Hq) as (f & Hf & Hc).
      exists f. split; [done|]. rewrite lookup_delete_ne; [done|]. intros Hk.
      apply Hne. eapply (ok_key_inj (h, c)); eauto.
    - intros k q Hq. apply lookup_delete_Some in Hq as [Hk Hq].
      destruct (ok_map _ Hok k q Hq) as (Hin & f & Hf & Hfk). simpl in *. split; [|eauto].
      rewrite Hel. apply elem_of_removep. split; [congruence|done].
    - apply Hok. }
  assert (Hv : view (h, c') = aremove (e_key e) (view (h, c))).
  { change (entries h (gl_elems (lru c')) = aremove (e_key e) (view (h, c))). by rewrite Hel. }
  destruct (onEvict c).
  - split; [split; [by apply lru_ok_with_evicted|by split]|by split].
  - split; [split; [done|by split]|by split].
Qed.

Lemma head_view st p l : lru_ok st → gl_elems (lru st.2) = p :: l →
  ∃ e, h_cells st.1 !! p = Some e ∧ view st = e :: entries st.1 l
       ∧ aremove (e_key e) (view st) = entries st.1 l.
Proof.
  intros Hok Hl. destruct (ok_list _ Hok p) as (e & He & _); [rewrite Hl; left|].
  exists e. split; [done|].
  assert (Hv : view st = e :: entries st.1 l) by (unfold view; by rewrite Hl, entries_cons, He).
  split; [done|]. rewrite <- (view_removep st p e Hok) by (done || rewrite Hl; left).
  rewrite Hl, removep_head; [done|]. pose proof (ok_nodup _ Hok) as Hnd. rewrite Hl in Hnd.
  by apply NoDup_cons in Hnd as [??].
Qed.

Lemma refines_to_refl st : lru_ok st → refines_to st st (view st).
Proof. intros. split; [done|by split]. Qed.

Lemma delete_expired_refines n now st : lru_ok st → length (gl_elems (lru st.2)) ≤ n →
  refines_to st (delete_expired n now st) (drop_expired now (view st)).
Proof.
  revert st. induction n as [|n IH]; intros st Hok Hn; simpl; rewrite ?gl_front_elems.
  - destruct (gl_elems (lru st.2)) eqn:El; simpl in Hn; [|lia].
    assert (view st = []) as Hv by (unfold view; by rewrite El).
    rewrite Hv; simpl. rewrite <- Hv. by apply refines_to_refl.
  - destruct (gl_elems (lru st.2)) as [|p l] eqn:El; simpl.
    { assert (view st = []) as Hv by (unfold view; by rewrite El).
      rewrite Hv; simpl. rewrite <- Hv. by apply refines_to_refl. }
    destruct (head_view st p l Hok El) as (e & He & Hv & Hr). rewrite He. simpl.
    rewrite Hv. simpl. destruct (Z.leb_spec (e_expires e) now).
    + destruct (deleteElement_refines st p e Hok) as (Hd & Hh & Hel); [rewrite El; left|done|].
      rewrite Hr in Hd. eapply refines_to_trans; [exact Hd|].
      destruct Hd as (Hok' & Hv' & _). rewrite <- Hv'. apply IH; [done|].
      rewrite Hel, El. pose proof (ok_nodup _ Hok) as Hnd. rewrite El in Hnd.
      apply NoDup_cons in Hnd as [? _]. rewrite removep_head by done. simpl in Hn. lia.
    + rewrite <- Hv. by apply refines_to_refl.
Qed.

Lemma maybeDeleteOldest_refines now st : lru_ok st →
  refines_to st (maybeDeleteOldest now st) (a_expire (cfg st.2) now (view st)).
Proof.
  intros Hok. unfold maybeDeleteOldest, a_expire, expires_enabled. simpl. case_match.
  - apply delete_expired_refines; [done|]. by rewrite gl_len_elems.
  - by apply refines_to_refl.
Qed.

(** Moving an element to the back while overwriting its entry. *)
Lemma touch_refines h c k p e e' : lru_ok (h, c) → cache c !! k = Some p → h_cells h !! p = Some e →
  e_key e' = k →
  refines_to (h, c) (store_cell h p e', with_lists c (cache c) (gl_move_to_back p (lru c)))
    (aremove k (view (h, c)) ++ [e']).
Proof.
  intros Hok Hc He He'. destruct (ok_map _ Hok k p Hc) as (Hp & e0 & He0 & Hk). simpl in *.
  assert (e0 = e) as -> by congruence. clear He0.
  assert (Hel := gl_elems_move_to_back p (lru c) (ok_nodup _ Hok) Hp).
  split; [|split; [|done]].
  - split; simpl.
    + rewrite Hel. apply NoDup_app. split; [apply removep_NoDup, (ok_nodup _ Hok)|].
      split; [|apply NoDup_singleton]. intros q Hq Hq'. apply list_elem_of_singleton in Hq' as ->.
      apply elem_of_removep in Hq as [? _]. done.
    + intros q Hq. destruct (decide (q = p)) as [->|Hne].
      * exists e'. rewrite lookup_insert_eq. split; [done|]. by rewrite He'.
      * rewrite Hel in Hq. apply elem_of_app in Hq as [Hq|Hq%list_elem_of_singleton]; [|done].
        apply elem_of_removep in Hq as [_ Hq]. destruct (ok_list _ Hok q Hq) as (f & Hf & Hfc).
        exists f. by rewrite lookup_insert_ne.
    + intros k' q Hq. destruct (ok_map _ Hok k' q Hq) as (Hin & f & Hf & Hfk). simpl in *. split.
      * rewrite Hel. apply elem_of_app. destruct (decide (q = p)) as [->|]; [right; left|left].
        by apply elem_of_removep.
      * destruct (decide (q = p)) as [->|]; [|by rewrite lookup_insert_ne; eauto].
        exists e'. rewrite lookup_insert_eq. split; [done|]. congruence.
    + intros q f Hf. destruct (decide (q = p)) as [->|]; [by eapply (ok_fresh _ Hok)|].
      rewrite lookup_insert_ne in Hf by done. by eapply (ok_fresh _ Hok).
  - unfold view at 1. simpl. rewrite Hel, entries_app, entries_cons. simpl. rewrite lookup_insert_eq. f_equal.
    rewrite <- Hk, <- (view_removep (h, c) p e Hok Hp He). simpl. apply entries_ext. intros q Hq. simpl.
    apply elem_of_removep in Hq as [? _]. by rewrite lookup_insert_ne.
Qed.

Lemma store_cell_same h p e : h_cells h !! p = Some e → store_cell h p e = h.
Proof. intros He. destruct h. unfold store_cell; simpl in *. f_equal. by apply insert_id. Qed.
End operations_refine.

Section public_refine.
Context `{GenericList} {K V : Type} `{Countable K}.
Abbreviation Cache := (LruCache K V).
Abbreviation State := (heap K V * LruCache K V)%type.
Implicit Types (st : State) (h : heap K V) (c : Cache).

Lemma get_refines now k st : lru_ok st →
  (get now k st).1 = (a_get (cfg st.2) now k (view st)).1
  ∧ refines_to st (get now k st).2 (a_get (cfg st.2) now k (view st)).2.
Proof.
  intros Hok. unfold a_get. rewrite (afind_view st k Hok). destruct st as [h c]. simpl.
  destruct (cache c !! k) as [p|] eqn:Hc; simpl; [|by split; [|apply refines_to_refl]].
  destruct (ok_map _ Hok k p Hc) as (Hp & e & He & Hk). simpl in Hp, He. rewrite He. simpl.
  unfold expires_enabled. simpl. destruct (_ && (e_expires e <=? now)%Z) eqn:Hexp; simpl.
  - split; [done|]. destruct (deleteElement_refines (h, c) p e Hok Hp He) as [Hd _].
    rewrite Hk in Hd. eapply refines_to_trans; [exact Hd|]. destruct Hd as (Hok' & Hv & Hcfg).
    rewrite <- Hv. change (Config _ _ _ _) with (cfg c). simpl in Hcfg. rewrite <- Hcfg.
    by apply maybeDeleteOldest_refines.
  - destruct ((maxAge c >? 0)%Z && updateAgeOnGet c); simpl; (split; [done|]).
    + by apply (touch_refines h c k p e).
    + rewrite <- (store_cell_same h p e He) at 2. by apply (touch_refines h c k p e).
Qed.

(** A new entry at the back of the list. *)
Lemma push_refines h c k v exp : lru_ok (h, c) → cache c !! k = None →
  let '(p, h') := alloc h (Entry k v exp) in
  refines_to (h, c) (h', with_lists c (<[k := p]> (cache c)) (gl_push_back p (lru c)))
    (view (h, c) ++ [Entry k v exp]).
Proof.
  intros Hok Hc. unfold alloc. set (p := h_next h). set (e := Entry k v exp).
  assert (Hnew : h_cells h !! p = None).
  { destruct (h_cells h !! p) eqn:E; [|done]. apply (ok_fresh _ Hok) in E. simpl in E. lia. }
  assert (Hp : p ∉ gl_elems (lru c)).
  { intros Hin. destruct (ok_list _ Hok p Hin) as (f & Hf & _). simpl in Hf. congruence. }
  split; [|split; [|done]].
  - split; simpl; rewrite ?gl_elems_push_back.
    + apply NoDup_app. split; [apply (ok_nodup _ Hok)|]. split; [|apply NoDup_singleton]. set_solver.
    + intros q Hq. apply elem_of_app in Hq as [Hq| ->%list_elem_of_singleton].
      * destruct (ok_list _ Hok q Hq) as (f & Hf & Hfc). simpl in *. exists f.
        rewrite lookup_insert_ne by congruence. split; [done|].
        rewrite lookup_insert_ne by congruence. done.
      * exists e. by rewrite !lookup_insert_eq.
    + intros k' q Hq. apply lookup_insert_Some in Hq as [[<- <-]|[Hk Hq]].
      * split; [set_solver|]. exists e. by rewrite lookup_insert_eq.
      * destruct (ok_map _ Hok k' q Hq) as (Hin & f & Hf & Hfk). simpl in *. split; [set_solver|].
        exists f. by rewrite lookup_insert_ne by congruence.
    + intros q f Hf. apply lookup_insert_Some in Hf as [[<- <-]|[? Hf]]; [lia|].
      apply (ok_fresh _ Hok) in Hf. simpl in Hf. lia.
  - unfold view at 1. simpl. rewrite gl_elems_push_back, entries_app, entries_cons. simpl.
    rewrite lookup_insert_eq. f_equal. apply entries_ext. intros q Hq. simpl.
    rewrite lookup_insert_ne; [done|]. by intros <-.
Qed.

Lemma evict_front_refines st : lru_ok st → gl_elems (lru st.2) ≠ [] →
  refines_to st (match gl_front (lru st.2) with Some q => deleteElement q st | None => st end)
    (tail (view st)).
Proof.
  intros Hok Hne. rewrite gl_front_elems. destruct (gl_elems (lru st.2)) as [|q l] eqn:El; [done|]. simpl.
  destruct (head_view st q l Hok El) as (e & He & Hv & Hr).
  destruct (deleteElement_refines st q e Hok) as [Hd _]; [rewrite El; left|done|].
  rewrite Hr in Hd. by rewrite Hv.
Qed.

Lemma length_view st : lru_ok st → length (view st) = gl_len (lru st.2).
Proof.
  intros Hok. rewrite gl_len_elems. unfold view.
  assert (Hl : ∀ p, p ∈ gl_elems (lru st.2) → is_Some (h_cells st.1 !! p)).
  { intros p Hp. destruct (ok_list _ Hok p Hp) as (e & He & _). eauto. }
  revert Hl. generalize (gl_elems (lru st.2)) as l. induction l as [|p l IH]; intros Hl; [done|].
  rewrite entries_cons. destruct (Hl p) as [e ->]; [left|]. simpl. rewrite IH; [done|].
  intros q Hq. apply Hl. by right.
Qed.

Lemma setWithExpire_refines now k v exp st : lru_ok st →
  refines_to st (setWithExpire now k v exp st) (a_set (cfg st.2) now k v exp (view st)).
Proof.
  intros Hok. unfold a_set, setWithExpire. rewrite (afind_view st k Hok). destruct st as [h c]. simpl.
  destruct (cache c !! k) as [p|] eqn:Hc; simpl.
  - destruct (ok_map _ Hok k p Hc) as (Hp & e & He & Hk). simpl in He. rewrite He. simpl.
    assert (Ht := touch_refines h c k p e (Entry (e_key e) v exp) Hok Hc He Hk). rewrite Hk in Ht at 2.
    rewrite Hk in *. eapply refines_to_trans; [exact Ht|]. destruct Ht as (Hok' & Hv & Hcfg).
    rewrite <- Hv. change (cfg c) with (cfg (h, c).2). rewrite <- Hcfg. by apply maybeDeleteOldest_refines.
  - pose proof (push_refines h c k v exp Hok Hc) as Hpush. simpl in Hpush.
    match type of Hpush with refines_to _ ?s _ => set (st1 := s) in Hpush end.
    assert (Hk : aremove k (view (h, c)) = view (h, c)).
    { apply aremove_notin, afind_None. rewrite (afind_view (h, c) k Hok). simpl. by rewrite Hc. }
    rewrite Hk. pose proof Hpush as (Hok1 & Hv1 & Hcfg1).
    assert (Hlen : gl_len (lru st1.2) = length (view (h, c) ++ [Entry k v exp])).
    { by rewrite <- Hv1, length_view. }
    match goal with |- refines_to _ (maybeDeleteOldest _ ?s) _ => set (st2 := s) end.
    assert (Hst2 : refines_to (h, c) st2
      (if (maxSize c >? 0)%Z && (Z.of_nat (length (view (h, c) ++ [Entry k v exp])) >? maxSize c)%Z
       then tail (view (h, c) ++ [Entry k v exp]) else view (h, c) ++ [Entry k v exp])).
    { unfold st2. rewrite <- Hlen. simpl. destruct (_ && _); [|done].
      eapply refines_to_trans; [exact Hpush|]. rewrite <- Hv1. apply evict_front_refines; [done|].
      simpl. rewrite gl_elems_push_back. by destruct (gl_elems (lru c)). }
    eapply refines_to_trans; [exact Hst2|]. destruct Hst2 as (Hok2 & Hv2 & Hcfg2). rewrite <- Hv2.
    change (cfg c) with (cfg (h, c).2). rewrite <- Hcfg2. by apply maybeDeleteOldest_refines.
Qed.

Lemma delete_key_refines k st : lru_ok st → refines_to st (delete_key k st) (aremove k (view st)).
Proof.
  intros Hok. unfold delete_key. destruct (cache st.2 !! k) as [p|] eqn:Hc.
  - destruct (ok_map _ Hok k p Hc) as (Hp & e & He & <-). by apply deleteElement_refines.
  - rewrite aremove_notin; [by apply refines_to_refl|]. apply afind_None.
    rewrite (afind_view st k Hok). by rewrite Hc.
Qed.

Lemma Clear_refines h c : (∀ p e, h_cells h !! p = Some e → p < h_next h) →
  refines_to (h, c) (h, Clear c) [].
Proof.
  intros Hfresh. split; [|split; [|done]].
  - split; simpl; rewrite ?gl_elems_new; [constructor|set_solver|intros k p; by rewrite lookup_empty|done].
  - unfold view; simpl. by rewrite gl_elems_new.
Qed.

End public_refine.

(** ** Whole runs *)

Section runs.
Context `{GenericList} {K V : Type} `{Countable K}.
Abbreviation Cache := (LruCache K V).
Abbreviation State := (heap K V * LruCache K V)%type.

Inductive lru_option := OptEvict | OptUpdateAge | OptAge (age : Z) | OptSize (size : Z) | OptStale (stale : bool).

Definition apply_option (o : lru_option) : Cache → Cache :=
  match o with
  | OptEvict => WithEvict
  | OptUpdateAge => WithUpdateAgeOnGet
  | OptAge age => WithAge age
  | OptSize size => WithSize size
  | OptStale stale => WithStale stale
  end.

(** A cache and its heap as the constructor leaves them. *)
Definition new_state (options : list lru_option) : State := (empty_heap, New (apply_option <$> options)).

Inductive op :=
| OGet (k : K)
| OGetOrStore (k : K) (v : V)
| OGetWithExpire (k : K)
| OExist (k : K)
| OSet (k : K) (v : V)
| OSetWithExpire (k : K) (v : V) (expires : Z)
| ODelete (k : K)
| OClear
| OCompute (k : K) (f : option V → V * bool).

(** What a call returns. *)
Inductive observation :=
| Nothing
| Value (v : option V)
| Loaded (v : V) (loaded : bool)
| Expires (r : option (V * Z))
| Found (b : bool).

Definition run_op (now : Z) (o : op) (st : State) : observation * State :=
  match o with
  | OGet k => let '(r, st) := Get now k st in (Value r, st)
  | OGetOrStore k v => let '((r, b), st) := GetOrStore now k v st in (Loaded r b, st)
  | OGetWithExpire k => let '(r, st) := GetWithExpire now k st in (Expires r, st)
  | OExist k => (Found (Exist k st), st)
  | OSet k v => (Nothing, Set_ now k v st)
  | OSetWithExpire k v e => (Nothing, SetWithExpire now k v e st)
  | ODelete k => (Nothing, Delete k st)
  | OClear => (Nothing, (st.1, Clear st.2))
  | OCompute k f => let '(r, st) := Compute now k f st in (Value r, st)
  end.

Definition a_expiry (g : config) (now : Z) : Z :=
  if (c_age g >? 0)%Z then wrap int64 (now + c_age g) else 0%Z.

Definition a_run_op (g : config) (now : Z) (o : op) (l : list (entry K V))
    : observation * list (entry K V) :=
  match o with
  | OGet k => let '(r, l) := a_get g now k l in (Value (e_value <$> r), l)
  | OGetOrStore k v =>
    let '(r, l) := a_get g now k l in
    match r with
    | Some e => (Loaded (e_value e) true, l)
    | None => (Loaded v false, a_set g now k v (a_expiry g now) l)
    end
  | OGetWithExpire k =>
    let '(r, l) := a_get g now k l in (Expires ((λ e, (e_value e, e_expires e)) <$> r), l)
  | OExist k => (Found (bool_decide (is_Some (afind k l))), l)
  | OSet k v => (Nothing, a_set g now k v (a_expiry g now) l)
  | OSetWithExpire k v e => (Nothing, a_set g now k v e l)
  | ODelete k => (Nothing, aremove k l)
  | OClear => (Nothing, [])
  | OCompute k f =>
    let '(r, l) := a_get g now k l in
    let '(v, del) := f (e_value <$> r) in
    if del then (Value None, aremove k l)
    else (Value (Some v), a_set g now k v (a_expiry g now) l)
  end.

(** A run: operations with the clock reading of each. *)
Fixpoint run (ops : list (Z * op)) (st : State) : list observation * State :=
  match ops with
  | [] => ([], st)
  | (now, o) :: ops =>
    let '(r, st) := run_op now o st in
    let '(rs, st) := run ops st in (r :: rs, st)
  end.

Fixpoint a_run (g : config) (ops : list (Z * op)) (l : list (entry K V))
    : list observation * list (entry K V) :=
  match ops with
  | [] => ([], l)
  | (now, o) :: ops =>
    let '(r, l) := a_run_op g now o l in
    let '(rs, l) := a_run g ops l in (r :: rs, l)
  end.

Implicit Types (st : State) (c : Cache).

Lemma set_refines now k v st : lru_ok st →
  refines_to st (set now k v st) (a_set (cfg st.2) now k v (a_expiry (cfg st.2) now) (view st)).
Proof. intros Hok. by apply setWithExpire_refines. Qed.

(** A key that is gone from the abstract cache after a failed [get]. *)
Lemma a_get_None_aremove g now (k : K) (l : list (entry K V)) : (a_get g now k l).1 = None →
  aremove k (a_get g now k l).2 = (a_get g now k l).2.
Proof.
  unfold a_get. destruct (afind k l) as [e|] eqn:Hf; simpl.
  - case_match; [|done]. intros _. simpl. apply aremove_notin. unfold a_expire. case_match.
    + intros Hin. assert (k ∈ e_key <$> aremove k l) as Hin'.
      { revert Hin. generalize (aremove k l) as m. induction m as [|x m IH]; [done|]. cbn [drop_expired].
        case_match; [|done]. rewrite fmap_cons. intros. right. auto. }
      rewrite aremove_keys in Hin'. apply list_elem_of_filter in Hin' as [??]. done.
    + rewrite aremove_keys. intros Hin. apply list_elem_of_filter in Hin as [??]. done.
  - intros _. by apply aremove_notin, afind_None.
Qed.

Lemma run_op_refines now o st : lru_ok st →
  (run_op now o st).1 = (a_run_op (cfg st.2) now o (view st)).1
  ∧ refines_to st (run_op now o st).2 (a_run_op (cfg st.2) now o (view st)).2.
Proof.
  intros Hok. destruct o as [k|k v|k|k|k v|k v e|k| |k f]; simpl;
    try (pose proof (get_refines now k st Hok) as [Hr Hg]; pose proof (a_get_None_aremove (cfg st.2) now k (view st)) as Hno;
         unfold Get, GetOrStore, GetWithExpire, Compute;
         destruct (get now k st) as [r st'], (a_get (cfg st.2) now k (view st)) as [r' l'];
         simpl in Hr, Hg, Hno; subst r'; pose proof Hg as (Hok' & Hv & Hc)); simpl.
  - by split.
  - destruct r as [e|]; simpl; [by split|]. split; [done|]. eapply refines_to_trans; [exact Hg|].
    rewrite <- Hv, <- Hc. by apply set_refines.
  - by split.
  - split; [|by apply refines_to_refl]. f_equal. unfold Exist. apply bool_decide_ext.
    rewrite (afind_view st k Hok). destruct (cache st.2 !! k) as [p|] eqn:E; simpl; [|done].
    destruct (ok_map _ Hok k p E) as (_ & e & -> & _). split; eauto.
  - split; [done|]. by apply set_refines.
  - split; [done|]. by apply setWithExpire_refines.
  - split; [done|]. by apply delete_key_refines.
  - split; [done|]. destruct st. apply Clear_refines, (ok_fresh _ Hok).
  - destruct (f (e_value <$> r)) as [v del]. destruct del; simpl; (split; [done|]);
      (eapply refines_to_trans; [exact Hg|]).
    + destruct r as [e|]; [rewrite <- Hv; by apply delete_key_refines|].
      rewrite Hno by done. rewrite <- Hv. by apply refines_to_refl.
    + rewrite <- Hv, <- Hc. by apply set_refines.
Qed.

Lemma run_refines ops st : lru_ok st →
  (run ops st).1 = (a_run (cfg st.2) ops (view st)).1
  ∧ refines_to st (run ops st).2 (a_run (cfg st.2) ops (view st)).2.
Proof.
  revert st. induction ops as [|[now o] ops IH]; intros st Hok; simpl; [by split; [|apply refines_to_refl]|].
  destruct (run_op_refines now o st Hok) as [Hr Href].
  destruct (run_op now o st) as [r st'], (a_run_op (cfg st.2) now o (view st)) as [r' l'].
  simpl in Hr, Href. subst r'. pose proof Href as (Hok' & Hv & Hc).
  destruct (IH st' Hok') as [Hrs Hrun]. rewrite Hv, Hc in *.
  destruct (run ops st') as [rs st''], (a_run (cfg st.2) ops l') as [rs' l'']. simpl in *. subst rs'.
  split; [done|]. by eapply refines_to_trans.
Qed.

Lemma new_state_ok options : lru_ok (new_state options) ∧ view (new_state options) = [].
Proof.
  assert (Hnew : gl_elems (lru (new_state options).2) = [] ∧ cache (new_state options).2 = ∅).
  { unfold new_state, New. simpl.
    assert (Hgen : ∀ c, gl_elems (lru c) = [] → cache c = ∅ →
      gl_elems (lru (foldl (λ lc option, option lc) c (apply_option <$> options))) = [] ∧
      cache (foldl (λ lc option, option lc) c (apply_option <$> options)) = ∅).
    { induction options as [|o l IH]; intros c Hl Hc; [done|]. simpl. apply IH; by destruct o. }
    apply Hgen; [apply gl_elems_new|done]. }
  destruct Hnew as [Hl Hc]. split; [|unfold view; by rewrite Hl].
  split; rewrite ?Hl, ?Hc; [constructor|set_solver|intros k p; by rewrite lookup_empty|].
  simpl. intros p e. by rewrite lookup_empty.
Qed.
End runs.

(** C8: The cache implements its specification: along any sequence of calls
    on a new cache, with any clock readings, every call returns what the
    abstract cache - a plain list of entries, least recently used first -
    returns, and the map and the linked list stay two views of that list.
    ([GetWithExpire] drops an entry past its age and renews the age as [Get]
    does; its comment in the code says that it does neither.) *)
Theorem lru_refines_spec `{GenericList} {K V} `{Countable K}
    (options : list lru_option) (ops : list (Z * op (K := K) (V := V))) :
  let st := new_state (K := K) (V := V) options in
  (run ops st).1 = (a_run (cfg st.2) ops []).1
  ∧ view (run ops st).2 = (a_run (cfg st.2) ops []).2
  ∧ lru_ok (run ops st).2.
Proof.
  simpl. destruct (new_state_ok (K := K) (V := V) options) as [Hok Hv].
  destruct (run_refines ops _ Hok) as [Hr (Hok' & Hv' & _)]. rewrite Hv in *. auto.
Qed.

Section bounds.
Context {K V : Type} `{Countable K}.
Implicit Types l : list (entry K V).

Lemma drop_expired_length now l : length (drop_expired now l) ≤ length l.
Proof. induction l as [|e l IH]; simpl; [lia|]. case_match; simpl; lia. Qed.

Lemma a_expire_length g now l : length (a_expire g now l) ≤ length l.
Proof. unfold a_expire. case_match; [apply drop_expired_length|lia]. Qed.

Lemma aremove_found k l e : afind k l = Some e → S (length (aremove k l)) ≤ length l.
Proof.
  induction l as [|x l IH]; simpl; [done|]. unfold aremove in *. rewrite filter_cons. case_decide as Hx; intros Hf.
  - rewrite decide_False by auto. pose proof (length_filter (λ e, e_key e ≠ k) l). lia.
  - rewrite decide_True by done. simpl. apply IH in Hf. lia.
Qed.

Lemma a_get_length g now k l : length (a_get g now k l).2 ≤ length l.
Proof.
  unfold a_get. destruct (afind k l) as [e|] eqn:Hf; [|simpl; lia]. pose proof (aremove_found k l e Hf).
  case_match; simpl; [pose proof (a_expire_length g now (aremove k l)); lia|].
  rewrite length_app. simpl. lia.
Qed.

Lemma a_set_length g now k v exp l : (0 < c_size g)%Z → (Z.of_nat (length l) ≤ c_size g)%Z →
  (Z.of_nat (length (a_set g now k v exp l)) ≤ c_size g)%Z.
Proof.
  intros Hpos Hl. unfold a_set. match goal with |- context [a_expire g now ?x] => set (m := x) end.
  pose proof (a_expire_length g now m) as Ha. enough (Z.of_nat (length m) ≤ c_size g)%Z by lia.
  unfold m. destruct (afind k l) as [e|] eqn:Hf.
  - pose proof (aremove_found k l e Hf). rewrite length_app. simpl. lia.
  - assert (aremove k l = l) as -> by (by apply aremove_notin, afind_None).
    rewrite !Z.gtb_ltb. destruct (Z.ltb_spec 0 (c_size g)); [|lia]. simpl.
    destruct (Z.ltb_spec (c_size g) (Z.of_nat (length (l ++ [Entry k v exp])))); [|lia].
    rewrite length_tl, length_app. simpl. lia.
Qed.

Lemma a_run_length g ops l : (0 < c_size g)%Z → (Z.of_nat (length l) ≤ c_size g)%Z →
  (Z.of_nat (length (a_run g ops l).2) ≤ c_size g)%Z.
Proof.
  intros Hpos. revert l. induction ops as [|[now o] ops IH]; intros l Hl; simpl; [done|].
  assert (Hop : (Z.of_nat (length (a_run_op g now o l).2) ≤ c_size g)%Z).
  { destruct o as [k|k v|k|k|k v|k v e|k| |k f]; simpl;
      try (pose proof (a_get_length g now k l); destruct (a_get g now k l) as [r l']; simpl in *);
      try lia; try by apply a_set_length.
    - destruct r; simpl; [lia|]. apply a_set_length; [done|lia].
    - pose proof (aremove_length k l). lia.
    - destruct (f (e_value <$> r)) as [v []]; simpl; [pose proof (aremove_length k l'); lia|].
      apply a_set_length; [done|lia]. }
  destruct (a_run_op g now o l) as [r l']. simpl in Hop. specialize (IH l' Hop).
  by destruct (a_run g ops l').
Qed.
End bounds.

(** A cache with a positive size limit never holds more entries than the
    limit, whatever sequence of calls it gets and whatever the clock says. *)
Theorem lru_size_bound `{GenericList} {K V} `{Countable K}
    (options : list lru_option) (ops : list (Z * op (K := K) (V := V))) :
  let st := new_state (K := K) (V := V) options in
  (0 < maxSize st.2)%Z →
  (Z.of_nat (gl_len (lru (run ops st).2.2)) ≤ maxSize st.2)%Z.
Proof.
  simpl. intros Hpos. destruct (new_state_ok (K := K) (V := V) options) as [Hok Hv].
  destruct (run_refines ops _ Hok) as [_ (Hok' & Hv' & _)]. rewrite Hv in Hv'.
  rewrite <- length_view, Hv' by done. apply (a_run_length (cfg _) ops []); simpl; lia.
Qed.

Definition witness_ops : list (Z * op (K := nat) (V := nat)) :=
  [(0%Z, OSet 1 10); (0%Z, OSet 2 20); (0%Z, OGet 1); (0%Z, OSet 3 30)].

Lemma lru_size_bound_witness :
  (Z.of_nat (@gl_len plain_list (lru (run (H := plain_list) witness_ops (new_state [OptSize 2])).2.2)) ≤ 2)%Z.
Proof.
  apply (lru_size_bound (H := plain_list) [OptSize 2] witness_ops). simpl. lia.
Defined.

(** In that run the entry used least recently, 2, is the one evicted. *)
Example lru_eviction_example :
  (λ e, (e_key e, e_value e)) <$> view (H := plain_list)
     (run (H := plain_list) witness_ops (new_state (H := plain_list) [OptSize 2])).2 = [(1, 10); (3, 30)].
Proof. reflexivity. Qed.

(** [GetWithExpire] checks the age of an element and updates its expiry. *)
Example GetWithExpire_checks_age :
  (run (H := plain_list) [(0%Z, OSet 1 10); (20%Z, OGetWithExpire 1); (20%Z, OExist 1)] (new_state (H := plain_list) [OptAge 10])).1
    = [Nothing; Expires None; Found false]
  ∧ (run (H := plain_list) [(0%Z, OSet 1 10); (5%Z, OGetWithExpire 1)] (new_state (H := plain_list) [OptAge 10; OptUpdateAge])).1
    = [Nothing; Expires (Some (10, 15%Z))].
Proof. by vm_compute. Qed.

Section set_get.
Context {K V : Type} `{Countable K}.
Implicit Types l : list (entry K V).

Lemma drop_expired_snoc now l e : (now < e_expires e)%Z →
  drop_expired now (l ++ [e]) = drop_expired now l ++ [e].
Proof.
  intros He. induction l as [|x l IH]; simpl; [by destruct (Z.leb_spec (e_expires e) now); [lia|]|].
  by case_match.
Qed.

Lemma afind_drop_expired_None k now l : afind k l = None → afind k (drop_expired now l) = None.
Proof. induction l as [|x l IH]; simpl; [done|]. case_decide; [done|]. intros. case_match; simpl; [auto|]. by rewrite decide_False. Qed.

Lemma afind_aremove_same k l : afind k (aremove k l) = None.
Proof.
  apply afind_None. rewrite aremove_keys. intros Hin. by apply list_elem_of_filter in Hin as [??].
Qed.

(** The entry just stored is at the back, unless it is born expired. *)
Lemma a_set_snoc g now k v exp l : expires_enabled g = false ∨ (now < exp)%Z →
  ∃ m, a_set g now k v exp l = m ++ [Entry k v exp] ∧ afind k m = None.
Proof.
  intros Hexp. unfold a_set.
  set (e := Entry k v exp). match goal with |- context [a_expire g now ?x] => set (m := x) end.
  assert (∃ m0, m = m0 ++ [e] ∧ afind k m0 = None) as (m0 & -> & Hm0).
  { unfold m. destruct (afind k l) as [e0|] eqn:Hf.
    - exists (aremove k l). split; [done|]. apply afind_aremove_same.
    - assert (aremove k l = l) as Hrl by (by apply aremove_notin, afind_None). rewrite Hrl.
      rewrite !Z.gtb_ltb. destruct (Z.ltb_spec 0 (c_size g)); simpl; [|by exists l].
      case_match; [|by exists l]. destruct l as [|x l]; simpl in *; zify_bool; [lia|].
      exists l. split; [done|]. by case_decide. }
  unfold a_expire. destruct (expires_enabled g); [|by exists m0].
  destruct Hexp as [?|Hlt]; [done|]. rewrite drop_expired_snoc by done.
  eexists. split; [done|]. by apply afind_drop_expired_None.
Qed.

Lemma afind_a_set g now k v exp l :
  expires_enabled g = false ∨ (now < exp)%Z →
  afind k (a_set g now k v exp l) = Some (Entry k v exp).
Proof.
  intros (m & -> & Hm)%(a_set_snoc g now k v exp l). rewrite afind_app, Hm. simpl. by rewrite decide_True.
Qed.

(** *** Where the entries come from *)

Lemma elem_of_drop_expired now l x : x ∈ drop_expired now l → x ∈ l.
Proof. induction l as [|y l IH]; simpl; [done|]. case_match; [|done]. intros. right. auto. Qed.
Lemma elem_of_a_expire g now l x : x ∈ a_expire g now l → x ∈ l.
Proof. unfold a_expire. case_match; [apply elem_of_drop_expired|done]. Qed.
Lemma elem_of_aremove k l x : x ∈ aremove k l → x ∈ l.
Proof. unfold aremove. by intros [_ ?]%list_elem_of_filter. Qed.

Lemma elem_of_a_get g now k l x : c_refresh g = false → x ∈ (a_get g now k l).2 → x ∈ l.
Proof.
  intros Hr. unfold a_get. rewrite Hr, andb_false_r. destruct (afind k l) as [e|] eqn:Hf; [|done]. case_match; simpl.
  - by intros ?%elem_of_a_expire%elem_of_aremove.
  - intros [?%elem_of_aremove| ->%list_elem_of_singleton]%elem_of_app; [done|]. by apply afind_Some in Hf as [? _].
Qed.
Lemma elem_of_a_set g now k v exp l x : x ∈ a_set g now k v exp l → x ∈ l ∨ x = Entry k v exp.
Proof.
  unfold a_set. intros Hx%elem_of_a_expire.
  assert (x ∈ aremove k l ++ [Entry k v exp]) as [?%elem_of_aremove|?%list_elem_of_singleton]%elem_of_app; [|by auto..].
  destruct (afind k l); [done|]. case_match; [|done]. destruct (aremove k l ++ [Entry k v exp]); [done|]. by right.
Qed.

(** *** An entry that few others are used after *)

(** [e] is in the cache and the keys used since it was last used are in [S]. *)
Definition kept (S : gset K) (e : entry K V) (l : list (entry K V)) : Prop :=
  ∃ l1 l2, l = l1 ++ e :: l2 ∧ ∀ x, x ∈ l2 → e_key x ∈ S.

Lemma kept_elem S e l : kept S e l → e ∈ l.
Proof. intros (l1 & l2 & -> & _). apply elem_of_app. right. left. Qed.
Lemma kept_last S e l : kept S e (l ++ [e]).
Proof. exists l, []. split; [done|]. by intros x ?%not_elem_of_nil. Qed.
Lemma kept_snoc S e l x : e_key x ∈ S → kept S e l → kept S e (l ++ [x]).
Proof.
  intros Hx (l1 & l2 & -> & Hl2). exists l1, (l2 ++ [x]). rewrite <- app_assoc. split; [done|].
  by intros y [?| ->%list_elem_of_singleton]%elem_of_app; [apply Hl2|].
Qed.
Lemma kept_aremove S e l k : k ≠ e_key e → kept S e l → kept S e (aremove k l).
Proof.
  intros Hk (l1 & l2 & -> & Hl2). exists (aremove k l1), (aremove k l2). unfold aremove.
  rewrite filter_app, filter_cons_True by done. split; [done|]. intros x [_ Hx]%list_elem_of_filter. by apply Hl2.
Qed.
Lemma kept_a_expire S e l g now : (now < e_expires e)%Z → kept S e l → kept S e (a_expire g now l).
Proof.
  intros Hnow Hl. unfold a_expire. case_match; [|done]. destruct Hl as (l1 & l2 & -> & Hl2).
  induction l1 as [|x l1 IH]; simpl.
  - rewrite (proj2 (Z.leb_gt _ _)) by done. by exists [], l2.
  - case_match; [done|]. by exists (x :: l1), l2.
Qed.

Lemma a_get_kept S e l g now k : c_refresh g = false → k ≠ e_key e → k ∈ S → (now < e_expires e)%Z → kept S e l →
  kept S e (a_get g now k l).2.
Proof.
  intros Hr Hk HS Hnow Hl. unfold a_get. rewrite Hr, andb_false_r. destruct (afind k l) as [x|] eqn:Hf; [|done].
  case_match; simpl; [by apply kept_a_expire, kept_aremove|]. apply kept_snoc; [|by apply kept_aremove].
  apply afind_Some in Hf as [_ ->]. done.
Qed.

Lemma a_get_own S e l g now : c_refresh g = false → NoDup (e_key <$> l) → (now < e_expires e)%Z → kept S e l →
  (a_get g now (e_key e) l).1 = Some e ∧ kept S e (a_get g now (e_key e) l).2.
Proof.
  intros Hr Hnd Hnow Hl%kept_elem. unfold a_get. rewrite (afind_unique (e_key e) l e Hnd Hl eq_refl).
  rewrite (proj2 (Z.leb_gt _ _)), Hr, !andb_false_r by done. split; [done|apply kept_last].
Qed.

(** Storing one of the keys of [S] does not push [e] out while there is room for
    all of them beside it. *)
Lemma a_set_kept S e l g now k v exp : NoDup (e_key <$> l) → k ≠ e_key e → k ∈ S → (now < e_expires e)%Z →
  (Z.of_nat (size S) < c_size g)%Z → kept S e l → kept S e (a_set g now k v exp l).
Proof.
  intros Hnd Hk HS Hnow Hsize Hl. unfold a_set. apply kept_a_expire; [done|].
  assert (kept S e (aremove k l ++ [Entry k v exp])) as Hfresh by (by apply kept_snoc, kept_aremove).
  destruct (afind k l) eqn:Hf; [done|]. case_match eqn:Hfull; [|done]. apply afind_None in Hf.
  rewrite aremove_notin in * by done. apply andb_prop in Hfull as [_ Hfull%Z.gtb_lt].
  assert (NoDup (e_key <$> l ++ [Entry k v exp])) as Hnd'.
  { rewrite fmap_app. apply NoDup_app. split; [done|]. split; [|apply NoDup_singleton]. by intros x Hx ->%list_elem_of_singleton. }
  destruct Hfresh as (l1 & l2 & Heq & Hl2). rewrite Heq in *. destruct l1 as [|x l1]; [|by exists l1, l2].
  exfalso. cbn [app length] in *. rewrite fmap_cons in Hnd'. apply NoDup_cons in Hnd' as [_ Hnd'].
  assert (size (list_to_set (e_key <$> l2) : gset K) ≤ size S) as Hle.
  { apply subseteq_size. intros y (x & -> & Hx)%elem_of_list_to_set%list_elem_of_fmap. by apply Hl2. }
  rewrite size_list_to_set, length_fmap in Hle by done. lia.
Qed.

Lemma a_set_own S g now k v exp l : (now < exp)%Z → kept S (Entry k v exp) (a_set g now k v exp l).
Proof. intros Hexp. destruct (a_set_snoc g now k v exp l) as (m & -> & _); [by right|]. apply kept_last. Qed.
End set_get.

(** A value that has been set is what the next lookup of its key returns,
    in any good state, provided the entry has not expired by then; with ageing
    off it never does. *)
Theorem lru_set_get `{GenericList} {K V} `{Countable K}
    (st : heap K V * LruCache K V) (now now' : Z) (k : K) (v : V) :
  lru_ok st →
  (maxAge st.2 ≤ 0 ∨ staleReturn st.2 = true
   ∨ now < wrap int64 (now + maxAge st.2) ∧ now' < wrap int64 (now + maxAge st.2))%Z →
  (Get now' k (Set_ now k v st)).1 = Some v.
Proof.
  intros Hok Hage.
  destruct (set_refines now k v st Hok) as (Hok' & Hv & Hcfg).
  destruct (get_refines now' k _ Hok') as [Hget _]. rewrite Hv, Hcfg in Hget.
  unfold Get, Set_. destruct (get now' k (set now k v st)) as [r st'']. simpl in *. rewrite Hget.
  assert (Hex : expires_enabled (cfg st.2) = false ∨
    (now < a_expiry (cfg st.2) now ∧ now' < a_expiry (cfg st.2) now)%Z).
  { unfold expires_enabled, a_expiry. simpl. rewrite Z.gtb_ltb. destruct (staleReturn st.2); [by left|].
    destruct (Z.ltb_spec 0 (maxAge st.2)); [right|by left]. destruct Hage as [?|[?|?]]; [lia|done|lia]. }
  unfold a_get. rewrite afind_a_set; [|destruct Hex as [?|[? _]]; auto]. simpl.
  destruct (expires_enabled (cfg st.2)) eqn:E; simpl.
  - destruct Hex as [?|[_ Hlt]]; [done|]. destruct (Z.leb_spec (a_expiry (cfg st.2) now) now'); [lia|].
    by case_match.
  - by case_match.
Qed.

Lemma lru_set_get_witness :
  (Get (H := plain_list) 105 1 (Set_ (H := plain_list) 100 1 42
     (new_state (H := plain_list) (K := nat) (V := nat) [OptSize 2; OptAge 10]))).1 = Some 42.
Proof.
  apply (lru_set_get (H := plain_list)
    (new_state (H := plain_list) (K := nat) (V := nat) [OptSize 2; OptAge 10])).
  - apply new_state_ok.
  - right. right. vm_compute. done.
Defined.

Section clone.
Context `{GenericList} {K V : Type} `{Countable K}.
Abbreviation Cache := (LruCache K V).
Implicit Types (h : heap K V) (c n : Cache).

(** The loop of [CloneTo] after some elements: the clone has exactly the
    entries visited so far. *)
Lemma clone_loop h c n ps qs : lru_ok (h, c) → gl_elems (lru c) = qs ++ ps →
  gl_elems (lru n) = qs → (∀ k p, cache n !! k = Some p ↔ p ∈ qs ∧ cache c !! k = Some p) →
  let n' := foldl (λ n p, match h_cells h !! p with
                | Some e => with_lists n (<[e_key e := p]> (cache n)) (gl_push_back p (lru n))
                | None => n end) n ps in
  gl_elems (lru n') = qs ++ ps ∧ (∀ k p, cache n' !! k = Some p ↔ cache c !! k = Some p)
  ∧ cfg n' = cfg n.
Proof.
  intros Hok. revert n qs. induction ps as [|p ps IH]; intros n qs Hqs Hn Hc; simpl.
  - rewrite app_nil_r in *. split; [done|]. split; [|done]. intros k p. rewrite Hc. split; [tauto|].
    intros Hk. split; [|done]. rewrite <- Hqs. by apply (ok_map _ Hok k p).
  - destruct (ok_list _ Hok p) as (e & He & Hce); [simpl; rewrite Hqs; set_solver|]. simpl in *. rewrite He.
    assert (qs ++ p :: ps = (qs ++ [p]) ++ ps) as Happ by (by rewrite <- app_assoc).
    destruct (IH (with_lists n (<[e_key e := p]> (cache n)) (gl_push_back p (lru n))) (qs ++ [p]))
      as (I1 & I2 & I3); [congruence|simpl; rewrite gl_elems_push_back; congruence| |by rewrite Happ].
    intros k q. simpl. rewrite lookup_insert_Some, Hc, elem_of_app, list_elem_of_singleton.
    destruct (decide (e_key e = k)) as [<-|Hk].
    + split; [intros [[_ <-]|[? _]]; [auto|done]|]. intros [_ Hq]. left. split; [done|congruence].
    + split; [intros [[? _]|(_ & ? & ?)]; [done|auto]|]. intros [[?| ->] Hq]; [auto|].
      destruct (ok_map _ Hok k p Hq) as (_ & e' & He' & Hk'). simpl in He'. congruence.
Qed.

Lemma CloneTo_view h c n : lru_ok (h, c) →
  lru_ok (h, CloneTo h c n) ∧ view (h, CloneTo h c n) = view (h, c) ∧ cfg (CloneTo h c n) = cfg n
  ∧ (∀ k p, cache (CloneTo h c n) !! k = Some p ↔ cache c !! k = Some p).
Proof.
  intros Hok. unfold CloneTo.
  destruct (clone_loop h c (with_lists n ∅ gl_new) (gl_elems (lru c)) [] Hok) as (Hl & Hc & Hcfg).
  - done.
  - simpl. apply gl_elems_new.
  - intros k p. simpl. rewrite lookup_empty. split; [done|]. by intros [?%elem_of_nil _].
  - simpl in Hl, Hc, Hcfg. split; [|split; [|by split]].
    + split; simpl; rewrite ?Hl; [apply (ok_nodup _ Hok)| | |apply (ok_fresh _ Hok)].
      * intros p Hp. destruct (ok_list _ Hok p Hp) as (e & He & Hce). exists e. split; [done|]. by apply Hc.
      * intros k p Hk. apply Hc in Hk. by apply (ok_map _ Hok).
    + unfold view. simpl. by rewrite Hl.
Qed.
End clone.

(** A clone holds the entries themselves, not copies: setting a key the
    two caches share through the clone also changes what the original
    returns (ageing off, so that the lookup cannot fail). *)
Theorem CloneTo_shares_entries `{GenericList} {K V} `{Countable K}
    (h : heap K V) (c n : LruCache K V) (k : K) (v : V) (now now' : Z) :
  lru_ok (h, c) → is_Some (cache c !! k) → (maxAge c ≤ 0)%Z → (maxAge n ≤ 0)%Z →
  let '(h', _) := Set_ now k v (h, CloneTo h c n) in (Get now' k (h', c)).1 = Some v.
Proof.
  intros Hok [p Hp] Hage Hage'. destruct (CloneTo_view h c n Hok) as (Hok' & _ & Hcfg & Hc).
  pose proof (proj2 (Hc k p) Hp) as Hp'. destruct (ok_map _ Hok k p Hp) as (Hin & e & He & Hk).
  unfold Set_, set, setWithExpire. simpl in *.
  assert (Hmax : maxAge (CloneTo h c n) = maxAge n) by (by apply (f_equal c_age) in Hcfg).
  rewrite Hp'. simpl. rewrite He. simpl. unfold maybeDeleteOldest. simpl. rewrite Hmax.
  rewrite !Z.gtb_ltb. destruct (Z.ltb_spec 0 (maxAge n)); [lia|]. rewrite andb_false_r.
  unfold Get, get. simpl. rewrite Hp. simpl. rewrite lookup_insert_eq. simpl.
  rewrite Z.gtb_ltb. destruct (Z.ltb_spec 0 (maxAge c)); [lia|]. rewrite andb_false_r. done.
Qed.

Lemma CloneTo_shares_entries_witness :
  let st := Set_ (H := plain_list) 0 1 10 (new_state (H := plain_list) (K := nat) (V := nat) []) in
  let '(h', _) := Set_ (H := plain_list) 0 1 77
    (st.1, CloneTo (H := plain_list) st.1 st.2 (new_state (H := plain_list) []).2) in
  (Get (H := plain_list) 0 1 (h', st.2)).1 = Some 77.
Proof.
  apply (CloneTo_shares_entries (H := plain_list)).
  - rewrite <- surjective_pairing. apply (set_refines (H := plain_list)), new_state_ok.
  - vm_compute. eauto.
  - vm_compute. done.
  - vm_compute. done.
Defined.
