(* ===== verification/FakeIP.v ===== *)
(** * FakeIP: the fake-address pool of [component/fakeip]

    - [FakeStore]: the [store] interface of [src/component/fakeip/pool.go], and
      [FakeStoreLaws]: what the pool relies on of an implementation;
    - [Pool] and its operations ([pool.go]), over any store;
    - [MemStore] ([src/component/fakeip/memory.go]): the two LRU caches behind
      a pool without persistence, and the proof that it keeps the laws;
    - the theorems about the pool, proved against the interface.

    [strings.ToLower] is a parameter of [Lookup] (it consults Go's Unicode
    tables), [netipx.PrefixLastIP] one of [New]; both are outside the sources.
    The pool's mutex makes each operation atomic, so operations are functions
    on the pool's state. *)
From S2P Require Import Prelude NetIP Lru.

(** ** The store interface *)

Class FakeStore (St : Type) := {
  GetByHost : str → St → option Addr * St;
  PutByHost : str → Addr → St → St;
  GetByIP : Addr → St → option str * St;
  PutByIP : Addr → str → St → St;
  DelByIP : Addr → St → St;
  StoreExist : Addr → St → bool;
  StoreCloneTo : St → St → St;     (* source, target: the new target *)
  StoreFlush : St → result St;
  persistent : bool                (* the store is a *cachefileStore *)
}.

(** What the pool relies on. [ip_of] and [host_of] are the two directions of
    the binding a good store holds. A store may forget bindings when it is
    not [unbounded], but never changes one. *)
Class FakeStoreLaws (St : Type) `{FakeStore St} := {
  consistent : St → Prop;
  ip_of : St → str → option Addr;
  host_of : St → Addr → option str;
  law_inverse : ∀ st h ip, consistent st → ip_of st h = Some ip ↔ host_of st ip = Some h;
  law_get_host : ∀ st h, consistent st →
    (GetByHost h st).1 = ip_of st h ∧ consistent (GetByHost h st).2
    ∧ (∀ h', ip_of (GetByHost h st).2 h' = ip_of st h');
  law_get_ip : ∀ st ip, consistent st →
    (GetByIP ip st).1 = host_of st ip ∧ consistent (GetByIP ip st).2
    ∧ (∀ h', ip_of (GetByIP ip st).2 h' = ip_of st h');
  law_exist : ∀ st ip, consistent st → StoreExist ip st = bool_decide (is_Some (host_of st ip));
  law_del : ∀ st ip, consistent st →
    consistent (DelByIP ip st)
    ∧ (∀ h', ip_of (DelByIP ip st) h' = if decide (host_of st ip = Some h') then None else ip_of st h');
  law_bind : ∀ st h ip, consistent st → ip_of st h = None → host_of st ip = None →
    let st' := PutByHost h ip (PutByIP ip h st) in
    consistent st' ∧ ip_of st' h = Some ip
    ∧ (∀ h' ip', ip_of st' h' = Some ip' → (h' = h ∧ ip' = ip) ∨ ip_of st h' = Some ip');
  unbounded : St → Prop;
  law_unbounded : ∀ st h, consistent st → unbounded st → unbounded (GetByHost h st).2;
  law_keep : ∀ st h ip, consistent st → unbounded st → ip_of st h = None → host_of st ip = None →
    ∀ h' a, ip_of st h' = Some a → ip_of (PutByHost h ip (PutByIP ip h st)) h' = Some a;
  law_clone : ∀ src dst, consistent src → consistent dst →
    consistent (StoreCloneTo src dst)
    ∧ ((∀ h', ip_of (StoreCloneTo src dst) h' = ip_of src h')
       ∨ (∀ h', ip_of (StoreCloneTo src dst) h' = ip_of dst h'));
  law_flush : ∀ st st', consistent st → StoreFlush st = Ok st' →
    consistent st' ∧ ∀ h, ip_of st' h = None
}.

(** ** The pool *)

Record Pool (St : Type) := MkPool {
  gateway : Addr; first : Addr; last_ : Addr; offset : Addr; cycle : bool;
  ipnet : Prefix; pstore : St
}.
Arguments MkPool {St} _ _ _ _ _ _ _.
Arguments gateway {St} _.
Arguments first {St} _.
Arguments last_ {St} _.
Arguments offset {St} _.
Arguments cycle {St} _.
Arguments ipnet {St} _.
Arguments pstore {St} _.

Section pool.
Context {St : Type} `{FakeStore St} (ToLower : str → str).

Definition with_store (p : Pool St) (s : St) : Pool St :=
  MkPool (gateway p) (first p) (last_ p) (offset p) (cycle p) (ipnet p) s.
Definition with_alloc (p : Pool St) (off : Addr) (cyc : bool) : Pool St :=
  MkPool (gateway p) (first p) (last_ p) off cyc (ipnet p) (pstore p).

(** [get]: advance the offset, wrap around before [last], and take the
    address over from whoever has it. *)
Definition pool_get (host : str) (p : Pool St) : Addr * Pool St :=
  let p := with_alloc p (Next (offset p)) (cycle p) in
  let p := if negb (Less (offset p) (last_ p)) then with_alloc p (first p) true else p in
  let p := if cycle p || StoreExist (offset p) (pstore p)
           then with_store p (DelByIP (offset p) (pstore p)) else p in
  (offset p, with_store p (PutByIP (offset p) host (pstore p))).

Definition Lookup (host : str) (p : Pool St) : Addr * Pool St :=
  let host := ToLower host in
  let '(r, s) := GetByHost host (pstore p) in
  let p := with_store p s in
  match r with
  | Some ip => (ip, p)
  | None =>
    let '(ip, p) := pool_get host p in
    (ip, with_store p (PutByHost host ip (pstore p)))
  end.

Definition LookBack (ip : Addr) (p : Pool St) : option str * Pool St :=
  let '(r, s) := GetByIP ip (pstore p) in (r, with_store p s).

Definition PoolExist (ip : Addr) (p : Pool St) : bool := StoreExist ip (pstore p).
Definition Gateway (p : Pool St) : Addr := gateway p.
Definition Broadcast (p : Pool St) : Addr := last_ p.
Definition IPNet (p : Pool St) : Prefix := ipnet p.

Definition FlushFakeIP (p : Pool St) : result (Pool St) :=
  s ← StoreFlush (pstore p); Ok (with_alloc (with_store p s) (Prev (first p)) false).

(** [CloneFrom]: the error of the inner flush is ignored. *)
Definition CloneFrom (p : Pool St) (o : option (Pool St)) : Pool St :=
  match o with
  | None => p
  | Some o =>
    let p := with_store p (StoreCloneTo (pstore o) (pstore p)) in
    if decide (first o = first p ∧ last_ o = last_ p) then with_alloc p (offset o) (cycle o)
    else
      let p := match StoreFlush (pstore p) with Ok s => with_store p s | _ => p end in
      with_alloc p (Prev (first p)) false
  end.

Definition offsetKey : str := lit "key-offset-fake-ip".
Definition cycleKey : str := lit "key-cycle-fake-ip".

Definition StoreState (p : Pool St) : Pool St :=
  if persistent then
    let p := with_store p (PutByHost offsetKey (offset p) (pstore p)) in
    if cycle p then with_store p (PutByHost cycleKey (offset p) (pstore p)) else p
  else p.

Definition flush_ignored (p : Pool St) : Pool St :=
  match FlushFakeIP p with Ok p' => p' | _ => p end.

Definition restoreState (p : Pool St) : Pool St :=
  if persistent then
    let '(r, s) := GetByHost cycleKey (pstore p) in
    let p := with_store p s in
    let p := if r then with_alloc p (offset p) true else p in
    let '(r, s) := GetByHost offsetKey (pstore p) in
    let p := with_store p s in
    match r with
    | Some off => if prefix_contains (ipnet p) off then with_alloc p off (cycle p) else flush_ignored p
    | None => if StoreExist (first p) (pstore p) then flush_ignored p else p
    end
  else p.

(** [New], given the store [newMemoryStore] or [newCachefileStore] made. *)
Definition NewPool (PrefixLastIP : Prefix → Addr) (net : Prefix) (s : St) : result (Pool St) :=
  let hostAddr := p_addr (Masked net) in
  let gw := Next hostAddr in
  let fst := Next (Next (Next gw)) in
  let lst := PrefixLastIP net in
  if negb (prefix_valid net) || negb (IsValid fst) || negb (Less fst lst)
  then Err "ipnet don't have valid ip"
  else Ok (restoreState (MkPool gw fst lst (Prev fst) false net s)).
End pool.

(** ** The memory store *)

Section memory.
Context `{GenericList}.

(** The caches have no age, so their operations never read the clock: it is
    [0] throughout. *)
Record MemStore := MkMem {
  cacheIP : heap str Addr * LruCache str Addr;
  cacheHost : heap Addr str * LruCache Addr str
}.

Definition mem_GetByHost (host : str) (m : MemStore) : option Addr * MemStore :=
  let '(r, c) := Get 0 host (cacheIP m) in
  match r with
  | Some ip => (Some ip, MkMem c (Get 0 ip (cacheHost m)).2)
  | None => (None, MkMem c (cacheHost m))
  end.

Definition mem_PutByHost (host : str) (ip : Addr) (m : MemStore) : MemStore :=
  MkMem (Set_ 0 host ip (cacheIP m)) (cacheHost m).

Definition mem_GetByIP (ip : Addr) (m : MemStore) : option str * MemStore :=
  let '(r, c) := Get 0 ip (cacheHost m) in
  match r with
  | Some host => (Some host, MkMem (Get 0 host (cacheIP m)).2 c)
  | None => (None, MkMem (cacheIP m) c)
  end.

Definition mem_PutByIP (ip : Addr) (host : str) (m : MemStore) : MemStore :=
  MkMem (cacheIP m) (Set_ 0 ip host (cacheHost m)).

Definition mem_DelByIP (ip : Addr) (m : MemStore) : MemStore :=
  let '(r, c) := Get 0 ip (cacheHost m) in
  let cip := match r with Some host => Delete host (cacheIP m) | None => cacheIP m end in
  MkMem cip (Delete ip c).

Definition mem_Exist (ip : Addr) (m : MemStore) : bool := Exist ip (cacheHost m).

(** The target takes over the entries of the source, so it lives on the
    source's heap from here on. The code shares the entries, so a [Set] of an
    existing key through one cache would be seen through the other; here each
    cache has the heap as it was. The two are the same for a pool: it stores a
    host only when the host has no entry and an address only after it deleted
    the entry of the address, and these caches have no age to renew, so no entry
    is written after it is made. *)
Definition mem_CloneTo (src dst : MemStore) : MemStore :=
  MkMem ((cacheIP src).1, CloneTo (cacheIP src).1 (cacheIP src).2 (cacheIP dst).2)
        ((cacheHost src).1, CloneTo (cacheHost src).1 (cacheHost src).2 (cacheHost dst).2).

Definition mem_FlushFakeIP (m : MemStore) : result MemStore :=
  Ok (MkMem ((cacheIP m).1, Clear (cacheIP m).2) ((cacheHost m).1, Clear (cacheHost m).2)).

Definition newMemoryStore (size : Z) : MemStore :=
  MkMem (empty_heap, New [WithSize size]) (empty_heap, New [WithSize size]).

#[export] Instance MemStore_store : FakeStore MemStore := {
  GetByHost := mem_GetByHost; PutByHost := mem_PutByHost; GetByIP := mem_GetByIP;
  PutByIP := mem_PutByIP; DelByIP := mem_DelByIP; StoreExist := mem_Exist;
  StoreCloneTo := mem_CloneTo; StoreFlush := mem_FlushFakeIP; persistent := false
}.
End memory.

(** ** The memory store keeps the laws *)

Section mirror.
Context {A B : Type} `{Countable A} `{Countable B}.

(** Two lists of entries that hold the same pairs in the same order, one
    keyed by each side. *)
Definition mirror (l : list (entry A B)) (k : list (entry B A)) : Prop :=
  Forall2 (λ e f, e_key e = e_value f ∧ e_value e = e_key f) l k.

Lemma mirror_find l k a e : NoDup (e_key <$> k) → mirror l k → afind a l = Some e →
  ∃ f, afind (e_value e) k = Some f ∧ e_value f = a.
Proof.
  intros Hnd Hm Hf. apply afind_Some in Hf as [Hin <-].
  destruct (list_elem_of_lookup_1 _ _ Hin) as [i Hi].
  destruct (Forall2_lookup_l _ _ _ _ _ Hm Hi) as (f & Hfi & Hk & Hv).
  exists f. split; [|done]. apply afind_unique; [done| |done]. by eapply list_elem_of_lookup_2.
Qed.

Lemma mirror_remove l k a b : NoDup (e_key <$> l) → NoDup (e_key <$> k) → mirror l k →
  (∃ e, afind a l = Some e ∧ e_value e = b) → mirror (aremove a l) (aremove b k).
Proof.
  intros Hl Hk Hm (e & Hf & <-). pose proof (mirror_find l k a e Hk Hm Hf) as (f & Hff & Hfv).
  assert (Hall : Forall2 (λ x y, e_key x = e_value y ∧ e_value x = e_key y
                                 ∧ (e_key x = a ↔ e_key y = e_value e)) l k).
  { apply Forall2_same_length_lookup_2; [by eapply Forall2_length|]. intros i x y Hx Hy.
    destruct (Forall2_lookup_lr _ _ _ _ _ _ Hm Hx Hy) as [H1 H2]. split; [done|]. split; [done|].
    apply list_elem_of_lookup_2 in Hx, Hy. split; intros Heq.
    - assert (afind a l = Some x) by (by apply afind_unique). congruence.
    - assert (afind (e_value e) k = Some y) by (by apply afind_unique). congruence. }
  clear - Hall. unfold mirror, aremove. induction Hall as [|x y l k (H1 & H2 & H3) _ IH]; [constructor|].
  rewrite !filter_cons. destruct (decide (e_key x ≠ a)), (decide (e_key y ≠ e_value e));
    try naive_solver; by constructor.
Qed.
End mirror.

Lemma mirror_sym {A B} (l : list (entry A B)) (k : list (entry B A)) : mirror l k → mirror k l.
Proof. induction 1 as [|e f l k [H1 H2] _ IH]; constructor; auto. Qed.

Lemma mirror_tail {A B} (l : list (entry A B)) (k : list (entry B A)) :
  mirror l k → mirror (tail l) (tail k).
Proof. by destruct 1; simpl; [constructor|]. Qed.

Section no_age.
Context {K V : Type} `{Countable K}.
Implicit Types l : list (entry K V).

(** The abstract operations of a cache without ageing. *)
Lemma a_get_no_age g now k l : (c_age g ≤ 0)%Z →
  a_get g now k l = match afind k l with
                    | Some e => (Some e, aremove k l ++ [e])
                    | None => (None, l)
                    end.
Proof.
  intros Hage. unfold a_get, expires_enabled. rewrite Z.gtb_ltb.
  destruct (Z.ltb_spec 0 (c_age g)); [lia|]. by rewrite andb_false_r.
Qed.

Lemma a_set_no_age g now k v exp l : (c_age g ≤ 0)%Z → afind k l = None →
  a_set g now k v exp l =
  let m := l ++ [Entry k v exp] in
  if (c_size g >? 0)%Z && (Z.of_nat (length m) >? c_size g)%Z then tail m else m.
Proof.
  intros Hage Hf. unfold a_set, a_expire, expires_enabled. rewrite Hf.
  assert (aremove k l = l) as -> by (by apply aremove_notin, afind_None).
  rewrite (Z.gtb_ltb (c_age g)). destruct (Z.ltb_spec 0 (c_age g)); [lia|]. by rewrite andb_false_r.
Qed.

Lemma afind_refresh k e l k' : NoDup (e_key <$> l) → afind k l = Some e →
  afind k' (aremove k l ++ [e]) = afind k' l.
Proof.
  intros Hnd Hf. pose proof (afind_Some k l e Hf) as [_ Hk]. rewrite afind_app.
  destruct (decide (k' = k)) as [->|Hne].
  - rewrite afind_aremove_same. simpl. by rewrite decide_True.
  - rewrite afind_aremove_ne by done. simpl. rewrite decide_False by congruence. by destruct (afind k' l).
Qed.
End no_age.

Section ageless.
Context `{GenericList} {K V : Type} `{Countable K}.
Implicit Types st : heap K V * LruCache K V.

(** A cache in a good state whose entries do not age. *)
Definition ageless st : Prop := lru_ok st ∧ (maxAge st.2 ≤ 0)%Z.

(** Using a key moves its entry to the recent end. *)
Definition touch (k : K) (l : list (entry K V)) : list (entry K V) :=
  match afind k l with Some e => aremove k l ++ [e] | None => l end.

(** [st'] is [st] with its entries replaced by [l]. *)
Definition becomes st st' (l : list (entry K V)) : Prop :=
  ageless st' ∧ view st' = l ∧ maxSize st'.2 = maxSize st.2.

Lemma becomes_intro st st' l : ageless st → refines_to st st' l → becomes st st' l.
Proof.
  intros [_ Hage] (Hok & Hv & Hcfg). assert (maxAge st'.2 = maxAge st.2) as Ha by apply (f_equal c_age Hcfg).
  assert (maxSize st'.2 = maxSize st.2) as Hs by apply (f_equal c_size Hcfg).
  split; [split; [done|lia]|by split].
Qed.

Lemma Get_ageless now k st : ageless st →
  (Get now k st).1 = e_value <$> afind k (view st) ∧ becomes st (Get now k st).2 (touch k (view st)).
Proof.
  intros Hst. destruct (get_refines now k st (proj1 Hst)) as [Hr Hs].
  rewrite a_get_no_age in Hr, Hs by apply Hst. unfold Get, touch. destruct (get now k st) as [r s]; simpl in *.
  rewrite Hr. destruct (afind k (view st)); (split; [done|]); by apply becomes_intro.
Qed.

Lemma Delete_ageless k st : ageless st → becomes st (Delete k st) (aremove k (view st)).
Proof. intros Hst. apply becomes_intro; [done|]. apply delete_key_refines, Hst. Qed.

(** What a bounded list becomes when an entry is added. *)
Definition bounded_snoc (size : Z) (l : list (entry K V)) (e : entry K V) : list (entry K V) :=
  if (size >? 0)%Z && (Z.of_nat (S (length l)) >? size)%Z then tail (l ++ [e]) else l ++ [e].

Lemma Set_ageless now k v st : ageless st → afind k (view st) = None →
  becomes st (Set_ now k v st) (bounded_snoc (maxSize st.2) (view st) (Entry k v 0)).
Proof.
  intros Hst Hf. apply becomes_intro; [done|]. pose proof (set_refines now k v st (proj1 Hst)) as Hs.
  rewrite a_set_no_age in Hs by (done || apply Hst). unfold a_expiry in Hs. simpl in Hs. unfold bounded_snoc.
  rewrite length_app, Nat.add_1_r in Hs. rewrite (Z.gtb_ltb (maxAge _)) in Hs.
  destruct (Z.ltb_spec 0 (maxAge st.2)); [destruct Hst; lia|done].
Qed.

Lemma CloneTo_ageless (h : heap K V) (c n : LruCache K V) : ageless (h, c) → (maxAge n ≤ 0)%Z →
  ageless (h, CloneTo h c n) ∧ view (h, CloneTo h c n) = view (h, c)
  ∧ maxSize (CloneTo h c n) = maxSize n.
Proof.
  intros [Hok Ha] Hn. destruct (CloneTo_view h c n Hok) as (Hok' & Hv & Hcfg & _).
  split; [split; [done|]|split; [done|apply (f_equal c_size Hcfg)]].
  simpl. assert (maxAge (CloneTo h c n) = maxAge n) as -> by apply (f_equal c_age Hcfg). done.
Qed.

Lemma Clear_ageless h (c : LruCache K V) : ageless (h, c) → becomes (h, c) (h, Clear c) [].
Proof. intros Hst. apply becomes_intro; [done|]. apply Clear_refines, (proj1 Hst). Qed.

Lemma afind_touch k k' l : NoDup (e_key <$> l) → afind k' (touch k l) = afind k' l.
Proof. intros Hnd. unfold touch. destruct (afind k l) eqn:Hf; [by apply afind_refresh|done]. Qed.

Lemma Exist_ageless k st : ageless st → Exist k st = bool_decide (is_Some (afind k (view st))).
Proof.
  intros [Hok _]. unfold Exist. rewrite (afind_view st k Hok). apply bool_decide_ext.
  destruct (cache st.2 !! k) as [p|] eqn:Hc; simpl; [|done].
  destruct (ok_map _ Hok k p Hc) as (_ & e & -> & _). split; intros _; eauto.
Qed.
End ageless.

Section mem_laws.
Context `{GenericList}.
Implicit Types m : MemStore.

Record mem_ok m : Prop := {
  mok_ip : ageless (cacheIP m);
  mok_host : ageless (cacheHost m);
  mok_size : maxSize (cacheIP m).2 = maxSize (cacheHost m).2;
  mok_mirror : mirror (view (cacheIP m)) (view (cacheHost m))
}.

Definition mem_ip_of m h : option Addr := e_value <$> afind h (view (cacheIP m)).
Definition mem_host_of m ip : option str := e_value <$> afind ip (view (cacheHost m)).

Lemma mem_nodup_ip m : mem_ok m → NoDup (e_key <$> view (cacheIP m)).
Proof. intros Hm. apply view_keys_nodup, (mok_ip m Hm). Qed.
Lemma mem_nodup_host m : mem_ok m → NoDup (e_key <$> view (cacheHost m)).
Proof. intros Hm. apply view_keys_nodup, (mok_host m Hm). Qed.

Lemma mem_inverse m h ip : mem_ok m → mem_ip_of m h = Some ip ↔ mem_host_of m ip = Some h.
Proof.
  intros Hm. pose proof (mem_nodup_ip m Hm). pose proof (mem_nodup_host m Hm).
  pose proof (mok_mirror m Hm) as Hmir. unfold mem_ip_of, mem_host_of.
  split; intros (e & Hf & ->)%fmap_Some.
  - destruct (mirror_find _ _ h e ltac:(done) Hmir Hf) as (f & -> & <-). done.
  - destruct (mirror_find _ _ ip e ltac:(done) (mirror_sym _ _ Hmir) Hf) as (f & -> & <-). done.
Qed.

Lemma mirror_touch {A B} `{Countable A} `{Countable B} (l : list (entry A B)) (k : list (entry B A)) a e :
  NoDup (e_key <$> l) → NoDup (e_key <$> k) → mirror l k → afind a l = Some e →
  mirror (touch a l) (touch (e_value e) k).
Proof.
  intros Hl Hk Hm Hf. destruct (mirror_find l k a e Hk Hm Hf) as (f & Hff & Hv).
  unfold touch. rewrite Hf, Hff. apply Forall2_app; [apply mirror_remove; eauto|].
  constructor; [|constructor]. apply afind_Some in Hf as [_ Hf], Hff as [_ Hff]. by split; congruence.
Qed.

(** Both lookups: an entry found is refreshed in both caches. *)
Lemma mem_get_host_ok m h : mem_ok m →
  (mem_GetByHost h m).1 = mem_ip_of m h ∧ mem_ok (mem_GetByHost h m).2
  ∧ (∀ h', mem_ip_of (mem_GetByHost h m).2 h' = mem_ip_of m h').
Proof.
  intros Hm. unfold mem_GetByHost, mem_ip_of. pose proof (mem_nodup_ip m Hm) as Hnd.
  destruct (Get_ageless 0 h (cacheIP m) (mok_ip m Hm)) as [Hr (Hok & Hv & Hs)].
  destruct (Get 0 h (cacheIP m)) as [r c]; simpl in *. subst r.
  destruct (afind h (view (cacheIP m))) as [e|] eqn:Hf; simpl; (split; [done|]).
  - destruct (Get_ageless 0 (e_value e) (cacheHost m) (mok_host m Hm)) as [_ (Hok' & Hv' & Hs')].
    split; [|intros h'; rewrite Hv; by rewrite afind_touch].
    split; simpl; [done|done| |].
    + rewrite Hs, Hs'. apply Hm.
    + rewrite Hv, Hv'. apply mirror_touch; auto using mem_nodup_host, mok_mirror.
  - assert (Hvi : view c = view (cacheIP m)) by (rewrite Hv; unfold touch; by rewrite Hf).
    split; [|intros h'; by rewrite Hvi]. split; simpl; [done|apply Hm| |].
    + rewrite Hs. apply Hm.
    + rewrite Hvi. apply Hm.
Qed.

Lemma mem_get_ip_ok m ip : mem_ok m →
  (mem_GetByIP ip m).1 = mem_host_of m ip ∧ mem_ok (mem_GetByIP ip m).2
  ∧ (∀ h', mem_ip_of (mem_GetByIP ip m).2 h' = mem_ip_of m h').
Proof.
  intros Hm. unfold mem_GetByIP, mem_ip_of, mem_host_of. pose proof (mem_nodup_ip m Hm) as Hnd.
  destruct (Get_ageless 0 ip (cacheHost m) (mok_host m Hm)) as [Hr (Hok & Hv & Hs)].
  destruct (Get 0 ip (cacheHost m)) as [r c]; simpl in *. subst r.
  destruct (afind ip (view (cacheHost m))) as [e|] eqn:Hf; simpl; (split; [done|]).
  - destruct (Get_ageless 0 (e_value e) (cacheIP m) (mok_ip m Hm)) as [_ (Hok' & Hv' & Hs')].
    split; [|intros h'; rewrite Hv'; by rewrite afind_touch].
    split; simpl; [done|done| |].
    + rewrite Hs, Hs'. apply Hm.
    + rewrite Hv, Hv'. apply mirror_sym, mirror_touch; auto using mem_nodup_host, mirror_sym, mok_mirror.
  - assert (Hvi : view c = view (cacheHost m)) by (rewrite Hv; unfold touch; by rewrite Hf).
    split; [|done]. split; simpl; [apply Hm|done| |].
    + rewrite Hs. apply Hm.
    + rewrite Hvi. apply Hm.
Qed.

Lemma aremove_touch {A B} `{Countable A} (a : A) (l : list (entry A B)) :
  aremove a (touch a l) = aremove a l.
Proof.
  unfold touch. destruct (afind a l) as [e|] eqn:Hf; [|done]. apply afind_Some in Hf as [_ Hk].
  unfold aremove. rewrite filter_app, list_filter_filter, filter_cons_False by auto. rewrite app_nil_r.
  apply list_filter_iff. tauto.
Qed.

Lemma mem_del_ok m ip : mem_ok m →
  mem_ok (mem_DelByIP ip m)
  ∧ (∀ h', mem_ip_of (mem_DelByIP ip m) h' =
      if decide (mem_host_of m ip = Some h') then None else mem_ip_of m h').
Proof.
  intros Hm. unfold mem_DelByIP. pose proof (mem_nodup_ip m Hm). pose proof (mem_nodup_host m Hm).
  destruct (Get_ageless 0 ip (cacheHost m) (mok_host m Hm)) as [Hr (Hok & Hv & Hs)].
  destruct (Get 0 ip (cacheHost m)) as [r c]; simpl in *. subst r.
  destruct (Delete_ageless ip c Hok) as (Hokd & Hvd & Hsd). rewrite Hv, aremove_touch in Hvd.
  unfold mem_ip_of, mem_host_of.
  destruct (afind ip (view (cacheHost m))) as [f|] eqn:Hf; simpl.
  - destruct (Delete_ageless (e_value f) (cacheIP m) (mok_ip m Hm)) as (Hok' & Hv' & Hs'). split.
    + split; simpl; [done|done| |].
      * rewrite Hs', Hsd, Hs. apply Hm.
      * rewrite Hv', Hvd. apply mirror_sym, mirror_remove; eauto using mirror_sym, mok_mirror.
    + intros h'. rewrite Hv'. destruct (decide (Some (e_value f) = Some h')) as [[= <-]|Hne].
      * by rewrite afind_aremove_same.
      * rewrite afind_aremove_ne by congruence. done.
  - rewrite aremove_notin in Hvd by (by apply afind_None). split; [|done].
    split; simpl; [apply Hm|done| |].
    + rewrite Hsd, Hs. apply Hm.
    + rewrite Hvd. apply Hm.
Qed.

Lemma bounded_snoc_find {A B} `{Countable A} size (l : list (entry A B)) e :
  afind (e_key e) l = None → NoDup (e_key <$> l) →
  afind (e_key e) (bounded_snoc size l e) = Some e
  ∧ ∀ a f, afind a (bounded_snoc size l e) = Some f → (a = e_key e ∧ f = e) ∨ afind a l = Some f.
Proof.
  intros Hno Hnd. unfold bounded_snoc.
  assert (Hall : ∀ k, e ∈ k ++ [e]) by (intros; apply elem_of_app; right; left).
  assert (Hnd' : NoDup (e_key <$> l ++ [e])).
  { rewrite fmap_app. apply NoDup_app. split; [done|]. split; [|apply NoDup_singleton].
    intros x Hx Hx'. apply list_elem_of_singleton in Hx' as ->. by apply afind_None in Hno. }
  assert (Hsub : ∀ k, NoDup (e_key <$> k) → k ⊆ l ++ [e] → e ∈ k →
    afind (e_key e) k = Some e ∧
    ∀ a f, afind a k = Some f → (a = e_key e ∧ f = e) ∨ afind a l = Some f).
  { intros k Hk Hs Hin. split; [by apply afind_unique|]. intros a f Hf.
    apply afind_Some in Hf as [Hfin <-]. apply Hs, elem_of_app in Hfin as [Hfin|Hfin].
    - right. by apply afind_unique.
    - left. by apply list_elem_of_singleton in Hfin as ->. }
  case_match eqn:Hc; [|by apply Hsub].
  destruct l as [|x l]; [simpl in *; apply andb_true_iff in Hc as [?%Z.gtb_lt ?%Z.gtb_lt]; lia|].
  simpl in *. apply NoDup_cons in Hnd' as [_ Hnd']. apply Hsub; [done|set_solver|done].
Qed.

Lemma mem_bind_ok m h ip : mem_ok m → mem_ip_of m h = None → mem_host_of m ip = None →
  let m' := mem_PutByHost h ip (mem_PutByIP ip h m) in
  mem_ok m' ∧ mem_ip_of m' h = Some ip
  ∧ (∀ h' ip', mem_ip_of m' h' = Some ip' → (h' = h ∧ ip' = ip) ∨ mem_ip_of m h' = Some ip').
Proof.
  intros Hm Hh%fmap_None Hip%fmap_None. simpl. unfold mem_PutByHost, mem_PutByIP, mem_ip_of; simpl.
  destruct (Set_ageless 0 h ip (cacheIP m) (mok_ip m Hm) Hh) as (Hok & Hv & Hs).
  destruct (Set_ageless 0 ip h (cacheHost m) (mok_host m Hm) Hip) as (Hok' & Hv' & Hs').
  destruct (bounded_snoc_find (maxSize (cacheIP m).2) (view (cacheIP m)) (Entry h ip 0) Hh (mem_nodup_ip m Hm))
    as [Hfind Honly]. split.
  - split; simpl; [done|done| |].
    + rewrite Hs, Hs'. apply Hm.
    + rewrite Hv, Hv'. pose proof (mok_mirror m Hm) as Hmir. unfold bounded_snoc.
      rewrite (mok_size m Hm), (Forall2_length _ _ _ Hmir).
      assert (Hmir' : mirror (view (cacheIP m) ++ [Entry h ip 0]) (view (cacheHost m) ++ [Entry ip h 0])).
      { apply Forall2_app; [done|]. by constructor; [|constructor]. }
      case_match; [|done]. by apply mirror_tail.
  - simpl in Hfind. rewrite Hv. split; [by rewrite Hfind|]. intros h' ip' (f & Hf & ->)%fmap_Some.
    apply Honly in Hf as [[-> ->]|Hf]; [by left|right]. by rewrite Hf.
Qed.

(** Without a size the store forgets nothing. *)
Definition mem_unbounded m : Prop := (maxSize (cacheIP m).2 ≤ 0)%Z.

Lemma mem_unbounded_get m h : mem_ok m → mem_unbounded m → mem_unbounded (mem_GetByHost h m).2.
Proof.
  intros Hm Hu. unfold mem_GetByHost, mem_unbounded in *.
  destruct (Get_ageless 0 h (cacheIP m) (mok_ip m Hm)) as [_ (_ & _ & Hs)].
  destruct (Get 0 h (cacheIP m)) as [[ip|] c]; simpl in *; by rewrite Hs.
Qed.

Lemma mem_keep m h ip : mem_ok m → mem_unbounded m → mem_ip_of m h = None → mem_host_of m ip = None →
  ∀ h' a, mem_ip_of m h' = Some a → mem_ip_of (mem_PutByHost h ip (mem_PutByIP ip h m)) h' = Some a.
Proof.
  intros Hm Hu Hh%fmap_None _ h' a (e & He & ->)%fmap_Some. unfold mem_ip_of; simpl.
  destruct (Set_ageless 0 h ip (cacheIP m) (mok_ip m Hm) Hh) as (_ & Hv & _).
  rewrite Hv. unfold bounded_snoc, mem_unbounded in *. rewrite Z.gtb_ltb.
  destruct (Z.ltb_spec 0 (maxSize (cacheIP m).2)); [lia|]. simpl. by rewrite afind_app, He.
Qed.

Lemma mem_clone_ok src dst : mem_ok src → mem_ok dst →
  mem_ok (mem_CloneTo src dst) ∧ ∀ h', mem_ip_of (mem_CloneTo src dst) h' = mem_ip_of src h'.
Proof.
  intros Hs Hd. destruct src as [[hi ci] [hh ch]], dst as [[hi' ci'] [hh' ch']]. unfold mem_CloneTo; simpl.
  destruct (CloneTo_ageless hi ci ci' (mok_ip _ Hs) (proj2 (mok_ip _ Hd))) as (Ho1 & Hv1 & Hz1).
  destruct (CloneTo_ageless hh ch ch' (mok_host _ Hs) (proj2 (mok_host _ Hd))) as (Ho2 & Hv2 & Hz2).
  split; [|intros h'; unfold mem_ip_of; simpl; by rewrite Hv1].
  split; simpl; [done|done| |].
  - rewrite Hz1, Hz2. apply (mok_size _ Hd).
  - rewrite Hv1, Hv2. apply (mok_mirror _ Hs).
Qed.

Lemma mem_flush_ok m m' : mem_ok m → mem_FlushFakeIP m = Ok m' → mem_ok m' ∧ ∀ h, mem_ip_of m' h = None.
Proof.
  intros Hm [= <-]. destruct m as [[hi ci] [hh ch]]; simpl.
  destruct (Clear_ageless hi ci (mok_ip _ Hm)) as (Ho1 & Hv1 & Hz1).
  destruct (Clear_ageless hh ch (mok_host _ Hm)) as (Ho2 & Hv2 & Hz2).
  split; [|intros h; unfold mem_ip_of; simpl; by rewrite Hv1].
  split; simpl; [done|done| |].
  - apply (mok_size _ Hm).
  - rewrite Hv1, Hv2. constructor.
Qed.

Lemma newMemoryStore_ok size : mem_ok (newMemoryStore size) ∧ ∀ h, mem_ip_of (newMemoryStore size) h = None.
Proof.
  destruct (new_state_ok (K := str) (V := Addr) [OptSize size]) as [Hok Hv].
  destruct (new_state_ok (K := Addr) (V := str) [OptSize size]) as [Hok' Hv'].
  split.
  2: { intros h. unfold mem_ip_of. change (cacheIP (newMemoryStore size)) with (new_state (K := str) (V := Addr) [OptSize size]).
       by rewrite Hv. }
  split; [by split|by split|done|].
  change (mirror (view (new_state (K := str) (V := Addr) [OptSize size]))
                 (view (new_state (K := Addr) (V := str) [OptSize size]))). rewrite Hv, Hv'. constructor.
Qed.

Lemma mem_exist_ok m ip : mem_ok m → mem_Exist ip m = bool_decide (is_Some (mem_host_of m ip)).
Proof.
  intros Hm. unfold mem_Exist, mem_host_of.
  rewrite Exist_ageless by apply Hm. apply bool_decide_ext. by rewrite fmap_is_Some.
Qed.

Lemma mem_clone_law src dst : mem_ok src → mem_ok dst →
  mem_ok (mem_CloneTo src dst)
  ∧ ((∀ h', mem_ip_of (mem_CloneTo src dst) h' = mem_ip_of src h')
     ∨ (∀ h', mem_ip_of (mem_CloneTo src dst) h' = mem_ip_of dst h')).
Proof. intros Hs Hd. destruct (mem_clone_ok src dst Hs Hd) as [??]. split; [done|by left]. Qed.

#[export] Instance MemStore_laws : FakeStoreLaws MemStore := {
  consistent := mem_ok; ip_of := mem_ip_of; host_of := mem_host_of;
  law_inverse := mem_inverse; law_get_host := mem_get_host_ok; law_get_ip := mem_get_ip_ok;
  law_exist := mem_exist_ok; law_del := mem_del_ok; law_bind := mem_bind_ok;
  unbounded := mem_unbounded; law_unbounded := mem_unbounded_get; law_keep := mem_keep;
  law_clone := mem_clone_law; law_flush := mem_flush_ok
}.
End mem_laws.

(** ** The pool, over any store that keeps the laws *)

Section pool_theory.
Context {St : Type} `{FakeStoreLaws St}.
Implicit Types p o : Pool St.

(** The addresses a pool gives out. *)
Definition in_pool p (ip : Addr) : Prop :=
  same_family ip (last_ p) ∧ (addr_num (first p) ≤ addr_num ip < addr_num (last_ p))%Z.

Record pool_ok p : Prop := {
  pk_store : consistent (pstore p);
  pk_wf : wf_addr (first p) ∧ wf_addr (last_ p);
  pk_valid : first p ≠ AddrZero;
  pk_range : same_family (first p) (last_ p) ∧ (0 < addr_num (first p) < addr_num (last_ p))%Z;
  pk_offset : same_family (offset p) (last_ p) ∧ offset p ≠ AddrZero
    ∧ (addr_num (first p) - 1 ≤ addr_num (offset p) < addr_num (last_ p))%Z;
  pk_net : ∀ ip, in_pool p ip → prefix_contains (ipnet p) ip = true;
  pk_bound : ∀ h ip, ip_of (pstore p) h = Some ip → in_pool p ip
}.

(** The part of [get] that moves the offset. *)
Definition advance p : Pool St :=
  let p := with_alloc p (Next (offset p)) (cycle p) in
  if negb (Less (offset p) (last_ p)) then with_alloc p (first p) true else p.

Lemma advance_ok p : pool_ok p → pool_ok (advance p) ∧ in_pool p (offset (advance p))
  ∧ (cycle (advance p) = false → cycle p = false ∧ addr_num (offset (advance p)) = (addr_num (offset p) + 1)%Z).
Proof.
  intros Hp. destruct (pk_offset p Hp) as (Hf & Hv & Hr). destruct (pk_wf p Hp) as [Hw1 Hw2].
  destruct (pk_range p Hp) as [Hff Hr'].
  destruct (Next_below (offset p) (last_ p) Hw2 Hf Hv ltac:(lia)) as (Hnf & Hnv & Hnn).
  unfold advance. simpl. rewrite Less_family by done. destruct (Z.ltb_spec (addr_num (Next (offset p))) (addr_num (last_ p))); simpl.
  - assert (in_pool p (Next (offset p))) by (split; [done|lia]). split; [|split; [done|intros ->; by split]].
    split; simpl; try apply Hp. split; [done|]. split; [done|lia].
  - split; [|split; [split; [done|lia]|done]]. split; simpl; try apply Hp. split; [done|]. split; [apply Hp|lia].
Qed.

Lemma advance_in_pool p ip : in_pool (advance p) ip ↔ in_pool p ip.
Proof. unfold advance. by destruct (negb _). Qed.

Lemma pool_ok_with_store p s : pool_ok p → consistent s →
  (∀ h ip, ip_of s h = Some ip → in_pool p ip) → pool_ok (with_store p s).
Proof. intros Hp Hs Hb. split; simpl; try apply Hp; done. Qed.

(** After the takeover nobody holds the address, and nothing else is lost. *)
Definition take_over p : St :=
  if cycle p || StoreExist (offset p) (pstore p) then DelByIP (offset p) (pstore p) else pstore p.

Lemma take_over_ok p : consistent (pstore p) →
  consistent (take_over p) ∧ host_of (take_over p) (offset p) = None
  ∧ ∀ h, ip_of (take_over p) h = if decide (ip_of (pstore p) h = Some (offset p)) then None
                                 else ip_of (pstore p) h.
Proof.
  intros Hs. assert (Hfree : ∀ s, consistent s → (∀ h, ip_of s h ≠ Some (offset p)) → host_of s (offset p) = None).
  { intros s Hc Hno. destruct (host_of s (offset p)) as [h|] eqn:E; [|done].
    apply law_inverse in E; [|done]. by destruct (Hno h). }
  unfold take_over. destruct (cycle p || StoreExist (offset p) (pstore p)) eqn:Hc.
  - destruct (law_del (pstore p) (offset p) Hs) as [Hd Hdel].
    assert (Hall : ∀ h, ip_of (DelByIP (offset p) (pstore p)) h =
               if decide (ip_of (pstore p) h = Some (offset p)) then None else ip_of (pstore p) h).
    { intros h. rewrite Hdel. pose proof (law_inverse (pstore p) h (offset p) Hs).
      repeat case_decide; tauto || done. }
    split; [done|]. split; [|done]. apply Hfree; [done|]. intros h. rewrite Hall. by case_decide.
  - apply orb_false_iff in Hc as [_ Hex]. rewrite law_exist in Hex by done.
    apply bool_decide_eq_false, eq_None_not_Some in Hex. split; [done|]. split; [done|].
    intros h. case_decide as Hd; [|done]. apply law_inverse in Hd; [congruence|done].
Qed.

Lemma pool_get_eq host p :
  pool_get host p = (offset (advance p), with_store (advance p) (PutByIP (offset (advance p)) host (take_over (advance p)))).
Proof.
  unfold pool_get. fold (advance p). unfold take_over. by destruct (cycle (advance p) || _).
Qed.

Context (ToLower : str → str).

(** The two cases of [Lookup]. *)
Lemma Lookup_hit host p ip : pool_ok p → ip_of (pstore p) (ToLower host) = Some ip →
  let '(r, p') := Lookup ToLower host p in
  r = ip ∧ pool_ok p' ∧ p' = with_store p (pstore p') ∧ ∀ h, ip_of (pstore p') h = ip_of (pstore p) h.
Proof.
  intros Hp Hip. unfold Lookup. destruct (law_get_host (pstore p) (ToLower host) (pk_store p Hp)) as (Hr & Hs & Hsame).
  destruct (GetByHost (ToLower host) (pstore p)) as [r s]; simpl in *. subst r. rewrite Hip.
  split; [done|]. split; [|done]. apply pool_ok_with_store; [done|done|]. intros h ip'. rewrite Hsame. apply Hp.
Qed.

Lemma Lookup_miss host p : pool_ok p → ip_of (pstore p) (ToLower host) = None →
  let '(r, p') := Lookup ToLower host p in
  r = offset (advance p) ∧ pool_ok p' ∧ p' = with_store (advance p) (pstore p')
  ∧ ip_of (pstore p') (ToLower host) = Some r
  ∧ ∀ h ip, ip_of (pstore p') h = Some ip → (h = ToLower host ∧ ip = r) ∨ (ip_of (pstore p) h = Some ip ∧ ip ≠ r).
Proof.
  intros Hp Hip. unfold Lookup. destruct (law_get_host (pstore p) (ToLower host) (pk_store p Hp)) as (Hr & Hs & Hsame).
  destruct (GetByHost (ToLower host) (pstore p)) as [r s]; cbn [fst snd] in *. subst r. rewrite Hip.
  assert (Hp1 : pool_ok (with_store p s)).
  { apply pool_ok_with_store; [done|done|]. intros h ip'. rewrite Hsame. apply Hp. }
  cbn beta iota zeta. rewrite pool_get_eq. cbn beta iota zeta. assert (Hadv : offset (advance (with_store p s)) = offset (advance p)).
  { unfold advance. simpl. by destruct (negb _). }
  destruct (advance_ok _ Hp1) as (Hp2 & Hin & _). set (p2 := advance (with_store p s)) in *.
  assert (Hps : pstore p2 = s) by (unfold p2, advance; by destruct (negb _)).
  assert (Hw : ∀ x, with_store p2 x = with_store (advance p) x).
  { intros x. unfold p2, advance. simpl. by destruct (negb _). }
  destruct (take_over_ok p2 (pk_store _ Hp2)) as (Hc & Hfree & Hkeep). rewrite Hps in Hkeep.
  assert (Hfresh : ip_of (take_over p2) (ToLower host) = None).
  { rewrite Hkeep. case_decide; [done|]. by rewrite Hsame. }
  destruct (law_bind (take_over p2) (ToLower host) (offset p2) Hc Hfresh Hfree) as (Hc' & Hb & Hold).
  split; [done|]. split; [|split; [by rewrite Hw|split; [done|]]].
  - apply (pool_ok_with_store p2); [done|done|]. intros h ip [[-> ->]|Hip']%Hold; [by apply advance_in_pool|].
    rewrite Hkeep in Hip'. case_decide; [done|]. apply (pk_bound _ Hp2 h). by rewrite Hps.
  - intros h ip [[-> ->]|Hip']%Hold; [by left|right]. rewrite Hkeep in Hip'. case_decide as Hd; [done|].
    rewrite Hsame in Hip', Hd. split; [done|congruence].
Qed.

(** *** The other operations keep the invariant *)

Lemma LookBack_ok ip p : pool_ok p →
  let '(r, p') := LookBack ip p in
  r = host_of (pstore p) ip ∧ pool_ok p' ∧ p' = with_store p (pstore p')
  ∧ ∀ h, ip_of (pstore p') h = ip_of (pstore p) h.
Proof.
  intros Hp. unfold LookBack. destruct (law_get_ip (pstore p) ip (pk_store p Hp)) as (Hr & Hs & Hsame).
  destruct (GetByIP ip (pstore p)) as [r s]; simpl in *. split; [done|]. split; [|done].
  apply pool_ok_with_store; [done|done|]. intros h ip'. rewrite Hsame. apply Hp.
Qed.

(** Back to the start with nothing bound. *)
Lemma reset_ok p s cyc : pool_ok p → consistent s → (∀ h, ip_of s h = None) →
  pool_ok (with_alloc (with_store p s) (Prev (first p)) cyc).
Proof.
  intros Hp Hs Hno. destruct (pk_range p Hp) as [Hf Hr].
  destruct (Prev_above (first p)) as (Hpf & Hpv & Hpn); [apply Hp|apply Hp|lia|].
  split; simpl; try apply Hp; [done| |].
  - split; [by etrans|]. split; [done|lia].
  - intros h ip. by rewrite Hno.
Qed.

Lemma FlushFakeIP_ok p p' : pool_ok p → FlushFakeIP p = Ok p' →
  pool_ok p' ∧ (∀ h, ip_of (pstore p') h = None) ∧ offset p' = Prev (first p') ∧ cycle p' = false.
Proof.
  intros Hp Hfl. unfold FlushFakeIP in Hfl. destruct (StoreFlush (pstore p)) as [s| |] eqn:Hs; try done.
  injection Hfl as <-. destruct (law_flush _ _ (pk_store p Hp) Hs) as [Hc Hno].
  split; [by apply reset_ok|done].
Qed.

Lemma CloneFrom_ok p o : pool_ok p → pool_ok o → (∀ s, consistent s → ∃ s', StoreFlush s = Ok s') →
  pool_ok (CloneFrom p (Some o)).
Proof.
  intros Hp Ho Hfl. unfold CloneFrom. simpl.
  destruct (law_clone (pstore o) (pstore p) (pk_store o Ho) (pk_store p Hp)) as [Hc Hwhich].
  case_decide as Heq.
  - destruct Heq as [Hf Hl]. split; simpl; try apply Hp; [done| |].
    + pose proof (pk_offset o Ho) as Hoff. by rewrite Hf, Hl in Hoff.
    + intros h ip Hip. destruct Hwhich as [Hw|Hw]; rewrite Hw in Hip; [|by apply (pk_bound p Hp h)].
      apply (pk_bound o Ho) in Hip. unfold in_pool in *. by rewrite Hf, Hl in Hip.
  - destruct (Hfl _ Hc) as [s Hs]. rewrite Hs. destruct (law_flush _ _ Hc Hs) as [Hcs Hno].
    apply (reset_ok p s false Hp Hcs Hno).
Qed.

(** A pool just made over an empty store. [PrefixLastIP] is documented to
    return the last address of a valid prefix. *)
Definition last_ip_spec (PrefixLastIP : Prefix → Addr) : Prop :=
  ∀ net, prefix_valid net = true → wf_addr (p_addr net) →
    wf_addr (PrefixLastIP net) ∧ prefix_contains net (PrefixLastIP net) = true.

Lemma NewPool_ok PrefixLastIP net s p : persistent = false → last_ip_spec PrefixLastIP →
  wf_addr (p_addr net) → consistent s → (∀ h, ip_of s h = None) →
  NewPool PrefixLastIP net s = Ok p →
  pool_ok p ∧ pstore p = s ∧ cycle p = false ∧ offset p = Prev (first p) ∧ ipnet p = net.
Proof.
  intros Hper Hlast Hw Hs Hno Hnew. unfold NewPool in Hnew. destruct (_ || _) eqn:Hc in Hnew; [done|].
  injection Hnew as <-. unfold restoreState. rewrite Hper. split; [|done].
  apply orb_false_iff in Hc as [[Hv%negb_false_iff Hfv%negb_false_iff]%orb_false_iff Hl%negb_false_iff].
  destruct (Masked_addr net Hv Hw) as [Hmw Hmc]. destruct (Hlast net Hv Hw) as [Hlw Hlc].
  set (a := p_addr (Masked net)) in *. apply IsValid_true in Hfv.
  assert (Hn : ∀ x, Next x ≠ AddrZero → x ≠ AddrZero) by (intros [] ?; done).
  destruct (Next_family a) as (F1 & W1 & N1 & _); [auto|done|].
  destruct (Next_family (Next a)) as (F2 & W2 & N2 & _); [auto|done|].
  destruct (Next_family (Next (Next a))) as (F3 & W3 & N3 & _); [auto|done|].
  destruct (Next_family (Next (Next (Next a)))) as (F4 & W4 & N4 & _); [auto|done|].
  set (fst := Next (Next (Next (Next a)))) in *.
  assert (Hfa : same_family fst a) by (etrans; [exact F4|]; etrans; [exact F3|]; by etrans).
  assert (Hal : same_family a (PrefixLastIP net)).
  { unfold prefix_contains in Hmc, Hlc. zify_bool. split; [congruence|].
    by do 2 match goal with Hz : bool_decide _ = true |- _ => apply bool_decide_eq_true in Hz end; congruence. }
  assert (Hfl : same_family fst (PrefixLastIP net)) by (by etrans).
  rewrite Less_family in Hl by done. apply Z.ltb_lt in Hl.
  assert (0 ≤ addr_num a)%Z by (destruct a; simpl in *; lia).
  destruct (Prev_above fst W4 Hfv ltac:(lia)) as (Hpf & Hpv & Hpn).
  split; simpl; try done; [split; [done|lia]| | |].
  - split; [by etrans|]. split; [done|lia].
  - intros ip [Hif Hir]. simpl in *. apply (prefix_contains_between net a ip (PrefixLastIP net)); try done; [|lia].
    by etrans; [|symmetry].
  - intros h ip. by rewrite Hno.
Qed.

(** *** Reachable pools *)

Context (PrefixLastIP : Prefix → Addr).

Inductive reachable : Pool St → Prop :=
| reach_new net s p : wf_addr (p_addr net) → consistent s → (∀ h, ip_of s h = None) →
    NewPool PrefixLastIP net s = Ok p → reachable p
| reach_lookup p h : reachable p → reachable (Lookup ToLower h p).2
| reach_lookback p ip : reachable p → reachable (LookBack ip p).2
| reach_flush p p' : reachable p → FlushFakeIP p = Ok p' → reachable p'
| reach_clone p o : reachable p → reachable o → reachable (CloneFrom p (Some o)).

Lemma Lookup_ok h p : pool_ok p → pool_ok (Lookup ToLower h p).2.
Proof.
  intros Hp. destruct (ip_of (pstore p) (ToLower h)) as [ip|] eqn:Hip.
  - pose proof (Lookup_hit h p ip Hp Hip) as Hl. destruct (Lookup ToLower h p). by apply Hl.
  - pose proof (Lookup_miss h p Hp Hip) as Hl. destruct (Lookup ToLower h p). by apply Hl.
Qed.

Lemma reachable_ok p : persistent = false → last_ip_spec PrefixLastIP →
  (∀ s, consistent s → ∃ s', StoreFlush s = Ok s') → reachable p → pool_ok p.
Proof.
  intros Hper Hlast Hfl. induction 1 as [net s p Hw Hs Hno Hnew|p h _ IH|p ip _ IH|p p' _ IH Hf|p o _ IH _ IHo].
  - by eapply NewPool_ok.
  - by apply Lookup_ok.
  - pose proof (LookBack_ok ip p IH) as Hl. destruct (LookBack ip p). by apply Hl.
  - by eapply FlushFakeIP_ok.
  - by apply CloneFrom_ok.
Qed.

(** Until the offset wraps around, nothing above it is bound. *)
Definition unwrapped p : Prop :=
  cycle p = false → ∀ h ip, ip_of (pstore p) h = Some ip → (addr_num ip ≤ addr_num (offset p))%Z.

Lemma Lookup_unwrapped h p : pool_ok p → unwrapped p → unwrapped (Lookup ToLower h p).2.
Proof.
  intros Hp Hu. destruct (ip_of (pstore p) (ToLower h)) as [ip|] eqn:Hip.
  - pose proof (Lookup_hit h p ip Hp Hip) as Hl. destruct (Lookup ToLower h p) as [r p']. simpl.
    destruct Hl as (_ & _ & -> & Hsame). intros Hc h' ip'. rewrite Hsame. by apply Hu.
  - pose proof (Lookup_miss h p Hp Hip) as Hl. destruct (Lookup ToLower h p) as [r p']. simpl.
    destruct Hl as (-> & _ & -> & _ & Hold). intros Hc h' ip' Hip'. simpl in *.
    destruct (advance_ok p Hp) as (_ & _ & Hadv). destruct (Hadv Hc) as [Hc' Hn].
    apply Hold in Hip' as [[_ ->]|[Hip' _]]; [lia|]. apply (Hu Hc') in Hip'. lia.
Qed.

Lemma reachable_unwrapped p : persistent = false → last_ip_spec PrefixLastIP →
  (∀ s, consistent s → ∃ s', StoreFlush s = Ok s') →
  (∀ src dst h, consistent src → consistent dst → ip_of (StoreCloneTo src dst) h = ip_of src h) →
  reachable p → unwrapped p.
Proof.
  intros Hper Hlast Hfl Hcl Hr. assert (Hok := λ q, reachable_ok q Hper Hlast Hfl).
  induction Hr as [net s p Hw Hs Hno Hnew|p h Hr IH|p ip Hr IH|p p' Hr IH Hf|p o Hr IH Hro IHo].
  - destruct (NewPool_ok PrefixLastIP net s p) as (_ & Hps & _); try done.
    intros _ h ip. by rewrite Hps, Hno.
  - by apply Lookup_unwrapped; [apply Hok|].
  - pose proof (LookBack_ok ip p (Hok p Hr)) as Hl. destruct (LookBack ip p) as [r p']. simpl.
    destruct Hl as (_ & _ & -> & Hsame). intros Hc h ip'. rewrite Hsame. by apply IH.
  - destruct (FlushFakeIP_ok p p' (Hok p Hr) Hf) as (_ & Hno & _). intros _ h ip. by rewrite Hno.
  - intros Hc h ip Hip. unfold CloneFrom in *. simpl in *.
    pose proof (pk_store _ (Hok p Hr)). pose proof (pk_store _ (Hok o Hro)).
    case_decide; simpl in *.
    + rewrite Hcl in Hip by done. by eapply IHo.
    + destruct (law_clone (pstore o) (pstore p)) as [Hcs _]; [done|done|].
      destruct (Hfl _ Hcs) as [s Hs]. rewrite Hs in Hip. destruct (law_flush _ _ Hcs Hs) as [_ Hno].
      simpl in Hip. by rewrite Hno in Hip.
Qed.

(** An unbounded store keeps everything but what the pool deletes. *)
Lemma Lookup_keeps h p : pool_ok p → unwrapped p → unbounded (pstore p) →
  cycle (Lookup ToLower h p).2 = false →
  ∀ h' a, ip_of (pstore p) h' = Some a → ip_of (pstore (Lookup ToLower h p).2) h' = Some a.
Proof.
  intros Hp Hu Hub Hc h' a Ha. destruct (ip_of (pstore p) (ToLower h)) as [ip|] eqn:Hip.
  - pose proof (Lookup_hit h p ip Hp Hip) as Hl. destruct (Lookup ToLower h p) as [r p'].
    destruct Hl as (_ & _ & _ & Hsame). simpl. by rewrite Hsame.
  - revert Hc. unfold Lookup.
    destruct (law_get_host (pstore p) (ToLower h) (pk_store p Hp)) as (Hr & Hs & Hsame).
    pose proof (law_unbounded (pstore p) (ToLower h) (pk_store p Hp) Hub) as Hub'.
    destruct (GetByHost (ToLower h) (pstore p)) as [r s]; cbn [fst snd] in *. subst r. rewrite Hip.
    cbn beta iota zeta. rewrite pool_get_eq. cbn [fst snd with_store pstore cycle]. intros Hc.
    set (p1 := with_store p s) in *.
    assert (Hp1 : pool_ok p1).
    { apply pool_ok_with_store; [done|done|]. intros x ip'. rewrite Hsame. apply Hp. }
    destruct (advance_ok p1 Hp1) as (Hp2 & _ & Hadv). destruct (Hadv Hc) as [Hc1 Hn]. simpl in Hn.
    assert (Hps : pstore (advance p1) = s) by (unfold advance; by destruct (negb _)).
    assert (Hfree : host_of s (offset (advance p1)) = None).
    { destruct (host_of s _) as [x|] eqn:E; [|done]. apply law_inverse in E; [|done].
      rewrite Hsame in E. apply (Hu Hc1) in E. lia. }
    assert (Htake : take_over (advance p1) = s).
    { unfold take_over. rewrite Hc, Hps, law_exist, Hfree by done. done. }
    rewrite Htake. apply law_keep; try done; by rewrite Hsame.
Qed.
End pool_theory.

(** ** The pool over the memory store *)

Section memory_pool.
Context `{GenericList} (ToLower : str → str) (PrefixLastIP : Prefix → Addr).

Lemma mem_reachable_ok (p : Pool MemStore) : last_ip_spec PrefixLastIP →
  reachable ToLower PrefixLastIP p → pool_ok p.
Proof. intros Hl Hr. eapply reachable_ok; eauto. Qed.
End memory_pool.

(** C9: in every pool over the in-memory store ([memoryStore]) reached from
    [New] by lookups, flushes and clones, the address [Lookup] returns for a
    host is one of the pool's own addresses (from [first] up to but not
    including [last], inside the configured prefix), [LookBack] on it gives the
    lower-cased host back, and every spelling of the same host gets the same
    address again. (A pool over the cache file is not covered: that store keeps
    the state of the allocation under two names among the hosts, and hosts and
    addresses in one bucket, so a query for such a name reads the state.) *)
Theorem fakeip_lookup_lookback `{GenericList} (ToLower : str → str) (PrefixLastIP : Prefix → Addr)
    (p : Pool MemStore) (host : str) :
  last_ip_spec PrefixLastIP → reachable ToLower PrefixLastIP p →
  let '(ip, p') := Lookup ToLower host p in
  in_pool p ip ∧ prefix_contains (IPNet p) ip = true
  ∧ (LookBack ip p').1 = Some (ToLower host) ∧ PoolExist ip p' = true
  ∧ ∀ host', ToLower host' = ToLower host → (Lookup ToLower host' p').1 = ip.
Proof.
  intros Hl Hr. assert (Hp := mem_reachable_ok ToLower PrefixLastIP p Hl Hr).
  assert (Hgoal : ∀ ip p', pool_ok p' → in_pool p ip → ip_of (pstore p') (ToLower host) = Some ip →
    in_pool p ip ∧ prefix_contains (IPNet p) ip = true ∧ (LookBack ip p').1 = Some (ToLower host)
    ∧ PoolExist ip p' = true ∧ ∀ host', ToLower host' = ToLower host → (Lookup ToLower host' p').1 = ip).
  { intros ip p' Hp' Hin Hip. pose proof (pk_store p' Hp') as Hs.
    pose proof (proj1 (law_inverse _ _ _ Hs) Hip) as Hh.
    split; [done|]. split; [by apply Hp|]. split; [|split].
    - pose proof (LookBack_ok ip p' Hp') as Hb. destruct (LookBack ip p'). by destruct Hb as [-> _].
    - unfold PoolExist. by rewrite law_exist, Hh.
    - intros host' Heq. rewrite <- Heq in Hip. pose proof (Lookup_hit ToLower host' p' ip Hp' Hip) as Hb.
      destruct (Lookup ToLower host' p'). by destruct Hb. }
  destruct (ip_of (pstore p) (ToLower host)) as [ip|] eqn:Hip.
  - pose proof (Lookup_hit ToLower host p ip Hp Hip) as Hb. destruct (Lookup ToLower host p) as [r p'].
    destruct Hb as (-> & Hp' & _ & Hsame). apply Hgoal; [done|by apply (pk_bound p Hp (ToLower host))|by rewrite Hsame].
  - pose proof (Lookup_miss ToLower host p Hp Hip) as Hb. destruct (Lookup ToLower host p) as [r p'].
    destruct Hb as (-> & Hp' & _ & Hb & _). apply Hgoal; [done|by apply advance_ok|done].
Qed.

(** Concrete pools: the plain list, hosts taken as they are, and the addresses
    198.18.0.4 to 198.18.0.14 behind the prefix 198.18.0.0/28. *)
Definition last_num (len bits v : Z) : Z := ((v / 2 ^ (len - bits)) * 2 ^ (len - bits) + (2 ^ (len - bits) - 1))%Z.
Definition sample_last (net : Prefix) : Addr :=
  match p_addr net with
  | AddrZero => AddrZero
  | Addr4 v => Addr4 (last_num 32 (p_bits net) v)
  | Addr6 v _ => Addr6 (last_num 128 (p_bits net) v) []
  end.

Lemma last_num_spec len bits v : (0 ≤ bits ≤ len)%Z → (0 ≤ v < 2 ^ len)%Z →
  (0 ≤ last_num len bits v < 2 ^ len)%Z ∧ Z.shiftr (last_num len bits v) (len - bits) = Z.shiftr v (len - bits).
Proof.
  intros Hb Hv. unfold last_num. set (k := (2 ^ (len - bits))%Z).
  assert (Hk : (0 < k)%Z) by (unfold k; lia).
  assert (Hpow : (2 ^ len = 2 ^ bits * k)%Z) by (unfold k; rewrite <- Z.pow_add_r by lia; f_equal; lia).
  rewrite !Z.shiftr_div_pow2 by lia. fold k.
  assert (v / k < 2 ^ bits)%Z by (apply Z.div_lt_upper_bound; lia).
  assert (0 ≤ v / k)%Z by (apply Z.div_pos; lia). split; [nia|].
  rewrite Z.add_comm, Z.div_add, Z.div_small by lia. lia.
Qed.

Lemma sample_last_spec : last_ip_spec sample_last.
Proof.
  intros net Hv Hw. pose proof Hv as Hv'. unfold prefix_valid in Hv'. unfold prefix_contains. rewrite Hv.
  destruct net as [[|v|v z] bits]; cbn -[Z.pow Z.shiftr last_num] in *; [done| |]; zify_bool.
  - destruct (last_num_spec 32 bits v ltac:(lia) Hw) as [Hr Hs]. split; [done|]. by rewrite Hs, Z.eqb_refl.
  - destruct (last_num_spec 128 bits v ltac:(lia) Hw) as [Hr Hs]. split; [done|]. by rewrite Hs, Z.eqb_refl.
Qed.

Definition sample_net : Prefix := MkPrefix (Addr4 3323068416) 28.
#[local] Existing Instance plain_list.

Definition sample_pool (size : Z) : Pool MemStore :=
  MkPool (Addr4 3323068417) (Addr4 3323068420) (Addr4 3323068431) (Addr4 3323068419) false sample_net
    (newMemoryStore size).

Lemma sample_pool_reachable size : reachable (λ h, h) sample_last (sample_pool size).
Proof.
  apply (reach_new _ _ sample_net (newMemoryStore size)); [vm_compute; split; congruence| | |].
  - apply newMemoryStore_ok.
  - apply newMemoryStore_ok.
  - reflexivity.
Qed.

Lemma fakeip_lookup_lookback_witness :
  let '(ip, p') := Lookup (λ h, h) (lit "example.com") (sample_pool 5) in
  ip = Addr4 3323068420 ∧ (LookBack ip p').1 = Some (lit "example.com").
Proof.
  pose proof (fakeip_lookup_lookback (λ h, h) sample_last (sample_pool 5) (lit "example.com")
    sample_last_spec (sample_pool_reachable 5)) as Hl.
  assert (Hip : (Lookup (λ h, h) (lit "example.com") (sample_pool 5)).1 = Addr4 3323068420) by (vm_compute; reflexivity).
  destruct (Lookup (λ h, h) (lit "example.com") (sample_pool 5)) as [ip p'].
  split; [exact Hip|apply Hl].
Defined.

(** As long as the offset has not wrapped around, a host that has no
    address yet is given the next address above the offset, which no host
    held, and (the store having no size limit) every host that had an address
    keeps it: the pool recycles nothing while free addresses remain, also
    after a flush and after a configuration reload cloned an older pool. *)
Theorem fakeip_no_reuse_before_wrap `{GenericList} (ToLower : str → str) (PrefixLastIP : Prefix → Addr)
    (p : Pool MemStore) (host : str) :
  last_ip_spec PrefixLastIP → reachable ToLower PrefixLastIP p →
  cycle (Lookup ToLower host p).2 = false →
  (ip_of (pstore p) (ToLower host) = None →
     host_of (pstore p) (Lookup ToLower host p).1 = None
     ∧ addr_num (Lookup ToLower host p).1 = (addr_num (offset p) + 1)%Z)
  ∧ ((maxSize (cacheIP (pstore p)).2 ≤ 0)%Z →
     ∀ h a, ip_of (pstore p) h = Some a → ip_of (pstore (Lookup ToLower host p).2) h = Some a).
Proof.
  intros Hl Hr Hc. assert (Hp := mem_reachable_ok ToLower PrefixLastIP p Hl Hr).
  assert (Hu : unwrapped p).
  { eapply reachable_unwrapped; eauto. intros src dst h Hs Hd. by apply mem_clone_ok. }
  split; [|intros Hsize; by apply Lookup_keeps].
  intros Hip. pose proof (Lookup_miss ToLower host p Hp Hip) as Hm.
  destruct (Lookup ToLower host p) as [r p']; simpl in *. destruct Hm as (-> & _ & Heq & _ & _).
  assert (Hc' : cycle (advance p) = false) by (rewrite Heq in Hc; done).
  destruct (proj2 (proj2 (advance_ok p Hp)) Hc') as [Hcp Hn]. split; [|done].
  destruct (mem_host_of (pstore p) (offset (advance p))) as [h|] eqn:E; [|done].
  apply (mem_inverse _ _ _ (pk_store p Hp)) in E. apply (Hu Hcp) in E. lia.
Qed.

Lemma fakeip_no_reuse_before_wrap_witness :
  cycle (Lookup (λ h, h) (lit "a.com") (sample_pool 0)).2 = false
  ∧ addr_num (Lookup (λ h, h) (lit "a.com") (sample_pool 0)).1 = 3323068420%Z.
Proof.
  assert (Hc : cycle (Lookup (λ h, h) (lit "a.com") (sample_pool 0)).2 = false) by (vm_compute; reflexivity).
  split; [exact Hc|].
  destruct (fakeip_no_reuse_before_wrap (λ h, h) sample_last (sample_pool 0) (lit "a.com")
    sample_last_spec (sample_pool_reachable 0) Hc) as [Hnew _].
  rewrite (proj2 (Hnew ltac:(vm_compute; reflexivity))). reflexivity.
Defined.

(** A reload that changes the address range drops what the old pool had
    bound: after [CloneFrom] between pools of different ranges no host has an
    address and allocation restarts at [first]; between pools of the same range
    the bindings, the offset and the cycle flag carry over. Either way the
    next [Lookup] stays inside the new pool's range. *)
Theorem CloneFrom_range `{GenericList} (ToLower : str → str) (PrefixLastIP : Prefix → Addr)
    (p o : Pool MemStore) (host : str) :
  last_ip_spec PrefixLastIP → reachable ToLower PrefixLastIP p → reachable ToLower PrefixLastIP o →
  let q := CloneFrom p (Some o) in
  (first o = first p ∧ last_ o = last_ p →
     (∀ h, ip_of (pstore q) h = ip_of (pstore o) h) ∧ offset q = offset o ∧ cycle q = cycle o)
  ∧ (¬ (first o = first p ∧ last_ o = last_ p) →
     (∀ h, ip_of (pstore q) h = None) ∧ offset q = Prev (first p) ∧ cycle q = false)
  ∧ in_pool p (Lookup ToLower host q).1.
Proof.
  intros Hl Hr Hro q. assert (Hp := mem_reachable_ok ToLower PrefixLastIP p Hl Hr).
  assert (Ho := mem_reachable_ok ToLower PrefixLastIP o Hl Hro).
  destruct (mem_clone_ok (pstore o) (pstore p) (pk_store o Ho) (pk_store p Hp)) as [Hc Hcl].
  split; [|split].
  - intros Heq. unfold q, CloneFrom. simpl. rewrite decide_True by done. by simpl.
  - intros Hne. unfold q, CloneFrom. cbn -[mem_FlushFakeIP StoreFlush]. rewrite decide_False by done.
    change StoreFlush with mem_FlushFakeIP. destruct (mem_FlushFakeIP (mem_CloneTo (pstore o) (pstore p))) as [s| |] eqn:Hs; [|done|done].
    destruct (mem_flush_ok _ s Hc Hs) as [_ Hno]. by simpl.
  - assert (Hq : reachable ToLower PrefixLastIP q) by (by apply reach_clone).
    assert (Hqok := mem_reachable_ok ToLower PrefixLastIP q Hl Hq).
    assert (Hsame : ∀ a, in_pool q a → in_pool p a).
    { intros a Ha. unfold q, CloneFrom in Ha. simpl in Ha. by case_decide. }
    destruct (ip_of (pstore q) (ToLower host)) as [ip|] eqn:Hip.
    + pose proof (Lookup_hit ToLower host q ip Hqok Hip) as Hh. destruct (Lookup ToLower host q).
      destruct Hh as [-> _]. by eapply Hsame, pk_bound.
    + pose proof (Lookup_miss ToLower host q Hqok Hip) as Hh. destruct (Lookup ToLower host q).
      destruct Hh as [-> _]. by apply Hsame, advance_ok.
Qed.

Lemma CloneFrom_range_witness :
  let p := sample_pool 5 in
  let o := (Lookup (λ h, h) (lit "b.com") (sample_pool 5)).2 in
  offset (CloneFrom p (Some o)) = Addr4 3323068420
  ∧ ip_of (pstore (CloneFrom p (Some o))) (lit "b.com") = Some (Addr4 3323068420).
Proof.
  intros p o.
  destruct (CloneFrom_range (λ h, h) sample_last p o (lit "x") sample_last_spec (sample_pool_reachable 5)
    (reach_lookup _ _ _ (lit "b.com") (sample_pool_reachable 5))) as [Hsame _].
  destruct (Hsame ltac:(vm_compute; split; reflexivity)) as (Hip & Hoff & _).
  split; [rewrite Hoff; vm_compute; reflexivity|rewrite Hip; vm_compute; reflexivity].
Defined.
