(* ===== verification/TrafficModel.v ===== *)
(** * TrafficModel: the configuration of the traffic controller

    [src/component/trafficcontrol/model.go]: the raw (YAML and JSON) document,
    its validation into a [Config], and the document a [Config] is shown as.

    - durations are nanosecond counts, [int64]; [parseFlexibleDuration] and
      [formatFlexibleDuration] are the two directions;
    - [parseQuota], [parsePolicy], [parseReports], [addPolicy], [ParseConfig]
      validate, [Raw] prints.

    Errors carry the constant text of the message, without the formatted
    arguments. What comes from outside the sources is in the class [GoEnv]:
    Unicode's case tables, SHA-256, the textual form of a prefix and
    [filepath.Clean]; [GoEnvLaws] states what is documented of them. *)
From S2P Require Import Prelude GoStrings NetIP.

Class GoEnv := {
  unicode_lower : str → str;
  unicode_upper : str → str;
  sha256 : str → str;
  ParsePrefix : str → option Prefix;
  prefix_string : Prefix → str;
  path_clean : str → str
}.

(** [netip.ParsePrefix] yields valid prefixes without a zone and reads back the
    text of one, which is made of plain characters; lower-casing twice is
    lower-casing once. *)
Class GoEnvLaws `{GoEnv} := {
  sha256_length : ∀ s, length (sha256 s) = 32;
  ParsePrefix_valid : ∀ s p, ParsePrefix s = Some p → prefix_valid p = true ∧ addr_zone (p_addr p) = []
    ∧ wf_addr (p_addr p);
  ParsePrefix_string : ∀ p, prefix_valid p = true → addr_zone (p_addr p) = [] → wf_addr (p_addr p) →
    ParsePrefix (prefix_string p) = Some p;
  ToLower_idem : ∀ s, ToLower unicode_lower (ToLower unicode_lower s) = ToLower unicode_lower s;
  prefix_string_plain : ∀ p, prefix_valid p = true → wf_addr (p_addr p) → forallb plain (prefix_string p) = true
}.

(** ** Durations *)

Definition Second : Z := 1000000000.
Definition Minute : Z := 60 * Second.
Definition Hour : Z := 60 * Minute.
Definition Day : Z := 24 * Hour.

Definition DefaultCheckpointInterval : Z := 5 * Minute.
Definition DefaultStoreLimit : Z := Z.shiftl 64 20.
Definition DefaultOrphanRetention : Z := 90 * Day.
Definition DefaultHourlyRetention : Z := 31 * Day.
Definition DefaultDailyRetention : Z := 397 * Day.
Definition DefaultMonthlyRetention : Z := 397 * Day.
Definition DefaultOverageUploadBPS : Z := 64000.
Definition DefaultOverageDownloadBPS : Z := 256000.
Definition minQuotaWindow : Z := Hour.
Definition maxQuotaWindow : Z := 365 * Day.
Definition maxTrafficControlPolicies : nat := 256.

Definition max_int64 : Z := 2 ^ 63 - 1.

Definition duration_unit (unit : str) : option Z :=
  if decide (unit = lit "m") then Some Minute
  else if decide (unit = lit "h") then Some Hour
  else if decide (unit = lit "d") then Some Day
  else if decide (unit = lit "w") then Some (7 * Day)%Z
  else None.

(** One iteration reads a number and a unit, at least two bytes. *)
Fixpoint duration_terms (fuel : nat) (value : str) (total : Z) : result Z :=
  match value, fuel with
  | [], _ => Ok total
  | _, 0 => Panic
  | _, S f =>
    let '(digits, rest) := span is_digit value in
    if decide (digits = [] ∨ rest = []) then Err "invalid duration"
    else match parse_int 64 digits with
         | Ok n =>
           if (n <=? 0)%Z then Err "invalid duration"
           else
             let '(unit, rest) := span (λ c, negb (is_digit c)) rest in
             match duration_unit unit with
             | None => Err "invalid duration unit"
             | Some multiplier =>
               if (n >? Z.quot max_int64 multiplier)%Z then Err "duration overflows"
               else
                 let term := wrap int64 (n * multiplier) in
                 if (total >? wrap int64 (max_int64 - term))%Z then Err "duration overflows"
                 else duration_terms f rest (wrap int64 (total + term))
             end
         | _ => Err "invalid duration"
         end
  end.

Definition formatFlexibleDuration (d : Z) : str :=
  if (d <=? 0)%Z then []
  else if (Z.rem d Day =? 0)%Z then format_int (Z.quot d Day) ++ lit "d"
  else if (Z.rem d Hour =? 0)%Z then format_int (Z.quot d Hour) ++ lit "h"
  else if (Z.rem d Minute =? 0)%Z then format_int (Z.quot d Minute) ++ lit "m"
  else
    let minutes := Z.quot d Minute in
    let minutes := if negb (Z.rem d Minute =? 0)%Z then (minutes + 1)%Z else minutes in
    let minutes := if (minutes <? 1)%Z then 1%Z else minutes in
    format_int minutes ++ lit "m".

(** ** The raw document and the configuration *)

Record RawQuotaConfig := RawQuota {
  rq_TotalBytes : Z; rq_UploadBytes : Z; rq_DownloadBytes : Z; rq_Window : str;
  rq_OverageUploadBPS : Z; rq_OverageDownloadBPS : Z; rq_Portal : option bool
}.
Record RawPolicy := MkRawPolicy {
  rp_ID : str; rp_Name : str; rp_Enabled : option bool; rp_UploadBPS : Z; rp_DownloadBPS : Z;
  rp_Quota : RawQuotaConfig
}.
Record RawDevicePolicy := RawDevice { rd_policy : RawPolicy; rd_MAC : str; rd_SourceCIDRs : list str }.
Record RawRulePolicy := RawRule { rr_policy : RawPolicy; rr_Type : str; rr_Payload : str; rr_Target : str }.
Record RawTargetPolicy := RawTarget { rt_policy : RawPolicy; rt_Kind : str; rt_Target : str }.
Record RawPortalConfig := RawPortal { rl_Listen : str; rl_URL : str }.
Record RawReportsConfig := RawReports {
  re_Enabled : option bool; re_HourlyRetention : str; re_DailyRetention : str;
  re_MonthlyRetention : str; re_OrphanRetention : str
}.
Record RawConfig := MkRawConfig {
  rc_Enabled : bool; rc_Store : str; rc_CheckpointInterval : str; rc_MaxStoreSize : Z;
  rc_Portal : RawPortalConfig; rc_Reports : RawReportsConfig; rc_Global : option RawPolicy;
  rc_Devices : list RawDevicePolicy; rc_Rules : list RawRulePolicy; rc_Targets : list RawTargetPolicy
}.

Inductive PolicyKind := PolicyGlobal | PolicyDevice | PolicyRule | PolicyTarget.
#[export] Instance PolicyKind_eq_dec : EqDecision PolicyKind.
Proof. solve_decision. Defined.

Record QuotaConfig := MkQuota {
  q_TotalBytes : Z; q_UploadBytes : Z; q_DownloadBytes : Z; q_Window : Z;
  q_OverageUploadBPS : Z; q_OverageDownloadBPS : Z; q_Portal : bool
}.
Record RuleSelector := MkRule { rs_Type : str; rs_Payload : str; rs_Target : str; rs_Fingerprint : str }.
Record TargetSelector := MkTarget { ts_Kind : str; ts_Name : str }.
Record Policy := MkPolicy {
  po_ID : str; po_Name : str; po_Kind : PolicyKind; po_Enabled : bool; po_UploadBPS : Z; po_DownloadBPS : Z;
  po_Quota : QuotaConfig; po_MAC : str; po_SourceCIDRs : list Prefix; po_Rule : RuleSelector;
  po_Target : TargetSelector
}.
Record PortalConfig := MkPortal { pc_Listen : str; pc_URL : str }.
Record ReportsConfig := MkReports {
  rep_Enabled : bool; rep_HourlyRetention : Z; rep_DailyRetention : Z; rep_MonthlyRetention : Z;
  rep_OrphanRetention : Z
}.
Record Config := MkConfig {
  cf_Enabled : bool; cf_StorePath : str; cf_requestedStore : str; cf_CheckpointInterval : Z;
  cf_MaxStoreSize : Z; cf_Portal : PortalConfig; cf_Reports : ReportsConfig; cf_Policies : list Policy
}.

#[export] Instance QuotaConfig_eq_dec : EqDecision QuotaConfig.
Proof. solve_decision. Defined.
#[export] Instance RuleSelector_eq_dec : EqDecision RuleSelector.
Proof. solve_decision. Defined.
#[export] Instance TargetSelector_eq_dec : EqDecision TargetSelector.
Proof. solve_decision. Defined.
#[export] Instance Policy_eq_dec : EqDecision Policy.
Proof. solve_decision. Defined.

(** A message prefix in front of an error. *)
Definition context {A} (msg : string) (r : result A) : result A :=
  match r with Err e => Err (msg +:+ e) | _ => r end.

(** ** Parsing *)

Section parse.
Context `{GoEnv}.

Definition parseFlexibleDuration (value : str) : result Z :=
  let value := trim_space (ToLower unicode_lower value) in
  if decide (value = []) then Err "duration is empty" else duration_terms (length value) value 0.

Definition parseOptionalDuration (value : str) (fallback : Z) : result Z :=
  if decide (trim_space value = []) then Ok fallback else parseFlexibleDuration value.

Definition parseQuota (raw : RawQuotaConfig) : result QuotaConfig :=
  let quota := MkQuota (rq_TotalBytes raw) (rq_UploadBytes raw) (rq_DownloadBytes raw) 0
    (rq_OverageUploadBPS raw) (rq_OverageDownloadBPS raw) (default true (rq_Portal raw)) in
  if (q_TotalBytes quota <? 0)%Z || (q_UploadBytes quota <? 0)%Z || (q_DownloadBytes quota <? 0)%Z
     || (q_OverageUploadBPS quota <? 0)%Z || (q_OverageDownloadBPS quota <? 0)%Z
  then Err "quota values cannot be negative"
  else
    let hasQuota := (q_TotalBytes quota >? 0)%Z || (q_UploadBytes quota >? 0)%Z || (q_DownloadBytes quota >? 0)%Z in
    if hasQuota then
      match parseFlexibleDuration (rq_Window raw) with
      | Ok window =>
        if (window <? minQuotaWindow)%Z || (window >? maxQuotaWindow)%Z
        then Err "quota window must be between 1h and 365d"
        else Ok (MkQuota (q_TotalBytes quota) (q_UploadBytes quota) (q_DownloadBytes quota) window
               (if (q_OverageUploadBPS quota =? 0)%Z then DefaultOverageUploadBPS else q_OverageUploadBPS quota)
               (if (q_OverageDownloadBPS quota =? 0)%Z then DefaultOverageDownloadBPS else q_OverageDownloadBPS quota)
               (q_Portal quota))
      | Panic => Panic
      | Err _ => Err "quota window must be between 1h and 365d"
      end
    else if decide (rq_Window raw = []) then Ok quota
    else Err "quota window requires a byte limit".

(** The zero values of the selectors. *)
Definition no_rule : RuleSelector := MkRule [] [] [] [].
Definition no_target : TargetSelector := MkTarget [] [].

Definition parsePolicy (kind : PolicyKind) (raw : RawPolicy) : result Policy :=
  if (rp_UploadBPS raw <? 0)%Z || (rp_DownloadBPS raw <? 0)%Z then Err "rates cannot be negative"
  else
    quota ← parseQuota (rp_Quota raw);
    Ok (MkPolicy (trim_space (rp_ID raw)) (trim_space (rp_Name raw)) kind (default true (rp_Enabled raw))
          (rp_UploadBPS raw) (rp_DownloadBPS raw) quota [] [] no_rule no_target).

Definition parse_retention (msg : string) (raw : str) (fallback : Z) : result Z :=
  if decide (raw = []) then Ok fallback
  else match parseFlexibleDuration raw with
       | Ok duration =>
         if (duration <? Day)%Z || (duration >? 10 * 365 * Day)%Z then Err msg else Ok duration
       | Panic => Panic
       | Err _ => Err msg
       end.

Definition parseReports (raw : RawReportsConfig) : result ReportsConfig :=
  hourly ← parse_retention "traffic-control reports hourly-retention is invalid" (re_HourlyRetention raw) DefaultHourlyRetention;
  daily ← parse_retention "traffic-control reports daily-retention is invalid" (re_DailyRetention raw) DefaultDailyRetention;
  monthly ← parse_retention "traffic-control reports monthly-retention is invalid" (re_MonthlyRetention raw) DefaultMonthlyRetention;
  orphan ← parse_retention "traffic-control reports orphan-retention is invalid" (re_OrphanRetention raw) DefaultOrphanRetention;
  Ok (MkReports (default true (re_Enabled raw)) hourly daily monthly orphan).

(** [^[A-Za-z0-9][A-Za-z0-9._-]{0,127}$] *)
Definition is_alnum (c : ascii) : bool :=
  let b := byteZ c in in_z 65 90 b || in_z 97 122 b || in_z 48 57 b.
Definition idPattern (s : str) : bool :=
  match s with
  | [] => false
  | c :: t => is_alnum c && forallb (λ d, is_alnum d || bool_decide (d ∈ lit "._-")) t && (length t <=? 127)
  end.

(** [(?i)^[0-9a-f]{2}(:[0-9a-f]{2}){5}$] *)
Definition is_hex (c : ascii) : bool :=
  let b := byteZ c in in_z 48 57 b || in_z 97 102 b || in_z 65 70 b.
Definition macPattern (s : str) : bool :=
  (length s =? 17) && forallb (λ '(i, c), if (i mod 3 =? 2)%nat then bool_decide (c = ":"%char) else is_hex c)
                               (zip (seq 0 17) s).

(** The policies so far and the identifiers they use. *)
Definition addPolicy (st : list Policy * gset str) (policy : Policy) : result (list Policy * gset str) :=
  let '(policies, ids) := st in
  if negb (idPattern (po_ID policy)) then Err "traffic-control policy id is invalid"
  else if decide (po_ID policy ∈ ids) then Err "traffic-control policy id is duplicated"
  else Ok (policies ++ [policy], {[po_ID policy]} ∪ ids).

Definition canonicalRuleType (value : str) : str :=
  filter (λ c, c ∉ lit "-_ ") (ToUpper unicode_upper (trim_space value)).

Definition canonicalPayload (ruleType payload : str) : str :=
  let payload := trim_space payload in
  let fallback := join (lit " ") (Fields payload) in
  if decide (ruleType ∈ lit <$> ["DOMAIN"; "DOMAINSUFFIX"; "DOMAINWILDCARD"; "GEOSITE"; "GEOIP"; "SRCGEOIP"])
  then ToLower unicode_lower payload
  else if decide (ruleType ∈ lit <$> ["IPCIDR"; "IPCIDR6"; "SRCIPCIDR"; "SRCIPCIDR6"]) then
    match ParsePrefix payload with Some prefix => prefix_string (Masked prefix) | None => fallback end
  else if decide (ruleType ∈ lit <$> ["DSTPORT"; "SRCPORT"; "INPORT"]) then
    match parse_uint 16 payload with Ok number => format_uint number | _ => fallback end
  else fallback.

Definition nul : str := [byte_of 0].

Definition CanonicalRule (ruleType payload target : str) : RuleSelector :=
  let ruleType := canonicalRuleType ruleType in
  let target := trim_space target in
  let payload := canonicalPayload ruleType payload in
  MkRule ruleType payload target (hex_encode (sha256 (ruleType ++ nul ++ payload ++ nul ++ target))).

Definition stableID (parts : list str) : str :=
  default [] (head parts) ++ lit "-" ++ hex_encode (take 8 (sha256 (join nul parts))).

Definition with_id (p : Policy) (id : str) : Policy :=
  if decide (po_ID p = []) then
    MkPolicy id (po_Name p) (po_Kind p) (po_Enabled p) (po_UploadBPS p) (po_DownloadBPS p) (po_Quota p)
      (po_MAC p) (po_SourceCIDRs p) (po_Rule p) (po_Target p)
  else p.

Definition parse_cidr (value : str) : result Prefix :=
  match ParsePrefix (trim_space value) with
  | Some prefix => Ok (Masked prefix)
  | None => Err "traffic-control device source-cidrs"
  end.

(** The body of one iteration of each of the loops of [ParseConfig]. *)
Definition parse_global (st : list Policy * gset str) (raw : RawPolicy) : result (list Policy * gset str) :=
  policy ← context "traffic-control global: " (parsePolicy PolicyGlobal raw);
  addPolicy st (with_id policy (lit "global")).

Definition parse_device (st : list Policy * gset str) (device : RawDevicePolicy) : result (list Policy * gset str) :=
  policy ← context "traffic-control device: " (parsePolicy PolicyDevice (rd_policy device));
  let mac := if decide (rd_MAC device = []) then [] else ToLower unicode_lower (trim_space (rd_MAC device)) in
  if negb (bool_decide (rd_MAC device = [])) && negb (macPattern mac) then Err "traffic-control device has invalid MAC"
  else
    let p := with_id policy (stableID [lit "device"; mac; join (lit ",") (rd_SourceCIDRs device)]) in
    cidrs ← foldM (λ acc value, c ← parse_cidr value; Ok (acc ++ [c])) [] (rd_SourceCIDRs device);
    if decide (cidrs = []) then
      if decide (mac = []) then Err "traffic-control device requires source-cidrs"
      else Err "traffic-control device MAC matching is not available; source-cidrs is required"
    else addPolicy st (MkPolicy (po_ID p) (po_Name p) (po_Kind p) (po_Enabled p) (po_UploadBPS p) (po_DownloadBPS p)
           (po_Quota p) mac cidrs (po_Rule p) (po_Target p)).

Definition parse_rule (st : list Policy * gset str) (rule : RawRulePolicy) : result (list Policy * gset str) :=
  policy ← context "traffic-control rule: " (parsePolicy PolicyRule (rr_policy rule));
  let selector := CanonicalRule (rr_Type rule) (rr_Payload rule) (rr_Target rule) in
  if decide (rs_Type selector = [] ∨ rs_Target selector = []) then Err "traffic-control rule requires type and target"
  else
    let p := with_id policy (lit "rule-" ++ take 16 (rs_Fingerprint selector)) in
    addPolicy st (MkPolicy (po_ID p) (po_Name p) (po_Kind p) (po_Enabled p) (po_UploadBPS p) (po_DownloadBPS p)
      (po_Quota p) (po_MAC p) (po_SourceCIDRs p) selector (po_Target p)).

Definition parse_target (st : list Policy * gset str) (target : RawTargetPolicy) : result (list Policy * gset str) :=
  policy ← context "traffic-control target: " (parsePolicy PolicyTarget (rt_policy target));
  let kind := ToLower unicode_lower (trim_space (rt_Kind target)) in
  if negb (bool_decide (kind = lit "proxy" ∨ kind = lit "group")) then Err "traffic-control target kind must be proxy or group"
  else
    let name := trim_space (rt_Target target) in
    if decide (name = []) then Err "traffic-control target requires target"
    else
      let p := with_id policy (stableID [lit "target"; kind; name]) in
      addPolicy st (MkPolicy (po_ID p) (po_Name p) (po_Kind p) (po_Enabled p) (po_UploadBPS p) (po_DownloadBPS p)
        (po_Quota p) (po_MAC p) (po_SourceCIDRs p) (po_Rule p) (MkTarget kind name)).

Definition parse_policies (raw : RawConfig) : result (list Policy * gset str) :=
  st ← match rc_Global raw with Some g => parse_global ([], ∅) g | None => Ok ([], ∅) end;
  st ← foldM parse_device st (rc_Devices raw);
  st ← foldM parse_rule st (rc_Rules raw);
  foldM parse_target st (rc_Targets raw).

Definition ParseConfig (raw : option RawConfig) (resolvePath : option (str → result str)) : result (option Config) :=
  match raw with
  | None => Ok None
  | Some raw =>
    if negb (rc_Enabled raw) then Ok None
    else match resolvePath with
    | None => Err "traffic-control path resolver is required"
    | Some resolve =>
      let trimmed := trim_space (rc_Store raw) in
      let requestedStore := if decide (trimmed = []) then lit "traffic-control.db" else trimmed in
      store ← context "traffic-control store: " (resolve requestedStore);
      checkpoint ← match parseOptionalDuration (rc_CheckpointInterval raw) DefaultCheckpointInterval with
                   | Ok c => if (c <? Minute)%Z || (c >? Hour)%Z
                             then Err "traffic-control checkpoint-interval must be between 1m and 1h" else Ok c
                   | Panic => Panic
                   | Err _ => Err "traffic-control checkpoint-interval must be between 1m and 1h"
                   end;
      let maxStoreSize := if (rc_MaxStoreSize raw =? 0)%Z then DefaultStoreLimit else rc_MaxStoreSize raw in
      if (maxStoreSize <? Z.shiftl 4 20)%Z || (maxStoreSize >? Z.shiftl 1 30)%Z
      then Err "traffic-control max-store-size must be between 4 MiB and 1 GiB"
      else
        reports ← parseReports (rc_Reports raw);
        let policyCount := length (rc_Devices raw) + length (rc_Rules raw) + length (rc_Targets raw)
                           + (if rc_Global raw then 1 else 0) in
        if maxTrafficControlPolicies <? policyCount then Err "traffic-control policy count exceeds maximum"
        else
          st ← parse_policies raw;
          Ok (Some (MkConfig true (path_clean store) requestedStore checkpoint maxStoreSize
                (MkPortal (rl_Listen (rc_Portal raw)) (rl_URL (rc_Portal raw))) reports st.1))
    end
  end.

(** ** Printing *)

Definition raw_quota (q : QuotaConfig) : RawQuotaConfig :=
  RawQuota (q_TotalBytes q) (q_UploadBytes q) (q_DownloadBytes q) (formatFlexibleDuration (q_Window q))
    (q_OverageUploadBPS q) (q_OverageDownloadBPS q) (Some (q_Portal q)).

Definition raw_policy (policy : Policy) : RawPolicy :=
  MkRawPolicy (po_ID policy) (po_Name policy) (Some (po_Enabled policy)) (po_UploadBPS policy) (po_DownloadBPS policy)
    (raw_quota (po_Quota policy)).

Definition raw_add (raw : RawConfig) (policy : Policy) : RawConfig :=
  let base := raw_policy policy in
  let '(MkRawConfig e s c m p r g ds rs ts) := raw in
  match po_Kind policy with
  | PolicyGlobal => MkRawConfig e s c m p r (Some base) ds rs ts
  | PolicyDevice =>
    MkRawConfig e s c m p r g (ds ++ [RawDevice base (po_MAC policy) (prefix_string <$> po_SourceCIDRs policy)]) rs ts
  | PolicyRule =>
    let sel := po_Rule policy in
    MkRawConfig e s c m p r g ds (rs ++ [RawRule base (rs_Type sel) (rs_Payload sel) (rs_Target sel)]) ts
  | PolicyTarget =>
    MkRawConfig e s c m p r g ds rs (ts ++ [RawTarget base (ts_Kind (po_Target policy)) (ts_Name (po_Target policy))])
  end.

Definition empty_raw : RawConfig :=
  MkRawConfig false [] [] 0 (RawPortal [] []) (RawReports None [] [] [] []) None [] [] [].

Definition Raw (c : option Config) : RawConfig :=
  match c with
  | None => empty_raw
  | Some c =>
    if negb (cf_Enabled c) then empty_raw
    else
      let store := if decide (cf_requestedStore c = []) then cf_StorePath c else cf_requestedStore c in
      let r := cf_Reports c in
      foldl raw_add
        (MkRawConfig true store (formatFlexibleDuration (cf_CheckpointInterval c)) (cf_MaxStoreSize c)
           (RawPortal (pc_Listen (cf_Portal c)) (pc_URL (cf_Portal c)))
           (RawReports (Some (rep_Enabled r)) (formatFlexibleDuration (rep_HourlyRetention r))
              (formatFlexibleDuration (rep_DailyRetention r)) (formatFlexibleDuration (rep_MonthlyRetention r))
              (formatFlexibleDuration (rep_OrphanRetention r)))
           None [] [] [])
        (cf_Policies c)
  end.
End parse.

(** ** Durations: bounds and round trip *)

Lemma duration_unit_pos u m : duration_unit u = Some m → (0 < m)%Z ∧ (Minute | m)%Z.
Proof.
  unfold duration_unit. intros Hm. repeat case_decide; simplify_eq;
    (split; [done|]); [exists 1%Z|exists 60%Z|exists 1440%Z|exists 10080%Z]; done.
Qed.

(** A term that passes the two overflow guards is added exactly. *)
Lemma duration_term_exact n m total : (0 < n)%Z → (0 < m)%Z → (n ≤ Z.quot max_int64 m)%Z → (0 ≤ total)%Z →
  wrap int64 (n * m) = (n * m)%Z ∧ wrap int64 (max_int64 - n * m) = (max_int64 - n * m)%Z
  ∧ ((total ≤ max_int64 - n * m)%Z → wrap int64 (total + n * m) = (total + n * m)%Z).
Proof.
  intros Hn Hm Hq Ht. rewrite Z.quot_div_nonneg in Hq by (done || lia).
  assert (n * m ≤ max_int64)%Z.
  { pose proof (Z.mul_div_le max_int64 m Hm). nia. }
  assert (Hid : ∀ z, (0 ≤ z ≤ max_int64)%Z → wrap int64 z = z).
  { intros z Hz. apply wrap_id; [done|]. unfold in_int, int64, int_min, int_max, max_int64 in *. simpl. lia. }
  split; [apply Hid; nia|]. split; [apply Hid; nia|]. intros. apply Hid. nia.
Qed.

Lemma span_length p s : length (span p s).2 ≤ length s.
Proof. rewrite <- (span_eq p s) at 2. rewrite length_app. lia. Qed.

Lemma duration_terms_spec f value total : length value ≤ f → (0 ≤ total ≤ max_int64)%Z → (Minute | total)%Z →
  match duration_terms f value total with
  | Ok d => (total ≤ d ≤ max_int64)%Z ∧ (Minute | d)%Z ∧ (value ≠ [] → total < d)%Z
  | Err _ => True
  | Panic => False
  end.
Proof.
  revert value total. induction f as [|f IH]; intros value total Hf Ht Hd.
  { destruct value; simpl in Hf; [|lia]. simpl. split; [lia|]. by split. }
  destruct value as [|c v]; [simpl; split; [lia|]; by split|].
  cbn [duration_terms]. pose proof (span_eq is_digit (c :: v)) as Heq.
  destruct (span is_digit (c :: v)) as [digits rest]. cbn [fst snd] in Heq.
  case_decide as Hc; [done|]. apply Decidable.not_or in Hc as [Hdg Hrest].
  destruct (parse_int 64 digits) as [n| |]; [|done|].
  2: done.
  destruct (Z.leb_spec n 0); [done|].
  pose proof (span_length (λ c, negb (is_digit c)) rest) as Hlen.
  destruct (span (λ c, negb (is_digit c)) rest) as [unit rest']. simpl in Hlen.
  destruct (duration_unit unit) as [m|] eqn:Hu; [|done]. apply duration_unit_pos in Hu as [Hm Hmd].
  rewrite Z.gtb_ltb. destruct (Z.ltb_spec (Z.quot max_int64 m) n); [done|].
  destruct (duration_term_exact n m total) as (E1 & E2 & E3); [lia|done|done|lia|].
  rewrite E1, E2, Z.gtb_ltb. destruct (Z.ltb_spec (max_int64 - n * m) total); [done|].
  rewrite E3 by lia. specialize (IH rest' (total + n * m)%Z).
  destruct (duration_terms f rest' (total + n * m)) as [d| |]; [|done|].
  - destruct IH as (Hlo & Hdiv & _); [|nia|apply Z.divide_add_r; [done|by apply Z.divide_mul_r]|].
    { assert (length (digits ++ rest) = S (length v)) as Hl by (by rewrite Heq).
      rewrite length_app in Hl. destruct digits; [done|]. simpl in *. lia. }
    split; [nia|]. split; [done|]. intros _. nia.
  - apply IH; [|nia|apply Z.divide_add_r; [done|by apply Z.divide_mul_r]].
    assert (length (digits ++ rest) = S (length v)) as Hl by (by rewrite Heq).
    rewrite length_app in Hl. destruct digits; [done|]. simpl in *. lia.
Qed.

Lemma digit_facts c : is_digit c = true → (byteZ c <? 128)%Z = true ∧ lower_byte c = c.
Proof.
  unfold is_digit, lower_byte, in_z. intros Hc. zify_bool. split; [apply Z.ltb_lt; lia|].
  destruct (Z.leb_spec 65 (byteZ c)); [lia|done].
Qed.

Lemma lower_id (uni : str → str) s :
  forallb (λ c, (byteZ c <? 128)%Z && bool_decide (lower_byte c = c)) s = true → ToLower uni s = s.
Proof.
  intros Hs. unfold ToLower. assert (is_ascii s = true) as ->.
  { unfold is_ascii. apply forallb_forall. intros c Hc. rewrite forallb_forall in Hs.
    apply Hs in Hc. by apply andb_true_iff in Hc as [? _]. }
  induction s as [|c s IH]; [done|]. simpl in Hs. apply andb_true_iff in Hs as [Hc Hs].
  apply andb_true_iff in Hc as [_ Hc]. apply bool_decide_eq_true in Hc. by rewrite fmap_cons, Hc, IH.
Qed.

(** Reading one number and one unit. *)
Lemma parse_one_term `{GoEnv} n u m : duration_unit [u] = Some m → is_digit u = false → plain u = true →
  lower_byte u = u → (0 < n ≤ max_int64)%Z → (n ≤ Z.quot max_int64 m)%Z →
  parseFlexibleDuration (format_int n ++ [u]) = Ok (n * m)%Z.
Proof.
  intros Hu Hud Hup Hul Hn Hq. apply duration_unit_pos in Hu as Hm. destruct Hm as [Hm _].
  assert (format_int n = format_uint n) as ->.
  { unfold format_int. destruct (Z.ltb_spec n 0); [lia|done]. }
  destruct (format_uint_spec n ltac:(lia)) as (Hv & Hne & Hds).
  unfold parseFlexibleDuration. rewrite lower_id.
  2: { rewrite forallb_app. apply andb_true_iff; split.
       - apply forallb_forall. intros c Hc. rewrite Forall_forall in Hds.
         apply list_elem_of_In, Hds, digit_facts in Hc as [-> ->]. by apply bool_decide_eq_true.
       - simpl. rewrite andb_true_r. unfold plain in Hup. apply andb_true_iff in Hup as [-> _]. by apply bool_decide_eq_true. }
  rewrite trim_space_plain.
  2: { rewrite forallb_app, format_uint_plain by lia. simpl. by rewrite Hup. }
  rewrite decide_False by (by destruct (format_uint n)).
  rewrite length_app. simpl. rewrite Nat.add_1_r. cbn [duration_terms].
  destruct (format_uint n ++ [u]) eqn:E; [by destruct (format_uint n)|]. rewrite <- E.
  rewrite (span_app is_digit (format_uint n) [u]) by done.
  rewrite decide_False by (intros [?|?]; done).
  assert (parse_int 64 (format_uint n) = Ok n) as ->.
  { unfold parse_int. destruct (format_uint n) as [|c t] eqn:Ef; [done|].
    apply Forall_cons in Hds as Hc. destruct Hc as [Hc _].
    rewrite !bool_decide_eq_false_2 by (by intros ->). cbv zeta. cbn [orb]. rewrite <- Ef, parse_uint_format.
    - unfold mbind, result_bind. destruct (Z.ltb_spec n (2 ^ (64 - 1))); [done|]. unfold max_int64 in *. lia.
    - unfold max_int64 in *. lia. }
  destruct (Z.leb_spec n 0); [lia|].
  rewrite <- (app_nil_r [u]), (span_app _ [u] []) by (done || by constructor; [rewrite Hud|]).
  rewrite Hu, Z.gtb_ltb. destruct (Z.ltb_spec (Z.quot max_int64 m) n); [lia|].
  destruct (duration_term_exact n m 0) as (E1 & E2 & E3); [lia|done|done|done|].
  rewrite E1, E2, Z.gtb_ltb. destruct (Z.ltb_spec (max_int64 - n * m) 0).
  { rewrite Z.quot_div_nonneg in Hq by (done || lia). pose proof (Z.mul_div_le max_int64 m Hm). nia. }
  rewrite E3 by lia. destruct (length (format_uint n)); simpl; f_equal; lia.
Qed.

Lemma quot_le_max d m : (0 < m)%Z → (0 < d ≤ max_int64)%Z →
  (0 ≤ Z.quot d m ≤ max_int64)%Z ∧ (Z.quot d m ≤ Z.quot max_int64 m)%Z
  ∧ (Z.rem d m = 0 → 0 < Z.quot d m ∧ Z.quot d m * m = d)%Z.
Proof.
  intros Hm Hd. rewrite !Z.quot_div_nonneg, Z.rem_mod_nonneg by (unfold max_int64 in *; lia).
  pose proof (Z.div_mod d m ltac:(lia)). pose proof (Z.mod_pos_bound d m ltac:(lia)).
  split; [|split].
  - split; [apply Z.div_pos; lia|]. apply Z.div_le_upper_bound; nia.
  - apply Z.div_le_mono; lia.
  - intros Hz. split; [|lia]. assert (0 ≤ d / m)%Z by (apply Z.div_pos; lia). nia.
Qed.

Lemma parse_format_minutes `{GoEnv} d : (0 < d ≤ max_int64)%Z → (Minute | d)%Z →
  parseFlexibleDuration (formatFlexibleDuration d) = Ok d.
Proof.
  intros Hd Hdiv. unfold formatFlexibleDuration. destruct (Z.leb_spec d 0); [lia|].
  destruct (quot_le_max d Day ltac:(done) Hd) as (D1 & D2 & D3).
  destruct (quot_le_max d Hour ltac:(done) Hd) as (H1 & H2 & H3).
  destruct (quot_le_max d Minute ltac:(done) Hd) as (M1 & M2 & M3).
  destruct (Z.eqb_spec (Z.rem d Day) 0) as [E|_].
  { destruct (D3 E) as [Hp Hm]. rewrite <- Hm at 2. apply (parse_one_term _ "d"%char); done || lia. }
  destruct (Z.eqb_spec (Z.rem d Hour) 0) as [E|_].
  { destruct (H3 E) as [Hp Hm]. rewrite <- Hm at 2. apply (parse_one_term _ "h"%char); done || lia. }
  destruct (Z.eqb_spec (Z.rem d Minute) 0) as [E|E].
  { destruct (M3 E) as [Hp Hm]. rewrite <- Hm at 2. apply (parse_one_term _ "m"%char); done || lia. }
  exfalso. apply E. by apply Z.rem_divide.
Qed.

Lemma parseFlexibleDuration_bounds `{GoEnv} s :
  match parseFlexibleDuration s with
  | Ok d => (0 < d ≤ max_int64)%Z ∧ (Minute | d)%Z
  | Err _ => True
  | Panic => False
  end.
Proof.
  unfold parseFlexibleDuration. case_decide as Hne; [done|].
  set (v := trim_space (ToLower unicode_lower s)) in *.
  pose proof (duration_terms_spec (length v) v 0 ltac:(done) ltac:(unfold max_int64; lia) (Z.divide_0_r _)) as Hs.
  destruct (duration_terms (length v) v 0); [|done|done]. destruct Hs as (? & ? & Hpos).
  split; [specialize (Hpos Hne); lia|done].
Qed.

(** Durations survive a round trip through the configuration document. A
    duration the parser accepts is a positive number of whole minutes that
    fits in an [int64] (so no overflow goes unnoticed), printing it and parsing
    the text gives it back, and any other positive duration is rounded up to
    the next whole minute, never to an unparsable or shorter one. *)
Theorem duration_roundtrip `{GoEnv} (s : str) (d : Z) :
  (parseFlexibleDuration s = Ok d →
     (0 < d ≤ max_int64)%Z ∧ (Minute | d)%Z ∧ parseFlexibleDuration (formatFlexibleDuration d) = Ok d)
  ∧ ((0 < d ≤ max_int64 - Minute)%Z →
     ∃ d', parseFlexibleDuration (formatFlexibleDuration d) = Ok d' ∧ (d ≤ d' < d + Minute)%Z).
Proof.
  split.
  - intros Hp. pose proof (parseFlexibleDuration_bounds s) as Hb. rewrite Hp in Hb. destruct Hb as [Hb Hd].
    split; [done|]. split; [done|]. by apply parse_format_minutes.
  - intros Hd. destruct (Znumtheory.Zdivide_dec Minute d) as [Hdiv|Hnd].
    { exists d. split; [apply parse_format_minutes; [unfold Minute, Second in *; lia|done]|unfold Minute, Second; lia]. }
    assert (Hrem : ∀ m, (Minute | m)%Z → (0 < m)%Z → (Z.rem d m =? 0)%Z = false).
    { intros m Hm Hpos. apply Z.eqb_neq. intros E. apply Hnd. apply Z.rem_divide in E; [|lia]. by etrans. }
    unfold formatFlexibleDuration. destruct (Z.leb_spec d 0); [lia|].
    rewrite (Hrem Day), (Hrem Hour), (Hrem Minute) by first [done|by exists 1440%Z|by exists 60%Z|by exists 1%Z]. simpl negb. cbv iota.
    rewrite Z.quot_div_nonneg by (unfold Minute, Second; lia).
    pose proof (Z.div_mod d Minute ltac:(done)) as Hdm. pose proof (Z.mod_pos_bound d Minute ltac:(done)).
    assert (0 ≤ d / Minute)%Z by (apply Z.div_pos; [lia|done]).
    assert (Hne : (d mod Minute ≠ 0)%Z).
    { intros E. apply Hnd. apply Z.mod_divide; done. }
    destruct (Z.ltb_spec (d / Minute + 1) 1); [lia|].
    exists ((d / Minute + 1) * Minute)%Z. split; [|unfold Minute, Second in *; lia].
    apply (parse_one_term _ "m"%char); try done; [unfold max_int64, Minute, Second in *; lia|].
    rewrite Z.quot_div_nonneg by done. apply Z.div_le_lower_bound; [done|]. unfold max_int64, Minute, Second in *. lia.
Qed.

Lemma duration_roundtrip_witness :
  let id := λ s : str, s in
  let env := Build_GoEnv id id id (λ _, None) (λ _, []) id in
  parseFlexibleDuration (formatFlexibleDuration (90 * Minute)) = Ok (90 * Minute)%Z.
Proof.
  intros id env. apply (duration_roundtrip (lit "1h30m") (90 * Minute)). vm_compute. reflexivity.
Defined.

(** ** What a parsed configuration satisfies *)

Definition has_quota (q : QuotaConfig) : bool :=
  (q_TotalBytes q >? 0)%Z || (q_UploadBytes q >? 0)%Z || (q_DownloadBytes q >? 0)%Z.

Record quota_valid (q : QuotaConfig) : Prop := {
  qv_bytes : (0 ≤ q_TotalBytes q ∧ 0 ≤ q_UploadBytes q ∧ 0 ≤ q_DownloadBytes q)%Z;
  qv_rates : (0 ≤ q_OverageUploadBPS q ∧ 0 ≤ q_OverageDownloadBPS q)%Z;
  qv_limited : has_quota q = true →
    (minQuotaWindow ≤ q_Window q ≤ maxQuotaWindow)%Z ∧ (Minute | q_Window q)%Z
    ∧ (0 < q_OverageUploadBPS q ∧ 0 < q_OverageDownloadBPS q)%Z;
  qv_free : has_quota q = false → q_Window q = 0%Z
}.

Definition kind_valid `{GoEnv} (p : Policy) : Prop :=
  match po_Kind p with
  | PolicyGlobal => True
  | PolicyDevice => po_SourceCIDRs p ≠ [] ∧ Forall (λ c, prefix_valid c = true ∧ Masked c = c) (po_SourceCIDRs p)
    ∧ (po_MAC p = [] ∨ macPattern (po_MAC p) = true)
  | PolicyRule => rs_Type (po_Rule p) ≠ [] ∧ rs_Target (po_Rule p) ≠ []
    ∧ ∃ t l g, po_Rule p = CanonicalRule t l g
  | PolicyTarget => ts_Name (po_Target p) ≠ [] ∧ (ts_Kind (po_Target p) = lit "proxy" ∨ ts_Kind (po_Target p) = lit "group")
  end.

Record policy_valid `{GoEnv} (p : Policy) : Prop := {
  pv_id : idPattern (po_ID p) = true;
  pv_rates : (0 ≤ po_UploadBPS p ∧ 0 ≤ po_DownloadBPS p)%Z;
  pv_quota : quota_valid (po_Quota p);
  pv_name : trim_space (po_Name p) = po_Name p;
  pv_kind : kind_valid p
}.

Definition retention_valid (d : Z) : Prop := (Day ≤ d ≤ 10 * 365 * Day)%Z.

Record config_valid `{GoEnv} (c : Config) : Prop := {
  cv_enabled : cf_Enabled c = true;
  cv_store : cf_requestedStore c ≠ [];
  cv_checkpoint : (Minute ≤ cf_CheckpointInterval c ≤ Hour)%Z;
  cv_size : (2 ^ 22 ≤ cf_MaxStoreSize c ≤ 2 ^ 30)%Z;
  cv_reports : Forall retention_valid [rep_HourlyRetention (cf_Reports c); rep_DailyRetention (cf_Reports c);
                                       rep_MonthlyRetention (cf_Reports c); rep_OrphanRetention (cf_Reports c)];
  cv_policies : Forall policy_valid (cf_Policies c);
  cv_ids : NoDup (po_ID <$> cf_Policies c);
  cv_count : length (cf_Policies c) ≤ 256
}.

Section valid.
Context `{GoEnv}.

Lemma parseQuota_valid raw q : parseQuota raw = Ok q → quota_valid q.
Proof.
  unfold parseQuota. cbn [q_TotalBytes q_UploadBytes q_DownloadBytes q_OverageUploadBPS q_OverageDownloadBPS q_Portal].
  destruct (_ || _ || _ || _ || _) eqn:Hneg; [done|]. zify_bool. destruct (_ || _ || _) eqn:Hq.
  - pose proof (parseFlexibleDuration_bounds (rq_Window raw)) as Hb.
    destruct (parseFlexibleDuration (rq_Window raw)) as [w| |]; [|done|done].
    destruct ((w <? minQuotaWindow)%Z || _) eqn:Hw; [done|]. intros [= <-]. destruct Hb as [_ Hdiv].
    rewrite Z.gtb_ltb in Hw. zify_bool. split; simpl; [lia| | |].
    + split; case_match; zify_bool; unfold DefaultOverageUploadBPS, DefaultOverageDownloadBPS; lia.
    + intros _. split; [lia|]. split; [done|].
      split; case_match; zify_bool; unfold DefaultOverageUploadBPS, DefaultOverageDownloadBPS; lia.
    + unfold has_quota. simpl. congruence.
  - case_decide; [|done]. intros [= <-]. split; simpl; [lia|lia| |done]. unfold has_quota. simpl. congruence.
Qed.

Lemma format_duration_nil d : (0 < d ≤ max_int64)%Z → (Minute | d)%Z → formatFlexibleDuration d ≠ [].
Proof using H.
  intros Hd Hdiv Hn. pose proof (parse_format_minutes d Hd Hdiv) as Hp. rewrite Hn in Hp. vm_compute in Hp. done.
Qed.

(** A valid quota is printed as a document that parses to it. *)
Lemma parseQuota_raw q : quota_valid q → parseQuota (raw_quota q) = Ok q.
Proof.
  intros [Hb Hr Hl Hf]. unfold parseQuota, raw_quota.
  cbn [q_TotalBytes q_UploadBytes q_DownloadBytes q_OverageUploadBPS q_OverageDownloadBPS q_Portal
       rq_TotalBytes rq_UploadBytes rq_DownloadBytes rq_OverageUploadBPS rq_OverageDownloadBPS rq_Portal rq_Window default].
  repeat match goal with |- context [(?a <? 0)%Z] => destruct (Z.ltb_spec a 0); [lia|] end. simpl orb.
  fold (has_quota q). destruct (has_quota q) eqn:Hq.
  - destruct (Hl eq_refl) as (Hw & Hdiv & Hu & Hd). rewrite parse_format_minutes; [|unfold max_int64, minQuotaWindow, maxQuotaWindow, Day, Hour, Minute, Second in *; lia|done].
    rewrite Z.gtb_ltb. destruct (Z.ltb_spec (q_Window q) minQuotaWindow); [lia|].
    destruct (Z.ltb_spec maxQuotaWindow (q_Window q)); [lia|]. simpl orb. cbv iota.
    destruct (Z.eqb_spec (q_OverageUploadBPS q) 0); [lia|]. destruct (Z.eqb_spec (q_OverageDownloadBPS q) 0); [lia|].
    by destruct q.
  - rewrite Hf by done. destruct q. simpl in *. by rewrite Hf.
Qed.

Lemma parsePolicy_spec kind raw p : parsePolicy kind raw = Ok p →
  ∃ q, p = MkPolicy (trim_space (rp_ID raw)) (trim_space (rp_Name raw)) kind (default true (rp_Enabled raw))
             (rp_UploadBPS raw) (rp_DownloadBPS raw) q [] [] no_rule no_target
    ∧ quota_valid q ∧ (0 ≤ rp_UploadBPS raw ∧ 0 ≤ rp_DownloadBPS raw)%Z.
Proof.
  unfold parsePolicy. destruct (_ || _) eqn:Hr; [done|]. zify_bool.
  intros (q & Hq & [= <-])%result_bind_Ok. exists q. split; [done|]. split; [by eapply parseQuota_valid|lia].
Qed.

Lemma parsePolicy_raw p : policy_valid p → trim_space (po_ID p) = po_ID p →
  parsePolicy (po_Kind p) (raw_policy p) =
  Ok (MkPolicy (po_ID p) (po_Name p) (po_Kind p) (po_Enabled p) (po_UploadBPS p) (po_DownloadBPS p) (po_Quota p)
        [] [] no_rule no_target).
Proof.
  intros [_ Hr Hq Hn _] Hid. unfold parsePolicy, raw_policy. simpl.
  destruct (Z.ltb_spec (po_UploadBPS p) 0); [lia|]. destruct (Z.ltb_spec (po_DownloadBPS p) 0); [lia|]. simpl.
  rewrite parseQuota_raw by done. simpl. by rewrite Hid, Hn.
Qed.
End valid.

Section steps.
Context `{GoEnvLaws}.

Lemma idPattern_plain s : idPattern s = true → s ≠ [] ∧ forallb plain s = true.
Proof.
  assert (Hp : ∀ c, is_alnum c || bool_decide (c ∈ lit "._-") = true → plain c = true).
  { intros [[] [] [] [] [] [] [] []]; vm_compute; congruence. }
  unfold idPattern. destruct s as [|c t]; [done|]. intros Hs. zify_bool. split; [done|].
  simpl. rewrite Hp by (apply orb_true_iff; by left). simpl. apply forallb_forall. intros d Hd.
  apply Hp. match goal with Hall : forallb _ t = true |- _ => rewrite forallb_forall in Hall; by apply Hall end.
Qed.

Lemma idPattern_trim s : idPattern s = true → trim_space s = s.
Proof. intros [_ Hp]%idPattern_plain. by apply trim_space_plain. Qed.

Lemma addPolicy_Ok st p st' : addPolicy st p = Ok st' ↔
  idPattern (po_ID p) = true ∧ po_ID p ∉ st.2 ∧ st' = (st.1 ++ [p], {[po_ID p]} ∪ st.2).
Proof.
  unfold addPolicy. destruct st as [ps ids]. destruct (idPattern (po_ID p)); simpl; [|naive_solver].
  case_decide; naive_solver.
Qed.

Lemma with_id_same p id : po_ID p ≠ [] → with_id p id = p.
Proof. intros. unfold with_id. by rewrite decide_False. Qed.

Lemma context_Ok {A} msg (r : result A) a : context msg r = Ok a ↔ r = Ok a.
Proof. by destruct r. Qed.

Lemma parse_global_spec st raw st' : parse_global st raw = Ok st' →
  ∃ p, po_Kind p = PolicyGlobal ∧ policy_valid p ∧ addPolicy st p = Ok st'
       ∧ parse_global st (raw_policy p) = Ok st'.
Proof.
  unfold parse_global. intros (p0 & Hp0%context_Ok & Hadd)%result_bind_Ok.
  apply parsePolicy_spec in Hp0 as (q & -> & Hq & Hr). set (p := with_id _ _) in Hadd.
  assert (Hk : po_Kind p = PolicyGlobal) by (unfold p, with_id; by case_decide).
  assert (Hid : idPattern (po_ID p) = true) by (by apply addPolicy_Ok in Hadd as [? _]).
  assert (Hv : policy_valid p).
  { split; [done|..]; unfold p, with_id; case_decide; simpl; auto using trim_space_idem; done. }
  exists p. split; [done|]. split; [done|]. split; [done|].
  rewrite <- Hk at 1. rewrite parsePolicy_raw by (done || by apply idPattern_trim).
  simpl. rewrite with_id_same by (simpl; by apply idPattern_plain).
  rewrite <- Hadd. f_equal. unfold p, with_id. by case_decide.
Qed.

Lemma parse_target_spec st raw st' : parse_target st raw = Ok st' →
  ∃ p, po_Kind p = PolicyTarget ∧ policy_valid p ∧ addPolicy st p = Ok st'
       ∧ parse_target st (RawTarget (raw_policy p) (ts_Kind (po_Target p)) (ts_Name (po_Target p))) = Ok st'.
Proof.
  unfold parse_target. intros (p0 & Hp0%context_Ok & Hrest)%result_bind_Ok.
  apply parsePolicy_spec in Hp0 as (q & -> & Hq & Hr).
  set (kind := ToLower unicode_lower (trim_space (rt_Kind raw))) in *.
  destruct (negb (bool_decide _)) eqn:Hkind; [done|].
  apply negb_false_iff, bool_decide_eq_true in Hkind. case_decide as Hname; [done|].
  match type of Hrest with addPolicy st ?x = _ => set (p := x) in Hrest end.
  assert (Hid : idPattern (po_ID p) = true) by (by apply addPolicy_Ok in Hrest as [? _]).
  assert (Hk : po_Kind p = PolicyTarget) by (unfold p, with_id; simpl; by case_decide).
  assert (Hv : policy_valid p).
  { split; [done|..]; unfold p, with_id; case_decide; simpl; auto using trim_space_idem; done. }
  exists p. split; [done|]. split; [done|]. split; [done|].
  rewrite <- Hk at 1. rewrite parsePolicy_raw by (done || by apply idPattern_trim). simpl.
  assert (Hlow : ToLower unicode_lower (trim_space kind) = kind) by (destruct Hkind as [-> | ->]; reflexivity).
  rewrite Hlow, bool_decide_eq_true_2 by done. simpl. rewrite trim_space_idem.
  rewrite decide_False by done. rewrite with_id_same by (simpl; by apply idPattern_plain).
  rewrite <- Hrest. f_equal. unfold p, with_id. simpl. by case_decide.
Qed.

Definition rule_stable (p : Policy) : Prop :=
  CanonicalRule (rs_Type (po_Rule p)) (rs_Payload (po_Rule p)) (rs_Target (po_Rule p)) = po_Rule p.

Lemma parse_rule_spec st raw st' : parse_rule st raw = Ok st' →
  ∃ p, po_Kind p = PolicyRule ∧ policy_valid p ∧ addPolicy st p = Ok st'
       ∧ (rule_stable p → parse_rule st (RawRule (raw_policy p) (rs_Type (po_Rule p)) (rs_Payload (po_Rule p)) (rs_Target (po_Rule p))) = Ok st').
Proof.
  unfold parse_rule. intros (p0 & Hp0%context_Ok & Hrest)%result_bind_Ok.
  apply parsePolicy_spec in Hp0 as (q & -> & Hq & Hr).
  set (sel := CanonicalRule (rr_Type raw) (rr_Payload raw) (rr_Target raw)) in *.
  case_decide as Hne; [done|]. apply Decidable.not_or in Hne.
  match type of Hrest with addPolicy st ?x = _ => set (p := x) in Hrest end.
  assert (Hid : idPattern (po_ID p) = true) by (by apply addPolicy_Ok in Hrest as [? _]).
  assert (Hk : po_Kind p = PolicyRule) by (unfold p, with_id; simpl; by case_decide).
  assert (Hsel : po_Rule p = sel) by (unfold p, with_id; by case_decide).
  assert (Hv : policy_valid p).
  { split; [done|..]; unfold p, with_id; case_decide; simpl; auto using trim_space_idem; split_and!; naive_solver. }
  exists p. split; [done|]. split; [done|]. split; [done|]. intros Hst. unfold rule_stable in Hst.
  rewrite <- Hk at 1. rewrite parsePolicy_raw by (done || by apply idPattern_trim).
  cbn [context mbind result_bind rr_Type rr_Payload rr_Target]. rewrite Hst, Hsel. rewrite decide_False by (intros [?|?]; naive_solver).
  rewrite with_id_same by (simpl; by apply idPattern_plain).
  rewrite <- Hrest. f_equal. unfold p, with_id. simpl. by case_decide.
Qed.

(** The prefixes a device keeps: masked, and read back from their text. *)
Definition cidr_good (c : Prefix) : Prop :=
  prefix_valid c = true ∧ Masked c = c ∧ parse_cidr (prefix_string c) = Ok c.

Lemma parse_cidr_good s c : parse_cidr s = Ok c → cidr_good c.
Proof using H0.
  unfold parse_cidr at 1. destruct (ParsePrefix (trim_space s)) as [p|] eqn:Hp; [|done]. intros [= <-].
  apply ParsePrefix_valid in Hp as (Hv & Hz & Hw). destruct (Masked_idem p Hv Hz) as (Hv' & Hz' & Hm).
  split; [done|]. split; [done|]. unfold parse_cidr.
  assert (wf_addr (p_addr (Masked p))) by (by apply Masked_addr).
  rewrite trim_space_plain by (by apply prefix_string_plain).
  by rewrite ParsePrefix_string, Hm.
Qed.

Abbreviation cidr_step := (λ (acc : list Prefix) value, c ← parse_cidr value; Ok (acc ++ [c])).

Lemma parse_cidrs_good l acc cs : foldM cidr_step acc l = Ok cs →
  ∃ cs', cs = acc ++ cs' ∧ Forall cidr_good cs'.
Proof using H0.
  revert acc. induction l as [|s l IH]; intros acc; simpl.
  - intros [= <-]. exists []. by rewrite app_nil_r.
  - intros (a & (c & Hc & [= <-])%result_bind_Ok & Hl)%result_bind_Ok. apply IH in Hl as (cs' & -> & Hg).
    exists (c :: cs'). split; [by rewrite <- app_assoc|]. constructor; [by eapply parse_cidr_good|done].
Qed.

Lemma parse_cidrs_raw cs acc : Forall cidr_good cs →
  foldM cidr_step acc (prefix_string <$> cs) = Ok (acc ++ cs).
Proof.
  intros Hg. revert acc. induction Hg as [|c cs (_ & _ & Hc) _ IH]; intros acc; [by rewrite app_nil_r|].
  rewrite fmap_cons. cbn [foldM]. rewrite Hc. cbn [mbind result_bind]. rewrite IH. by rewrite <- app_assoc.
Qed.

Lemma macPattern_plain s : macPattern s = true → forallb plain s = true ∧ s ≠ [].
Proof.
  assert (Hp : ∀ (i : nat) c, (if (i mod 3 =? 2)%nat then bool_decide (c = ":"%char) else is_hex c) = true → plain c = true).
  { intros i c. destruct (i mod 3 =? 2)%nat; [by intros ->%bool_decide_eq_true|].
    destruct c as [[] [] [] [] [] [] [] []]; vm_compute; congruence. }
  unfold macPattern. intros Hs. zify_bool. apply Nat.eqb_eq in H1. split; [|by intros ->].
  apply forallb_forall. intros c Hc%list_elem_of_In%list_elem_of_lookup. destruct Hc as [i Hi].
  rewrite forallb_forall in H2. apply (Hp i). apply (H2 (i, c)). apply list_elem_of_In, list_elem_of_lookup.
  exists i. apply lookup_lt_Some in Hi as Hlt. rewrite H1 in Hlt. rewrite lookup_zip_with, Hi.
  rewrite lookup_seq_lt by done. done.
Qed.

Lemma parse_device_spec st raw st' : parse_device st raw = Ok st' →
  ∃ p, po_Kind p = PolicyDevice ∧ policy_valid p ∧ addPolicy st p = Ok st'
       ∧ parse_device st (RawDevice (raw_policy p) (po_MAC p) (prefix_string <$> po_SourceCIDRs p)) = Ok st'.
Proof using H0.
  unfold parse_device at 1. intros (p0 & Hp0%context_Ok & Hrest)%result_bind_Ok.
  apply parsePolicy_spec in Hp0 as (q & -> & Hq & Hr).
  set (mac := if decide (rd_MAC raw = []) then _ else _) in Hrest.
  destruct (negb (bool_decide (rd_MAC raw = [])) && negb (macPattern mac)) eqn:Hmac; [done|].
  apply result_bind_Ok in Hrest as (cidrs & Hcidrs & Hrest).
  apply parse_cidrs_good in Hcidrs as (cs & -> & Hgood). simpl in Hrest.
  case_decide as Hne; [by case_decide|].
  match type of Hrest with addPolicy st ?x = _ => set (p := x) in Hrest end.
  assert (Hid : idPattern (po_ID p) = true) by (by apply addPolicy_Ok in Hrest as [? _]).
  assert (Hk : po_Kind p = PolicyDevice) by (unfold p, with_id; simpl; by case_decide).
  assert (Hm : mac = [] ∨ macPattern mac = true ∧ ToLower unicode_lower mac = mac).
  { unfold mac in *. case_decide as Hz; [by left|right]. rewrite bool_decide_eq_false_2 in Hmac by done.
    simpl in Hmac. apply negb_false_iff in Hmac. split; [done|apply ToLower_idem]. }
  assert (Hv : policy_valid p).
  { split; [done|..]; unfold p, with_id; case_decide; simpl; auto using trim_space_idem; (split; [done|]; split;
      [eapply Forall_impl; [exact Hgood|]; by intros c (? & ? & _)|tauto]). }
  exists p. split; [done|]. split; [done|]. split; [done|]. unfold parse_device.
  rewrite <- Hk at 1. cbn [rd_policy rd_MAC rd_SourceCIDRs].
  rewrite parsePolicy_raw by (done || by apply idPattern_trim). cbn [context mbind result_bind].
  assert (Hmp : po_MAC p = mac) by done. assert (Hcp : po_SourceCIDRs p = cs) by done. rewrite Hmp, Hcp.
  assert (Hmac2 : (if decide (mac = []) then [] else ToLower unicode_lower (trim_space mac)) = mac).
  { case_decide as Hz; [done|]. destruct Hm as [?|[Hpat Hlow]]; [done|].
    rewrite trim_space_plain by (by apply macPattern_plain). done. }
  rewrite Hmac2. destruct (negb (bool_decide (mac = [])) && negb (macPattern mac)) eqn:Hc2.
  { destruct Hm as [Hz|[Hpat _]]; [by rewrite Hz in Hc2|]. by rewrite Hpat, andb_false_r in Hc2. }
  rewrite parse_cidrs_raw by done. cbn [mbind result_bind app]. rewrite decide_False by done.
  rewrite with_id_same by (simpl; by apply idPattern_plain).
  rewrite <- Hrest. unfold p, with_id. cbn [po_ID po_Name po_Kind po_Enabled po_UploadBPS po_DownloadBPS po_Quota po_Rule po_Target].
  destruct (decide (trim_space (rp_ID (rd_policy raw)) = [])); done.
Qed.

(** *** The loops *)

Definition ids_ok (st : list Policy * gset str) : Prop :=
  NoDup (po_ID <$> st.1) ∧ ∀ i, i ∈ st.2 ↔ i ∈ po_ID <$> st.1.

Lemma ids_ok_nil : ids_ok ([], ∅).
Proof. clear H0 H. split; [apply NoDup_nil_2|]. intros i. simpl. set_solver. Qed.

Lemma addPolicy_ids st p st' : addPolicy st p = Ok st' → ids_ok st → ids_ok st'.
Proof.
  clear H0 H.
  intros (Hid & Hnew & ->)%addPolicy_Ok [Hnd Hset]. split; simpl; [|intros i]; rewrite fmap_app.
  - apply NoDup_app. split; [done|]. split; [|apply NoDup_singleton].
    intros x Hx Hx'. apply list_elem_of_singleton in Hx' as ->. by apply Hnew, Hset.
  - rewrite elem_of_app, <- Hset. set_solver.
Qed.

Lemma foldM_policies {X} (f : list Policy * gset str → X → result (list Policy * gset str))
    (g : Policy → X) (K : PolicyKind) (S : Policy → Prop) :
  (∀ st x st', f st x = Ok st' →
     ∃ p, po_Kind p = K ∧ policy_valid p ∧ addPolicy st p = Ok st' ∧ (S p → f st (g p) = Ok st')) →
  ∀ l st st', foldM f st l = Ok st' →
    ∃ ps, st'.1 = st.1 ++ ps ∧ length ps = length l ∧ Forall (λ p, po_Kind p = K ∧ policy_valid p) ps
          ∧ (ids_ok st → ids_ok st') ∧ (Forall S ps → foldM f st (g <$> ps) = Ok st').
Proof.
  intros Hf. induction l as [|x l IH]; intros st st'; simpl.
  - intros [= <-]. exists []. rewrite app_nil_r. by split_and!; [done|done|constructor|done|].
  - intros (st1 & Hst1 & Hl)%result_bind_Ok. destruct (Hf _ _ _ Hst1) as (p & Hk & Hv & Hadd & Hre).
    destruct (IH _ _ Hl) as (ps & Heq & Hlen & Hps & Hids & Hback).
    pose proof (addPolicy_ids _ _ _ Hadd) as Hids1. apply addPolicy_Ok in Hadd as (_ & _ & Hst).
    exists (p :: ps). split_and!.
    + rewrite Heq, Hst. simpl. by rewrite <- app_assoc.
    + simpl. by rewrite Hlen.
    + by constructor.
    + intros Hst0. by apply Hids, Hids1.
    + intros [Hp Hps']%Forall_cons. rewrite fmap_cons. cbn [foldM]. rewrite (Hre Hp). by apply Hback.
Qed.

Definition raw_device p := RawDevice (raw_policy p) (po_MAC p) (prefix_string <$> po_SourceCIDRs p).
Definition raw_rule p :=
  RawRule (raw_policy p) (rs_Type (po_Rule p)) (rs_Payload (po_Rule p)) (rs_Target (po_Rule p)).
Definition raw_target p := RawTarget (raw_policy p) (ts_Kind (po_Target p)) (ts_Name (po_Target p)).

Lemma raw_add_devices ps e s c m p r g ds rs ts : Forall (λ x, po_Kind x = PolicyDevice) ps →
  foldl raw_add (MkRawConfig e s c m p r g ds rs ts) ps = MkRawConfig e s c m p r g (ds ++ (raw_device <$> ps)) rs ts.
Proof.
  intros Hk. revert ds. induction Hk as [|x ps Hx _ IH]; intros ds; [by rewrite app_nil_r|].
  simpl. rewrite Hx, IH. by rewrite <- app_assoc.
Qed.

Lemma raw_add_rules ps e s c m p r g ds rs ts : Forall (λ x, po_Kind x = PolicyRule) ps →
  foldl raw_add (MkRawConfig e s c m p r g ds rs ts) ps = MkRawConfig e s c m p r g ds (rs ++ (raw_rule <$> ps)) ts.
Proof.
  intros Hk. revert rs. induction Hk as [|x ps Hx _ IH]; intros rs; [by rewrite app_nil_r|].
  simpl. rewrite Hx, IH. by rewrite <- app_assoc.
Qed.

Lemma raw_add_targets ps e s c m p r g ds rs ts : Forall (λ x, po_Kind x = PolicyTarget) ps →
  foldl raw_add (MkRawConfig e s c m p r g ds rs ts) ps = MkRawConfig e s c m p r g ds rs (ts ++ (raw_target <$> ps)).
Proof.
  intros Hk. revert ts. induction Hk as [|x ps Hx _ IH]; intros ts; [by rewrite app_nil_r|].
  simpl. rewrite Hx, IH. by rewrite <- app_assoc.
Qed.

(** The policies of a document: at most one global policy, then the devices,
    the rules and the targets, in the document's order. *)
Lemma parse_policies_spec raw st : parse_policies raw = Ok st →
  ∃ gs ds rs ts, st.1 = gs ++ ds ++ rs ++ ts
    ∧ length gs = (if rc_Global raw then 1 else 0) ∧ length ds = length (rc_Devices raw)
    ∧ length rs = length (rc_Rules raw) ∧ length ts = length (rc_Targets raw)
    ∧ Forall policy_valid st.1 ∧ ids_ok st
    ∧ (∀ base, ∃ raw', foldl raw_add base st.1 = raw'
        ∧ (rc_Global base = None → rc_Devices base = [] → rc_Rules base = [] → rc_Targets base = [] →
           raw' = MkRawConfig (rc_Enabled base) (rc_Store base) (rc_CheckpointInterval base) (rc_MaxStoreSize base)
                    (rc_Portal base) (rc_Reports base) (raw_policy <$> head gs) (raw_device <$> ds) (raw_rule <$> rs) (raw_target <$> ts)
           ∧ (Forall (λ p, po_Kind p = PolicyRule → rule_stable p) st.1 → parse_policies raw' = Ok st))).
Proof using H0.
  unfold parse_policies at 1. intros (st1 & H1 & (st2 & H2 & (st3 & H3 & H4)%result_bind_Ok)%result_bind_Ok)%result_bind_Ok.
  assert (Hg : ∃ gs, st1.1 = gs ∧ length gs = (if rc_Global raw then 1 else 0)
    ∧ Forall (λ p, po_Kind p = PolicyGlobal ∧ policy_valid p) gs ∧ ids_ok st1
    ∧ match raw_policy <$> head gs with Some g => parse_global ([], ∅) g | None => Ok ([], ∅) end = Ok st1).
  { destruct (rc_Global raw) as [g|].
    - apply parse_global_spec in H1 as (p & Hk & Hv & Hadd & Hre).
      assert (ids_ok st1) by (by eapply addPolicy_ids, ids_ok_nil).
      apply addPolicy_Ok in Hadd as (_ & _ & ->). exists [p]. by split_and!; [done|done|constructor|done|].
    - injection H1 as <-. exists []. by split_and!; [done|done|constructor|apply ids_ok_nil|]. }
  destruct Hg as (gs & Hgs & Hgl & Hgv & Hi1 & Hgr).
  destruct (foldM_policies parse_device raw_device PolicyDevice (λ _, True)) with (l := rc_Devices raw) (st := st1) (st' := st2)
    as (ds & E2 & L2 & V2 & I2 & B2); [|done|].
  { intros st0 x st' (p & ? & ? & ? & ?)%parse_device_spec. eauto 10. }
  destruct (foldM_policies parse_rule raw_rule PolicyRule rule_stable) with (l := rc_Rules raw) (st := st2) (st' := st3)
    as (rs & E3 & L3 & V3 & I3 & B3); [apply parse_rule_spec|done|].
  destruct (foldM_policies parse_target raw_target PolicyTarget (λ _, True)) with (l := rc_Targets raw) (st := st3) (st' := st)
    as (ts & E4 & L4 & V4 & I4 & B4); [|done|].
  { intros st0 x st' (p & ? & ? & ? & ?)%parse_target_spec. eauto 10. }
  exists gs, ds, rs, ts.
  assert (Est : st.1 = gs ++ ds ++ rs ++ ts) by (by rewrite E4, E3, E2, Hgs, !app_assoc).
  assert (Hvalid : ∀ K l, Forall (λ p, po_Kind p = K ∧ policy_valid p) l → Forall policy_valid l ∧ Forall (λ p, po_Kind p = K) l).
  { intros K l. by rewrite <- Forall_and; intros Hl; eapply Forall_impl; [exact Hl|]; intros ? [??]. }
  apply Hvalid in Hgv as [Vg Kg], V2 as [Vd Kd], V3 as [Vr Kr], V4 as [Vt Kt].
  split_and!; try done; [rewrite Est; by rewrite !Forall_app|by apply I4, I3, I2|].
  intros base. eexists. split; [reflexivity|]. destruct base as [e s c m p r g bds brs bts]. simpl.
  intros -> -> -> ->. rewrite Est, !foldl_app.
  assert (Hgbase : foldl raw_add (MkRawConfig e s c m p r None [] [] []) gs = MkRawConfig e s c m p r (raw_policy <$> head gs) [] [] []).
  { destruct gs as [|g [|? ?]]; [done| |simpl in Hgl; destruct (rc_Global raw); lia].
    apply Forall_cons in Kg as [Kg _]. simpl. by rewrite Kg. }
  rewrite Hgbase, raw_add_devices, raw_add_rules, raw_add_targets by done. split; [done|].
  intros Hst. rewrite !Forall_app in Hst. destruct Hst as (_ & _ & Hst & _).
  assert (Hst' : Forall rule_stable rs).
  { apply Forall_forall. intros x Hx. rewrite Forall_forall in Hst, Kr. by apply Hst, Kr. }
  unfold parse_policies. cbn [rc_Global rc_Devices rc_Rules rc_Targets app].
  rewrite Hgr. cbn [mbind result_bind]. rewrite B2 by (by apply Forall_true). cbn [mbind result_bind].
  rewrite B3 by done. cbn [mbind result_bind]. by apply B4, Forall_true.
Qed.
End steps.

Section roundtrip.
Context `{GoEnvLaws}.

Lemma format_duration_plain d : forallb plain (formatFlexibleDuration d) = true.
Proof.
  clear H0 H. assert (Hf : ∀ n u, (0 ≤ n)%Z → plain u = true → forallb plain (format_int n ++ [u]) = true).
  { intros n u Hn Hu. unfold format_int. destruct (Z.ltb_spec n 0); [lia|].
    rewrite forallb_app, format_uint_plain by done. simpl. by rewrite Hu. }
  unfold formatFlexibleDuration. destruct (Z.leb_spec d 0); [done|].
  assert (∀ m, (0 < m)%Z → (0 ≤ Z.quot d m)%Z) as Hq by (intros; apply Z.quot_pos; lia).
  repeat case_match; apply Hf; try done; try (by apply Hq).
  all: pose proof (Hq Minute ltac:(done)); lia.
Qed.

Definition duration_good (d : Z) : Prop := (0 < d ≤ max_int64)%Z ∧ (Minute | d)%Z.

Lemma parse_retention_spec msg s fb d : parse_retention msg s fb = Ok d →
  retention_valid fb → (Minute | fb)%Z → retention_valid d ∧ (Minute | d)%Z.
Proof.
  unfold parse_retention. case_decide; [by intros [= <-]|].
  pose proof (parseFlexibleDuration_bounds s) as Hb. destruct (parseFlexibleDuration s) as [d'| |]; [|done|done].
  destruct (_ || _) eqn:Hr; [done|]. intros [= <-] _ _. rewrite Z.gtb_ltb in Hr. zify_bool.
  split; [split; lia|apply Hb].
Qed.

Lemma retention_good d : retention_valid d → (Minute | d)%Z → duration_good d.
Proof. clear H0 H. unfold retention_valid, duration_good, max_int64, Day, Hour, Minute, Second. intros; split; [lia|done]. Qed.

Lemma parse_retention_format msg fb d : retention_valid d → (Minute | d)%Z →
  parse_retention msg (formatFlexibleDuration d) fb = Ok d.
Proof.
  intros Hv Hd. destruct (retention_good d Hv Hd) as [Hr _]. unfold parse_retention.
  rewrite decide_False by (by apply format_duration_nil). rewrite parse_format_minutes by done.
  destruct Hv. rewrite Z.gtb_ltb. destruct (Z.ltb_spec d Day); [lia|].
  destruct (Z.ltb_spec (10 * 365 * Day) d); [lia|]. done.
Qed.

Definition reports_good (r : ReportsConfig) : Prop :=
  Forall (λ d, retention_valid d ∧ (Minute | d)%Z)
    [rep_HourlyRetention r; rep_DailyRetention r; rep_MonthlyRetention r; rep_OrphanRetention r].

Lemma parseReports_good raw r : parseReports raw = Ok r → reports_good r.
Proof.
  unfold parseReports.
  intros (h & Hh & (d & Hd & (m & Hm & (o & Ho & [= <-])%result_bind_Ok)%result_bind_Ok)%result_bind_Ok)%result_bind_Ok.
  assert (Hdef : ∀ k, (1 ≤ k ≤ 3650)%Z → retention_valid (k * Day) ∧ (Minute | k * Day)%Z).
  { intros k Hk. split; [unfold retention_valid, Day, Hour, Minute, Second; lia|exists (k * 1440)%Z; unfold Day, Hour; lia]. }
  destruct (Hdef 31%Z), (Hdef 397%Z), (Hdef 90%Z); [lia..|].
  unfold reports_good. simpl. repeat apply Forall_cons_2; [..|constructor]; by eapply parse_retention_spec.
Qed.

Lemma parseReports_raw r : reports_good r →
  parseReports (RawReports (Some (rep_Enabled r)) (formatFlexibleDuration (rep_HourlyRetention r))
    (formatFlexibleDuration (rep_DailyRetention r)) (formatFlexibleDuration (rep_MonthlyRetention r))
    (formatFlexibleDuration (rep_OrphanRetention r))) = Ok r.
Proof.
  intros Hg. unfold reports_good in Hg. rewrite !Forall_cons in Hg. destruct Hg as ([??] & [??] & [??] & [??] & _).
  unfold parseReports. simpl. rewrite !parse_retention_format by done. simpl. by destruct r.
Qed.

(** What a successful [ParseConfig] went through. *)
Lemma ParseConfig_inv raw res c : ParseConfig (Some raw) res = Ok (Some c) →
  ∃ resolve store st, res = Some resolve ∧ resolve (cf_requestedStore c) = Ok store
    ∧ c = MkConfig true (path_clean store) (cf_requestedStore c) (cf_CheckpointInterval c) (cf_MaxStoreSize c)
            (cf_Portal c) (cf_Reports c) st.1
    ∧ (cf_requestedStore c ≠ [] ∧ trim_space (cf_requestedStore c) = cf_requestedStore c)
    ∧ (Minute ≤ cf_CheckpointInterval c ≤ Hour)%Z ∧ duration_good (cf_CheckpointInterval c)
    ∧ (2 ^ 22 ≤ cf_MaxStoreSize c ≤ 2 ^ 30)%Z ∧ reports_good (cf_Reports c)
    ∧ length (rc_Devices raw) + length (rc_Rules raw) + length (rc_Targets raw) + (if rc_Global raw then 1 else 0) ≤ 256
    ∧ parse_policies raw = Ok st.
Proof.
  unfold ParseConfig. destruct (rc_Enabled raw); [|done]. simpl. destruct res as [resolve|]; [|done].
  set (req := if decide (trim_space (rc_Store raw) = []) then _ else _).
  intros (store & Hstore%context_Ok & (ck & Hck & Hrest)%result_bind_Ok)%result_bind_Ok.
  set (size := if (rc_MaxStoreSize raw =? 0)%Z then _ else _) in Hrest.
  destruct ((size <? _)%Z || _) eqn:Hsize; [done|].
  apply result_bind_Ok in Hrest as (reports & Hrep & Hrest). case_match eqn:Hcount; [done|].
  apply result_bind_Ok in Hrest as (st & Hst & [= <-]). apply Nat.ltb_ge in Hcount.
  exists resolve, store, st. simpl. rewrite Z.gtb_ltb in Hsize. zify_bool.
  split; [done|]. split; [done|]. split; [done|]. split.
  { unfold req. case_decide; [by split|]. split; [done|apply trim_space_idem]. }
  assert (Hckg : (Minute ≤ ck ≤ Hour)%Z ∧ duration_good ck).
  { destruct (parseOptionalDuration _ _) as [d| |] eqn:Hp; [|done|done].
    destruct ((d <? Minute)%Z || _) eqn:Hd; [done|]. injection Hck as <-. rewrite Z.gtb_ltb in Hd. zify_bool.
    split; [lia|]. unfold parseOptionalDuration in Hp. case_decide; [injection Hp as <-; split; [done|by exists 5%Z]|].
    pose proof (parseFlexibleDuration_bounds (rc_CheckpointInterval raw)) as Hb. by rewrite Hp in Hb. }
  split; [apply Hckg|]. split; [apply Hckg|]. split; [change (2 ^ 22)%Z with (Z.shiftl 4 20); change (2 ^ 30)%Z with (Z.shiftl 1 30); by split|].
  split; [by eapply parseReports_good|]. split; [done|done].
Qed.
End roundtrip.

(** Whatever document [ParseConfig] accepts, the configuration it returns is
    valid: every policy has a well-formed identifier that no other policy has,
    non-negative rates and limits, a window between an hour and a year exactly
    when it has a byte limit (with positive overage rates), and what its kind
    needs (masked prefixes for a device, a canonical selector for a rule, a
    proxy or group name for a target); the checkpoint interval, the store size
    and the retentions are within their bounds, and there are at most 256
    policies. *)
Theorem ParseConfig_valid `{GoEnvLaws} (raw : RawConfig) (resolvePath : option (str → result str)) (c : Config) :
  ParseConfig (Some raw) resolvePath = Ok (Some c) → config_valid c.
Proof.
  intros Hc. apply ParseConfig_inv in Hc as (resolve & store & st & _ & _ & Heq & Hreq & Hck & _ & Hsize & Hrep & Hcount & Hst).
  apply parse_policies_spec in Hst as (gs & ds & rs & ts & Est & Lg & Ld & Lr & Lt & Hv & [Hnd _] & _).
  rewrite Heq. split; simpl; try done.
  - apply Hreq.
  - unfold reports_good in Hrep. eapply Forall_impl; [exact Hrep|]. by intros d [? _].
  - rewrite Est, !length_app. lia.
Qed.

(** C40: the document a running configuration is shown as parses back to the
    same configuration, so a client can read it and submit it again: for every
    accepted document whose rule selectors are in canonical form, parsing
    [Raw] of the result gives the result. *)
Theorem Raw_roundtrip `{GoEnvLaws} (raw : RawConfig) (resolvePath : option (str → result str)) (c : Config) :
  ParseConfig (Some raw) resolvePath = Ok (Some c) →
  Forall (λ p, po_Kind p = PolicyRule → rule_stable p) (cf_Policies c) →
  ParseConfig (Some (Raw (Some c))) resolvePath = Ok (Some c).
Proof.
  intros Hc Hstable.
  apply ParseConfig_inv in Hc as (resolve & store & st & -> & Hres & Heq & [Hreq Htrim] & Hck & [Hckr Hckd] & Hsize & Hrep & Hcount & Hst).
  apply parse_policies_spec in Hst as (gs & ds & rs & ts & Est & Lg & Ld & Lr & Lt & Hv & _ & Hraw).
  assert (Hpol : cf_Policies c = st.1) by (by rewrite Heq). assert (Hen : cf_Enabled c = true) by (by rewrite Heq).
  unfold Raw. rewrite Hen, Hpol. cbn [negb]. rewrite decide_False by done.
  match goal with |- context [foldl raw_add ?b st.1] => destruct (Hraw b) as (raw' & -> & Hraw') end.
  destruct Hraw' as [-> Hback]; [done..|]. cbn [rc_Enabled rc_Store rc_CheckpointInterval rc_MaxStoreSize rc_Portal rc_Reports] in *.
  unfold ParseConfig. cbn [rc_Enabled rc_Store rc_CheckpointInterval rc_MaxStoreSize rc_Portal rc_Reports rc_Global
    rc_Devices rc_Rules rc_Targets negb rl_Listen rl_URL].
  rewrite Htrim, decide_False by done. rewrite Hres. cbn [context mbind result_bind].
  unfold parseOptionalDuration. rewrite trim_space_plain by apply format_duration_plain.
  rewrite decide_False by (by apply format_duration_nil). rewrite parse_format_minutes by done.
  rewrite Z.gtb_ltb. destruct (Z.ltb_spec (cf_CheckpointInterval c) Minute); [lia|].
  destruct (Z.ltb_spec Hour (cf_CheckpointInterval c)); [lia|]. cbn [orb mbind result_bind].
  destruct (Z.eqb_spec (cf_MaxStoreSize c) 0); [lia|]. rewrite Z.gtb_ltb.
  change (2 ^ 22)%Z with (Z.shiftl 4 20) in Hsize. change (2 ^ 30)%Z with (Z.shiftl 1 30) in Hsize.
  destruct (Z.ltb_spec (cf_MaxStoreSize c) (Z.shiftl 4 20)) as [Hlt|_]; [destruct Hsize; lia|].
  destruct (Z.ltb_spec (Z.shiftl 1 30) (cf_MaxStoreSize c)) as [Hlt|_]; [destruct Hsize; lia|]. cbn [orb].
  rewrite parseReports_raw by done. cbn [mbind result_bind].
  rewrite !length_fmap, Ld, Lr, Lt.
  assert ((if (raw_policy <$> head gs) : option RawPolicy then 1 else 0) = length gs) as ->.
  { destruct gs as [|g [|]]; [done|done|]. simpl in Lg. destruct (rc_Global raw); lia. }
  rewrite Lg, (proj2 (Nat.ltb_ge _ _)) by done. rewrite Hback.
  - cbn [mbind result_bind]. destruct c as [e sp rq ck sz po rp ps]. simpl in *. injection Heq as -> -> ->. destruct (Z.ltb_spec Hour ck); [lia|]. simpl. by destruct po.
  - by rewrite <- Hpol.
Qed.

(** ** A concrete environment *)

(** A textual form of prefixes that reads back, standing in for [net/netip]'s. *)
Definition sample_string (p : Prefix) : str :=
  join (lit "/") [if Is4 (p_addr p) then lit "4" else lit "6"; format_uint (addr_num (p_addr p)); format_uint (p_bits p)].
Definition sample_addr (family : str) (n : Z) : Addr :=
  if decide (family = lit "4") then Addr4 n else Addr6 n [].
Definition sample_parse (s : str) : option Prefix :=
  match split_on "/"%char s with
  | [family; num; bits] =>
    match digits_val 0 num, digits_val 0 bits with
    | Some n, Some b =>
      let p := MkPrefix (sample_addr family n) b in
      if prefix_valid p && bool_decide (0 ≤ n < 2 ^ BitLen (p_addr p))%Z then Some p else None
    | _, _ => None
    end
  | _ => None
  end.

Definition sample_env : GoEnv :=
  Build_GoEnv (λ s, s) (λ s, s) (λ _, repeat "a"%char 32) sample_parse sample_string (λ s, s).

Lemma sample_parse_string p : prefix_valid p = true → addr_zone (p_addr p) = [] → wf_addr (p_addr p) →
  sample_parse (sample_string p) = Some p.
Proof.
  intros Hv Hz Hw. pose proof Hv as Hv'. unfold prefix_valid in Hv'. zify_bool.
  assert (Hn : (0 ≤ addr_num (p_addr p))%Z) by (destruct (p_addr p); simpl in *; lia).
  assert (Hb : (0 ≤ p_bits p)%Z) by (unfold prefix_valid in Hv; zify_bool; lia).
  unfold sample_parse, sample_string. rewrite split_on_join; [|done|].
  2: { repeat constructor; [destruct (Is4 _); set_solver| |]; by apply format_uint_not_in. }
  destruct (format_uint_spec _ Hn) as [-> _]. destruct (format_uint_spec _ Hb) as [-> _].
  assert (Ha : sample_addr (if Is4 (p_addr p) then lit "4" else lit "6") (addr_num (p_addr p)) = p_addr p).
  { unfold prefix_valid in Hv. destruct (p_addr p); simpl in *; [done|done|by subst]. }
  rewrite Ha. destruct p as [a b]. cbn [p_addr p_bits] in *. rewrite Hv. simpl.
  rewrite bool_decide_eq_true_2; [done|]. destruct a; simpl in *; [done|done|done].
Qed.

Lemma sample_laws : @GoEnvLaws sample_env.
Proof.
  split; simpl.
  - done.
  - intros s p. unfold sample_parse. repeat case_match; try done. intros [= <-]. zify_bool.
    match goal with Hb : bool_decide _ = true |- _ => apply bool_decide_eq_true in Hb; rename Hb into Hr end.
    unfold sample_addr in *. case_decide; simpl in *; split_and!; done || lia.
  - apply sample_parse_string.
  - intros s. unfold ToLower. destruct (is_ascii s) eqn:Ha; [|by rewrite Ha].
    by rewrite is_ascii_lower, lower_idem.
  - intros p Hv Hw. unfold sample_string, prefix_valid in *. zify_bool. simpl.
    assert (Hn : (0 ≤ addr_num (p_addr p))%Z) by (destruct (p_addr p); simpl in *; lia).
    destruct (Is4 _); simpl; rewrite !forallb_app; simpl; by rewrite !format_uint_plain by done.
Qed.

(** A document with a policy of every kind. *)
Definition sample_policy (id window : string) (limit : Z) : RawPolicy :=
  MkRawPolicy (lit id) (lit " name ") None 1000 2000
    (RawQuota limit 0 0 (lit window) 0 0 None).
Definition sample_raw : RawConfig :=
  MkRawConfig true (lit " tc.db ") (lit "10m") 0 (RawPortal [] []) (RawReports None [] (lit "2w") [] [])
    (Some (sample_policy "" "" 0))
    [RawDevice (sample_policy "phone" "1D12h" 1000) (lit "AA:bb:0c:dd:EE:ff") [lit "4/3232235777/24"]]
    [RawRule (sample_policy "r1" "" 0) (lit "domain-suffix") (lit " Example.COM ") (lit "PROXY")]
    [RawTarget (sample_policy "" "30d" 5000000) (lit "Group") (lit " auto ")].
Definition sample_resolve : option (str → result str) := Some (λ s, Ok (lit "/etc/" ++ s)).

Definition sample_config : Config := Eval vm_compute in
  match ParseConfig (H := sample_env) (Some sample_raw) sample_resolve with
  | Ok (Some c) => c
  | _ => MkConfig false [] [] 0 0 (MkPortal [] []) (MkReports false 0 0 0 0) []
  end.

Lemma sample_parses : ParseConfig (H := sample_env) (Some sample_raw) sample_resolve = Ok (Some sample_config).
Proof. vm_compute. reflexivity. Qed.

Lemma ParseConfig_valid_witness : length (cf_Policies sample_config) = 4 ∧ config_valid (H := sample_env) sample_config.
Proof.
  split; [reflexivity|].
  exact (ParseConfig_valid (H := sample_env) (H0 := sample_laws) sample_raw sample_resolve sample_config sample_parses).
Defined.

Lemma Raw_roundtrip_witness :
  ParseConfig (H := sample_env) (Some (Raw (H := sample_env) (Some sample_config))) sample_resolve = Ok (Some sample_config).
Proof.
  apply (Raw_roundtrip (H := sample_env) (H0 := sample_laws) sample_raw sample_resolve sample_config sample_parses).
  repeat constructor; intros Hk; discriminate Hk || (vm_compute; reflexivity).
Defined.

(** The canonical form of a rule type is not always canonical itself: removing
    a leading dash can uncover white space that only a second pass trims, so a
    rule with such a type changes its fingerprint when its configuration is
    read and submitted again. *)
Theorem canonicalRuleType_not_idempotent `{GoEnv} :
  let t := lit "-" ++ [byte_of 9] ++ lit "domain" in
  canonicalRuleType t = byte_of 9 :: lit "DOMAIN"
  ∧ canonicalRuleType (canonicalRuleType t) = lit "DOMAIN".
Proof. split; reflexivity. Qed.
