(* ===== verification/TrafficQuota.v ===== *)
(** * TrafficQuota: usage counters and rolling quotas

    The per-policy part of [src/component/trafficcontrol/manager.go]: [Counters],
    [policyState], [runtimePolicy]'s [record], [refreshQuota] and
    [pruneBucketsLocked], [quotaExceeded], [sumBuckets] and the bucket width.

    A [time.Time] is its number of nanoseconds since the epoch. Byte counts are
    [int64] and wrap around. A loop over a Go map is a fold over its entries in
    some order; the loop's lemma [prune_loop] is about every order.

    The rolling usage is kept incrementally: a bucket is dropped when it falls
    out of the window, and the scan for such buckets is skipped while none can
    have expired. [record_eager] is the version that always scans, and
    [window_sum] the specification over the history of the recorded traffic. *)
From S2P Require Import Prelude GoStrings NetIP TrafficModel.

Inductive Direction := Upload | Download.
#[export] Instance Direction_eq_dec : EqDecision Direction.
Proof. solve_decision. Defined.

Record Counters := MkCounters { UploadBytes : Z; DownloadBytes : Z; Connections : Z; ExceededEvents : Z }.
#[export] Instance Counters_eq_dec : EqDecision Counters.
Proof. solve_decision. Defined.

Definition no_counters : Counters := MkCounters 0 0 0 0.

Definition counters_add (direction : Direction) (bytes : Z) (c : Counters) : Counters :=
  if decide (direction = Upload)
  then MkCounters (wrap int64 (UploadBytes c + bytes)) (DownloadBytes c) (Connections c) (ExceededEvents c)
  else MkCounters (UploadBytes c) (wrap int64 (DownloadBytes c + bytes)) (Connections c) (ExceededEvents c).

Definition TotalBytes (c : Counters) : Z := wrap int64 (UploadBytes c + DownloadBytes c).

Definition addCounters (left right : Counters) : Counters :=
  MkCounters (wrap int64 (UploadBytes left + UploadBytes right)) (wrap int64 (DownloadBytes left + DownloadBytes right))
    (wrap int64 (Connections left + Connections right)) (wrap int64 (ExceededEvents left + ExceededEvents right)).

Definition quotaExceeded (quota : QuotaConfig) (counters : Counters) : bool :=
  (q_TotalBytes quota >? 0)%Z && (TotalBytes counters >=? q_TotalBytes quota)%Z
  || (q_UploadBytes quota >? 0)%Z && (UploadBytes counters >=? q_UploadBytes quota)%Z
  || (q_DownloadBytes quota >? 0)%Z && (DownloadBytes counters >=? q_DownloadBytes quota)%Z.

Definition sum_step (result : Counters) (counter : Counters) : Counters :=
  MkCounters (wrap int64 (UploadBytes result + UploadBytes counter)) (wrap int64 (DownloadBytes result + DownloadBytes counter))
    (Connections result) (ExceededEvents result).
Definition sumBuckets (buckets : gmap Z Counters) : Counters :=
  foldl sum_step no_counters (snd <$> map_to_list buckets).

(** ** Time *)

Definition Unix (now : Z) : Z := (now / Second)%Z.

(** [Duration.Round]: to the nearest multiple, halves away from zero. *)
Definition duration_round (d m : Z) : Z :=
  let r := Z.rem d m in
  if (r + r <? m)%Z then (d - r)%Z else (d + m - r)%Z.

Definition quotaBucketWidth (window : Z) : Z :=
  let width := Z.quot (window + 1023) 1024 in
  let width := if (width <? Minute)%Z then Minute else width in
  duration_round width Second.

Definition quotaBucketWidthSecs (window : Z) : Z :=
  let secs := Z.quot (quotaBucketWidth window) Second in
  if (secs <? 1)%Z then 1%Z else secs.

(** ** The state of a policy *)

Record policyState := MkState {
  s_ID : str; s_Identity : str; s_Generation : Z; s_Counters : Counters; s_Buckets : gmap Z Counters;
  s_rolling : Counters; s_bucketStart : Z; s_nextCutoff : Z; s_OverQuota : bool; s_Active : Z;
  s_LastUpdated : Z; s_LastReset : Z; s_LastSeen : Z
}.

(** Assignments to the fields the operations change. *)
Definition with_window (s : policyState) (buckets : gmap Z Counters) (rolling : Counters) (next : Z) : policyState :=
  MkState (s_ID s) (s_Identity s) (s_Generation s) (s_Counters s) buckets rolling (s_bucketStart s) next
    (s_OverQuota s) (s_Active s) (s_LastUpdated s) (s_LastReset s) (s_LastSeen s).
Definition with_over (s : policyState) (over : bool) : policyState :=
  MkState (s_ID s) (s_Identity s) (s_Generation s) (s_Counters s) (s_Buckets s) (s_rolling s) (s_bucketStart s)
    (s_nextCutoff s) over (s_Active s) (s_LastUpdated s) (s_LastReset s) (s_LastSeen s).
Definition with_start (s : policyState) (start : Z) : policyState :=
  MkState (s_ID s) (s_Identity s) (s_Generation s) (s_Counters s) (s_Buckets s) (s_rolling s) start
    (s_nextCutoff s) (s_OverQuota s) (s_Active s) (s_LastUpdated s) (s_LastReset s) (s_LastSeen s).
Definition with_counters (s : policyState) (c : Counters) : policyState :=
  MkState (s_ID s) (s_Identity s) (s_Generation s) c (s_Buckets s) (s_rolling s) (s_bucketStart s)
    (s_nextCutoff s) (s_OverQuota s) (s_Active s) (s_LastUpdated s) (s_LastReset s) (s_LastSeen s).
Definition with_seen (s : policyState) (updated seen : Z) : policyState :=
  MkState (s_ID s) (s_Identity s) (s_Generation s) (s_Counters s) (s_Buckets s) (s_rolling s) (s_bucketStart s)
    (s_nextCutoff s) (s_OverQuota s) (s_Active s) updated (s_LastReset s) seen.
Definition with_active (s : policyState) (active : Z) : policyState :=
  MkState (s_ID s) (s_Identity s) (s_Generation s) (s_Counters s) (s_Buckets s) (s_rolling s) (s_bucketStart s)
    (s_nextCutoff s) (s_OverQuota s) active (s_LastUpdated s) (s_LastReset s) (s_LastSeen s).

(** ** The operations; a policy is its quota and its bucket width *)

Record meter := Meter { m_quota : QuotaConfig; m_width : Z }.

(** The part of [newRuntimePolicy] that concerns the quota. *)
Definition new_meter (spec : Policy) : meter :=
  Meter (po_Quota spec) (if (q_Window (po_Quota spec) >? 0)%Z then quotaBucketWidthSecs (q_Window (po_Quota spec)) else 0).
Definition attach (m : meter) (s : policyState) : policyState :=
  if (q_Window (m_quota m) >? 0)%Z then with_window s (s_Buckets s) (sumBuckets (s_Buckets s)) (s_nextCutoff s) else s.

Definition expire_at (width key : Z) : Z := wrap int64 (key + width).

(** One iteration of the loop of [pruneBucketsLocked]. *)
Definition prune_step (width cutoff : Z) (acc : gmap Z Counters * Counters * Z) (kv : Z * Counters)
    : gmap Z Counters * Counters * Z :=
  let '(buckets, rolling, next) := acc in
  let '(key, counters) := kv in
  let expireAt := expire_at width key in
  if (expireAt <=? cutoff)%Z then
    (delete key buckets,
     MkCounters (wrap int64 (UploadBytes rolling - UploadBytes counters))
       (wrap int64 (DownloadBytes rolling - DownloadBytes counters)) (Connections rolling) (ExceededEvents rolling),
     next)
  else (buckets, rolling, if (expireAt <? next)%Z then expireAt else next).

Definition pruneBucketsLocked (m : meter) (s : policyState) (cutoff : Z) : policyState :=
  let '(buckets, rolling, next) :=
    foldl (prune_step (m_width m) cutoff) (s_Buckets s, s_rolling s, max_int64) (map_to_list (s_Buckets s)) in
  with_window s buckets rolling next.

Definition cutoff_at (m : meter) (now : Z) : Z := Unix (now - q_Window (m_quota m)).

Definition refreshQuota (m : meter) (now : Z) (s : policyState) : policyState :=
  if (m_width m <=? 0)%Z then with_over s false
  else
    let s := pruneBucketsLocked m s (cutoff_at m now) in
    with_over s (quotaExceeded (m_quota m) (s_rolling s)).

Definition bucket_of (width unix : Z) : Z := (Z.quot unix width * width)%Z.

Definition record (m : meter) (direction : Direction) (bytes : Z) (now : Z) (s : policyState) : bool * policyState :=
  let s := with_counters s (counters_add direction bytes (s_Counters s)) in
  let unix := Unix now in
  let s := with_seen s unix unix in
  let '(rolling, s) :=
    if (m_width m >? 0)%Z then
      let start := bucket_of (m_width m) unix in
      let cutoff := cutoff_at m now in
      let s := if negb (start =? s_bucketStart s)%Z || (cutoff >=? s_nextCutoff s)%Z
               then with_start (pruneBucketsLocked m s cutoff) start else s in
      let next := match s_Buckets s !! start with
                  | Some _ => s_nextCutoff s
                  | None => let expireAt := expire_at (m_width m) start in
                            if (expireAt <? s_nextCutoff s)%Z then expireAt else s_nextCutoff s
                  end in
      let bucket := counters_add direction bytes (default no_counters (s_Buckets s !! start)) in
      let s := with_window s (<[start := bucket]> (s_Buckets s)) (counters_add direction bytes (s_rolling s)) next in
      (s_rolling s, s)
    else (s_Counters s, s) in
  let over := quotaExceeded (m_quota m) rolling in
  let previous := s_OverQuota s in
  let s := with_over s over in
  let s := if over && negb previous then
             let c := s_Counters s in
             with_counters s (MkCounters (UploadBytes c) (DownloadBytes c) (Connections c) (wrap int64 (ExceededEvents c + 1)))
           else s in
  (over && negb previous, s).

(** The body of [Reset] for the policy it finds. *)
Definition reset_state (now : Z) (s : policyState) : policyState :=
  MkState (s_ID s) (s_Identity s) (wrap uint64 (s_Generation s + 1)) no_counters ∅ no_counters 0 0 false (s_Active s)
    (s_LastUpdated s) (Unix now) (s_LastSeen s).

(** A state as [prepareConfiguration] makes it. *)
Definition fresh_state (id identity : str) (generation now : Z) : policyState :=
  MkState id identity generation no_counters ∅ no_counters 0 0 false 0 0 (Unix now) 0.

(** ** Wrapped sums *)

Lemma wrap_wrap_add T a b : wf_int_type T → wrap T (wrap T a + b) = wrap T (a + b).
Proof.
  intros HT. unfold wrap. pose proof (pow_bits_pos T HT). f_equal.
  replace ((a - int_min T) `mod` 2 ^ it_bits T + int_min T + b - int_min T)%Z
    with ((a - int_min T) `mod` 2 ^ it_bits T + b)%Z by lia.
  rewrite Zplus_mod_idemp_l. f_equal. lia.
Qed.

Lemma wrap_wrap_sub T a b : wf_int_type T → wrap T (wrap T a - b) = wrap T (a - b).
Proof. intros HT. rewrite <- !Z.add_opp_r. by apply wrap_wrap_add. Qed.

Definition get_bytes (d : Direction) (c : Counters) : Z :=
  match d with Upload => UploadBytes c | Download => DownloadBytes c end.

(** The exact (unwrapped) sum of the buckets. *)
Definition bucket_sum (d : Direction) (b : gmap Z Counters) : Z :=
  map_fold (λ _ c acc, (get_bytes d c + acc)%Z) 0%Z b.

Lemma bucket_sum_empty d : bucket_sum d ∅ = 0%Z.
Proof. apply map_fold_empty. Qed.

Lemma bucket_sum_insert d b k c : b !! k = None → bucket_sum d (<[k := c]> b) = (get_bytes d c + bucket_sum d b)%Z.
Proof. intros Hk. unfold bucket_sum. rewrite map_fold_insert_L; [done| |done]. intros. lia. Qed.

Lemma bucket_sum_delete d b k c : b !! k = Some c → bucket_sum d b = (get_bytes d c + bucket_sum d (delete k b))%Z.
Proof. intros Hk. unfold bucket_sum. rewrite (map_fold_delete_L _ _ k c b); [done| |done]. intros. lia. Qed.

Lemma bucket_sum_update d b k c : bucket_sum d (<[k := c]> b) =
  (get_bytes d c - get_bytes d (default no_counters (b !! k)) + bucket_sum d b)%Z.
Proof.
  destruct (b !! k) as [c0|] eqn:Hk; simpl.
  - rewrite (bucket_sum_delete d (<[k:=c]> b) k c) by apply lookup_insert_eq.
    rewrite delete_insert_eq. rewrite (bucket_sum_delete d b k c0 Hk). lia.
  - rewrite bucket_sum_insert by done. destruct d; simpl; lia.
Qed.

Lemma get_counters_add d d' bytes c :
  get_bytes d (counters_add d' bytes c) = if decide (d = d') then wrap int64 (get_bytes d c + bytes) else get_bytes d c.
Proof. unfold counters_add. destruct d, d'; done. Qed.

(** ** Pruning *)

Section prune.
Context (m : meter).

Definition live (cutoff key : Z) : Prop := (cutoff < expire_at (m_width m) key)%Z.

(** The rolling counters hold the sum of the buckets, modulo the width. *)
Definition sums_to (rolling : Counters) (b : gmap Z Counters) : Prop :=
  ∀ d, get_bytes d rolling = wrap int64 (bucket_sum d b).

Lemma prune_loop cutoff l b r n :
  NoDup l.*1 → (∀ k c, (k, c) ∈ l → b !! k = Some c) →
  let '(b', r', n') := foldl (prune_step (m_width m) cutoff) (b, r, n) l in
  (∀ k c, b' !! k = Some c ↔ b !! k = Some c ∧ (k ∈ l.*1 → live cutoff k))
  ∧ (sums_to r b → sums_to r' b')
  ∧ (n' ≤ n)%Z ∧ (∀ k, k ∈ l.*1 → live cutoff k → n' ≤ expire_at (m_width m) k)%Z
  ∧ Connections r' = Connections r ∧ ExceededEvents r' = ExceededEvents r.
Proof.
  revert b r n. induction l as [|[k c] l IH]; intros b r n Hnd Hin.
  { simpl. split_and!; try done; [|intros k Hk; by apply elem_of_nil in Hk].
    intros k c. split; [|tauto]. intros. split; [done|]. intros Hk; by apply elem_of_nil in Hk. }
  rewrite fmap_cons in *. cbn [fst] in *. apply NoDup_cons in Hnd as [Hk Hnd]. cbn [foldl prune_step].
  pose proof (Hin k c ltac:(left)) as Hkc. fold (live cutoff k).
  destruct (Z.leb_spec (expire_at (m_width m) k) cutoff) as [Hexp|Hlive].
  - match goal with |- context [foldl _ (?b0, ?r0, ?n0) l] => specialize (IH b0 r0 n0 Hnd); set (r1 := r0) in * end.
    assert (Hin' : ∀ k' c', (k', c') ∈ l → delete k b !! k' = Some c').
    { intros k' c' Hl. rewrite lookup_delete_ne; [by apply Hin; right|]. intros <-.
      apply Hk, list_elem_of_fmap. by exists (k, c'). }
    specialize (IH Hin'). destruct (foldl _ _ l) as [[b' r'] n']. destruct IH as (Hb & Hs & Hn & Hn' & Hc & He).
    split_and!; try done.
    + intros k' c'. rewrite Hb, lookup_delete_Some, elem_of_cons. unfold live. split.
      * intros [[Hne Hb'] Hl]. split; [done|]. intros [->|Hl']; [done|by apply Hl].
      * intros [Hb' Hl]. split; [split; [|done]|tauto]. intros <-. specialize (Hl (or_introl eq_refl)). lia.
    + intros Hsum. apply Hs. intros d. pose proof (bucket_sum_delete d b k c Hkc). specialize (Hsum d).
      unfold r1. destruct d; simpl in *; rewrite Hsum, wrap_wrap_sub by done; f_equal; lia.
    + intros k' [->|Hl]%elem_of_cons Hlv; [unfold live in Hlv; lia|by apply Hn'].
  - match goal with |- context [foldl _ (?b0, ?r0, ?n0) l] => specialize (IH b0 r0 n0 Hnd) end.
    assert (Hin' : ∀ k' c', (k', c') ∈ l → b !! k' = Some c') by (intros; apply Hin; by right).
    specialize (IH Hin'). destruct (foldl _ _ l) as [[b' r'] n']. destruct IH as (Hb & Hs & Hn & Hn' & Hc & He).
    split_and!; try done.
    + intros k' c'. rewrite Hb, elem_of_cons. split; intros [? Hl]; (split; [done|]); [|tauto].
      intros [->|?]; [done|by apply Hl].
    + case_match; zify_bool; lia.
    + intros k' [->|Hl]%elem_of_cons Hlv; [|by apply Hn']. case_match; zify_bool; lia.
Qed.

Lemma prune_spec s cutoff : let s' := pruneBucketsLocked m s cutoff in
  (∀ k c, s_Buckets s' !! k = Some c ↔ s_Buckets s !! k = Some c ∧ live cutoff k)
  ∧ (sums_to (s_rolling s) (s_Buckets s) → sums_to (s_rolling s') (s_Buckets s'))
  ∧ (∀ k, is_Some (s_Buckets s' !! k) → s_nextCutoff s' ≤ expire_at (m_width m) k)%Z
  ∧ s' = with_window s (s_Buckets s') (s_rolling s') (s_nextCutoff s')
  ∧ Connections (s_rolling s') = Connections (s_rolling s)
  ∧ ExceededEvents (s_rolling s') = ExceededEvents (s_rolling s).
Proof.
  unfold pruneBucketsLocked.
  pose proof (prune_loop cutoff (map_to_list (s_Buckets s)) (s_Buckets s) (s_rolling s) max_int64) as Hp.
  destruct (foldl _ _ _) as [[b' r'] n']. simpl.
  destruct Hp as (Hb & Hs & _ & Hn & Hcn & Hen); [apply NoDup_fst_map_to_list|by intros k c ?%elem_of_map_to_list|].
  assert (Hkeys : ∀ k c, s_Buckets s !! k = Some c → k ∈ (map_to_list (s_Buckets s)).*1).
  { intros k c Hk. apply list_elem_of_fmap. exists (k, c). split; [done|by apply elem_of_map_to_list]. }
  assert (Hb' : ∀ k c, b' !! k = Some c ↔ s_Buckets s !! k = Some c ∧ live cutoff k).
  { intros k c. rewrite Hb. split; intros [? Hl]; (split; [done|]); eauto. }
  split_and!; try done. intros k [c Hk]. apply Hb' in Hk as [Hk Hl]. eauto.
Qed.

(** Pruning does nothing when nothing has expired. *)
Lemma prune_nothing s cutoff : (∀ k, is_Some (s_Buckets s !! k) → live cutoff k) →
  s_Buckets (pruneBucketsLocked m s cutoff) = s_Buckets s.
Proof.
  intros Hl. apply map_eq. intros k. apply option_eq. intros c. rewrite (proj1 (prune_spec s cutoff)).
  split; [by intros [? _]|]. intros Hk. split; [done|]. apply Hl. by rewrite Hk.
Qed.
End prune.

(** ** Skipping the scan is safe *)

Record quota_inv (m : meter) (s : policyState) : Prop := {
  qi_sum : sums_to (s_rolling s) (s_Buckets s);
  qi_next : ∀ k, is_Some (s_Buckets s !! k) → (s_nextCutoff s ≤ expire_at (m_width m) k)%Z
}.

(** [record] with the scan made unconditional. *)
Definition record_eager (m : meter) (direction : Direction) (bytes now : Z) (s : policyState) : bool * policyState :=
  record m direction bytes now
    (if (m_width m >? 0)%Z
     then pruneBucketsLocked m s (cutoff_at m now) else s).

(** Everything but the two fields that steer the scan. *)
Definition observable (s : policyState) :=
  (s_ID s, s_Identity s, s_Generation s, s_Counters s, s_Buckets s, s_rolling s,
   (s_OverQuota s, s_Active s, s_LastUpdated s, s_LastReset s, s_LastSeen s)).

Section record.
Context (m : meter).
Implicit Types s : policyState.

Lemma counters_ext c d : (∀ x, get_bytes x c = get_bytes x d) → Connections c = Connections d →
  ExceededEvents c = ExceededEvents d → c = d.
Proof. intros Hb Hc He. pose proof (Hb Upload). pose proof (Hb Download). destruct c, d. simpl in *. congruence. Qed.

Lemma prune_inv s cutoff : quota_inv m s → quota_inv m (pruneBucketsLocked m s cutoff).
Proof.
  intros [Hs _]. destruct (prune_spec m s cutoff) as (_ & Hsum & Hnext & _). split; [by apply Hsum|done].
Qed.

Lemma prune_nothing_obs s cutoff : quota_inv m s → (∀ k, is_Some (s_Buckets s !! k) → live m cutoff k) →
  s_Buckets (pruneBucketsLocked m s cutoff) = s_Buckets s ∧ s_rolling (pruneBucketsLocked m s cutoff) = s_rolling s.
Proof.
  intros [Hs _] Hl. pose proof (prune_nothing m s cutoff Hl) as Hb. split; [done|].
  destruct (prune_spec m s cutoff) as (_ & Hsum & _ & _ & Hc & He). apply counters_ext; [|done|done].
  intros d. by rewrite (Hsum Hs d), Hb, (Hs d).
Qed.

(** The part of [record] that maintains the buckets, on a state already
    pruned as far as the code prunes it. *)
Definition add_bucket (direction : Direction) (bytes start : Z) s : policyState :=
  let next := match s_Buckets s !! start with
              | Some _ => s_nextCutoff s
              | None => if (expire_at (m_width m) start <? s_nextCutoff s)%Z
                        then expire_at (m_width m) start else s_nextCutoff s
              end in
  with_window s (<[start := counters_add direction bytes (default no_counters (s_Buckets s !! start))]> (s_Buckets s))
    (counters_add direction bytes (s_rolling s)) next.

Definition lazy_prune (cutoff start : Z) s : policyState :=
  if negb (start =? s_bucketStart s)%Z || (cutoff >=? s_nextCutoff s)%Z
  then with_start (pruneBucketsLocked m s cutoff) start else s.

Definition settle s : bool * policyState :=
  let over := quotaExceeded (m_quota m) (s_rolling s) in
  let crossed := over && negb (s_OverQuota s) in
  let s' := with_over s over in
  let c := s_Counters s' in
  (crossed, if crossed then with_counters s' (MkCounters (UploadBytes c) (DownloadBytes c) (Connections c)
                                                (wrap int64 (ExceededEvents c + 1))) else s').

Definition count (direction : Direction) (bytes now : Z) s : policyState :=
  with_seen (with_counters s (counters_add direction bytes (s_Counters s))) (Unix now) (Unix now).

Lemma record_windowed direction bytes now s : (0 < m_width m)%Z →
  record m direction bytes now s =
  settle (add_bucket direction bytes (bucket_of (m_width m) (Unix now))
            (lazy_prune (cutoff_at m now) (bucket_of (m_width m) (Unix now)) (count direction bytes now s))).
Proof.
  intros Hw. unfold record. rewrite Z.gtb_ltb. destruct (Z.ltb_spec 0 (m_width m)); [|lia]. done.
Qed.

Lemma add_bucket_inv direction bytes start s : quota_inv m s → quota_inv m (add_bucket direction bytes start s).
Proof.
  intros [Hs Hn]. split.
  - intros d. unfold add_bucket. simpl. rewrite get_counters_add, bucket_sum_update, get_counters_add.
    rewrite (Hs d). case_decide; [|f_equal; lia]. rewrite wrap_wrap_add by done.
    rewrite <- Z.add_sub_swap, <- Z.add_sub_assoc, wrap_wrap_add by done. f_equal. lia.
  - intros k. unfold add_bucket. simpl. rewrite lookup_insert_is_Some. intros Hk.
    destruct (s_Buckets s !! start) as [c|] eqn:Hstart.
    + apply Hn. destruct Hk as [<-|[_ Hk]]; [by rewrite Hstart|done].
    + destruct (Z.ltb_spec (expire_at (m_width m) start) (s_nextCutoff s)), Hk as [<-|[_ Hk]];
        try lia; specialize (Hn k Hk); lia.
Qed.

Lemma lazy_prune_inv cutoff start s : quota_inv m s → quota_inv m (lazy_prune cutoff start s).
Proof.
  intros Hs. unfold lazy_prune. case_match; [|done]. apply (prune_inv s cutoff) in Hs as [H1 H2]. by split.
Qed.

(** Lazily or not, the buckets left are the live ones. *)
Lemma lazy_prune_buckets cutoff start s : quota_inv m s →
  s_Buckets (lazy_prune cutoff start s) = s_Buckets (pruneBucketsLocked m s cutoff)
  ∧ s_rolling (lazy_prune cutoff start s) = s_rolling (pruneBucketsLocked m s cutoff).
Proof.
  intros Hs. unfold lazy_prune. destruct (negb _ || _) eqn:Hc; [done|]. zify_bool.
  rewrite Z.geb_leb in *. zify_bool. destruct (prune_nothing_obs s cutoff Hs) as [-> ->]; [|done].
  intros k Hk. unfold live. pose proof (qi_next _ _ Hs k Hk). lia.
Qed.

Lemma settle_observable s t : observable s = observable t →
  (settle s).1 = (settle t).1 ∧ observable (settle s).2 = observable (settle t).2.
Proof.
  destruct s, t. unfold observable, settle. simpl. intros [=]. subst. split; [done|].
  by destruct (_ && _).
Qed.

Lemma add_bucket_observable direction bytes start s t : observable s = observable t →
  observable (add_bucket direction bytes start s) = observable (add_bucket direction bytes start t).
Proof. destruct s, t. unfold observable, add_bucket. simpl. intros [=]. by subst. Qed.

Lemma settle_inv s : quota_inv m s → quota_inv m (settle s).2.
Proof. intros [H1 H2]. unfold settle. destruct (_ && _); by split. Qed.

Lemma count_inv direction bytes now s : quota_inv m s → quota_inv m (count direction bytes now s).
Proof. intros [H1 H2]. by split. Qed.

Lemma record_inv direction bytes now s : quota_inv m s → quota_inv m (record m direction bytes now s).2.
Proof.
  intros Hs. destruct (decide (0 < m_width m)%Z) as [Hw|Hw].
  - rewrite record_windowed by done. by apply settle_inv, add_bucket_inv, lazy_prune_inv, count_inv.
  - unfold record. rewrite Z.gtb_ltb. destruct (Z.ltb_spec 0 (m_width m)); [lia|]. simpl.
    destruct Hs as [H1 H2]. destruct (_ && _); by split.
Qed.

Lemma prune_twice_observable s cutoff : quota_inv m s →
  observable (pruneBucketsLocked m (pruneBucketsLocked m s cutoff) cutoff) = observable (pruneBucketsLocked m s cutoff).
Proof.
  intros Hs. pose proof (prune_inv s cutoff Hs) as Hs'.
  destruct (prune_nothing_obs _ cutoff Hs') as [Hb Hr].
  { intros k [c Hk]. by apply (proj1 (prune_spec m s cutoff)) in Hk as [_ ?]. }
  destruct (prune_spec m (pruneBucketsLocked m s cutoff) cutoff) as (_ & _ & _ & Heq & _).
  unfold observable. rewrite Hb, Hr. by rewrite Heq.
Qed.

Lemma prune_count direction bytes now s cutoff :
  pruneBucketsLocked m (count direction bytes now s) cutoff = count direction bytes now (pruneBucketsLocked m s cutoff).
Proof.
  unfold pruneBucketsLocked. simpl. destruct (foldl _ _ _) as [[??]?]. done.
Qed.

Lemma lazy_prune_observable cutoff start s : quota_inv m s →
  observable (lazy_prune cutoff start s) = observable (pruneBucketsLocked m s cutoff).
Proof.
  intros Hs. destruct (lazy_prune_buckets cutoff start s Hs) as [Hb Hr].
  destruct (prune_spec m s cutoff) as (_ & _ & _ & Heq & _). unfold observable. rewrite Hb, Hr.
  rewrite Heq. unfold lazy_prune. case_match; [|done]. by rewrite Heq.
Qed.
End record.

(** Skipping the scan for expired buckets is invisible. From every state in
    which the rolling counters are the sum of the buckets and the next expiry
    is not past any bucket's, recording traffic gives the same crossing signal
    and the same counters, buckets, rolling usage and over-quota flag as the
    version that scans on every call, and the invariant holds again. *)
Theorem record_lazy_eager (m : meter) (direction : Direction) (bytes now : Z) (s : policyState) :
  quota_inv m s →
  (record m direction bytes now s).1 = (record_eager m direction bytes now s).1
  ∧ observable (record m direction bytes now s).2 = observable (record_eager m direction bytes now s).2
  ∧ quota_inv m (record m direction bytes now s).2.
Proof.
  intros Hs. apply and_assoc. split; [|by apply record_inv].
  unfold record_eager. rewrite Z.gtb_ltb. destruct (Z.ltb_spec 0 (m_width m)) as [Hw|]; [|done].
  rewrite !record_windowed by done. apply settle_observable, add_bucket_observable.
  assert (Hp : quota_inv m (pruneBucketsLocked m s (cutoff_at m now))) by (by apply prune_inv).
  rewrite !lazy_prune_observable by (by apply count_inv). rewrite !prune_count.
  pose proof (prune_twice_observable m s (cutoff_at m now) Hs) as Ht.
  revert Ht. generalize (pruneBucketsLocked m (pruneBucketsLocked m s (cutoff_at m now)) (cutoff_at m now)) as t.
  generalize (pruneBucketsLocked m s (cutoff_at m now)) as u.
  intros [] []. unfold observable, count. simpl. intros [=]. by subst.
Qed.

(** A meter of 1000 bytes a day and a state with three hours of usage in it. *)
Definition sample_meter : meter :=
  Meter (MkQuota 1000 0 0 Day 64000 256000 true) (quotaBucketWidthSecs Day).
Definition sample_state : policyState :=
  (record sample_meter Upload 300 (1000 * Hour)
    (record sample_meter Download 200 (999 * Hour) (fresh_state (lit "p") (lit "i") 1 0)).2).2.

Lemma fresh_inv m id identity generation now : quota_inv m (fresh_state id identity generation now).
Proof. split; [intros []; done|]. intros k [c Hk]. change ((∅ : gmap Z Counters) !! k = Some c) in Hk. by rewrite lookup_empty in Hk. Qed.

Lemma record_lazy_eager_witness :
  (record sample_meter Upload 600 (1001 * Hour) sample_state).1 = true
  ∧ observable (record sample_meter Upload 600 (1001 * Hour) sample_state).2
    = observable (record_eager sample_meter Upload 600 (1001 * Hour) sample_state).2.
Proof.
  split; [vm_compute; reflexivity|].
  apply (record_lazy_eager sample_meter Upload 600 (1001 * Hour) sample_state).
  apply record_inv, record_inv, fresh_inv.
Defined.

(** ** The rolling usage is the traffic of the window *)

Inductive traffic := TRecord (t : Z) (d : Direction) (bytes : Z) | TRefresh (t : Z).
Definition time_of (o : traffic) : Z := match o with TRecord t _ _ => t | TRefresh t => t end.

Definition run_traffic (m : meter) (s : policyState) (o : traffic) : policyState :=
  match o with
  | TRecord t d bytes => (record m d bytes t s).2
  | TRefresh t => refreshQuota m t s
  end.

(** Times do not decrease, are not before the epoch and leave room for a bucket. *)
Fixpoint clock_ok (m : meter) (from : Z) (ops : list traffic) : Prop :=
  match ops with
  | [] => True
  | o :: ops => (from ≤ time_of o)%Z ∧ (Unix (time_of o) + m_width m ≤ max_int64)%Z ∧ clock_ok m (time_of o) ops
  end.

#[export] Instance live_dec m cutoff k : Decision (live m cutoff k).
Proof. unfold live. apply _. Defined.

(** The traffic recorded in direction [d] whose bucket has not expired at [now]. *)
Definition counted (m : meter) (d : Direction) (now : Z) (o : traffic) : Z :=
  match o with
  | TRecord t d' bytes =>
    if decide (d = d' ∧ live m (cutoff_at m now) (bucket_of (m_width m) (Unix t))) then bytes else 0%Z
  | TRefresh _ => 0%Z
  end.
Definition window_sum (m : meter) (d : Direction) (now : Z) (ops : list traffic) : Z :=
  foldr (λ o acc, (counted m d now o + acc)%Z) 0%Z ops.

Section window.
Context (m : meter) (Hw : (0 < m_width m)%Z) (HW : (0 ≤ q_Window (m_quota m))%Z).
Implicit Types s : policyState.

(** All the buckets ever filled, without pruning. *)
Definition ref_step (b : gmap Z Counters) (o : traffic) : gmap Z Counters :=
  match o with
  | TRecord t d bytes =>
    let start := bucket_of (m_width m) (Unix t) in
    <[start := counters_add d bytes (default no_counters (b !! start))]> b
  | TRefresh _ => b
  end.
Definition ref_buckets (ops : list traffic) : gmap Z Counters := foldl ref_step ∅ ops.
Definition live_part (now : Z) (b : gmap Z Counters) : gmap Z Counters :=
  filter (λ kv, live m (cutoff_at m now) kv.1) b.

Lemma cutoff_mono t t' : (t ≤ t')%Z → (cutoff_at m t ≤ cutoff_at m t')%Z.
Proof. clear HW Hw. intros Ht. unfold cutoff_at, Unix, Second. apply Z.div_le_mono; lia. Qed.

Lemma bucket_bounds t : (0 ≤ t)%Z →
  (0 ≤ bucket_of (m_width m) (Unix t) ≤ Unix t ∧ Unix t < bucket_of (m_width m) (Unix t) + m_width m)%Z.
Proof using Hw.
  clear HW. intros Ht. assert (0 ≤ Unix t)%Z by (apply Z.div_pos; [done|unfold Second; lia]).
  unfold bucket_of. rewrite Z.quot_div_nonneg by lia.
  pose proof (Z.mul_div_le (Unix t) (m_width m) Hw). pose proof (Z.mul_succ_div_gt (Unix t) (m_width m) Hw).
  assert (0 ≤ Unix t / m_width m)%Z by (apply Z.div_pos; lia). nia.
Qed.

Lemma start_live t : (0 ≤ t)%Z → (Unix t + m_width m ≤ max_int64)%Z →
  live m (cutoff_at m t) (bucket_of (m_width m) (Unix t)).
Proof using Hw HW.
  intros Ht Hmax. pose proof (bucket_bounds t Ht) as Hb. unfold live, expire_at.
  rewrite wrap_id; [|done|unfold in_int, int64, int_min, int_max, max_int64 in *; simpl; lia].
  assert (cutoff_at m t ≤ Unix t)%Z by (unfold cutoff_at, Unix; apply Z.div_le_mono; [unfold Second|]; lia). lia.
Qed.

Lemma prune_live_part s now : s_Buckets (pruneBucketsLocked m s (cutoff_at m now)) = live_part now (s_Buckets s).
Proof.
  clear HW Hw. apply map_eq. intros k. apply option_eq. intros c. rewrite (proj1 (prune_spec m s (cutoff_at m now))).
  unfold live_part. by rewrite map_lookup_filter_Some.
Qed.

Lemma live_part_mono t t' b : (t ≤ t')%Z → live_part t' (live_part t b) = live_part t' b.
Proof.
  clear HW Hw. intros Ht. unfold live_part. rewrite map_filter_filter. apply map_filter_ext. intros k c _. simpl.
  pose proof (cutoff_mono t t' Ht). unfold live. lia.
Qed.

Definition window_inv (from : Z) (ops : list traffic) s : Prop :=
  quota_inv m s ∧ s_Buckets s = live_part from (ref_buckets ops).

Lemma window_step from ops s o : window_inv from ops s → (0 ≤ from)%Z → (from ≤ time_of o)%Z →
  (Unix (time_of o) + m_width m ≤ max_int64)%Z →
  window_inv (time_of o) (ops ++ [o]) (run_traffic m s o)
  ∧ s_OverQuota (run_traffic m s o) = quotaExceeded (m_quota m) (s_rolling (run_traffic m s o)).
Proof using Hw HW.
  intros [Hinv Hb] Hfrom Ht Hmax. destruct o as [t d bytes|t]; cbn [time_of run_traffic] in *.
  - split; [split; [by apply record_inv|]|].
    + rewrite record_windowed by done. set (start := bucket_of _ _). set (s1 := lazy_prune _ _ _ _).
      assert (Hs1 : s_Buckets s1 = live_part t (ref_buckets ops)).
      { unfold s1. destruct (lazy_prune_buckets m (cutoff_at m t) start (count d bytes t s)) as [-> _]; [by apply count_inv|].
        rewrite prune_live_part. simpl. rewrite Hb. by apply live_part_mono. }
      assert (Hset : s_Buckets (settle m (add_bucket m d bytes start s1)).2 =
                     <[start := counters_add d bytes (default no_counters (s_Buckets s1 !! start))]> (s_Buckets s1)).
      { unfold settle. by destruct (_ && _). }
      rewrite Hset, Hs1. unfold ref_buckets. rewrite foldl_snoc. fold (ref_buckets ops). simpl.
      fold start. unfold live_part at 3. pose proof (start_live t ltac:(lia) Hmax) as Hlive.
      rewrite map_filter_insert_True by done. fold (live_part t (ref_buckets ops)). f_equal. f_equal. f_equal.
      unfold live_part. destruct (ref_buckets ops !! start) as [c|] eqn:Hc.
      * by apply map_lookup_filter_Some.
      * apply map_lookup_filter_None. by left.
    + rewrite record_windowed by done. unfold settle. by destruct (_ && _).
  - unfold refreshQuota. destruct (Z.leb_spec (m_width m) 0); [lia|].
    split; [|done]. split.
    + destruct (prune_inv m s (cutoff_at m t) Hinv) as [H1 H2]. by split.
    + simpl. rewrite prune_live_part, Hb, live_part_mono by done. unfold ref_buckets. by rewrite foldl_snoc.
Qed.

Lemma window_run from ops s : window_inv from [] s → (0 ≤ from)%Z → clock_ok m from ops →
  ∀ o, last ops = Some o →
    window_inv (time_of o) ops (foldl (run_traffic m) s ops)
    ∧ s_OverQuota (foldl (run_traffic m) s ops) = quotaExceeded (m_quota m) (s_rolling (foldl (run_traffic m) s ops)).
Proof using Hw HW.
  intros Hs Hfrom Hclock.
  assert (Hgen : ∀ prev s from, window_inv from prev s → (0 ≤ from)%Z → clock_ok m from ops → ∀ o, last ops = Some o →
    window_inv (time_of o) (prev ++ ops) (foldl (run_traffic m) s ops)
    ∧ s_OverQuota (foldl (run_traffic m) s ops) = quotaExceeded (m_quota m) (s_rolling (foldl (run_traffic m) s ops))).
  { clear s from Hs Hfrom Hclock. induction ops as [|o ops IH]; intros prev s from Hs Hfrom Hc last_o Hlast; [done|].
    destruct Hc as (Hle & Hmax & Hclock).
    destruct (window_step from prev s o Hs Hfrom Hle Hmax) as [Hs' Hover]. simpl.
    destruct ops as [|o' ops'].
    - simpl in Hlast. injection Hlast as <-. done.
    - change (o :: o' :: ops') with ([o] ++ o' :: ops'). rewrite (app_assoc prev [o] (o' :: ops')). apply (IH (prev ++ [o]) _ (time_of o)); [done|lia|done|done]. }
  by apply (Hgen [] s from).
Qed.

Lemma live_part_insert now b k c : live_part now (<[k := c]> b) =
  if decide (live m (cutoff_at m now) k) then <[k := c]> (live_part now b) else live_part now b.
Proof.
  clear HW Hw. unfold live_part. case_decide as Hl; [by rewrite map_filter_insert_True|].
  rewrite map_filter_insert_False by done. apply map_eq. intros i. apply option_eq. intros x.
  rewrite !map_lookup_filter_Some, lookup_delete_Some. naive_solver.
Qed.

Lemma live_part_lookup now b k : live m (cutoff_at m now) k → live_part now b !! k = b !! k.
Proof.
  clear HW Hw. intros Hl. apply option_eq. intros c. unfold live_part. rewrite map_lookup_filter_Some. simpl. tauto.
Qed.

(** Bucket by bucket or event by event, the live sum is the same. *)
Lemma live_sum_window d now ops :
  wrap int64 (bucket_sum d (live_part now (ref_buckets ops))) = wrap int64 (window_sum m d now ops).
Proof.
  clear HW Hw. induction ops as [|o ops IH] using rev_ind; [done|].
  assert (Hws : window_sum m d now (ops ++ [o]) = (window_sum m d now ops + counted m d now o)%Z).
  { unfold window_sum. rewrite foldr_app. simpl. clear. induction ops as [|x ops IH]; simpl; [lia|]. rewrite IH. lia. }
  rewrite Hws. unfold ref_buckets. rewrite foldl_snoc. fold (ref_buckets ops).
  destruct o as [t d' bytes|t]; cbn [ref_step counted]; [|by rewrite Z.add_0_r].
  rewrite live_part_insert. set (start := bucket_of _ _).
  destruct (decide (live m (cutoff_at m now) start)) as [Hl|Hl].
  - rewrite bucket_sum_update, get_counters_add, live_part_lookup by done.
    destruct (decide (d = d')) as [<-|Hne].
    + rewrite decide_True by done. rewrite <- Z.add_sub_swap, <- Z.add_sub_assoc, wrap_wrap_add by done.
      rewrite <- (wrap_wrap_add _ (window_sum m d now ops)), <- IH, wrap_wrap_add by done. f_equal. lia.
    + rewrite decide_False by tauto. rewrite Z.add_0_r, <- IH. f_equal. lia.
  - rewrite decide_False by tauto. by rewrite Z.add_0_r.
Qed.
End window.

(** C1: the rolling usage is exactly the traffic of the window. Starting from a
    state without buckets, after any sequence of recordings and refreshes under
    a clock that does not run backwards, the rolling counters are (modulo
    2^64) the bytes recorded in buckets that have not expired at the time of
    the last operation, and the policy is over quota exactly when these
    counters reach a configured limit. *)
Theorem quota_window (m : meter) (ops : list traffic) (o : traffic) (s : policyState) :
  (0 < m_width m)%Z → (0 ≤ q_Window (m_quota m))%Z → quota_inv m s → s_Buckets s = ∅ →
  clock_ok m 0 ops → last ops = Some o →
  let s' := foldl (run_traffic m) s ops in
  (∀ d, get_bytes d (s_rolling s') = wrap int64 (window_sum m d (time_of o) ops))
  ∧ s_OverQuota s' = quotaExceeded (m_quota m) (s_rolling s').
Proof.
  intros Hw HW Hinv Hb Hclock Hlast s'.
  assert (Hs : window_inv m 0 [] s) by (split; [done|]; by rewrite Hb).
  destruct (window_run m Hw HW 0 ops s Hs ltac:(done) Hclock o Hlast) as [[[Hsum _] Hbuckets] Hover].
  split; [|done]. intros d. unfold s'. rewrite (Hsum d), Hbuckets. apply live_sum_window.
Qed.

Definition sample_traffic : list traffic :=
  [TRecord (999 * Hour) Download 200; TRecord (1000 * Hour) Upload 300; TRefresh (1001 * Hour);
   TRecord (1023 * Hour + 30 * Minute) Download 850].

Lemma quota_window_witness :
  let s' := foldl (run_traffic sample_meter) (fresh_state (lit "p") (lit "i") 1 0) sample_traffic in
  get_bytes Download (s_rolling s') = 850%Z ∧ get_bytes Upload (s_rolling s') = 300%Z ∧ s_OverQuota s' = true.
Proof.
  intros s'.
  destruct (quota_window sample_meter sample_traffic (TRecord (1023 * Hour + 30 * Minute) Download 850)
    (fresh_state (lit "p") (lit "i") 1 0)) as [Hsum Hover].
  - vm_compute. reflexivity.
  - vm_compute. discriminate.
  - apply fresh_inv.
  - reflexivity.
  - vm_compute. repeat split; discriminate.
  - reflexivity.
  - split; [|split].
    + unfold s'. rewrite Hsum. vm_compute. reflexivity.
    + unfold s'. rewrite Hsum. vm_compute. reflexivity.
    + unfold s'. rewrite Hover. vm_compute. reflexivity.
Defined.

(** The window is exact up to one bucket: traffic not older than the quota
    window is always counted, and traffic that is counted is older than the
    window by less than the width of a bucket. *)
Theorem window_precision (m : meter) (t now : Z) :
  (0 < m_width m)%Z → (0 ≤ t)%Z → (Unix t + m_width m ≤ max_int64)%Z →
  let counts := live m (cutoff_at m now) (bucket_of (m_width m) (Unix t)) in
  ((now - q_Window (m_quota m) ≤ t)%Z → counts)
  ∧ (counts → (now - q_Window (m_quota m) < t + m_width m * Second)%Z).
Proof.
  intros Hw Ht Hmax counts. pose proof (bucket_bounds m Hw t Ht) as Hb. unfold counts, live, expire_at.
  rewrite wrap_id; [|done|unfold in_int, int64, int_min, int_max, max_int64 in *; simpl; lia].
  unfold cutoff_at, Unix in *. set (x := (now - q_Window (m_quota m))%Z).
  assert (Hs : (0 < Second)%Z) by done. split.
  - intros Hx. assert (x / Second ≤ t / Second)%Z by (apply Z.div_le_mono; lia). lia.
  - intros Hx. assert (x / Second < t / Second + m_width m)%Z by lia.
    pose proof (Z.mul_succ_div_gt x Second Hs). pose proof (Z.mul_div_le t Second Hs). nia.
Qed.

Lemma window_precision_witness :
  live sample_meter (cutoff_at sample_meter (30 * Hour)) (bucket_of (m_width sample_meter) (Unix (20 * Hour))).
Proof.
  apply (window_precision sample_meter (20 * Hour) (30 * Hour)); vm_compute; try reflexivity; discriminate.
Defined.

(** *** How many buckets there can be *)

Lemma duration_round_ge d : (0 ≤ d)%Z → (d - Second / 2 ≤ duration_round d Second ≤ d + Second / 2)%Z
  ∧ (Second | duration_round d Second)%Z.
Proof.
  intros Hd. unfold duration_round. rewrite Z.rem_mod_nonneg by done.
  pose proof (Z.mod_pos_bound d Second ltac:(done)). pose proof (Z.div_mod d Second ltac:(done)) as Hdm.
  change (Second / 2)%Z with 500000000%Z. change Second with 1000000000%Z in *.
  destruct (Z.ltb_spec (d mod 1000000000 + d mod 1000000000) 1000000000); split; try lia.
  - exists (d / 1000000000)%Z. lia.
  - exists (d / 1000000000 + 1)%Z. lia.
Qed.

Lemma bucket_width_bounds window : (minQuotaWindow ≤ window)%Z →
  let w := quotaBucketWidthSecs window in (60 ≤ w)%Z ∧ (window ≤ 1024 * (w * Second + Second / 2))%Z.
Proof.
  intros Hwin. unfold quotaBucketWidthSecs, quotaBucketWidth.
  rewrite (Z.quot_div_nonneg (window + 1023)) by (unfold minQuotaWindow, Hour, Minute, Second in *; lia).
  set (width := ((window + 1023) / 1024)%Z).
  assert (window ≤ 1024 * width)%Z.
  { unfold width. pose proof (Z.mul_succ_div_gt (window + 1023) 1024 ltac:(lia)). lia. }
  set (w' := if (width <? Minute)%Z then Minute else width).
  assert (Hw' : (Minute ≤ w' ∧ width ≤ w')%Z) by (unfold w'; case_match; zify_bool; lia).
  assert (0 ≤ w')%Z by (unfold Minute, Second in *; lia).
  destruct (duration_round_ge w' ltac:(done)) as [Hr [q Hq]]. rewrite Hq in *.
  rewrite Z.quot_mul by done. change (Second / 2)%Z with 500000000%Z in *. change Second with 1000000000%Z in *.
  unfold Minute, Second in *. destruct (Z.ltb_spec q 1); lia.
Qed.

(** Every bucket ever filled starts at a multiple of the width. *)
Lemma ref_buckets_keys m ops k : is_Some (ref_buckets m ops !! k) → clock_ok m 0 ops → (0 < m_width m)%Z →
  ∃ t, (0 ≤ t)%Z ∧ k = bucket_of (m_width m) (Unix t) ∧ ∃ o, o ∈ ops ∧ t = time_of o.
Proof.
  intros Hk Hclock Hw.
  assert (Hpos : ∀ from ops, (0 ≤ from)%Z → clock_ok m from ops → ∀ o, o ∈ ops → (0 ≤ time_of o)%Z).
  { clear. intros from ops. revert from. induction ops as [|o ops IH]; intros from Hf Hc o' Ho; [by apply elem_of_nil in Ho|].
    destruct Hc as (Hle & _ & Hc). apply elem_of_cons in Ho as [->|Ho]; [lia|]. apply (IH (time_of o)); [lia|done|done]. }
  specialize (Hpos 0%Z ops ltac:(done) Hclock). clear Hclock.
  induction ops as [|o ops IH] using rev_ind; [by destruct Hk as [c Hk]; change ((∅ : gmap Z Counters) !! k = Some c) in Hk; rewrite lookup_empty in Hk|].
  unfold ref_buckets in Hk. rewrite foldl_snoc in Hk. fold (ref_buckets m ops) in Hk.
  assert (Hold : is_Some (ref_buckets m ops !! k) → ∃ t, (0 ≤ t)%Z ∧ k = bucket_of (m_width m) (Unix t) ∧ ∃ o', o' ∈ ops ++ [o] ∧ t = time_of o').
  { intros Hk'. destruct (IH Hk') as (t & ? & ? & o' & ? & ?); [intros; apply Hpos; set_solver|].
    exists t. split; [done|]. split; [done|]. exists o'. set_solver. }
  destruct o as [t d b|t]; [|by apply Hold]. simpl in Hk. apply lookup_insert_is_Some in Hk as [<-|[_ Hk]]; [|by apply Hold].
  exists t. split; [apply (Hpos (TRecord t d b)); set_solver|]. split; [done|]. exists (TRecord t d b). set_solver.
Qed.

Lemma clock_last m from ops o o' : clock_ok m from ops → last ops = Some o → o' ∈ ops →
  (time_of o' ≤ time_of o)%Z ∧ (Unix (time_of o') + m_width m ≤ max_int64)%Z.
Proof.
  revert from o'. induction ops as [|x ops IH]; intros from o' Hc Hl Hin; [done|]. destruct Hc as (Hle & Hmax & Hc).
  destruct ops as [|y ops]; [simpl in Hl; injection Hl as <-; apply list_elem_of_singleton in Hin as ->; by split|].
  apply elem_of_cons in Hin as [->|Hin]; [|by eapply IH].
  destruct (IH (time_of x) y Hc Hl ltac:(left)) as [Hy _]. destruct Hc. split; [lia|done].
Qed.

(** The counted buckets start at one of the last 1035 multiples of the width. *)
Lemma live_key_range m t now : (60 ≤ m_width m)%Z →
  (q_Window (m_quota m) ≤ 1024 * (m_width m * Second + Second / 2))%Z →
  (0 ≤ t ≤ now)%Z → (Unix t + m_width m ≤ max_int64)%Z →
  live m (cutoff_at m now) (bucket_of (m_width m) (Unix t)) →
  ∃ i, (i < 1035)%nat ∧ bucket_of (m_width m) (Unix t) = ((Unix now / m_width m - Z.of_nat i) * m_width m)%Z.
Proof.
  intros Hw60 HwW Ht Hmax Hlive. set (w := m_width m) in *. assert (Hw : (0 < w)%Z) by lia.
  apply (window_precision m t now Hw ltac:(lia) Hmax) in Hlive. fold w in Hlive. change Second with 1000000000%Z in *.
  assert (HT : (0 ≤ Unix t ≤ Unix now)%Z) by (unfold Unix; split; [apply Z.div_pos|apply Z.div_le_mono]; unfold Second; lia).
  assert (Hq : (Unix t / w ≤ Unix now / w)%Z) by (apply Z.div_le_mono; lia).
  assert (Hspan : ((Unix now - Unix t) * 1000000000 ≤ q_Window (m_quota m) + w * 1000000000 + 1000000000)%Z).
  { unfold Unix. change Second with 1000000000%Z. pose proof (Z.mul_div_le now 1000000000 ltac:(done)).
    pose proof (Z.mul_succ_div_gt t 1000000000 ltac:(done)). lia. }
  exists (Z.to_nat (Unix now / w - Unix t / w)). unfold bucket_of. rewrite Z2Nat.id, Z.quot_div_nonneg by lia. split; [|f_equal; lia].
  change (1000000000 / 2)%Z with 500000000%Z in HwW.
  pose proof (Z.mul_div_le (Unix now) w Hw). pose proof (Z.mul_succ_div_gt (Unix t) w Hw).
  assert ((Unix now / w - Unix t / w) < 1035)%Z by nia. lia.
Qed.

(** A policy never keeps more than 1035 buckets, whatever traffic it sees:
    with the bucket width the manager derives from a valid quota window, the
    buckets left after any sequence of recordings and refreshes under a clock
    that does not run backwards are at most that many. *)
Theorem bucket_count_bound (spec : Policy) (ops : list traffic) (o : traffic) (s : policyState) :
  let m := new_meter spec in
  (minQuotaWindow ≤ q_Window (po_Quota spec))%Z → quota_inv m s → s_Buckets s = ∅ →
  clock_ok m 0 ops → last ops = Some o →
  (size (s_Buckets (foldl (run_traffic m) s ops)) ≤ 1035)%nat.
Proof.
  intros m Hmin Hinv Hb Hclock Hlast. destruct (bucket_width_bounds _ Hmin) as [Hw60 HwW].
  assert (HW : (0 < q_Window (m_quota m))%Z) by (unfold m; simpl; unfold minQuotaWindow, Hour, Minute, Second in *; lia).
  assert (Hwidth : m_width m = quotaBucketWidthSecs (q_Window (m_quota m))).
  { unfold m, new_meter. simpl. rewrite Z.gtb_ltb. destruct (Z.ltb_spec 0 (q_Window (po_Quota spec))); [done|].
    unfold m in HW. simpl in HW. lia. }
  change (q_Window (po_Quota spec)) with (q_Window (m_quota m)) in Hw60, HwW. rewrite <- Hwidth in Hw60, HwW.
  assert (Hs : window_inv m 0 [] s) by (split; [done|]; by rewrite Hb).
  destruct (window_run m ltac:(lia) ltac:(lia) 0 ops s Hs ltac:(done) Hclock o Hlast) as [[_ ->] _]. rewrite <- size_dom.
  set (key := λ i : nat, ((Unix (time_of o) / m_width m - Z.of_nat i) * m_width m)%Z).
  assert (Hsub : dom (live_part m (time_of o) (ref_buckets m ops)) ⊆ (list_to_set (key <$> seq 0 1035) : gset Z)).
  { intros k Hk. apply elem_of_dom in Hk as [c Hk]. unfold live_part in Hk. apply map_lookup_filter_Some in Hk as [Hk Hlive].
    destruct (ref_buckets_keys m ops k) as (t & Ht & -> & o' & Ho' & Hto); [by eexists|done|lia|].
    destruct (clock_last m 0 ops o o' Hclock Hlast Ho') as [Hle Hmax]. rewrite <- Hto in Hle, Hmax.
    destruct (live_key_range m t (time_of o) Hw60 HwW ltac:(lia) Hmax Hlive) as (i & Hi & Heq).
    apply elem_of_list_to_set, list_elem_of_fmap. exists i. split; [done|]. apply elem_of_seq. lia. }
  apply subseteq_size in Hsub. rewrite size_list_to_set in Hsub by (apply NoDup_fmap_2_strong; [intros i j _ _ Hij; unfold key in Hij; nia|apply NoDup_seq]).
  by rewrite length_fmap, length_seq in Hsub.
Qed.

Lemma bucket_count_bound_witness :
  let spec := MkPolicy (lit "p") [] PolicyGlobal true 0 0 (m_quota sample_meter) [] [] no_rule no_target in
  (size (s_Buckets (foldl (run_traffic (new_meter spec)) (fresh_state (lit "p") (lit "i") 1 0) sample_traffic)) ≤ 1035)%nat.
Proof.
  intros spec. apply (bucket_count_bound spec sample_traffic (TRecord (1023 * Hour + 30 * Minute) Download 850)).
  - vm_compute. discriminate.
  - apply fresh_inv.
  - reflexivity.
  - vm_compute. repeat split; discriminate.
  - reflexivity.
Defined.
