(* ===== verification/TrafficReports.v ===== *)
(** * TrafficReports: the usage reports of the traffic controller

    The reporting part of [src/component/trafficcontrol/manager.go]: the keys a
    session reports under ([uniqueStrings], [reportPairKey], [reportKeys]), the
    hourly, daily and monthly series ([reportSeries], [recordReports] and its
    siblings), the roll-up of hours into days and months
    ([rollupAndPruneLocked]), the queries ([Reports]) and the bounds on the
    number of series ([limitStagedReports], [dropOldestReportSeries]).

    Series are values here: the code only reaches a series through the map it
    is in. A loop over a Go map is a fold over its entries; the lemmas hold for
    every order of the entries. *)
From S2P Require Import Prelude GoStrings NetIP TrafficModel TrafficQuota.

(** ** Report keys *)

(** [uniqueStrings] with the strings seen so far. *)
Fixpoint unique_loop (seen : gset str) (values : list str) : list str :=
  match values with
  | [] => []
  | v :: values => if decide (v ∈ seen) then unique_loop seen values else v :: unique_loop ({[v]} ∪ seen) values
  end.
Definition uniqueStrings (values : list str) : list str := unique_loop ∅ values.

Definition reportPairKey (left right : str) : str :=
  if str_ltb right left then right ++ lit "|" ++ left else left ++ lit "|" ++ right.

Definition maxReportKeysPerSession : nat := 128.
Definition maxReportSeries : nat := 4096.

(** The pairs [i < j], in the order of the nested loops. *)
Fixpoint pair_keys (dimensions : list str) : list str :=
  match dimensions with
  | [] => []
  | d :: ds => (reportPairKey d <$> ds) ++ pair_keys ds
  end.

(** The loops stop when the limit is reached. *)
Definition reportKeys (dimensions : list str) : list str :=
  let dimensions := uniqueStrings dimensions in
  take maxReportKeysPerSession (dimensions ++ pair_keys dimensions).

(** ** Calendar *)

Definition hour_start (unix : Z) : Z := (Z.quot unix 3600 * 3600)%Z.
(** [Truncate(time.Hour)]. *)
Definition hour_floor (unix : Z) : Z := (unix / 3600 * 3600)%Z.
Definition day_start (unix : Z) : Z := (unix / 86400 * 86400)%Z.

(** The day of the month of a day number, in the proleptic Gregorian calendar
    (years are counted from March, so that the leap day comes last). *)
Definition day_of_month (days : Z) : Z :=
  let z := (days + 719468)%Z in
  let doe := (z mod 146097)%Z in
  let yoe := ((doe - doe / 1460 + doe / 36524 - doe / 146096) / 365)%Z in
  let doy := (doe - (365 * yoe + yoe / 4 - yoe / 100))%Z in
  let mp := ((5 * doy + 2) / 153)%Z in
  (doy - (153 * mp + 2) / 5 + 1)%Z.

Definition month_start (unix : Z) : Z :=
  let days := (unix / 86400)%Z in ((days - (day_of_month days - 1)) * 86400)%Z.

(** ** Series *)

Record reportSeries := MkSeries {
  r_Key : str; r_Updated : Z; r_Hourly : gmap Z Counters; r_Daily : gmap Z Counters;
  r_Monthly : gmap Z Counters; r_Rolled : gset Z
}.

Definition new_series (key : str) : reportSeries := MkSeries key 0 ∅ ∅ ∅ ∅.

(** [Manager.reportSeries]: the series of a key, made when there is room. *)
Definition report_series (key : str) (reports : gmap str reportSeries) : option reportSeries * gmap str reportSeries :=
  match reports !! key with
  | Some series => (Some series, reports)
  | None =>
    if (maxReportSeries <=? size reports)%nat then (None, reports)
    else (Some (new_series key), <[key := new_series key]> reports)
  end.

(** What the three recording functions do with the hour's counters. *)
Definition record_keys (change : Counters → Counters) (now : Z) (keys : list str) (reports : gmap str reportSeries)
    : gmap str reportSeries :=
  let hour := hour_start (Unix now) in
  foldl (λ reports key,
    let '(series, reports) := report_series key reports in
    match series with
    | None => reports
    | Some s =>
      let counters := change (default no_counters (r_Hourly s !! hour)) in
      <[key := MkSeries (r_Key s) (Unix now) (<[hour := counters]> (r_Hourly s)) (r_Daily s) (r_Monthly s) (r_Rolled s)]> reports
    end) reports keys.

Definition recordReports (enabled : bool) (keys : list str) (direction : Direction) (bytes now : Z)
    (reports : gmap str reportSeries) : gmap str reportSeries :=
  if enabled then record_keys (counters_add direction bytes) now keys reports else reports.

Definition recordReportConnections (enabled : bool) (keys : list str) (count now : Z)
    (reports : gmap str reportSeries) : gmap str reportSeries :=
  if enabled then
    record_keys (λ c, MkCounters (UploadBytes c) (DownloadBytes c) (wrap int64 (Connections c + count)) (ExceededEvents c))
      now keys reports
  else reports.

Definition recordReportExceeded (enabled : bool) (keys : list str) (now : Z)
    (reports : gmap str reportSeries) : gmap str reportSeries :=
  if enabled then
    record_keys (λ c, MkCounters (UploadBytes c) (DownloadBytes c) (Connections c) (wrap int64 (ExceededEvents c + 1)))
      now keys reports
  else reports.

(** ** Roll-up *)

(** One iteration over the hourly counters of a series. *)
Definition roll_step (now : Z) (reports : ReportsConfig) (s : reportSeries) (entry : Z * Counters) : reportSeries :=
  let '(start, counters) := entry in
  let s :=
    if (start <? hour_floor (Unix now))%Z && negb (bool_decide (start ∈ r_Rolled s)) then
      let day := day_start start in
      let month := month_start start in
      MkSeries (r_Key s) (r_Updated s) (r_Hourly s)
        (<[day := addCounters (default no_counters (r_Daily s !! day)) counters]> (r_Daily s))
        (<[month := addCounters (default no_counters (r_Monthly s !! month)) counters]> (r_Monthly s))
        ({[start]} ∪ r_Rolled s)
    else s in
  if (start <? Unix (now - rep_HourlyRetention reports))%Z
  then MkSeries (r_Key s) (r_Updated s) (delete start (r_Hourly s)) (r_Daily s) (r_Monthly s) (r_Rolled s)
  else s.

(** The three loops that drop what is no longer needed. *)
Definition prune_series (now : Z) (reports : ReportsConfig) (s : reportSeries) : reportSeries :=
  MkSeries (r_Key s) (r_Updated s) (r_Hourly s)
    (filter (λ kv, (Unix (now - rep_DailyRetention reports) ≤ kv.1)%Z) (r_Daily s))
    (filter (λ kv, (Unix (now - rep_MonthlyRetention reports) ≤ kv.1)%Z) (r_Monthly s))
    (filter (λ start, is_Some (r_Hourly s !! start)) (r_Rolled s)).

Definition rollup_series (now : Z) (reports : ReportsConfig) (s : reportSeries) : reportSeries :=
  prune_series now reports (foldl (roll_step now reports) s (map_to_list (r_Hourly s))).

Definition series_empty (s : reportSeries) : bool :=
  bool_decide (r_Hourly s = ∅) && bool_decide (r_Daily s = ∅) && bool_decide (r_Monthly s = ∅).

(** The reports after the roll-up; a series that became empty is dropped. *)
Definition rollup_reports (now : Z) (reports : ReportsConfig) (all : gmap str reportSeries) : gmap str reportSeries :=
  filter (λ kv, series_empty kv.2 = false) (rollup_series now reports <$> all).

(** ** Queries *)

(** [source] of [Reports] for days and months: the stored totals plus the hours
    that are not rolled up yet. *)
Definition merge_unrolled (bucket : Z → Z) (s : reportSeries) (stored : gmap Z Counters) : gmap Z Counters :=
  foldl (λ source '(start, counters),
    if bool_decide (start ∈ r_Rolled s) then source
    else <[bucket start := addCounters (default no_counters (source !! bucket start)) counters]> source)
    stored (map_to_list (r_Hourly s)).

Inductive granularity := ByHour | ByDay | ByMonth.

Definition report_source (g : granularity) (s : reportSeries) : gmap Z Counters :=
  match g with
  | ByHour => r_Hourly s
  | ByDay => merge_unrolled day_start s (r_Daily s)
  | ByMonth => merge_unrolled month_start s (r_Monthly s)
  end.

Definition parse_granularity (unicode_lower : str → str) (g : str) : option granularity :=
  let g := ToLower unicode_lower g in
  if decide (g = lit "hour") then Some ByHour
  else if decide (g = lit "day") then Some ByDay
  else if decide (g = lit "month") then Some ByMonth else None.

Record UsageBucket := MkUsage { ub_Start : Z; ub_Counters : Counters }.

Definition Reports `{SortSlice} (unicode_lower : str → str) (key gran : str) (from to : Z)
    (all : gmap str reportSeries) : result (list UsageBucket) :=
  match parse_granularity unicode_lower gran with
  | None => Err "invalid report granularity"
  | Some g =>
    match all !! key with
    | None => Ok []
    | Some s =>
      let picked := filter (λ kv, (Unix from ≤ kv.1 < Unix to)%Z) (map_to_list (report_source g s)) in
      Ok (sort_slice (λ a b, (ub_Start a <? ub_Start b)%Z) ((λ '(start, c), MkUsage start c) <$> picked))
    end
  end.

(** ** Bounds on the number of series *)

Definition newest_last (a b : str * Z) : bool :=
  if (a.2 =? b.2)%Z then str_ltb a.1 b.1 else (a.2 <? b.2)%Z.

Definition report_candidates (reports : gmap str reportSeries) : list (str * Z) :=
  (λ '(key, s), (key, r_Updated s)) <$> map_to_list reports.

Definition limitStagedReports `{SortSlice} (reports : gmap str reportSeries) : gmap str reportSeries :=
  if (size reports <=? maxReportSeries)%nat then reports
  else
    let candidates := sort_slice newest_last (report_candidates reports) in
    foldl (λ m c, delete c.1 m) reports (take (length candidates - maxReportSeries) candidates).

Definition dropOldestReportSeries `{SortSlice} (reports : gmap str reportSeries) : bool * gmap str reportSeries :=
  if decide (size reports = 0) then (false, reports)
  else
    let candidates := sort_slice (λ a b : str * Z, (a.2 <? b.2)%Z) (report_candidates reports) in
    let count := (length candidates + 9) / 10 in
    let count := if (count <? 1)%nat then 1 else count in
    (true, foldl (λ m c, delete c.1 m) reports (take count candidates)).

(** ** Rolling up does not change what the reports say *)

(** Adding counters to an optional total. *)
Definition bump (o : option Counters) (c : Counters) : option Counters :=
  Some (addCounters (default no_counters o) c).

Lemma addCounters_swap a b c : addCounters (addCounters a b) c = addCounters (addCounters a c) b.
Proof. unfold addCounters. simpl. f_equal; rewrite !wrap_wrap_add by done; f_equal; lia. Qed.

Lemma bump_perm o l l' : l ≡ₚ l' → foldl bump o l = foldl bump o l'.
Proof.
  intros Hp. revert o. induction Hp as [|x l l' _ IH|x y l|l l' l'' _ IH1 _ IH2]; intros o; simpl;
    [done|apply IH| |by rewrite IH1].
  f_equal. unfold bump. simpl. by rewrite addCounters_swap.
Qed.

Section merge.
Context (bucket : Z → Z).

(** The entries with property [P] that fall in bucket [d]. *)
Definition entries_in (P : Z → bool) (d : Z) (l : list (Z * Counters)) : list (Z * Counters) :=
  filter (λ kv, P kv.1 = true ∧ bucket kv.1 = d) l.

Definition merge_step (P : Z → bool) (m : gmap Z Counters) (kv : Z * Counters) : gmap Z Counters :=
  if P kv.1 then <[bucket kv.1 := addCounters (default no_counters (m !! bucket kv.1)) kv.2]> m else m.

Lemma merge_step_lookup P m kv d :
  merge_step P m kv !! d = if decide (P kv.1 = true ∧ bucket kv.1 = d) then bump (m !! d) kv.2 else m !! d.
Proof.
  unfold merge_step. destruct (P kv.1); [|by rewrite decide_False by naive_solver].
  destruct (decide (bucket kv.1 = d)) as [<-|Hne].
  - by rewrite lookup_insert_eq, decide_True.
  - by rewrite lookup_insert_ne, decide_False by naive_solver.
Qed.

Lemma merge_lookup P l m d :
  foldl (merge_step P) m l !! d = foldl bump (m !! d) (snd <$> entries_in P d l).
Proof.
  revert m. induction l as [|kv l IH]; intros m; [done|]. cbn [foldl]. rewrite IH, merge_step_lookup.
  unfold entries_in. rewrite filter_cons. by case_decide.
Qed.

Lemma merge_unrolled_lookup s stored d :
  merge_unrolled bucket s stored !! d =
  foldl bump (stored !! d) (snd <$> entries_in (λ k, negb (bool_decide (k ∈ r_Rolled s))) d (map_to_list (r_Hourly s))).
Proof.
  rewrite <- merge_lookup. unfold merge_unrolled. f_equal. generalize (map_to_list (r_Hourly s)) as l.
  intros l. revert stored. induction l as [|[k c] l IH]; intros m; [done|]. simpl. rewrite IH. f_equal.
  unfold merge_step. simpl. by case_bool_decide.
Qed.
End merge.

Section rollup.
Context (now : Z) (cfg : ReportsConfig).

Definition due (k : Z) : bool := (k <? hour_floor (Unix now))%Z.
Definition expired (k : Z) : bool := (k <? Unix (now - rep_HourlyRetention cfg))%Z.
Definition rolls (s : reportSeries) (k : Z) : bool := due k && negb (bool_decide (k ∈ r_Rolled s)).

Lemma roll_step_eq s k c : roll_step now cfg s (k, c) =
  MkSeries (r_Key s) (r_Updated s) (if expired k then delete k (r_Hourly s) else r_Hourly s)
    (merge_step day_start (rolls s) (r_Daily s) (k, c)) (merge_step month_start (rolls s) (r_Monthly s) (k, c))
    (if rolls s k then {[k]} ∪ r_Rolled s else r_Rolled s).
Proof.
  unfold roll_step, merge_step, rolls, due, expired. simpl. destruct ((k <? hour_floor (Unix now))%Z && _); simpl;
    destruct (k <? Unix (now - rep_HourlyRetention cfg))%Z; simpl; try done; by destruct s.
Qed.

(** The state of the series after a prefix of the loop. *)
Lemma roll_loop l s : NoDup l.*1 →
  let s' := foldl (roll_step now cfg) s l in
  (∀ k, r_Hourly s' !! k = if decide (k ∈ l.*1 ∧ expired k = true) then None else r_Hourly s !! k)
  ∧ (∀ d, r_Daily s' !! d = foldl bump (r_Daily s !! d) (snd <$> entries_in day_start (rolls s) d l))
  ∧ (∀ d, r_Monthly s' !! d = foldl bump (r_Monthly s !! d) (snd <$> entries_in month_start (rolls s) d l))
  ∧ (∀ k, k ∈ r_Rolled s' ↔ k ∈ r_Rolled s ∨ k ∈ l.*1 ∧ due k = true).
Proof.
  revert s. induction l as [|[k c] l IH]; intros s Hnd.
  { simpl. split_and!; try done. intros k. split; [by left|]. intros [?|[Hk _]]; [done|]. by apply elem_of_nil in Hk. }
  rewrite fmap_cons in Hnd. apply NoDup_cons in Hnd as [Hk Hnd]. cbn [foldl fst] in *.
  set (s1 := roll_step now cfg s (k, c)). destruct (IH s1 Hnd) as (Hh & Hd & Hm & Hr).
  assert (Hs1 : s1 = roll_step now cfg s (k, c)) by done. rewrite roll_step_eq in Hs1.
  assert (Hrolls : ∀ k' c', (k', c') ∈ l → rolls s1 k' = rolls s k').
  { intros k' c' Hin. unfold rolls. rewrite Hs1. simpl. f_equal. f_equal. apply bool_decide_ext.
    destruct (rolls s k); [|done]. rewrite elem_of_union, elem_of_singleton. split; [|by right].
    intros [->|?]; [|done]. destruct Hk. apply list_elem_of_fmap. by exists (k, c'). }
  assert (Hent : ∀ bucket d, entries_in bucket (rolls s1) d l = entries_in bucket (rolls s) d l).
  { intros bucket d. unfold entries_in. apply filter_ext_in. intros [k' c'] Hin. simpl. by rewrite (Hrolls k' c' Hin). }
  split_and!.
  - intros k'. rewrite Hh, Hs1, fmap_cons. cbn [r_Hourly fst].
    assert (Hiff : k' ∈ k :: l.*1 ∧ expired k' = true ↔ (k' = k ∧ expired k = true) ∨ (k' ∈ l.*1 ∧ expired k' = true)).
    { rewrite elem_of_cons. naive_solver. }
    destruct (expired k) eqn:He.
    + destruct (decide (k' = k)) as [->|Hne]; [rewrite lookup_delete_eq|rewrite lookup_delete_ne by done];
        repeat case_decide; naive_solver.
    + repeat case_decide; naive_solver.
  - intros d. rewrite Hd, Hent, Hs1. cbn [r_Daily]. rewrite merge_step_lookup.
    unfold entries_in at 2. rewrite filter_cons. by case_decide.
  - intros d. rewrite Hm, Hent, Hs1. cbn [r_Monthly]. rewrite merge_step_lookup.
    unfold entries_in at 2. rewrite filter_cons. by case_decide.
  - intros k'. rewrite Hr, Hs1, fmap_cons, elem_of_cons. cbn [r_Rolled fst]. unfold rolls.
    clear IH Hh Hd Hm Hr Hent Hrolls Hs1 s1.
    destruct (due k) eqn:Hdue; simpl; [case_bool_decide; simpl|]; rewrite ?elem_of_union, ?elem_of_singleton;
      intuition (subst; auto; congruence).
Qed.
End rollup.

Section preserved.
Context (now : Z) (cfg : ReportsConfig) (Hret : (Hour ≤ rep_HourlyRetention cfg)%Z).

(** An hour is only dropped after it was rolled up. *)
Lemma expired_due k : expired now cfg k = true → due now k = true.
Proof using Hret.
  unfold expired, due. rewrite !Z.ltb_lt. unfold hour_floor, Unix. intros Hk.
  pose proof (Z.mul_succ_div_gt (now / Second) 3600 ltac:(lia)).
  assert ((now - rep_HourlyRetention cfg) / Second ≤ now / Second - 3600)%Z.
  { replace (now / Second - 3600)%Z with ((now - 3600 * Second) / Second)%Z.
    - apply Z.div_le_mono; [done|]. unfold Hour, Minute in *. lia.
    - replace (now - 3600 * Second)%Z with (now + (-3600) * Second)%Z by lia. rewrite Z.div_add by done. lia. }
  lia.
Qed.

Abbreviation unrolled s := (λ k, negb (bool_decide (k ∈ r_Rolled s))).

(** The hours rolled up now and those left are together the hours that were
    not rolled up before. *)
Lemma unrolled_split bucket s d :
  let s' := prune_series now cfg (foldl (roll_step now cfg) s (map_to_list (r_Hourly s))) in
  entries_in bucket (rolls now s) d (map_to_list (r_Hourly s)) ++ entries_in bucket (unrolled s') d (map_to_list (r_Hourly s'))
  ≡ₚ entries_in bucket (unrolled s) d (map_to_list (r_Hourly s)).
Proof using Hret.
  intros s'. set (s1 := foldl _ s _) in s'.
  destruct (roll_loop now cfg (map_to_list (r_Hourly s)) s) as (Hh & _ & _ & Hr); [apply NoDup_fst_map_to_list|].
  fold s1 in Hh, Hr.
  assert (Hdom : ∀ k c, r_Hourly s !! k = Some c → k ∈ (map_to_list (r_Hourly s)).*1).
  { intros k c Hk. apply list_elem_of_fmap. exists (k, c). split; [done|by apply elem_of_map_to_list]. }
  assert (Hh' : ∀ k c, r_Hourly s1 !! k = Some c ↔ r_Hourly s !! k = Some c ∧ expired now cfg k = false).
  { intros k c. rewrite Hh. destruct (expired now cfg k) eqn:He.
    - split; [|by intros []]. case_decide as Hc; [done|]. intros Hk. destruct Hc. split; [by eapply Hdom|done].
    - rewrite decide_False by (intros [_ ?]; done). naive_solver. }
  assert (Hun : ∀ k c, r_Hourly s1 !! k = Some c → unrolled s' k = true ↔ unrolled s k = true ∧ due now k = false).
  { intros k c Hk. pose proof Hk as Hk'. apply Hh' in Hk' as [Hk0 _]. unfold s', prune_series. simpl.
    rewrite !negb_true_iff, !bool_decide_eq_false, elem_of_filter, Hr, Hk.
    assert (k ∈ (map_to_list (r_Hourly s)).*1) by (by eapply Hdom).
    destruct (due now k); naive_solver. }
  apply NoDup_Permutation.
  - apply NoDup_app. split_and!; [apply NoDup_filter, NoDup_map_to_list| |apply NoDup_filter, NoDup_map_to_list].
    intros [k c] H1 H2. apply list_elem_of_filter in H1 as [[H1 _] _], H2 as [[H2 _] Hin].
    apply elem_of_map_to_list in Hin. apply (Hun k c Hin) in H2 as [_ Hnd]. simpl in H1. unfold rolls in H1. rewrite Hnd in H1. done.
  - apply NoDup_filter, NoDup_map_to_list.
  - intros [k c]. rewrite elem_of_app. unfold entries_in. rewrite !list_elem_of_filter, !elem_of_map_to_list.
    change (r_Hourly s') with (r_Hourly s1). simpl. rewrite Hh'. unfold rolls. split.
    + intros [[[Hp Hb] Hk]|[[Hp Hb] [Hk He]]].
      * apply andb_true_iff in Hp as [_ Hp]. done.
      * apply (Hun k c) in Hp as [Hp _]; [done|by apply Hh'].
    + intros [[Hp Hb] Hk]. destruct (due now k) eqn:Hd; [left; by rewrite Hp|right].
      assert (He : expired now cfg k = false).
      { destruct (expired now cfg k) eqn:He; [|done]. apply expired_due in He. congruence. }
      split; [|done]. split; [|done]. apply (Hun k c); [by apply Hh'|done].
Qed.
End preserved.

Definition retention (g : granularity) (cfg : ReportsConfig) : Z :=
  match g with
  | ByHour => rep_HourlyRetention cfg
  | ByDay => rep_DailyRetention cfg
  | ByMonth => rep_MonthlyRetention cfg
  end.

(** Rolling hours up into days and months never changes a report: at every
    granularity, the total shown for a period that is still within its
    retention is the same before and after [rollupAndPruneLocked], so no
    traffic is lost or counted twice, however often and whenever it runs. *)
Theorem rollup_preserves_reports (now : Z) (cfg : ReportsConfig) (s : reportSeries) (g : granularity) (start : Z) :
  (Hour ≤ rep_HourlyRetention cfg)%Z → (Unix (now - retention g cfg) ≤ start)%Z →
  report_source g (rollup_series now cfg s) !! start = report_source g s !! start.
Proof.
  intros Hret Hstart. unfold rollup_series. set (l := map_to_list (r_Hourly s)).
  destruct (roll_loop now cfg l s) as (Hh & Hd & Hm & _); [apply NoDup_fst_map_to_list|].
  destruct g; cbn [report_source].
  - cbn [r_Hourly prune_series]. rewrite Hh, decide_False; [done|]. intros [_ He]. unfold expired in He.
    apply Z.ltb_lt in He. simpl in Hstart. lia.
  - rewrite !merge_unrolled_lookup. unfold prune_series at 1. cbn [r_Daily].
    rewrite map_lookup_filter, Hd. destruct (foldl bump (r_Daily s !! start) _) as [c|] eqn:Hc; simpl.
    all: (rewrite ?option_guard_True by done); rewrite <- Hc, <- foldl_app, <- fmap_app; apply bump_perm, fmap_Permutation, unrolled_split, Hret.
  - rewrite !merge_unrolled_lookup. unfold prune_series at 1. cbn [r_Monthly].
    rewrite map_lookup_filter, Hm. destruct (foldl bump (r_Monthly s !! start) _) as [c|] eqn:Hc; simpl.
    all: (rewrite ?option_guard_True by done); rewrite <- Hc, <- foldl_app, <- fmap_app; apply bump_perm, fmap_Permutation, unrolled_split, Hret.
Qed.

Definition sample_reports : ReportsConfig := MkReports true Day (30 * Day) (365 * Day) (90 * Day).
Definition sample_series : reportSeries :=
  default (new_series []) (record_keys (counters_add Upload 500) (5000 * Hour) [lit "k"]
    (record_keys (counters_add Upload 100) (4990 * Hour) [lit "k"] ∅) !! lit "k").

Lemma rollup_preserves_reports_witness :
  let d := day_start (4990 * 3600) in
  report_source ByDay (rollup_series (5001 * Hour) sample_reports sample_series) !! d
  = report_source ByDay sample_series !! d
  ∧ UploadBytes (default no_counters (report_source ByDay sample_series !! d)) = 100%Z.
Proof.
  intros d. split; [|vm_compute; reflexivity].
  apply (rollup_preserves_reports (5001 * Hour) sample_reports sample_series ByDay d); vm_compute; discriminate.
Defined.

(** ** The number of series is bounded *)

Lemma newest_last_weak : strict_weak newest_last.
Proof.
  unfold newest_last. split.
  - intros [k u] [k' u']. simpl. destruct (Z.eqb_spec u u') as [->|Hne].
    + rewrite Z.eqb_refl. apply str_ltb_asym.
    + destruct (Z.eqb_spec u' u); [lia|]. rewrite Z.ltb_lt, Z.ltb_ge. lia.
  - intros [k u] [k' u'] [k'' u'']. simpl.
    destruct (Z.eqb_spec u' u), (Z.eqb_spec u'' u'), (Z.eqb_spec u'' u); rewrite ?Z.ltb_ge; subst; try lia; try done.
    by apply str_ltb_negtrans.
Qed.

Lemma delete_all_lookup {A} (l : list (str * Z)) (m : gmap str A) k :
  foldl (λ m c, delete c.1 m) m l !! k = if decide (k ∈ l.*1) then None else m !! k.
Proof.
  revert m. induction l as [|[k0 u] l IH]; intros m.
  - rewrite decide_False; [done|]. apply not_elem_of_nil.
  - cbn [foldl fst]. rewrite IH, fmap_cons. cbn [fst]. destruct (decide (k = k0)) as [->|Hne].
    + rewrite lookup_delete_eq, (decide_True (P := _ ∈ k0 :: _)) by left. by case_decide.
    + rewrite lookup_delete_ne by done. destruct (decide (k ∈ l.*1)).
      * by rewrite decide_True by (by right).
      * rewrite decide_False; [done|]. apply not_elem_of_cons. done.
Qed.

Lemma delete_all_size {A} (l : list (str * Z)) (m : gmap str A) : NoDup l.*1 → (∀ k, k ∈ l.*1 → is_Some (m !! k)) →
  size (foldl (λ m c, delete c.1 m) m l) = size m - length l.
Proof.
  revert m. induction l as [|[k u] l IH]; intros m Hnd Hin; [simpl; lia|]. rewrite fmap_cons in *. cbn [foldl fst length] in *.
  apply NoDup_cons in Hnd as [Hk Hnd]. destruct (Hin k ltac:(left)) as [a Ha]. rewrite IH; [|done|].
  - rewrite map_size_delete_Some by (by eexists). lia.
  - intros k' Hk'. rewrite lookup_delete_ne by (by intros ->). apply Hin. by right.
Qed.

Lemma report_candidates_spec reports :
  NoDup (report_candidates reports).*1 ∧ length (report_candidates reports) = size reports
  ∧ ∀ k u, (k, u) ∈ report_candidates reports ↔ ∃ s, reports !! k = Some s ∧ r_Updated s = u.
Proof.
  unfold report_candidates. split; [|split].
  - rewrite <- list_fmap_compose. rewrite (list_fmap_ext _ fst); [apply NoDup_fst_map_to_list|]. by intros i [k s] _.
  - rewrite length_fmap. apply length_map_to_list.
  - intros k u. rewrite list_elem_of_fmap. split.
    + intros ([k' s] & [= -> ->] & Hin%elem_of_map_to_list). eauto.
    + intros (s & Hs & <-). exists (k, s). split; [done|by apply elem_of_map_to_list].
Qed.

(** A configuration never keeps more than 4096 report series: after
    [limitStagedReports] the number of series is the smaller of what it was and
    the limit, nothing is changed in the series kept, and no series dropped was
    updated after one that is kept. *)
Theorem limitStagedReports_keeps_newest `{SortSlice} (reports : gmap str reportSeries) :
  let kept := limitStagedReports reports in
  size kept = size reports `min` 4096 ∧ kept ⊆ reports
  ∧ (∀ k s k' s', kept !! k = Some s → reports !! k' = Some s' → kept !! k' = None → (r_Updated s' ≤ r_Updated s)%Z).
Proof.
  intros kept. unfold kept, limitStagedReports.
  destruct (Nat.leb_spec (size reports) maxReportSeries) as [Hle|Hgt]; unfold maxReportSeries in *.
  { split; [lia|]. split; [done|]. intros. simplify_eq. }
  set (cs := sort_slice newest_last (report_candidates reports)). set (n := length cs - 4096).
  destruct (report_candidates_spec reports) as (Hnd & Hlen & Hcand).
  assert (Hperm : cs ≡ₚ report_candidates reports) by apply sort_slice_perm.
  assert (Hsorted := sort_slice_sorted newest_last (report_candidates reports) newest_last_weak). fold cs in Hsorted.
  assert (Hlcs : length cs = size reports) by (by rewrite Hperm).
  assert (Hndcs : NoDup cs.*1) by (by rewrite Hperm).
  assert (Hsplit : cs = take n cs ++ drop n cs) by (by rewrite take_drop).
  split; [|split].
  - rewrite delete_all_size.
    + rewrite length_take. unfold n. lia.
    + rewrite Hsplit, fmap_app in Hndcs. by apply NoDup_app in Hndcs as [? _].
    + intros k Hk. apply list_elem_of_fmap in Hk as ([k0 u] & -> & Hin).
      assert (Hin' : (k0, u) ∈ report_candidates reports) by (rewrite <- Hperm, Hsplit; apply elem_of_app; by left).
      apply Hcand in Hin' as (s & Hs & _). by eexists.
  - apply map_subseteq_spec. intros k s. rewrite delete_all_lookup. by case_decide.
  - intros k s k' s'. rewrite !delete_all_lookup. case_decide as Hk; [done|]. intros Hs Hs' Hno.
    case_decide as Hk'; [|congruence]. apply list_elem_of_fmap in Hk' as ([k0 u'] & -> & Hin').
    assert (Hu' : u' = r_Updated s').
    { assert (Hc : (k0, u') ∈ report_candidates reports) by (rewrite <- Hperm, Hsplit; apply elem_of_app; by left).
      apply Hcand in Hc as (s0 & Hs0 & <-). simpl in *. congruence. }
    assert (Hin : (k, r_Updated s) ∈ drop n cs).
    { assert (Hc : (k, r_Updated s) ∈ cs) by (rewrite Hperm; apply Hcand; eauto). rewrite Hsplit in Hc.
      apply elem_of_app in Hc as [Hc|Hc]; [|done]. destruct Hk. apply list_elem_of_fmap. by exists (k, r_Updated s). }
    apply list_elem_of_lookup in Hin' as [i Hi], Hin as [j Hj]. rewrite lookup_take_Some in Hi. destruct Hi as [Hi Hin_].
    rewrite lookup_drop in Hj. assert (Hless := StronglySorted_lookup _ cs i (n + j) _ _ Hsorted ltac:(lia) Hi Hj).
    unfold newest_last in Hless. simpl in Hless. destruct (Z.eqb_spec (r_Updated s) u'); [lia|]. apply Z.ltb_ge in Hless. lia.
Qed.

(** *** Report keys *)

Lemma unique_loop_spec seen values :
  NoDup (unique_loop seen values)
  ∧ ∀ v, v ∈ unique_loop seen values ↔ v ∈ values ∧ v ∉ seen.
Proof.
  revert seen. induction values as [|x values IH]; intros seen; simpl.
  - split; [constructor|]. intros v. rewrite elem_of_nil. tauto.
  - case_decide as Hx.
    + destruct (IH seen) as [Hnd Hin]. split; [done|]. intros v. rewrite Hin, elem_of_cons.
      split; [tauto|]. intros [[->|?] ?]; done.
    + destruct (IH ({[x]} ∪ seen)) as [Hnd Hin]. split.
      * apply NoDup_cons. split; [|done]. rewrite Hin. set_solver.
      * intros v. rewrite !elem_of_cons, Hin. destruct (decide (v = x)) as [->|]; set_solver.
Qed.

Lemma reportPairKey_comm a b : reportPairKey a b = reportPairKey b a.
Proof.
  unfold reportPairKey. destruct (str_ltb b a) eqn:Hba, (str_ltb a b) eqn:Hab; try done.
  - apply str_ltb_asym in Hba. congruence.
  - assert (a = b) as ->; [|done]. revert b Hab Hba. induction a as [|c a IH]; intros [|d b]; simpl; try done.
    destruct (decide (c = d)) as [->|Hne]; [rewrite decide_True by done; intros; f_equal; by apply IH|].
    rewrite decide_False by done. rewrite !Z.ltb_ge. intros. destruct Hne. apply byteZ_inj. lia.
Qed.

Lemma pair_keys_length l : 2 * length (pair_keys l) + length l = length l * length l.
Proof. induction l as [|d l IH]; simpl; [done|]. rewrite length_app, length_fmap. lia. Qed.

Lemma pair_keys_elem l a b : a ∈ l → b ∈ l → a ≠ b → reportPairKey a b ∈ pair_keys l.
Proof.
  induction l as [|d l IH]; intros Ha Hb Hne; [by apply elem_of_nil in Ha|]. simpl. apply elem_of_app.
  apply elem_of_cons in Ha as [->|Ha], Hb as [->|Hb]; [done|left|left|right; by apply IH].
  - by apply list_elem_of_fmap_2.
  - rewrite reportPairKey_comm. by apply list_elem_of_fmap_2.
Qed.

(** A session reports under at most 128 keys, starting with its dimensions
    without repetitions; when its [n] distinct dimensions and their pairs fit
    ([n * (n + 1) / 2 <= 128], so for up to 15 policies) every dimension and
    every pair of them, in whichever order, is among the keys. *)
Theorem reportKeys_complete (dimensions : list str) :
  let keys := reportKeys dimensions in
  let n := length (uniqueStrings dimensions) in
  length keys ≤ 128
  ∧ NoDup (uniqueStrings dimensions) ∧ take 128 (uniqueStrings dimensions) = take (128 `min` n) keys
  ∧ (n * (n + 1) ≤ 256 →
     (∀ d, d ∈ dimensions → d ∈ keys)
     ∧ (∀ a b, a ∈ dimensions → b ∈ dimensions → a ≠ b → reportPairKey a b ∈ keys ∧ reportPairKey b a ∈ keys)).
Proof.
  intros keys n. destruct (unique_loop_spec ∅ dimensions) as [Hnd Hin].
  fold (uniqueStrings dimensions) in Hnd, Hin. unfold keys, reportKeys, maxReportKeysPerSession.
  split; [rewrite length_take; lia|]. split; [done|]. split.
  - rewrite take_take. rewrite Nat.min_l by lia. destruct (decide (n ≤ 128)) as [Hn|Hn].
    + rewrite take_ge by done. rewrite Nat.min_r by done. unfold n. by rewrite take_app_length.
    + rewrite Nat.min_l by lia. rewrite take_app_le by (fold n; lia). done.
  - intros Hn. pose proof (pair_keys_length (uniqueStrings dimensions)) as Hp. fold n in Hp.
    rewrite take_ge by (rewrite length_app; fold n; nia). split.
    + intros d Hd. apply elem_of_app. left. apply Hin. set_solver.
    + intros a b Ha Hb Hne. rewrite (reportPairKey_comm b a).
      assert (reportPairKey a b ∈ pair_keys (uniqueStrings dimensions)) by (apply pair_keys_elem; [apply Hin|apply Hin|done]; set_solver).
      split; apply elem_of_app; by right.
Qed.
