(* ===== verification/TrafficSessions.v ===== *)
(** * TrafficSessions: the traffic manager and its sessions

    The stateful part of [src/component/trafficcontrol/manager.go]: the runtime
    built from a configuration, sessions and their bindings ([Open],
    [bindSession], [currentBinding], [Record], [Close]), [Reset], and the change
    of configuration ([prepareConfiguration], [configure]).

    - A [*policyState] is shared by the runtime that uses it, by earlier
      runtimes and by the bindings of live sessions, so states live in a heap
      and are named by locations. A [*runtimeState] is compared by identity:
      runtimes carry a unique number.
    - Each operation is atomic: the record gate, the binding mutex and the
      configuration mutex serialise them. [now] is the clock reading of an
      operation.
    - The database behind the manager, its flusher and the portal are outside
      this model: [answers] says what opening and loading a store give, how large
      the current one is and whether the portal starts, and every error of
      [prepareConfiguration] is a path of [configure]. The rate limiters come from
      another package; [limit_rate] models which configured rate applies. *)
From S2P Require Import Prelude GoStrings NetIP TrafficModel TrafficQuota TrafficReports.

Record Flow := MkFlow { f_SourceIP : Addr; f_RuleType : str; f_RulePayload : str; f_RuleTarget : str; f_Chains : list str }.

Record runtimePolicy := MkRuntimePolicy { r_spec : Policy; r_state : nat; r_meter : meter; r_dimension : str }.
Record runtimeState := MkRuntime {
  rt_number : nat; rt_config : option Config; rt_policies : list runtimePolicy; rt_generation : Z
}.
Record sessionBinding := MkBinding {
  b_runtime : nat; b_policies : list runtimePolicy; b_dimensions : list str; b_reportKeys : list str
}.
Record Session := MkSession { ss_flow : Flow; ss_binding : option sessionBinding; ss_closed : bool }.

Record Manager := MkManager {
  mg_runtime : runtimeState;
  mg_states : gmap str nat;
  mg_heap : gmap nat policyState;
  mg_nextState : nat;
  mg_nextRuntime : nat;
  mg_reports : gmap str reportSeries;
  mg_revision : Z;
  mg_dirty : bool;
  mg_sessions : gmap nat Session
}.

Definition NewManager : Manager := MkManager (MkRuntime 0 None [] 0) ∅ ∅ 0 1 ∅ 0 false ∅.

Definition with_heap (m : Manager) (h : gmap nat policyState) : Manager :=
  MkManager (mg_runtime m) (mg_states m) h (mg_nextState m) (mg_nextRuntime m) (mg_reports m) (mg_revision m) (mg_dirty m) (mg_sessions m).
Definition with_reports (m : Manager) (r : gmap str reportSeries) : Manager :=
  MkManager (mg_runtime m) (mg_states m) (mg_heap m) (mg_nextState m) (mg_nextRuntime m) r (mg_revision m) (mg_dirty m) (mg_sessions m).
Definition with_dirty (m : Manager) (d : bool) : Manager :=
  MkManager (mg_runtime m) (mg_states m) (mg_heap m) (mg_nextState m) (mg_nextRuntime m) (mg_reports m) (mg_revision m) d (mg_sessions m).
Definition with_sessions (m : Manager) (s : gmap nat Session) : Manager :=
  MkManager (mg_runtime m) (mg_states m) (mg_heap m) (mg_nextState m) (mg_nextRuntime m) (mg_reports m) (mg_revision m) (mg_dirty m) s.

Definition Enabled (m : Manager) : bool := bool_decide (is_Some (rt_config (mg_runtime m))).

Definition reports_enabled (rt : runtimeState) : bool :=
  match rt_config rt with Some c => rep_Enabled (cf_Reports c) | None => false end.

Section manager.
Context `{GoEnv} (duration_string : Z → str).

(** ** Rates *)

(** The bytes per second of [newLimiter]. *)
Definition newLimiter (bitsPerSecond : Z) : option Z :=
  if (bitsPerSecond <=? 0)%Z then None
  else let bytes := Z.quot bitsPerSecond 8 in Some (if (bytes <? 1)%Z then 1 else bytes)%Z.

Definition limit_rate (spec : Policy) (s : policyState) (direction : Direction) : option Z :=
  newLimiter (if s_OverQuota s
              then (if decide (direction = Upload) then q_OverageUploadBPS (po_Quota spec) else q_OverageDownloadBPS (po_Quota spec))
              else (if decide (direction = Upload) then po_UploadBPS spec else po_DownloadBPS spec)).

(** ** Matching *)

Definition policyMatches (policy : Policy) (flow : Flow) (rule : RuleSelector) : bool :=
  match po_Kind policy with
  | PolicyGlobal => true
  | PolicyDevice =>
    IsValid (f_SourceIP flow)
    && existsb (λ prefix, prefix_contains prefix (Unmap (f_SourceIP flow)) || prefix_contains prefix (f_SourceIP flow))
               (po_SourceCIDRs policy)
  | PolicyRule => bool_decide (rs_Fingerprint (po_Rule policy) = rs_Fingerprint rule)
  | PolicyTarget => existsb (λ chain, bool_decide (chain = ts_Name (po_Target policy))) (f_Chains flow)
  end.

Definition kind_string (k : PolicyKind) : str :=
  match k with
  | PolicyGlobal => lit "global" | PolicyDevice => lit "device" | PolicyRule => lit "rule" | PolicyTarget => lit "target"
  end.

(** ** Sessions *)

Definition alter_state (f : policyState → policyState) (l : nat) (h : gmap nat policyState) : gmap nat policyState :=
  alter f l h.
Definition add_active (n : Z) (s : policyState) : policyState := with_active s (wrap int64 (s_Active s + n)).

(** The loop of [bindSession]: the matching policies, each refreshed and
    counted as active. *)
Definition flow_matches (flow : Flow) (p : runtimePolicy) : bool :=
  po_Enabled (r_spec p)
  && policyMatches (r_spec p) flow (CanonicalRule (f_RuleType flow) (f_RulePayload flow) (f_RuleTarget flow)).

Definition bind_step (now : Z) (flow : Flow) (acc : list runtimePolicy * gmap nat policyState) (p : runtimePolicy)
    : list runtimePolicy * gmap nat policyState :=
  let '(matched, h) := acc in
  if flow_matches flow p then
    (matched ++ [p], alter_state (λ s, add_active 1 (refreshQuota (r_meter p) now s)) (r_state p) h)
  else acc.

Definition bindSession (now : Z) (rt : runtimeState) (flow : Flow) (h : gmap nat policyState)
    : sessionBinding * gmap nat policyState :=
  match rt_config rt with
  | None => (MkBinding (rt_number rt) [] [] [], h)
  | Some config =>
    let '(matched, h) := foldl (bind_step now flow) ([], h) (rt_policies rt) in
    match matched with
    | [] => (MkBinding (rt_number rt) [] [] [], h)
    | [p] => (MkBinding (rt_number rt) [p] [r_dimension p]
                (if rep_Enabled (cf_Reports config) then [r_dimension p] else []), h)
    | _ =>
      let dimensions := uniqueStrings (r_dimension <$> matched) in
      (MkBinding (rt_number rt) matched dimensions
         (if rep_Enabled (cf_Reports config) then reportKeys dimensions else []), h)
    end
  end.

Definition releaseSessionBinding (binding : option sessionBinding) (h : gmap nat policyState) : gmap nat policyState :=
  match binding with
  | None => h
  | Some b => foldl (λ h p, alter_state (add_active (-1)) (r_state p) h) h (b_policies b)
  end.

(** [Open] under the session number [sid], which is not in use; no session is
    made when no policy matches. *)
Definition Open (now : Z) (sid : nat) (flow : Flow) (m : Manager) : Manager :=
  let '(binding, h) := bindSession now (mg_runtime m) flow (mg_heap m) in
  let m := with_heap m h in
  match b_policies binding with
  | [] => m
  | _ =>
    let m := with_sessions m (<[sid := MkSession flow (Some binding) false]> (mg_sessions m)) in
    with_reports m (recordReportConnections (reports_enabled (mg_runtime m)) (b_reportKeys binding) 1 now (mg_reports m))
  end.

Definition currentBinding (now : Z) (sid : nat) (m : Manager) : option sessionBinding * Manager :=
  match mg_sessions m !! sid with
  | None => (None, m)
  | Some s =>
    if ss_closed s then (None, m)
    else
      let rt := mg_runtime m in
      let rebind :=
        let '(next, h) := bindSession now rt (ss_flow s) (mg_heap m) in
        let m := with_sessions (with_heap m (releaseSessionBinding (ss_binding s) h))
                   (<[sid := MkSession (ss_flow s) (Some next) false]> (mg_sessions m)) in
        (Some next, with_reports m (recordReportConnections (reports_enabled rt) (b_reportKeys next) 1 now (mg_reports m))) in
      match ss_binding s with
      | Some binding => if decide (b_runtime binding = rt_number rt) then (Some binding, m) else rebind
      | None => rebind
      end
  end.

Definition Close (sid : nat) (m : Manager) : Manager :=
  match mg_sessions m !! sid with
  | None => m
  | Some s =>
    if ss_closed s then m
    else with_sessions (with_heap m (releaseSessionBinding (ss_binding s) (mg_heap m)))
           (<[sid := MkSession (ss_flow s) None true]> (mg_sessions m))
  end.

(** The loop of [Record] over the policies of the binding. *)
Definition record_step (direction : Direction) (bytes now : Z) (acc : bool * gmap nat policyState) (p : runtimePolicy)
    : bool * gmap nat policyState :=
  let '(crossed, h) := acc in
  match h !! r_state p with
  | Some s => let '(c, s') := record (r_meter p) direction bytes now s in (crossed || c, <[r_state p := s']> h)
  | None => acc
  end.

Definition Record_ (now : Z) (sid : nat) (direction : Direction) (bytes : Z) (m : Manager) : Manager :=
  if (bytes <=? 0)%Z then m
  else match currentBinding now sid m with
  | (None, m) => m
  | (Some binding, m) =>
    let '(crossed, h) := foldl (record_step direction bytes now) (false, mg_heap m) (b_policies binding) in
    let m := with_heap m h in
    let on := reports_enabled (mg_runtime m) in
    let m := with_reports m (recordReports on (b_reportKeys binding) direction bytes now (mg_reports m)) in
    let m := with_dirty m true in
    if crossed then with_reports m (recordReportExceeded on (b_reportKeys binding) now (mg_reports m)) else m
  end.

(** ** Reset and configuration *)

Definition policyIdentity (policy : Policy) : str :=
  stableID ([kind_string (po_Kind policy); po_MAC policy; rs_Fingerprint (po_Rule policy); ts_Kind (po_Target policy);
             ts_Name (po_Target policy); duration_string (q_Window (po_Quota policy))]
            ++ (prefix_string <$> po_SourceCIDRs policy)).

(** States and locations while a configuration is staged. *)
Record stage := MkStage {
  st_states : gmap str nat; st_heap : gmap nat policyState; st_next : nat; st_policies : list runtimePolicy
}.

Definition stage_alloc (id : str) (s : policyState) (g : stage) : nat * stage :=
  (st_next g, MkStage (<[id := st_next g]> (st_states g)) (<[st_next g := s]> (st_heap g)) (S (st_next g)) (st_policies g)).

(** One iteration over the policies of the configuration: the state of the
    policy, kept when its identity is unchanged, and the runtime policy. *)
Definition stage_policy (now : Z) (g : stage) (spec : Policy) : stage :=
  let identity := policyIdentity spec in
  let '(l, g) :=
    match st_states g !! po_ID spec ≫= λ l, pair l <$> st_heap g !! l with
    | None => stage_alloc (po_ID spec) (fresh_state (po_ID spec) identity 1 now) g
    | Some (l, s) =>
      if decide (s_Identity s = identity) then (l, g)
      else stage_alloc (po_ID spec) (fresh_state (po_ID spec) identity (wrap uint64 (s_Generation s + 1)) now) g
    end in
  let meter := new_meter spec in
  MkStage (st_states g) (alter_state (attach meter) l (st_heap g)) (st_next g)
    (st_policies g ++ [MkRuntimePolicy spec l meter (kind_string (po_Kind spec) ++ lit ":" ++ po_ID spec)]).

(** [cleanupStagedOrphans] and [cleanupOrphansLocked]. *)
Definition is_orphan (cutoff : Z) (h : gmap nat policyState) (l : nat) : bool :=
  match h !! l with
  | Some s => (s_Active s =? 0)%Z && (s_LastSeen s >? 0)%Z && (s_LastSeen s <? cutoff)%Z
  | None => false
  end.
Definition cleanupOrphans (retention now : Z) (h : gmap nat policyState) (states : gmap str nat) : gmap str nat :=
  filter (λ kv, is_orphan (Unix now - Z.quot retention Second) h kv.2 = false) states.

Definition touch_state (now : Z) (s : policyState) : policyState := with_seen s (s_LastUpdated s) (Unix now).

(** The states a store was opened with, at fresh locations. *)
Definition load_states (loaded : list (str * policyState)) (g : stage) : stage :=
  foldl (λ g '(id, s), (stage_alloc id (with_active s 0) g).2) g loaded.

(** *** Flushing to the store *)

(** What [Store.Save] answers for the states and reports it is given. *)
Inductive save_outcome := SaveOk | SaveLimit | SaveFailed.

Record StoreOps := MkStoreOps {
  so_save : gmap str nat → gmap nat policyState → gmap str reportSeries → save_outcome;
  so_compact : gmap str reportSeries → bool;                  (* whether [Compact] succeeds *)
  so_size : gmap str reportSeries → Z                         (* [Size] after that save *)
}.

Context `{SortSlice} (store : StoreOps).

(** [trimReportsToStoreLimitLocked]; every round drops a series. *)
Fixpoint trim_loop (fuel : nat) (maxSize : Z) (states : gmap str nat) (h : gmap nat policyState)
    (reports : gmap str reportSeries) : result (gmap str reportSeries) * gmap str reportSeries :=
  match fuel with
  | 0 => (Panic, reports)
  | S f =>
    let '(dropped, reports) := dropOldestReportSeries reports in
    if negb dropped then (Err "traffic-control store limit reached", reports)
    else match so_save store states h reports with
         | SaveFailed => (Err "save", reports)
         | _ =>
           if negb (so_compact store reports) then (Err "compact", reports)
           else if (so_size store reports <=? maxSize)%Z then (Ok reports, reports)
           else trim_loop f maxSize states h reports
         end
  end.

(** [flushLocked]: the roll-up, the save, and the flag that says whether
    anything is left to save. A manager without a configuration has no store. *)
Definition flushLocked (now : Z) (m : Manager) : result unit * Manager :=
  match rt_config (mg_runtime m) with
  | None => (Ok tt, m)
  | Some c =>
    if negb (mg_dirty m) then (Ok tt, m)
    else
      let states := cleanupOrphans (rep_OrphanRetention (cf_Reports c)) now (mg_heap m) (mg_states m) in
      let reports := rollup_reports now (cf_Reports c) (mg_reports m) in
      let done_with (reports : gmap str reportSeries) (dirty : bool) :=
        MkManager (mg_runtime m) states (mg_heap m) (mg_nextState m) (mg_nextRuntime m) reports (mg_revision m) dirty (mg_sessions m) in
      match so_save store states (mg_heap m) reports with
      | SaveOk => (Ok tt, done_with reports false)
      | SaveFailed => (Err "save", done_with reports true)
      | SaveLimit =>
        match trim_loop (S (size reports)) (cf_MaxStoreSize c) states (mg_heap m) reports with
        | (Ok _, reports) => (Ok tt, done_with reports false)
        | (Err e, reports) => (Err e, done_with reports true)
        | (Panic, reports) => (Panic, done_with reports true)
        end
      end
  end.

Definition Flush (now : Z) (m : Manager) : result unit * Manager := flushLocked now m.

Definition Reset (now : Z) (policyID : str) (m : Manager) : result unit * Manager :=
  match filter (λ p, po_ID (r_spec p) = policyID) (rt_policies (mg_runtime m)) with
  | p :: _ => Flush now (with_dirty (with_heap m (alter_state (reset_state now) (r_state p) (mg_heap m))) true)
  | [] => (Err "traffic-control policy not found", m)
  end.

(** *** Changing the configuration *)

(** What the file system and the network answer: the size of the current store,
    what [OpenStore] and [Load] give for another one, whether the portal can be
    kept or started. *)
Inductive opened :=
| OpenFailed
| LoadFailed
| Opened (states : list (str * policyState)) (reports : gmap str reportSeries).
Record answers := MkAnswers { an_size : Z; an_open : opened; an_portal : bool }.

Record stagedConfiguration := MkStaged {
  sg_config : option Config; sg_stage : stage; sg_reports : gmap str reportSeries; sg_reuseStore : bool
}.

(** The store of the current configuration is the one of [c]. ([filepath.Clean]
    of a clean path is that path.) *)
Definition same_store (m : Manager) (c : Config) : bool :=
  match rt_config (mg_runtime m) with
  | Some cur => bool_decide (path_clean (cf_StorePath cur) = path_clean (cf_StorePath c))
  | None => false
  end.

(** [newRuntimePolicy] writes to the states that are kept, also when the
    configuration fails after that: the manager has the staged heap. *)
Definition with_stage (m : Manager) (g : stage) : Manager :=
  MkManager (mg_runtime m) (mg_states m) (st_heap g) (st_next g) (mg_nextRuntime m) (mg_reports m) (mg_revision m)
    (mg_dirty m) (mg_sessions m).

Definition prepareConfiguration (now : Z) (config : option Config) (an : answers) (m : Manager)
    : result stagedConfiguration * Manager :=
  match config with
  | Some c =>
    if negb (cf_Enabled c) then (Ok (MkStaged None (MkStage ∅ (mg_heap m) (mg_nextState m) []) ∅ false), m)
    else
      let prepared (reuse : bool) (g0 : stage) (reports : gmap str reportSeries) :=
        let g := foldl (stage_policy now) g0 (cf_Policies c) in
        let states := cleanupOrphans (rep_OrphanRetention (cf_Reports c)) now (st_heap g) (st_states g) in
        (if an_portal an
         then Ok (MkStaged (Some c) (MkStage states (st_heap g) (st_next g) (st_policies g)) (limitStagedReports reports) reuse)
         else Err "start traffic-control portal",
         with_stage m g) in
      if same_store m c then
        if (0 <? cf_MaxStoreSize c)%Z && (cf_MaxStoreSize c <? an_size an)%Z
        then (Err "open traffic-control store: limit reached", m)
        else prepared true (MkStage (mg_states m) (mg_heap m) (mg_nextState m) []) (mg_reports m)
      else match an_open an with
      | OpenFailed => (Err "open traffic-control store", m)
      | LoadFailed => (Err "load traffic-control store", m)
      | Opened states reports => prepared false (load_states states (MkStage ∅ (mg_heap m) (mg_nextState m) [])) reports
      end
  | None => (Ok (MkStaged None (MkStage ∅ (mg_heap m) (mg_nextState m) []) ∅ false), m)
  end.

(** The staged report map of a kept store holds the very series the flush rolls
    up. *)
Definition staged_reports (now : Z) (st : stagedConfiguration) (m : Manager) : gmap str reportSeries :=
  match sg_reuseStore st, rt_config (mg_runtime m) with
  | true, Some c => if mg_dirty m then rollup_series now (cf_Reports c) <$> sg_reports st else sg_reports st
  | _, _ => sg_reports st
  end.

Definition configure (now : Z) (config : option Config) (an : answers) (m : Manager) : result unit * Manager :=
  match prepareConfiguration now config an m with
  | (Ok st, m) =>
    let reports := staged_reports now st m in
    match flushLocked now m with
    | (Ok _, m) =>
      let g := sg_stage st in
      let revision := wrap uint64 (mg_revision m + 1) in
      let h := foldl (λ h p, alter_state (touch_state now) (r_state p) h) (mg_heap m) (st_policies g) in
      (Ok tt, MkManager (MkRuntime (mg_nextRuntime m) (sg_config st) (st_policies g) revision) (st_states g) h (mg_nextState m)
                (S (mg_nextRuntime m)) reports revision (bool_decide (is_Some (sg_config st))) (mg_sessions m))
    | (Err e, m) => (Err e, m)
    | (Panic, m) => (Panic, m)
    end
  | (Err e, m) => (Err e, m)
  | (Panic, m) => (Panic, m)
  end.

Definition ConfigureAtRevision (now : Z) (config : option Config) (an : answers) (expected : Z) (m : Manager) : result unit * Manager :=
  if negb (mg_revision m =? expected)%Z then (Err "traffic-control revision conflict", m)
  else configure now config an m.

(** [Manager.Close]; [portal] and [closed] say whether the portal stops and the
    store closes. *)
Definition CloseManager (now : Z) (portal closed : bool) (m : Manager) : result unit * Manager :=
  if negb portal then (Err "stop portal", m)
  else match flushLocked now m with
  | (Ok _, m) =>
    (if closed || negb (bool_decide (is_Some (rt_config (mg_runtime m)))) then Ok tt else Err "close traffic-control store",
     MkManager (MkRuntime (mg_nextRuntime m) None [] 0) ∅ (mg_heap m) (mg_nextState m) (S (mg_nextRuntime m)) ∅
              (mg_revision m) (mg_dirty m) (mg_sessions m))
  | (Err e, m) => (Err e, m)
  | (Panic, m) => (Panic, m)
  end.
End manager.

(** ** How the operations move the heap *)

(** How often a state occurs in a list of policies. *)
Definition occ (l : nat) (ps : list runtimePolicy) : nat := length (filter (λ p, r_state p = l) ps).

Lemma occ_app l ps qs : occ l (ps ++ qs) = occ l ps + occ l qs.
Proof. unfold occ. by rewrite filter_app, length_app. Qed.

Lemma occ_singleton l p : occ l [p] = if decide (r_state p = l) then 1 else 0.
Proof. unfold occ. rewrite filter_cons. by case_decide. Qed.

(** [h'] is [h] with the active counts moved by [n] and the usage unchanged. *)
Definition moves (h h' : gmap nat policyState) (n : nat → Z) : Prop :=
  ∀ l, match h !! l, h' !! l with
       | Some s, Some s' =>
         s_Counters s' = s_Counters s ∧ ∀ c, s_Active s = wrap int64 c → s_Active s' = wrap int64 (c + n l)
       | None, None => True
       | _, _ => False
       end.

Lemma moves_refl h n : (∀ l, n l = 0%Z) → moves h h n.
Proof. intros Hn l. destruct (h !! l); [|done]. split; [done|]. intros c ->. by rewrite Hn, Z.add_0_r. Qed.

Lemma moves_trans h1 h2 h3 n1 n2 n : moves h1 h2 n1 → moves h2 h3 n2 → (∀ l, n l = n1 l + n2 l)%Z → moves h1 h3 n.
Proof.
  intros H12 H23 Hn l. specialize (H12 l). specialize (H23 l).
  destruct (h1 !! l), (h2 !! l), (h3 !! l); try done. destruct H12 as [C1 A1], H23 as [C2 A2].
  split; [congruence|]. intros c Hc. apply A1 in Hc. apply A2 in Hc. by rewrite Hc, Hn, Z.add_assoc.
Qed.

Lemma moves_alter f l k h : (∀ s, s_Counters (f s) = s_Counters s) →
  (∀ s c, s_Active s = wrap int64 c → s_Active (f s) = wrap int64 (c + k)) →
  moves h (alter_state f l h) (λ l', if decide (l' = l) then k else 0%Z).
Proof.
  intros Hc Ha l'. unfold alter_state. destruct (decide (l' = l)) as [->|Hne].
  - rewrite lookup_alter_eq. destruct (h !! l) as [s|]; simpl; [|done]. split; [done|]. intros c. apply Ha.
  - rewrite lookup_alter_ne by done. destruct (h !! l'); [|done]. split; [done|]. intros c ->. by rewrite Z.add_0_r.
Qed.

Lemma moves_is_Some h h' n l : moves h h' n → is_Some (h' !! l) ↔ is_Some (h !! l).
Proof. intros Hm. specialize (Hm l). destruct (h !! l), (h' !! l); try done; split; intros [? ?]; done || eauto. Qed.

(** Several states altered one after the other. *)
Lemma moves_foldl f (k : Z) ps h : (∀ s, s_Counters (f s) = s_Counters s) →
  (∀ s c, s_Active s = wrap int64 c → s_Active (f s) = wrap int64 (c + k)) →
  moves h (foldl (λ h p, alter_state f (r_state p) h) h ps) (λ l, k * Z.of_nat (occ l ps))%Z.
Proof.
  intros Hc Ha. revert h. induction ps as [|p ps IH]; intros h; [apply moves_refl; intros; unfold occ; simpl; lia|].
  cbn [foldl]. eapply moves_trans; [by apply (moves_alter f (r_state p) k)|apply IH|]. intros l. simpl.
  change (p :: ps) with ([p] ++ ps). rewrite occ_app, occ_singleton. repeat case_decide; subst; try done; lia.
Qed.

Lemma prune_fields m s cutoff : s_Counters (pruneBucketsLocked m s cutoff) = s_Counters s
  ∧ s_Active (pruneBucketsLocked m s cutoff) = s_Active s.
Proof. destruct (prune_spec m s cutoff) as (_ & _ & _ & -> & _). done. Qed.

Lemma refresh_fields m now s : s_Counters (refreshQuota m now s) = s_Counters s ∧ s_Active (refreshQuota m now s) = s_Active s.
Proof. unfold refreshQuota. case_match; [done|]. simpl. apply prune_fields. Qed.

Section moves.
Context `{GoEnv}.

Lemma add_active_spec k s c : s_Active s = wrap int64 c → s_Active (add_active k s) = wrap int64 (c + k).
Proof. intros Hs. simpl. by rewrite Hs, wrap_wrap_add. Qed.

Definition matching (flow : Flow) (ps : list runtimePolicy) : list runtimePolicy :=
  filter (λ p, flow_matches flow p = true) ps.

Lemma bind_loop now flow ps matched h :
  (foldl (bind_step now flow) (matched, h) ps).1 = matched ++ matching flow ps
  ∧ moves h (foldl (bind_step now flow) (matched, h) ps).2 (λ l, Z.of_nat (occ l (matching flow ps))).
Proof.
  revert matched h. induction ps as [|p ps IH]; intros matched h; cbn [foldl].
  { rewrite app_nil_r. split; [done|]. by apply moves_refl. }
  unfold matching. rewrite filter_cons. cbn [bind_step]. destruct (flow_matches flow p) eqn:Hf; simpl.
  - destruct (IH (matched ++ [p]) (alter_state (λ s, add_active 1 (refreshQuota (r_meter p) now s)) (r_state p) h)) as [H1 H2].
    split; [rewrite H1; by rewrite <- app_assoc|]. eapply moves_trans; [eapply (moves_alter (λ s, add_active 1 (refreshQuota (r_meter p) now s)) (r_state p) 1)|exact H2|].
    + intros s. simpl. apply refresh_fields.
    + intros s c Hs. apply add_active_spec. by rewrite (proj2 (refresh_fields _ _ _)).
    + intros l. simpl. change (p :: ?x) with ([p] ++ x). rewrite (occ_app l [p]), occ_singleton. fold (matching flow ps).
      repeat case_decide; subst; try done; lia.
  - apply IH.
Qed.

(** What a binding holds and what making it does to the heap. *)
Lemma bindSession_spec now rt flow h :
  let '(b, h') := bindSession now rt flow h in
  b_runtime b = rt_number rt
  ∧ b_policies b = match rt_config rt with Some _ => matching flow (rt_policies rt) | None => [] end
  ∧ moves h h' (λ l, Z.of_nat (occ l (b_policies b))).
Proof.
  unfold bindSession. destruct (rt_config rt) as [c|]; [|split; [done|]; split; [done|]; by apply moves_refl].
  destruct (bind_loop now flow (rt_policies rt) [] h) as [H1 H2].
  destruct (foldl _ _ _) as [matched h']. simpl in H1, H2. subst matched.
  destruct (matching flow (rt_policies rt)) as [|p [|q ps]]; by split_and!.
Qed.

Definition binding_policies (b : option sessionBinding) : list runtimePolicy := from_option b_policies [] b.

Lemma release_spec b h :
  moves h (releaseSessionBinding b h) (λ l, - Z.of_nat (occ l (binding_policies b)))%Z.
Proof.
  destruct b as [b|]; simpl; [|by apply moves_refl].
  pose proof (moves_foldl (add_active (-1)) (-1) (b_policies b) h ltac:(done) (add_active_spec (-1))) as Hm.
  eapply moves_trans; [exact Hm|by apply (moves_refl _ (λ _, 0%Z))|]. intros l. simpl. lia.
Qed.
End moves.

(** ** Active connections are counted exactly *)

(** How often the live sessions are bound to a state. *)
Definition session_occ (l : nat) (s : Session) : nat := occ l (binding_policies (ss_binding s)).
Definition bound_count (ss : gmap nat Session) (l : nat) : nat :=
  map_fold (λ _ s acc, session_occ l s + acc) 0 ss.

Lemma bound_count_empty l : bound_count ∅ l = 0.
Proof. apply map_fold_empty. Qed.

Lemma bound_count_insert ss sid s l : ss !! sid = None →
  bound_count (<[sid := s]> ss) l = session_occ l s + bound_count ss l.
Proof. intros Hs. unfold bound_count. rewrite map_fold_insert_L; [done| |done]. intros. lia. Qed.

Lemma bound_count_update ss sid s0 s l : ss !! sid = Some s0 →
  bound_count (<[sid := s]> ss) l + session_occ l s0 = session_occ l s + bound_count ss l.
Proof.
  intros Hs. unfold bound_count.
  rewrite (map_fold_delete_L (λ _ s acc, session_occ l s + acc) 0 sid s (<[sid:=s]> ss)); [|intros; lia|apply lookup_insert_eq].
  rewrite (map_fold_delete_L (λ _ s acc, session_occ l s + acc) 0 sid s0 ss); [|intros; lia|done].
  rewrite delete_insert_eq. lia.
Qed.

Lemma bound_count_zero ss l : (∀ sid s, ss !! sid = Some s → session_occ l s = 0) → bound_count ss l = 0.
Proof.
  intros Hz. induction ss as [|sid s ss Hs IH] using map_ind; [apply bound_count_empty|].
  rewrite bound_count_insert by done. rewrite (Hz sid s) by apply lookup_insert_eq. rewrite IH; [done|].
  intros sid' s' Hs'. apply (Hz sid'). rewrite lookup_insert_ne; [done|]. congruence.
Qed.

Record manager_ok `{GoEnv} (m : Manager) : Prop := {
  mo_fresh : ∀ l, is_Some (mg_heap m !! l) → l < mg_nextState m;
  mo_states : ∀ id l, mg_states m !! id = Some l → is_Some (mg_heap m !! l);
  mo_runtime : ∀ p, p ∈ rt_policies (mg_runtime m) → is_Some (mg_heap m !! r_state p);
  mo_bound : ∀ sid s p, mg_sessions m !! sid = Some s → p ∈ binding_policies (ss_binding s) →
    is_Some (mg_heap m !! r_state p);
  mo_active : ∀ l s, mg_heap m !! l = Some s → s_Active s = wrap int64 (Z.of_nat (bound_count (mg_sessions m) l));
  mo_closed : ∀ sid s, mg_sessions m !! sid = Some s → ss_closed s = true → ss_binding s = None;
  mo_number : rt_number (mg_runtime m) < mg_nextRuntime m;
  mo_current : ∀ sid s b, mg_sessions m !! sid = Some s → ss_binding s = Some b →
    b_runtime b < mg_nextRuntime m
    ∧ (b_runtime b = rt_number (mg_runtime m) →
       b_policies b = match rt_config (mg_runtime m) with
                      | Some _ => matching (ss_flow s) (rt_policies (mg_runtime m))
                      | None => []
                      end)
}.

Section active.
Context `{GoEnv}.
Implicit Types m : Manager.

Lemma NewManager_ok : manager_ok NewManager.
Proof.
  assert (He : ∀ {A} (k : nat) (a : A), (∅ : gmap nat A) !! k = Some a → False) by (intros A k a; by rewrite lookup_empty).
  split.
  - intros l [s []%He].
  - intros id l Hl. change ((∅ : gmap str nat) !! id = Some l) in Hl. by rewrite lookup_empty in Hl.
  - by intros p ?%elem_of_nil.
  - intros sid s p []%He.
  - intros l s []%He.
  - intros sid s []%He.
  - simpl. lia.
  - intros sid s b []%He.
Qed.

(** A step that only touches the reports or the dirty flag. *)
Lemma manager_ok_reports m r d : manager_ok m → manager_ok (with_dirty (with_reports m r) d).
Proof. intros [? ? ? ? ? ? ? ?]. by split. Qed.
Lemma manager_ok_with_reports m r : manager_ok m → manager_ok (with_reports m r).
Proof. intros [? ? ? ? ? ? ? ?]. by split. Qed.

(** Moving the heap together with the sessions. *)
Lemma manager_ok_sessions m h ss n : manager_ok m → moves (mg_heap m) h n →
  (∀ l, Z.of_nat (bound_count ss l) = Z.of_nat (bound_count (mg_sessions m) l) + n l)%Z →
  (∀ sid s, ss !! sid = Some s → (∀ p, p ∈ binding_policies (ss_binding s) → is_Some (mg_heap m !! r_state p))
     ∧ (ss_closed s = true → ss_binding s = None)
     ∧ ∀ b, ss_binding s = Some b → b_runtime b < mg_nextRuntime m
          ∧ (b_runtime b = rt_number (mg_runtime m) →
             b_policies b = match rt_config (mg_runtime m) with
                            | Some _ => matching (ss_flow s) (rt_policies (mg_runtime m)) | None => [] end)) →
  manager_ok (with_sessions (with_heap m h) ss).
Proof.
  intros Hm Hmv Hcnt Hss. assert (Hdom := λ l, moves_is_Some _ _ _ l Hmv). split; simpl.
  - intros l Hl. apply (mo_fresh m Hm), Hdom, Hl.
  - intros id l Hl. apply Hdom. by eapply mo_states.
  - intros p Hp. apply Hdom. by eapply mo_runtime.
  - intros sid s p Hs Hp. apply Hdom. by eapply Hss.
  - intros l s Hs. specialize (Hmv l). rewrite Hs in Hmv. destruct (mg_heap m !! l) as [s0|] eqn:Hs0; [|done].
    destruct Hmv as [_ Ha]. rewrite Hcnt. apply Ha. by apply (mo_active m Hm).
  - intros sid s Hs. by apply (Hss sid).
  - apply Hm.
  - intros sid s b Hs Hb. by apply (Hss sid s Hs).
Qed.

(** The sessions of a good manager satisfy the per-session conditions. *)
Lemma old_session_ok m sid s : manager_ok m → mg_sessions m !! sid = Some s →
  (∀ p, p ∈ binding_policies (ss_binding s) → is_Some (mg_heap m !! r_state p))
  ∧ (ss_closed s = true → ss_binding s = None)
  ∧ ∀ b, ss_binding s = Some b → b_runtime b < mg_nextRuntime m
       ∧ (b_runtime b = rt_number (mg_runtime m) →
          b_policies b = match rt_config (mg_runtime m) with
                         | Some _ => matching (ss_flow s) (rt_policies (mg_runtime m)) | None => [] end).
Proof.
  intros Hm Hs. split_and!.
  - intros p Hp. by eapply mo_bound.
  - by eapply mo_closed.
  - intros b Hb. by eapply mo_current.
Qed.

(** A binding made for the current runtime. *)
Lemma new_binding_ok m now flow b h : manager_ok m → bindSession now (mg_runtime m) flow (mg_heap m) = (b, h) →
  moves (mg_heap m) h (λ l, Z.of_nat (occ l (b_policies b)))
  ∧ b_runtime b = rt_number (mg_runtime m)
  ∧ b_policies b = match rt_config (mg_runtime m) with
                   | Some _ => matching flow (rt_policies (mg_runtime m)) | None => [] end
  ∧ ∀ p, p ∈ b_policies b → is_Some (mg_heap m !! r_state p).
Proof.
  intros Hm Hb. pose proof (bindSession_spec now (mg_runtime m) flow (mg_heap m)) as Hsp. rewrite Hb in Hsp.
  destruct Hsp as (Hn & Hp & Hmv). split_and!; try done. intros p. rewrite Hp. destruct (rt_config _); [|by intros ?%elem_of_nil].
  intros [_ Hin]%list_elem_of_filter. by eapply mo_runtime.
Qed.

Lemma Open_ok now sid flow m : manager_ok m → mg_sessions m !! sid = None → manager_ok (Open now sid flow m).
Proof.
  intros Hm Hsid. unfold Open. destruct (bindSession now (mg_runtime m) flow (mg_heap m)) as [b h] eqn:Hb.
  destruct (new_binding_ok m now flow b h Hm Hb) as (Hmv & Hn & Hp & Hin).
  destruct (b_policies b) as [|p ps] eqn:Hbp.
  - apply (manager_ok_sessions m h (mg_sessions m) (λ l, Z.of_nat (occ l []))); [done|done|unfold occ; simpl; lia|].
    intros. by eapply old_session_ok.
  - apply manager_ok_with_reports.
    apply (manager_ok_sessions m h _ (λ l, Z.of_nat (occ l (p :: ps)))); [done|done| |].
    + intros l. rewrite bound_count_insert by done. unfold session_occ. simpl. rewrite Hbp. lia.
    + intros sid' s Hs. apply lookup_insert_Some in Hs as [[<- <-]|[_ Hs]]; [|by eapply old_session_ok].
      split_and!; [by rewrite <- Hbp in Hin|done|]. intros b' [= <-]. rewrite Hn, Hbp.
      split; [apply Hm|done].
Qed.

Lemma currentBinding_ok now sid m : manager_ok m →
  manager_ok (currentBinding now sid m).2
  ∧ match (currentBinding now sid m).1 with
    | Some b => ∃ s, mg_sessions m !! sid = Some s ∧ ss_closed s = false
        ∧ b_policies b = match rt_config (mg_runtime m) with
                         | Some _ => matching (ss_flow s) (rt_policies (mg_runtime m)) | None => [] end
        ∧ (∃ n, moves (mg_heap m) (mg_heap (currentBinding now sid m).2) n)
        ∧ mg_runtime (currentBinding now sid m).2 = mg_runtime m
    | None => ∀ s, mg_sessions m !! sid = Some s → ss_closed s = true
    end.
Proof.
  intros Hm. unfold currentBinding. destruct (mg_sessions m !! sid) as [s|] eqn:Hs; [|done].
  destruct (ss_closed s) eqn:Hc; [split; [done|]; intros ? [= <-]; done|].
  assert (Hrebind : let '(next, h) := bindSession now (mg_runtime m) (ss_flow s) (mg_heap m) in
    let m' := with_sessions (with_heap m (releaseSessionBinding (ss_binding s) h)) (<[sid := MkSession (ss_flow s) (Some next) false]> (mg_sessions m)) in
    manager_ok m' ∧ b_policies next = match rt_config (mg_runtime m) with
                         | Some _ => matching (ss_flow s) (rt_policies (mg_runtime m)) | None => [] end
    ∧ ∃ n, moves (mg_heap m) (releaseSessionBinding (ss_binding s) h) n).
  { destruct (bindSession now (mg_runtime m) (ss_flow s) (mg_heap m)) as [next h] eqn:Hb.
    destruct (new_binding_ok m now (ss_flow s) next h Hm Hb) as (Hmv & Hn & Hp & Hin).
    set (n := λ l, (Z.of_nat (occ l (b_policies next)) - Z.of_nat (occ l (binding_policies (ss_binding s))))%Z).
    assert (Hmv' : moves (mg_heap m) (releaseSessionBinding (ss_binding s) h) n).
    { eapply moves_trans; [exact Hmv|apply release_spec|]. intros l. unfold n. simpl. lia. }
    split_and!; [|done|by exists n]. eapply manager_ok_sessions; [done|exact Hmv'| |].
    - intros l. pose proof (bound_count_update (mg_sessions m) sid s (MkSession (ss_flow s) (Some next) false) l Hs) as Hu.
      unfold session_occ in Hu. simpl in Hu. unfold n. lia.
    - intros sid' s' Hs'. apply lookup_insert_Some in Hs' as [[<- <-]|[_ Hs']]; [|by eapply old_session_ok].
      split_and!; [done|done|]. intros b' [= <-]. rewrite Hn. split; [apply Hm|done]. }
  destruct (bindSession now (mg_runtime m) (ss_flow s) (mg_heap m)) as [next h].
  destruct Hrebind as (Hok & Hp & Hmv).
  destruct (ss_binding s) as [b|] eqn:Hsb; [case_decide as Hrt|].
  - split; [done|]. exists s. split_and!; try done.
    + by eapply (mo_current m Hm sid s b Hs Hsb).
    + exists (λ _, 0%Z). by apply moves_refl.
  - split; [by apply manager_ok_with_reports|]. exists s. by split_and!.
  - split; [by apply manager_ok_with_reports|]. exists s. by split_and!.
Qed.

Lemma Close_ok sid m : manager_ok m → manager_ok (Close sid m).
Proof.
  intros Hm. unfold Close. destruct (mg_sessions m !! sid) as [s|] eqn:Hs; [|done].
  destruct (ss_closed s); [done|]. eapply manager_ok_sessions; [done|apply release_spec| |].
  - intros l. pose proof (bound_count_update (mg_sessions m) sid s (MkSession (ss_flow s) None true) l Hs) as Hu.
    unfold session_occ in Hu. simpl in Hu. change (occ l []) with 0 in Hu. lia.
  - intros sid' s' Hs'. apply lookup_insert_Some in Hs' as [[<- <-]|[_ Hs']]; [|by eapply old_session_ok].
    split_and!; [by intros p ?%elem_of_nil|done|done].
Qed.

(** Replacing states one for one, with their active counts. *)
Definition same_active (h h' : gmap nat policyState) : Prop :=
  ∀ l, s_Active <$> h' !! l = s_Active <$> h !! l.

Lemma manager_ok_same_active m h : manager_ok m → same_active (mg_heap m) h → manager_ok (with_heap m h).
Proof.
  intros Hm Hsame. assert (Hdom : ∀ l, is_Some (h !! l) ↔ is_Some (mg_heap m !! l)).
  { intros l. specialize (Hsame l). destruct (h !! l), (mg_heap m !! l); try done; split; intros [? ?]; done || eauto. }
  split; simpl; try apply Hm.
  - intros l Hl. apply (mo_fresh m Hm), Hdom, Hl.
  - intros id l Hl. apply Hdom. by eapply mo_states.
  - intros p Hp. apply Hdom. by eapply mo_runtime.
  - intros sid s p Hs Hp. apply Hdom. by eapply mo_bound.
  - intros l s Hs. specialize (Hsame l). rewrite Hs in Hsame. destruct (mg_heap m !! l) as [s0|] eqn:Hs0; [|done].
    injection Hsame as ->. by apply (mo_active m Hm).
Qed.

Lemma record_active mt d b now s : s_Active (record mt d b now s).2 = s_Active s.
Proof.
  unfold record. destruct (m_width mt >? 0)%Z.
  - set (s1 := with_seen _ _ _). destruct (negb _ || _); cbn [snd].
    + pose proof (prune_fields mt s1 (cutoff_at mt now)) as [_ Ha].
      destruct (_ && _); simpl; rewrite ?Ha; done.
    + by destruct (_ && _).
  - by destruct (_ && _).
Qed.

Lemma record_loop_active d b now ps crossed h :
  same_active h (foldl (record_step d b now) (crossed, h) ps).2.
Proof.
  revert crossed h. induction ps as [|p ps IH]; intros crossed h; [done|]. cbn [foldl record_step].
  destruct (h !! r_state p) as [s|] eqn:Hs; [|apply IH].
  destruct (record (r_meter p) d b now s) as [c s'] eqn:Hr. intros l. rewrite (IH _ _ l).
  destruct (decide (l = r_state p)) as [->|Hne]; [|by rewrite lookup_insert_ne].
  rewrite lookup_insert_eq, Hs. simpl. f_equal. change s' with (c, s').2. rewrite <- Hr. apply record_active.
Qed.

Lemma Record_ok now sid d b m : manager_ok m → manager_ok (Record_ now sid d b m).
Proof.
  intros Hm. unfold Record_. case_match; [done|]. destruct (currentBinding_ok now sid m Hm) as [Hok _].
  destruct (currentBinding now sid m) as [[bd|] m']; [|done]. simpl in Hok.
  pose proof (record_loop_active d b now (b_policies bd) false (mg_heap m')) as Hsame.
  destruct (foldl _ _ _) as [crossed h]. simpl in Hsame.
  apply (manager_ok_same_active m' h) in Hsame; [|done].
  destruct crossed; [apply manager_ok_with_reports|]; by apply manager_ok_reports.
Qed.

Context `{SortSlice} (store : StoreOps) (duration_string : Z → str).

Lemma flushLocked_ok now m : manager_ok m → manager_ok (flushLocked store now m).2
  ∧ mg_heap (flushLocked store now m).2 = mg_heap m ∧ mg_sessions (flushLocked store now m).2 = mg_sessions m
  ∧ mg_nextState (flushLocked store now m).2 = mg_nextState m
  ∧ mg_nextRuntime (flushLocked store now m).2 = mg_nextRuntime m.
Proof.
  intros Hm. unfold flushLocked. destruct (rt_config (mg_runtime m)) as [c|]; [|done].
  destruct (negb (mg_dirty m)); [done|].
  set (states := cleanupOrphans _ _ _ _).
  assert (Hst : ∀ r d, manager_ok (MkManager (mg_runtime m) states (mg_heap m) (mg_nextState m) (mg_nextRuntime m) r (mg_revision m) d (mg_sessions m))).
  { intros r d. split; simpl; try apply Hm. intros id l Hl. unfold states, cleanupOrphans in Hl.
    apply map_lookup_filter_Some in Hl as [Hl _]. by eapply mo_states. }
  destruct (so_save _ _ _ _); [split; [apply Hst|done]| |split; [apply Hst|done]].
  destruct (trim_loop _ _ _ _ _ _) as [[?|?|] ?]; (split; [apply Hst|done]).
Qed.

Lemma Reset_ok now id m : manager_ok m → manager_ok (Reset store now id m).2.
Proof.
  intros Hm. unfold Reset. destruct (filter _ _) as [|p ps]; [done|].
  assert (Hok : manager_ok (with_heap m (alter_state (reset_state now) (r_state p) (mg_heap m)))).
  { apply manager_ok_same_active; [done|]. intros l. unfold alter_state. destruct (decide (l = r_state p)) as [->|Hne].
    - rewrite lookup_alter_eq. by destruct (mg_heap m !! r_state p).
    - by rewrite lookup_alter_ne. }
  apply flushLocked_ok. destruct Hok. by split.
Qed.

(** Another runtime, whose policies and states exist. *)
Lemma new_runtime_ok m config policies generation states reports revision dirty : manager_ok m →
  (∀ id l, states !! id = Some l → is_Some (mg_heap m !! l)) → (∀ p, p ∈ policies → is_Some (mg_heap m !! r_state p)) →
  manager_ok (MkManager (MkRuntime (mg_nextRuntime m) config policies generation) states (mg_heap m) (mg_nextState m)
    (S (mg_nextRuntime m)) reports revision dirty (mg_sessions m)).
Proof.
  intros Hm Hs Hp. split; simpl; try apply Hm; [done|done|lia|].
  intros sid s b Hss Hb. destruct (mo_current m Hm sid s b Hss Hb) as [Hlt _]. split; [lia|]. intros Heq. lia.
Qed.

(** *** Staging a configuration *)

(** The stage extends a heap: old states keep their active counts, new ones
    are not active, and everything named by the stage exists. *)
Record stage_ok (h : gmap nat policyState) (n : nat) (g : stage) : Prop := {
  so_next : n ≤ st_next g;
  so_fresh : ∀ l, is_Some (st_heap g !! l) → l < st_next g;
  so_old : ∀ l s, h !! l = Some s → s_Active <$> st_heap g !! l = Some (s_Active s);
  so_new : ∀ l s, h !! l = None → st_heap g !! l = Some s → s_Active s = 0%Z;
  so_states : ∀ id l, st_states g !! id = Some l → is_Some (st_heap g !! l);
  so_policies : ∀ p, p ∈ st_policies g → is_Some (st_heap g !! r_state p)
}.

Lemma stage_alloc_ok h n g id s : (∀ l, is_Some (h !! l) → l < n) → stage_ok h n g → s_Active s = 0%Z →
  stage_ok h n (stage_alloc id s g).2 ∧ is_Some (st_heap (stage_alloc id s g).2 !! (stage_alloc id s g).1).
Proof.
  intros Hh [Hn Hf Ho Hnew Hs Hp] Ha.
  assert (Hkeep : ∀ l, is_Some (st_heap g !! l) → is_Some (<[st_next g := s]> (st_heap g) !! l)).
  { intros l Hl. destruct (decide (l = st_next g)) as [->|]; [rewrite lookup_insert_eq|rewrite lookup_insert_ne by done]; eauto. }
  split; [|simpl; rewrite lookup_insert_eq; eauto]. split; simpl.
  - lia.
  - intros l Hl. apply lookup_insert_is_Some in Hl as [<-|[_ Hl]]; [lia|]. apply Hf in Hl. lia.
  - intros l s0 Hl. rewrite lookup_insert_ne; [by apply Ho|]. intros <-. assert (st_next g < n) by eauto. lia.
  - intros l s0 Hl. rewrite lookup_insert_Some. intros [[<- <-]|[_ Hl']]; [done|by eapply Hnew].
  - intros id' l. rewrite lookup_insert_Some. intros [[<- <-]|[_ Hl]]; [rewrite lookup_insert_eq; eauto|].
    apply Hkeep. by eapply Hs.
  - intros p Hin. apply Hkeep. by apply Hp.
Qed.

(** Altering a state without touching its active count. *)
Lemma stage_alter_ok h n g f l ps : stage_ok h n g → (∀ s, s_Active (f s) = s_Active s) →
  (∀ p, p ∈ ps → is_Some (st_heap g !! r_state p)) →
  stage_ok h n (MkStage (st_states g) (alter_state f l (st_heap g)) (st_next g) ps).
Proof.
  intros [Hn Hf Ho Hnew Hs Hp] Ha Hps. unfold alter_state.
  assert (Hkeep : ∀ l', is_Some (alter f l (st_heap g) !! l') ↔ is_Some (st_heap g !! l')).
  { intros l'. by rewrite lookup_alter_is_Some. }
  split; simpl; [done| | | | |].
  - intros l' Hl. apply Hf. by apply Hkeep.
  - intros l' s Hl. destruct (decide (l' = l)) as [->|]; [|rewrite lookup_alter_ne by done; by apply Ho].
    rewrite lookup_alter_eq. apply Ho in Hl. destruct (st_heap g !! l); simpl in *; [by rewrite Ha|done].
  - intros l' s Hl. destruct (decide (l' = l)) as [->|]; [|rewrite lookup_alter_ne by done; by apply Hnew].
    rewrite lookup_alter_eq. destruct (st_heap g !! l) as [s0|] eqn:E; simpl; [|done]. intros [= <-]. rewrite Ha. by eapply Hnew.
  - intros id l' Hl. apply Hkeep. by eapply Hs.
  - intros p Hin. apply Hkeep. by apply Hps.
Qed.

Lemma stage_policy_ok h n now g spec : (∀ l, is_Some (h !! l) → l < n) → stage_ok h n g →
  stage_ok h n (stage_policy duration_string now g spec).
Proof.
  intros Hh Hg. unfold stage_policy.
  assert (Hgen : ∃ l g', match st_states g !! po_ID spec ≫= λ l, pair l <$> st_heap g !! l with
      | None => stage_alloc (po_ID spec) (fresh_state (po_ID spec) (policyIdentity duration_string spec) 1 now) g
      | Some (l, s) => if decide (s_Identity s = policyIdentity duration_string spec) then (l, g)
        else stage_alloc (po_ID spec) (fresh_state (po_ID spec) (policyIdentity duration_string spec) (wrap uint64 (s_Generation s + 1)) now) g
      end = (l, g') ∧ stage_ok h n g' ∧ is_Some (st_heap g' !! l)).
  { destruct (st_states g !! po_ID spec) as [l|] eqn:Hl; simpl.
    - destruct (so_states h n g Hg _ _ Hl) as [s Hs]. rewrite Hs. simpl. case_decide; [exists l, g; by split_and!|].
      eexists _, _. split; [reflexivity|]. by apply stage_alloc_ok.
    - eexists _, _. split; [reflexivity|]. by apply stage_alloc_ok. }
  destruct Hgen as (l & g' & -> & Hg' & Hl). apply stage_alter_ok; [done| |].
  - intros s. unfold attach. by case_match.
  - intros p [Hp|Hp]%elem_of_app; [by apply (so_policies h n g' Hg')|]. by apply list_elem_of_singleton in Hp as ->.
Qed.

Lemma stage_fold_ok {A} (f : stage → A → stage) h n l g : (∀ g a, stage_ok h n g → stage_ok h n (f g a)) →
  stage_ok h n g → stage_ok h n (foldl f g l).
Proof. intros Hf. revert g. induction l as [|a l IH]; intros g Hg; [done|]. apply IH, Hf, Hg. Qed.

Lemma base_stage_ok m (states : gmap str nat) : manager_ok m → (∀ id l, states !! id = Some l → is_Some (mg_heap m !! l)) →
  stage_ok (mg_heap m) (mg_nextState m) (MkStage states (mg_heap m) (mg_nextState m) []).
Proof.
  intros Hm Hst. split; simpl; [done|apply (mo_fresh m Hm)| | |done|by intros p ?%elem_of_nil].
  - intros l s Hl. by rewrite Hl.
  - intros l s Hl Hl'. congruence.
Qed.

Lemma with_stage_ok m g : manager_ok m → stage_ok (mg_heap m) (mg_nextState m) g → manager_ok (with_stage m g).
Proof.
  intros Hm [Hn Hf Ho Hnew Hs Hp].
  assert (Hold : ∀ l, is_Some (mg_heap m !! l) → is_Some (st_heap g !! l)).
  { intros l [s Hl]. apply Ho in Hl. by destruct (st_heap g !! l); [eauto|]. }
  split; simpl; try done; try apply Hm.
  - intros id l Hl. eapply Hold, (mo_states m Hm), Hl.
  - intros p Hin. by apply Hold, (mo_runtime m Hm).
  - intros sid s p Hss Hin. eapply Hold, (mo_bound m Hm); done.
  - intros l s Hl. destruct (mg_heap m !! l) as [s0|] eqn:E.
    + pose proof (Ho l s0 E) as Ha. rewrite Hl in Ha. injection Ha as ->. by apply (mo_active m Hm).
    + rewrite (Hnew l s E Hl), bound_count_zero; [done|]. intros sid s1 Hs1. unfold session_occ, occ.
      destruct (filter _ _) as [|p ps] eqn:Ef; [done|]. exfalso.
      assert (Hin : p ∈ filter (λ p, r_state p = l) (binding_policies (ss_binding s1))) by (rewrite Ef; left).
      apply list_elem_of_filter in Hin as [<- Hin]. destruct (mo_bound m Hm sid s1 p Hs1 Hin) as [x Hx]. congruence.
Qed.

(** What is prepared names states of the manager that preparing leaves. *)
Definition prepared_ok (st : stagedConfiguration) (m : Manager) : Prop :=
  (∀ id l, st_states (sg_stage st) !! id = Some l → is_Some (mg_heap m !! l))
  ∧ ∀ p, p ∈ st_policies (sg_stage st) → is_Some (mg_heap m !! r_state p).

Lemma prepareConfiguration_ok now config an m : manager_ok m →
  let '(r, m') := prepareConfiguration duration_string now config an m in
  manager_ok m' ∧ match r with Ok st => prepared_ok st m' | _ => True end.
Proof.
  intros Hm. unfold prepareConfiguration.
  assert (Hnone : ∀ g, prepared_ok (MkStaged None (MkStage ∅ g (mg_nextState m) []) ∅ false) m)
    by (split; simpl; [intros id l Hl; by rewrite lookup_empty in Hl|by intros p ?%elem_of_nil]).
  destruct config as [c|]; [|by split]. destruct (negb (cf_Enabled c)); [by split|].
  assert (Hprep : ∀ g0 reports reuse, stage_ok (mg_heap m) (mg_nextState m) g0 →
    let g := foldl (stage_policy duration_string now) g0 (cf_Policies c) in
    manager_ok (with_stage m g) ∧ prepared_ok (MkStaged (Some c) (MkStage
      (cleanupOrphans (rep_OrphanRetention (cf_Reports c)) now (st_heap g) (st_states g)) (st_heap g) (st_next g) (st_policies g))
      reports reuse) (with_stage m g)).
  { intros g0 reports reuse Hg0 g. assert (Hg : stage_ok (mg_heap m) (mg_nextState m) g).
    { apply stage_fold_ok; [|done]. intros. apply stage_policy_ok; [apply (mo_fresh m Hm)|done]. }
    split; [by apply with_stage_ok|]. split; simpl; [|apply Hg].
    intros id l Hl. apply map_lookup_filter_Some in Hl as [Hl _]. by eapply (so_states _ _ _ Hg). }
  destruct (same_store m c).
  - destruct (_ && _); [done|]. pose proof (base_stage_ok m (mg_states m) Hm (mo_states m Hm)) as Hg.
    destruct (an_portal an); [by apply Hprep|]. split; [by apply (Hprep _ (mg_reports m) true)|done].
  - destruct (an_open an) as [| |states reports]; [done..|].
    assert (Hl : stage_ok (mg_heap m) (mg_nextState m) (load_states states (MkStage ∅ (mg_heap m) (mg_nextState m) []))).
    { apply stage_fold_ok; [|apply base_stage_ok; [done|]; intros id l Hl; by rewrite lookup_empty in Hl].
      intros g [id s] Hg. by apply stage_alloc_ok; [apply (mo_fresh m Hm)|..]. }
    destruct (an_portal an); [by apply Hprep|]. split; [by apply (Hprep _ reports false)|done].
Qed.

Lemma touch_states_same now ps : ∀ (h : gmap nat policyState) l,
  s_Active <$> foldl (λ h p, alter_state (touch_state now) (r_state p) h) h ps !! l = s_Active <$> h !! l.
Proof.
  induction ps as [|p ps IH]; intros h l; [done|]. cbn [foldl]. rewrite IH. unfold alter_state.
  destruct (decide (l = r_state p)) as [->|Hne]; [|by rewrite lookup_alter_ne].
  rewrite lookup_alter_eq. by destruct (h !! r_state p).
Qed.

Lemma configure_ok now config an m : manager_ok m → manager_ok (configure duration_string store now config an m).2.
Proof.
  intros Hm. unfold configure. pose proof (prepareConfiguration_ok now config an m Hm) as Hp.
  destruct (prepareConfiguration duration_string now config an m) as [[st|e|] m1]; [|by destruct Hp..]. destruct Hp as [Hm1 [Hst Hps]].
  destruct (flushLocked_ok now m1 Hm1) as (Hok & Hheap & _). destruct (flushLocked store now m1) as [[?|?|] m']; [|done|done].
  cbn [snd] in *. rewrite <- Hheap in Hst, Hps.
  pose proof (new_runtime_ok m' (sg_config st) (st_policies (sg_stage st)) (wrap uint64 (mg_revision m' + 1)) (st_states (sg_stage st))
    (staged_reports now st m1) (wrap uint64 (mg_revision m' + 1)) (bool_decide (is_Some (sg_config st))) Hok Hst Hps) as Hnew.
  refine (manager_ok_same_active _ _ Hnew _). intros l. apply touch_states_same.
Qed.
End active.

(** ** Reachable managers *)

Section reachable.
Context `{GoEnv, SortSlice} (store : StoreOps) (duration_string : Z → str).

Inductive step (m : Manager) : Manager → Prop :=
| step_open now sid flow : mg_sessions m !! sid = None → step m (Open now sid flow m)
| step_record now sid d bytes : step m (Record_ now sid d bytes m)
| step_close sid : step m (Close sid m)
| step_reset now id : step m (Reset store now id m).2
| step_flush now : step m (Flush store now m).2
| step_configure now config an : step m (configure duration_string store now config an m).2
| step_close_manager now portal closed : step m (CloseManager store now portal closed m).2.

Definition reachable (m : Manager) : Prop := rtc step NewManager m.

Lemma CloseManager_ok now portal closed m : manager_ok m → manager_ok (CloseManager store now portal closed m).2.
Proof.
  intros Hm. unfold CloseManager. destruct portal; [|done]. cbn [negb]. destruct (flushLocked_ok store now m Hm) as (Hok & _).
  destruct (flushLocked store now m) as [[?|?|] m']; [|done|done]. apply new_runtime_ok; [done| |by intros p ?%elem_of_nil].
  intros id l Hl. by rewrite lookup_empty in Hl.
Qed.

Lemma step_ok m m' : step m m' → manager_ok m → manager_ok m'.
Proof.
  intros Hs Hm. destruct Hs; [by apply Open_ok|by apply Record_ok|by apply Close_ok|by apply Reset_ok| | |].
  - by apply flushLocked_ok.
  - by apply configure_ok.
  - by apply CloseManager_ok.
Qed.

Lemma reachable_manager_ok m : reachable m → manager_ok m.
Proof.
  intros Hr. unfold reachable in Hr. remember NewManager as m0 eqn:Hm0.
  assert (Hok : manager_ok m0) by (subst; apply NewManager_ok). clear Hm0.
  induction Hr as [m|m1 m2 m3 Hs _ IH]; [done|]. apply IH. by eapply step_ok.
Qed.
End reachable.

(** A configuration that fails, to open or load the store, to start the portal or
    to flush, leaves the runtime, the revision and the sessions as they were. *)
Theorem configure_failed `{GoEnv, SortSlice} (store : StoreOps) (duration_string : Z → str) now config an m e m' :
  configure duration_string store now config an m = (Err e, m') →
  mg_runtime m' = mg_runtime m ∧ mg_revision m' = mg_revision m ∧ mg_sessions m' = mg_sessions m.
Proof.
  unfold configure. destruct (prepareConfiguration duration_string now config an m) as [r m1] eqn:Ep.
  assert (mg_runtime m1 = mg_runtime m ∧ mg_revision m1 = mg_revision m ∧ mg_sessions m1 = mg_sessions m) as (<- & <- & <-).
  { unfold prepareConfiguration in Ep. repeat case_match; by simplify_eq. }
  clear Ep. destruct r as [st| |]; [|by intros [= _ <-]|done].
  unfold flushLocked. repeat case_match; intros; by simplify_eq.
Qed.

(** C2: the number of active connections shown for a policy is exact. In every
    state the manager can reach from its start by opening, using and closing
    sessions, resetting policies, flushing, closing the manager and applying
    any sequence of configurations, each policy state's [Active] is the number
    of times the sessions that are still open are bound to it; in particular
    it is zero once all sessions are closed, so a change of configuration
    neither leaks nor double-counts a connection. *)
Theorem active_counts_sessions `{GoEnv, SortSlice} (store : StoreOps) (duration_string : Z → str) (m : Manager)
    (l : nat) (s : policyState) :
  reachable store duration_string m → mg_heap m !! l = Some s →
  s_Active s = wrap int64 (Z.of_nat (bound_count (mg_sessions m) l))
  ∧ ((∀ sid ss, mg_sessions m !! sid = Some ss → ss_closed ss = true) → s_Active s = 0%Z).
Proof.
  intros Hr Hl. apply reachable_manager_ok in Hr as Hm. pose proof (mo_active m Hm l s Hl) as Ha.
  split; [done|]. intros Hall. rewrite Ha, bound_count_zero; [done|]. intros sid ss Hss.
  unfold session_occ. by rewrite (mo_closed m Hm sid ss Hss (Hall sid ss Hss)).
Qed.

Section counts.
Context `{GoEnv}.

Lemma record_counters mt d b now s d' :
  get_bytes d' (s_Counters (record mt d b now s).2) = get_bytes d' (counters_add d b (s_Counters s)).
Proof.
  unfold record. destruct (m_width mt >? 0)%Z.
  - set (s1 := with_seen _ _ _). destruct (negb _ || _); cbn [snd].
    + pose proof (prune_fields mt s1 (cutoff_at mt now)) as [Hc _].
      destruct (_ && _); cbn [s_Counters with_counters with_over with_window with_start]; rewrite ?Hc; by destruct d'.
    + by destruct (_ && _), d'.
  - by destruct (_ && _), d'.
Qed.

(** [n] additions of [bytes], each wrapping. *)
Definition added (bytes : Z) (n : nat) (x : Z) : Z := Nat.iter n (λ y, wrap int64 (y + bytes)) x.

Lemma record_loop_counters d b now ps crossed h l s : h !! l = Some s →
  ∃ s', (foldl (record_step d b now) (crossed, h) ps).2 !! l = Some s'
    ∧ ∀ d', get_bytes d' (s_Counters s') =
            if decide (d' = d) then added b (occ l ps) (get_bytes d' (s_Counters s)) else get_bytes d' (s_Counters s).
Proof.
  revert crossed h s. induction ps as [|p ps IH]; intros crossed h s Hl.
  { exists s. split; [done|]. intros d'. by case_decide. }
  cbn [foldl record_step]. change (p :: ps) with ([p] ++ ps). rewrite occ_app, occ_singleton.
  destruct (decide (r_state p = l)) as [<-|Hne].
  - rewrite Hl. destruct (record (r_meter p) d b now s) as [c s1] eqn:Hr.
    destruct (IH (crossed || c) (<[r_state p := s1]> h) s1) as (s' & Hs' & Hb); [apply lookup_insert_eq|].
    exists s'. split; [done|]. intros d'. rewrite Hb. pose proof (record_counters (r_meter p) d b now s d') as Hrc.
    rewrite Hr in Hrc. simpl in Hrc. rewrite Hrc, get_counters_add. case_decide; [|done].
    unfold added. change (1 + ?k) with (S k). by rewrite Nat.iter_succ_r.
  - destruct (h !! r_state p) as [s0|]; [|apply IH, Hl]. destruct (record (r_meter p) d b now s0) as [c s1].
    apply IH. by rewrite lookup_insert_ne.
Qed.
End counts.

(** Recorded traffic reaches exactly the policies it belongs to. When an open
    session records [bytes] under an enabled configuration, every policy that
    is enabled in the configuration in force and matches the session's flow
    has its counter for that direction increased by [bytes] (once for each time
    it is configured), whatever configuration the session was opened under,
    and the counters of every other policy and of the other direction do not
    change. *)
Theorem Record_counts_matching `{GoEnv, SortSlice} (store : StoreOps) (duration_string : Z → str) (m : Manager)
    (now : Z) (sid : nat) (ss : Session) (d : Direction) (bytes : Z) (l : nat) (s : policyState) :
  reachable store duration_string m → mg_sessions m !! sid = Some ss → ss_closed ss = false → (0 < bytes)%Z →
  is_Some (rt_config (mg_runtime m)) → mg_heap m !! l = Some s →
  ∃ s', mg_heap (Record_ now sid d bytes m) !! l = Some s'
    ∧ ∀ d', get_bytes d' (s_Counters s') =
            if decide (d' = d)
            then added bytes (occ l (matching (ss_flow ss) (rt_policies (mg_runtime m)))) (get_bytes d' (s_Counters s))
            else get_bytes d' (s_Counters s).
Proof.
  intros Hr Hss Hclosed Hbytes [c Hcfg] Hl. apply reachable_manager_ok in Hr as Hm. unfold Record_.
  destruct (Z.leb_spec bytes 0); [lia|]. destruct (currentBinding_ok now sid m Hm) as [_ Hcur].
  destruct (currentBinding now sid m) as [[b|] m'] eqn:Hcb; simpl in Hcur.
  2: { specialize (Hcur ss Hss). congruence. }
  destruct Hcur as (ss' & Hss' & _ & Hbp & (n & Hmv) & _). simplify_eq. rewrite Hcfg in Hbp.
  specialize (Hmv l). rewrite Hl in Hmv. destruct (mg_heap m' !! l) as [s1|] eqn:Hl1; [|done]. destruct Hmv as [Hc1 _].
  destruct (record_loop_counters d bytes now (b_policies b) false (mg_heap m') l s1 Hl1) as (s' & Hs' & Hcnt).
  destruct (foldl _ _ _) as [crossed h]. exists s'. rewrite <- Hbp, <- Hc1. split; [|done]. by destruct crossed.
Qed.

(** *** A concrete run *)

Definition sample_store : StoreOps := MkStoreOps (λ _ _ _, SaveOk) (λ _, true) (λ _, 0%Z).
Definition sample_flow : Flow := MkFlow (Addr4 3232235800) (lit "DOMAIN-SUFFIX") (lit "example.com") (lit "PROXY") [lit "auto"].

Definition sample_m1 : Manager :=
  (configure (H := sample_env) (H0 := merge_sort_slice) (λ _, []) sample_store (1000 * Hour) (Some sample_config) (MkAnswers 0 (Opened [] ∅) true) NewManager).2.
Definition sample_m2 : Manager := Open (H := sample_env) (1000 * Hour) 7 sample_flow sample_m1.

Lemma sample_m2_reachable : reachable (H := sample_env) (H0 := merge_sort_slice) sample_store (λ _, []) sample_m2.
Proof.
  unfold reachable. eapply rtc_l; [apply (step_configure _ _ _ (1000 * Hour) (Some sample_config) (MkAnswers 0 (Opened [] ∅) true))|].
  eapply rtc_l; [|apply rtc_refl]. apply (step_open _ _ _ (1000 * Hour) 7 sample_flow). vm_compute. reflexivity.
Qed.

(** All four policies of the sample configuration match the flow. *)
Lemma active_counts_sessions_witness :
  match mg_heap sample_m2 !! 1 with Some s => s_Active s = 1%Z | None => False end.
Proof.
  destruct (mg_heap sample_m2 !! 1) as [s|] eqn:Hs; [|vm_compute in Hs; discriminate Hs].
  destruct (active_counts_sessions (H := sample_env) (H0 := merge_sort_slice) sample_store (λ _, []) sample_m2 1 s
    sample_m2_reachable Hs) as [Ha _].
  rewrite Ha. vm_compute. reflexivity.
Defined.

Lemma Record_counts_matching_witness :
  match mg_heap (Record_ (H := sample_env) (1001 * Hour) 7 Upload 400 sample_m2) !! 2 with
  | Some s' => get_bytes Upload (s_Counters s') = 400%Z
  | None => False
  end.
Proof.
  destruct (mg_sessions sample_m2 !! 7) as [ss|] eqn:Hss; [|vm_compute in Hss; discriminate Hss].
  destruct (mg_heap sample_m2 !! 2) as [s|] eqn:Hs; [|vm_compute in Hs; discriminate Hs].
  assert (Hclosed : ss_closed ss = false) by (vm_compute in Hss; injection Hss as <-; reflexivity).
  assert (Hflow : ss_flow ss = sample_flow) by (vm_compute in Hss; injection Hss as <-; reflexivity).
  assert (Hz : get_bytes Upload (s_Counters s) = 0%Z) by (vm_compute in Hs; injection Hs as <-; reflexivity).
  destruct (Record_counts_matching (H := sample_env) (H0 := merge_sort_slice) sample_store (λ _, []) sample_m2
    (1001 * Hour) 7 ss Upload 400 2 s sample_m2_reachable Hss Hclosed ltac:(reflexivity) ltac:(vm_compute; eexists; reflexivity) Hs)
    as (s' & -> & Hb).
  rewrite Hb, Hz, Hflow. vm_compute. reflexivity.
Defined.

(** ** Flushing terminates *)

Lemma dropOldest_smaller `{SortSlice} reports :
  let '(dropped, reports') := dropOldestReportSeries reports in
  if dropped then size reports' < size reports ∧ reports' ⊆ reports else size reports = 0 ∧ reports' = reports.
Proof.
  unfold dropOldestReportSeries. case_decide as Hz; [done|].
  set (cs := sort_slice _ _). set (k := if (_ <? _)%nat then 1 else _).
  destruct (report_candidates_spec reports) as (Hnd & Hlen & Hcand).
  assert (Hperm : cs ≡ₚ report_candidates reports) by apply sort_slice_perm.
  assert (Hlcs : length cs = size reports) by (by rewrite Hperm).
  assert (Hk : 1 ≤ k) by (unfold k; destruct (Nat.ltb_spec ((length cs + 9) / 10) 1); lia).
  assert (Hndcs : NoDup (take k cs).*1).
  { rewrite <- Hperm in Hnd. rewrite <- (take_drop k cs), fmap_app in Hnd. by apply NoDup_app in Hnd as [? _]. }
  split.
  - rewrite delete_all_size; [|done|].
    + rewrite length_take. lia.
    + intros x Hx. apply list_elem_of_fmap in Hx as ([x0 u] & -> & Hin).
      assert (Hin' : (x0, u) ∈ report_candidates reports) by (rewrite <- Hperm, <- (take_drop k cs); apply elem_of_app; by left).
      apply Hcand in Hin' as (s & Hs & _). by eexists.
  - apply map_subseteq_spec. intros x s. rewrite delete_all_lookup. by case_decide.
Qed.

Lemma trim_loop_spec `{SortSlice} store fuel maxSize states h reports : size reports < fuel →
  match trim_loop store fuel maxSize states h reports with
  | (Ok r, r') => r = r' ∧ r ⊆ reports ∧ (so_size store r ≤ maxSize)%Z
  | (Err _, r') => r' ⊆ reports
  | (Panic, _) => False
  end.
Proof.
  revert reports. induction fuel as [|f IH]; intros reports Hf; [lia|]. cbn [trim_loop].
  pose proof (dropOldest_smaller reports) as Hd. destruct (dropOldestReportSeries reports) as [dropped r1].
  destruct dropped; simpl.
  - destruct Hd as [Hlt Hsub].
    assert (Hgo : match (if negb (so_compact store r1) then (@Err (gmap str reportSeries) "compact", r1)
                    else if (so_size store r1 <=? maxSize)%Z then (Ok r1, r1) else trim_loop store f maxSize states h r1) with
            | (Ok r, r') => r = r' ∧ r ⊆ reports ∧ (so_size store r ≤ maxSize)%Z
            | (Err _, r') => r' ⊆ reports
            | (Panic, _) => False
            end).
    { destruct (so_compact store r1); simpl; [|done].
      destruct (Z.leb_spec (so_size store r1) maxSize); [done|]. specialize (IH r1 ltac:(lia)).
      destruct (trim_loop store f maxSize states h r1) as [[r|e|] r']; [|by etrans|done].
      destruct IH as (? & ? & ?). split; [done|]. split; [by etrans|done]. }
    by destruct (so_save store states h r1).
  - by destruct Hd as [_ ->].
Qed.

(** Flushing always ends, even against a store that stays over its size
    limit: [flushLocked] returns after dropping at most all report series; the
    states, sessions and configuration are kept, the reports left are some of
    the rolled-up ones unchanged, a flush that succeeds leaves nothing to save,
    and one that fails leaves the manager marked as having changes to save. *)
Theorem flush_terminates `{GoEnv, SortSlice} (store : StoreOps) (now : Z) (m : Manager) (c : Config) :
  rt_config (mg_runtime m) = Some c →
  let '(r, m') := flushLocked store now m in
  r ≠ Panic ∧ mg_heap m' = mg_heap m ∧ mg_sessions m' = mg_sessions m ∧ mg_runtime m' = mg_runtime m
  ∧ (mg_dirty m = true → mg_reports m' ⊆ rollup_reports now (cf_Reports c) (mg_reports m))
  ∧ (mg_dirty m' = false ↔ r = Ok tt).
Proof.
  intros Hc. unfold flushLocked. rewrite Hc. destruct (mg_dirty m) eqn:Hd; cbn [negb].
  2: { rewrite Hd. by split_and!. }
  set (states := cleanupOrphans _ _ _ _). set (reports := rollup_reports _ _ _).
  assert (Hdone : ∀ r (rs : gmap str reportSeries) d, r ≠ Panic → rs ⊆ reports → (d = false ↔ r = Ok tt) →
    let m' := MkManager (mg_runtime m) states (mg_heap m) (mg_nextState m) (mg_nextRuntime m) rs (mg_revision m) d (mg_sessions m) in
    r ≠ Panic ∧ mg_heap m' = mg_heap m ∧ mg_sessions m' = mg_sessions m ∧ mg_runtime m' = mg_runtime m
    ∧ (true = true → mg_reports m' ⊆ reports) ∧ (mg_dirty m' = false ↔ r = Ok tt)) by done.
  destruct (so_save store states (mg_heap m) reports); [by apply Hdone| |by apply Hdone].
  pose proof (trim_loop_spec store (S (size reports)) (cf_MaxStoreSize c) states (mg_heap m) reports ltac:(lia)) as Ht.
  destruct (trim_loop _ _ _ _ _ _) as [[r|e|] r']; [|by apply Hdone|done].
  destruct Ht as (<- & Hsub & _). by apply Hdone.
Qed.

Lemma flush_terminates_witness :
  (flushLocked (H0 := merge_sort_slice) (MkStoreOps (λ _ _ _, SaveLimit) (λ _, true) (λ _, 10 ^ 10)%Z) (1002 * Hour)
     (Record_ (H := sample_env) (1001 * Hour) 7 Upload 400 sample_m2)).1 ≠ Panic.
Proof.
  pose proof (flush_terminates (H := sample_env) (H0 := merge_sort_slice)
    (MkStoreOps (λ _ _ _, SaveLimit) (λ _, true) (λ _, 10 ^ 10)%Z) (1002 * Hour)
    (Record_ (H := sample_env) (1001 * Hour) 7 Upload 400 sample_m2) sample_config ltac:(vm_compute; reflexivity)) as Hf.
  destruct (flushLocked _ _ _) as [r m']. apply Hf.
Defined.
