(* ===== verification/TuicProtocol.v ===== *)
(** * TuicProtocol: the TUIC v5 wire format

    [src/transport/tuic/v5/protocol.go]: the commands (authenticate, connect,
    packet, dissociate, heartbeat), the address they carry, and their readers
    and writers.

    A reader is the list of bytes that are left; a read past its end is an
    error. A [WriteTo] is the bytes it appends: every caller passes a
    [bytes.Buffer], whose writes do not fail. [net/netip] is the model of
    [NetIP]; the TLS exporter of [GenToken] is a parameter. *)
From S2P Require Import Prelude Bytes NetIP GoStrings Metadata.

#[local] Arguments be_put : simpl never.

(** ** Commands *)

Definition AuthenticateType : ascii := byte_of 0.
Definition ConnectType : ascii := byte_of 1.
Definition PacketType : ascii := byte_of 2.
Definition DissociateType : ascii := byte_of 3.
Definition HeartbeatType : ascii := byte_of 4.

Definition VER : ascii := byte_of 5.

(** The verb [%#x] on a byte. *)
Definition hex_byte (c : ascii) : string :=
  let hi := (byteZ c / 16)%Z in
  let lo := (byteZ c mod 16)%Z in
  String.string_of_list_ascii
    (lit "0x" ++ (if (hi =? 0)%Z then [] else [hex_digit hi]) ++ [hex_digit lo]).

Definition CommandType_String (c : ascii) : string :=
  if decide (c = AuthenticateType) then "Authenticate"
  else if decide (c = ConnectType) then "Connect"
  else if decide (c = PacketType) then "Packet"
  else if decide (c = DissociateType) then "Dissociate"
  else if decide (c = HeartbeatType) then "Heartbeat"
  else ("UnknowCommand: " +:+ hex_byte c)%string.

Definition CommandType_BytesLen (c : ascii) : Z := 1.

Record CommandHead := MkHead { h_VER : ascii; h_TYPE : ascii }.

#[export] Instance CommandHead_eq_dec : EqDecision CommandHead.
Proof. solve_decision. Defined.

Definition NewCommandHead (TYPE : ascii) : CommandHead := MkHead VER TYPE.

Definition ReadCommandHead (reader : str) : result (CommandHead * str) :=
  '(ver, reader) ← read_byte reader;
  '(TYPE, reader) ← read_byte reader;
  Ok (MkHead ver TYPE, reader).

Definition CommandHead_WriteTo (c : CommandHead) : str := [h_VER c; h_TYPE c].

Definition CommandHead_BytesLen (c : CommandHead) : Z := (1 + CommandType_BytesLen (h_TYPE c))%Z.

(** The guard every reader starts with. *)
Definition wrong_type (head : CommandHead) : string :=
  ("error command type: " +:+ CommandType_String (h_TYPE head))%string.

(** ** Addresses *)

Definition AtypDomainName : ascii := byte_of 0.
Definition AtypIPv4 : ascii := byte_of 1.
Definition AtypIPv6 : ascii := byte_of 2.
Definition AtypNone : ascii := byte_of 255.

Record Address := MkAddress { a_TYPE : ascii; a_ADDR : str; a_PORT : Z }.

#[export] Instance Address_eq_dec : EqDecision Address.
Proof. solve_decision. Defined.

Definition NewAddress (metadata : Metadata) : Address :=
  match Metadata_AddrType metadata with
  | TIPv4 => MkAddress AtypIPv4 (AsSlice (m_DstIP metadata)) (m_DstPort metadata)
  | TIPv6 => MkAddress AtypIPv6 (AsSlice (m_DstIP metadata)) (m_DstPort metadata)
  | TDomainName =>
    MkAddress AtypDomainName (byte_of (Z.of_nat (length (m_Host metadata))) :: m_Host metadata)
      (m_DstPort metadata)
  end.

Definition NewAddressAddrPort (ip : Addr) (port : Z) : Address :=
  let addr := Unmap ip in
  MkAddress (if Is4 addr then AtypIPv4 else AtypIPv6) (AsSlice addr) port.

(** [make([]byte, addrLen+1)] is computed at the width of [addrLen], a byte;
    [c.ADDR[0] = addrLen] panics on an empty slice. *)
Definition ReadAddress (reader : str) : result (Address * str) :=
  '(TYPE, reader) ← read_byte reader;
  '(ADDR, reader) ←
    (if decide (TYPE = AtypIPv4) then read_full 4 reader
     else if decide (TYPE = AtypIPv6) then read_full 16 reader
     else if decide (TYPE = AtypDomainName) then
       '(addrLen, reader) ← read_byte reader;
       match Z.to_nat (wrap uint8 (byteZ addrLen + 1)) with
       | 0 => Panic
       | S n => '(rest, reader) ← read_full n reader; Ok (addrLen :: rest, reader)
       end
     else Ok ([], reader));
  if decide (TYPE = AtypNone) then Ok (MkAddress TYPE ADDR 0, reader)
  else '(PORT, reader) ← read_uint 2 reader; Ok (MkAddress TYPE ADDR PORT, reader).

Definition Address_WriteTo (c : Address) : str :=
  a_TYPE c :: (if decide (a_TYPE c = AtypNone) then [] else a_ADDR c ++ be_put 2 (a_PORT c)).

(** The SOCKS5 form: the type codes are 1, 3 and 4; other types leave 0. *)
Definition Address_SocksAddr (c : Address) : str :=
  (if decide (a_TYPE c = AtypIPv4) then byte_of 1
   else if decide (a_TYPE c = AtypIPv6) then byte_of 4
   else if decide (a_TYPE c = AtypDomainName) then byte_of 3
   else byte_of 0) :: a_ADDR c ++ be_put 2 (a_PORT c).

(** [net.UDPAddr{IP, Port}]. *)
Definition Address_UDPAddr (c : Address) : str * Z := (a_ADDR c, a_PORT c).

Definition Address_BytesLen (c : Address) : Z := (1 + Z.of_nat (length (a_ADDR c)) + 2)%Z.

(** ** Authenticate *)

Record Authenticate := MkAuthenticate { au_head : CommandHead; au_UUID : str; au_TOKEN : str }.

Definition NewAuthenticate (UUID TOKEN : str) : Authenticate :=
  MkAuthenticate (NewCommandHead AuthenticateType) UUID TOKEN.

Definition ReadAuthenticateWithHead (head : CommandHead) (reader : str) : result (Authenticate * str) :=
  if negb (bool_decide (h_TYPE head = AuthenticateType)) then Err (wrong_type head)
  else
    '(uuid, reader) ← read_full 16 reader;
    '(token, reader) ← read_full 32 reader;
    Ok (MkAuthenticate head uuid token, reader).

Definition ReadAuthenticate (reader : str) : result (Authenticate * str) :=
  '(head, reader) ← ReadCommandHead reader; ReadAuthenticateWithHead head reader.

(** [copy(token[:], tokenBytes)] into a zeroed array of 32 bytes; the exporter
    returns an error or bytes. *)
Definition GenToken (ExportKeyingMaterial : str → str → Z → string + str) (uuid password : str)
    : result str :=
  match ExportKeyingMaterial uuid password 32%Z with
  | inl err => Err err
  | inr tokenBytes => Ok (take 32 tokenBytes ++ replicate (32 - length tokenBytes) (byte_of 0))
  end.

Definition Authenticate_WriteTo (c : Authenticate) : str :=
  CommandHead_WriteTo (au_head c) ++ au_UUID c ++ au_TOKEN c.

Definition Authenticate_BytesLen (c : Authenticate) : Z := (CommandHead_BytesLen (au_head c) + 16 + 32)%Z.

(** ** Connect *)

Record Connect := MkConnect { co_head : CommandHead; co_ADDR : Address }.

Definition NewConnect (ADDR : Address) : Connect := MkConnect (NewCommandHead ConnectType) ADDR.

Definition ReadConnectWithHead (head : CommandHead) (reader : str) : result (Connect * str) :=
  if negb (bool_decide (h_TYPE head = ConnectType)) then Err (wrong_type head)
  else '(addr, reader) ← ReadAddress reader; Ok (MkConnect head addr, reader).

Definition ReadConnect (reader : str) : result (Connect * str) :=
  '(head, reader) ← ReadCommandHead reader; ReadConnectWithHead head reader.

Definition Connect_WriteTo (c : Connect) : str :=
  CommandHead_WriteTo (co_head c) ++ Address_WriteTo (co_ADDR c).

Definition Connect_BytesLen (c : Connect) : Z :=
  (CommandHead_BytesLen (co_head c) + Address_BytesLen (co_ADDR c))%Z.

(** ** Packet *)

Record Packet := MkPacket {
  p_head : CommandHead;
  ASSOC_ID : Z;
  PKT_ID : Z;
  FRAG_TOTAL : Z;
  FRAG_ID : Z;
  SIZE : Z;
  p_ADDR : Address;
  DATA : str
}.

#[export] Instance Packet_eq_dec : EqDecision Packet.
Proof. solve_decision. Defined.

Definition NewPacket (assoc pkt total fid size : Z) (addr : Address) (data : str) : Packet :=
  MkPacket (NewCommandHead PacketType) assoc pkt total fid size addr data.

Definition ReadPacketWithHead (head : CommandHead) (reader : str) : result (Packet * str) :=
  if negb (bool_decide (h_TYPE head = PacketType)) then Err (wrong_type head)
  else
    '(header, reader) ← read_full 8 reader;
    let assoc := be_get (slice header 0 2) in
    let pkt := be_get (slice header 2 4) in
    let total := be_get (slice header 4 5) in
    let fid := be_get (slice header 5 6) in
    let size := be_get (slice header 6 8) in
    '(addr, reader) ← ReadAddress reader;
    '(data, reader) ← read_full (Z.to_nat size) reader;
    Ok (MkPacket head assoc pkt total fid size addr data, reader).

Definition ReadPacket (reader : str) : result (Packet * str) :=
  '(head, reader) ← ReadCommandHead reader; ReadPacketWithHead head reader.

Definition Packet_WriteTo (c : Packet) : str :=
  CommandHead_WriteTo (p_head c)
  ++ (be_put 2 (ASSOC_ID c) ++ be_put 2 (PKT_ID c) ++ be_put 1 (FRAG_TOTAL c)
      ++ be_put 1 (FRAG_ID c) ++ be_put 2 (SIZE c))
  ++ Address_WriteTo (p_ADDR c) ++ DATA c.

Definition Packet_BytesLen (c : Packet) : Z :=
  (CommandHead_BytesLen (p_head c) + 8 + Address_BytesLen (p_ADDR c) + Z.of_nat (length (DATA c)))%Z.

Definition PacketOverHead : Z :=
  Packet_BytesLen (NewPacket 0 0 0 0 0 (NewAddressAddrPort (Addr6 0 []) 0) []).

(** ** Dissociate and Heartbeat *)

Record Dissociate := MkDissociate { di_head : CommandHead; di_ASSOC_ID : Z }.

Definition NewDissociate (assoc : Z) : Dissociate := MkDissociate (NewCommandHead DissociateType) assoc.

Definition ReadDissociateWithHead (head : CommandHead) (reader : str) : result (Dissociate * str) :=
  if negb (bool_decide (h_TYPE head = DissociateType)) then Err (wrong_type head)
  else '(assoc, reader) ← read_uint 2 reader; Ok (MkDissociate head assoc, reader).

Definition ReadDissociate (reader : str) : result (Dissociate * str) :=
  '(head, reader) ← ReadCommandHead reader; ReadDissociateWithHead head reader.

Definition Dissociate_WriteTo (c : Dissociate) : str :=
  CommandHead_WriteTo (di_head c) ++ be_put 2 (di_ASSOC_ID c).

Definition Dissociate_BytesLen (c : Dissociate) : Z := (CommandHead_BytesLen (di_head c) + 2)%Z.

Record Heartbeat := MkHeartbeat { hb_head : CommandHead }.

Definition NewHeartbeat : Heartbeat := MkHeartbeat (NewCommandHead HeartbeatType).

Definition ReadHeartbeatWithHead (head : CommandHead) (reader : str) : result (Heartbeat * str) :=
  if negb (bool_decide (h_TYPE head = HeartbeatType)) then Err (wrong_type head)
  else Ok (MkHeartbeat head, reader).

Definition ReadHeartbeat (reader : str) : result (Heartbeat * str) :=
  '(head, reader) ← ReadCommandHead reader; ReadHeartbeatWithHead head reader.

(** ** Well-formed values *)

(** An address as the readers produce it: the bytes that its type calls for,
    a domain name preceded by its length. *)
Definition wf_body (TYPE : ascii) (ADDR : str) : Prop :=
  if decide (TYPE = AtypIPv4) then length ADDR = 4
  else if decide (TYPE = AtypIPv6) then length ADDR = 16
  else if decide (TYPE = AtypDomainName) then
    ∃ host, ADDR = byte_of (Z.of_nat (length host)) :: host ∧ length host < 255
  else ADDR = [].

Definition wf_address (a : Address) : Prop :=
  wf_body (a_TYPE a) (a_ADDR a) ∧ (0 ≤ a_PORT a < 65536)%Z ∧ (a_TYPE a = AtypNone → a_PORT a = 0%Z).

(** What a reader makes of an address that was written: an address of type
    [AtypNone] travels without its bytes and port. *)
Definition on_wire (a : Address) : Address :=
  if decide (a_TYPE a = AtypNone) then MkAddress AtypNone [] 0 else a.

Record wf_packet (p : Packet) : Prop := {
  wp_type : h_TYPE (p_head p) = PacketType;
  wp_assoc : (0 ≤ ASSOC_ID p < 65536)%Z;
  wp_pkt : (0 ≤ PKT_ID p < 65536)%Z;
  wp_total : (0 ≤ FRAG_TOTAL p < 256)%Z;
  wp_fid : (0 ≤ FRAG_ID p < 256)%Z;
  wp_size : SIZE p = Z.of_nat (length (DATA p));
  wp_size_range : (SIZE p < 65536)%Z
}.

Lemma read_uint_Ok n r z r' : read_uint n r = Ok (z, r') →
  (0 ≤ z < 2 ^ (8 * Z.of_nat n))%Z ∧ r = be_put n z ++ r'.
Proof.
  unfold read_uint, read_full. case_match eqn:Hl; [done|]. apply Nat.ltb_ge in Hl. simpl. intros [= <- <-].
  assert (Hlen : length (take n r) = n) by (rewrite length_take; lia). split.
  - pose proof (be_get_range (take n r)). by rewrite Hlen in *.
  - rewrite be_put_get_n by done. by rewrite take_drop.
Qed.

Lemma read_full_Ok n r b r' : read_full n r = Ok (b, r') → length b = n ∧ r = b ++ r'.
Proof.
  unfold read_full. case_match eqn:Hl; [done|]. apply Nat.ltb_ge in Hl. intros [= <- <-].
  rewrite length_take, take_drop. split; [lia|done].
Qed.

Lemma in_uint8 z : (0 ≤ z < 256)%Z → in_int uint8 z.
Proof. unfold in_int. change (int_min uint8) with 0%Z. change (int_max uint8) with 255%Z. lia. Qed.

Lemma wrap_uint8_succ n : n < 255 → Z.to_nat (wrap uint8 (byteZ (byte_of (Z.of_nat n)) + 1)) = S n.
Proof.
  intros Hn. rewrite byteZ_byte_of, Z.mod_small by lia. rewrite wrap_id; [lia|done|].
  apply in_uint8. lia.
Qed.

(** *** The address *)

Lemma ReadAddress_WriteTo a r : wf_body (a_TYPE a) (a_ADDR a) ∨ a_TYPE a = AtypNone →
  (0 ≤ a_PORT a < 65536)%Z → ReadAddress (Address_WriteTo a ++ r) = Ok (on_wire a, r).
Proof.
  intros Hwf Hport. destruct a as [T A P]. unfold ReadAddress, Address_WriteTo, on_wire. simpl in *.
  destruct (decide (T = AtypNone)) as [->|HN]; [done|]. destruct Hwf as [Hwf|]; [|done].
  unfold wf_body in Hwf. rewrite <- app_assoc.
  repeat case_decide; try done.
  - rewrite read_full_app by done. cbn [mbind result_bind]. by rewrite read_uint_app.
  - rewrite read_full_app by done. cbn [mbind result_bind]. by rewrite read_uint_app.
  - destruct Hwf as (host & -> & Hh). cbn [app read_byte mbind result_bind]. rewrite wrap_uint8_succ by done.
    rewrite read_full_app by done. cbn [mbind result_bind]. by rewrite read_uint_app.
  - subst A. cbn [app mbind result_bind]. by rewrite read_uint_app.
Qed.

(** The readers accept nothing but what the writers produce. *)
Lemma ReadAddress_Ok r a r' : ReadAddress r = Ok (a, r') → wf_address a ∧ r = Address_WriteTo a ++ r'.
Proof.
  unfold ReadAddress. intros H. apply result_bind_Ok in H as ([T r1] & HT & H).
  destruct r as [|c r0]; [done|]. injection HT as -> ->.
  apply result_bind_Ok in H as ([A r2] & HA & H).
  assert (Hbody : wf_body T A ∧ r1 = A ++ r2).
  { clear H. unfold wf_body. repeat case_decide.
    - by apply read_full_Ok in HA.
    - by apply read_full_Ok in HA.
    - destruct r1 as [|l r1]; [done|]. cbn [read_byte mbind result_bind] in HA.
      destruct (Z.to_nat _) as [|n] eqn:Hn; [done|].
      apply result_bind_Ok in HA as ([b r3] & Hb & HA). simplify_eq. apply read_full_Ok in Hb as [Hlen ->].
      pose proof (byteZ_range l) as Hl. destruct (decide (byteZ l = 255%Z)) as [E|E]; [by rewrite E in Hn|].
      rewrite wrap_id in Hn; [|done|apply in_uint8; lia].
      assert (byteZ l = Z.of_nat n) as Hnl by lia. split; [|done]. exists b. split; [|lia].
      rewrite Hlen, <- Hnl. by rewrite byte_of_byteZ.
    - by simplify_eq. }
  destruct Hbody as [Hbody ->]. unfold wf_address, Address_WriteTo. case_decide as HN; simplify_eq; simpl.
  - split; [split_and!; [done|lia|lia|done]|]. by assert (A = []) as -> by exact Hbody.
  - apply result_bind_Ok in H as ([P r3] & HP & H). simplify_eq. simpl. rewrite decide_False by done.
    apply read_uint_Ok in HP as [HP ->]. split; [done|]. simpl. by rewrite <- app_assoc.
Qed.

(** *** The commands *)

Lemma ReadCommandHead_WriteTo h r : ReadCommandHead (CommandHead_WriteTo h ++ r) = Ok (h, r).
Proof. by destruct h. Qed.

(** The bytes of the fixed header of a packet. *)
Lemma packet_header (a b t f z : Z) :
  let header := be_put 2 a ++ be_put 2 b ++ be_put 1 t ++ be_put 1 f ++ be_put 2 z in
  length header = 8 ∧ slice header 0 2 = be_put 2 a ∧ slice header 2 4 = be_put 2 b
  ∧ slice header 4 5 = be_put 1 t ∧ slice header 5 6 = be_put 1 f ∧ slice header 6 8 = be_put 2 z.
Proof. done. Qed.

Lemma ReadPacket_WriteTo p r : wf_packet p →
  wf_body (a_TYPE (p_ADDR p)) (a_ADDR (p_ADDR p)) ∨ a_TYPE (p_ADDR p) = AtypNone →
  (0 ≤ a_PORT (p_ADDR p) < 65536)%Z →
  ReadPacket (Packet_WriteTo p ++ r)
  = Ok (MkPacket (p_head p) (ASSOC_ID p) (PKT_ID p) (FRAG_TOTAL p) (FRAG_ID p) (SIZE p)
          (on_wire (p_ADDR p)) (DATA p), r).
Proof.
  intros [Ht Ha Hp Htot Hf Hs Hr] Haddr Hport. unfold ReadPacket, Packet_WriteTo.
  rewrite <- !(app_assoc (CommandHead_WriteTo _)), ReadCommandHead_WriteTo. cbn [mbind result_bind].
  unfold ReadPacketWithHead. rewrite bool_decide_true by done. cbn [negb].
  set (header := be_put 2 (ASSOC_ID p) ++ _). rewrite <- !app_assoc, read_full_app by done.
  cbn [mbind result_bind]. subst header.
  destruct (packet_header (ASSOC_ID p) (PKT_ID p) (FRAG_TOTAL p) (FRAG_ID p) (SIZE p))
    as (_ & -> & -> & -> & -> & ->).
  rewrite ReadAddress_WriteTo by done. cbn [mbind result_bind].
  rewrite !be_get_put_small by (simpl; lia).
  rewrite read_full_app by (rewrite Hs; lia). done.
Qed.

(** *** The readers accept exactly the written bytes *)

Lemma ReadCommandHead_Ok r h r' : ReadCommandHead r = Ok (h, r') ↔ r = CommandHead_WriteTo h ++ r'.
Proof.
  split; [|intros ->; apply ReadCommandHead_WriteTo]. destruct r as [|v [|t r]]; try done.
  cbn. intros H. by simplify_eq.
Qed.

(** A reader that starts with the head and a type check. *)
Lemma with_head_Ok {A} (T : ascii) (body : CommandHead → str → result (A * str)) r c r' :
  ('(head, reader) ← ReadCommandHead r;
   if negb (bool_decide (h_TYPE head = T)) then Err (wrong_type head) else body head reader) = Ok (c, r') ↔
  ∃ head r1, h_TYPE head = T ∧ r = CommandHead_WriteTo head ++ r1 ∧ body head r1 = Ok (c, r').
Proof.
  rewrite result_bind_Ok. split.
  - intros ([head r1] & Hh & H). apply ReadCommandHead_Ok in Hh. case_bool_decide; [|done]. eauto.
  - intros (head & r1 & Ht & Hr & H). exists (head, r1). split; [by apply ReadCommandHead_Ok|].
    by rewrite bool_decide_true.
Qed.

Lemma read_full_iff n r b r' : read_full n r = Ok (b, r') ↔ length b = n ∧ r = b ++ r'.
Proof. split; [apply read_full_Ok|]. intros [Hl ->]. by apply read_full_app. Qed.

Lemma read_uint_iff n r z r' : read_uint n r = Ok (z, r') ↔
  (0 ≤ z < 2 ^ (8 * Z.of_nat n))%Z ∧ r = be_put n z ++ r'.
Proof. split; [apply read_uint_Ok|]. intros [Hl ->]. by apply read_uint_app. Qed.

Lemma on_wire_id a : wf_address a → on_wire a = a.
Proof.
  intros (Hb & Hp & HN). unfold on_wire. case_decide as E; [|done]. destruct a as [T A P]. simpl in *. subst T.
  rewrite HN by done. by assert (A = []) as -> by exact Hb.
Qed.

Lemma ReadAddress_iff r a r' : ReadAddress r = Ok (a, r') ↔ wf_address a ∧ r = Address_WriteTo a ++ r'.
Proof.
  split; [apply ReadAddress_Ok|]. intros [Hwf ->]. rewrite <- (on_wire_id a Hwf) at 2.
  destruct Hwf as (Hb & Hp & HN). apply ReadAddress_WriteTo; auto.
Qed.

(** The parts of the fixed header as it was read. *)
Lemma packet_header_parts (header : str) : length header = 8 →
  header = be_put 2 (be_get (slice header 0 2)) ++ be_put 2 (be_get (slice header 2 4))
           ++ be_put 1 (be_get (slice header 4 5)) ++ be_put 1 (be_get (slice header 5 6))
           ++ be_put 2 (be_get (slice header 6 8)).
Proof.
  intros Hl. do 8 (destruct header as [|? header]; [done|]). destruct header; [|done].
  by rewrite !be_put_get_n by done.
Qed.

Lemma be_get_slice_range (header : str) (a n : nat) : a + n ≤ length header →
  (0 ≤ be_get (slice header a (a + n)) < 2 ^ (8 * Z.of_nat n))%Z.
Proof.
  intros Hl. pose proof (be_get_range (slice header a (a + n))) as H.
  rewrite length_slice in H by lia. by replace (a + n - a) with n in H by lia.
Qed.

Lemma ReadPacket_Ok r p r' : ReadPacket r = Ok (p, r') →
  wf_packet p ∧ wf_address (p_ADDR p) ∧ r = Packet_WriteTo p ++ r'.
Proof.
  intros H. apply with_head_Ok in H as (head & r1 & Ht & -> & H).
  apply result_bind_Ok in H as ([header r2] & Hh & H). apply read_full_iff in Hh as [Hl ->].
  apply result_bind_Ok in H as ([addr r3] & Ha & H). apply ReadAddress_iff in Ha as [Ha ->].
  apply result_bind_Ok in H as ([data r4] & Hd & H). apply read_full_iff in Hd as [Hd ->].
  pose proof (packet_header_parts header Hl) as Hparts.
  pose proof (be_get_slice_range header 0 2 ltac:(lia)). pose proof (be_get_slice_range header 2 2 ltac:(lia)).
  pose proof (be_get_slice_range header 4 1 ltac:(lia)). pose proof (be_get_slice_range header 5 1 ltac:(lia)).
  pose proof (be_get_slice_range header 6 2 ltac:(lia)). simplify_eq. cbn [Nat.add] in *.
  split; [|split; [done|]].
  - by split; cbn -[be_get Z.pow slice]; lia || done.
  - unfold Packet_WriteTo. cbn [ASSOC_ID PKT_ID FRAG_TOTAL FRAG_ID SIZE p_head p_ADDR DATA].
    rewrite <- Hparts. by rewrite <- !app_assoc.
Qed.

Lemma ReadPacket_iff r p r' : ReadPacket r = Ok (p, r') ↔
  wf_packet p ∧ wf_address (p_ADDR p) ∧ r = Packet_WriteTo p ++ r'.
Proof.
  split; [apply ReadPacket_Ok|]. intros (Hp & Ha & ->). destruct Ha as (Hb & Hr & HN).
  rewrite ReadPacket_WriteTo by auto. rewrite on_wire_id by done. by destruct p.
Qed.

Lemma ReadConnect_iff r c r' : ReadConnect r = Ok (c, r') ↔
  h_TYPE (co_head c) = ConnectType ∧ wf_address (co_ADDR c) ∧ r = Connect_WriteTo c ++ r'.
Proof.
  unfold ReadConnect, ReadConnectWithHead. rewrite with_head_Ok. destruct c as [h a]. split.
  - intros (head & r1 & Ht & -> & H). apply result_bind_Ok in H as ([b r2] & Hb & H).
    apply ReadAddress_iff in Hb as [Hwf ->]. simplify_eq. by rewrite app_assoc.
  - intros (Ht & Hwf & ->). exists h, (Address_WriteTo a ++ r'). split; [done|].
    split; [by unfold Connect_WriteTo; rewrite <- app_assoc|]. apply result_bind_Ok.
    exists (a, r'). by rewrite ReadAddress_iff.
Qed.

Lemma ReadAuthenticate_iff r c r' : ReadAuthenticate r = Ok (c, r') ↔
  h_TYPE (au_head c) = AuthenticateType ∧ length (au_UUID c) = 16 ∧ length (au_TOKEN c) = 32
  ∧ r = Authenticate_WriteTo c ++ r'.
Proof.
  unfold ReadAuthenticate, ReadAuthenticateWithHead. rewrite with_head_Ok. destruct c as [h u t].
  unfold Authenticate_WriteTo. cbn [au_head au_UUID au_TOKEN]. split.
  - intros (head & r1 & Ht & -> & H). apply result_bind_Ok in H as ([b r2] & Hb & H).
    apply read_full_iff in Hb as [Hu ->]. apply result_bind_Ok in H as ([b' r3] & Hb & H).
    apply read_full_iff in Hb as [Ht' ->]. simplify_eq. by rewrite <- !app_assoc.
  - intros (Ht & Hu & Ht' & ->). exists h, (u ++ t ++ r'). split; [done|]. split; [by rewrite <- !app_assoc|].
    rewrite read_full_app by done. cbn [mbind result_bind]. by rewrite read_full_app.
Qed.

Lemma ReadDissociate_iff r c r' : ReadDissociate r = Ok (c, r') ↔
  h_TYPE (di_head c) = DissociateType ∧ (0 ≤ di_ASSOC_ID c < 65536)%Z ∧ r = Dissociate_WriteTo c ++ r'.
Proof.
  unfold ReadDissociate, ReadDissociateWithHead. rewrite with_head_Ok. destruct c as [h a].
  unfold Dissociate_WriteTo. cbn [di_head di_ASSOC_ID]. split.
  - intros (head & r1 & Ht & -> & H). apply result_bind_Ok in H as ([b r2] & Hb & H).
    apply read_uint_iff in Hb as [Hu ->]. simplify_eq. by rewrite <- !app_assoc.
  - intros (Ht & Hu & ->). exists h, (be_put 2 a ++ r'). split; [done|]. split; [by rewrite <- !app_assoc|].
    by rewrite read_uint_app.
Qed.

Lemma ReadHeartbeat_iff r c r' : ReadHeartbeat r = Ok (c, r') ↔
  h_TYPE (hb_head c) = HeartbeatType ∧ r = CommandHead_WriteTo (hb_head c) ++ r'.
Proof.
  unfold ReadHeartbeat, ReadHeartbeatWithHead. rewrite with_head_Ok. destruct c as [h].
  cbn [hb_head]. split; [|naive_solver]. intros (head & r1 & Ht & -> & H). by simplify_eq.
Qed.

(** A reader is the reader that continues after the head. *)
Lemma ReadCommandHead_bind {A} (f : CommandHead → str → result A) head r1 :
  ('(head, reader) ← ReadCommandHead (CommandHead_WriteTo head ++ r1); f head reader) = f head r1.
Proof. by rewrite ReadCommandHead_WriteTo. Qed.

(** C37: The wire format of TUIC is exact. For each of the five commands the
    reader succeeds on precisely the byte strings the writer produces for a
    well-formed command of that type (nothing else is accepted, and the bytes
    that follow are left in the reader), so reading and writing are inverse to
    each other. *)
Theorem tuic_wire_format (r r' : str) :
  (∀ p, ReadPacket r = Ok (p, r') ↔
     wf_packet p ∧ wf_address (p_ADDR p) ∧ r = Packet_WriteTo p ++ r')
  ∧ (∀ c, ReadConnect r = Ok (c, r') ↔
     h_TYPE (co_head c) = ConnectType ∧ wf_address (co_ADDR c) ∧ r = Connect_WriteTo c ++ r')
  ∧ (∀ c, ReadAuthenticate r = Ok (c, r') ↔
     h_TYPE (au_head c) = AuthenticateType ∧ length (au_UUID c) = 16 ∧ length (au_TOKEN c) = 32
     ∧ r = Authenticate_WriteTo c ++ r')
  ∧ (∀ c, ReadDissociate r = Ok (c, r') ↔
     h_TYPE (di_head c) = DissociateType ∧ (0 ≤ di_ASSOC_ID c < 65536)%Z
     ∧ r = Dissociate_WriteTo c ++ r')
  ∧ (∀ c, ReadHeartbeat r = Ok (c, r') ↔
     h_TYPE (hb_head c) = HeartbeatType ∧ r = CommandHead_WriteTo (hb_head c) ++ r').
Proof.
  split_and!; intros c.
  - apply ReadPacket_iff.
  - apply ReadConnect_iff.
  - apply ReadAuthenticate_iff.
  - apply ReadDissociate_iff.
  - apply ReadHeartbeat_iff.
Qed.

(** ** Errors and sizes *)

Lemma read_full_not_panic n r : read_full n r ≠ Panic.
Proof. unfold read_full. by case_match. Qed.

Lemma read_uint_not_panic n r : read_uint n r ≠ Panic.
Proof. unfold read_uint, read_full. by case_match. Qed.

(** The reader of an address panics on exactly one kind of input, a domain
    name whose length byte is 255: the buffer length [addrLen+1] is computed in
    a byte and wraps to 0. Every other input gives an address or an error. *)
Lemma ReadAddress_panics (r : str) :
  ReadAddress r = Panic ↔ ∃ rest, r = AtypDomainName :: byte_of 255 :: rest.
Proof.
  split; [|by intros [rest ->]]. unfold ReadAddress. rewrite result_bind_Panic.
  intros [HP|([T r1] & HT & HP)]; [by destruct r|]. destruct r as [|c r]; [done|]. injection HT as -> ->.
  apply result_bind_Panic in HP as [HP|([A r2] & _ & HP)].
  2: { case_decide; [done|]. apply result_bind_Panic in HP as [HP|([P r3] & _ & HP)]; [|done].
       by apply read_uint_not_panic in HP. }
  destruct (decide (T = AtypIPv4)) as [_|_]; [by apply read_full_not_panic in HP|].
  destruct (decide (T = AtypIPv6)) as [_|_]; [by apply read_full_not_panic in HP|].
  destruct (decide (T = AtypDomainName)) as [->|_]; [|done].
  destruct r1 as [|l r]; [done|]. cbn [read_byte mbind result_bind] in HP.
  destruct (Z.to_nat (wrap uint8 (byteZ l + 1))) as [|m] eqn:Hm.
  - exists r. do 2 f_equal. rewrite <- (byte_of_byteZ l). f_equal. pose proof (byteZ_range l).
    destruct (decide (byteZ l = 255%Z)); [done|]. rewrite wrap_id in Hm; [lia|done|apply in_uint8; lia].
  - apply result_bind_Panic in HP as [HP|([b r3] & _ & HP)]; [|done]. by apply read_full_not_panic in HP.
Qed.

(** A host name of 255 bytes, the longest the length byte can express, is
    written but not read back. *)
Example NewAddress_255_panics :
  let host := replicate 255 (byte_of 97) in
  ReadAddress (Address_WriteTo (NewAddress (with_DstPort 443 (with_Host host metadata_zero)))) = Panic.
Proof. vm_compute. done. Qed.

(** [BytesLen] is the number of bytes [WriteTo] produces for every packet
    that carries an address; a fragment without one is shorter by the bytes
    and the port of the address it does not send. *)
Theorem packet_bytes_len (p : Packet) :
  Packet_BytesLen p
  = (Z.of_nat (length (Packet_WriteTo p))
     + if decide (a_TYPE (p_ADDR p) = AtypNone)
       then Z.of_nat (length (a_ADDR (p_ADDR p))) + 2 else 0)%Z.
Proof.
  unfold Packet_BytesLen, Packet_WriteTo, Address_WriteTo, Address_BytesLen, CommandHead_BytesLen, CommandType_BytesLen.
  rewrite !length_app, !length_be_put. cbn [length CommandHead_WriteTo].
  case_decide; rewrite ?length_app, ?length_be_put; cbn [length]; lia.
Qed.
