(* ===== verification/TuicFrag.v ===== *)
(** * TuicFrag: fragmentation and reassembly of TUIC packets

    [src/transport/tuic/v5/frag.go]: [fragWriteNative] cuts the payload of a
    packet into datagrams, [deFragger.Feed] collects fragments by packet id in
    a bounded, ageing LRU cache (the model of [Lru]) and reassembles them.

    A [*packetBag] is shared between the cache and the running call, so bags
    live in a store of their own and the cache holds their addresses; a bag
    that the cache evicts stays in the store, unreachable. [quic.Conn] is a
    third-party type: [QuicConn] is what its [SendDatagram] looks like, with
    nothing assumed about it. [now] is the clock reading of one call, in Unix
    seconds. *)
From S2P Require Import Prelude Bytes GoStrings NetIP Lru TuicProtocol.

#[local] Arguments be_put : simpl never.

(** ** Sending *)

Class QuicConn := {
  quic_conn : Type;
  SendDatagram : str → quic_conn → option string * quic_conn
}.

Definition MaxFragSize : Z := (1200 - PacketOverHead - 3)%Z.

(** Assignments to fields of a packet. *)
Definition with_total (p : Packet) (total : Z) : Packet :=
  MkPacket (p_head p) (ASSOC_ID p) (PKT_ID p) total (FRAG_ID p) (SIZE p) (p_ADDR p) (DATA p).
Definition with_addr_type (p : Packet) (T : ascii) : Packet :=
  MkPacket (p_head p) (ASSOC_ID p) (PKT_ID p) (FRAG_TOTAL p) (FRAG_ID p) (SIZE p)
    (MkAddress T (a_ADDR (p_ADDR p)) (a_PORT (p_ADDR p))) (DATA p).
Definition with_frag (p : Packet) (fid size : Z) (data : str) : Packet :=
  MkPacket (p_head p) (ASSOC_ID p) (PKT_ID p) (FRAG_TOTAL p) fid size (p_ADDR p) data.

Section sending.
Context `{QuicConn}.

(** The loop over the payload; [fragSize] is positive, so every round sends at
    least one byte and the length of the payload bounds the rounds. *)
Fixpoint frag_loop (fuel : nat) (packet : Packet) (fullPayload : str) (fragSize : nat)
    (off : nat) (fragID : Z) (c : quic_conn) : option string * quic_conn :=
  match fuel with
  | 0 => (None, c)
  | S fuel =>
    if (off <? length fullPayload)%nat then
      let payloadSize := (length fullPayload - off)%nat in
      let payloadSize := if (fragSize <? payloadSize)%nat then fragSize else payloadSize in
      let frag := with_frag packet fragID (wrap uint16 (Z.of_nat payloadSize))
                    (slice fullPayload off (off + payloadSize)) in
      match SendDatagram (Packet_WriteTo frag) c with
      | (Some err, c) => (Some err, c)
      | (None, c) =>
        frag_loop fuel (with_addr_type packet AtypNone) fullPayload fragSize
          (off + payloadSize) (wrap uint8 (fragID + 1)) c
      end
    else (None, c)
  end.

Definition frag_count (len : nat) (fragSize : Z) : Z :=
  Z.quot (wrap int64 (Z.of_nat len + fragSize - 1)) fragSize.

Definition err_text (parts : list str) : string := String.string_of_list_ascii (concat parts).

Definition fragWriteNative (packet : Packet) (fragSize : Z) (c : quic_conn)
    : option string * quic_conn :=
  if (fragSize <=? 0)%Z then (Some (err_text [lit "invalid TUIC fragment size "; format_int fragSize]), c)
  else
    let fullPayload := DATA packet in
    let fragCount := frag_count (length fullPayload) fragSize in
    if (fragCount >? 255)%Z then
      (Some (err_text [lit "TUIC packet requires "; format_int fragCount;
                       lit " fragments, maximum is "; format_int 255]), c)
    else
      frag_loop (length fullPayload) (with_total packet (wrap uint8 fragCount)) fullPayload
        (Z.to_nat fragSize) 0 0 c.
End sending.

(** ** Receiving *)

Record packetBag := MkBag { frags : list (option Packet); count : Z }.

Definition newPacketBag : packetBag := MkBag [] 0.

(** The cache maps packet ids to addresses of bags in the store. *)
Record deFragger `{GenericList} := MkDeFragger {
  d_lru : option (heap Z nat * LruCache Z nat);
  bags : list packetBag
}.
Arguments MkDeFragger {_} _ _.

Section receiving.
Context `{GenericList}.

Definition new_lru : heap Z nat * LruCache Z nat :=
  new_state [OptSize 1024; OptAge 10; OptUpdateAge].

(** [d.once.Do(d.init)]. *)
Definition init (d : deFragger) : heap Z nat * LruCache Z nat :=
  match d_lru d with Some l => l | None => new_lru end.

(** The fragments' data in order; a nil fragment is a nil dereference. *)
Fixpoint assemble (l : list (option Packet)) : result str :=
  match l with
  | [] => Ok []
  | Some frag :: l => data ← assemble l; Ok (DATA frag ++ data)
  | None :: _ => Panic
  end.

Definition Feed (now : Z) (m : Packet) (d : deFragger) : result (option Packet * deFragger) :=
  if (FRAG_TOTAL m <=? 1)%Z then Ok (Some m, d)
  else if (FRAG_ID m >=? FRAG_TOTAL m)%Z then Ok (None, d)
  else
    let fresh := length (bags d) in
    let '((b, loaded), lru) := GetOrStore now (PKT_ID m) fresh (init d) in
    let store := if loaded then bags d else bags d ++ [newPacketBag] in
    let fid := Z.to_nat (FRAG_ID m) in
    match store !! b with
    | None => Panic
    | Some bag =>
      if negb (FRAG_TOTAL m =? Z.of_nat (length (frags bag)))%Z then
        let bag := MkBag (<[fid := Some m]> (replicate (Z.to_nat (FRAG_TOTAL m)) None)) 1 in
        Ok (None, MkDeFragger (Some lru) (<[b := bag]> store))
      else
        match frags bag !! fid with
        | None => Panic
        | Some (Some _) => Ok (None, MkDeFragger (Some lru) store)
        | Some None =>
          let fs := <[fid := Some m]> (frags bag) in
          let cnt := wrap uint8 (count bag + 1) in
          if negb (cnt =? Z.of_nat (length fs))%Z then
            Ok (None, MkDeFragger (Some lru) (<[b := MkBag fs cnt]> store))
          else
            data ← assemble fs;
            match fs !! 0 with
            | Some (Some first) =>
              let p := MkPacket (p_head first) (ASSOC_ID first) (PKT_ID first) 1 0
                         (wrap uint16 (Z.of_nat (length data))) (p_ADDR first) data in
              Ok (Some p, MkDeFragger (Some (Delete (PKT_ID m) lru))
                            (<[b := MkBag [] cnt]> store))
            | _ => Panic
            end
        end
    end.

Definition empty_deFragger : deFragger := MkDeFragger None [].

(** A sequence of calls: the results, in order. *)
Fixpoint feed_all (ms : list (Z * Packet)) (d : deFragger) : result (list (option Packet) * deFragger) :=
  match ms with
  | [] => Ok ([], d)
  | (now, m) :: ms =>
    '(r, d) ← Feed now m d;
    '(rs, d) ← feed_all ms d;
    Ok (r :: rs, d)
  end.
End receiving.

(** ** What is sent *)

(** The payload in pieces of [s] bytes. *)
Fixpoint chunks_fuel (fuel s : nat) (l : str) : list str :=
  match fuel with
  | 0 => []
  | S fuel => match l with [] => [] | _ => take s l :: chunks_fuel fuel s (drop s l) end
  end.
Definition chunks (s : nat) (l : str) : list str := chunks_fuel (length l) s l.

(** The fragment of packet [p] number [i] of [n], with data [chunk]: only the
    first carries the address. *)
Definition fragment (p : Packet) (n i : nat) (chunk : str) : Packet :=
  MkPacket (p_head p) (ASSOC_ID p) (PKT_ID p) (Z.of_nat n) (Z.of_nat i) (Z.of_nat (length chunk))
    (if decide (i = 0) then p_ADDR p else MkAddress AtypNone (a_ADDR (p_ADDR p)) (a_PORT (p_ADDR p)))
    chunk.

Definition fragments (s : nat) (p : Packet) : list Packet :=
  let cs := chunks s (DATA p) in imap (fragment p (length cs)) cs.

(** Datagrams sent one after the other until one fails. *)
Fixpoint send_all `{QuicConn} (l : list str) (c : quic_conn) : option string * quic_conn :=
  match l with
  | [] => (None, c)
  | dg :: l => match SendDatagram dg c with (Some err, c) => (Some err, c) | (None, c) => send_all l c end
  end.

Lemma chunks_fuel_concat f s l : 0 < s → length l ≤ f → concat (chunks_fuel f s l) = l.
Proof.
  intros Hs. revert l. induction f as [|f IH]; intros l Hl; [by destruct l; simpl in *; [|lia]|].
  destruct l as [|c l]; [done|]. cbn [chunks_fuel concat]. rewrite IH; [apply take_drop|].
  rewrite length_drop. simpl in *. lia.
Qed.

Lemma chunks_concat s l : 0 < s → concat (chunks s l) = l.
Proof. intros. by apply chunks_fuel_concat. Qed.

Lemma chunks_fuel_length f s l : 0 < s → length l ≤ f →
  Z.of_nat (length (chunks_fuel f s l)) = ((Z.of_nat (length l) + Z.of_nat s - 1) / Z.of_nat s)%Z.
Proof.
  intros Hs. revert l. induction f as [|f IH]; intros l Hl.
  - destruct l; simpl in *; [|lia]. symmetry. apply Z.div_small. lia.
  - destruct l as [|c l]; [symmetry; simpl; apply Z.div_small; lia|].
    cbn [chunks_fuel length]. rewrite Nat2Z.inj_succ, IH by (rewrite length_drop; simpl in *; lia).
    rewrite length_drop. set (n := length (c :: l)) in *. assert (1 ≤ n) by (unfold n; simpl; lia).
    destruct (decide (n ≤ s)) as [Hle|Hgt].
    + replace (n - s) with 0 by lia. rewrite Z.div_small by lia.
      change (S (length l)) with n. apply Z.div_unique with (r := (Z.of_nat n - 1)%Z); lia.
    + change (S (length l)) with n.
      replace (Z.of_nat n + Z.of_nat s - 1)%Z with (1 * Z.of_nat s + (Z.of_nat (n - s) + Z.of_nat s - 1))%Z by lia.
      rewrite Z.div_add_l by lia. lia.
Qed.

Lemma chunks_length s l : 0 < s →
  Z.of_nat (length (chunks s l)) = ((Z.of_nat (length l) + Z.of_nat s - 1) / Z.of_nat s)%Z.
Proof. intros. by apply chunks_fuel_length. Qed.

Lemma chunks_fuel_small f s l : Forall (λ c, length c ≤ length l ∧ length c ≤ s) (chunks_fuel f s l).
Proof.
  revert l. induction f as [|f IH]; intros l; [constructor|]. destruct l as [|c l]; [constructor|].
  cbn [chunks_fuel]. constructor; [rewrite length_take; lia|].
  eapply Forall_impl; [apply IH|]. simpl. intros x [H1 H2]. rewrite length_drop in H1. simpl in *. lia.
Qed.

Lemma in_uint16 z : (0 ≤ z < 65536)%Z → in_int uint16 z.
Proof. unfold in_int. change (int_min uint16) with 0%Z. change (int_max uint16) with 65535%Z. lia. Qed.

(** The loop sends the fragments that are left. *)
Lemma frag_loop_sends `{QuicConn} fuel packet full s off i (c : quic_conn) :
  0 < s → (Z.of_nat (length full) < 65536)%Z → off ≤ length full → length full - off ≤ fuel →
  i + length (chunks_fuel fuel s (drop off full)) ≤ 256 →
  frag_loop fuel packet full s off (Z.of_nat i) c
  = send_all (imap (λ j chunk, Packet_WriteTo
      (with_frag (if decide (j = 0) then packet else with_addr_type packet AtypNone)
         (Z.of_nat (i + j)) (Z.of_nat (length chunk)) chunk)) (chunks_fuel fuel s (drop off full))) c.
Proof.
  intros Hs Hfull. revert packet off i c. induction fuel as [|fuel IH]; intros packet off i c Hoff Hfuel Hn; [done|].
  cbn [frag_loop]. destruct (Nat.ltb_spec off (length full)) as [Hlt|Hge].
  2: { rewrite drop_ge by lia. done. }
  pose proof (length_drop full off) as Hlen.
  destruct (drop off full) as [|x rest] eqn:Hd; [simpl in Hlen; lia|]. cbn [chunks_fuel] in *.
  rewrite <- Hd in *. set (size := if (s <? length full - off)%nat then s else (length full - off)%nat).
  assert (Hsize : size = min s (length full - off)) by (unfold size; destruct (Nat.ltb_spec s (length full - off)); lia).
  assert (Hslice : slice full off (off + size) = take s (drop off full)).
  { unfold slice. replace (off + size - off) with size by lia.
    rewrite Hsize. destruct (decide (s ≤ length full - off)).
    - by rewrite Nat.min_l by lia.
    - rewrite Nat.min_r by lia. rewrite !take_ge; [done|lia|lia]. }
  assert (Hrest : drop s (drop off full) = drop (off + size) full).
  { rewrite drop_drop. destruct (decide (s ≤ length full - off)); [f_equal; lia|]. rewrite !drop_ge; [done|lia|lia]. }
  rewrite Hslice, Hrest in *. cbn [imap send_all]. rewrite decide_True by done. rewrite Nat.add_0_r.
  assert (length (take s (drop off full)) = size) as -> by (rewrite length_take, length_drop; lia).
  rewrite (wrap_id uint16 (Z.of_nat size)) by (try done; apply in_uint16; lia).
  destruct (SendDatagram _ c) as [[err|] c']; [done|].
  assert (Hloop : ∀ z, frag_loop fuel (with_addr_type packet AtypNone) full s (off + size) z c'
    = send_all [] c' ∨ off + size < length full).
  { intros z. destruct (decide (off + size < length full)); [by right|left]. destruct fuel; [done|].
    cbn [frag_loop]. destruct (Nat.ltb_spec (off + size) (length full)); [lia|done]. }
  destruct (decide (off + size < length full)) as [Hmore|Hdone].
  - rewrite wrap_id; [|done|].
    2: { apply in_uint8. cbn [length] in Hn. destruct (chunks_fuel fuel s (drop (off + size) full)) eqn:E; [|simpl in Hn; lia].
         exfalso. destruct fuel; [lia|]. cbn [chunks_fuel] in E. destruct (drop (off + size) full) eqn:E'; [|done].
         apply (f_equal length) in E'. rewrite length_drop in E'. simpl in E'. lia. }
    replace (Z.of_nat i + 1)%Z with (Z.of_nat (S i)) by lia. rewrite IH; [|lia|lia|cbn [length] in Hn; lia].
    f_equal. apply imap_ext. intros j y _. simpl. f_equal.
    replace (i + S j) with (S i + j) by lia. by destruct (decide (j = 0)).
  - destruct (Hloop (wrap uint8 (Z.of_nat i + 1))) as [->|]; [|lia].
    by destruct fuel; [|rewrite drop_ge by lia].
Qed.

Lemma frag_count_chunks (l : str) (s : Z) : (0 < s < 2 ^ 62)%Z → (Z.of_nat (length l) < 65536)%Z →
  frag_count (length l) s = Z.of_nat (length (chunks (Z.to_nat s) l)).
Proof.
  intros Hs Hl. unfold frag_count. rewrite chunks_length by lia. rewrite wrap_id; [|done|].
  - rewrite Z2Nat.id by lia. apply Z.quot_div_nonneg; lia.
  - unfold in_int. change (int_min int64) with (- 2 ^ 63)%Z. change (int_max int64) with (2 ^ 63 - 1)%Z. lia.
Qed.

(** [fragWriteNative] on a payload a UDP packet can hold sends exactly the
    fragments of the packet, one datagram each, in order, stopping at the first
    datagram the connection refuses; a fragment size that is not positive or
    that would need more than 255 fragments is an error and nothing is sent. *)
Theorem fragWriteNative_sends `{QuicConn} (p : Packet) (s : Z) (c : quic_conn) :
  (Z.of_nat (length (DATA p)) < 65536)%Z → (s < 2 ^ 62)%Z →
  if (s <=? 0)%Z || (255 <? length (chunks (Z.to_nat s) (DATA p)))%nat
  then ∃ err, fragWriteNative p s c = (Some err, c)
  else fragWriteNative p s c = send_all (Packet_WriteTo <$> fragments (Z.to_nat s) p) c.
Proof.
  intros Hlen Hs. unfold fragWriteNative. destruct (Z.leb_spec s 0) as [Hle|Hgt]; cbn [orb]; [eauto|].
  rewrite frag_count_chunks by lia. rewrite Z.gtb_ltb.
  destruct (Nat.ltb_spec 255 (length (chunks (Z.to_nat s) (DATA p)))) as [Hbig|Hsmall].
  - destruct (Z.ltb_spec 255 (Z.of_nat (length (chunks (Z.to_nat s) (DATA p))))); [eauto|lia].
  - destruct (Z.ltb_spec 255 (Z.of_nat (length (chunks (Z.to_nat s) (DATA p))))); [lia|].
    rewrite wrap_id by (try done; apply in_uint8; lia). change 0%Z with (Z.of_nat 0).
    rewrite frag_loop_sends; rewrite ?drop_0; [|lia|done|lia|lia|unfold chunks in Hsmall; lia].
    unfold fragments. rewrite fmap_imap. f_equal. apply imap_ext. intros i chunk _. simpl. f_equal.
    unfold fragment, with_frag. by destruct (decide (i = 0)).
Qed.

(** ** The store of bags *)

Fixpoint num_some (l : list (option Packet)) : nat :=
  match l with [] => 0 | Some _ :: l => S (num_some l) | None :: l => num_some l end.

(** Either nothing was collected, or the number of fragments that are there is
    counted and one at least is missing. *)
Definition bag_ok (b : packetBag) : Prop :=
  frags b = [] ∨ (count b = Z.of_nat (num_some (frags b)) ∧ num_some (frags b) < length (frags b) ≤ 255).

Section bags.
Context `{GenericList}.

Record d_ok (d : deFragger) : Prop := {
  dk_lru : lru_ok (init d);
  dk_cfg : cfg (init d).2 = Config 10 1024 true false;
  dk_nodup : NoDup (e_value <$> view (init d));
  dk_bound : Forall (λ e, e_value e < length (bags d)) (view (init d));
  dk_bags : Forall bag_ok (bags d)
}.

Definition frag_range (m : Packet) : Prop := (0 ≤ FRAG_TOTAL m < 256)%Z ∧ (0 ≤ FRAG_ID m)%Z.

Lemma num_some_insert i m l : l !! i = Some None → num_some (<[i := Some m]> l) = S (num_some l).
Proof.
  revert i. induction l as [|o l IH]; intros [|i] Hi; try done; simpl in *.
  - by simplify_eq.
  - destruct o; simpl; by rewrite IH.
Qed.

Lemma num_some_replicate n : num_some (replicate n None) = 0.
Proof. by induction n. Qed.

Lemma num_some_le l : num_some l ≤ length l.
Proof. induction l as [|[] l IH]; simpl; lia. Qed.

Lemma num_some_all l : num_some l = length l → ∃ ms, l = Some <$> ms.
Proof.
  induction l as [|[m|] l IH]; simpl; intros Hn.
  - by exists [].
  - destruct IH as [ms ->]; [lia|]. by exists (m :: ms).
  - pose proof (num_some_le l). lia.
Qed.

Lemma assemble_all ms : assemble (Some <$> ms) = Ok (concat (DATA <$> ms)).
Proof. induction ms as [|m ms IH]; [done|]. rewrite !fmap_cons. cbn [assemble concat]. by rewrite IH. Qed.

(** The abstract [GetOrStore]. *)
Definition a_getorstore (g : config) (now : Z) (k : Z) (v : nat) (l : list (entry Z nat))
    : (nat * bool) * list (entry Z nat) :=
  match a_get g now k l with
  | (Some e, l) => ((e_value e, true), l)
  | (None, l) => ((v, false), a_set g now k v (a_expiry g now) l)
  end.

Lemma GetOrStore_refines now k v (st : heap Z nat * LruCache Z nat) : lru_ok st →
  (GetOrStore now k v st).1 = (a_getorstore (cfg st.2) now k v (view st)).1
  ∧ refines_to st (GetOrStore now k v st).2 (a_getorstore (cfg st.2) now k v (view st)).2.
Proof.
  intros Hok. pose proof (run_op_refines now (OGetOrStore k v) st Hok) as [Hr Hs].
  unfold a_getorstore. cbn [run_op a_run_op] in Hr, Hs.
  destruct (GetOrStore now k v st) as [[b loaded] st'], (a_get (cfg st.2) now k (view st)) as [[e|] l'];
    simpl in *; by simplify_eq.
Qed.

(** *** The shape of the cache after an access *)

Lemma sublist_fmap {A B} (f : A → B) (l k : list A) : l `sublist_of` k → f <$> l `sublist_of` f <$> k.
Proof. induction 1; simpl; by constructor. Qed.

Lemma a_expire_sublist g now (l : list (entry Z nat)) : a_expire g now l `sublist_of` l.
Proof.
  unfold a_expire. case_match; [|done]. induction l as [|e l IH]; [done|]. cbn [drop_expired].
  case_match; [by constructor|done].
Qed.

Lemma sublist_tail {A} (l : list A) : tail l `sublist_of` l.
Proof. destruct l; [done|]. by constructor. Qed.

Lemma a_set_sublist g now k v exp (l l0 : list (entry Z nat)) : l0 `sublist_of` l →
  a_set g now k v exp l0 `sublist_of` l ++ [Entry k v exp].
Proof.
  intros Hl. unfold a_set. transitivity (aremove k l0 ++ [Entry k v exp]).
  - etransitivity; [apply a_expire_sublist|]. destruct (afind k l0); [done|].
    case_match; [apply sublist_tail|done].
  - apply sublist_app; [|done]. transitivity l0; [apply sublist_filter|done].
Qed.

(** Entries only leave the cache, except for the one of the key, which is put
    last with the value that is returned. *)
Lemma a_getorstore_shape g now k v l :
  let '((b, loaded), l') := a_getorstore g now k v l in
  (∃ e, e_key e = k ∧ e_value e = b ∧ l' `sublist_of` aremove k l ++ [e])
  ∧ if loaded then ∃ e, e ∈ l ∧ e_key e = k ∧ e_value e = b else b = v.
Proof.
  unfold a_getorstore, a_get. destruct (afind k l) as [e|] eqn:Hf.
  - pose proof (afind_Some k l e Hf) as [Hin Hk]. destruct (expires_enabled g && _).
    + split; [|done]. eexists. split_and!; [| |apply a_set_sublist, a_expire_sublist]; done.
    + destruct ((c_age g >? 0)%Z && c_refresh g); (split; [eexists; split_and!; [| |reflexivity]; done|eauto]).
  - split; [|done]. eexists. split_and!; [| |apply a_set_sublist]; [done|done|].
    apply afind_None in Hf. by rewrite aremove_notin.
Qed.

Lemma NoDup_fmap_eq {A B} (f : A → B) (l : list A) x y :
  NoDup (f <$> l) → x ∈ l → y ∈ l → f x = f y → x = y.
Proof.
  induction l as [|z l IH]; [by intros _ ?%elem_of_nil|]. rewrite fmap_cons, NoDup_cons. intros [Hz Hnd].
  rewrite !elem_of_cons. intros [->|Hx] [->|Hy] E; [done| | |by apply IH].
  - exfalso. apply Hz. rewrite E. by apply list_elem_of_fmap_2.
  - exfalso. apply Hz. rewrite <- E. by apply list_elem_of_fmap_2.
Qed.

(** The addresses in the cache stay distinct and in the store. *)
Lemma a_getorstore_values g now k l n : NoDup (e_value <$> l) → Forall (λ e, e_value e < n) l →
  let '((b, loaded), l') := a_getorstore g now k n l in
  let n' := if (loaded : bool) then n else S n in
  NoDup (e_value <$> l') ∧ Forall (λ e, e_value e < n') l' ∧ b < n'.
Proof.
  intros Hnd Hlt. pose proof (a_getorstore_shape g now k n l) as Hsh.
  destruct (a_getorstore g now k n l) as [[b loaded] l'] eqn:E. destruct Hsh as ((e & Hk & Hv & Hsub) & Hl).
  assert (Hb : b < (if loaded then n else S n) ∧ b ∉ e_value <$> aremove k l).
  { unfold aremove. destruct loaded; [|subst b; split; [lia|]].
    - destruct Hl as (e0 & Hin & Hk0 & Hv0). rewrite Forall_forall in Hlt. split; [rewrite <- Hv0; by apply Hlt|].
      intros (e1 & Hv1 & He1)%list_elem_of_fmap. apply list_elem_of_filter in He1 as [Hk1 He1].
      assert (e1 = e0) as -> by (eapply NoDup_fmap_eq; eauto; congruence). done.
    - intros (e1 & Hv1 & He1)%list_elem_of_fmap. apply list_elem_of_filter in He1 as [Hk1 He1].
      rewrite Forall_forall in Hlt. specialize (Hlt _ He1). lia. }
  destruct Hb as [Hb Hnotin]. simpl. split_and!; [| |done].
  - eapply sublist_NoDup; [|by apply sublist_fmap]. rewrite fmap_app. simpl. rewrite Hv.
    apply NoDup_app. split_and!; [|set_solver|by apply NoDup_singleton].
    eapply sublist_NoDup; [exact Hnd|]. apply sublist_fmap, sublist_filter.
  - rewrite Forall_forall in *. intros x Hx. eapply elem_of_submseteq in Hx; [|apply sublist_submseteq, Hsub].
    apply elem_of_app in Hx as [Hx|Hx]; [|apply list_elem_of_singleton in Hx as ->; by rewrite Hv].
    apply list_elem_of_filter in Hx as [_ Hx]. specialize (Hlt _ Hx). destruct loaded; lia.
Qed.

(** *** One access of the cache by [Feed] *)

(** The store after the access: a new bag when the id was not there. *)
Definition store_after (loaded : bool) (d : deFragger) : list packetBag :=
  if loaded then bags d else bags d ++ [newPacketBag].

Lemma d_ok_update lru store b bag : d_ok (MkDeFragger (Some lru) store) → bag_ok bag →
  d_ok (MkDeFragger (Some lru) (<[b := bag]> store)).
Proof.
  intros [H1 H2 H3 H4 H5] Hbag. split; cbn [init d_lru bags] in *; [done|done|done| |].
  - by rewrite length_insert.
  - by apply Forall_insert.
Qed.

Lemma d_ok_delete lru store k : d_ok (MkDeFragger (Some lru) store) →
  d_ok (MkDeFragger (Some (Delete k lru)) store).
Proof.
  intros [H1 H2 H3 H4 H5]. cbn [init d_lru bags] in *.
  pose proof (delete_key_refines k lru H1) as (Hok & Hv & Hc). change (delete_key k lru) with (Delete k lru) in *.
  split; cbn [init d_lru bags]; [done|congruence| | |done]; rewrite Hv; unfold aremove.
  - eapply sublist_NoDup; [exact H3|]. apply sublist_fmap, sublist_filter.
  - rewrite Forall_forall in *. intros e [_ He]%list_elem_of_filter. by apply H4.
Qed.

Lemma access_ok now k d : d_ok d → ∃ b loaded lru bag,
  GetOrStore now k (length (bags d)) (init d) = ((b, loaded), lru)
  ∧ a_getorstore (Config 10 1024 true false) now k (length (bags d)) (view (init d)) = ((b, loaded), view lru)
  ∧ store_after loaded d !! b = Some bag ∧ bag_ok bag
  ∧ d_ok (MkDeFragger (Some lru) (store_after loaded d)).
Proof.
  intros [H1 H2 H3 H4 H5].
  destruct (GetOrStore_refines now k (length (bags d)) (init d) H1) as [Hr (Hok & Hv & Hc)].
  pose proof (a_getorstore_values (cfg (init d).2) now k (view (init d)) (length (bags d)) H3 H4) as Hvals.
  destruct (GetOrStore now k (length (bags d)) (init d)) as [[b loaded] lru] eqn:E. cbn [fst snd] in *.
  destruct (a_getorstore (cfg (init d).2) now k (length (bags d)) (view (init d))) as [[b' loaded'] l'] eqn:E'.
  cbn [fst snd] in *. injection Hr as -> ->. subst l'. destruct Hvals as (Hnd & Hlt & Hb).
  assert (Hstore : Forall bag_ok (store_after loaded' d) ∧
    length (store_after loaded' d) = if loaded' then length (bags d) else S (length (bags d))).
  { unfold store_after. destruct loaded'; [done|]. rewrite length_app, Forall_app. simpl.
    split; [|lia]. split; [done|]. constructor; [by left|constructor]. }
  destruct Hstore as [Hbags Hlen]. rewrite <- Hlen in *.
  destruct (lookup_lt_is_Some_2 _ _ Hb) as [bag Hbag].
  exists b', loaded', lru, bag. split_and!; [done|by rewrite <- H2|done| |].
  - by eapply Forall_lookup_1.
  - split; cbn [init d_lru bags]; [done|by rewrite Hc|done|done|done].
Qed.

(** The result of the access, whatever it is, leaves a good state; [Feed] does
    not panic. *)
Lemma Feed_ok now m d : d_ok d → frag_range m → ∃ r d', Feed now m d = Ok (r, d') ∧ d_ok d'.
Proof.
  intros Hd [Ht Hi]. unfold Feed. destruct (Z.leb_spec (FRAG_TOTAL m) 1); [eauto|].
  rewrite Z.geb_leb. destruct (Z.leb_spec (FRAG_TOTAL m) (FRAG_ID m)); [eauto|].
  destruct (access_ok now (PKT_ID m) d Hd) as (b & loaded & lru & bag & -> & _ & Hb & Hbag & Hok).
  change (if loaded then bags d else bags d ++ [newPacketBag]) with (store_after loaded d). rewrite Hb.
  destruct (Z.eqb_spec (FRAG_TOTAL m) (Z.of_nat (length (frags bag)))) as [E|E]; cbn [negb].
  2: { eexists _, _. split; [done|]. apply d_ok_update; [done|]. right. cbn [frags count].
       assert (replicate (Z.to_nat (FRAG_TOTAL m)) (None (A := Packet)) !! Z.to_nat (FRAG_ID m) = Some None) as Hl
         by (apply lookup_replicate; split; [done|lia]).
       rewrite num_some_insert, num_some_replicate, length_insert, length_replicate by done. lia. }
  destruct Hbag as [Hnil|[Hc Hn]]; [rewrite Hnil in E; simpl in E; lia|].
  destruct (lookup_lt_is_Some_2 (frags bag) (Z.to_nat (FRAG_ID m)) ltac:(lia)) as [[f|] Hf]; rewrite Hf; [eauto|].
  rewrite length_insert, Hc. rewrite wrap_id by (try done; apply in_uint8; lia).
  pose proof (num_some_insert _ m _ Hf) as Hns.
  destruct (Z.eqb_spec (Z.of_nat (num_some (frags bag)) + 1) (Z.of_nat (length (frags bag)))) as [E2|E2]; cbn [negb].
  - destruct (num_some_all (<[Z.to_nat (FRAG_ID m) := Some m]> (frags bag))) as [ms Hms];
      [rewrite length_insert; lia|].
    rewrite Hms, assemble_all. cbn [mbind result_bind]. assert (length ms = length (frags bag)) as Hl
      by (rewrite <- (length_insert (frags bag) (Z.to_nat (FRAG_ID m)) (Some m)), Hms; by rewrite length_fmap).
    destruct ms as [|first ms]; [simpl in Hl; lia|]. cbn. eexists _, _. split; [done|].
    apply d_ok_update; [by apply d_ok_delete|by left].
  - eexists _, _. split; [done|]. apply d_ok_update; [done|]. right. cbn [frags count].
    rewrite length_insert, Hns. lia.
Qed.

Lemma empty_deFragger_ok : d_ok empty_deFragger.
Proof.
  destruct (new_state_ok (K := Z) (V := nat) [OptSize 1024; OptAge 10; OptUpdateAge]) as [Hok Hv].
  split; cbn [init d_lru bags empty_deFragger]; unfold new_lru; rewrite ?Hv; try done; constructor.
Qed.

(** *** A bag is kept while the cache is used for other packets *)

Abbreviation g := (Config 10 1024 true false).

(** The entry of [k] holds the bag at [b], does not expire before [t], and
    at most [n] entries were used after it. *)
Definition live (k : Z) (b : nat) (t : Z) (n : nat) (l : list (entry Z nat)) : Prop :=
  ∃ l1 e l2, l = l1 ++ e :: l2 ∧ e_key e = k ∧ e_value e = b ∧ (t ≤ e_expires e)%Z ∧ length l2 ≤ n.

Lemma live_aremove k k' b t n l : k ≠ k' → live k b t n l → live k b t n (aremove k' l).
Proof.
  intros Hne (l1 & e & l2 & -> & Hk & Hb & He & Hn). exists (aremove k' l1), e, (aremove k' l2).
  split_and!; [|done|done|done|]; [|pose proof (aremove_length k' l2); lia].
  unfold aremove. rewrite filter_app, filter_cons_True by congruence. done.
Qed.

Lemma live_snoc k b t n l e : live k b t n l → live k b t (S n) (l ++ [e]).
Proof.
  intros (l1 & e' & l2 & -> & Hk & Hb & He & Hn). exists l1, e', (l2 ++ [e]).
  rewrite length_app, <- app_assoc. simpl. split_and!; [done|done|done|done|lia].
Qed.

Lemma live_expire k b t n now l : (now < t)%Z → live k b t n l → live k b t n (a_expire g now l).
Proof.
  intros Hnow (l1 & e & l2 & -> & Hk & Hb & He & Hn). change (live k b t n (drop_expired now (l1 ++ e :: l2))).
  induction l1 as [|x l1 IH]; cbn [drop_expired app].
  - destruct (Z.leb_spec (e_expires e) now); [lia|]. by exists [], e, l2.
  - case_match; [done|]. by exists (x :: l1), e, l2.
Qed.

Lemma live_tail k b t n l : live k b t n l → S n < length l → live k b t n (tail l).
Proof.
  intros (l1 & e & l2 & -> & Hk & Hb & He & Hn) Hlen. rewrite length_app in Hlen. simpl in Hlen.
  destruct l1 as [|x l1]; [simpl in Hlen; lia|]. by exists l1, e, l2.
Qed.

(** An access for another id. *)
Lemma live_other k k' b t n now v l : k ≠ k' → (now < t)%Z → n < 1023 → live k b t n l →
  live k b t (S n) (a_getorstore g now k' v l).2.
Proof.
  intros Hne Hnow Hn Hl. unfold a_getorstore, a_get.
  assert (Hset : ∀ l, live k b t n l → live k b t (S n) (a_set g now k' v (a_expiry g now) l)).
  { clear l Hl. intros l Hl. unfold a_set. apply live_expire; [done|].
    pose proof (live_snoc k b t n _ (Entry k' v (a_expiry g now)) (live_aremove k k' b t n l Hne Hl)) as Hs.
    destruct (afind k' l); [done|]. cbn [c_size]. rewrite !Z.gtb_ltb. case_match eqn:E; [|done].
    apply andb_true_iff in E as [_ E]. apply Z.ltb_lt in E. apply live_tail; [done|lia]. }
  destruct (afind k' l) as [e|]; [|by apply Hset].
  destruct (expires_enabled g && _); [apply Hset, live_expire; [done|]; by apply live_aremove|].
  by apply live_snoc, live_aremove.
Qed.

(** An access for the id itself. *)
Lemma live_same k b t n now v l : NoDup (e_key <$> l) → (now < t)%Z → (0 ≤ now < 2 ^ 62)%Z → (t ≤ now + 10)%Z →
  live k b t n l → ∃ l', a_getorstore g now k v l = ((b, true), l') ∧ live k b t 0 l'.
Proof.
  intros Hnd Hnow Hr Ht (l1 & e & l2 & -> & Hk & Hb & He & Hn). unfold a_getorstore, a_get.
  rewrite (afind_unique k (l1 ++ e :: l2) e) by (try done; set_solver).
  cbn. destruct (Z.leb_spec (e_expires e) now); [lia|]. eexists. split; [by rewrite Hb|].
  eexists _, _, []. split; [done|]. cbn [e_key e_value e_expires length]. split_and!; [done|done| |lia].
  rewrite wrap_id; [done|done|]. unfold in_int. change (int_min int64) with (- 2 ^ 63)%Z.
  change (int_max int64) with (2 ^ 63 - 1)%Z. lia.
Qed.

(** A first access. *)
Lemma live_fresh k t now v l : k ∉ e_key <$> l → (0 ≤ now < 2 ^ 62)%Z → (now < t ≤ now + 10)%Z →
  ∃ l', a_getorstore g now k v l = ((v, false), l') ∧ live k v t 0 l'.
Proof.
  intros Hk Hr Ht. unfold a_getorstore, a_get. rewrite (proj2 (afind_None k l) Hk).
  eexists. split; [done|]. unfold a_set. apply live_expire; [lia|].
  assert (live k v t 0 (aremove k l ++ [Entry k v (a_expiry g now)])) as Hl.
  { eexists _, _, []. split; [done|]. cbn [e_key e_value e_expires length]. split_and!; [done|done| |lia].
    unfold a_expiry. cbn. rewrite wrap_id; [lia|done|]. unfold in_int. change (int_min int64) with (- 2 ^ 63)%Z.
    change (int_max int64) with (2 ^ 63 - 1)%Z. lia. }
  rewrite (proj2 (afind_None k l) Hk). cbn [c_size]. rewrite !Z.gtb_ltb. case_match eqn:E; [|done].
  apply live_tail; [done|]. apply andb_true_iff in E as [_ E]. apply Z.ltb_lt in E. lia.
Qed.

Lemma not_key_other k k' now v l : k ≠ k' → k ∉ e_key <$> l → k ∉ e_key <$> (a_getorstore g now k' v l).2.
Proof.
  intros Hne Hk. pose proof (a_getorstore_shape g now k' v l) as Hsh.
  destruct (a_getorstore g now k' v l) as [[b loaded] l']. destruct Hsh as ((e & He & _ & Hsub) & _). cbn [snd].
  intros (x & -> & Hx)%list_elem_of_fmap. eapply elem_of_submseteq in Hx; [|apply sublist_submseteq, Hsub].
  apply elem_of_app in Hx as [Hx|Hx%list_elem_of_singleton]; [|congruence].
  apply list_elem_of_filter in Hx as [_ Hx]. apply Hk. by apply list_elem_of_fmap_2.
Qed.
End bags.

(** ** Reassembly *)

Section reassembly.
Context `{GenericList}.
Abbreviation g := (Config 10 1024 true false).

(** The state a call leaves: unchanged, or one access and a change of the bag
    it found, with the entry of a finished packet deleted. *)
Lemma Feed_frame now m d r d' : d_ok d → Feed now m d = Ok (r, d') →
  d' = d ∨ ∃ b loaded lru bag,
    a_getorstore g now (PKT_ID m) (length (bags d)) (view (init d)) = ((b, loaded), view lru)
    ∧ lru_ok lru ∧ bags d' = <[b := bag]> (store_after loaded d)
    ∧ (d_lru d' = Some lru ∨ d_lru d' = Some (Delete (PKT_ID m) lru)).
Proof.
  intros Hd. unfold Feed. destruct (FRAG_TOTAL m <=? 1)%Z; [intros; simplify_eq; by left|].
  destruct (FRAG_ID m >=? FRAG_TOTAL m)%Z; [intros; simplify_eq; by left|].
  destruct (access_ok now (PKT_ID m) d Hd) as (b & loaded & lru & bag & -> & Ha & Hb & _ & Hok).
  change (if loaded then bags d else bags d ++ [newPacketBag]) with (store_after loaded d). rewrite Hb.
  assert (Hlru : lru_ok lru) by apply Hok. intros HF. right.
  destruct (negb _); [injection HF as <- <-; by eexists _, _, _, _; split_and!; eauto|].
  destruct (frags bag !! Z.to_nat (FRAG_ID m)) as [[f|]|]; [| |done].
  - injection HF as <- <-. exists b, loaded, lru, bag. split_and!; eauto. by rewrite list_insert_id.
  - destruct (negb _); [injection HF as <- <-; by eexists _, _, _, _; split_and!; eauto|].
    apply result_bind_Ok in HF as (data & _ & HF).
    destruct (<[_ := _]> (frags bag) !! 0) as [[first|]|]; [|done|done].
    injection HF as <- <-. by eexists _, _, _, _; split_and!; eauto.
Qed.

(** The view of the cache a frame leaves. *)
Lemma frame_view d' k lru : lru_ok lru → d_lru d' = Some lru ∨ d_lru d' = Some (Delete k lru) →
  view (init d') = view lru ∨ view (init d') = aremove k (view lru).
Proof.
  intros Hok [E|E]; unfold init; rewrite E; [by left|right]. by apply delete_key_refines.
Qed.

Context (k t : Z) (fs : list Packet).

(** No fragment of packet [k] is held. *)
Definition absent (d : deFragger) : Prop := d_ok d ∧ k ∉ e_key <$> view (init d).

(** The bag of packet [k] holds the fragments [done]. *)
Definition collected (done : list Packet) : list (option Packet) :=
  (λ m, if decide (m ∈ done) then Some m else None) <$> fs.
Definition holding (done : list Packet) (n : nat) (d : deFragger) : Prop :=
  d_ok d ∧ ∃ b, live k b t n (view (init d))
                ∧ bags d !! b = Some (MkBag (collected done) (Z.of_nat (length done))).

Lemma absent_other now m d : absent d → frag_range m → PKT_ID m ≠ k →
  ∃ r d', Feed now m d = Ok (r, d') ∧ absent d'.
Proof.
  intros [Hd Hk] Hr Hne. destruct (Feed_ok now m d Hd Hr) as (r & d' & HF & Hd'). exists r, d'. split; [done|].
  split; [done|]. destruct (Feed_frame now m d r d' Hd HF) as [->|(b & loaded & lru & bag & Ha & Hok & _ & Hl)]; [done|].
  assert (Hk' : k ∉ e_key <$> view lru).
  { pose proof (not_key_other k (PKT_ID m) now (length (bags d)) (view (init d))) as Hn. rewrite Ha in Hn. by apply Hn. }
  destruct (frame_view d' (PKT_ID m) lru Hok Hl) as [->| ->]; [done|].
  rewrite aremove_keys. by intros [_ ?]%list_elem_of_filter.
Qed.

Lemma holding_other now m d done n : holding done n d → frag_range m → PKT_ID m ≠ k → (now < t)%Z → n < 1023 →
  ∃ r d', Feed now m d = Ok (r, d') ∧ holding done (S n) d'.
Proof.
  intros (Hd & b & Hl & Hb) Hr Hne Hnow Hn. destruct (Feed_ok now m d Hd Hr) as (r & d' & HF & Hd').
  exists r, d'. split; [done|]. split; [done|]. exists b.
  destruct (Feed_frame now m d r d' Hd HF) as [->|(b' & loaded & lru & bag & Ha & Hok & Hbags & Hlru)].
  { split; [|done]. destruct Hl as (l1 & e & l2 & H1 & H2 & H3 & H4 & H5). exists l1, e, l2. split_and!; auto. }
  split.
  - pose proof (live_other k (PKT_ID m) b t n now (length (bags d)) _ (not_eq_sym Hne) Hnow Hn Hl) as Hlo.
    rewrite Ha in Hlo. destruct (frame_view d' (PKT_ID m) lru Hok Hlru) as [->| ->]; [done|].
    by apply live_aremove.
  - assert (Hbb : b < length (bags d)) by (by eapply lookup_lt_Some).
    pose proof (a_getorstore_shape g now (PKT_ID m) (length (bags d)) (view (init d))) as Hsh. rewrite Ha in Hsh.
    destruct Hsh as [_ Hsh]. rewrite Hbags, list_lookup_insert_ne.
    + destruct loaded; [done|]. unfold store_after. by rewrite lookup_app_l.
    + destruct loaded; [|lia]. destruct Hsh as (e0 & He0 & Hk0 & Hv0).
      destruct Hl as (l1 & e & l2 & Hview & He & Hv & _). intros ->. assert (e0 = e); [|congruence].
      eapply (NoDup_fmap_eq e_value); [apply Hd|done|rewrite Hview; set_solver|congruence].
Qed.

(** [fs] are the fragments of packet [k], in order. *)
Definition numbered : Prop := ∀ i m, fs !! i = Some m →
  FRAG_ID m = Z.of_nat i ∧ FRAG_TOTAL m = Z.of_nat (length fs) ∧ PKT_ID m = k.

Lemma numbered_eq i j m : numbered → fs !! i = Some m → fs !! j = Some m → i = j.
Proof. intros Hnum Hi Hj. apply Hnum in Hi as [Hi _]. apply Hnum in Hj as [Hj _]. lia. Qed.

Lemma collected_insert i m done : numbered → fs !! i = Some m →
  <[i := Some m]> (collected done) = collected (m :: done).
Proof.
  intros Hnum Hi. apply list_eq. intros j. unfold collected. destruct (decide (i = j)) as [<-|Hne].
  - rewrite list_lookup_insert_eq by (rewrite length_fmap; by eapply lookup_lt_Some).
    rewrite list_lookup_fmap, Hi. simpl. rewrite decide_True by left. done.
  - rewrite list_lookup_insert_ne, !list_lookup_fmap by done. destruct (fs !! j) as [m'|] eqn:Hj; [|done].
    simpl. f_equal. assert (m' ≠ m) by (intros ->; by apply Hne, (numbered_eq i j m)).
    assert (m' ∈ m :: done ↔ m' ∈ done) as Hiff by set_solver.
    by rewrite (decide_ext _ _ _ _ Hiff).
Qed.

Lemma collected_nil : collected [] = replicate (length fs) None.
Proof. unfold collected. induction fs as [|m l IH]; [done|]. rewrite fmap_cons, IH. by rewrite decide_False by set_solver. Qed.

Lemma collected_all done : (∀ m, m ∈ fs → m ∈ done) → collected done = Some <$> fs.
Proof.
  intros Hall. unfold collected. apply list_fmap_ext. intros i m Hm. rewrite decide_True; [done|].
  apply Hall. by eapply list_elem_of_lookup_2.
Qed.

Lemma length_collected done : length (collected done) = length fs.
Proof. apply length_fmap. Qed.

(** What [Feed] returns for the last fragment. *)
Definition reassembled (first : Packet) : Packet :=
  MkPacket (p_head first) (ASSOC_ID first) (PKT_ID first) 1 0
    (wrap uint16 (Z.of_nat (length (concat (DATA <$> fs))))) (p_ADDR first) (concat (DATA <$> fs)).

Lemma guards i m : numbered → 2 ≤ length fs → fs !! i = Some m →
  (FRAG_TOTAL m <=? 1)%Z = false ∧ (FRAG_ID m >=? FRAG_TOTAL m)%Z = false ∧ Z.to_nat (FRAG_ID m) = i.
Proof.
  intros Hnum HN Hi. pose proof (lookup_lt_Some _ _ _ Hi). apply Hnum in Hi as (Hf & Ht & _).
  rewrite Hf, Ht, Z.geb_leb. split_and!; [apply Z.leb_gt; lia|apply Z.leb_gt; lia|lia].
Qed.

(** The first fragment to arrive. *)
Lemma Feed_first now i m d : numbered → 2 ≤ length fs ≤ 255 → fs !! i = Some m →
  (0 ≤ now < 2 ^ 62)%Z → (now < t ≤ now + 10)%Z → absent d →
  ∃ d', Feed now m d = Ok (None, d') ∧ holding [m] 0 d'.
Proof.
  intros Hnum HN Hi Hnow Ht [Hd Hk]. destruct (guards i m Hnum ltac:(lia) Hi) as (G1 & G2 & G3).
  destruct (Hnum i m Hi) as (Hf & Htot & Hpk). pose proof (lookup_lt_Some _ _ _ Hi) as Hlt.
  assert (Hr : frag_range m) by (split; lia).
  destruct (Feed_ok now m d Hd Hr) as (r & d' & HF & Hd').
  unfold Feed in HF |- *. rewrite G1, G2, G3 in *.
  destruct (access_ok now (PKT_ID m) d Hd) as (b & loaded & lru & bag & HG & Ha & Hb & _ & Hok). rewrite HG in *.
  destruct (live_fresh k t now (length (bags d)) _ Hk Hnow Ht) as (l' & Ha' & Hlive).
  rewrite Hpk, Ha' in Ha. injection Ha as <- <- ->. unfold store_after in Hb.
  rewrite lookup_app_r, Nat.sub_diag in Hb by lia. injection Hb as <-.
  rewrite lookup_app_r, Nat.sub_diag in * by lia. cbn [lookup list_lookup newPacketBag frags length] in *.
  rewrite (proj2 (Z.eqb_neq (FRAG_TOTAL m) (Z.of_nat 0))) in * by lia. cbn [negb] in *.
  injection HF as <- <-. eexists. split; [done|]. split; [done|]. exists (length (bags d)). split; [done|].
  cbn [bags]. rewrite list_lookup_insert_eq by (rewrite length_app; simpl; lia).
  do 2 f_equal. rewrite Htot, Nat2Z.id, <- collected_nil. by apply collected_insert.
Qed.

(** A later fragment: the bag is complete, or it holds one more. *)
Lemma Feed_next now i m d done n : numbered → 2 ≤ length fs ≤ 255 → fs !! i = Some m → m ∉ done →
  length done < length fs → (0 ≤ now < 2 ^ 62)%Z → (now < t ≤ now + 10)%Z → holding done n d →
  if decide (S (length done) = length fs)
  then (∀ x, x ∈ fs → x ∈ m :: done) → ∃ first d', fs !! 0 = Some first ∧ Feed now m d = Ok (Some (reassembled first), d') ∧ d_ok d'
  else ∃ d', Feed now m d = Ok (None, d') ∧ holding (m :: done) 0 d'.
Proof.
  intros Hnum HN Hi Hm Hlen Hnow Ht (Hd & b & Hlive & Hb). destruct (guards i m Hnum ltac:(lia) Hi) as (G1 & G2 & G3).
  destruct (Hnum i m Hi) as (Hf & Htot & Hpk). pose proof (lookup_lt_Some _ _ _ Hi) as Hlt.
  assert (Hr : frag_range m) by (split; lia).
  destruct (Feed_ok now m d Hd Hr) as (r & d' & HF & Hd').
  unfold Feed in HF |- *. rewrite G1, G2, G3 in *.
  destruct (access_ok now (PKT_ID m) d Hd) as (b' & loaded & lru & bag & HG & Ha & _ & _ & _). rewrite HG in *.
  pose proof (view_keys_nodup _ (dk_lru _ Hd)) as Hnd.
  destruct (live_same k b t n now (length (bags d)) _ Hnd ltac:(lia) ltac:(lia) ltac:(lia) Hlive) as (l' & Ha' & Hlive').
  rewrite Hpk, Ha' in Ha. injection Ha as <- <- ->. rewrite Hb in *. cbn [frags count] in *.
  rewrite length_collected, Htot, Z.eqb_refl in *. cbn [negb] in *.
  assert (Hslot : collected done !! i = Some None).
  { unfold collected. rewrite list_lookup_fmap, Hi. simpl. by rewrite decide_False. }
  rewrite Hslot, length_insert, length_collected, collected_insert in * by done.
  rewrite wrap_id in * by (try done; apply in_uint8; lia).
  assert (Hbl : b < length (bags d)) by (by eapply lookup_lt_Some).
  case_decide as E.
  - intros Hall. rewrite (proj2 (Z.eqb_eq _ _)) in * by lia. cbn [negb] in *.
    rewrite collected_all, assemble_all in * by done. cbn [mbind result_bind] in *.
    destruct (lookup_lt_is_Some_2 fs 0 ltac:(lia)) as [first Hfirst].
    rewrite list_lookup_fmap, Hfirst in *. cbn [fmap option_fmap option_map] in *.
    exists first. eexists. split; [done|]. split; [done|]. by injection HF as _ <-.
  - rewrite (proj2 (Z.eqb_neq _ _)) in * by lia. cbn [negb] in *. injection HF as _ <-.
    eexists. split; [done|]. split; [done|]. exists b. split; [done|]. cbn [bags].
    rewrite list_lookup_insert_eq by done. do 2 f_equal. simpl. lia.
Qed.

(** *** Whole schedules *)

(** The packets of a schedule that carry the id, and the results of the calls
    that fed them. *)
Fixpoint packets_of (ms : list (Z * Packet)) : list Packet :=
  match ms with
  | [] => []
  | (_, m) :: ms => if decide (PKT_ID m = k) then m :: packets_of ms else packets_of ms
  end.
Fixpoint outputs_of (ms : list (Z * Packet)) (rs : list (option Packet)) : list (option Packet) :=
  match ms, rs with
  | (_, m) :: ms, r :: rs => if decide (PKT_ID m = k) then r :: outputs_of ms rs else outputs_of ms rs
  | _, _ => []
  end.

(** Every call happens within the ten seconds before [t]. *)
Definition timely (x : Z * Packet) : Prop :=
  (0 ≤ x.1 < 2 ^ 62)%Z ∧ (x.1 < t ≤ x.1 + 10)%Z ∧ frag_range x.2.

Lemma feed_all_rest ms d : d_ok d → Forall timely ms → packets_of ms = [] →
  ∃ rs d', feed_all ms d = Ok (rs, d') ∧ outputs_of ms rs = [].
Proof.
  revert d. induction ms as [|[now m] ms IH]; intros d Hd Hall Hnone; [by eexists [], d|].
  apply Forall_cons in Hall as [(_ & _ & Hr) Hall]. cbn [packets_of] in Hnone. case_decide as E; [done|].
  destruct (Feed_ok now m d Hd Hr) as (r & d1 & HF & Hd1). destruct (IH d1 Hd1 Hall Hnone) as (rs & d' & HA & Ho).
  exists (r :: rs), d'. cbn [feed_all]. rewrite HF. cbn [mbind result_bind]. rewrite HA. cbn [mbind result_bind].
  split; [done|]. cbn [outputs_of]. by rewrite decide_False.
Qed.

Lemma feed_all_cons now m ms d r d1 rs d' : Feed now m d = Ok (r, d1) → feed_all ms d1 = Ok (rs, d') →
  feed_all ((now, m) :: ms) d = Ok (r :: rs, d').
Proof. intros HF HA. cbn [feed_all]. rewrite HF. cbn [mbind result_bind]. by rewrite HA. Qed.

Lemma numbered_NoDup : numbered → NoDup fs.
Proof. intros Hnum. apply NoDup_alt. intros i j m Hi Hj. by eapply numbered_eq. Qed.

Lemma feed_all_holding first ms got n d : numbered → 2 ≤ length fs ≤ 255 → fs !! 0 = Some first →
  holding got n d → Forall timely ms → n + length ms < 1024 →
  got ++ packets_of ms ≡ₚ fs → packets_of ms ≠ [] →
  ∃ rs d', feed_all ms d = Ok (rs, d')
    ∧ outputs_of ms rs = replicate (length (packets_of ms) - 1) None ++ [Some (reassembled first)].
Proof.
  intros Hnum HN Hfirst. revert got n d. induction ms as [|[now m] ms IH]; intros got n d Hh Hall Hn Hperm Hne; [done|].
  apply Forall_cons in Hall as [(Hnow & Ht & Hr) Hall]. cbn [packets_of outputs_of fst snd length] in *.
  case_decide as Hk.
  - pose proof (Permutation_length Hperm) as Hlen. rewrite length_app in Hlen. simpl in Hlen.
    assert (Hnd : NoDup (got ++ m :: packets_of ms)) by (rewrite Hperm; by apply numbered_NoDup).
    assert (m ∉ got) as Hm by (apply NoDup_app in Hnd as (_ & Hdis & _); intros Hin; eapply Hdis; [exact Hin|left]).
    assert (Hin : m ∈ fs) by (rewrite <- Hperm; set_solver). apply list_elem_of_lookup_1 in Hin as [i Hi].
    pose proof (Feed_next now i m d got n Hnum HN Hi Hm ltac:(lia) Hnow Ht Hh) as Hstep.
    rewrite <- Permutation_middle in Hperm. case_decide as E.
    + assert (packets_of ms = []) as Hnil by (destruct (packets_of ms); [done|simpl in Hlen; lia]).
      rewrite Hnil, app_nil_r in Hperm. destruct Hstep as (first' & d1 & Hf' & HF & Hd1).
      { intros x Hx. by rewrite Hperm. }
      assert (first' = first) as -> by congruence. destruct (feed_all_rest ms d1 Hd1 Hall Hnil) as (rs & d' & HA & Ho).
      exists (Some (reassembled first) :: rs), d'. rewrite (feed_all_cons _ _ _ _ _ _ _ _ HF HA). cbn [outputs_of].
      split; [done|]. by rewrite Ho, Hnil.
    + destruct Hstep as (d1 & HF & Hh1). destruct (IH (m :: got) 0 d1 Hh1 Hall ltac:(lia) Hperm) as (rs & d' & HA & Ho).
      { intros E0. rewrite E0 in Hlen. simpl in Hlen. lia. }
      exists (None :: rs), d'. rewrite (feed_all_cons _ _ _ _ _ _ _ _ HF HA). cbn [outputs_of]. split; [done|].
      rewrite Ho. destruct (packets_of ms); [simpl in Hlen; lia|].
      cbn [length Nat.sub]. by rewrite !Nat.sub_0_r.
  - destruct (holding_other now m d got n Hh Hr Hk ltac:(lia) ltac:(lia)) as (r & d1 & HF & Hh1).
    destruct (IH got (S n) d1 Hh1 Hall ltac:(lia) Hperm Hne) as (rs & d' & HA & Ho).
    exists (r :: rs), d'. rewrite (feed_all_cons _ _ _ _ _ _ _ _ HF HA). done.
Qed.

Lemma feed_all_absent first ms d : numbered → 2 ≤ length fs ≤ 255 → fs !! 0 = Some first →
  absent d → Forall timely ms → length ms < 1024 → packets_of ms ≡ₚ fs →
  ∃ rs d', feed_all ms d = Ok (rs, d')
    ∧ outputs_of ms rs = replicate (length fs - 1) None ++ [Some (reassembled first)].
Proof.
  intros Hnum HN Hfirst. revert d. induction ms as [|[now m] ms IH]; intros d Ha Hall Hn Hperm.
  { apply Permutation_length in Hperm. simpl in Hperm. lia. }
  apply Forall_cons in Hall as [(Hnow & Ht & Hr) Hall]. cbn [packets_of outputs_of fst snd length] in *.
  case_decide as Hk.
  - assert (Hin : m ∈ fs) by (rewrite <- Hperm; left). apply list_elem_of_lookup_1 in Hin as [i Hi].
    destruct (Feed_first now i m d Hnum HN Hi Hnow Ht Ha) as (d1 & HF & Hh).
    pose proof (Permutation_length Hperm) as Hlen. cbn [length] in Hlen.
    destruct (feed_all_holding first ms [m] 0 d1 Hnum HN Hfirst Hh Hall ltac:(lia)) as (rs & d' & HA & Ho); [done| |].
    { intros E0. rewrite E0 in Hlen. simpl in Hlen. lia. }
    exists (None :: rs), d'. rewrite (feed_all_cons _ _ _ _ _ _ _ _ HF HA). cbn [outputs_of]. split; [done|].
    rewrite Ho, <- Hlen. destruct (packets_of ms); [simpl in Hlen; lia|].
    cbn [length Nat.sub]. by rewrite !Nat.sub_0_r.
  - destruct (absent_other now m d Ha Hr Hk) as (r & d1 & HF & Ha1).
    destruct (IH d1 Ha1 Hall ltac:(lia) Hperm) as (rs & d' & HA & Ho).
    exists (r :: rs), d'. rewrite (feed_all_cons _ _ _ _ _ _ _ _ HF HA). done.
Qed.
End reassembly.

Section end_to_end.
Context `{GenericList}.

(** A packet that is not split passes through. *)
Lemma feed_all_single k t ms m d : d_ok d → Forall (timely t) ms → packets_of k ms = [m] → FRAG_TOTAL m = 1%Z →
  ∃ rs d', feed_all ms d = Ok (rs, d') ∧ outputs_of k ms rs = [Some m].
Proof.
  intros Hd Hall Hk Htot. revert d Hd. induction ms as [|[now x] ms IH]; intros d Hd; [done|].
  apply Forall_cons in Hall as [Hx Hall]. cbn [packets_of] in Hk. case_decide as E.
  - injection Hk as -> Hk. destruct (feed_all_rest k t ms d Hd Hall Hk) as (rs & d' & HA & Ho).
    assert (HF : Feed now m d = Ok (Some m, d)) by (unfold Feed; by rewrite Htot).
    exists (Some m :: rs), d'. rewrite (feed_all_cons _ _ _ _ _ _ _ _ HF HA). split; [done|].
    cbn [outputs_of]. by rewrite decide_True, Ho.
  - destruct (Feed_ok now x d Hd (proj2 (proj2 Hx))) as (r & d1 & HF & Hd1).
    destruct (IH Hall Hk d1 Hd1) as (rs & d' & HA & Ho).
    exists (r :: rs), d'. rewrite (feed_all_cons _ _ _ _ _ _ _ _ HF HA). split; [done|].
    cbn [outputs_of]. by rewrite decide_False.
Qed.

(** A fragment as it is read from its datagram. *)
Definition received (f : Packet) : Packet :=
  MkPacket (p_head f) (ASSOC_ID f) (PKT_ID f) (FRAG_TOTAL f) (FRAG_ID f) (SIZE f) (on_wire (p_ADDR f)) (DATA f).

Lemma received_first p n c : on_wire (p_ADDR p) = p_ADDR p →
  received (fragment p n 0 c)
  = MkPacket (p_head p) (ASSOC_ID p) (PKT_ID p) (Z.of_nat n) 0 (Z.of_nat (length c)) (p_ADDR p) c.
Proof. intros Hw. unfold received. cbn [fragment p_ADDR p_head ASSOC_ID PKT_ID FRAG_TOTAL FRAG_ID SIZE DATA]. by rewrite decide_True, Hw. Qed.

Definition sendable (p : Packet) (s : nat) : Prop :=
  h_TYPE (p_head p) = PacketType ∧ (0 ≤ ASSOC_ID p < 65536)%Z ∧ (0 ≤ PKT_ID p < 65536)%Z
  ∧ wf_address (p_ADDR p) ∧ (Z.of_nat (length (DATA p)) < 65536)%Z
  ∧ 0 < s ∧ length (chunks s (DATA p)) ≤ 255.

Lemma lookup_fragments s p i f : fragments s p !! i = Some f →
  ∃ chunk, chunks s (DATA p) !! i = Some chunk ∧ f = fragment p (length (chunks s (DATA p))) i chunk.
Proof.
  unfold fragments. rewrite list_lookup_imap. intros (chunk & Hc & ->)%fmap_Some. eauto.
Qed.

Lemma ReadPacket_fragment s p i f : sendable p s → fragments s p !! i = Some f →
  ReadPacket (Packet_WriteTo f) = Ok (received f, []).
Proof.
  intros (Ht & Ha & Hp & Hwf & Hlen & Hs & Hn) Hf. apply lookup_fragments in Hf as (chunk & Hc & ->).
  pose proof (lookup_lt_Some _ _ _ Hc).
  assert (length chunk ≤ length (DATA p)) as Hchunk
    by (pose proof (chunks_fuel_small (length (DATA p)) s (DATA p)) as HF; eapply Forall_lookup_1 in HF; [|exact Hc]; lia).
  rewrite <- (app_nil_r (Packet_WriteTo _)). destruct Hwf as (Hb & Hport & _).
  apply ReadPacket_WriteTo.
  - split; cbn [fragment p_head ASSOC_ID PKT_ID FRAG_TOTAL FRAG_ID SIZE DATA]; done || lia.
  - cbn [fragment p_ADDR]. case_decide; [by left|by right].
  - cbn [fragment p_ADDR]. by case_decide.
Qed.

Lemma arrived_received s p arrived : sendable p s →
  Forall2 (λ dg m, ReadPacket dg = Ok (m, [])) (Packet_WriteTo <$> fragments s p) arrived →
  arrived = received <$> fragments s p.
Proof.
  intros Hp HF. apply list_eq_same_length with (length arrived); [|done|].
  - apply Forall2_length in HF. rewrite length_fmap in HF. by rewrite length_fmap.
  - intros i m m' Hi Hm Hm'. rewrite list_lookup_fmap in Hm'. apply fmap_Some in Hm' as (f & Hf & ->).
    eapply Forall2_lookup_r in HF as (dg & Hdg & HR); [|exact Hm]. rewrite list_lookup_fmap, Hf in Hdg.
    simpl in Hdg. injection Hdg as <-. rewrite (ReadPacket_fragment s p i f Hp Hf) in HR. congruence.
Qed.

Lemma fragments_data s p : 0 < s → concat (DATA <$> (received <$> fragments s p)) = DATA p.
Proof.
  intros Hs. transitivity (concat (chunks s (DATA p))); [|by apply chunks_concat]. f_equal. unfold fragments.
  apply list_eq. intros i. rewrite !list_lookup_fmap, list_lookup_imap.
  by destruct (chunks s (DATA p) !! i).
Qed.

Lemma length_fragments s p : length (fragments s p) = length (chunks s (DATA p)).
Proof. apply length_imap. Qed.
End end_to_end.

(** C35: Fragmentation is transparent. Cut a packet into the datagrams
    [fragWriteNative] sends, let them arrive in any order and interleaved with
    any other packets within ten seconds (fewer than 1,024 packets in all, and
    no fragment of an older packet with the same id is still held): every call
    for the packet before the last returns nothing, and the last one returns
    the packet that was sent, unchanged. *)
Theorem tuic_fragments_reassemble `{GenericList} (assoc pkt : Z) (addr : Address) (data : str) (s : nat)
    (arrived : list Packet) (d : deFragger) (t : Z) (ms : list (Z * Packet)) :
  let p := NewPacket assoc pkt 1 0 (Z.of_nat (length data)) addr data in
  sendable p s → data ≠ [] → a_TYPE addr ≠ AtypNone →
  Forall2 (λ dg m, ReadPacket dg = Ok (m, [])) (Packet_WriteTo <$> fragments s p) arrived →
  absent pkt d → Forall (timely t) ms → length ms < 1024 → packets_of pkt ms ≡ₚ arrived →
  ∃ rs d', feed_all ms d = Ok (rs, d')
    ∧ outputs_of pkt ms rs = replicate (length arrived - 1) None ++ [Some p].
Proof.
  intros p Hsend Hdata Htype Harr Habs Hall Hlen Hperm.
  pose proof (arrived_received s p arrived Hsend Harr) as ->. clear Harr.
  pose proof Hsend as (_ & _ & _ & Hwf & Hdl & Hs & Hn). cbn [p NewPacket DATA p_ADDR] in *.
  assert (Hwire : on_wire addr = addr) by (unfold on_wire; by rewrite decide_False).
  assert (Hnum : numbered pkt (received <$> fragments s p)).
  { intros i m Hm. rewrite list_lookup_fmap in Hm. apply fmap_Some in Hm as (f & Hf & ->).
    apply lookup_fragments in Hf as (chunk & _ & ->). rewrite length_fmap, length_fragments. done. }
  assert (Hnonempty : 1 ≤ length (chunks s data)).
  { destruct (chunks s data) eqn:E; [|simpl; lia]. exfalso. apply Hdata. by rewrite <- (chunks_concat s data Hs), E. }
  assert (Hl : length (received <$> fragments s p) = length (chunks s data)) by by rewrite length_fmap, length_fragments.
  destruct (lookup_lt_is_Some_2 (chunks s data) 0 Hnonempty) as [c0 Hc0].
  assert (Hfirst : (received <$> fragments s p) !! 0 = Some (received (fragment p (length (chunks s data)) 0 c0))).
  { rewrite list_lookup_fmap. unfold fragments. rewrite list_lookup_imap. cbn [p NewPacket DATA]. by rewrite Hc0. }
  destruct (decide (length (chunks s data) = 1)) as [H1|H1].
  - destruct (chunks s data) as [|c [|]] eqn:Ec; [done| |done]. injection Hc0 as ->.
    assert (c0 = data) as -> by (rewrite <- (chunks_concat s data Hs), Ec; simpl; by rewrite app_nil_r).
    destruct (received <$> fragments s p) as [|m [|]] eqn:Er; [done| |done]. injection Hfirst as ->.
    apply Permutation_singleton_r in Hperm.
    destruct (feed_all_single pkt t ms _ d (proj1 Habs) Hall Hperm) as (rs & d' & HA & Ho); [done|].
    exists rs, d'. split; [done|]. rewrite Ho. cbn [length replicate Nat.sub app]. by rewrite received_first.
  - destruct (feed_all_absent pkt t (received <$> fragments s p) _ ms d Hnum ltac:(lia) Hfirst Habs Hall Hlen Hperm)
      as (rs & d' & HA & Ho). exists rs, d'. split; [done|]. rewrite Ho. do 3 f_equal.
    unfold reassembled. rewrite fragments_data by done. cbn [p NewPacket DATA].
    rewrite wrap_id by (try done; apply in_uint16; lia). by rewrite received_first.
Qed.

(** A packet in three fragments, received in reverse order with a packet of
    another id in between. *)
Definition sample_packet : Packet :=
  NewPacket 7 9 1 0 5 (MkAddress AtypIPv4 [byte_of 1; byte_of 2; byte_of 3; byte_of 4] 53) (lit "hello").
Definition sample_arrived : list Packet := received <$> fragments 2 sample_packet.
Definition sample_other : Packet :=
  NewPacket 7 10 2 1 1 (MkAddress AtypNone [] 0) (lit "x").
Definition sample_schedule : list (Z * Packet) :=
  (1000%Z, sample_other) :: (pair 1001%Z <$> reverse sample_arrived).

Lemma tuic_fragments_reassemble_witness :
  ∃ rs d', feed_all (H := plain_list) sample_schedule empty_deFragger = Ok (rs, d')
    ∧ outputs_of 9 sample_schedule rs = [None; None; Some sample_packet].
Proof.
  apply (tuic_fragments_reassemble (H := plain_list) 7 9
           (MkAddress AtypIPv4 [byte_of 1; byte_of 2; byte_of 3; byte_of 4] 53) (lit "hello") 2 sample_arrived
           empty_deFragger 1008).
  - split_and!; vm_compute; try done; try lia.
  - done.
  - done.
  - repeat constructor; reflexivity.
  - split; [apply empty_deFragger_ok|]. vm_compute. apply not_elem_of_nil.
  - repeat constructor; vm_compute; done.
  - vm_compute. lia.
  - replace (packets_of 9 sample_schedule) with (reverse sample_arrived) by (vm_compute; reflexivity).
    apply reverse_Permutation.
Defined.

Lemma feed_all_ok `{GenericList} (ms : list (Z * Packet)) (d : deFragger) : d_ok d →
  Forall (λ x, frag_range x.2) ms → ∃ rs d', feed_all ms d = Ok (rs, d') ∧ length rs = length ms ∧ d_ok d'.
Proof.
  revert d. induction ms as [|[now m] ms IH]; intros d Hd Hall; [by eexists [], d|].
  apply Forall_cons in Hall as [Hr Hall]. destruct (Feed_ok now m d Hd Hr) as (r & d1 & HF & Hd1).
  destruct (IH d1 Hd1 Hall) as (rs & d' & HA & Hl & Hd'). exists (r :: rs), d'.
  rewrite (feed_all_cons _ _ _ _ _ _ _ _ HF HA). split_and!; [done|simpl; lia|done].
Qed.

(** C39: Whatever a peer sends, reassembly does not panic: for any sequence of
    packets read off the wire, fed at any times to a new reassembler, every
    call returns, and the state keeps its invariant (every bag counts the
    fragments it holds and misses at least one, the bags in the cache are
    pairwise distinct). *)
Theorem Feed_never_panics `{GenericList} (ms : list (Z * Packet)) :
  Forall (λ x, ∃ bytes rest, ReadPacket bytes = Ok (x.2, rest)) ms →
  ∃ rs d', feed_all ms empty_deFragger = Ok (rs, d') ∧ length rs = length ms ∧ d_ok d'.
Proof.
  intros Hall. apply feed_all_ok; [apply empty_deFragger_ok|]. eapply Forall_impl; [exact Hall|].
  intros [now m] (bytes & rest & HR). apply ReadPacket_Ok in HR as ([_ _ _ Ht Hf _ _] & _). split; simpl in *; lia.
Qed.

Lemma Feed_never_panics_witness :
  ∃ rs d', feed_all (H := plain_list) (pair 5%Z <$> sample_arrived) empty_deFragger = Ok (rs, d')
    ∧ length rs = 3 ∧ d_ok d'.
Proof.
  replace 3 with (length (pair 5%Z <$> sample_arrived)) by (vm_compute; reflexivity).
  apply (Feed_never_panics (H := plain_list) (pair 5%Z <$> sample_arrived)).
  apply Forall_forall. intros x Hx. apply list_elem_of_fmap in Hx as (m & -> & Hm).
  exists (Packet_WriteTo m), []. revert m Hm. apply Forall_forall. repeat constructor; vm_compute; reflexivity.
Defined.

Lemma fragWriteNative_sends_witness :
  fragWriteNative (H := {| quic_conn := list str; SendDatagram := λ dg c, (None, c ++ [dg]) |}) sample_packet 2 []
  = (None, Packet_WriteTo <$> fragments 2 sample_packet).
Proof.
  apply (fragWriteNative_sends (H := {| quic_conn := list str; SendDatagram := λ dg c, (None, c ++ [dg]) |})
           sample_packet 2 []); vm_compute; done.
Defined.
