(* ===== verification/TuicServer.v ===== *)
(** * TuicServer: the connection handler of the TUIC v5 server

    [src/transport/tuic/v5/server.go]: a QUIC connection carries datagrams,
    unidirectional streams and bidirectional streams, each handled by a
    goroutine of its own. One [authenticate] command (or the timeout) decides,
    once, whether the peer is a user; the goroutines that carry traffic block
    on [authCh] until then.

    The handlers are functions from the bytes received to a [task], the rest of
    the goroutine from the point where it blocks or where another goroutine can
    change what it reads next; [step] interleaves them in any order. The store
    of UDP inputs holds the heap objects ([*serverUDPInput]) that
    [udpInputMap] points to, which goroutines keep across a deletion.

    Parameters: [ExportKeyingMaterial] of the TLS connection, [String] of
    [gofrs/uuid], and the callbacks, of which only the error matters here. A
    Go panic in a goroutine ends the process: [Crashed]. *)
From S2P Require Import Prelude Bytes NetIP Lru TuicProtocol TuicFrag.

(** What the handler does to the outside. *)
Inductive effect :=
| HandleTcp (addr user : str)
| HandleUdp (addr data user : str)
| CloseWithError (code : Z)
| CloseConn.

Definition AuthenticationFailed : Z := 4294967281. (* 0xfffffff1 *)
Definition AuthenticationTimeout : Z := 4294967282. (* 0xfffffff2 *)

Record serverUDPInput `{GenericList} := MkInput { writeClosed : bool; i_deFragger : deFragger }.

Record serverHandler `{GenericList} := MkServer {
  authDone : bool;              (* [authOnce] was used and [authCh] closed *)
  authOk : bool;
  authUUID : str;
  udpInputMap : gmap Z nat;
  inputs : list serverUDPInput  (* the store *)
}.
Arguments MkInput {_} _ _.
Arguments MkServer {_} _ _ _ _ _.

(** The rest of a goroutine. *)
Inductive task :=
| TPacket (p : Packet)              (* parsePacket, before [<-s.authCh] *)
| TInput (p : Packet) (input : nat) (* after [LoadOrStoreFn] *)
| TStream (addr : str).             (* HandleStream, before [<-s.authCh] *)

Section server.
Context `{GenericList}.
Context (ExportKeyingMaterial : str → str → Z → string + str) (uuid_String : str → str).
Context (HandleTcpFn : str → str → option string).
Context (Users : gmap str str).

Definition NewServerHandler : serverHandler := MkServer false false [] ∅ [].

(** [s.authOnce.Do(...)] with the result of the decision and its effects. *)
Definition decide_auth (ok : bool) (user : option str) (effs : list effect) (s : serverHandler)
    : serverHandler * list effect :=
  if authDone s then (s, [])
  else (MkServer true ok (match user with Some u => u | None => authUUID s end) (udpInputMap s) (inputs s), effs).

Definition HandleTimeout (s : serverHandler) : serverHandler * list effect :=
  decide_auth false None [CloseWithError AuthenticationTimeout] s.

Definition HandleMessage (message : str) : result (list task) :=
  '(commandHead, reader) ← ReadCommandHead message;
  if decide (h_TYPE commandHead = PacketType) then
    '(packet, _) ← ReadPacketWithHead commandHead reader; Ok [TPacket packet]
  else if decide (h_TYPE commandHead = HeartbeatType) then
    '(_, _) ← ReadHeartbeatWithHead commandHead reader; Ok []
  else Ok [].

(** The check of an authenticate command: the user it proves, if any. *)
Definition check_auth (a : Authenticate) : result (option str) :=
  match Users !! au_UUID a with
  | Some password =>
    token ← GenToken ExportKeyingMaterial (au_UUID a) password;
    Ok (if decide (token = au_TOKEN a) then Some (au_UUID a) else None)
  | None => Ok None
  end.

Definition zero_uuid : str := replicate 16 (byte_of 0).

Definition HandleUniStream (reader : str) (s : serverHandler)
    : result (serverHandler * list task * list effect) :=
  '(commandHead, reader) ← ReadCommandHead reader;
  if decide (h_TYPE commandHead = AuthenticateType) then
    '(authenticate, _) ← ReadAuthenticateWithHead commandHead reader;
    proved ← check_auth authenticate;
    let '(s, effs) :=
      match proved with
      | Some u => decide_auth true (Some (uuid_String u)) [] s
      | None => decide_auth false (Some (uuid_String zero_uuid)) [CloseWithError AuthenticationFailed] s
      end in
    Ok (s, [], effs)
  else if decide (h_TYPE commandHead = PacketType) then
    '(packet, _) ← ReadPacketWithHead commandHead reader; Ok (s, [TPacket packet], [])
  else if decide (h_TYPE commandHead = DissociateType) then
    '(dissociate, _) ← ReadDissociateWithHead commandHead reader;
    let assoc := di_ASSOC_ID dissociate in
    Ok (match udpInputMap s !! assoc with
        | Some i =>
          MkServer (authDone s) (authOk s) (authUUID s) (delete assoc (udpInputMap s))
            (alter (λ inp, MkInput true (i_deFragger inp)) i (inputs s))
        | None => s
        end, [], [])
  else Ok (s, [], []).

Definition HandleStream (reader : str) : result (list task * list effect) :=
  match ReadConnect reader with
  | Ok (connect, _) => Ok ([TStream (Address_SocksAddr (co_ADDR connect))], [])
  | Err _ => Ok ([], [CloseConn])
  | Panic => Panic
  end.

(** One step of a goroutine; [None]: it is blocked on [authCh]. *)
Definition run_task (now : Z) (tk : task) (s : serverHandler)
    : result (option (serverHandler * list task * list effect)) :=
  match tk with
  | TStream addr =>
    if negb (authDone s) then Ok None
    else if negb (authOk s) then Ok (Some (s, [], [CloseConn]))
    else Ok (Some (s, [], HandleTcp addr (authUUID s)
                          :: match HandleTcpFn addr (authUUID s) with Some _ => [CloseConn] | None => [] end))
  | TPacket p =>
    if negb (authDone s) then Ok None
    else if negb (authOk s) then Ok (Some (s, [], []))
    else
      match udpInputMap s !! ASSOC_ID p with
      | Some i => Ok (Some (s, [TInput p i], []))
      | None =>
        let i := length (inputs s) in
        Ok (Some (MkServer (authDone s) (authOk s) (authUUID s) (<[ASSOC_ID p := i]> (udpInputMap s))
                    (inputs s ++ [MkInput false empty_deFragger]), [TInput p i], []))
      end
  | TInput p i =>
    match inputs s !! i with
    | None => Panic
    | Some input =>
      if writeClosed input then Ok (Some (s, [], []))
      else
        '(packetPtr, d) ← Feed now p (i_deFragger input);
        let s := MkServer (authDone s) (authOk s) (authUUID s) (udpInputMap s)
                   (<[i := MkInput (writeClosed input) d]> (inputs s)) in
        Ok (Some (s, [], match packetPtr with
                         | Some q => [HandleUdp (Address_SocksAddr (p_ADDR q)) (DATA q) (authUUID s)]
                         | None => []
                         end))
    end
  end.

(** ** The interleavings *)

(** The goroutines that are running and the effects so far, latest last. *)
Inductive config :=
| Running (s : serverHandler) (tasks : list task) (log : list effect)
| Crashed.

(** What happens next: bytes arrive, the timer fires, or a goroutine runs. *)
Inductive event :=
| EMessage (message : str)
| EUniStream (bytes : str)
| EStream (bytes : str)
| ETimeout
| ERun (now : Z).

Inductive step : config → event → config → Prop :=
| step_message msg s ts log ts' :
    HandleMessage msg = Ok ts' → step (Running s ts log) (EMessage msg) (Running s (ts ++ ts') log)
| step_message_error msg s ts log err :
    HandleMessage msg = Err err → step (Running s ts log) (EMessage msg) (Running s ts log)
| step_message_panic msg s ts log :
    HandleMessage msg = Panic → step (Running s ts log) (EMessage msg) Crashed
| step_uni r s ts log s' ts' effs :
    HandleUniStream r s = Ok (s', ts', effs) →
    step (Running s ts log) (EUniStream r) (Running s' (ts ++ ts') (log ++ effs))
| step_uni_error r s ts log err :
    HandleUniStream r s = Err err → step (Running s ts log) (EUniStream r) (Running s ts log)
| step_uni_panic r s ts log :
    HandleUniStream r s = Panic → step (Running s ts log) (EUniStream r) Crashed
| step_stream r s ts log ts' effs :
    HandleStream r = Ok (ts', effs) →
    step (Running s ts log) (EStream r) (Running s (ts ++ ts') (log ++ effs))
| step_stream_panic r s ts log :
    HandleStream r = Panic → step (Running s ts log) (EStream r) Crashed
| step_timeout s ts log s' effs :
    HandleTimeout s = (s', effs) → step (Running s ts log) ETimeout (Running s' ts (log ++ effs))
| step_task now s ts1 tk ts2 log s' ts' effs :
    run_task now tk s = Ok (Some (s', ts', effs)) →
    step (Running s (ts1 ++ tk :: ts2) log) (ERun now) (Running s' (ts1 ++ ts' ++ ts2) (log ++ effs))
| step_task_panic now s ts1 tk ts2 log :
    run_task now tk s = Panic → step (Running s (ts1 ++ tk :: ts2) log) (ERun now) Crashed.

Definition initial : config := Running NewServerHandler [] [].

(** A history, latest event last. *)
Inductive steps : config → list event → config → Prop :=
| steps_nil c : steps c [] c
| steps_snoc c evs c' e c'' : steps c evs c' → step c' e c'' → steps c (evs ++ [e]) c''.

(** ** The invariant *)

(** The bytes of an authenticate command that proves [user]. *)
Definition proves (bytes user : str) : Prop :=
  ∃ a rest password, bytes = Authenticate_WriteTo a ++ rest
    ∧ h_TYPE (au_head a) = AuthenticateType ∧ length (au_UUID a) = 16 ∧ length (au_TOKEN a) = 32
    ∧ Users !! au_UUID a = Some password
    ∧ GenToken ExportKeyingMaterial (au_UUID a) password = Ok (au_TOKEN a)
    ∧ user = uuid_String (au_UUID a).

(** The user that traffic was delivered for. *)
Definition delivered_for (e : effect) : option str :=
  match e with HandleTcp _ u => Some u | HandleUdp _ _ u => Some u | _ => None end.

Definition task_ok (s : serverHandler) (tk : task) : Prop :=
  match tk with
  | TPacket p => frag_range p
  | TInput p i => frag_range p ∧ i < length (inputs s) ∧ authDone s = true ∧ authOk s = true
  | TStream _ => True
  end.

Record server_ok (evs : list event) (s : serverHandler) (ts : list task) (log : list effect) : Prop := {
  so_undecided : authDone s = false → authOk s = false;
  so_auth : authOk s = true → ∃ r, EUniStream r ∈ evs ∧ proves r (authUUID s);
  so_log : ∀ e u, e ∈ log → delivered_for e = Some u → authOk s = true ∧ u = authUUID s;
  so_map : map_Forall (λ _ i, i < length (inputs s)) (udpInputMap s);
  so_inputs : Forall (λ inp, d_ok (i_deFragger inp)) (inputs s);
  so_tasks : Forall (task_ok s) ts
}.

(** What only grows: the inputs, and the decision once it is taken. *)
Definition extends (s s' : serverHandler) : Prop :=
  length (inputs s) ≤ length (inputs s')
  ∧ (authDone s = true → authDone s' = true ∧ authOk s' = authOk s ∧ authUUID s' = authUUID s).

Lemma task_ok_mono s s' tk : extends s s' → task_ok s tk → task_ok s' tk.
Proof.
  intros [Hl Hd]. destruct tk as [p|p i|a]; [done| |done]. intros (Hr & Hi & H1 & H2).
  destruct (Hd H1) as (E1 & E2 & _). simpl. split_and!; [done|lia|done|congruence].
Qed.

Lemma decide_auth_extends ok u effs s : extends s (decide_auth ok u effs s).1.
Proof. unfold decide_auth. destruct (authDone s) eqn:E; simpl; (split; [done|]); [done|congruence]. Qed.

(** Taking the decision keeps the invariant when the user was proved. *)
Lemma decide_auth_ok ok user effs evs s ts log : server_ok evs s ts log →
  (∀ e, e ∈ effs → delivered_for e = None) →
  (ok = true → ∃ u r, user = Some u ∧ EUniStream r ∈ evs ∧ proves r u) →
  server_ok evs (decide_auth ok user effs s).1 ts (log ++ (decide_auth ok user effs s).2).
Proof.
  intros [H1 H2 H3 H4 H5 H6] Heffs Hok. pose proof (decide_auth_extends ok user effs s) as Hext.
  unfold decide_auth in *. destruct (authDone s) eqn:E; cbn [fst snd] in *.
  - rewrite app_nil_r. split; rewrite ?E; done.
  - split; cbn [authDone authOk authUUID udpInputMap inputs]; [done| | |done|done|].
    + intros ->. destruct Hok as (u & r & -> & Hr); eauto.
    + intros e u [He|He]%elem_of_app Hu; [|rewrite Heffs in Hu by done; done].
      destruct (H3 e u He Hu) as [Ht _]. rewrite H1 in Ht; done.
    + eapply Forall_impl; [exact H6|]. intros tk. by apply task_ok_mono.
Qed.

Lemma server_ok_events evs evs' s ts log : (∀ e, e ∈ evs → e ∈ evs') → server_ok evs s ts log → server_ok evs' s ts log.
Proof.
  intros Hsub [H1 H2 H3 H4 H5 H6]. split; try done. intros Ha. destruct (H2 Ha) as (r & Hr & Hp). eauto.
Qed.

Lemma server_ok_tasks evs s ts ts' log effs : server_ok evs s ts log → Forall (task_ok s) ts' →
  (∀ e, e ∈ effs → delivered_for e = None) → server_ok evs s (ts ++ ts') (log ++ effs).
Proof.
  intros [H1 H2 H3 H4 H5 H6] Hts Heffs. split; try done.
  - intros e u [He|He]%elem_of_app Hu; [eauto|]. rewrite Heffs in Hu by done. done.
  - by apply Forall_app.
Qed.

Lemma packet_frag_range head r p r' : ReadPacketWithHead head r = Ok (p, r') → frag_range p.
Proof.
  intros HR. destruct (ReadPacket_Ok (CommandHead_WriteTo head ++ r) p r') as ([_ _ _ Ht Hf _ _] & _).
  - unfold ReadPacket. by rewrite (ReadCommandHead_bind ReadPacketWithHead).
  - split; lia.
Qed.

Lemma HandleMessage_tasks msg ts s : HandleMessage msg = Ok ts → Forall (task_ok s) ts.
Proof.
  unfold HandleMessage. intros ([head r] & _ & HM)%result_bind_Ok. repeat case_decide; simplify_eq; [| |constructor].
  - apply result_bind_Ok in HM as ([p r'] & HP & HM). simplify_eq. constructor; [|constructor].
    by eapply packet_frag_range.
  - apply result_bind_Ok in HM as ([p r'] & HP & HM). simplify_eq. constructor.
Qed.

Lemma HandleStream_tasks r ts effs s : HandleStream r = Ok (ts, effs) →
  Forall (task_ok s) ts ∧ ∀ e, e ∈ effs → delivered_for e = None.
Proof.
  unfold HandleStream. intros HS. destruct (ReadConnect r) as [[c r']|err|]; simplify_eq.
  - split; [by repeat constructor|set_solver].
  - split; [constructor|]. intros e ->%list_elem_of_singleton. done.
Qed.

(** An accepted authenticate command proves the user. *)
Lemma check_auth_proves head r a rest u : h_TYPE head = AuthenticateType →
  ReadAuthenticateWithHead head r = Ok (a, rest) → check_auth a = Ok (Some u) →
  proves (CommandHead_WriteTo head ++ r) (uuid_String u).
Proof.
  intros Ht HR Hc. destruct (proj1 (ReadAuthenticate_iff (CommandHead_WriteTo head ++ r) a rest)) as (H1 & H2 & H3 & ->).
  { unfold ReadAuthenticate. by rewrite (ReadCommandHead_bind ReadAuthenticateWithHead). }
  unfold check_auth in Hc. destruct (Users !! au_UUID a) as [password|] eqn:E; [|done].
  apply result_bind_Ok in Hc as (token & HG & Hc). case_decide as Htok; simplify_eq.
  exists a, rest, password. split_and!; try done.
Qed.

Lemma HandleUniStream_ok r evs s ts log s' ts' effs : server_ok evs s ts log →
  HandleUniStream r s = Ok (s', ts', effs) → server_ok (evs ++ [EUniStream r]) s' (ts ++ ts') (log ++ effs).
Proof.
  clear HandleTcpFn. intros Hok HU. assert (Hok' : server_ok (evs ++ [EUniStream r]) s ts log)
    by (eapply server_ok_events; [|exact Hok]; set_solver). clear Hok.
  unfold HandleUniStream in HU. apply result_bind_Ok in HU as ([head r1] & Hh & HU).
  apply ReadCommandHead_Ok in Hh as ->.
  repeat case_decide.
  - apply result_bind_Ok in HU as ([a rest] & HA & HU). apply result_bind_Ok in HU as (proved & Hc & HU).
    destruct proved as [u|].
    + pose proof (decide_auth_ok true (Some (uuid_String u)) [] _ s ts log Hok') as HD.
      destruct (decide_auth true _ _ s) as [s1 effs1]. simplify_eq. rewrite app_nil_r. apply HD; [set_solver|].
      intros _. eexists _, _. split; [done|]. split; [apply elem_of_app; right; by left|].
      by eapply check_auth_proves.
    + pose proof (decide_auth_ok false (Some (uuid_String zero_uuid)) [CloseWithError AuthenticationFailed] _ s ts log Hok') as HD.
      destruct (decide_auth false _ _ s) as [s1 effs1]. simplify_eq. rewrite app_nil_r. apply HD; [|done].
      by intros e ->%list_elem_of_singleton.
  - apply result_bind_Ok in HU as ([p r'] & HP & HU). simplify_eq.
    apply server_ok_tasks; [done| |set_solver]. constructor; [|constructor]. by eapply packet_frag_range.
  - apply result_bind_Ok in HU as ([c r'] & HP & HU). injection HU as <- <- <-. rewrite !app_nil_r.
    destruct (udpInputMap s !! di_ASSOC_ID c) as [i|] eqn:Hi; [|done].
    destruct Hok' as [K1 K2 K3 K4 K5 K6]. split; cbn [authDone authOk authUUID udpInputMap inputs]; try done.
    + rewrite length_alter. by apply map_Forall_delete.
    + apply Forall_alter; [done|]. intros inp _ ?. done.
    + eapply Forall_impl; [exact K6|]. intros tk. apply task_ok_mono. split; cbn; [by rewrite length_alter|done].
  - simplify_eq. by rewrite !app_nil_r.
Qed.

(** A step of a goroutine. *)
Lemma run_task_ok now evs s ts1 tk ts2 log : server_ok evs s (ts1 ++ tk :: ts2) log →
  match run_task now tk s with
  | Ok (Some (s', ts', effs)) => server_ok evs s' (ts1 ++ ts' ++ ts2) (log ++ effs)
  | Ok None => True
  | Err _ => False
  | Panic => False
  end.
Proof.
  intros [K1 K2 K3 K4 K5 K6]. pose proof K6 as Hall. apply Forall_app in Hall as [Hts1 Hts2].
  apply Forall_cons in Hts2 as [Htk Hts2].
  assert (Hrest : Forall (task_ok s) (ts1 ++ ts2)) by by apply Forall_app.
  assert (Hmono : ∀ s', extends s s' → Forall (task_ok s') (ts1 ++ ts2)).
  { intros s' He. eapply Forall_impl; [exact Hrest|]. intros x. by apply task_ok_mono. }
  assert (Hlog : ∀ effs, authOk s = true → (∀ e u, e ∈ effs → delivered_for e = Some u → u = authUUID s) →
    ∀ e u, e ∈ log ++ effs → delivered_for e = Some u → authOk s = true ∧ u = authUUID s).
  { intros effs Ha Heffs e u [He|He]%elem_of_app Hu; [eauto|]. split; [done|]. by eapply Heffs. }
  destruct tk as [p|p i|addr]; cbn [run_task].
  - destruct (authDone s) eqn:Ed; [|done]. destruct (authOk s) eqn:Eo; cbn [negb].
    2: { rewrite app_nil_r. split; rewrite ?Ed, ?Eo; done. }
    destruct (udpInputMap s !! ASSOC_ID p) as [i|] eqn:Ei; rewrite app_nil_r.
    + split; rewrite ?Ed, ?Eo; try done. rewrite Forall_app, Forall_app. split_and!; [done| |done].
      constructor; [|constructor]. simpl. rewrite Ed, Eo. split_and!; try done. by eapply (map_Forall_lookup_1 _ _ _ _ K4).
    + split; cbn [authDone authOk authUUID udpInputMap inputs]; rewrite ?Eo; try done.
      * rewrite length_app. simpl. apply map_Forall_insert_2; [lia|].
        eapply map_Forall_impl; [exact K4|]. simpl. intros. lia.
      * apply Forall_app. split; [done|]. constructor; [apply empty_deFragger_ok|constructor].
      * rewrite Forall_app. specialize (Hmono (MkServer true true (authUUID s) (<[ASSOC_ID p:=length (inputs s)]> (udpInputMap s))
          (inputs s ++ [MkInput false empty_deFragger]))). rewrite Forall_app in Hmono.
        destruct Hmono as [Hm1 Hm2]; [split; cbn; [rewrite length_app; lia|done]|]. split; [done|].
        constructor; [|done]. simpl. rewrite length_app. simpl. split_and!; try done. lia.
  - destruct Htk as (Hr & Hi & Ed & Eo). destruct (lookup_lt_is_Some_2 _ _ Hi) as [inp Hinp]. rewrite Hinp.
    destruct (writeClosed inp); [rewrite app_nil_r; by split|].
    pose proof (Forall_lookup_1 _ _ _ _ K5 Hinp) as Hd.
    destruct (Feed_ok now p (i_deFragger inp) Hd Hr) as (ptr & d' & HF & Hd'). rewrite HF. cbn [mbind result_bind].
    split; cbn [authDone authOk authUUID udpInputMap inputs]; rewrite ?length_insert; try done.
    + apply Hlog; [done|]. intros e u. destruct ptr; [|by intros ?%elem_of_nil].
      intros ->%list_elem_of_singleton. simpl. congruence.
    + by apply Forall_insert.
    + apply Hmono. split; cbn; [by rewrite length_insert|done].
  - destruct (authDone s) eqn:Ed; [|done]. destruct (authOk s) eqn:Eo; cbn [negb]; cbn [app].
    2: { split; rewrite ?Ed, ?Eo; try done. intros e u [He|He]%elem_of_app Hu; [eauto|].
         apply list_elem_of_singleton in He as ->. done. }
    split; rewrite ?Ed, ?Eo; try done. apply Hlog; [done|]. intros e u [->|He]%elem_of_cons; [simpl; congruence|].
    destruct (HandleTcpFn addr (authUUID s)); [|by apply elem_of_nil in He].
    apply list_elem_of_singleton in He as ->. done.
Qed.

(** Every reachable configuration that has not crashed satisfies the
    invariant. *)
Lemma steps_ok evs c : steps initial evs c →
  match c with Running s ts log => server_ok evs s ts log | Crashed => True end.
Proof.
  intros Hsteps. remember initial as c0 eqn:Hc0. induction Hsteps as [c|c evs c' e c'' Hsteps IH Hstep]; subst.
  { split; cbn; try done; set_solver || constructor. }
  specialize (IH eq_refl).
  assert (Hsub : ∀ s ts log, server_ok evs s ts log → server_ok (evs ++ [e]) s ts log)
    by (intros ???; apply server_ok_events; set_solver).
  destruct Hstep as [msg s ts log ts' HM|msg s ts log err HM| |r s ts log s' ts' effs HU|r s ts log err HU|
    |r s ts log ts' effs HS| |s ts log s' effs HT|now s ts1 tk ts2 log s' ts' effs HR|]; try done.
  - rewrite <- (app_nil_r log). apply server_ok_tasks; [by apply Hsub|by eapply HandleMessage_tasks|set_solver].
  - by apply Hsub.
  - by eapply HandleUniStream_ok.
  - by apply Hsub.
  - destruct (HandleStream_tasks r ts' effs s HS) as [Hts Heffs]. apply server_ok_tasks; [by apply Hsub|done|done].
  - unfold HandleTimeout in HT.
    pose proof (decide_auth_ok false None [CloseWithError AuthenticationTimeout] _ s ts log (Hsub _ _ _ IH)) as HD.
    rewrite HT in HD. apply HD; [|done]. by intros x ->%list_elem_of_singleton.
  - pose proof (run_task_ok now evs s ts1 tk ts2 log IH) as Hrun. rewrite HR in Hrun. by apply Hsub.
Qed.

(** *** Crashes *)

(** A packet command, a connect command, whose address is a domain name with
    the length byte 255. *)
Definition packet_255 (b : str) : Prop :=
  ∃ v header rest, length header = 8 ∧ b = v :: PacketType :: header ++ AtypDomainName :: byte_of 255 :: rest.
Definition connect_255 (b : str) : Prop :=
  ∃ v rest, b = v :: ConnectType :: AtypDomainName :: byte_of 255 :: rest.
Definition fatal (e : event) : Prop :=
  match e with EMessage b | EUniStream b => packet_255 b | EStream b => connect_255 b | _ => False end.

Lemma ReadPacketWithHead_panics head r : h_TYPE head = PacketType →
  ReadPacketWithHead head r = Panic ↔
  ∃ header rest, length header = 8 ∧ r = header ++ AtypDomainName :: byte_of 255 :: rest.
Proof.
  intros Ht. unfold ReadPacketWithHead. rewrite bool_decide_true by done. cbn [negb]. split.
  - intros [HP|([header r1] & Hh & HP)]%result_bind_Panic; [by apply read_full_not_panic in HP|].
    apply read_full_iff in Hh as [Hl ->]. apply result_bind_Panic in HP as [HP|([a r2] & _ & HP)].
    + apply ReadAddress_panics in HP as [rest ->]. eauto.
    + apply result_bind_Panic in HP as [HP|([b r3] & _ & HP)]; [by apply read_full_not_panic in HP|done].
  - intros (header & rest & Hl & ->). rewrite read_full_app by done. cbn [mbind result_bind].
    rewrite (proj2 (ReadAddress_panics _)); [done|eauto].
Qed.

Lemma head_cases r : (∃ err, ReadCommandHead r = Err err) ∨
  ∃ v T r1, r = v :: T :: r1 ∧ ReadCommandHead r = Ok (MkHead v T, r1).
Proof. destruct r as [|v [|T r1]]; [left; by eexists..|right]. by exists v, T, r1. Qed.

Lemma packet_255_iff v T r1 : packet_255 (v :: T :: r1) ↔ T = PacketType ∧
  ∃ header rest, length header = 8 ∧ r1 = header ++ AtypDomainName :: byte_of 255 :: rest.
Proof.
  unfold packet_255. split.
  - intros (v' & header & rest & Hl & E). injection E as -> -> ->. eauto.
  - intros (-> & header & rest & Hl & ->). eauto.
Qed.

Lemma bind_Ok_Panic {A B C} (m : result (A * B)) (f : A → B → C) :
  ('(a, b) ← m; Ok (f a b)) = Panic ↔ m = Panic.
Proof. by destruct m as [[a b]| |]. Qed.

Lemma HandleMessage_panics msg : HandleMessage msg = Panic ↔ packet_255 msg.
Proof.
  clear ExportKeyingMaterial uuid_String HandleTcpFn.
  unfold HandleMessage. destruct (head_cases msg) as [[err E]|(v & T & r1 & -> & E)]; rewrite E; cbn [mbind result_bind].
  - split; [done|]. intros (v & header & rest & _ & ->). done.
  - rewrite packet_255_iff. cbn [h_TYPE]. destruct (decide (T = PacketType)) as [->|HT].
    + rewrite <- (ReadPacketWithHead_panics (MkHead v PacketType)) by done. rewrite bind_Ok_Panic. naive_solver.
    + split; [|naive_solver]. case_decide; [|done]. subst. done.
Qed.

Lemma check_auth_not_panic a : check_auth a ≠ Panic.
Proof.
  unfold check_auth, GenToken. destruct (Users !! au_UUID a); [|done]. by destruct (ExportKeyingMaterial _ _ _).
Qed.

Lemma HandleUniStream_panics r s : HandleUniStream r s = Panic ↔ packet_255 r.
Proof.
  clear HandleTcpFn.
  unfold HandleUniStream. destruct (head_cases r) as [[err E]|(v & T & r1 & -> & E)]; rewrite E; cbn [mbind result_bind].
  - split; [done|]. intros (v & header & rest & _ & ->). done.
  - rewrite packet_255_iff. cbn [h_TYPE]. destruct (decide (T = AuthenticateType)) as [->|HA].
    { split; [|by intros [? _]]. intros [HP|([a rest] & _ & HP)]%result_bind_Panic.
      - exfalso. revert HP. unfold ReadAuthenticateWithHead. rewrite bool_decide_true by done. cbn [negb].
        intros [HP|([? ?] & _ & HP)]%result_bind_Panic; [by apply read_full_not_panic in HP|].
        apply result_bind_Panic in HP as [HP|([? ?] & _ & HP)]; [by apply read_full_not_panic in HP|done].
      - apply result_bind_Panic in HP as [HP|([u|] & _ & HP)]; [by apply check_auth_not_panic in HP| |];
          by destruct (decide_auth _ _ _ s). }
    destruct (decide (T = PacketType)) as [->|HT].
    + rewrite <- (ReadPacketWithHead_panics (MkHead v PacketType)) by done. rewrite bind_Ok_Panic. naive_solver.
    + split; [|naive_solver]. case_decide as HD; [|done]. subst. unfold ReadDissociateWithHead.
      rewrite bool_decide_true by done. cbn [negb].
      intros [HP|([? ?] & _ & HP)]%result_bind_Panic; [|done].
      apply result_bind_Panic in HP as [HP|([? ?] & _ & HP)]; [by apply read_uint_not_panic in HP|done].
Qed.

Lemma HandleStream_panics r : HandleStream r = Panic ↔ connect_255 r.
Proof.
  clear ExportKeyingMaterial uuid_String HandleTcpFn.
  unfold HandleStream. transitivity (ReadConnect r = Panic); [by destruct (ReadConnect r) as [[]| |]|].
  unfold ReadConnect. destruct (head_cases r) as [[err E]|(v & T & r1 & -> & E)]; rewrite E; cbn [mbind result_bind].
  - split; [done|]. intros (v & rest & ->). done.
  - unfold ReadConnectWithHead. cbn [h_TYPE]. destruct (decide (T = ConnectType)) as [->|HT].
    + rewrite bool_decide_true by done. cbn [negb]. rewrite bind_Ok_Panic, ReadAddress_panics. unfold connect_255.
      naive_solver.
    + rewrite bool_decide_false by done. cbn [negb]. split; [done|]. intros (v' & rest & [= -> -> ->]). done.
Qed.
End server.

(** C36: Only authenticated users are served. In every interleaving of the
    goroutines of a connection, a TCP stream or UDP packet is handed to the
    proxy for a user only if the peer sent, on this connection, an authenticate
    command with the UUID of a configured user and the token the TLS exporter
    gives for that user's password; all traffic of the connection is delivered
    for that one user. *)
Theorem tuic_serves_only_users `{GenericList} (exporter : str → str → Z → string + str) (uuid_String : str → str)
    (tcp : str → str → option string) (Users : gmap str str)
    (evs : list event) (s : serverHandler) (ts : list task) (log : list effect) (e : effect) (user : str) :
  steps exporter uuid_String tcp Users initial evs (Running s ts log) →
  e ∈ log → delivered_for e = Some user →
  user = authUUID s ∧ ∃ bytes, EUniStream bytes ∈ evs ∧ proves exporter uuid_String Users bytes user.
Proof.
  intros Hsteps He Hu. apply steps_ok in Hsteps as [_ Hauth Hlog _ _ _].
  destruct (Hlog e user He Hu) as [Hok ->]. split; [done|]. by apply Hauth.
Qed.

(** C38: A connection handler crashes on exactly one kind of input. From any
    reachable configuration, in particular before any authentication, the next
    event ends the process if and only if it is a packet or connect command
    whose domain name has the length byte 255; nothing else a peer sends, and
    no interleaving of the goroutines, makes a handler panic. *)
Theorem tuic_server_crash `{GenericList} (exporter : str → str → Z → string + str) (uuid_String : str → str)
    (tcp : str → str → option string) (Users : gmap str str)
    (evs : list event) (s : serverHandler) (ts : list task) (log : list effect) (e : event) :
  steps exporter uuid_String tcp Users initial evs (Running s ts log) →
  step exporter uuid_String tcp Users (Running s ts log) e Crashed ↔ fatal e.
Proof.
  intros Hsteps. apply steps_ok in Hsteps. split.
  - intros Hstep. inversion Hstep as [| |msg ? ? ? HM| | |r ? ? ? HU| |r ? ? ? HS| | |now ? ts1 tk ts2 ? HR]; subst; simpl.
    + by apply HandleMessage_panics.
    + by eapply HandleUniStream_panics.
    + by apply HandleStream_panics.
    + pose proof (run_task_ok exporter uuid_String tcp Users now evs s ts1 tk ts2 log Hsteps) as Hrun. by rewrite HR in Hrun.
  - destruct e as [b|b|b| |now]; simpl; [| | |done|done]; intros Hf.
    + by apply step_message_panic, HandleMessage_panics.
    + by eapply step_uni_panic, HandleUniStream_panics.
    + by apply step_stream_panic, HandleStream_panics.
Qed.

(** A concrete connection: one user, an exporter that gives a fixed token, an
    authenticate command and a TCP stream. *)
Definition sample_uuid : str := replicate 16 (byte_of 7).
Definition sample_token : str := replicate 32 (byte_of 9).
Definition sample_users : gmap str str := {[ sample_uuid := lit "secret" ]}.
Definition sample_exporter (label context : str) (n : Z) : string + str := inr sample_token.
Definition sample_addr : Address := MkAddress AtypIPv4 [byte_of 1; byte_of 1; byte_of 1; byte_of 1] 443.
Definition sample_auth : str := Authenticate_WriteTo (NewAuthenticate sample_uuid sample_token).
Definition sample_connect : str := Connect_WriteTo (NewConnect sample_addr).
Definition sample_events : list event := [EUniStream sample_auth; EStream sample_connect; ERun 0].
Definition sample_state : serverHandler (H := plain_list) := MkServer true true sample_uuid ∅ [].

Lemma tuic_serves_only_users_witness :
  sample_uuid = authUUID sample_state
  ∧ ∃ bytes, EUniStream bytes ∈ sample_events ∧ proves sample_exporter id sample_users bytes sample_uuid.
Proof.
  apply (tuic_serves_only_users (H := plain_list) sample_exporter id (λ _ _, None) sample_users sample_events
           sample_state [] [HandleTcp (Address_SocksAddr sample_addr) sample_uuid]
           (HandleTcp (Address_SocksAddr sample_addr) sample_uuid) sample_uuid).
  - apply (steps_snoc _ _ _ _ _ [EUniStream sample_auth; EStream sample_connect]
             (Running sample_state [TStream (Address_SocksAddr sample_addr)] [])).
    + apply (steps_snoc _ _ _ _ _ [EUniStream sample_auth] (Running sample_state [] [])).
      * apply (steps_snoc _ _ _ _ _ [] initial); [constructor|].
        apply (step_uni (H := plain_list) sample_exporter id (λ _ _, None) sample_users sample_auth _ [] [] sample_state [] []).
        vm_compute. reflexivity.
      * apply (step_stream (H := plain_list) sample_exporter id (λ _ _, None) sample_users sample_connect _ [] []
                 [TStream (Address_SocksAddr sample_addr)] []).
        vm_compute. reflexivity.
    + apply (step_task (H := plain_list) sample_exporter id (λ _ _, None) sample_users 0 sample_state []
               (TStream (Address_SocksAddr sample_addr)) [] [] sample_state []
               [HandleTcp (Address_SocksAddr sample_addr) sample_uuid]).
      vm_compute. reflexivity.
  - left.
  - reflexivity.
Defined.

Lemma tuic_server_crash_witness :
  step (H := plain_list) sample_exporter id (λ _ _, None) sample_users initial
    (EMessage (VER :: PacketType :: replicate 8 (byte_of 0) ++ [AtypDomainName; byte_of 255])) Crashed.
Proof.
  apply (tuic_server_crash (H := plain_list) sample_exporter id (λ _ _, None) sample_users [] NewServerHandler [] []).
  - constructor.
  - exists VER, (replicate 8 (byte_of 0)), []. split; reflexivity.
Defined.
