(* ===== verification/DomainTrie.v ===== *)
(** * DomainTrie: the domain trie of [component/trie]

    [src/component/trie/domain.go] and [node.go]: a trie over the labels of a
    domain name, from the last label to the first, with the labels ["*"] (any
    one label) and [""] (any labels that remain). It answers which of the
    inserted patterns applies to a name.

    A node owns its children (no node is reachable twice), so a node is a value
    and an assignment through a pointer into the tree is the tree with that
    node replaced. [inited] and [data] are one option. A Go map is an
    association list without duplicate keys; its order stands for the
    unspecified order of a [range] loop and is used by [Foreach] alone. *)
From S2P Require Import Prelude GoStrings.

Definition wildcard : str := lit "*".
Definition dotWildcard : str := [].
Definition complexWildcard : str := lit "+".
Definition dot : ascii := ascii_of_N 46.

(** ** Association lists *)

Section maps.
Context {A : Type}.
Implicit Types (m : list (str * A)) (s : str).

Fixpoint map_get (s : str) (m : list (str * A)) : option A :=
  match m with
  | [] => None
  | (k, c) :: m => if decide (k = s) then Some c else map_get s m
  end.
Fixpoint map_set (s : str) (c : A) (m : list (str * A)) : list (str * A) :=
  match m with
  | [] => [(s, c)]
  | (k, c') :: m => if decide (k = s) then (s, c) :: m else (k, c') :: map_set s c m
  end.

Lemma map_get_set s s' c m : map_get s' (map_set s c m) = if decide (s' = s) then Some c else map_get s' m.
Proof.
  induction m as [|[k c'] m IH]; simpl; [by repeat case_decide; subst|].
  destruct (decide (k = s)) as [->|]; simpl; repeat case_decide; subst; try done; by rewrite IH, ?decide_True, ?decide_False.
Qed.

Lemma map_get_None s m : map_get s m = None ↔ s ∉ m.*1.
Proof.
  induction m as [|[k c] m IH]; simpl; [split; [set_solver|done]|]. rewrite not_elem_of_cons.
  case_decide; [split; [done|]|rewrite IH]; naive_solver.
Qed.

Lemma map_get_elem s c m : NoDup m.*1 → map_get s m = Some c ↔ (s, c) ∈ m.
Proof.
  induction m as [|[k c'] m IH]; simpl; [intros _; split; [done|by intros ?%elem_of_nil]|].
  intros [Hk Hnd]%NoDup_cons. rewrite elem_of_cons. case_decide as E; subst.
  - split; [intros; left; congruence|]. intros [|Hin]; [by simplify_eq|].
    exfalso. apply Hk. by apply (list_elem_of_fmap_2 fst) in Hin.
  - rewrite IH by done. naive_solver.
Qed.

Lemma map_set_keys s c m : (s ∈ m.*1 ∧ (map_set s c m).*1 = m.*1) ∨ (s ∉ m.*1 ∧ (map_set s c m).*1 = m.*1 ++ [s]).
Proof.
  induction m as [|[k c'] m IH]; cbn [map_set fmap list_fmap fst]; [right; split; [apply not_elem_of_nil|done]|].
  destruct (decide (k = s)) as [->|Hk]; [left; split; [left|done]|]. cbn [fmap list_fmap fst].
  destruct IH as [[Hin E]|[Hin E]]; [left|right]; (split; [set_solver|]); simpl; by f_equal.
Qed.

Lemma map_set_NoDup s c m : NoDup m.*1 → NoDup (map_set s c m).*1.
Proof.
  intros Hnd. destruct (map_set_keys s c m) as [[_ ->]|[Hs ->]]; [done|]. apply NoDup_app. split_and!; [done|set_solver|].
  apply NoDup_singleton.
Qed.
End maps.

(** ** Nodes *)

Inductive Node (T : Type) : Type :=
| MkNode (childMap : option (list (str * Node T))) (childNode : option (str * Node T)) (data : option T).
Arguments MkNode {T} _ _ _.

Section nodes.
Context {T : Type}.
Abbreviation node := (Node T).

Definition childMap (n : node) : option (list (str * node)) := let '(MkNode m _ _) := n in m.
Definition childNode (n : node) : option (str * node) := let '(MkNode _ c _) := n in c.
Definition data (n : node) : option T := let '(MkNode _ _ d) := n in d.

Definition newNode : node := MkNode None None None.

Definition getChild (n : node) (s : str) : option node :=
  match childMap n with
  | None => match childNode n with
            | Some (childStr, c) => if decide (childStr = s) then Some c else None
            | None => None
            end
  | Some m => map_get s m
  end.

Definition hasChild (n : node) (s : str) : bool := bool_decide (is_Some (getChild n s)).

Definition addChild (n : node) (s : str) (child : node) : node :=
  match childMap n with
  | None =>
    match childNode n with
    | None => MkNode None (Some (s, child)) (data n)
    | Some (childStr, c) => MkNode (Some (map_set s child [(childStr, c)])) None (data n)
    end
  | Some m => MkNode (Some (map_set s child m)) (childNode n) (data n)
  end.

(** The tree after the child at [s], which is there, was changed to [child]. *)
Definition replaceChild (n : node) (s : str) (child : node) : node :=
  match childMap n with
  | None => MkNode None (Some (s, child)) (data n)
  | Some m => MkNode (Some (map_set s child m)) (childNode n) (data n)
  end.

(** [getOrNewChild], and the tree after the child it returns became [child]. *)
Definition getOrNewChild (n : node) (s : str) : node :=
  match getChild n s with Some c => c | None => newNode end.
Definition putChild (n : node) (s : str) (child : node) : node :=
  if hasChild n s then replaceChild n s child else addChild n s child.

Definition isEmpty (n : option node) : bool :=
  match n with Some n => match data n with Some _ => false | None => true end | None => true end.

Definition setData (n : node) (d : T) : node := MkNode (childMap n) (childNode n) (Some d).

Definition getChildren (n : node) : list (str * node) :=
  match childMap n with
  | None => match childNode n with Some sc => [sc] | None => [] end
  | Some m => m
  end.

(** [optimize]: a map with no entry becomes nil, one with one entry the single
    child; copying the keys does not change them. *)
Fixpoint optimize (n : node) : node :=
  let '(MkNode m c d) := n in
  let c := match c with Some (s, c) => Some (s, optimize c) | None => None end in
  match m with
  | None => MkNode None c d
  | Some [] => MkNode None c d
  | Some [(key, child)] => MkNode None (Some (key, optimize child)) d
  | Some m => MkNode (Some (map (λ kc, (kc.1, optimize kc.2)) m)) c d
  end.

(** ** The trie *)

Context (unicode_lower : str → str).

Definition ValidAndSplitDomain (domain : str) : option (list str) :=
  if bool_decide (last domain = Some dot) then None
  else if match decode_rune domain with Some (r, _) => is_space r | None => false end then None
  else if match decode_last_rune domain with Some (r, _) => is_space r | None => false end then None
  else
    let domain := ToLower unicode_lower domain in
    let parts := split_on dot domain in
    if match parts with
       | [part] => bool_decide (part = [])
       | _ => existsb (λ part, bool_decide (part = [])) (tail parts)
       end then None
    else if existsb id (imap (λ i part,
              (bool_decide (ascii_of_N 43 ∈ part)
               && (negb (bool_decide (part = complexWildcard)) || negb (i =? 0)%nat || (length parts =? 1)%nat))
              || (bool_decide (ascii_of_N 42 ∈ part) && negb (bool_decide (part = wildcard)))) parts) then None
    else Some parts.

(** [insert] walks the parts from the last to the first; the model takes them
    in that order. *)
Fixpoint insert_rev (parts : list str) (d : T) (n : node) : node :=
  match parts with
  | [] => setData n d
  | part :: parts => putChild n part (insert_rev parts d (getOrNewChild n part))
  end.
Definition insert (parts : list str) (d : T) (root : node) : node := insert_rev (reverse parts) d root.

Definition Insert (domain : str) (d : T) (root : node) : result node :=
  match ValidAndSplitDomain domain with
  | None => Err "invalid domain"
  | Some parts =>
    match parts with
    | [] => Panic
    | first :: rest =>
      if decide (first = complexWildcard) then Ok (insert (dotWildcard :: rest) d (insert rest d root))
      else Ok (insert parts d root)
    end
  end.

(** [search] on the parts from the last to the first. *)
Fixpoint search_rev (n : node) (parts : list str) : option node :=
  match parts with
  | [] => Some n
  | part :: rest =>
    let try_child (s : str) := match getChild n s with Some c => search_rev c rest | None => None end in
    if negb (isEmpty (try_child part)) then try_child part
    else if negb (isEmpty (try_child wildcard)) then try_child wildcard
    else getChild n dotWildcard
  end.
Definition search (n : node) (parts : list str) : option node := search_rev n (reverse parts).

Definition Search (domain : str) (root : node) : option node :=
  match ValidAndSplitDomain domain with
  | None => None
  | Some parts =>
    if bool_decide (head parts = Some []) then None
    else let n := search root parts in if isEmpty n then None else n
  end.

Definition Optimize (root : node) : node := optimize root.
Definition IsEmpty (root : node) : bool := bool_decide (getChildren root = []).

Definition joinDomain (items : list str) : str := join [dot] items.

(** The callback of [Foreach] and its state. *)
Context {S : Type} (fn : str → T → S → bool * S).

Fixpoint recursion (items : list str) (n : node) (st : S) : bool * S :=
  let visit key (child : node) st (continue : S → bool * S) :=
    let newItems := key :: items in
    let '(ok, st) := match data child with Some d => fn (joinDomain newItems) d st | None => (true, st) end in
    if ok then
      let '(ok, st) := recursion newItems child st in
      if ok then continue st else (false, st)
    else (false, st) in
  match n with
  | MkNode None None _ => (true, st)
  | MkNode None (Some (key, child)) _ => visit key child st (λ st, (true, st))
  | MkNode (Some m) _ _ =>
    (fix go m st := match m with
                    | [] => (true, st)
                    | (key, child) :: m => visit key child st (λ st, go m st)
                    end) m st
  end.

Fixpoint foreach_loop (m : list (str * node)) (st : S) : S :=
  match m with
  | [] => st
  | (key, child) :: m =>
    let '(_, st) := recursion [key] child st in
    match data child with
    | Some d => let '(ok, st) := fn (joinDomain [key]) d st in if ok then foreach_loop m st else st
    | None => foreach_loop m st
    end
  end.
Definition Foreach (root : node) (st : S) : S := foreach_loop (getChildren root) st.
End nodes.

(** ** The patterns a trie holds *)

Section patterns.
Context {T : Type}.
Abbreviation node := (Node T).
Implicit Types (n c : node) (q xs : list str).

(** What is stored under a path of labels, the last label of the domain first. *)
Fixpoint lookup_path (n : node) (q : list str) : option T :=
  match q with
  | [] => data n
  | s :: q => match getChild n s with Some c => lookup_path c q | None => None end
  end.

Lemma data_putChild n s c : data (putChild n s c) = data n.
Proof. destruct n as [[m|] [[k c']|] d]; unfold putChild; by case_match. Qed.

Lemma getChild_putChild n s s' c : getChild (putChild n s c) s' = if decide (s' = s) then Some c else getChild n s'.
Proof.
  unfold putChild. case_match eqn:Hh.
  - apply bool_decide_eq_true in Hh. destruct n as [[m|] [[k c']|] d]; cbn [replaceChild getChild childMap childNode] in *.
    + apply map_get_set.
    + apply map_get_set.
    + unfold getChild in *. cbn in *. repeat case_decide; subst; try done; by destruct Hh.
    + by destruct Hh.
  - apply bool_decide_eq_false in Hh. rewrite <- eq_None_not_Some in Hh. unfold getChild, addChild in *.
    destruct n as [[m|] [[k c']|] d]; cbn [childMap childNode] in *.
    + apply map_get_set.
    + apply map_get_set.
    + rewrite map_get_set. by simpl.
    + repeat case_decide; by subst.
Qed.

Lemma lookup_path_newNode q : lookup_path newNode q = None.
Proof. by destruct q. Qed.

Lemma lookup_getOrNewChild n s q :
  lookup_path (getOrNewChild n s) q = match getChild n s with Some c => lookup_path c q | None => None end.
Proof. unfold getOrNewChild. case_match; [done|apply lookup_path_newNode]. Qed.

(** Inserting changes what is stored under its path and nothing else. *)
Lemma lookup_insert_rev ps d n q :
  lookup_path (insert_rev ps d n) q = if decide (q = ps) then Some d else lookup_path n q.
Proof.
  revert n q. induction ps as [|p ps IH]; intros n q.
  - cbn [insert_rev]. destruct q as [|s q]; [by rewrite decide_True|]. rewrite decide_False by done. by destruct n.
  - cbn [insert_rev]. destruct q as [|s q].
    + rewrite decide_False by done. apply data_putChild.
    + cbn [lookup_path]. rewrite getChild_putChild. destruct (decide (s = p)) as [->|Hs].
      * rewrite IH, lookup_getOrNewChild.
        destruct (decide (q = ps)) as [->|Hq]; [by rewrite decide_True|]. by rewrite decide_False by congruence.
      * by rewrite decide_False by congruence.
Qed.

(** ** Which patterns match *)

(** [q] applies to a name with labels [xs] (last label first): label by label,
    ["*"] standing for any label, and [""] for all labels that remain, of which
    there is at least one. *)
Fixpoint path_matches (q xs : list str) : Prop :=
  match xs, q with
  | [], [] => True
  | x :: xs, l :: q => ((l = x ∨ l = wildcard) ∧ path_matches q xs) ∨ (l = dotWildcard ∧ q = [])
  | _, _ => False
  end.

(** The documented priority, label by label from the end of the name: the label
    itself before ["*"], ["*"] before [""]. *)
Definition label_rank (x l : str) : nat :=
  if decide (l = x) then 0 else if decide (l = wildcard) then 1 else 2.
Fixpoint preferred (xs q q' : list str) : Prop :=
  match xs, q, q' with
  | x :: xs, l :: q, l' :: q' => label_rank x l < label_rank x l' ∨ (l = l' ∧ preferred xs q q')
  | _, _, _ => True
  end.

Definition search_data (n : node) (xs : list str) : option T := search_rev n xs ≫= data.

Lemma isEmpty_data (o : option node) : isEmpty o = bool_decide (o ≫= data = None).
Proof. destruct o as [n|]; [|done]. simpl. by destruct (data n). Qed.

(** [search] by cases on what the children give. *)
Lemma search_data_cons n x xs :
  search_data n (x :: xs)
  = match getChild n x ≫= λ c, search_data c xs with
    | Some d => Some d
    | None => match getChild n wildcard ≫= λ c, search_data c xs with
              | Some d => Some d
              | None => getChild n dotWildcard ≫= data
              end
    end.
Proof.
  unfold search_data. cbn [search_rev]. rewrite !isEmpty_data.
  assert (Hb : ∀ s, (match getChild n s with Some c => search_rev c xs | None => None end) ≫= data
    = getChild n s ≫= λ c, search_rev c xs ≫= data) by (intros s; by destruct (getChild n s)).
  rewrite !Hb. destruct (getChild n x ≫= _) as [d|] eqn:E1; cbn [bool_decide negb].
  - rewrite bool_decide_false by done. simpl. by rewrite Hb.
  - rewrite bool_decide_true by done. simpl.
    destruct (getChild n wildcard ≫= _) as [d|] eqn:E2.
    + rewrite bool_decide_false by done. simpl. by rewrite Hb.
    + by rewrite bool_decide_true.
Qed.

(** The search finds the preferred one of the stored patterns that match, and
    misses none. *)
Definition best_match (lookup : list str → option T) (xs : list str) (r : option T) : Prop :=
  match r with
  | Some d => ∃ q, lookup q = Some d ∧ path_matches q xs
              ∧ ∀ q', is_Some (lookup q') → path_matches q' xs → preferred xs q q'
  | None => ∀ q', path_matches q' xs → lookup q' = None
  end.

Lemma search_best n xs : Forall (λ x, x ≠ []) xs → best_match (lookup_path n) xs (search_data n xs).
Proof.
  revert n. induction xs as [|x xs IH]; intros n Hxs.
  - unfold search_data. cbn. destruct (data n) as [d|] eqn:E; cbn.
    + by exists [].
    + by intros [|s q] Hq.
  - apply Forall_cons in Hxs as [Hx Hxs]. rewrite search_data_cons.
    assert (Hchild : ∀ s c, getChild n s = Some c → ∀ q, lookup_path n (s :: q) = lookup_path c q)
      by (intros s c Hc q; cbn; by rewrite Hc).
    assert (Hnone : ∀ s, getChild n s = None → ∀ q, lookup_path n (s :: q) = None)
      by (intros s Hc q; cbn; by rewrite Hc).
    assert (Hmiss : ∀ s, (getChild n s ≫= λ c, search_data c xs) = None →
      ∀ q, path_matches q xs → lookup_path n (s :: q) = None).
    { intros s Hs q Hq. destruct (getChild n s) as [c|] eqn:Hc; [|by apply Hnone]. simpl in Hs.
      rewrite (Hchild s c Hc). specialize (IH c Hxs). rewrite Hs in IH. by apply IH. }
    assert (Hdot : dotWildcard ≠ x) by (unfold dotWildcard; congruence).
    destruct (getChild n x ≫= _) as [d|] eqn:E1; [|destruct (getChild n wildcard ≫= _) as [d|] eqn:E2].
    + apply bind_Some in E1 as (c & Hc & E1). specialize (IH c Hxs). rewrite E1 in IH.
      destruct IH as (q & Hq & Hm & Hbest). exists (x :: q). rewrite (Hchild x c Hc).
      split; [done|]. split; [left; auto|]. intros [|l q'] Hq' Hm'; [done|]. cbn. unfold label_rank.
      destruct (decide (x = x)); [|done]. destruct Hm' as [[Hl Hm']|[-> ->]].
      * destruct (decide (l = x)) as [->|Hlx]; [right|left; case_decide; lia].
        split; [done|]. apply Hbest; [|done]. by rewrite <- (Hchild x c Hc).
      * left. rewrite decide_False by done. case_decide; lia.
    + apply bind_Some in E2 as (c & Hc & E2). specialize (IH c Hxs). rewrite E2 in IH.
      destruct IH as (q & Hq & Hm & Hbest). exists (wildcard :: q). rewrite (Hchild _ c Hc).
      split; [done|]. split; [left; auto|]. intros [|l q'] Hq' Hm'; [done|]. cbn. unfold label_rank.
      destruct Hm' as [[[->| ->] Hm']|[-> ->]].
      * exfalso. rewrite (Hmiss x E1 q' Hm') in Hq'. by destruct Hq'.
      * right. split; [done|]. apply Hbest; [|done]. by rewrite <- (Hchild _ c Hc).
      * left. rewrite (decide_False (P := dotWildcard = x)) by done.
        rewrite (decide_False (P := dotWildcard = wildcard)) by done. repeat case_decide; (done || lia).
    + assert (Hrest : ∀ l q, (l = x ∨ l = wildcard) ∧ path_matches q xs → lookup_path n (l :: q) = None).
      { intros l q [[->| ->] Hm]; by apply Hmiss. }
      destruct (getChild n dotWildcard ≫= data) as [d|] eqn:E3; cbn [best_match].
      * apply bind_Some in E3 as (c & Hc & E3). exists [dotWildcard]. rewrite (Hchild _ c Hc).
        split; [done|]. split; [right; done|]. intros [|l q'] Hq' Hm'; [done|].
        destruct Hm' as [Hm'|[-> ->]]; [|right; split; [done|by destruct xs]].
        rewrite (Hrest l q' Hm') in Hq'. by destruct Hq'.
      * intros [|l q'] Hm'; [done|]. destruct Hm' as [Hm'|[-> ->]]; [by apply Hrest|].
        cbn. destruct (getChild n dotWildcard); done.
Qed.
End patterns.

(** ** Well-formed tries *)

Section wellformed.
Context {T : Type}.
Abbreviation node := (Node T).
Implicit Types (n c : node) (m : list (str * node)).

(** A map of children is not empty and has no key twice, at every node. *)
Inductive node_ok : node → Prop :=
| node_ok_intro om oc d :
    (∀ m, om = Some m → m ≠ []) → (∀ m, om = Some m → NoDup m.*1) →
    (∀ m s c, om = Some m → (s, c) ∈ m → node_ok c) →
    (∀ s c, oc = Some (s, c) → node_ok c) →
    node_ok (MkNode om oc d).

Lemma newNode_ok : node_ok newNode.
Proof. by constructor. Qed.

Lemma map_set_elem s c m x y : (x, y) ∈ map_set s c m → (x, y) = (s, c) ∨ (x, y) ∈ m.
Proof.
  induction m as [|[k c'] m IH]; simpl; [set_solver|]. case_decide; [set_solver|].
  rewrite !elem_of_cons. intros [->|Hin]; [by right; left|]. destruct (IH Hin); auto.
Qed.

Lemma map_set_nonempty s c m : map_set s c m ≠ [].
Proof. destruct m as [|[k c'] m]; simpl; [done|]. by case_decide. Qed.

Lemma getChild_ok n s c : node_ok n → getChild n s = Some c → node_ok c.
Proof.
  intros [om oc d Hne Hnd Hm Hc]. unfold getChild. cbn. destruct om as [m|].
  - intros Hget. eapply Hm; [done|]. apply map_get_elem; eauto.
  - destruct oc as [[k x]|]; [|done]. case_decide; [|done]. intros [= <-]. by eapply Hc.
Qed.

Lemma putChild_ok n s c : node_ok n → node_ok c → node_ok (putChild n s c).
Proof.
  intros [om oc d Hne Hnd Hm Hc] Hok.
  assert (Hset : ∀ m, NoDup m.*1 → (∀ s c, (s, c) ∈ m → node_ok c) → ∀ oc', (∀ s c, oc' = Some (s, c) → node_ok c) →
    node_ok (MkNode (Some (map_set s c m)) oc' d)).
  { intros m Hn Hall oc' Hoc. constructor.
    - intros m' [= <-]. apply map_set_nonempty.
    - intros m' [= <-]. by apply map_set_NoDup.
    - intros m' s' c' [= <-] [E|Hin]%map_set_elem; [by simplify_eq|by eapply Hall].
    - done. }
  unfold putChild, replaceChild, addChild. cbn. destruct om as [m|].
  - case_match; apply Hset; eauto.
  - case_match; [by constructor; try done; intros ? ? [= <- <-]|].
    destruct oc as [[k x]|]; [|by constructor; try done; intros ? ? [= <- <-]].
    apply (Hset [(k, x)]); [apply NoDup_singleton| |done].
    intros s' c' E%list_elem_of_singleton. simplify_eq. by eapply Hc.
Qed.

Lemma insert_rev_ok ps d n : node_ok n → node_ok (insert_rev ps d n).
Proof.
  revert n. induction ps as [|p ps IH]; intros n Hn; cbn [insert_rev].
  - destruct Hn. by constructor.
  - apply putChild_ok; [done|]. apply IH. unfold getOrNewChild. case_match eqn:E; [by eapply getChild_ok|apply newNode_ok].
Qed.

(** *** [optimize] *)

Lemma map_get_map (f : node → node) s m : map_get s (map (λ kc, (kc.1, f kc.2)) m) = f <$> map_get s m.
Proof. induction m as [|[k c] m IH]; [done|]. cbn. case_decide; [done|apply IH]. Qed.

Lemma data_optimize n : data (optimize n) = data n.
Proof. destruct n as [[[|[k c] [|[k' c'] m]]|] oc d]; done. Qed.

Lemma getChild_optimize n s : node_ok n → getChild (optimize n) s = optimize <$> getChild n s.
Proof.
  intros [om oc d Hne _ _ _]. destruct om as [m|]; [destruct m as [|[k c] [|[k' c'] m]]|].
  - by destruct (Hne [] eq_refl).
  - cbn. by case_decide.
  - apply (map_get_map optimize s ((k, c) :: (k', c') :: m)).
  - cbn. destruct oc as [[k c]|]; [|done]. cbn. by case_decide.
Qed.

(** Optimizing does not change what is stored. *)
Lemma lookup_optimize n q : node_ok n → lookup_path (optimize n) q = lookup_path n q.
Proof.
  revert n. induction q as [|s q IH]; intros n Hn; cbn [lookup_path]; [apply data_optimize|].
  rewrite getChild_optimize by done. destruct (getChild n s) as [c|] eqn:E; [|done]. cbn. apply IH. by eapply getChild_ok.
Qed.

Lemma optimize_ok n : node_ok n → node_ok (optimize n).
Proof.
  induction 1 as [om oc d Hne Hnd Hm IHm Hc IHc].
  assert (Hc' : ∀ s c, match oc with Some (s, c) => Some (s, optimize c) | None => None end = Some (s, c) → node_ok c).
  { intros s c. destruct oc as [[k x]|]; [|done]. intros [= <- <-]. by eapply IHc. }
  destruct om as [m|]; [destruct m as [|[k c] [|[k' c'] m]]|].
  - by constructor.
  - constructor; try done. intros s x [= <- <-]. eapply IHm; [done|left].
  - set (m0 := (k, c) :: (k', c') :: m) in *.
    change (optimize (MkNode (Some m0) oc d)) with
      (MkNode (Some (map (λ kc, (kc.1, optimize kc.2)) m0))
         (match oc with Some (s, c) => Some (s, optimize c) | None => None end) d).
    set (m1 := map _ m0). assert (Hm1 : m1 ≠ []) by done.
    constructor; [intros m'; congruence| | |done].
    + intros m' E. assert (m' = m1) as -> by congruence. unfold m1. specialize (Hnd m0 eq_refl). replace ((map (λ kc, (kc.1, optimize kc.2)) m0).*1) with (m0.*1); [done|].
      clear. induction m0 as [|[] m0 IH]; [done|]. simpl. by f_equal.
    + intros m' s x E Hin. assert (m' = m1) as -> by congruence. unfold m1 in Hin. apply list_elem_of_In, in_map_iff in Hin as ([s' x'] & [= <- <-] & Hin).
      eapply IHm; [done|]. by apply list_elem_of_In.
  - constructor; done.
Qed.
End wellformed.

(** ** Sequences of operations *)

Section runs.
Context {T : Type} (unicode_lower : str → str).

Inductive trie_op := OInsert (domain : str) (d : T) | OOptimize.

Definition apply_op (root : Node T) (o : trie_op) : Node T :=
  match o with
  | OInsert domain d => match Insert unicode_lower domain d root with Ok root' => root' | _ => root end
  | OOptimize => Optimize root
  end.
Definition build (ops : list trie_op) : Node T := foldl apply_op newNode ops.

(** The paths a pattern stands for: ["+.x"] is both ["x"] and [".x"]. *)
Definition paths_of (domain : str) : list (list str) :=
  match ValidAndSplitDomain unicode_lower domain with
  | Some (first :: rest) =>
    if decide (first = complexWildcard) then [reverse rest; reverse (dotWildcard :: rest)]
    else [reverse (first :: rest)]
  | _ => []
  end.

(** What the operations store under a path: the value of the last pattern that
    stands for it. *)
Definition stored (ops : list trie_op) (q : list str) : option T :=
  foldl (λ o op, match op with
                 | OInsert domain d => if decide (q ∈ paths_of domain) then Some d else o
                 | OOptimize => o
                 end) None ops.

(** A valid domain is its labels; the labels after the first are not empty. *)
Lemma ValidAndSplitDomain_Some domain parts : ValidAndSplitDomain unicode_lower domain = Some parts →
  parts = split_on dot (ToLower unicode_lower domain) ∧ Forall (λ x, x ≠ []) (tail parts) ∧ parts ≠ [[]].
Proof.
  unfold ValidAndSplitDomain. intros HV.
  destruct (bool_decide _); [done|]. destruct (match decode_rune domain with Some (r, _) => _ | None => _ end); [done|].
  destruct (match decode_last_rune domain with Some (r, _) => _ | None => _ end); [done|].
  set (l := split_on dot (ToLower unicode_lower domain)) in *. clearbody l.
  destruct (match l with [part] => _ | _ => _ end) eqn:E1; [done|]. destruct (existsb id _); [done|].
  injection HV as <-. split; [done|]. destruct l as [|x [|y l]]; [by split|split; [constructor|]|split; [|done]].
  - intros [= ->]. done.
  - apply Forall_forall. intros z Hz ->. apply not_true_iff_false in E1. apply E1, existsb_exists.
    exists []. split; [by apply list_elem_of_In|by apply bool_decide_true].
Qed.

Lemma ValidAndSplitDomain_nonempty domain parts : ValidAndSplitDomain unicode_lower domain = Some parts → parts ≠ [].
Proof. intros (-> & _)%ValidAndSplitDomain_Some. apply split_on_nonempty. Qed.

Lemma Insert_lookup domain d root q :
  lookup_path (apply_op root (OInsert domain d)) q = if decide (q ∈ paths_of domain) then Some d else lookup_path root q.
Proof.
  cbn [apply_op]. unfold Insert, paths_of.
  destruct (ValidAndSplitDomain unicode_lower domain) as [[|first rest]|] eqn:E.
  - by apply ValidAndSplitDomain_nonempty in E.
  - destruct (decide (first = complexWildcard)); unfold insert; rewrite ?lookup_insert_rev.
    + destruct (decide (q = reverse (dotWildcard :: rest))) as [->|H1].
      { rewrite decide_True; [done|]. right. left. }
      destruct (decide (q = reverse rest)) as [->|H2]; [rewrite decide_True; [done|left]|].
      rewrite decide_False; [done|]. intros [|[|Hin%elem_of_nil]%elem_of_cons]%elem_of_cons; done.
    + destruct (decide (q = reverse (first :: rest))) as [->|H1]; [rewrite decide_True; [done|left]|].
      rewrite decide_False; [done|]. by intros ?%list_elem_of_singleton.
  - rewrite decide_False; [done|apply not_elem_of_nil].
Qed.

Lemma apply_op_ok root o : node_ok root → node_ok (apply_op root o).
Proof.
  intros Hr. destruct o as [domain d|]; [|by apply optimize_ok]. cbn. unfold Insert, insert.
  repeat case_match; simplify_eq; try done; by repeat apply insert_rev_ok.
Qed.

Lemma build_ok ops : node_ok (build ops) ∧ ∀ q, lookup_path (build ops) q = stored ops q.
Proof.
  unfold build, stored. induction ops as [|o ops [Hok IH]] using rev_ind; [split; [apply newNode_ok|by intros []]|].
  rewrite foldl_snoc. split; [by apply apply_op_ok|]. intros q. rewrite foldl_snoc, <- IH.
  destruct o as [domain d|]; [apply Insert_lookup|]. by apply lookup_optimize.
Qed.

(** The labels of a name that [Search] looks up are not empty. *)
Lemma valid_parts domain parts : ValidAndSplitDomain unicode_lower domain = Some parts → head parts ≠ Some [] →
  Forall (λ x, x ≠ []) (reverse parts).
Proof.
  intros (_ & Htail & _)%ValidAndSplitDomain_Some Hhead. apply Forall_reverse.
  destruct parts as [|x parts]; [constructor|]. constructor; [simpl in Hhead; congruence|done].
Qed.
End runs.
Arguments trie_op : clear implicits.

(** C16: The trie answers with the right pattern. After any sequence of inserts
    and optimizations, [Search] for a name gives the value stored for the
    preferred one of the patterns that match it (label by label from the end:
    the label itself before ["*"] before [""], a later insert of the same
    pattern replacing an earlier one), and nothing exactly when no inserted
    pattern matches; [Optimize] has no effect on any answer. A name that is not
    a domain, or starts with a dot, has no answer. *)
Theorem Search_correct {T} (unicode_lower : str → str) (ops : list (trie_op T)) (domain : str) :
  match ValidAndSplitDomain unicode_lower domain with
  | Some parts =>
    if bool_decide (head parts = Some []) then Search unicode_lower domain (build unicode_lower ops) = None
    else best_match (stored unicode_lower ops) (reverse parts)
           (Search unicode_lower domain (build unicode_lower ops) ≫= data)
  | None => Search unicode_lower domain (build unicode_lower ops) = None
  end.
Proof.
  destruct (build_ok unicode_lower ops) as [_ Hst]. unfold Search.
  destruct (ValidAndSplitDomain unicode_lower domain) as [parts|] eqn:E; [|done].
  case_bool_decide as Hh; [done|].
  pose proof (search_best (build unicode_lower ops) (reverse parts) (valid_parts _ _ _ E Hh)) as Hbest.
  unfold search. assert (((if isEmpty (search_rev (build unicode_lower ops) (reverse parts)) then None
    else search_rev (build unicode_lower ops) (reverse parts)) ≫= data) = search_data (build unicode_lower ops) (reverse parts)) as ->.
  { rewrite isEmpty_data. unfold search_data. case_bool_decide as Hd; [by rewrite Hd|done]. }
  revert Hbest. generalize (search_data (build unicode_lower ops) (reverse parts)) as r. unfold best_match.
  intros [d|]; setoid_rewrite Hst; done.
Qed.

(** ** Enumeration *)

Section enumeration.
Context {T : Type}.
Abbreviation node := (Node T).
Implicit Types (n c : node) (m : list (str * node)) (ps : list (list str * T)).

(** The callback that records its calls and goes on. *)
Definition record_call (domain : str) (d : T) (st : list (str * T)) : bool * list (str * T) :=
  (true, st ++ [(domain, d)]).

(** The calls for patterns at paths below a node reached by [items]. *)
Definition calls (items : list str) (ps : list (list str * T)) : list (str * T) :=
  (λ qd, (joinDomain (reverse qd.1 ++ items), qd.2)) <$> ps.

(** [ps] lists what is stored below the children [m], every path once. *)
Definition enumerates (m : list (str * node)) (ps : list (list str * T)) : Prop :=
  NoDup ps.*1 ∧ ∀ q d, (q, d) ∈ ps ↔ ∃ s c q', q = s :: q' ∧ (s, c) ∈ m ∧ lookup_path c q' = Some d.

Definition own (s : str) (c : node) : list (list str * T) :=
  match data c with Some d => [([s], d)] | None => [] end.
Definition below (s : str) (ps : list (list str * T)) : list (list str * T) :=
  (λ qd, (s :: qd.1, qd.2)) <$> ps.

Lemma calls_app items ps ps' : calls items (ps ++ ps') = calls items ps ++ calls items ps'.
Proof. apply fmap_app. Qed.

Lemma calls_below items s ps : calls items (below s ps) = calls (s :: items) ps.
Proof.
  unfold calls, below. rewrite <- list_fmap_compose. apply list_fmap_ext. intros i [q d] _. simpl.
  by rewrite reverse_cons, <- app_assoc.
Qed.

Lemma below_keys s ps : (below s ps).*1 = (s ::.) <$> ps.*1.
Proof. unfold below. by rewrite <- !list_fmap_compose. Qed.

Lemma elem_of_below s ps q d : (q, d) ∈ below s ps ↔ ∃ q', q = s :: q' ∧ (q', d) ∈ ps.
Proof.
  unfold below. rewrite list_elem_of_fmap. split.
  - intros ([q' d'] & [= -> ->] & Hin). eauto.
  - intros (q' & -> & Hin). by exists (q', d).
Qed.

Lemma elem_of_own s c q d : (q, d) ∈ own s c ↔ q = [s] ∧ data c = Some d.
Proof.
  unfold own. destruct (data c) as [d'|]; [rewrite list_elem_of_singleton|rewrite elem_of_nil]; naive_solver.
Qed.

(** A child's own value and what is below it, in either order, then the other
    children. *)
Lemma enumerates_cons s c m psc ps all : s ∉ m.*1 → enumerates (getChildren c) psc → enumerates m ps →
  (∀ s' q, lookup_path c (s' :: q) = match map_get s' (getChildren c) with Some x => lookup_path x q | None => None end) →
  NoDup (getChildren c).*1 → all ≡ₚ (own s c ++ below s psc) ++ ps → enumerates ((s, c) :: m) all.
Proof.
  intros Hs [Hnd1 H1] [Hnd2 H2] Hlook Hkeys Hperm. split.
  - rewrite Hperm, fmap_app. apply NoDup_app. split_and!; [| |done].
    + rewrite fmap_app. apply NoDup_app. split_and!.
      * unfold own. destruct (data c); [apply NoDup_singleton|constructor].
      * intros q ([l d] & -> & Hin)%list_elem_of_fmap. apply elem_of_own in Hin as [-> _]. rewrite below_keys.
        intros (q' & [= <-] & Hin)%list_elem_of_fmap. apply list_elem_of_fmap in Hin as ([? d'] & E & Hin).
        simpl in E. subst. apply H1 in Hin as (? & ? & ? & ? & _). done.
      * rewrite below_keys. apply NoDup_fmap; [by intros ??[=]|done].
    + intros q ([l d] & -> & Hin)%list_elem_of_fmap Hq. simpl in Hq.
      assert (Hhead : ∃ q', l = s :: q').
      { apply elem_of_app in Hin as [[-> _]%elem_of_own|(q' & -> & _)%elem_of_below]; eauto. }
      destruct Hhead as [q' ->]. apply list_elem_of_fmap in Hq as ([? d'] & E & Hq). simpl in E. subst.
      apply H2 in Hq as (s' & c' & q'' & [= <- <-] & Hin' & _). apply Hs. by apply (list_elem_of_fmap_2 fst) in Hin'.
  - intros q d. rewrite Hperm, !elem_of_app, elem_of_own, elem_of_below, H2.
    setoid_rewrite H1. setoid_rewrite elem_of_cons. split.
    + intros [[[-> Hd]|(q' & -> & s' & c' & q'' & -> & Hin & Hq)]|(s' & c' & q' & -> & Hin & Hq)].
      * exists s, c, []. auto.
      * exists s, c, (s' :: q''). split; [done|]. split; [by left|]. rewrite Hlook.
        apply map_get_elem in Hin; [|done]. by rewrite Hin.
      * exists s', c', q'. auto.
    + intros (s' & c' & q' & -> & [[= -> ->]|Hin] & Hq); [|right; eauto 10].
      left. destruct q' as [|s' q']; [by left|]. right. exists (s' :: q'). split; [done|].
      rewrite Hlook in Hq. destruct (map_get s' (getChildren c)) as [x|] eqn:E; [|done].
      exists s', x, q'. split; [done|]. split; [by apply map_get_elem|done].
Qed.

Lemma lookup_children c s q :
  lookup_path c (s :: q) = match map_get s (getChildren c) with Some x => lookup_path x q | None => None end.
Proof.
  cbn [lookup_path]. unfold getChild, getChildren. destruct (childMap c); [done|].
  destruct (childNode c) as [[k x]|]; [|done]. cbn. by case_decide.
Qed.

Lemma children_NoDup c : node_ok c → NoDup (getChildren c).*1.
Proof.
  intros [om oc d _ Hnd _ _]. cbn. destruct om as [m|]; [by apply Hnd|]. destruct oc; [apply NoDup_singleton|constructor].
Qed.

(** The loop of [recursion]. *)
Fixpoint visit_all (items : list str) (m : list (str * node)) (st : list (str * T)) : bool * list (str * T) :=
  match m with
  | [] => (true, st)
  | (key, child) :: m =>
    let '(ok, st) := match data child with Some d => record_call (joinDomain (key :: items)) d st | None => (true, st) end in
    if ok then
      let '(ok, st) := recursion record_call (key :: items) child st in
      if ok then visit_all items m st else (false, st)
    else (false, st)
  end.

Lemma recursion_visit_all items n st : recursion record_call items n st = visit_all items (getChildren n) st.
Proof.
  destruct n as [[m|] oc d]; cbn [getChildren childMap childNode].
  - cbn [recursion]. revert st. induction m as [|[k c] m IH]; intros st; [done|]. cbn [visit_all].
    destruct (match data c with Some _ => _ | None => _ end) as [[] st']; [|done].
    destruct (recursion record_call (k :: items) c st') as [[] st'']; [apply IH|done].
  - by destruct oc as [[k c]|].
Qed.

Lemma recursion_calls n : node_ok n → ∃ ps, enumerates (getChildren n) ps
  ∧ ∀ items st, recursion record_call items n st = (true, st ++ calls items ps).
Proof.
  induction 1 as [om oc d Hne Hnd Hm IHm Hc IHc]. setoid_rewrite recursion_visit_all.
  assert (Hok : node_ok (MkNode om oc d)) by by constructor. apply children_NoDup in Hok as Hkeys.
  assert (Hch : ∀ s c, (s, c) ∈ getChildren (MkNode om oc d) → node_ok c ∧ ∃ ps, enumerates (getChildren c) ps
    ∧ ∀ items st, recursion record_call items c st = (true, st ++ calls items ps)).
  { intros s c. cbn. destruct om as [m|]; [intros; split; [by eapply Hm|by eapply IHm]|].
    destruct oc as [[k x]|]; [|by intros ?%elem_of_nil]. intros [= -> ->]%list_elem_of_singleton.
    split; [by eapply Hc|by eapply IHc]. }
  revert Hkeys Hch. generalize (getChildren (MkNode om oc d)) as m. clear.
  induction m as [|[s c] m IH]; intros Hkeys Hch.
  - exists []. split; [split; [constructor|set_solver]|]. intros items st. cbn. by rewrite app_nil_r.
  - apply NoDup_cons in Hkeys as [Hs Hkeys]. destruct IH as (ps & Hps & Hcalls); [done|intros; eapply Hch; by right|].
    destruct (Hch s c ltac:(left)) as (Hokc & psc & Hpsc & Hc). exists ((own s c ++ below s psc) ++ ps). split.
    + apply (enumerates_cons s c m psc ps); try done; [apply lookup_children|by apply children_NoDup].
    + intros items st. cbn [visit_all]. rewrite !calls_app, calls_below, !app_assoc. unfold own.
      destruct (data c) as [d'|]; cbn [record_call]; rewrite Hc, Hcalls; cbn [calls fmap list_fmap];
        by rewrite ?app_nil_r.
Qed.

Lemma foreach_calls m : NoDup m.*1 → (∀ s c, (s, c) ∈ m → node_ok c) →
  ∃ ps, enumerates m ps ∧ ∀ st, foreach_loop record_call m st = st ++ calls [] ps.
Proof.
  induction m as [|[s c] m IH]; intros Hkeys Hch.
  - exists []. split; [split; [constructor|set_solver]|]. intros st. cbn. by rewrite app_nil_r.
  - apply NoDup_cons in Hkeys as [Hs Hkeys]. destruct IH as (ps & Hps & Hcalls); [done|intros; eapply Hch; by right|].
    assert (Hokc : node_ok c) by (eapply Hch; left).
    destruct (recursion_calls c Hokc) as (psc & Hpsc & Hc). exists ((below s psc ++ own s c) ++ ps). split.
    + apply (enumerates_cons s c m psc ps); try done; [apply lookup_children|by apply children_NoDup|].
      by rewrite (Permutation_app_comm (below s psc)).
    + intros st. cbn [foreach_loop]. rewrite Hc, !calls_app, calls_below, !app_assoc. unfold own.
      destruct (data c) as [d'|]; cbn [record_call]; rewrite Hcalls; cbn [calls fmap list_fmap]; by rewrite ?app_nil_r.
Qed.
End enumeration.

(** [Foreach] with a callback that goes on calls it for every stored
    pattern exactly once, with its domain and its value: after any sequence of
    inserts and optimizations, the calls are those of a duplicate-free list of
    exactly the paths under which the operations stored something. *)
Theorem Foreach_complete {T} (unicode_lower : str → str) (ops : list (trie_op T)) :
  ∃ ps : list (list str * T),
    NoDup ps.*1
    ∧ (∀ q d, (q, d) ∈ ps ↔ q ≠ [] ∧ stored unicode_lower ops q = Some d)
    ∧ Foreach record_call (build unicode_lower ops) [] = (λ qd, (joinDomain (reverse qd.1), qd.2)) <$> ps.
Proof.
  destruct (build_ok unicode_lower ops) as [Hok Hst]. set (root := build unicode_lower ops) in *.
  pose proof (children_NoDup root Hok) as Hkeys.
  destruct (foreach_calls (getChildren root) Hkeys) as (ps & [Hnd Hps] & Hcalls).
  { intros s c Hin. eapply getChild_ok; [exact Hok|]. rewrite <- map_get_elem in Hin by done.
    revert Hin. unfold getChild, getChildren. destruct (childMap root); [done|].
    destruct (childNode root) as [[k x]|]; [|done]. cbn. by case_decide. }
  exists ps. split; [done|]. split.
  - intros q d. rewrite Hps, <- Hst. split.
    + intros (s & c & q' & -> & Hin & Hq). split; [done|]. rewrite lookup_children.
      apply map_get_elem in Hin; [|done]. by rewrite Hin.
    + intros [Hq Hl]. destruct q as [|s q]; [done|]. rewrite lookup_children in Hl.
      destruct (map_get s (getChildren root)) as [c|] eqn:E; [|done]. exists s, c, q.
      split; [done|]. split; [by apply map_get_elem|done].
  - unfold Foreach. rewrite Hcalls. cbn [app]. apply list_fmap_ext. intros i [q d] _. simpl. by rewrite app_nil_r.
Qed.

(** The comment on [Foreach] says that every emitted pattern can be inserted
    again. The check for white space looks at the ends of the whole pattern, so
    ["+. x"] is accepted, and of the two patterns it stands for one begins with
    a space: it is emitted and refused. *)
Example Foreach_not_reinsertable :
  let root := build id [OInsert (lit "+. x") tt] in
  Foreach record_call root [] = [(lit ". x", tt); (lit " x", tt)]
  ∧ Insert id (lit " x") tt newNode = Err "invalid domain".
Proof. vm_compute. done. Qed.

(** The priorities on a concrete trie. *)
Example Search_priorities :
  let root := build id [OInsert (lit "+.example.com") 1; OInsert (lit "*.example.com") 2;
                        OInsert (lit "www.example.com") 3; OOptimize; OInsert (lit ".com") 4] in
  (λ d, Search id (lit d) root ≫= data) <$>
    ["example.com"; "WWW.example.com"; "a.example.com"; "a.b.example.com"; "other.com"; "com"; "example.net"]
  = [Some 1; Some 3; Some 2; Some 1; Some 4; None; None].
Proof. vm_compute. done. Qed.
