(* ===== verification/DomainSet.v ===== *)
(** * DomainSet: the succinct set of domain patterns of [component/trie]

    [src/component/trie/domain_set.go] and [domain_set_bin.go]: a trie over the
    bytes of reversed patterns, stored level by level as a bitmap with one zero
    per edge and one 1 per node, the labels of the edges and a bitmap of the
    nodes at which a pattern ends. It is built from a [DomainTrie], answers the
    membership queries of rule sets, and is read from and written to files.

    A 64-bit word is an integer, an index a natural number with the panic of an
    index out of range written out; [childStart] keeps its width (int32). The
    rank and select tables are caches of a library function of the bitmap, which
    is a parameter here. The loops that are not bounded by a counter take fuel;
    DomainSetFacts shows that it is enough. *)
From S2P Require Import Prelude GoStrings Bytes NetIP DomainTrie.

(** ** Runes *)

Definition rune_error : Z := 65533.

Definition encode_rune (r : Z) : str :=
  let r := if in_z 0 1114111 r && negb (in_z 55296 57343 r) then r else rune_error in
  let tail (k : Z) := byte_of (128 + Z.land (Z.shiftr r k) 63) in
  if (r <? 128)%Z then [byte_of r]
  else if (r <? 2048)%Z then [byte_of (192 + Z.shiftr r 6); tail 0%Z]
  else if (r <? 65536)%Z then [byte_of (224 + Z.shiftr r 12); tail 6%Z; tail 0%Z]
  else [byte_of (240 + Z.shiftr r 18); tail 12%Z; tail 6%Z; tail 0%Z].

(** The conversion [[]rune(s)]. *)
Fixpoint runes_fuel (fuel : nat) (s : str) : list Z :=
  match fuel with
  | 0 => []
  | S f => match decode_rune s with
           | Some (r, n) => r :: runes_fuel f (drop n s)
           | None => []
           end
  end.
Definition runes (s : str) : list Z := runes_fuel (length s) s.

Definition Reverse (s : str) : str := concat (encode_rune <$> reverse (runes s)).

(** ** Bitmaps *)

Definition int32 := IntType true 32.

Definition setBit (bm : list Z) (i : nat) (v : bool) : list Z :=
  let bm := bm ++ repeat 0%Z (S (i / 64) - length bm) in
  alter (λ w, Z.lor w (wrap uint64 (Z.shiftl (Z.b2z v) (Z.of_nat (i mod 64))))) (i / 64) bm.

Definition getBit (bm : list Z) (i : nat) : result bool :=
  match bm !! (i / 64) with
  | Some w => Ok (Z.testbit w (Z.of_nat (i mod 64)))
  | None => Panic
  end.

(** The bits of a word from the lowest, and [bits.OnesCount64]. *)
Definition word_bits (w : Z) : list bool := (λ b, Z.testbit w (Z.of_nat b)) <$> seq 0 64.
Definition bm_bits (bm : list Z) : list bool := bm ≫= word_bits.
Definition OnesCount64 (w : Z) : nat := length (List.filter id (word_bits w)).
Definition count_ones (bm : list Z) : nat := sum_list (OnesCount64 <$> bm).

(** ** The set *)

Record DomainSet := MkDomainSet {
  leaves : list Z;
  labelBitmap : list Z;
  labels : str;
  childStart : list Z
}.

(** The nested loops over words and bits are one loop over all bits. *)
Fixpoint child_loop (nNodes : nat) (bits : list bool) (node : nat) (edge : Z) (arr : list Z) : result (list Z) :=
  match bits with
  | [] => Ok arr
  | false :: bits => child_loop nNodes bits node (wrap int32 (edge + 1)) arr
  | true :: bits =>
    let node := S node in
    if (node <? length arr)%nat then
      let arr := <[node := edge]> arr in
      if (node =? nNodes)%nat then Ok arr else child_loop nNodes bits node edge arr
    else Panic
  end.

Definition buildChildIndex (bm : list Z) : result (list Z) :=
  let nNodes := count_ones bm in
  if (nNodes =? 0)%nat then Ok [0%Z; 0%Z]
  else child_loop nNodes (bm_bits bm) 0 0 (repeat 0%Z (S nNodes)).

(** [init]. *)
Definition init_set (lv bm : list Z) (lb : str) : result DomainSet :=
  cs ← buildChildIndex bm; Ok (MkDomainSet lv bm lb cs).

(** ** Building *)

Record qElt := QElt { q_s : nat; q_e : nat; q_col : nat }.

Definition key_byte (keys : list str) (j col : nat) : result ascii :=
  match keys !! j ≫= (.!! col) with Some c => Ok c | None => Panic end.

(** The inner loop: the first index from [j] on, below [e], with another byte
    in the column. *)
Fixpoint same_byte (fuel : nat) (keys : list str) (e col : nat) (c : ascii) (j : nat) : result nat :=
  match fuel with
  | 0 => Ok j
  | S f =>
    if (j <? e)%nat then
      b ← key_byte keys j col;
      if decide (b = c) then same_byte f keys e col c (S j) else Ok j
    else Ok j
  end.

(** The loop over the children of one node: the elements for the queue and
    their labels. *)
Fixpoint split_keys (fuel : nat) (keys : list str) (e col j : nat) : result (list (qElt * ascii)) :=
  match fuel with
  | 0 => if (j <? e)%nat then Panic else Ok []
  | S f =>
    if (j <? e)%nat then
      c ← key_byte keys j col;
      j' ← same_byte (e - j) keys e col c j;
      rest ← split_keys f keys e col j';
      Ok ((QElt j j' (S col), c) :: rest)
    else Ok []
  end.

Record builder := MkBuilder { b_leaves : list Z; b_labelBitmap : list Z; b_labels : str; b_lIdx : nat }.

Definition add_label (b : builder) (c : ascii) : builder :=
  MkBuilder (b_leaves b) (setBit (b_labelBitmap b) (b_lIdx b) false) (b_labels b ++ [c]) (S (b_lIdx b)).

Definition build_node (keys : list str) (i : nat) (elt : qElt) (b : builder) : result (list qElt * builder) :=
  match keys !! q_s elt with
  | None => Panic
  | Some k =>
    let at_end := (q_col elt =? length k)%nat in
    let s := if at_end then S (q_s elt) else q_s elt in
    let b := if at_end then MkBuilder (setBit (b_leaves b) i true) (b_labelBitmap b) (b_labels b) (b_lIdx b) else b in
    kids ← split_keys (q_e elt - s) keys (q_e elt) (q_col elt) s;
    let b := foldl add_label b kids.*2 in
    Ok (kids.*1, MkBuilder (b_leaves b) (setBit (b_labelBitmap b) (b_lIdx b) true) (b_labels b) (S (b_lIdx b)))
  end.

(** [for i := 0; i < len(queue); i++]: [todo] is [queue[i:]]. *)
Fixpoint build_loop (fuel : nat) (keys : list str) (i : nat) (todo : list qElt) (b : builder) : result builder :=
  match todo with
  | [] => Ok b
  | elt :: todo =>
    match fuel with
    | 0 => Panic
    | S f => '(kids, b) ← build_node keys i elt b; build_loop f keys (S i) (todo ++ kids) b
    end
  end.

(** At most one node per byte of the keys, and the root. *)
Definition build_set (keys : list str) : result (option DomainSet) :=
  if decide (keys = []) then Ok None
  else
    b ← build_loop (S (sum_list (length <$> keys))) keys 0 [QElt 0 (length keys) 0] (MkBuilder [] [] [] 0);
    Some <$> init_set (b_leaves b) (b_labelBitmap b) (b_labels b).

(** The callback of [Foreach]: the key of a pattern. *)
Definition pattern_key (domain : str) : result str :=
  match domain with
  | [] => Panic
  | c :: _ => Ok (Reverse (if decide (c = dot) then complexWildcard ++ domain else domain))
  end.
Definition collect_key {T} (domain : str) (_ : T) (st : result (list str)) : bool * result (list str) :=
  (true, ks ← st; k ← pattern_key domain; Ok (ks ++ [k])).

(** [sort.Strings]. *)
Definition sort_strings : list str → list str := sort_by str_ltb.

Definition NewDomainSet {T} (root : Node T) : result (option DomainSet) :=
  ks ← Foreach collect_key root (Ok []); build_set (sort_strings ks).

(** ** Lookup *)

Definition complexWildcardByte : ascii := "+"%char.
Definition wildcardByte : ascii := "*"%char.
Definition domainStepByte : ascii := dot.

Definition revLowerAt (key : str) (i : nat) : result ascii :=
  if (i <? length key)%nat then
    match key !! (length key - 1 - i) with Some c => Ok (lower_byte c) | None => Panic end
  else Panic.

Definition byteReverse (s : str) : str := reverse s.

(** [int(ss.childStart[n])]; a negative entry, which a bitmap with [2^31] zeros
    would give, is no index. *)
Definition child_start (ss : DomainSet) (n : nat) : result nat :=
  match childStart ss !! n with
  | Some z => if (z <? 0)%Z then Panic else Ok (Z.to_nat z)
  | None => Panic
  end.

Record wildcardCursor := Cursor { nodeId : nat; index : nat }.

(** The loop over the children of a node; [cnt] is [end - e]. *)
Inductive scanned := ScanMatch | ScanFound (e : nat) | ScanMiss.
Fixpoint scan_children (ss : DomainSet) (cnt : nat) (c : ascii) (i e : nat) (stack : list wildcardCursor)
    : result (scanned * list wildcardCursor) :=
  match cnt with
  | 0 => Ok (ScanMiss, stack)
  | S cnt =>
    match labels ss !! e with
    | None => Panic
    | Some lab =>
      if decide (lab = complexWildcardByte) then Ok (ScanMatch, stack)
      else if decide (lab = wildcardByte) then scan_children ss cnt c i (S e) (Cursor (S e) i :: stack)
      else if decide (lab = c) then Ok (ScanFound e, stack)
      else scan_children ss cnt c i (S e) stack
    end
  end.

(** The walk down the trie; [cnt] is [len(key) - i]. *)
Inductive walked := WalkMatch | WalkEnd (node : nat) | WalkMiss.
Fixpoint walk (ss : DomainSet) (key : str) (cnt node e i : nat) (stack : list wildcardCursor)
    : result (walked * list wildcardCursor) :=
  match cnt with
  | 0 => Ok (WalkEnd node, stack)
  | S cnt =>
    c ← revLowerAt key i;
    end_ ← child_start ss (S node);
    '(r, stack) ← scan_children ss (end_ - e) c i e stack;
    match r with
    | ScanMatch => Ok (WalkMatch, stack)
    | ScanMiss => Ok (WalkMiss, stack)
    | ScanFound e => e' ← child_start ss (S e); walk ss key cnt (S e) e' (S i) stack
    end
  end.

Fixpoint skip_label (key : str) (cnt i : nat) : result nat :=
  match cnt with
  | 0 => Ok i
  | S cnt => c ← revLowerAt key i; if decide (c = domainStepByte) then Ok i else skip_label key cnt (S i)
  end.

Fixpoint find_step (ss : DomainSet) (cnt e : nat) : result (option nat) :=
  match cnt with
  | 0 => Ok None
  | S cnt =>
    match labels ss !! e with
    | None => Panic
    | Some lab => if decide (lab = domainStepByte) then Ok (Some e) else find_step ss cnt (S e)
    end
  end.

(** The loop over the stack, its last element first. *)
Inductive resumed := ResumeMatch | ResumeNone | ResumeAt (node e i : nat) (stack : list wildcardCursor).
Fixpoint pop_cursors (ss : DomainSet) (key : str) (stack : list wildcardCursor) : result resumed :=
  match stack with
  | [] => Ok ResumeNone
  | Cursor node i :: stack =>
    i ← skip_label key (length key - i) i;
    if (i =? length key)%nat then
      leaf ← getBit (leaves ss) node;
      if leaf : bool then Ok ResumeMatch else pop_cursors ss key stack
    else
      start ← child_start ss node;
      end_ ← child_start ss (S node);
      o ← find_step ss (end_ - start) start;
      match o with
      | Some e => Ok (ResumeAt node e i stack)
      | None => pop_cursors ss key stack
      end
  end.

Fixpoint has_loop (fuel : nat) (ss : DomainSet) (key : str) (node e i : nat) (stack : list wildcardCursor) : result bool :=
  match fuel with
  | 0 => Panic
  | S f =>
    '(r, stack) ← walk ss key (length key - i) node e i stack;
    leaf ← match r with WalkEnd node => getBit (leaves ss) node | WalkMatch => Ok true | WalkMiss => Ok false end;
    if leaf : bool then Ok true
    else
      next ← pop_cursors ss key stack;
      match next with
      | ResumeMatch => Ok true
      | ResumeNone => Ok false
      | ResumeAt node e i stack => has_loop f ss key node e i stack
      end
  end.

(** A name with bytes that are not ASCII is lowered and reversed by runes. *)
Definition normalize_key (unicode_lower : str → str) (key : str) : str :=
  if is_ascii key then key else byteReverse (ToLower unicode_lower (Reverse key)).

Definition Has (unicode_lower : str → str) (ss : option DomainSet) (key : str) : result bool :=
  match ss with
  | None => Ok false
  | Some ss =>
    if (length (childStart ss) <? 2)%nat then Ok false
    else
      let key := normalize_key unicode_lower key in
      e ← child_start ss 0;
      has_loop (length (childStart ss)) ss key 0 e 0 []
  end.

(** ** Enumeration *)

(** The rank and select functions of [github.com/openacid/low/bitmap] on a
    bitmap with its own index tables: the number of 1 bits before a position,
    and the position of the i-th 1 bit. *)
Class BitmapIndex := {
  Rank64 : list Z → nat → nat;
  Select32R64 : list Z → nat → nat;
  Rank64_spec : ∀ bm i, i ≤ length (bm_bits bm) → Rank64 bm i = length (List.filter id (take i (bm_bits bm)));
  Select32R64_spec : ∀ bm i p, bm_bits bm !! p = Some true →
    length (List.filter id (take p (bm_bits bm))) = i → Select32R64 bm i = p
}.

Section keys.
Context `{BitmapIndex} {S : Type} (f : str → S → bool * S).

Definition countZeros (bm : list Z) (i : nat) : nat := i - Rank64 bm i.
Definition selectIthOne (bm : list Z) (i : nat) : nat := Select32R64 bm i.

(** The loop of [traverse] over the edges of a node, with [visit] the recursive
    call; [cnt] bounds the length of the bitmap. *)
Fixpoint edges_loop (ss : DomainSet) (visit : nat → nat → str → S → result (bool * S))
    (cnt node bmIdx : nat) (currentKey : str) (st : S) : result (bool * S) :=
  match cnt with
  | 0 => Panic
  | Datatypes.S cnt =>
    b ← getBit (labelBitmap ss) bmIdx;
    if b : bool then Ok (true, st)
    else
      match labels ss !! (bmIdx - node) with
      | None => Panic
      | Some nextLabel =>
        let nextNodeId := countZeros (labelBitmap ss) (bmIdx + 1) in
        let nextBmIdx := selectIthOne (labelBitmap ss) (nextNodeId - 1) + 1 in
        '(ok, st) ← visit nextNodeId nextBmIdx (currentKey ++ [nextLabel]) st;
        if ok : bool then edges_loop ss visit cnt node (bmIdx + 1) currentKey st else Ok (false, st)
      end
  end.

Fixpoint traverse (fuel : nat) (ss : DomainSet) (node bmIdx : nat) (currentKey : str) (st : S) : result (bool * S) :=
  match fuel with
  | 0 => Panic
  | Datatypes.S fuel =>
    leaf ← getBit (leaves ss) node;
    let '(ok, st) := if leaf : bool then f currentKey st else (true, st) in
    if ok : bool then edges_loop ss (traverse fuel ss) (64 * length (labelBitmap ss)) node bmIdx currentKey st
    else Ok (false, st)
  end.

Definition set_keys (ss : DomainSet) (st : S) : result S :=
  '(_, st) ← traverse (length (childStart ss)) ss 0 0 [] st; Ok st.
End keys.

(** [DomainSet.Foreach]: the pattern of a key. *)
Definition key_pattern (key : str) : str :=
  Reverse (if bool_decide (last key = Some complexWildcardByte) then take (length key - 1) key else key).
Definition set_Foreach `{BitmapIndex} {S} (f : str → S → bool * S) (ss : DomainSet) (st : S) : result S :=
  set_keys (λ key, f (key_pattern key)) ss st.

(** ** The file format *)

Definition maxBinaryDomainLabels : Z := 2 ^ 24.

Definition writeUint64Slice (values : list Z) : str :=
  be_put 8 (Z.of_nat (length values)) ++ (values ≫= be_put 8).

Definition WriteBin (ss : DomainSet) : str :=
  [byte_of 1] ++ writeUint64Slice (leaves ss) ++ writeUint64Slice (labelBitmap ss)
  ++ be_put 8 (Z.of_nat (length (labels ss))) ++ labels ss.

(** The words of a buffer of [n * 8] bytes. *)
Definition words_of (n : nat) (buf : str) : list Z := (λ i, be_get (slice buf (i * 8) (i * 8 + 8))) <$> seq 0 n.

Definition readUint64Slice (minLen maxLen : Z) (r : str) : result (list Z * str) :=
  '(hdr, r) ← read_full 8 r;
  let length := wrap int64 (be_get hdr) in
  if (length <? minLen)%Z || (maxLen <? length)%Z then Err "length is invalid"
  else
    let n := Z.to_nat length in
    '(buf, r) ← read_full (n * 8) r; Ok (words_of n buf, r).

(** The balance loop of [validateBinary]: the bits that are left and the counts
    so far. *)
Fixpoint balance_loop (bm : list Z) (labelBits cnt i zeros ones : nat) : result (nat * nat) :=
  match cnt with
  | 0 => Ok (zeros, ones)
  | Datatypes.S cnt =>
    b ← getBit bm i;
    let zeros := if b : bool then zeros else Datatypes.S zeros in
    let ones := if b : bool then Datatypes.S ones else ones in
    if (i <? labelBits - 1)%nat && (zeros <? ones)%nat then Err "domain set tree is disconnected"
    else balance_loop bm labelBits cnt (Datatypes.S i) zeros ones
  end.

(** [rem != 0 && bm[len(bm)-1]>>rem != 0]. *)
Definition padded (bm : list Z) (n : nat) : result bool :=
  let rem := n mod 64 in
  if (rem =? 0)%nat then Ok false
  else match last bm with
       | Some w => Ok (negb (Z.shiftr w (Z.of_nat rem) =? 0)%Z)
       | None => Panic
       end.

Definition validateBinary (lv bm : list Z) (lb : str) : result unit :=
  let nodes := count_ones bm in
  if (nodes <? 2)%nat || negb (nodes =? length lb + 1)%nat then Err "domain set node/label mismatch"
  else
    let labelBits := 2 * nodes - 1 in
    if negb (length bm =? (labelBits + 63) / 64)%nat then Err "domain set label bitmap has the wrong length"
    else
      p ← padded bm labelBits;
      if p : bool then Err "domain set label bitmap has non-zero padding"
      else if negb (length lv =? (nodes + 63) / 64)%nat then Err "domain set leaf bitmap has the wrong length"
      else
        p ← padded lv nodes;
        if p : bool then Err "domain set leaf bitmap has non-zero padding"
        else if (count_ones lv =? 0)%nat then Err "domain set has no terminal nodes"
        else
          '(zeros, ones) ← balance_loop bm labelBits labelBits 0 0 0;
          last_bit ← getBit bm (labelBits - 1);
          if negb (zeros =? nodes - 1)%nat || negb (ones =? nodes)%nat || negb last_bit
          then Err "domain set tree bitmap is not balanced" else Ok ().

Definition ReadDomainSetBin (r : str) : result DomainSet :=
  '(version, r) ← read_full 1 r;
  if negb (bool_decide (version = [byte_of 1])) then Err "version is invalid"
  else
    '(lv, r) ← readUint64Slice 1 ((maxBinaryDomainLabels + 64) / 64) r;
    '(bm, r) ← readUint64Slice 1 ((2 * maxBinaryDomainLabels + 64) / 64) r;
    '(hdr, r) ← read_full 8 r;
    let length := wrap int64 (be_get hdr) in
    if (length <? 1)%Z || (maxBinaryDomainLabels <? length)%Z then Err "label length is invalid"
    else
      '(lb, r) ← read_full (Z.to_nat length) r;
      _ ← validateBinary lv bm lb;
      init_set lv bm lb.

(** The priorities of the trie on a concrete set, and the file format. *)
Example DomainSet_example :
  let root := build id [OInsert (lit "+.example.com") 1; OInsert (lit "*.net") 2; OInsert (lit "a.*.org") 3] in
  ∃ ss, NewDomainSet root = Ok (Some ss)
  ∧ ((λ d, Has id (Some ss) (lit d)) <$> ["example.com"; "X.example.com"; "ample.com"; "a.net"; "a.b.net"; "a.b.org"; "b.org"])
    = [Ok true; Ok true; Ok false; Ok true; Ok false; Ok true; Ok false]
  ∧ ReadDomainSetBin (WriteBin ss) = Ok ss.
Proof. eexists. split; [vm_compute; reflexivity|]. split; vm_compute; reflexivity. Qed.
