(* ===== verification/DomainSetFacts.v ===== *)
(** * DomainSetFacts: the packed trie as a tree

    A [DomainSet] whose bitmap is balanced represents a tree: node [n] has the
    children that its zeros announce, numbered in order of level. [Has] with its
    stack of wildcard cursors is then the recursive match on that tree, it
    returns within the fuel of the model, and no index is out of range. A set
    that [ReadDomainSetBin] accepts is of this kind, whatever the file holds. *)
From S2P Require Import Prelude GoStrings Bytes NetIP DomainTrie DomainSet.

(** ** Bits *)

Lemma length_word_bits w : length (word_bits w) = 64.
Proof. unfold word_bits. by rewrite length_fmap, length_seq. Qed.

Lemma length_bm_bits bm : length (bm_bits bm) = 64 * length bm.
Proof.
  unfold bm_bits. induction bm as [|w bm IH]; [done|].
  cbn [mbind list_bind length]. rewrite length_app, length_word_bits, IH. lia.
Qed.

Lemma bm_bits_cons w bm : bm_bits (w :: bm) = word_bits w ++ bm_bits bm.
Proof. done. Qed.

Lemma bm_bits_lookup bm i : bm_bits bm !! i = (λ w, Z.testbit w (Z.of_nat (i mod 64))) <$> bm !! (i / 64).
Proof.
  revert i. induction bm as [|w bm IH]; intros i; [by rewrite !lookup_nil|]. rewrite bm_bits_cons.
  destruct (decide (i < 64)) as [Hi|Hi].
  - rewrite lookup_app_l by (rewrite length_word_bits; lia). rewrite Nat.div_small, Nat.mod_small by lia.
    unfold word_bits. rewrite list_lookup_fmap, lookup_seq_lt by lia. done.
  - rewrite lookup_app_r, length_word_bits, IH by (rewrite length_word_bits; lia).
    assert (i mod 64 = (i - 64) mod 64 ∧ i / 64 = S ((i - 64) / 64)) as [-> ->]; [|done].
    replace i with ((i - 64) + 1 * 64) at 1 3 by lia. rewrite Nat.Div0.mod_add, Nat.div_add by lia. lia.
Qed.

Lemma getBit_spec bm i : getBit bm i = match bm_bits bm !! i with Some b => Ok b | None => Panic end.
Proof. unfold getBit. rewrite bm_bits_lookup. by destruct (bm !! (i / 64)). Qed.

Definition ones (l : list bool) : nat := length (List.filter id l).
Lemma ones_app l k : ones (l ++ k) = ones l + ones k.
Proof. unfold ones. by rewrite List.filter_app, length_app. Qed.
Lemma ones_false k : ones (replicate k false) = 0.
Proof. by induction k. Qed.
Lemma ones_le l : ones l ≤ length l.
Proof. unfold ones. induction l as [|[] l IH]; simpl in *; lia. Qed.
Lemma ones_none l : ones l = 0 → l = replicate (length l) false.
Proof. induction l as [|[] l IH]; cbn; [done|done|]. intros Hl. f_equal. by apply IH. Qed.

Lemma sum_list_cons n l : sum_list (n :: l) = n + sum_list l.
Proof. done. Qed.
Lemma OnesCount64_ones w : OnesCount64 w = ones (word_bits w).
Proof. unfold OnesCount64, ones. reflexivity. Qed.
#[local] Opaque word_bits OnesCount64.

Lemma count_ones_spec bm : count_ones bm = ones (bm_bits bm).
Proof.
  unfold count_ones. induction bm as [|w bm IH]; [done|]. rewrite bm_bits_cons, ones_app, <- IH.
  cbn [fmap list_fmap]. rewrite sum_list_cons, OnesCount64_ones. done.
Qed.

(** ** The level order *)

(** The bits of nodes with these numbers of children. *)
Definition enc (ds : list nat) : list bool := ds ≫= λ d, replicate d false ++ [true].
(** The index of the first edge of node [n]. *)
Definition start (ds : list nat) (n : nat) : nat := sum_list (take n ds).

Lemma enc_cons d ds : enc (d :: ds) = replicate d false ++ true :: enc ds.
Proof. unfold enc. cbn [mbind list_bind]. by rewrite <- app_assoc. Qed.
Lemma enc_app ds ds' : enc (ds ++ ds') = enc ds ++ enc ds'.
Proof. apply bind_app. Qed.
Lemma ones_enc ds : ones (enc ds) = length ds.
Proof.
  induction ds as [|d ds IH]; [done|].
  rewrite enc_cons, ones_app, ones_false. change (S (ones (enc ds)) = S (length ds)). by rewrite IH.
Qed.
Lemma length_enc ds : length (enc ds) = sum_list ds + length ds.
Proof.
  induction ds as [|d ds IH]; [done|]. rewrite enc_cons, length_app, length_replicate.
  cbn [length]. rewrite sum_list_cons, IH. lia.
Qed.

(** Every sequence of bits is of this form. *)
Lemma enc_exists l : ∃ ds k, l = enc ds ++ replicate k false.
Proof.
  induction l as [|b l (ds & k & IH)]; [by exists [], 0|]. rewrite IH. destruct b.
  - exists (0 :: ds), k. by rewrite enc_cons.
  - destruct ds as [|d ds]; [by exists [], (S k)|]. exists (S d :: ds), k. by rewrite !enc_cons.
Qed.

Lemma start_S ds n d : ds !! n = Some d → start ds (S n) = start ds n + d.
Proof. intros Hd. unfold start. rewrite (take_S_r _ _ _ Hd), sum_list_with_app. simpl. lia. Qed.
Lemma start_0 ds : start ds 0 = 0.
Proof. done. Qed.
Lemma start_length ds : start ds (length ds) = sum_list ds.
Proof. unfold start. by rewrite firstn_all. Qed.
Lemma start_mono ds n m : n ≤ m → start ds n ≤ start ds m.
Proof.
  intros Hnm. unfold start. rewrite <- (take_drop n (take m ds)), take_take, Nat.min_l, sum_list_with_app by done. lia.
Qed.
Lemma start_cons d ds n : start (d :: ds) (S n) = d + start ds n.
Proof. done. Qed.

(** *** The child index *)

Fixpoint starts (edge : nat) (l : list bool) : list nat :=
  match l with
  | [] => []
  | false :: l => starts (S edge) l
  | true :: l => edge :: starts edge l
  end.

Lemma starts_false k edge : starts edge (replicate k false) = [].
Proof. revert edge. induction k; intros; [done|]. simpl. auto. Qed.
Lemma starts_replicate d edge l : starts edge (replicate d false ++ true :: l) = (edge + d) :: starts (edge + d) l.
Proof.
  revert edge. induction d as [|d IH]; intros edge; simpl; [by rewrite Nat.add_0_r|]. rewrite IH. by rewrite Nat.add_succ_comm.
Qed.
Lemma starts_enc ds k edge n : n < length ds →
  starts edge (enc ds ++ replicate k false) !! n = Some (edge + start ds (S n)).
Proof.
  revert edge n. induction ds as [|d ds IH]; intros edge n Hn; [simpl in Hn; lia|].
  rewrite enc_cons, <- app_assoc. simpl app. rewrite starts_replicate.
  destruct n as [|n]; [by rewrite start_cons, start_0, Nat.add_0_r|]. simpl in Hn. cbn [lookup list_lookup].
  rewrite (IH _ n) by lia. rewrite start_cons. f_equal. lia.
Qed.
Lemma length_starts edge l : length (starts edge l) = ones l.
Proof. revert edge. induction l as [|[] l IH]; intros edge; simpl; [done|by rewrite IH|by rewrite IH]. Qed.

Lemma wrap_int32 n : (Z.of_nat n < 2 ^ 31)%Z → wrap int32 (Z.of_nat n) = Z.of_nat n.
Proof. intros Hn. apply wrap_id; [done|]. unfold in_int. cbn. change (2 ^ 31)%Z with 2147483648%Z in Hn. lia. Qed.

Lemma child_loop_spec nNodes bits node edge arr :
  length arr = S nNodes → node + ones bits = nNodes → (Z.of_nat (edge + length bits) < 2 ^ 31)%Z →
  child_loop nNodes bits node (Z.of_nat edge) arr = Ok (take (S node) arr ++ (Z.of_nat <$> starts edge bits)).
Proof.
  revert node edge arr. induction bits as [|b bits IH]; intros node edge arr Ha Hn Hb.
  - unfold ones in Hn. simpl in Hn. cbn. rewrite take_ge by lia. by rewrite app_nil_r.
  - cbn [length] in Hb. destruct b; cbn [child_loop starts].
    + change (ones (true :: bits)) with (S (ones bits)) in Hn.
      destruct (Nat.ltb_spec (S node) (length arr)) as [Hl|Hl]; [|lia].
      assert (take (S (S node)) (<[S node := Z.of_nat edge]> arr) = take (S node) arr ++ [Z.of_nat edge]) as Ht.
      { erewrite take_S_r by (apply list_lookup_insert_eq; lia). by rewrite take_insert_ge by lia. }
      destruct (Nat.eqb_spec (S node) nNodes) as [He|He].
      * assert (ones bits = 0) as H0 by lia. rewrite (ones_none _ H0), starts_false. cbn. f_equal.
        rewrite <- Ht. symmetry. apply take_ge. rewrite length_insert. lia.
      * rewrite IH by (rewrite ?length_insert; lia). rewrite Ht, <- app_assoc. done.
    + change (ones (false :: bits)) with (ones bits) in Hn.
      replace (Z.of_nat edge + 1)%Z with (Z.of_nat (S edge)) by lia. rewrite wrap_int32 by lia.
      apply IH; lia.
Qed.

(** A bitmap of at least one node gets the index of its edges. *)
Lemma buildChildIndex_spec bm ds k : bm_bits bm = enc ds ++ replicate k false → ds ≠ [] →
  (Z.of_nat (length (bm_bits bm)) < 2 ^ 31)%Z →
  ∃ cs, buildChildIndex bm = Ok cs ∧ length cs = S (length ds)
    ∧ ∀ n, n ≤ length ds → cs !! n = Some (Z.of_nat (start ds n)).
Proof.
  intros Hb Hne Hlt. unfold buildChildIndex. rewrite count_ones_spec.
  assert (ones (bm_bits bm) = length ds) as Ho by (rewrite Hb, ones_app, ones_enc, ones_false; lia).
  rewrite Ho. destruct (Nat.eqb_spec (length ds) 0) as [E|_]; [by destruct ds|].
  change 0%Z with (Z.of_nat 0) at 1. rewrite child_loop_spec by (rewrite ?repeat_length; lia).
  eexists. split; [done|]. split.
  - rewrite length_app, length_fmap, length_starts, length_take, repeat_length, Ho. lia.
  - intros [|n] Hn; [done|]. rewrite lookup_app_r by (rewrite length_take, repeat_length; lia).
    rewrite length_take, repeat_length, list_lookup_fmap. replace (S n - 1 `min` S (length ds)) with n by lia.
    by rewrite Hb, starts_enc.
Qed.

(** ** Trees *)

Inductive tree := TNode (leaf : bool) (kids : list (ascii * tree)).

Fixpoint tsize (t : tree) : nat :=
  match t with TNode _ kids => S (sum_list ((λ ct, tsize ct.2) <$> kids)) end.
Definition ksize (kids : list (ascii * tree)) : nat := sum_list ((λ ct, tsize ct.2) <$> kids).
Definition tsizes (ts : list tree) : nat := sum_list (tsize <$> ts).

Lemma tsize_node leaf kids : tsize (TNode leaf kids) = S (ksize kids).
Proof. done. Qed.
Lemma ksize_cons c t kids : ksize ((c, t) :: kids) = tsize t + ksize kids.
Proof. done. Qed.
Lemma ksize_app kids kids' : ksize (kids ++ kids') = ksize kids + ksize kids'.
Proof. unfold ksize. by rewrite fmap_app, sum_list_with_app. Qed.
Lemma tsizes_cons t ts : tsizes (t :: ts) = tsize t + tsizes ts.
Proof. done. Qed.
Lemma tsizes_app ts ts' : tsizes (ts ++ ts') = tsizes ts + tsizes ts'.
Proof. unfold tsizes. by rewrite fmap_app, sum_list_with_app. Qed.
Lemma tsizes_kids kids : tsizes kids.*2 = ksize kids.
Proof. unfold tsizes, ksize. by rewrite <- list_fmap_compose. Qed.

(** The rest of a reversed name after its current label, from the dot on. *)
Fixpoint drop_label (xs : str) : str :=
  match xs with
  | [] => []
  | x :: xs' => if decide (x = domainStepByte) then xs else drop_label xs'
  end.

(** Does a key of the tree match the reversed name? ["+"] matches what is left,
    ["*"] the rest of a label; other children are tried in order up to the one
    with the byte. *)
Fixpoint tmatch (t : tree) (xs : str) {struct t} : bool :=
  match t with
  | TNode leaf kids =>
    match xs with
    | [] => leaf
    | c :: xs' =>
      (fix scan kids := match kids with
        | [] => false
        | (l, t') :: kids =>
          if decide (l = complexWildcardByte) then true
          else if decide (l = wildcardByte) then
            match t' with
            | TNode leaf' kids' =>
              match drop_label xs with
              | [] => leaf'
              | _ :: xs'' =>
                (fix find kids' := match kids' with
                  | [] => false
                  | (l', t'') :: kids' => if decide (l' = domainStepByte) then tmatch t'' xs'' else find kids'
                  end) kids'
              end
            end || scan kids
          else if decide (l = c) then tmatch t' xs'
          else scan kids
        end) kids
    end
  end.

Fixpoint find_match (kids : list (ascii * tree)) (xs : str) : bool :=
  match kids with
  | [] => false
  | (l, t) :: kids => if decide (l = domainStepByte) then tmatch t xs else find_match kids xs
  end.
Definition star_match (t : tree) (xs : str) : bool :=
  match t with
  | TNode leaf kids => match drop_label xs with [] => leaf | _ :: xs' => find_match kids xs' end
  end.
Fixpoint scan_match (kids : list (ascii * tree)) (c : ascii) (xs : str) : bool :=
  match kids with
  | [] => false
  | (l, t) :: kids =>
    if decide (l = complexWildcardByte) then true
    else if decide (l = wildcardByte) then star_match t (c :: xs) || scan_match kids c xs
    else if decide (l = c) then tmatch t xs
    else scan_match kids c xs
  end.

Lemma tmatch_node leaf kids xs :
  tmatch (TNode leaf kids) xs = match xs with [] => leaf | c :: xs => scan_match kids c xs end.
Proof.
  destruct xs as [|c xs]; [done|]. cbn [tmatch].
  induction kids as [|[l t] kids IH]; [done|]. cbn [scan_match]. rewrite <- IH.
  destruct (decide (l = complexWildcardByte)); [done|]. destruct (decide (l = wildcardByte)); [|done].
  f_equal. destruct t as [leaf' kids']. cbn [star_match]. destruct (drop_label (c :: xs)) as [|x xs'']; [done|].
  clear. induction kids' as [|[l' t''] kids' IH]; [done|]. cbn [find_match]. by rewrite <- IH.
Qed.

(** ** The tree of a set *)

Record louds (ss : DomainSet) (ds : list nat) : Prop := {
  louds_index : length (childStart ss) = S (length ds);
  louds_start : ∀ n, n ≤ length ds → child_start ss n = Ok (start ds n);
  louds_labels : length (labels ss) = sum_list ds;
  louds_nodes : length ds = S (sum_list ds);
  louds_ahead : ∀ n, n < length ds → n ≤ start ds n;
  louds_leaves : length ds ≤ length (bm_bits (leaves ss));
  louds_bits : ∃ k, bm_bits (labelBitmap ss) = enc ds ++ replicate k false
}.

Inductive rep (ss : DomainSet) (ds : list nat) : nat → tree → Prop :=
  | rep_intro n leaf kids :
    n < length ds → bm_bits (leaves ss) !! n = Some leaf → ds !! n = Some (length kids) →
    (∀ j c t, kids !! j = Some (c, t) → labels ss !! (start ds n + j) = Some c) →
    (∀ j c t, kids !! j = Some (c, t) → rep ss ds (S (start ds n + j)) t) →
    rep ss ds n (TNode leaf kids).

Section tree.
Context (ss : DomainSet) (ds : list nat) (Hss : louds ss ds).
#[local] Set Default Proof Using "All".

Lemma edge_in_range n d j : ds !! n = Some d → j < d → start ds n + j < sum_list ds.
Proof.
  intros Hd Hj. pose proof (lookup_lt_Some _ _ _ Hd). rewrite <- start_length.
  pose proof (start_mono ds (S n) (length ds)). rewrite (start_S _ _ _ Hd) in *. lia.
Qed.

(** Every node is the root of a tree. *)
Lemma rep_exists n : n < length ds → ∃ t, rep ss ds n t.
Proof.
  remember (length ds - n) as m eqn:Hm. revert n Hm. induction (lt_wf m) as [m _ IH]. intros n Hm Hn.
  destruct (lookup_lt_is_Some_2 ds n Hn) as [d Hd].
  destruct (lookup_lt_is_Some_2 (bm_bits (leaves ss)) n) as [leaf Hleaf].
  { pose proof (louds_leaves _ _ Hss). lia. }
  assert (∀ k, k ≤ d → ∃ kids, length kids = k ∧ ∀ j c t, kids !! j = Some (c, t) →
    labels ss !! (start ds n + j) = Some c ∧ rep ss ds (S (start ds n + j)) t) as Hk.
  { induction k as [|k IHk]; intros Hk; [by exists []|]. destruct IHk as (kids & Hl & Hkids); [lia|].
    pose proof (edge_in_range n d k Hd Hk) as Hr. pose proof (louds_ahead _ _ Hss n Hn).
    pose proof (louds_nodes _ _ Hss).
    destruct (lookup_lt_is_Some_2 (labels ss) (start ds n + k)) as [c Hc]; [by rewrite (louds_labels _ _ Hss)|].
    destruct (IH (length ds - S (start ds n + k))) with (n := S (start ds n + k)) as [t Ht]; [lia|done|lia|].
    exists (kids ++ [(c, t)]). split; [rewrite length_app; simpl; lia|]. intros j c' t' Hj.
    apply lookup_app_Some in Hj as [Hj|[Hj1 Hj2]]; [by apply Hkids|].
    destruct (j - length kids) as [|x] eqn:Ex; [|done]. simpl in Hj2. simplify_eq. by replace j with (length kids) by lia. }
  destruct (Hk d (Nat.le_refl d)) as (kids & Hl & Hkids). exists (TNode leaf kids). econstructor; [done..|by rewrite Hl| |]; naive_solver.
Qed.

(** Trees at consecutive nodes. *)
Definition forest (a : nat) (ts : list tree) : Prop := ∀ k t, ts !! k = Some t → rep ss ds (a + k) t.
Definition next_level (ts : list tree) : list tree := ts ≫= λ t, match t with TNode _ kids => kids.*2 end.

Lemma forest_next a ts : forest a ts →
  forest (S (start ds a)) (next_level ts) ∧ start ds (a + length ts) = start ds a + length (next_level ts)
  ∧ tsizes ts = length ts + tsizes (next_level ts).
Proof.
  revert a. induction ts as [|t ts IH]; intros a Hf.
  - split; [by intros k t Hk|]. split; [|done]. simpl. by rewrite Nat.add_0_r, Nat.add_0_r.
  - destruct (IH (S a)) as (Hn & Hl & Hs).
    { intros k t' Hk. replace (S a + k) with (a + S k) by lia. by apply Hf. }
    pose proof (Hf 0 t eq_refl) as Ht. rewrite Nat.add_0_r in Ht. inversion Ht as [n leaf kids Hlt Hleaf Hd Hlab Hrep]; subst.
    rewrite (start_S _ _ _ Hd) in *.
    change (next_level (TNode leaf kids :: ts)) with (kids.*2 ++ next_level ts). split; [|split].
    + intros k t' [Hk|[Hk1 Hk2]]%lookup_app_Some.
      * rewrite list_lookup_fmap, fmap_Some in Hk. destruct Hk as ([c x] & Hk & ->). by eapply Hrep.
      * rewrite length_fmap in *. replace (S (start ds a) + k) with (S (start ds a + length kids) + (k - length kids)) by lia.
        by apply Hn.
    + cbn [length]. replace (a + S (length ts)) with (S a + length ts) by lia. rewrite Hl, length_app, length_fmap. lia.
    + rewrite tsizes_cons, tsizes_app, tsizes_kids, tsize_node, Hs. cbn [length]. lia.
Qed.

(** Disjointness of the levels bounds the size of the trees. *)
Lemma forest_size a ts : forest a ts → a + length ts ≤ S (start ds a) → a < length ds → tsizes ts ≤ length ds - a.
Proof.
  remember (length ds - a) as m eqn:Hm. revert a ts Hm. induction (lt_wf m) as [m _ IH].
  intros a ts Hm Hf Hb Ha. destruct ts as [|t ts]; [unfold tsizes; simpl; lia|].
  destruct (forest_next a (t :: ts) Hf) as (Hn & Hl & Hs). rewrite Hs.
  pose proof (louds_ahead _ _ Hss a Ha).
  assert (start ds (a + length (t :: ts)) ≤ start ds (S (start ds a))) as Hmono by (apply start_mono; lia).
  destruct (decide (S (start ds a) < length ds)) as [Hlt|Hge].
  - pose proof (IH (length ds - S (start ds a)) ltac:(lia) (S (start ds a)) (next_level (t :: ts)) eq_refl Hn) as IH'.
    specialize (IH' ltac:(lia) Hlt). lia.
  - destruct (next_level (t :: ts)) as [|t' ts'] eqn:E; [|pose proof (Hn 0 t' eq_refl) as Hr; inversion Hr; lia].
    destruct (lookup_lt_is_Some_2 (t :: ts) (length ts)) as [x Hx]; [simpl; lia|].
    pose proof (Hf _ _ Hx) as Hr. inversion Hr; subst. unfold tsizes. cbn [fmap list_fmap sum_list_with length]. lia.
Qed.

Lemma root_size t : rep ss ds 0 t → tsize t ≤ length ds.
Proof.
  intros Hr. pose proof (forest_size 0 [t]) as Hsz. rewrite tsizes_cons in Hsz. unfold tsizes in Hsz. simpl in Hsz.
  rewrite Nat.sub_0_r, Nat.add_0_r in Hsz. apply Hsz; [|lia|].
  - intros [|k] x Hk; [|done]. simpl in *. by simplify_eq.
  - rewrite (louds_nodes _ _ Hss). lia.
Qed.
End tree.

(** ** [Has] is the match on the tree *)

(** The bytes a name is read by: from its end, lowered. *)
Definition rev_key (key : str) : str := lower_byte <$> reverse key.

Lemma length_rev_key key : length (rev_key key) = length key.
Proof. unfold rev_key. by rewrite length_fmap, length_reverse. Qed.

Lemma revLowerAt_spec key i c : rev_key key !! i = Some c → revLowerAt key i = Ok c.
Proof.
  unfold rev_key, revLowerAt. rewrite list_lookup_fmap, fmap_Some. intros (x & Hx & ->).
  pose proof (lookup_lt_Some _ _ _ Hx) as Hi. rewrite length_reverse in Hi.
  destruct (Nat.ltb_spec i (length key)); [|lia]. rewrite reverse_lookup in Hx by done.
  replace (length key - 1 - i) with (length key - S i) by lia. by rewrite Hx.
Qed.

Section simulation.
Context (ss : DomainSet) (ds : list nat) (Hss : louds ss ds) (key : str).
#[local] Set Default Proof Using "All".

Definition kids_at (e : nat) (ks : list (ascii * tree)) : Prop :=
  ∀ j c t, ks !! j = Some (c, t) → labels ss !! (e + j) = Some c ∧ rep ss ds (S (e + j)) t.

(** The search is at edge [e] of [node], with the children [ks] to go. *)
Record at_node (node e : nat) (leaf : bool) (ks : list (ascii * tree)) : Prop := {
  at_range : node < length ds;
  at_leaf : bm_bits (leaves ss) !! node = Some leaf;
  at_kids : kids_at e ks;
  at_end : e + length ks = start ds (S node)
}.

Lemma rep_at_node node leaf kids : rep ss ds node (TNode leaf kids) → at_node node (start ds node) leaf kids.
Proof. inversion 1; subst. constructor; [done..| |by rewrite <- start_S]. intros j c t Hj. naive_solver. Qed.

Lemma kids_at_tail e k ks : kids_at e (k :: ks) → kids_at (S e) ks.
Proof. intros Hk j c t Hj. rewrite Nat.add_succ_comm. by apply Hk. Qed.

(** The stack with the trees of its cursors. *)
Definition cursors := list (wildcardCursor * tree).
Definition stack_ok (st : cursors) : Prop :=
  Forall (λ ct, rep ss ds (nodeId ct.1) ct.2 ∧ index ct.1 < length key) st.
Definition stack_val (st : cursors) : bool :=
  existsb (λ ct, star_match ct.2 (drop (index ct.1) (rev_key key))) st.
Definition stack_size (st : cursors) : nat := tsizes st.*2.

Lemma stack_val_cons node i t st :
  stack_val ((Cursor node i, t) :: st) = star_match t (drop i (rev_key key)) || stack_val st.
Proof. done. Qed.
Lemma stack_size_cons cur t st : stack_size ((cur, t) :: st) = tsize t + stack_size st.
Proof. done. Qed.

Lemma drop_index i c xs : drop i (rev_key key) = c :: xs →
  i < length key ∧ revLowerAt key i = Ok c ∧ drop (S i) (rev_key key) = xs.
Proof.
  intros Hd. assert (rev_key key !! i = Some c) as Hc.
  { replace i with (i + 0) by lia. by rewrite <- lookup_drop, Hd. }
  split; [rewrite <- (length_rev_key key); by eapply lookup_lt_Some|]. split; [by apply revLowerAt_spec|].
  rewrite <- Nat.add_1_r, <- drop_drop, Hd. done.
Qed.

Lemma scan_spec c i xs ks e (st : cursors) : kids_at e ks → stack_ok st → drop i (rev_key key) = c :: xs →
  ∃ r st', scan_children ss (length ks) c i e st.*1 = Ok (r, st'.*1) ∧ stack_ok st' ∧
  match r with
  | ScanMatch => scan_match ks c xs = true
  | ScanMiss => scan_match ks c xs || stack_val st = stack_val st' ∧ stack_size st' ≤ ksize ks + stack_size st
  | ScanFound e' => ∃ t, rep ss ds (S e') t ∧ scan_match ks c xs || stack_val st = tmatch t xs || stack_val st'
      ∧ tsize t + stack_size st' ≤ ksize ks + stack_size st
  end.
Proof.
  intros Hk Hst Hd. destruct (drop_index _ _ _ Hd) as (Hi & _ & _).
  revert e st Hk Hst. induction ks as [|[l t] ks IH]; intros e st Hk Hst.
  { exists ScanMiss, st. split; [done|]. split; [done|]. split; [done|]. cbn. lia. }
  destruct (Hk 0 l t eq_refl) as [Hl Ht]. rewrite Nat.add_0_r in Hl, Ht.
  apply kids_at_tail in Hk. cbn [scan_children length scan_match]. rewrite Hl, ksize_cons.
  destruct (decide (l = complexWildcardByte)); [by exists ScanMatch, st|].
  destruct (decide (l = wildcardByte)); [|destruct (decide (l = c)); [by exists (ScanFound e), st; split; [|split; [|exists t; split; [|split; [|lia]]]]|]].
  - destruct (IH (S e) ((Cursor (S e) i, t) :: st) Hk) as (r & st' & Hsc & Hst' & Hr); [by constructor|].
    exists r, st'. split; [done|]. split; [done|]. revert Hr. rewrite stack_val_cons, stack_size_cons, Hd.
    destruct r as [|e'|].
    + intros ->. apply orb_true_r.
    + intros (t' & Ht' & Heq & Hsz). exists t'. split; [done|]. split; [|lia].
      rewrite <- Heq. by destruct (star_match t (c :: xs)), (scan_match ks c xs).
    + intros [Heq Hsz]. split; [|lia]. rewrite <- Heq. by destruct (star_match t (c :: xs)), (scan_match ks c xs).
  - destruct (IH (S e) st Hk Hst) as (r & st' & Hsc & Hst' & Hr). exists r, st'. split; [done|]. split; [done|].
    destruct r; naive_solver lia.
Qed.

Lemma walk_spec cnt i node e leaf ks (st : cursors) :
  at_node node e leaf ks → cnt = length key - i → i ≤ length key → stack_ok st →
  ∃ r st' b, walk ss key cnt node e i st.*1 = Ok (r, st'.*1) ∧ stack_ok st'
  ∧ match r with WalkEnd n => getBit (leaves ss) n | WalkMatch => Ok true | WalkMiss => Ok false end = Ok b
  ∧ tmatch (TNode leaf ks) (drop i (rev_key key)) || stack_val st = b || stack_val st'
  ∧ (b = false → stack_size st' ≤ ksize ks + stack_size st).
Proof.
  revert i node e leaf ks st. induction cnt as [|cnt IH]; intros i node e leaf ks st Hat Hcnt Hi Hst.
  - exists (WalkEnd node), st, leaf. split; [done|]. split; [done|]. rewrite getBit_spec, (at_leaf _ _ _ _ Hat).
    split; [done|]. rewrite tmatch_node, drop_ge by (rewrite length_rev_key; lia). split; [done|lia].
  - destruct (drop i (rev_key key)) as [|c xs] eqn:Hd.
    { apply (f_equal length) in Hd. rewrite length_drop, length_rev_key in Hd. simpl in Hd. lia. }
    destruct (drop_index _ _ _ Hd) as (Hlt & Hc & Hd'). rewrite tmatch_node. cbn [walk]. rewrite Hc. cbn [mbind result_bind].
    rewrite (louds_start _ _ Hss) by (pose proof (at_range _ _ _ _ Hat); lia). cbn [mbind result_bind].
    rewrite <- (at_end _ _ _ _ Hat). replace (e + length ks - e) with (length ks) by lia.
    destruct (scan_spec c i xs ks e st (at_kids _ _ _ _ Hat) Hst Hd) as (r & st1 & -> & Hst1 & Hr). cbn [mbind result_bind].
    destruct r as [|e'|].
    + exists WalkMatch, st1, true. rewrite Hr. done.
    + destruct Hr as ([leaf' kids'] & Hrep & Heq & Hsz). pose proof (rep_at_node _ _ _ Hrep) as Hat'.
      rewrite (louds_start _ _ Hss) by (pose proof (at_range _ _ _ _ Hat'); lia). cbn [mbind result_bind].
      destruct (IH (S i) _ _ _ _ st1 Hat') as (r & st' & b & Hw & Hst' & Hb & Hv & Hs); [lia|lia|done|].
      exists r, st', b. split; [done|]. split; [done|]. split; [done|]. rewrite Hd' in Hv. split; [by rewrite Heq|].
      intros Hf. specialize (Hs Hf). rewrite tsize_node in Hsz. lia.
    + exists WalkMiss, st1, false. destruct Hr as [Heq Hsz]. done.
Qed.

Lemma skip_label_spec cnt i : cnt = length key - i → i ≤ length key →
  ∃ j, skip_label key cnt i = Ok j ∧ j ≤ length key ∧ drop j (rev_key key) = drop_label (drop i (rev_key key)).
Proof.
  revert i. induction cnt as [|cnt IH]; intros i Hcnt Hi.
  - exists i. rewrite drop_ge by (rewrite length_rev_key; lia). done.
  - destruct (drop i (rev_key key)) as [|c xs] eqn:Hd.
    { apply (f_equal length) in Hd. rewrite length_drop, length_rev_key in Hd. simpl in Hd. lia. }
    destruct (drop_index _ _ _ Hd) as (Hlt & Hc & Hd'). cbn [skip_label drop_label]. rewrite Hc. cbn [mbind result_bind].
    destruct (decide (c = domainStepByte)); [by exists i|].
    destruct (IH (S i)) as (j & Hj & Hl & He); [lia|lia|]. exists j. by rewrite Hd' in He.
Qed.

Lemma drop_label_head xs : match drop_label xs with [] => True | c :: _ => c = domainStepByte end.
Proof. induction xs as [|x xs IH]; [done|]. simpl. by case_decide. Qed.

Lemma find_step_spec ks e : kids_at e ks → ∃ o, find_step ss (length ks) e = Ok o ∧
  match o with
  | None => ∀ xs, find_match ks xs = false
  | Some e' => ∃ ks', kids_at e' ks' ∧ e' + length ks' = e + length ks ∧ ksize ks' ≤ ksize ks
      ∧ ∀ xs, find_match ks xs = scan_match ks' domainStepByte xs
  end.
Proof.
  revert e. induction ks as [|[l t] ks IH]; intros e Hk; [by exists None|].
  destruct (Hk 0 l t eq_refl) as [Hl _]. rewrite Nat.add_0_r in Hl. cbn [find_step length find_match]. rewrite Hl.
  destruct (decide (l = domainStepByte)) as [->|Hne].
  - exists (Some e). split; [done|]. exists ((domainStepByte, t) :: ks). done.
  - destruct (IH (S e)) as (o & Ho & Hm); [by eapply kids_at_tail|]. exists o. split; [done|].
    destruct o as [e'|]; [|done]. destruct Hm as (ks' & H1 & H2 & H3 & H4). exists ks'. rewrite ksize_cons.
    split; [done|]. split; [lia|]. split; [lia|done].
Qed.

Lemma pop_cursors_spec (st : cursors) : stack_ok st → ∃ res, pop_cursors ss key st.*1 = Ok res ∧
  match res with
  | ResumeMatch => stack_val st = true
  | ResumeNone => stack_val st = false
  | ResumeAt node e i stack => ∃ leaf ks st', stack = st'.*1 ∧ stack_ok st' ∧ at_node node e leaf ks ∧ i < length key
      ∧ stack_val st = tmatch (TNode leaf ks) (drop i (rev_key key)) || stack_val st'
      ∧ ksize ks + stack_size st' < stack_size st
  end.
Proof.
  induction st as [|[[node i] t] st IH]; intros Hst; [by exists ResumeNone|].
  apply Forall_cons in Hst as [[Hrep Hi] Hst]. cbn [nodeId index fst snd] in *. cbn [fmap list_fmap pop_cursors fst].
  destruct (skip_label_spec (length key - i) i) as (j & -> & Hj & Hd); [done|lia|]. cbn [mbind result_bind].
  destruct t as [leaf kids]. pose proof (rep_at_node _ _ _ Hrep) as Hat. pose proof (at_range _ _ _ _ Hat).
  destruct (IH Hst) as (res & Hres & Hv).
  assert (∃ res, pop_cursors ss key st.*1 = Ok res ∧ (star_match (TNode leaf kids) (drop i (rev_key key)) = false →
    match res with
    | ResumeMatch => stack_val ((Cursor node i, TNode leaf kids) :: st) = true
    | ResumeNone => stack_val ((Cursor node i, TNode leaf kids) :: st) = false
    | ResumeAt node' e i' stack => ∃ leaf' ks st', stack = st'.*1 ∧ stack_ok st' ∧ at_node node' e leaf' ks ∧ i' < length key
        ∧ stack_val ((Cursor node i, TNode leaf kids) :: st) = tmatch (TNode leaf' ks) (drop i' (rev_key key)) || stack_val st'
        ∧ ksize ks + stack_size st' < stack_size ((Cursor node i, TNode leaf kids) :: st)
    end)) as (res' & Hres' & Hnext).
  { exists res. split; [done|]. intros Hf. rewrite stack_val_cons, stack_size_cons, Hf. destruct res; [done..|].
    destruct Hv as (leaf' & ks & st' & H1 & H2 & H3 & H4 & H5 & H6). exists leaf', ks, st'.
    repeat (split; [done|]). lia. }
  clear res Hres Hv. unfold star_match in Hnext. rewrite <- Hd in Hnext.
  destruct (Nat.eqb_spec j (length key)) as [->|Hne].
  - rewrite drop_ge in Hnext, Hd by (rewrite length_rev_key; lia). rewrite getBit_spec, (at_leaf _ _ _ _ Hat).
    cbn [mbind result_bind]. destruct leaf; [|naive_solver].
    exists ResumeMatch. split; [done|]. rewrite stack_val_cons. cbn [star_match]. by rewrite <- Hd.
  - rewrite !(louds_start _ _ Hss) by lia. cbn [mbind result_bind]. rewrite <- (at_end _ _ _ _ Hat).
    replace (start ds node + length kids - start ds node) with (length kids) by lia.
    destruct (drop j (rev_key key)) as [|c xs] eqn:Hdj.
    { apply (f_equal length) in Hdj. rewrite length_drop, length_rev_key in Hdj. simpl in Hdj. lia. }
    destruct (find_step_spec kids _ (at_kids _ _ _ _ Hat)) as (o & -> & Ho). cbn [mbind result_bind].
    destruct o as [e'|]; [|exists res'; split; [done|]; by apply Hnext].
    destruct Ho as (ks' & Hk & Hl & Hs & Hm). eexists. split; [done|]. exists leaf, ks', st.
    pose proof (drop_label_head (drop i (rev_key key))) as Hc. rewrite <- Hd in Hc. subst c.
    split; [done|]. split; [done|]. split; [constructor; [apply Hat..|done|by rewrite Hl; apply Hat]|]. split; [lia|].
    rewrite stack_val_cons, stack_size_cons, tsize_node, Hdj, tmatch_node. split; [|lia].
    cbn [star_match]. by rewrite <- Hd, Hm.
Qed.

Lemma has_loop_spec fuel node e i leaf ks (st : cursors) : at_node node e leaf ks → i ≤ length key → stack_ok st →
  ksize ks + stack_size st < fuel →
  has_loop fuel ss key node e i st.*1 = Ok (tmatch (TNode leaf ks) (drop i (rev_key key)) || stack_val st).
Proof.
  revert node e i leaf ks st. induction fuel as [|fuel IH]; intros node e i leaf ks st Hat Hi Hst Hf; [lia|].
  cbn [has_loop]. destruct (walk_spec (length key - i) i node e leaf ks st) as (r & st1 & b & -> & Hst1 & Hb & -> & Hs); [done..|].
  cbn [mbind result_bind]. rewrite Hb. cbn [mbind result_bind]. destruct b; [done|]. specialize (Hs eq_refl).
  destruct (pop_cursors_spec st1 Hst1) as (res & -> & Hv). cbn [mbind result_bind]. rewrite orb_false_l.
  destruct res as [| |node' e' i' stack]; [by rewrite Hv..|].
  destruct Hv as (leaf' & ks' & st' & -> & Hst' & Hat' & Hi' & Hv & Hsz). rewrite Hv. apply IH; [done|lia|done|lia].
Qed.
End simulation.

(** The answer of [Has] on a set of this kind. *)
Lemma Has_tree (unicode_lower : str → str) ss ds t key : louds ss ds → rep ss ds 0 t →
  Has unicode_lower (Some ss) key = Ok (tmatch t (rev_key (normalize_key unicode_lower key))).
Proof.
  intros Hss Hrep. unfold Has. rewrite (louds_index _ _ Hss). pose proof (louds_nodes _ _ Hss).
  destruct (Nat.ltb_spec (S (length ds)) 2); [lia|]. rewrite (louds_start _ _ Hss) by lia. cbn [mbind result_bind].
  destruct t as [leaf kids]. pose proof (rep_at_node ss ds Hss key _ _ _ Hrep) as Hat.
  pose proof (root_size ss ds Hss _ Hrep) as Hsz. rewrite tsize_node in Hsz.
  pose proof (has_loop_spec ss ds Hss (normalize_key unicode_lower key) (S (length ds)) _ _ 0 _ _ [] Hat) as Hl.
  cbn [fmap list_fmap] in Hl. rewrite Hl; [|lia|constructor|unfold stack_size, tsizes; cbn; lia].
  by rewrite drop_0, orb_false_r.
Qed.

(** ** Validated sets *)

(** The balance loop counts the bits of the prefix, and every proper prefix it
    passes has no more ones than zeros. *)
Lemma balance_loop_spec bm LB cnt i zeros one z o :
  cnt = LB - i → i ≤ LB → one = ones (take i (bm_bits bm)) → zeros + one = i →
  balance_loop bm LB cnt i zeros one = Ok (z, o) →
  o = ones (take LB (bm_bits bm)) ∧ z + o = LB
  ∧ ∀ m, i < m < LB → 2 * ones (take m (bm_bits bm)) ≤ m.
Proof.
  revert i zeros one. induction cnt as [|cnt IH]; intros i zeros one Hcnt Hi Hone Hsum.
  { cbn. intros [= <- <-]. assert (i = LB) as -> by lia. split; [done|]. split; [done|]. lia. }
  cbn [balance_loop]. rewrite getBit_spec. destruct (bm_bits bm !! i) as [b|] eqn:Hb; [|done].
  cbn [mbind result_bind]. intros Hl.
  assert (ones (take (S i) (bm_bits bm)) = one + (if b then 1 else 0)) as Hnext.
  { rewrite (take_S_r _ _ _ Hb), ones_app, <- Hone. by destruct b. }
  destruct ((i <? LB - 1)%nat && ((if b then zeros else S zeros) <? (if b then S one else one))%nat) eqn:Hc; [done|].
  destruct (IH (S i) (if b then zeros else S zeros) (if b then S one else one) ltac:(lia) ltac:(lia) ltac:(by rewrite Hnext; destruct b; lia) ltac:(destruct b; lia) Hl) as (H1 & H2 & H3).
  split; [done|]. split; [done|]. intros m Hm. destruct (decide (m = S i)) as [->|]; [|apply H3; lia].
  apply andb_false_iff in Hc. rewrite !Nat.ltb_ge in Hc. rewrite Hnext. destruct b; lia.
Qed.

Lemma ones_take_le n l : ones (take n l) ≤ ones l.
Proof. rewrite <- (take_drop n l) at 2. rewrite ones_app. lia. Qed.

(** A sequence that ends in its last 1 bit. *)
Lemma enc_length l ds k LB : l = enc ds ++ replicate k false → ones (take LB l) = ones l →
  l !! (LB - 1) = Some true → 0 < LB → length (enc ds) = LB.
Proof.
  intros -> Ho Hl HLB. assert (LB ≤ length (enc ds)) as Hle.
  { destruct (decide (LB ≤ length (enc ds))) as [|Hn]; [done|]. rewrite lookup_app_r in Hl by lia.
    apply lookup_replicate in Hl as [? _]. done. }
  destruct (decide (LB = length (enc ds))) as [|Hne]; [done|].
  destruct ds as [|d ds _] using rev_ind; [simpl in *; lia|]. exfalso.
  assert (enc [d] = replicate d false ++ [true]) as Ed by (by rewrite enc_cons).
  rewrite enc_app, Ed in *. clear Ed.
  rewrite !ones_app, ones_false, !length_app, length_replicate in *. simpl length in *.
  assert (take LB ((enc ds ++ replicate d false ++ [true]) ++ replicate k false)
    = take LB (enc ds ++ replicate d false)) as Ht.
  { rewrite !(assoc_L (++)), take_app_le, take_app_le; [done|rewrite length_app, length_replicate; lia..|].
    rewrite !length_app, length_replicate. simpl. lia. }
  rewrite Ht in Ho. pose proof (ones_take_le LB (enc ds ++ replicate d false)) as Hx.
  rewrite ones_app, ones_false in Hx. rewrite Ho, ones_false in Hx. change (ones [true]) with 1 in Hx. lia.
Qed.

(** [init] on a bitmap of this shape. *)
Lemma init_set_louds lv bm lb ds k : bm_bits bm = enc ds ++ replicate k false →
  (Z.of_nat (length (bm_bits bm)) < 2 ^ 31)%Z → length lb = sum_list ds → length ds = S (sum_list ds) →
  (∀ n, n < length ds → n ≤ start ds n) → length ds ≤ length (bm_bits lv) →
  ∃ cs, init_set lv bm lb = Ok (MkDomainSet lv bm lb cs) ∧ louds (MkDomainSet lv bm lb cs) ds.
Proof.
  intros Hb Hlt Hlb Hn Ha Hlv. destruct (buildChildIndex_spec bm ds k) as (cs & Hcs & Hl & Hst); [done|by intros ->|done|].
  exists cs. unfold init_set. rewrite Hcs. split; [done|]. constructor; cbn; [done| |done..|by exists k].
  intros n Hle. unfold child_start. cbn. rewrite (Hst n Hle). destruct (Z.ltb_spec (Z.of_nat (start ds n)) 0); [lia|].
  by rewrite Nat2Z.id.
Qed.

Lemma words_cover n : n ≤ 64 * ((n + 63) / 64).
Proof. pose proof (Nat.div_mod (n + 63) 64). pose proof (Nat.mod_upper_bound (n + 63) 64). lia. Qed.
Lemma words_bound n : 64 * ((n + 63) / 64) ≤ n + 63.
Proof. pose proof (Nat.div_mod (n + 63) 64). lia. Qed.
Lemma words_pos n : 0 < n → (n + 63) / 64 ≠ 0.
Proof. intros. pose proof (words_cover n). lia. Qed.

Lemma padded_returns bm n : bm ≠ [] → ∃ b, padded bm n = Ok b.
Proof.
  intros Hne. unfold padded. destruct (n mod 64 =? 0)%nat; [by eexists|].
  destruct (last bm) eqn:E; [by eexists|]. by apply last_None in E.
Qed.

Lemma balance_loop_returns bm LB cnt i zeros one : cnt = LB - i → i ≤ LB → LB ≤ length (bm_bits bm) →
  balance_loop bm LB cnt i zeros one ≠ Panic.
Proof.
  revert i zeros one. induction cnt as [|cnt IH]; intros i zeros one Hcnt Hi HLB; [done|].
  cbn [balance_loop]. rewrite getBit_spec. destruct (lookup_lt_is_Some_2 (bm_bits bm) i) as [b ->]; [lia|].
  cbn [mbind result_bind]. case_match; [done|]. apply IH; lia.
Qed.

(** What [validateBinary] accepts is in level order, and it never panics. *)
Lemma validateBinary_louds lv bm lb : (Z.of_nat (length lb) ≤ maxBinaryDomainLabels)%Z →
  match validateBinary lv bm lb with
  | Ok _ => ∃ cs ds, init_set lv bm lb = Ok (MkDomainSet lv bm lb cs) ∧ louds (MkDomainSet lv bm lb cs) ds
  | Err _ => True
  | Panic => False
  end.
Proof.
  intros Hmax. unfold validateBinary. rewrite !count_ones_spec. set (N := ones (bm_bits bm)).
  destruct ((N <? 2)%nat || negb (N =? length lb + 1)%nat) eqn:HN; [done|].
  apply orb_false_iff in HN as [HN2 HNl]. apply Nat.ltb_ge in HN2. apply negb_false_iff, Nat.eqb_eq in HNl.
  destruct (Nat.eqb_spec (length bm) ((2 * N - 1 + 63) / 64)) as [Hbm|]; [|done]. cbn [negb].
  pose proof (words_cover (2 * N - 1)) as Hcov. pose proof (words_bound (2 * N - 1)) as Hbd. rewrite <- Hbm in Hcov, Hbd.
  destruct (padded_returns bm (2 * N - 1)) as [p ->]; [intros E; rewrite E in Hcov; simpl in Hcov; lia|]. cbn [mbind result_bind].
  destruct p; [done|]. destruct (Nat.eqb_spec (length lv) ((N + 63) / 64)) as [Hlv|]; [|done]. cbn [negb].
  pose proof (words_cover N) as Hcov'. rewrite <- Hlv in Hcov'.
  destruct (padded_returns lv N) as [p ->]; [intros E; rewrite E in Hcov'; simpl in Hcov'; lia|]. cbn [mbind result_bind].
  destruct p; [done|]. destruct (ones (bm_bits lv) =? 0)%nat; [done|].
  pose proof (balance_loop_returns bm (2 * N - 1) (2 * N - 1) 0 0 0) as Hret.
  rewrite length_bm_bits in Hret. specialize (Hret ltac:(lia) ltac:(lia) ltac:(lia)).
  destruct (balance_loop bm (2 * N - 1) (2 * N - 1) 0 0 0) as [[z o]| |] eqn:Hbal; [|done|by destruct Hret].
  cbn [mbind result_bind]. rewrite getBit_spec.
  destruct (lookup_lt_is_Some_2 (bm_bits bm) (2 * N - 1 - 1)) as [lastb Hlast]; [rewrite length_bm_bits; lia|].
  rewrite Hlast. cbn [mbind result_bind].
  destruct (negb (z =? N - 1)%nat || negb (o =? N)%nat || negb lastb) eqn:Hf; [done|].
  apply orb_false_iff in Hf as [[Hz Ho]%orb_false_iff Hlb]. apply negb_false_iff in Hlb as ->.
  apply negb_false_iff, Nat.eqb_eq in Hz, Ho.
  apply balance_loop_spec in Hbal as (Ho' & _ & Hbal); [|lia|lia|done|done].
  destruct (enc_exists (bm_bits bm)) as (ds & k & Henc). assert (length ds = N) as Hds by (unfold N; rewrite Henc, ones_app, ones_enc, ones_false; lia).
  assert (length (enc ds) = 2 * N - 1) as HLB by (eapply enc_length; [exact Henc|rewrite <- Ho'; exact Ho|exact Hlast|lia]).
  pose proof (length_enc ds) as Hlen. rewrite HLB, Hds in Hlen. unfold maxBinaryDomainLabels in Hmax.
  destruct (init_set_louds lv bm lb ds k) as (cs & Hcs & Hl); [done| |lia|lia| |rewrite length_bm_bits; lia|by exists cs, ds].
  - rewrite length_bm_bits. change (2 ^ 24)%Z with 16777216%Z in Hmax. change (2 ^ 31)%Z with 2147483648%Z. lia.
  - intros [|n] Hn; [lia|]. assert (ds = take (S n) ds ++ drop (S n) ds) as Hsplit by (by rewrite take_drop).
    pose proof (length_enc (take (S n) ds)) as Hp. fold (start ds (S n)) in Hp. rewrite length_take in Hp.
    pose proof (f_equal length (eq_trans (f_equal enc Hsplit) (enc_app _ _))) as Hq. rewrite length_app, !length_enc, length_drop in Hq.
    assert (ones (take (length (enc (take (S n) ds))) (bm_bits bm)) = S n) as Hon.
    { rewrite Henc. replace (enc ds) with (enc (take (S n) ds) ++ enc (drop (S n) ds)) by (by rewrite <- enc_app, take_drop).
      rewrite <- app_assoc, take_app_length, ones_enc, length_take. lia. }
    specialize (Hbal (length (enc (take (S n) ds)))). rewrite Hon in Hbal. rewrite (length_enc (take _ _)), length_take in Hbal.
    fold (start ds (S n)) in *. pose proof (start_mono ds (S n) (length ds)) as Hm. rewrite start_length in Hm. lia.
Qed.

(** ** Enumeration *)

Lemma enc_split ds n d : ds !! n = Some d →
  enc ds = enc (take n ds) ++ replicate d false ++ true :: enc (drop (S n) ds).
Proof.
  intros Hd. rewrite <- (take_drop_middle ds n d Hd) at 1. by rewrite enc_app, enc_cons.
Qed.
Lemma length_enc_take ds n : n ≤ length ds → length (enc (take n ds)) = start ds n + n.
Proof. intros Hn. rewrite length_enc, length_take, Nat.min_l by done. done. Qed.

Lemma enc_zero ds r n d j : ds !! n = Some d → j < d →
  (enc ds ++ r) !! (start ds n + n + j) = Some false ∧ ones (take (start ds n + n + j + 1) (enc ds ++ r)) = n.
Proof.
  intros Hd Hj. pose proof (lookup_lt_Some _ _ _ Hd). pose proof (length_enc_take ds n ltac:(lia)) as Hl.
  rewrite (enc_split ds n d Hd), <- app_assoc, <- Hl. split.
  - rewrite lookup_app_r by lia. replace (_ + j - _) with j by lia. rewrite <- app_assoc, lookup_app_l by (rewrite length_replicate; lia).
    by apply lookup_replicate_2.
  - rewrite <- Nat.add_assoc, take_app_add, ones_app, ones_enc, length_take, <- app_assoc, take_app_le by (rewrite length_replicate; lia).
    rewrite take_replicate, ones_false. lia.
Qed.
Lemma enc_one ds r n : n < length ds →
  (enc ds ++ r) !! (start ds (S n) + n) = Some true ∧ ones (take (start ds (S n) + n) (enc ds ++ r)) = n.
Proof.
  intros Hn. destruct (lookup_lt_is_Some_2 ds n Hn) as [d Hd]. pose proof (length_enc_take ds n ltac:(lia)) as Hl.
  rewrite (start_S _ _ _ Hd). replace (start ds n + d + n) with (length (enc (take n ds)) + d) by lia.
  rewrite (enc_split ds n d Hd), <- app_assoc. split.
  - rewrite lookup_app_r by lia. rewrite <- app_assoc, lookup_app_r by (rewrite length_replicate; lia).
    rewrite length_replicate. by replace (_ + d - _ - d) with 0 by lia.
  - rewrite take_app_add, ones_app, ones_enc, length_take, <- app_assoc, take_app_le by (rewrite length_replicate; lia).
    rewrite take_replicate, ones_false. lia.
Qed.

(** The keys of a tree, by a callback that can stop. *)
Section visit.
Context {S : Type} (f : str → S → bool * S).

Fixpoint tvisit (t : tree) (cur : str) (st : S) : bool * S :=
  match t with
  | TNode leaf kids =>
    let '(ok, st) := if leaf then f cur st else (true, st) in
    if ok : bool then
      (fix go kids st := match kids with
        | [] => (true, st)
        | (c, t) :: kids => let '(ok, st) := tvisit t (cur ++ [c]) st in if ok : bool then go kids st else (false, st)
        end) kids st
    else (false, st)
  end.
Fixpoint visit_kids (kids : list (ascii * tree)) (cur : str) (st : S) : bool * S :=
  match kids with
  | [] => (true, st)
  | (c, t) :: kids => let '(ok, st) := tvisit t (cur ++ [c]) st in if ok : bool then visit_kids kids cur st else (false, st)
  end.
Lemma tvisit_node leaf kids cur st : tvisit (TNode leaf kids) cur st =
  let '(ok, st) := if leaf then f cur st else (true, st) in
  if ok : bool then visit_kids kids cur st else (false, st).
Proof.
  cbn [tvisit]. destruct (if leaf then f cur st else (true, st)) as [[] st']; [|done].
  revert st'. induction kids as [|[c t] kids IH]; intros st'; [done|]. cbn [visit_kids].
  destruct (tvisit t (cur ++ [c]) st') as [[] ?]; [apply IH|done].
Qed.
End visit.

Section traversal.
Context `{BitmapIndex} {A : Type} (f : str → A → bool * A).
Context (ss : DomainSet) (ds : list nat) (Hss : louds ss ds).
#[local] Set Default Proof Using "All".

Lemma next_node n d j : ds !! n = Some d → j < d → S (start ds n + j) < length ds →
  getBit (labelBitmap ss) (start ds n + n + j) = Ok false
  ∧ countZeros (labelBitmap ss) (start ds n + n + j + 1) = S (start ds n + j)
  ∧ selectIthOne (labelBitmap ss) (start ds n + j) + 1 = start ds (S (start ds n + j)) + S (start ds n + j).
Proof.
  intros Hd Hj Hlt. destruct (louds_bits _ _ Hss) as [k Hb]. set (m := start ds n + j) in *.
  destruct (enc_zero ds (replicate k false) n d j Hd Hj) as [H0 H1]. pose proof (lookup_lt_Some _ _ _ H0) as Hl.
  destruct (enc_one ds (replicate k false) m ltac:(lia)) as [H2 H3]. rewrite <- Hb in *.
  split; [by rewrite getBit_spec, H0|]. split.
  - unfold countZeros. rewrite Rank64_spec by lia. unfold ones in H1. rewrite H1. unfold m. lia.
  - unfold selectIthOne. rewrite (Select32R64_spec _ m (start ds (S m) + m)) by (done || by rewrite <- H3). lia.
Qed.

Lemma edges_loop_spec visit cnt node leaf pre ks cur (st : A) :
  rep ss ds node (TNode leaf (pre ++ ks)) → length ks < cnt →
  (∀ i c t st, (pre ++ ks) !! i = Some (c, t) →
    visit (S (start ds node + i)) (start ds (S (start ds node + i)) + S (start ds node + i)) (cur ++ [c]) st
    = Ok (tvisit f t (cur ++ [c]) st)) →
  edges_loop ss visit cnt node (start ds node + node + length pre) cur st = Ok (visit_kids f ks cur st).
Proof.
  revert pre ks st. induction cnt as [|cnt IH]; intros pre ks st Hrep Hcnt Hv; [lia|]. cbn [edges_loop].
  inversion Hrep as [? ? ? Hn Hleaf Hd Hlab Hkids]; subst. destruct ks as [|[c t] ks].
  - destruct (louds_bits _ _ Hss) as [k Hb]. destruct (enc_one ds (replicate k false) node Hn) as [H2 _].
    rewrite app_nil_r in Hd. rewrite getBit_spec, Hb. rewrite (start_S _ _ _ Hd) in H2.
    replace (start ds node + node + length pre) with (start ds node + length pre + node) by lia. by rewrite H2.
  - assert ((pre ++ (c, t) :: ks) !! length pre = Some (c, t)) as Hj by (by rewrite list_lookup_middle).
    pose proof (Hkids _ _ _ Hj) as Ht. assert (S (start ds node + length pre) < length ds) as Hlt by (by inversion Ht).
    destruct (next_node node _ (length pre) Hd) as (Hb & Hz & Hs); [rewrite length_app; simpl; lia|done|].
    rewrite Hb. cbn [mbind result_bind]. replace (start ds node + node + length pre - node) with (start ds node + length pre) by lia.
    rewrite (Hlab _ _ _ Hj), Hz. replace (S (start ds node + length pre) - 1) with (start ds node + length pre) by lia.
    rewrite Hs, (Hv _ _ _ st Hj). cbn [mbind result_bind visit_kids].
    destruct (tvisit f t (cur ++ [c]) st) as [[] st']; [|done].
    replace (start ds node + node + length pre + 1) with (start ds node + node + length (pre ++ [(c, t)])) by (rewrite length_app; simpl; lia).
    apply IH; rewrite <- ?app_assoc; simpl in *; [done|lia|done].
Qed.

Lemma traverse_spec fuel node t cur (st : A) : rep ss ds node t → tsize t ≤ fuel →
  traverse f fuel ss node (start ds node + node) cur st = Ok (tvisit f t cur st).
Proof.
  revert node t cur st. induction fuel as [|fuel IH]; intros node [leaf kids] cur st Hrep Hf; rewrite tsize_node in Hf; [lia|].
  inversion Hrep as [? ? ? Hn Hleaf Hd Hlab Hkids]; subst. cbn [traverse]. rewrite getBit_spec, Hleaf, tvisit_node.
  cbn [mbind result_bind]. destruct (if leaf then f cur st else (true, st)) as [[] st']; [|done].
  rewrite <- (Nat.add_0_r (start ds node + node)). apply (edges_loop_spec _ _ _ leaf []); [done| |].
  - destruct (louds_bits _ _ Hss) as [k Hb]. apply (f_equal length) in Hb.
    rewrite length_bm_bits, length_app, length_enc in Hb. pose proof (start_S _ _ _ Hd) as Hs.
    pose proof (start_mono ds (S node) (length ds)) as Hm. rewrite start_length in Hm. lia.
  - intros i c t st0 Hi. simpl in Hi. apply IH; [by eapply Hkids|].
    assert (tsize t ≤ ksize kids); [|lia]. rewrite <- (take_drop_middle _ _ _ Hi).
    rewrite ksize_app, ksize_cons. lia.
Qed.

Lemma set_keys_spec t (st : A) : rep ss ds 0 t → set_keys f ss st = Ok (tvisit f t [] st).2.
Proof.
  intros Hrep. unfold set_keys. pose proof (root_size ss ds Hss _ Hrep) as Hsz.
  pose proof (traverse_spec (length (childStart ss)) 0 t [] st Hrep) as Ht. rewrite start_0, Nat.add_0_r in Ht.
  rewrite (louds_index _ _ Hss) in *. rewrite Ht by lia. cbn [mbind result_bind]. by destruct (tvisit f t [] st).
Qed.
End traversal.

(** ** Files *)

Lemma readUint64Slice_returns lo hi r : readUint64Slice lo hi r ≠ Panic.
Proof.
  unfold readUint64Slice. pose proof (read_full_returns 8 r). destruct (read_full 8 r) as [[hdr r']| |]; [|done..].
  cbn [mbind result_bind]. case_match; [done|]. pose proof (read_full_returns (Z.to_nat (wrap int64 (be_get hdr)) * 8) r').
  by destruct (read_full _ r') as [[]| |].
Qed.

(** A file is read to a set in level order or refused. *)
Lemma ReadDomainSetBin_louds r :
  match ReadDomainSetBin r with
  | Ok ss => ∃ ds t, louds ss ds ∧ rep ss ds 0 t
  | Err _ => True
  | Panic => False
  end.
Proof.
  unfold ReadDomainSetBin. pose proof (read_full_returns 1 r). destruct (read_full 1 r) as [[v r1]| |]; [|done..].
  cbn [mbind result_bind]. destruct (negb _); [done|].
  pose proof (readUint64Slice_returns 1 ((maxBinaryDomainLabels + 64) / 64) r1).
  destruct (readUint64Slice _ _ r1) as [[lv r2]| |]; [|done..]. cbn [mbind result_bind].
  pose proof (readUint64Slice_returns 1 ((2 * maxBinaryDomainLabels + 64) / 64) r2).
  destruct (readUint64Slice _ _ r2) as [[bm r3]| |]; [|done..]. cbn [mbind result_bind].
  pose proof (read_full_returns 8 r3). destruct (read_full 8 r3) as [[hdr r4]| |]; [|done..]. cbn [mbind result_bind].
  destruct (_ || _) eqn:Hlen; [done|]. apply orb_false_iff in Hlen as [Hlo Hhi]. apply Z.ltb_ge in Hlo, Hhi.
  pose proof (read_full_returns (Z.to_nat (wrap int64 (be_get hdr))) r4).
  destruct (read_full _ r4) as [[lb r5]| |] eqn:Hlb; [|done..]. cbn [mbind result_bind].
  pose proof (validateBinary_louds lv bm lb) as Hval. unfold read_full in Hlb.
  destruct (length r4 <? _)%nat in Hlb; [done|]. injection Hlb as <- _. rewrite length_take in Hval. specialize (Hval ltac:(lia)).
  destruct (validateBinary lv bm _) as [[]| |]; [|done..]. cbn [mbind result_bind].
  destruct Hval as (cs & ds & -> & Hl). destruct (rep_exists _ _ Hl 0) as [t Ht]; [rewrite (louds_nodes _ _ Hl); lia|].
  by exists ds, t.
Qed.

(** A lookup and an enumeration that return. *)
Definition usable (ss : DomainSet) : Prop :=
  (∀ (unicode_lower : str → str) key, ∃ b, Has unicode_lower (Some ss) key = Ok b)
  ∧ ∀ (B : BitmapIndex) (A : Type) (f : str → A → bool * A) st, ∃ st', set_Foreach f ss st = Ok st'.

(** A library of rank and select that scans the bitmap. *)
Fixpoint scan_select (l : list bool) (i : nat) : nat :=
  match l with
  | [] => 0
  | b :: l => if b : bool then match i with 0 => 0 | S i => S (scan_select l i) end else S (scan_select l i)
  end.
Lemma scan_select_spec l i p : l !! p = Some true → length (List.filter id (take p l)) = i → scan_select l i = p.
Proof.
  revert i p. induction l as [|b l IH]; intros i [|p] Hp; try done; cbn in *.
  - injection Hp as ->. by intros <-.
  - intros Hi. destruct b; cbn in Hi; [destruct i as [|i]; [done|]|]; f_equal; apply IH; try done. by injection Hi.
Qed.
Definition scan_index : BitmapIndex := {|
  Rank64 bm i := length (List.filter id (take i (bm_bits bm)));
  Select32R64 bm i := scan_select (bm_bits bm) i;
  Rank64_spec bm i _ := eq_refl;
  Select32R64_spec bm i p := scan_select_spec (bm_bits bm) i p
|}.

(** C25: whatever a rule-set file holds, reading it gives a set or an error, and
    on a set that is read every lookup and every enumeration returns: no index
    of the tables is out of range, the wildcard stack empties, and the recursion
    of the enumeration ends. [validateBinary] is enough for what [Has] and
    [Foreach] assume. *)
Theorem ReadDomainSetBin_safe (r : str) :
  match ReadDomainSetBin r with Ok ss => usable ss | Err _ => True | Panic => False end.
Proof.
  pose proof (ReadDomainSetBin_louds r) as Hr. destruct (ReadDomainSetBin r) as [ss| |]; [|done..].
  destruct Hr as (ds & t & Hl & Hrep). split.
  - intros unicode_lower key. eexists. by eapply Has_tree.
  - intros B A f st. eexists. unfold set_Foreach. by eapply set_keys_spec.
Qed.

(** The file of the set of one name, which is read. *)
Definition demo_file : str :=
  WriteBin {| leaves := [2%Z]; labelBitmap := [6%Z]; labels := lit "a"; childStart := [] |}.

Lemma ReadDomainSetBin_safe_witness : ∃ ss st, ReadDomainSetBin demo_file = Ok ss
  ∧ @set_Foreach scan_index _ (λ k st, (true, k :: st)) ss [] = Ok st.
Proof.
  pose proof (ReadDomainSetBin_safe demo_file) as Hs.
  assert (∃ ss, ReadDomainSetBin demo_file = Ok ss) as [ss E] by (eexists; vm_compute; reflexivity).
  rewrite E in Hs. destruct Hs as [_ Hs]. destruct (Hs scan_index _ (λ k st, (true, k :: st)) []) as [st Hst].
  exists ss, st. split; [exact E|exact Hst].
Defined.
