(* ===== verification/DomainSetBuild.v ===== *)
(** * DomainSetBuild: the set of a trie holds its patterns

    [NewDomainSet] of src/component/trie/domain_set.go: the breadth-first loop
    over the sorted keys writes the level order of the trie of the keys, so
    [Has] answers whether a key matches. For valid names of ASCII bytes not
    below the wildcard byte that is what [DomainTrie.Search] answers on the trie the set was built
    from, which the comments of the package promise. A set that was built can be
    written and read back. *)
From S2P Require Import Prelude GoStrings Bytes NetIP DomainTrie DomainSet DomainSetFacts.

(** ** Writing bits *)

Record bm_rep (bm : list Z) (l : list bool) : Prop := {
  bm_words : length bm = (length l + 63) / 64;
  bm_content : bm_bits bm = l ++ replicate (64 * length bm - length l) false;
  bm_range : Forall (λ w, 0 ≤ w < 2 ^ 64)%Z bm
}.

Lemma bm_rep_nil : bm_rep [] [].
Proof. by constructor. Qed.

Lemma bit_word_range v k : k < 64 → (0 ≤ Z.shiftl (Z.b2z v) (Z.of_nat k) < 2 ^ 64)%Z.
Proof.
  intros Hk. rewrite Z.shiftl_mul_pow2 by lia. pose proof (Z.pow_pos_nonneg 2 (Z.of_nat k) ltac:(lia) ltac:(lia)).
  pose proof (Z.pow_lt_mono_r 2 (Z.of_nat k) 64 ltac:(lia) ltac:(lia) ltac:(lia)). destruct v; simpl Z.b2z; lia.
Qed.

Lemma wrap_bit_word v k : k < 64 → wrap uint64 (Z.shiftl (Z.b2z v) (Z.of_nat k)) = Z.shiftl (Z.b2z v) (Z.of_nat k).
Proof.
  intros Hk. pose proof (bit_word_range v k Hk). apply wrap_id; [done|].
  unfold in_int, int_min, int_max, uint64. cbn [it_signed it_bits]. lia.
Qed.

Lemma testbit_bit_word v k j : k < 64 → j < 64 →
  Z.testbit (Z.shiftl (Z.b2z v) (Z.of_nat k)) (Z.of_nat j) = bool_decide (j = k) && v.
Proof.
  intros Hk Hj. rewrite Z.shiftl_spec by lia. case_bool_decide as E; [subst|].
  - rewrite Z.sub_diag. by destruct v.
  - destruct (decide (j < k)); [by rewrite Z.testbit_neg_r by lia|]. simpl.
    replace (Z.of_nat j - Z.of_nat k)%Z with (Z.of_nat (S (j - k - 1))) by lia.
    destruct v; [|by rewrite Z.bits_0]. apply (Z.bits_above_log2 1); [lia|]. simpl. lia.
Qed.

Lemma bm_bits_zeros k : bm_bits (repeat 0%Z k) = replicate (64 * k) false.
Proof.
  apply list_eq. intros i. rewrite bm_bits_lookup. destruct (decide (i < 64 * k)) as [Hi|Hi].
  - assert (repeat 0%Z k !! (i / 64) = Some 0%Z) as ->.
    { assert (i / 64 < k) as Hlt by (apply Nat.Div0.div_lt_upper_bound; lia).
      destruct (lookup_lt_is_Some_2 (repeat 0%Z k) (i / 64)) as [x Hx]; [by rewrite repeat_length|].
      rewrite Hx. f_equal. apply list_elem_of_lookup_2, list_elem_of_In in Hx. by apply repeat_spec in Hx. }
    rewrite lookup_replicate_2 by done. simpl. by rewrite Z.bits_0.
  - rewrite !lookup_ge_None_2; [done|..]; rewrite ?repeat_length, ?length_replicate; [lia|].
    apply Nat.div_le_lower_bound; lia.
Qed.

Lemma setBit_bits bm i v p : bm_bits (setBit bm i v) !! p =
  (λ b : bool, b || (bool_decide (p = i) && v)) <$> bm_bits (bm ++ repeat 0%Z (S (i / 64) - length bm)) !! p.
Proof.
  unfold setBit. rewrite !bm_bits_lookup. set (bm' := bm ++ _).
  pose proof (Nat.mod_upper_bound i 64 ltac:(lia)). pose proof (Nat.mod_upper_bound p 64 ltac:(lia)).
  destruct (decide (i / 64 = p / 64)) as [E|E].
  - rewrite <- E, list_lookup_alter_eq. destruct (bm' !! (i / 64)) as [w|]; [|done]. cbn [fmap option_fmap option_map]. f_equal.
    rewrite Z.lor_spec, wrap_bit_word, testbit_bit_word by done. f_equal. f_equal. apply bool_decide_ext.
    pose proof (Nat.div_mod p 64 ltac:(lia)). pose proof (Nat.div_mod i 64 ltac:(lia)). split; [lia|by intros ->].
  - rewrite list_lookup_alter_ne by done. destruct (bm' !! (p / 64)) as [w|]; [|done]. cbn [fmap option_fmap option_map]. f_equal.
    rewrite bool_decide_false by (by intros ->). by rewrite orb_false_r.
Qed.

Lemma bm_bits_app bm bm' : bm_bits (bm ++ bm') = bm_bits bm ++ bm_bits bm'.
Proof. apply bind_app. Qed.

(** Setting the bit at or after the end of what was written. *)
Lemma setBit_rep bm l i v : bm_rep bm l → length l ≤ i →
  bm_rep (setBit bm i v) (l ++ replicate (i - length l) false ++ [v]).
Proof.
  intros [Hw Hc Hr] Hi. set (k := S (i / 64) - length bm).
  assert (length (setBit bm i v) = length bm + k) as Hlen.
  { unfold setBit. rewrite length_alter, length_app, repeat_length. done. }
  assert (length bm ≤ S (i / 64)) as Hle.
  { rewrite Hw. replace (S (i / 64)) with ((i + 1 * 64) / 64) by (rewrite Nat.div_add; lia). apply Nat.Div0.div_le_mono. lia. }
  assert (length bm + k = S (i / 64)) as Hk by (unfold k; lia).
  pose proof (words_cover (length l)) as Hcov. rewrite <- Hw in Hcov.
  pose proof (Nat.div_mod i 64 ltac:(lia)) as Hdm. pose proof (Nat.mod_upper_bound i 64 ltac:(lia)) as Hmb.
  constructor.
  - rewrite Hlen, Hk, !length_app, length_replicate. simpl length.
    replace (length l + (i - length l + 1) + 63) with (i + 1 * 64) by lia. rewrite Nat.div_add by lia. lia.
  - apply list_eq. intros p. rewrite setBit_bits, bm_bits_app, bm_bits_zeros. fold k. rewrite Hc, Hlen, Hk.
    rewrite <- !app_assoc, <- replicate_add, !length_app, length_replicate. simpl length.
    destruct (decide (p < length l)) as [Hp|Hp].
    + rewrite !lookup_app_l by lia. rewrite bool_decide_false by lia. destruct (l !! p); [|done]. simpl. by rewrite orb_false_r.
    + rewrite !lookup_app_r by lia. destruct (decide (p = i)) as [->|Hne].
      * rewrite lookup_replicate_2 by lia. rewrite (lookup_app_r (replicate (i - length l) false)) by (rewrite length_replicate; lia).
        rewrite length_replicate, Nat.sub_diag. simpl. by rewrite bool_decide_true.
      * rewrite bool_decide_false by done. cbn [andb].
        destruct (decide (p < i)) as [Hlt|Hge].
        -- rewrite lookup_replicate_2 by lia. rewrite lookup_app_l by (rewrite length_replicate; lia).
           by rewrite lookup_replicate_2 by lia.
        -- rewrite (lookup_app_r (replicate (i - length l) false)) by (rewrite length_replicate; lia). rewrite length_replicate.
           destruct (p - length l - (i - length l)) as [|q] eqn:Eq; [lia|].
           change (([v] ++ ?r) !! S q) with (r !! q).
           destruct (decide (p < 64 * S (i / 64))).
           ++ rewrite (lookup_replicate_2 (64 * length bm - length l + 64 * k)) by lia. rewrite lookup_replicate_2 by lia. done.
           ++ rewrite !lookup_ge_None_2 by (rewrite length_replicate; lia). done.
  - unfold setBit. fold k. apply Forall_alter.
    + apply Forall_app. split; [done|]. apply Forall_forall. intros x Hx%list_elem_of_In%repeat_spec. subst. lia.
    + intros w _ Hwr. rewrite wrap_bit_word by done. pose proof (bit_word_range v (i mod 64) Hmb) as Hb.
      split; [apply Z.lor_nonneg; lia|].
      destruct (Z.eq_dec (Z.lor w (Z.shiftl (Z.b2z v) (Z.of_nat (i mod 64)))) 0%Z) as [->|Hz]; [lia|].
      assert (0 ≤ Z.lor w (Z.shiftl (Z.b2z v) (Z.of_nat (i mod 64))))%Z by (apply Z.lor_nonneg; lia).
      apply Z.log2_lt_pow2; [lia|]. rewrite Z.log2_lor by lia. apply Z.max_lub_lt.
      * destruct (Z.eq_dec w 0%Z) as [->|]; [done|]. apply Z.log2_lt_pow2; lia.
      * destruct (Z.eq_dec (Z.shiftl (Z.b2z v) (Z.of_nat (i mod 64))) 0%Z) as [->|]; [done|]. apply Z.log2_lt_pow2; lia.
Qed.

Lemma setBit_snoc bm l v : bm_rep bm l → bm_rep (setBit bm (length l) v) (l ++ [v]).
Proof. intros Hb. pose proof (setBit_rep bm l (length l) v Hb ltac:(lia)) as Hs. by rewrite Nat.sub_diag in Hs. Qed.

(** ** Grouping the keys of a node *)

(** Keys in strictly ascending order. *)
Definition ascending : list str → Prop := StronglySorted (λ x y, str_ltb x y = true).

(** The tails of the keys by their first byte. *)
Fixpoint group (ks : list str) : list (ascii * list str) :=
  match ks with
  | [] => []
  | [] :: ks => group ks
  | (c :: k) :: ks =>
    match group ks with
    | (d, g) :: gs => if decide (c = d) then (c, k :: g) :: gs else (c, [k]) :: (d, g) :: gs
    | [] => [(c, [k])]
    end
  end.

(** A node: does a key end here, and the groups of the others. *)
Definition ends (ks : list str) : bool := bool_decide (head ks = Some []).
Definition rest (ks : list str) : list str := if ends ks then tail ks else ks.
Definition kids_of (ks : list str) : list (ascii * list str) := group (rest ks).
Definition bytes (ks : list str) : nat := sum_list (length <$> ks).

Lemma group_elem ks c k : (∃ g, (c, g) ∈ group ks ∧ k ∈ g) ↔ (c :: k) ∈ ks.
Proof.
  induction ks as [|[|d k'] ks IH].
  - split; [intros (g & Hin & _); by apply elem_of_nil in Hin|by intros ?%elem_of_nil].
  - cbn [group]. rewrite IH. rewrite elem_of_cons. naive_solver.
  - cbn [group]. rewrite elem_of_cons, <- IH. clear IH. destruct (group ks) as [|[d' g] gs].
    + split.
      * intros (g & Hin & Hk). apply list_elem_of_singleton in Hin. injection Hin as -> ->.
        apply list_elem_of_singleton in Hk as ->. by left.
      * intros [Heq|(g & Hin & _)]; [|by apply elem_of_nil in Hin]. injection Heq as -> ->.
        exists [k']. by rewrite !list_elem_of_singleton.
    + destruct (decide (d = d')) as [<-|Hne]; setoid_rewrite elem_of_cons.
      * split.
        -- intros (g' & [[= -> ->]|Hin] & Hk); [|right; exists g'; naive_solver].
           apply elem_of_cons in Hk as [->|Hk]; [by left|right; exists g; naive_solver].
        -- intros [[= -> ->]|(g' & [[= -> ->]|Hin] & Hk)]; [exists (k' :: g)|exists (k' :: g)|exists g']; rewrite ?elem_of_cons; naive_solver.
      * split.
        -- intros (g' & [[= -> ->]|Hin] & Hk); [apply list_elem_of_singleton in Hk as ->; by left|right; exists g'; rewrite elem_of_cons in Hin; by split].
        -- intros [[= -> ->]|(g' & Hin & Hk)]; [exists [k']; rewrite list_elem_of_singleton; naive_solver|exists g'; rewrite elem_of_cons; naive_solver].
Qed.

(** A run of keys with the same first byte is one group. *)
Lemma group_run c l ks : l ≠ [] → match ks with (d :: _) :: _ => c ≠ d | [] :: _ => False | [] => True end →
  group ((cons c <$> l) ++ ks) = (c, l) :: group ks.
Proof.
  intros Hl Hks. induction l as [|k l IH]; [done|]. cbn [fmap list_fmap app group]. destruct l as [|k2 l].
  - cbn [fmap list_fmap app]. destruct ks as [|[|d k'] ks]; [done|done|]. cbn [group].
    destruct (group ks) as [|[d' g] gs]; [by rewrite decide_False|].
    destruct (decide (d = d')); by rewrite decide_False.
  - rewrite IH by done. by rewrite decide_True.
Qed.

(** What ascending order gives. *)
Lemma str_ltb_cons c k k' : str_ltb (c :: k) (c :: k') = str_ltb k k'.
Proof. cbn. by rewrite decide_True. Qed.

Lemma ascending_rest ks : ascending ks → ascending (rest ks) ∧ Forall (λ k, k ≠ []) (rest ks).
Proof.
  intros Hs. destruct ks as [|[|c k] ks]; [by split; constructor|..];
    inversion Hs as [|? ? Hs' Hf]; subst; cbn [rest ends head tail].
  - split; [done|]. eapply Forall_impl; [exact Hf|]. by intros [].
  - split; [done|]. constructor; [done|]. eapply Forall_impl; [exact Hf|]. by intros [].
Qed.

Lemma group_ascending ks : ascending ks → Forall (λ k, k ≠ []) ks →
  StronglySorted (λ cg dg, byteZ cg.1 < byteZ dg.1)%Z (group ks) ∧ Forall (λ cg, ascending cg.2 ∧ cg.2 ≠ []) (group ks)
  ∧ match ks, group ks with
    | (c :: k) :: _, (d, g) :: _ => c = d ∧ head g = Some k
    | [], [] => True
    | _, _ => False
    end.
Proof.
  intros Hs Hne. induction ks as [|k ks IH]; [repeat constructor|].
  inversion Hs as [|? ? Hs' Hf]; inversion Hne as [|? ? Hk Hne']; subst. destruct k as [|c k]; [done|].
  destruct (IH Hs' Hne') as (H1 & H2 & H3). cbn [group].
  destruct ks as [|[|d k'] ks]; [|by inversion Hne'; subst|].
  { simpl. repeat constructor. done. }
  destruct (group ((d :: k') :: ks)) as [|[d' g] gs]; [done|]. destruct H3 as [<- Hg].
  apply Forall_cons in Hf as [Hlt Hf]. apply Forall_cons in H2 as [[Hg1 Hg2] H2]. apply StronglySorted_inv in H1 as [H1 Hlow].
  destruct (decide (c = d)) as [->|Hcd].
  - rewrite str_ltb_cons in Hlt. split; [by constructor|]. split; [|done]. constructor; [|done]. split; [|done].
    destruct g as [|g1 g]; [done|]. simpl in Hg. simplify_eq. constructor; [done|]. constructor; [done|].
    inversion Hg1 as [|? ? _ Hg1']; subst. eapply Forall_impl; [exact Hg1'|]. intros x Hx. cbn.
    destruct (str_ltb k x) eqn:E; [done|]. apply (str_ltb_negtrans x k k') in E; [congruence|by apply str_ltb_asym].
  - cbn in Hlt. rewrite decide_False in Hlt by done. apply Z.ltb_lt in Hlt. cbn. split; [|split; [|done]].
    + constructor; [by constructor|]. constructor; [done|]. eapply Forall_impl; [exact Hlow|]. intros [x gx]. cbn. lia.
    + constructor; [|by constructor]. split; [|done]. repeat constructor.
Qed.

(** ** One node *)

Section keys.
Context (keys : list str).

(** An element of the queue stands for the tails of its keys. *)
Record elt_rep (elt : qElt) (ks : list str) : Prop := {
  elt_range : q_s elt < q_e elt ≤ length keys;
  elt_long : Forall (λ k, q_col elt ≤ length k) (slice keys (q_s elt) (q_e elt));
  elt_keys : ks = drop (q_col elt) <$> slice keys (q_s elt) (q_e elt)
}.

Lemma key_byte_Some j col k c : keys !! j = Some k → k !! col = Some c → key_byte keys j col = Ok c.
Proof. intros Hk Hc. unfold key_byte. rewrite Hk. cbn. by rewrite Hc. Qed.

Lemma slice_app a b c : a ≤ b → b ≤ c → slice keys a c = slice keys a b ++ slice keys b c.
Proof.
  intros Hab Hbc. unfold slice. replace (c - a) with ((b - a) + (c - b)) by lia.
  rewrite <- take_take_drop, drop_drop. by replace (a + (b - a)) with b by lia.
Qed.

Lemma slice_cons a b k : keys !! a = Some k → a < b → slice keys a b = k :: slice keys (S a) b.
Proof.
  intros Hk Hab. rewrite (slice_app a (S a) b) by lia. rewrite (slice_snoc keys a a k) by (lia || done). by rewrite slice_nil.
Qed.

(** Keys longer than the column: they start with the byte there. *)
Definition byte_run (col : nat) (c : ascii) (l : list str) : Prop := Forall (λ k, k !! col = Some c) l.

Lemma byte_run_drop col c l : byte_run col c l → drop col <$> l = cons c <$> (drop (S col) <$> l).
Proof.
  induction 1 as [|k l Hk _ IH]; [done|]. cbn [fmap list_fmap]. by rewrite IH, (drop_S k c col Hk).
Qed.

Lemma same_byte_spec e col c fuel j : e ≤ length keys → j ≤ e → e - j ≤ fuel →
  Forall (λ k, col < length k) (slice keys j e) →
  ∃ j', same_byte fuel keys e col c j = Ok j' ∧ j ≤ j' ≤ e ∧ byte_run col c (slice keys j j')
    ∧ (j' < e → ∃ k d, keys !! j' = Some k ∧ k !! col = Some d ∧ c ≠ d).
Proof.
  intros He. revert j. induction fuel as [|fuel IH]; intros j Hj Hf Hl.
  { exists j. split; [done|]. split; [lia|]. split; [|lia]. rewrite slice_nil. constructor. }
  cbn [same_byte]. destruct (Nat.ltb_spec j e) as [Hlt|Hge].
  2: { exists j. split; [done|]. split; [lia|]. split; [|lia]. rewrite slice_nil. constructor. }
  destruct (lookup_lt_is_Some_2 keys j ltac:(lia)) as [k Hk]. rewrite (slice_cons j e k) in Hl by done.
  apply Forall_cons in Hl as [Hkl Hl]. destruct (lookup_lt_is_Some_2 k col Hkl) as [d Hd].
  rewrite (key_byte_Some j col k d) by done. cbn [mbind result_bind]. destruct (decide (d = c)) as [->|Hne].
  - destruct (IH (S j)) as (j' & Hs & Hr & Hrun & Hend); [lia|lia|done|]. exists j'. split; [done|]. split; [lia|]. split; [|done].
    rewrite (slice_cons j j' k) by (done || lia). by constructor.
  - exists j. split; [done|]. split; [lia|]. rewrite slice_nil. split; [constructor|]. intros _. by exists k, d.
Qed.

Lemma split_keys_spec e col fuel j : e ≤ length keys → j ≤ e → e - j ≤ fuel →
  Forall (λ k, col < length k) (slice keys j e) →
  ∃ l, split_keys fuel keys e col j = Ok l ∧ l.*2 = (group (drop col <$> slice keys j e)).*1
    ∧ Forall2 elt_rep l.*1 (group (drop col <$> slice keys j e)).*2.
Proof.
  intros He. revert j. induction fuel as [|fuel IH]; intros j Hj Hf Hl; cbn [split_keys];
    destruct (Nat.ltb_spec j e) as [Hlt|Hge]; [lia|exists []; replace e with j by lia; rewrite slice_nil; by repeat constructor| |
      exists []; replace e with j by lia; rewrite slice_nil; by repeat constructor].
  destruct (lookup_lt_is_Some_2 keys j ltac:(lia)) as [k Hk]. pose proof Hl as Hl'. rewrite (slice_cons j e k) in Hl' by done.
  apply Forall_cons in Hl' as [Hkl _]. destruct (lookup_lt_is_Some_2 k col Hkl) as [c Hc].
  rewrite (key_byte_Some j col k c) by done. cbn [mbind result_bind].
  destruct (same_byte_spec e col c (e - j) j He Hj ltac:(lia) Hl) as (j' & -> & Hr & Hrun & Hend). cbn [mbind result_bind].
  assert (j ≠ j') as Hjj.
  { intros <-. destruct (Hend Hlt) as (k' & d & Hk' & Hd & Hne). simplify_eq. }
  rewrite (slice_app j j' e) in Hl by lia. apply Forall_app in Hl as [Hl1 Hl2].
  destruct (IH j') as (l & -> & Hl3 & Hl4); [lia|lia|done|]. cbn [mbind result_bind].
  rewrite (slice_app j j' e) by lia. rewrite fmap_app, (byte_run_drop _ _ _ Hrun), group_run.
  - eexists. split; [done|]. cbn [fmap list_fmap fst snd]. rewrite Hl3. split; [done|]. constructor; [|done].
    constructor; cbn; [lia| |done]. eapply Forall_impl; [exact Hl1|]. cbn. lia.
  - rewrite (slice_cons j j' k) by (done || lia). done.
  - destruct (decide (j' = e)) as [->|Hne]; [by rewrite slice_nil|].
    destruct Hend as (k' & d & Hk' & Hd & Hcd); [lia|]. rewrite (slice_cons j' e k') by (done || lia).
    cbn [fmap list_fmap]. by rewrite (drop_S k' d col Hd).
Qed.
End keys.

(** ** The loop *)

Definition degs (P : list (list str)) : list nat := (λ ks, length (kids_of ks)) <$> P.
Definition kid_keys (P : list (list str)) : list (list str) := P ≫= λ ks, (kids_of ks).*2.
Definition kid_labels (P : list (list str)) : str := P ≫= λ ks, (kids_of ks).*1.
(** The bits of the nodes at which a key ends, up to the last of them. *)
Definition leaf_bits (lv : list bool) (P : list (list str)) : Prop :=
  length lv ≤ length P ∧ ends <$> P = lv ++ replicate (length P - length lv) false.
Definition node_keys (ks : list str) : Prop := ascending ks ∧ ks ≠ [].

Lemma kids_node_keys ks : ascending ks → Forall node_keys (kids_of ks).*2.
Proof.
  intros Hs. destruct (ascending_rest ks Hs) as [H1 H2]. destruct (group_ascending _ H1 H2) as (_ & H3 & _).
  apply Forall_fmap. exact H3.
Qed.

Lemma add_labels_spec cs b l : bm_rep (b_labelBitmap b) l → b_lIdx b = length l →
  let b' := foldl add_label b cs in
  bm_rep (b_labelBitmap b') (l ++ replicate (length cs) false) ∧ b_lIdx b' = length l + length cs
  ∧ b_labels b' = b_labels b ++ cs ∧ b_leaves b' = b_leaves b.
Proof.
  revert b l. induction cs as [|c cs IH]; intros b l Hb Hi; cbn [foldl].
  - cbn. rewrite !app_nil_r, Nat.add_0_r. done.
  - destruct (IH (add_label b c) (l ++ [false])) as (H1 & H2 & H3 & H4).
    { unfold add_label. cbn [b_labelBitmap]. rewrite Hi. by apply setBit_snoc. } { unfold add_label. cbn [b_lIdx]. rewrite length_app, Hi. simpl. lia. }
    change (b_labels (add_label b c)) with (b_labels b ++ [c]) in H3. rewrite length_app in H2. simpl in H2. cbn [length replicate].
    rewrite <- app_assoc in H1, H3. split; [done|]. split; [rewrite H2; lia|]. by split.
Qed.

Section loop.
Context (keys : list str).

Lemma build_node_spec i elt ks b l lv P : elt_rep keys elt ks → node_keys ks →
  bm_rep (b_labelBitmap b) l → b_lIdx b = length l → i = length P →
  bm_rep (b_leaves b) lv → leaf_bits lv P →
  ∃ kids b' lv', build_node keys i elt b = Ok (kids, b') ∧ Forall2 (elt_rep keys) kids (kids_of ks).*2
  ∧ bm_rep (b_labelBitmap b') (l ++ replicate (length (kids_of ks)) false ++ [true])
  ∧ b_lIdx b' = length l + length (kids_of ks) + 1
  ∧ b_labels b' = b_labels b ++ (kids_of ks).*1
  ∧ bm_rep (b_leaves b') lv' ∧ leaf_bits lv' (P ++ [ks]) ∧ (ends ks = true → length lv' = S i).
Proof.
  intros [Hr Hlong ->] [Hasc Hne] Hl Hi -> Hlv [Hlen Hlb]. destruct elt as [s e col]. cbn [q_s q_e q_col] in *. unfold build_node.
  cbn [q_s q_e q_col]. destruct (lookup_lt_is_Some_2 keys s ltac:(lia)) as [k Hk]. rewrite Hk.
  pose proof (slice_cons keys s e k Hk ltac:(lia)) as Hsl. rewrite Hsl in *. apply Forall_cons in Hlong as [Hk1 Hlong].
  cbn [fmap list_fmap] in *. set (ks := drop col k :: _) in *.
  set (s' := if (col =? length k)%nat then S s else s).
  assert (ends ks = (col =? length k)%nat) as Hends.
  { unfold ends, ks. cbn [head]. destruct (Nat.eqb_spec col (length k)) as [->|].
    - rewrite drop_all. by apply bool_decide_true.
    - apply bool_decide_false. intros [= Hd%(f_equal length)]. rewrite length_drop in Hd. simpl in Hd. lia. }
  assert (rest ks = drop col <$> slice keys s' e) as Hrest.
  { unfold rest. rewrite Hends. unfold s', ks. destruct (col =? length k)%nat; [done|]. by rewrite Hsl. }
  destruct (ascending_rest ks Hasc) as [_ Hnn]. rewrite Hrest in Hnn.
  destruct (split_keys_spec keys e col (e - s') s') as (kl & -> & Hk2 & Hk3); [lia|unfold s'; case_match; lia|lia| |].
  { apply Forall_forall. intros x Hx. destruct (decide (col < length x)); [done|]. exfalso.
    rewrite Forall_forall in Hnn. apply (Hnn (drop col x)); [by apply list_elem_of_fmap_2|]. apply drop_ge. lia. }
  cbn [mbind result_bind]. rewrite <- Hrest in Hk2, Hk3. fold (kids_of ks) in Hk2, Hk3.
  set (b1 := if (col =? length k)%nat then _ else b).
  destruct (add_labels_spec kl.*2 b1 l) as (H1 & H2 & H3 & H4); [unfold b1; by case_match..|].
  assert (length kl.*2 = length (kids_of ks)) as Hkl by (by rewrite Hk2, length_fmap). rewrite Hkl in *.
  exists kl.*1. eexists. exists (if ends ks then lv ++ replicate (length P - length lv) false ++ [true] else lv).
  split; [done|]. cbn [b_labelBitmap b_lIdx b_labels b_leaves]. split; [done|]. split; [|split; [lia|split; [|split; [|split]]]].
  - rewrite H2, (assoc_L (++)). pose proof (setBit_snoc _ _ true H1) as Hs. by rewrite length_app, length_replicate in Hs.
  - rewrite H3, Hk2. unfold b1. by case_match.
  - rewrite H4. unfold b1. rewrite Hends. case_match; cbn [b_leaves]; [by apply setBit_rep|done].
  - unfold leaf_bits. rewrite fmap_app, Hlb, length_app. cbn [length fmap list_fmap]. destruct (ends ks).
    + rewrite !length_app, length_replicate. cbn [length]. split; [lia|].
      replace (length P + 1 - _) with 0 by lia. by rewrite app_nil_r, <- app_assoc.
    + split; [lia|]. replace (length P + 1 - length lv) with ((length P - length lv) + 1) by lia.
      by rewrite replicate_add, (assoc_L (++)).
  - intros ->. rewrite !length_app, length_replicate. simpl. lia.
Qed.
End loop.

(** The nodes [P] that are written, the nodes [T] in the queue. *)
Record build_inv (keys : list str) (P T : list (list str)) (todo : list qElt) (b : builder) (lv : list bool) : Prop := {
  inv_todo : Forall2 (elt_rep keys) todo T;
  inv_keys : Forall node_keys (P ++ T);
  inv_level : P ++ T = keys :: kid_keys P;
  inv_labels : b_labels b = kid_labels P;
  inv_bits : bm_rep (b_labelBitmap b) (enc (degs P));
  inv_idx : b_lIdx b = length (enc (degs P));
  inv_leaves : bm_rep (b_leaves b) lv;
  inv_leaf : leaf_bits lv P;
  inv_last : ∀ ks, last P = Some ks → ends ks = true → length lv = length P;
  inv_ahead : ∀ n, n < length P → n ≤ start (degs P) n
}.

Lemma length_kid_keys P : length (kid_keys P) = sum_list (degs P).
Proof.
  unfold kid_keys, degs. induction P as [|ks P IH]; [done|]. cbn [mbind list_bind fmap list_fmap].
  rewrite length_app, length_fmap, sum_list_cons. f_equal. exact IH.
Qed.

Lemma length_kid_labels P : length (kid_labels P) = sum_list (degs P).
Proof.
  unfold kid_labels, degs. induction P as [|ks P IH]; [done|]. cbn [mbind list_bind fmap list_fmap].
  rewrite length_app, length_fmap, sum_list_cons. f_equal. exact IH.
Qed.

Lemma degs_snoc P ks : degs (P ++ [ks]) = degs P ++ [length (kids_of ks)].
Proof. unfold degs. by rewrite fmap_app. Qed.
Lemma kid_keys_snoc P ks : kid_keys (P ++ [ks]) = kid_keys P ++ (kids_of ks).*2.
Proof. unfold kid_keys. by rewrite bind_app, bind_singleton. Qed.
Lemma kid_labels_snoc P ks : kid_labels (P ++ [ks]) = kid_labels P ++ (kids_of ks).*1.
Proof. unfold kid_labels. by rewrite bind_app, bind_singleton. Qed.
Lemma length_degs P : length (degs P) = length P.
Proof. apply length_fmap. Qed.

Lemma build_step keys P ks T elt todo b lv : build_inv keys P (ks :: T) (elt :: todo) b lv →
  ∃ kids b' lv', build_node keys (length P) elt b = Ok (kids, b')
  ∧ build_inv keys (P ++ [ks]) (T ++ (kids_of ks).*2) (todo ++ kids) b' lv'.
Proof.
  intros [Htodo Hkeys Hlevel Hlab Hbits Hidx Hlv Hleaf Hlast Hah]. inversion Htodo as [|? ? ? ? Helt Htodo']; subst.
  assert (node_keys ks) as Hks by (by apply Forall_app in Hkeys as [_ [Hk _]%Forall_cons]).
  destruct (build_node_spec keys (length P) elt ks b _ lv P Helt Hks Hbits Hidx eq_refl Hlv Hleaf)
    as (kids & b' & lv' & Hb & Hkids & H1 & H2 & H3 & H4 & H5 & H6).
  exists kids, b', lv'. split; [done|].
  assert (enc (degs (P ++ [ks])) = enc (degs P) ++ replicate (length (kids_of ks)) false ++ [true]) as Henc.
  { by rewrite degs_snoc, enc_app, enc_cons. }
  constructor.
  - by apply Forall2_app.
  - rewrite <- app_assoc. cbn [app]. change (ks :: T ++ (kids_of ks).*2) with ((ks :: T) ++ (kids_of ks).*2). rewrite (assoc_L (++)).
    apply Forall_app. split; [done|]. apply kids_node_keys. by destruct Hks.
  - rewrite kid_keys_snoc, app_comm_cons, <- Hlevel, <- !app_assoc. done.
  - by rewrite H3, Hlab, kid_labels_snoc.
  - by rewrite Henc.
  - rewrite H2, Henc, !length_app, length_replicate. simpl. lia.
  - done.
  - done.
  - intros ks' Hl He. rewrite last_snoc in Hl. simplify_eq. rewrite H6 by done. rewrite length_app. simpl. lia.
  - intros n Hn. rewrite length_app in Hn. simpl in Hn. unfold start. rewrite degs_snoc.
    rewrite take_app_le by (rewrite length_degs; lia). destruct (decide (n < length P)) as [Hlt|Hge]; [by apply Hah|].
    rewrite take_ge by (rewrite length_degs; lia). rewrite <- length_kid_keys.
    apply (f_equal length) in Hlevel. rewrite length_app in Hlevel. simpl in Hlevel. lia.
Qed.

(** Every node takes a byte off its keys, so the number of nodes is bounded. *)
Definition pending (T : list (list str)) : nat := sum_list ((λ ks, S (bytes ks)) <$> T).

Lemma group_pending ks : Forall (λ k, k ≠ []) ks → pending (group ks).*2 ≤ bytes ks.
Proof.
  unfold pending, bytes. induction 1 as [|k ks Hk _ IH]; [done|]. destruct k as [|c k]; [done|]. cbn [group fmap list_fmap].
  rewrite sum_list_cons. cbn [length]. destruct (group ks) as [|[d g] gs]; cbn [fmap list_fmap snd] in *.
  - rewrite !sum_list_cons. cbn. lia.
  - destruct (decide (c = d)); cbn [fmap list_fmap snd] in *; rewrite !sum_list_cons in *; cbn; lia.
Qed.

Lemma kids_pending ks : ascending ks → pending (kids_of ks).*2 ≤ bytes ks.
Proof.
  intros Hs. destruct (ascending_rest ks Hs) as [_ Hnn]. pose proof (group_pending _ Hnn) as Hp. fold (kids_of ks) in Hp.
  etrans; [exact Hp|]. unfold rest. case_match; [|done]. destruct ks as [|k ks]; [done|]. unfold bytes. cbn [tail fmap list_fmap].
  rewrite sum_list_cons. lia.
Qed.

Lemma pending_app T T' : pending (T ++ T') = pending T + pending T'.
Proof. unfold pending. by rewrite fmap_app, sum_list_with_app. Qed.

Lemma build_loop_spec keys fuel P T todo b lv : build_inv keys P T todo b lv → pending T ≤ fuel →
  ∃ P' b' lv', build_loop fuel keys (length P) todo b = Ok b' ∧ build_inv keys P' [] [] b' lv'
    ∧ length P' ≤ length P + pending T.
Proof.
  revert P T todo b lv. induction fuel as [|fuel IH]; intros P T todo b lv Hinv Hp.
  - destruct T as [|ks T]; [|unfold pending in Hp; simpl in Hp; lia].
    pose proof (inv_todo _ _ _ _ _ _ Hinv) as Ht. inversion Ht; subst. exists P, b, lv. split; [done|]. split; [done|lia].
  - destruct T as [|ks T].
    { pose proof (inv_todo _ _ _ _ _ _ Hinv) as Ht. inversion Ht; subst. exists P, b, lv. split; [done|]. split; [done|lia]. }
    pose proof (inv_todo _ _ _ _ _ _ Hinv) as Ht. inversion Ht as [|elt ? todo' ? Helt Ht']; subst.
    destruct (build_step _ _ _ _ _ _ _ _ Hinv) as (kids & b' & lv' & Hb & Hinv').
    assert (ascending ks) as Hs.
    { pose proof (inv_keys _ _ _ _ _ _ Hinv) as Hk. by apply Forall_app in Hk as [_ [[Hk _] _]%Forall_cons]. }
    pose proof (kids_pending ks Hs). change (pending (ks :: T)) with (S (bytes ks) + pending T) in *.
    destruct (IH _ _ _ _ _ Hinv') as (P' & b'' & lv'' & Hl & Hfin & Hmax).
    { rewrite pending_app. lia. }
    exists P', b'', lv''. split; [|split; [done|rewrite pending_app, length_app in Hmax; simpl in Hmax; lia]]. cbn [build_loop]. rewrite Hb. cbn [mbind result_bind].
    rewrite length_app in Hl. simpl in Hl. by rewrite Nat.add_1_r in Hl.
Qed.

(** ** The tree of the keys *)

Inductive spells : list str → tree → Prop :=
  | spells_intro ks leaf kids : leaf = ends ks → kids.*1 = (kids_of ks).*1 →
    (∀ j c t g, kids !! j = Some (c, t) → (kids_of ks).*2 !! j = Some g → spells g t) →
    spells ks (TNode leaf kids).

Lemma bind_degs_lookup {A} (f : list str → list A) P n ks j : (∀ ks, length (f ks) = length (kids_of ks)) →
  P !! n = Some ks → j < length (kids_of ks) → (P ≫= f) !! (start (degs P) n + j) = f ks !! j.
Proof.
  intros Hf. revert n. induction P as [|p P IH]; intros [|n] Hn Hj; try done; cbn [mbind list_bind].
  - simpl in Hn. simplify_eq. rewrite start_0. rewrite lookup_app_l; [done|]. by rewrite Hf.
  - change (degs (p :: P)) with (length (kids_of p) :: degs P). rewrite start_cons. rewrite lookup_app_r by (rewrite Hf; lia).
    rewrite Hf. replace (_ + _ + j - _) with (start (degs P) n + j) by lia. by apply IH.
Qed.

Section built.
Context (keys : list str) (P : list (list str)) (b : builder) (lv : list bool).
Context (Hinv : build_inv keys P [] [] b lv).
#[local] Set Default Proof Using "Hinv".

Lemma built_level : P = keys :: kid_keys P.
Proof. pose proof (inv_level _ _ _ _ _ _ Hinv) as Hl. by rewrite app_nil_r in Hl. Qed.

Lemma built_count : length P = S (sum_list (degs P)).
Proof. rewrite built_level at 1. cbn [length]. by rewrite length_kid_keys. Qed.

(** The node that is written last has no children, so a key ends at it. *)
Lemma built_last : ∃ ks, last P = Some ks ∧ ends ks = true.
Proof.
  assert (P ≠ []) as HP by (by rewrite built_level). destruct (exists_last HP) as (P0 & p0 & E).
  exists p0. split; [by rewrite E, last_snoc|].
  assert (node_keys p0) as [Hs Hne].
  { pose proof (inv_keys _ _ _ _ _ _ Hinv) as Hk. rewrite app_nil_r, E in Hk. apply Forall_app in Hk as [_ Hk]. by inversion Hk. }
  pose proof (inv_ahead _ _ _ _ _ _ Hinv (length P - 1)) as Ha. pose proof built_count as Hc.
  rewrite E in Ha, Hc. rewrite degs_snoc in Ha, Hc. rewrite length_app in Ha, Hc. simpl in Ha, Hc.
  unfold start in Ha. rewrite take_app_le, take_ge in Ha by (rewrite length_degs; lia). rewrite sum_list_with_app in Hc. simpl in Hc.
  assert (length (kids_of p0) = 0) as H0 by lia. apply nil_length_inv in H0.
  destruct (ascending_rest p0 Hs) as [H1 H2]. destruct (group_ascending _ H1 H2) as (_ & _ & H3). unfold kids_of in H0.
  destruct (rest p0) as [|[|c k] r] eqn:Er; [|done|by rewrite H0 in H3]. unfold rest in Er. destruct (ends p0) eqn:Ee; [done|]. by subst.
Qed.

Lemma built_leaves : ends <$> P = lv.
Proof.
  destruct (inv_leaf _ _ _ _ _ _ Hinv) as [Hle Hlb]. destruct built_last as (ks & Hl & He).
  pose proof (inv_last _ _ _ _ _ _ Hinv ks Hl He) as Hlen. by rewrite Hlb, Hlen, Nat.sub_diag, app_nil_r.
Qed.

Lemma rep_spells ss n t : labels ss = b_labels b → leaves ss = b_leaves b →
  rep ss (degs P) n t → ∀ ks, P !! n = Some ks → spells ks t.
Proof.
  intros Hlab Hlv Hrep. induction Hrep as [n leaf kids Hn Hleaf Hd Hl Hr IH]. intros ks Hks.
  unfold degs in Hd. rewrite list_lookup_fmap, Hks in Hd. simpl in Hd. injection Hd as Hd. constructor.
  - rewrite Hlv, (bm_content _ _ (inv_leaves _ _ _ _ _ _ Hinv)), <- built_leaves in Hleaf.
    rewrite lookup_app_l, list_lookup_fmap, Hks in Hleaf by (rewrite length_fmap; by eapply lookup_lt_Some).
    simpl in Hleaf. by simplify_eq.
  - apply list_eq. intros j. rewrite !list_lookup_fmap. destruct (kids !! j) as [[c t]|] eqn:Hj.
    + pose proof (lookup_lt_Some _ _ _ Hj). rewrite <- Hd in *.
      pose proof (Hl _ _ _ Hj) as Hc. rewrite Hlab, (inv_labels _ _ _ _ _ _ Hinv) in Hc. unfold kid_labels in Hc.
      rewrite (bind_degs_lookup _ P n ks j) in Hc by (done || (intros; by rewrite length_fmap)).
      rewrite list_lookup_fmap in Hc. cbn [fmap option_fmap option_map fst]. by rewrite Hc.
    + apply lookup_ge_None in Hj. rewrite (proj2 (lookup_ge_None (kids_of ks) j)) by lia. done.
  - intros j c t g Hj Hg. eapply IH; [exact Hj|]. pose proof (lookup_lt_Some _ _ _ Hj).
    transitivity (kid_keys P !! (start (degs P) n + j)); [exact (f_equal (.!! S (start (degs P) n + j)) built_level)|]. unfold kid_keys.
    rewrite (bind_degs_lookup _ P n ks j) by (done || lia || (intros; by rewrite length_fmap)). done.
Qed.
End built.

Lemma build_start keys : node_keys keys →
  build_inv keys [] [keys] [QElt 0 (length keys) 0] (MkBuilder [] [] [] 0) [].
Proof.
  intros [Hs Hne]. constructor; try done; try apply bm_rep_nil.
  - constructor; [|constructor]. constructor; cbn [q_s q_e q_col].
    + destruct keys; [done|]. simpl. lia.
    + apply Forall_true. lia.
    + rewrite slice_full. symmetry. by apply list_fmap_id.
  - by constructor.
  - intros n Hn. simpl in Hn. lia.
Qed.

(** The set of keys in ascending order represents their tree. *)
Lemma build_set_spec keys : node_keys keys → (Z.of_nat (bytes keys) < 2 ^ 29)%Z →
  ∃ ss P b lv t, build_set keys = Ok (Some ss) ∧ build_inv keys P [] [] b lv
  ∧ leaves ss = b_leaves b ∧ labelBitmap ss = b_labelBitmap b ∧ labels ss = b_labels b
  ∧ init_set (leaves ss) (labelBitmap ss) (labels ss) = Ok ss
  ∧ louds ss (degs P) ∧ rep ss (degs P) 0 t ∧ spells keys t ∧ length (labels ss) ≤ bytes keys.
Proof.
  intros Hk Hsz. destruct (build_loop_spec keys (S (bytes keys)) _ _ _ _ _ (build_start keys Hk)) as (P & b & lv & Hb & Hinv & Hmax).
  { unfold pending. cbn. lia. }
  pose proof (built_count _ _ _ _ Hinv) as Hc. pose proof (inv_bits _ _ _ _ _ _ Hinv) as Hbits.
  assert (sum_list (degs P) ≤ bytes keys) as Hle by (unfold pending in Hmax; cbn in Hmax; lia).
  destruct (init_set_louds (b_leaves b) (b_labelBitmap b) (b_labels b) (degs P) (64 * length (b_labelBitmap b) - length (enc (degs P))))
    as (cs & Hcs & Hl).
  - apply Hbits.
  - rewrite length_bm_bits, (bm_words _ _ Hbits). pose proof (words_bound (length (enc (degs P)))) as Hw.
    rewrite length_enc, length_degs in *. lia.
  - rewrite (inv_labels _ _ _ _ _ _ Hinv). apply length_kid_labels.
  - by rewrite length_degs.
  - intros n Hn. rewrite length_degs in Hn. by apply (inv_ahead _ _ _ _ _ _ Hinv).
  - pose proof (inv_leaves _ _ _ _ _ _ Hinv) as Hlv. rewrite length_bm_bits, (bm_words _ _ Hlv), length_degs.
    rewrite <- (built_leaves _ _ _ _ Hinv), length_fmap. apply words_cover.
  - destruct (rep_exists _ _ Hl 0) as [t Ht]; [rewrite length_degs; lia|].
    eexists _, P, b, lv, t. split; [|split; [done|]]. { unfold build_set. destruct Hk as [_ Hne]. rewrite decide_False by done.
      change (sum_list (length <$> keys)) with (bytes keys). change (length (@nil (list str))) with 0 in Hb. rewrite Hb. cbn [mbind result_bind]. by rewrite Hcs. }
    cbn [leaves labelBitmap labels]. do 6 (split; [done|]). split.
    + eapply (rep_spells _ _ _ _ Hinv); [..|exact Ht|]; [done..|]. by rewrite (built_level _ _ _ _ Hinv).
    + by rewrite (inv_labels _ _ _ _ _ _ Hinv), length_kid_labels.
Qed.

(** ** Matching a key *)

(** Does a key of the set match a reversed name? *)
Fixpoint key_match (k xs : str) {struct k} : bool :=
  match k, xs with
  | [], [] => true
  | [], _ => false
  | _, [] => false
  | c :: k, x :: xs' =>
    if decide (c = complexWildcardByte) then true
    else if decide (c = wildcardByte) then
      match drop_label xs with
      | [] => bool_decide (k = [])
      | _ :: xs'' => match k with d :: k => bool_decide (d = domainStepByte) && key_match k xs'' | [] => false end
      end
    else bool_decide (c = x) && key_match k xs'
  end.

(** Bytes from the wildcard byte on: the labels that come before it in a node
    do not hide it. *)
Definition visible (xs : str) : Prop := Forall (λ x, 42 ≤ byteZ x)%Z xs.

Lemma byte_special : byteZ complexWildcardByte = 43%Z ∧ byteZ wildcardByte = 42%Z ∧ byteZ domainStepByte = 46%Z.
Proof. done. Qed.

Lemma drop_label_suffix xs : ∃ l, xs = l ++ drop_label xs.
Proof.
  induction xs as [|x xs [l Hl]]; [by exists []|]. cbn [drop_label]. case_decide; [by exists []|].
  exists (x :: l). simpl. by f_equal.
Qed.

Lemma existsb_same {A} (f g : A → bool) l : (∀ x, f x = g x) → existsb f l = existsb g l.
Proof. intros Hfg. induction l as [|x l IH]; [done|]. simpl. by rewrite Hfg, IH. Qed.

Lemma existsb_group (f : str → bool) ks : Forall (λ k, k ≠ []) ks →
  existsb f ks = existsb (λ cg, existsb (λ k, f (cg.1 :: k)) cg.2) (group ks).
Proof.
  induction 1 as [|k ks Hk _ IH]; [done|]. destruct k as [|c k]; [done|]. cbn [existsb group]. rewrite IH.
  destruct (group ks) as [|[d g] gs]; [cbn; by destruct (f (c :: k))|].
  destruct (decide (c = d)) as [->|]; cbn; [by rewrite orb_assoc|by rewrite orb_false_r].
Qed.

Lemma existsb_ends ks : ascending ks → existsb (λ k, bool_decide (k = [])) ks = ends ks.
Proof.
  intros Hs. destruct (ascending_rest ks Hs) as [_ Hnn]. unfold rest in Hnn. destruct (ends ks) eqn:E.
  - unfold ends in E. apply bool_decide_eq_true in E. destruct ks as [|k ks]; [done|]. simpl in E. simplify_eq. done.
  - apply not_true_is_false. intros (k & Hin & Hk)%existsb_exists. apply bool_decide_eq_true in Hk.
    rewrite Forall_forall in Hnn. eapply Hnn; [by apply list_elem_of_In|done].
Qed.

Lemma existsb_rest (f : str → bool) ks : f [] = false → existsb f ks = existsb f (rest ks).
Proof.
  intros Hf. unfold rest, ends. case_bool_decide as E; [|done]. destruct ks as [|k ks]; [done|]. simpl in E. simplify_eq.
  cbn. by rewrite Hf.
Qed.

Lemma existsb_none {A} (f : A → bool) l : (∀ x, x ∈ l → f x = false) → existsb f l = false.
Proof.
  intros Hf. apply not_true_is_false. intros (x & Hin & Hx)%existsb_exists. rewrite Hf in Hx; [done|by apply list_elem_of_In].
Qed.

Definition low_to_high : list (ascii * list str) → Prop := StronglySorted (λ cg dg, byteZ cg.1 < byteZ dg.1)%Z.

(** What the children of a node say of the keys below them. *)
Definition kid_match (ct : ascii * tree) (cg : ascii * list str) : Prop :=
  ct.1 = cg.1 ∧ cg.2 ≠ [] ∧ ∀ xs, visible xs →
    tmatch ct.2 xs = existsb (λ k, key_match k xs) cg.2
    ∧ (xs ≠ [] → star_match ct.2 xs = existsb (λ k, key_match (wildcardByte :: k) xs) cg.2).

Lemma scan_match_group kids gs c xs : Forall2 kid_match kids gs → low_to_high gs → visible (c :: xs) →
  scan_match kids c xs = existsb (λ cg, existsb (λ k, key_match (cg.1 :: k) (c :: xs)) cg.2) gs.
Proof.
  intros Hk Hs Hv. induction Hk as [|[l t] [l' g] kids gs (Hl & Hg & Hm) Hk IH]; [done|]. cbn [fst snd] in *. subst l'.
  apply StronglySorted_inv in Hs as [Hs Hlow]. specialize (IH Hs). cbn [scan_match existsb fst snd]. rewrite IH. clear IH.
  pose proof byte_special as (Hp & Hw & _). pose proof Hv as [Hc Hxs]%Forall_cons.
  destruct (decide (l = complexWildcardByte)) as [->|H1].
  { destruct g as [|k g]; [done|]. done. }
  destruct (decide (l = wildcardByte)) as [->|H2]; [by rewrite (proj2 (Hm _ Hv))|].
  destruct (decide (l = c)) as [->|H3].
  - rewrite (proj1 (Hm xs Hxs)). rewrite (existsb_none _ gs).
    + rewrite orb_false_r. apply existsb_same. intros k. cbn. by rewrite !decide_False, bool_decide_true.
    + intros [d g'] Hin. cbn [fst snd]. rewrite Forall_forall in Hlow. specialize (Hlow _ Hin). cbn in Hlow.
      assert (byteZ c ≠ byteZ complexWildcardByte ∧ byteZ c ≠ byteZ wildcardByte) as [Hc1 Hc2] by (by split; intros ?%byteZ_inj).
      apply existsb_none. intros k _. cbn. rewrite !decide_False, bool_decide_false; [done|intros ->; lia..].
  - rewrite (existsb_none _ g); [done|]. intros k _. cbn. by rewrite !decide_False, bool_decide_false.
Qed.

Lemma find_match_group kids gs xs : Forall2 kid_match kids gs → low_to_high gs → visible xs →
  find_match kids xs = existsb (λ cg, existsb (λ k, bool_decide (cg.1 = domainStepByte) && key_match k xs) cg.2) gs.
Proof.
  intros Hk Hs Hv. induction Hk as [|[l t] [l' g] kids gs (Hl & Hg & Hm) Hk IH]; [done|]. cbn [fst snd] in *. subst l'.
  apply StronglySorted_inv in Hs as [Hs Hlow]. cbn [find_match existsb fst snd].
  destruct (decide (l = domainStepByte)) as [->|H1].
  - rewrite (proj1 (Hm xs Hv)). rewrite (existsb_none _ gs).
    + rewrite orb_false_r. apply existsb_same. intros k. by rewrite bool_decide_true.
    + intros [d g'] Hin. cbn [fst snd]. rewrite Forall_forall in Hlow. specialize (Hlow _ Hin). cbn in Hlow.
      apply existsb_none. intros k _. rewrite bool_decide_false; [done|]. intros ->. cbn in Hlow. lia.
  - rewrite (existsb_none _ g), IH; [done|done|]. intros k _. by rewrite bool_decide_false.
Qed.

Lemma spells_match ks t : spells ks t → ascending ks → ∀ xs, visible xs →
  tmatch t xs = existsb (λ k, key_match k xs) ks
  ∧ (xs ≠ [] → star_match t xs = existsb (λ k, key_match (wildcardByte :: k) xs) ks).
Proof.
  induction 1 as [ks leaf kids -> Hfst Hsp IH]. intros Hs xs Hv.
  destruct (ascending_rest ks Hs) as [Hrs Hnn]. destruct (group_ascending _ Hrs Hnn) as (Hlow & Hasc & _). fold (kids_of ks) in *.
  assert (Forall2 kid_match kids (kids_of ks)) as Hkids.
  { apply Forall2_same_length_lookup. pose proof (f_equal length Hfst) as Hlen. rewrite !length_fmap in Hlen. split; [done|].
    intros j [c t] [d g] Hj Hd. assert (d = c) as ->.
    { apply (f_equal (.!! j)) in Hfst. rewrite !list_lookup_fmap, Hj, Hd in Hfst. simpl in Hfst. by simplify_eq. }
    rewrite Forall_forall in Hasc. destruct (Hasc _ (list_elem_of_lookup_2 _ _ _ Hd)) as [Hg Hne].
    split; [done|]. split; [done|]. intros ys Hys. eapply (IH j); [exact Hj| |done|done]. by rewrite list_lookup_fmap, Hd. }
  split.
  - rewrite tmatch_node. destruct xs as [|c xs].
    + rewrite <- existsb_ends by done. apply existsb_same. by intros [].
    + rewrite existsb_rest by done. rewrite existsb_group by done. by apply scan_match_group.
  - intros Hne. destruct xs as [|x xs']; [done|]. unfold star_match.
    destruct (drop_label_suffix (x :: xs')) as [pre Hpre].
    destruct (drop_label (x :: xs')) as [|y xs''] eqn:Hd.
    + rewrite <- existsb_ends by done. apply existsb_same. intros k. cbn [key_match]. by rewrite decide_False, decide_True, Hd.
    + assert (visible xs'') as Hv'. { rewrite Hpre in Hv. by apply Forall_app in Hv as [_ [_ Hv]%Forall_cons]. }
      assert (∀ k, key_match (wildcardByte :: k) (x :: xs') =
        match k with d :: k => bool_decide (d = domainStepByte) && key_match k xs'' | [] => false end) as Hkm.
      { intros k. cbn [key_match]. by rewrite decide_False, decide_True, Hd. }
      rewrite (existsb_same _ _ _ Hkm), existsb_rest by done. rewrite existsb_group by done. by apply find_match_group.
Qed.

(** ** The keys of a trie *)

(** A callback that always goes on folds over the recorded calls. *)
Section fold.
Context {T S : Type} (f : str → T → S → bool * S) (g : S → str * T → S).
Context (Hf : ∀ d x st, f d x st = (true, g st (d, x))).

Definition folds (items : list str) (n : Node T) : Prop := ∃ l,
  (∀ acc, recursion record_call items n acc = (true, acc ++ l))
  ∧ ∀ st, recursion f items n st = (true, foldl g st l).

Lemma recursion_folds n : node_ok n → ∀ items, folds items n.
Proof using Hf.
  induction 1 as [om oc d Hne Hnd Hm IHm Hc IHc]. intros items.
  assert (∀ key child, (∀ items, folds items child) → ∃ l,
    (∀ acc, recursion record_call (key :: items) child
        (match data child with Some d => acc ++ [(joinDomain (key :: items), d)] | None => acc end) = (true, acc ++ l))
    ∧ ∀ st, recursion f (key :: items) child
        (match data child with Some d => g st (joinDomain (key :: items), d) | None => st end) = (true, foldl g st l)) as Hvisit.
  { intros key child Hch. destruct (Hch (key :: items)) as (l & H1 & H2).
    exists (match data child with Some d => [(joinDomain (key :: items), d)] | None => [] end ++ l).
    setoid_rewrite foldl_app. destruct (data child); split; intros; rewrite ?H1, ?H2; cbn; rewrite <- ?app_assoc; done. }
  destruct om as [m|].
  - clear IHc Hc Hne Hnd Hm. assert (∀ s c, (s, c) ∈ m → ∀ items, folds items c) as IH by (intros; by eapply IHm). clear IHm.
    unfold folds. cbn [recursion]. induction m as [|[key child] m IHl].
    + exists []. split; intros; [by rewrite app_nil_r|done].
    + destruct (Hvisit key child) as (l1 & H1 & H2); [by eapply IH; left|].
      destruct IHl as (l2 & H3 & H4); [intros; eapply IH; by right|]. exists (l1 ++ l2). split.
      * intros acc. specialize (H1 acc). destruct (data child); unfold record_call in *; rewrite H1, H3, app_assoc; done.
      * intros st. specialize (H2 st). destruct (data child); rewrite ?Hf, H2, H4, foldl_app; done.
  - destruct oc as [[key child]|]; [|exists []; split; intros; [by rewrite app_nil_r|done]].
    destruct (Hvisit key child) as (l1 & H1 & H2); [by eapply IHc|]. exists l1. split.
    + intros acc. specialize (H1 acc). cbn [recursion]. destruct (data child); unfold record_call in *; rewrite H1; done.
    + intros st. specialize (H2 st). cbn [recursion]. destruct (data child); rewrite ?Hf, H2; done.
Qed.

Lemma Foreach_fold root st : node_ok root → Foreach f root st = foldl g st (Foreach record_call root []).
Proof using Hf.
  intros Hok. unfold Foreach.
  assert (∀ s c, (s, c) ∈ getChildren root → node_ok c) as Hch.
  { intros s c Hin. eapply getChild_ok; [exact Hok|]. pose proof (children_NoDup root Hok).
    rewrite <- map_get_elem in Hin by done.
    revert Hin. unfold getChild, getChildren. destruct (childMap root); [done|].
    destruct (childNode root) as [[k x]|]; [|done]. cbn. by case_decide. }
  revert st Hch. generalize (getChildren root) as m. intros m.
  assert ((∀ s c, (s, c) ∈ m → node_ok c) → ∃ l, (∀ acc, foreach_loop record_call m acc = acc ++ l)
    ∧ ∀ st, foreach_loop f m st = foldl g st l) as Hm.
  { induction m as [|[key child] m IH]; intros Hch; [exists []; split; intros; [by rewrite app_nil_r|done]|].
    destruct IH as (l2 & H3 & H4); [intros; eapply Hch; by right|].
    destruct (recursion_folds child ltac:(eapply Hch; left) [key]) as (l1 & H1 & H2).
    exists (l1 ++ match data child with Some d => [(joinDomain [key], d)] | None => [] end ++ l2).
    split; intros; cbn [foreach_loop]; rewrite ?H1, ?H2; destruct (data child); unfold record_call;
      rewrite ?Hf, ?H3, ?H4, ?foldl_app; cbn; rewrite <- ?app_assoc; done. }
  intros st Hch. destruct (Hm Hch) as (l & H1 & H2). by rewrite H2, H1.
Qed.
End fold.

(** *** ASCII strings are reversed byte by byte *)

Lemma decode_rune_ascii c s : (byteZ c < 128)%Z → decode_rune (c :: s) = Some (byteZ c, 1).
Proof. intros Hc. unfold decode_rune. cbn [fmap list_fmap]. destruct (Z.ltb_spec (byteZ c) 128); [done|lia]. Qed.

Lemma encode_rune_ascii c : (byteZ c < 128)%Z → encode_rune (byteZ c) = [c].
Proof.
  intros Hc. pose proof (byteZ_range c). unfold encode_rune.
  assert (in_z 0 1114111 (byteZ c) && negb (in_z 55296 57343 (byteZ c)) = true) as ->.
  { unfold in_z. apply andb_true_iff. rewrite negb_true_iff, andb_true_iff, andb_false_iff, !Z.leb_le, !Z.leb_gt. lia. }
  destruct (Z.ltb_spec (byteZ c) 128); [|lia]. by rewrite byte_of_byteZ.
Qed.

Lemma runes_ascii s : is_ascii s = true → runes s = byteZ <$> s.
Proof.
  unfold runes, is_ascii. induction s as [|c s IH]; [done|]. cbn [forallb length runes_fuel]. rewrite andb_true_iff, Z.ltb_lt.
  intros [Hc Hs]. rewrite decode_rune_ascii by done. cbn [drop fmap list_fmap]. rewrite drop_0. f_equal. by apply IH.
Qed.

Lemma Reverse_ascii s : is_ascii s = true → Reverse s = reverse s.
Proof.
  intros Hs. unfold Reverse. rewrite runes_ascii, <- fmap_reverse by done.
  assert (Forall (λ c, byteZ c < 128)%Z (reverse s)) as Ha.
  { apply Forall_reverse, Forall_forall. intros c Hc. unfold is_ascii in Hs. rewrite forallb_forall in Hs.
    apply Z.ltb_lt, Hs. by apply list_elem_of_In. }
  induction Ha as [|c l Hc _ IH]; [done|]. cbn [fmap list_fmap concat]. rewrite encode_rune_ascii by done. simpl. by f_equal.
Qed.

(** ** Paths of labels and keys *)

(** The key of a path: its labels reversed, ["+"] for the label [""]. *)
Definition label_key (l : str) : str := if decide (l = []) then complexWildcard else reverse l.
Definition path_key (q : list str) : str := join [dot] (label_key <$> q).

(** The labels of a stored pattern. *)
Definition literal_label (l : str) : Prop := l ≠ [] ∧ complexWildcardByte ∉ l ∧ wildcardByte ∉ l.
Definition pattern_label (l : str) : Prop := dot ∉ l ∧ (l = wildcard ∨ literal_label l).
Fixpoint path_ok (q : list str) : Prop :=
  match q with
  | [] => False
  | [l] => l = dotWildcard ∨ pattern_label l
  | l :: q => pattern_label l ∧ path_ok q
  end.

Lemma path_ok_cons l q : q ≠ [] → path_ok (l :: q) ↔ pattern_label l ∧ path_ok q.
Proof. by destruct q. Qed.

Lemma join_cons_ne p (l : list str) : l ≠ [] → join [dot] (p :: l) = p ++ dot :: join [dot] l.
Proof. intros. by rewrite join_cons. Qed.

Lemma path_key_cons l q : q ≠ [] → path_key (l :: q) = label_key l ++ dot :: path_key q.
Proof. intros Hq. unfold path_key. cbn [fmap list_fmap]. rewrite join_cons_ne; [done|]. by destruct q. Qed.

(** Bytes that are no wildcards are compared one by one. *)
Lemma key_match_literal u k xs : Forall (λ c, c ≠ complexWildcardByte ∧ c ≠ wildcardByte) u →
  key_match (u ++ k) xs = true ↔ ∃ xs', xs = u ++ xs' ∧ key_match k xs' = true.
Proof.
  intros Hu. revert xs. induction Hu as [|c u [H1 H2] _ IH]; intros xs.
  - split; [intros; by exists xs|]. by intros (xs' & -> & H).
  - cbn [app key_match]. destruct xs as [|x xs]; [split; [done|by intros (? & ? & _)]|].
    rewrite !decide_False, andb_true_iff, bool_decide_eq_true, IH by done. split.
    + intros (-> & xs' & -> & H). by exists xs'.
    + intros (xs' & [= -> ->] & H). naive_solver.
Qed.

Lemma dot_split (u v a b : str) : dot ∉ u → dot ∉ v → u ++ dot :: a = v ++ dot :: b → u = v ∧ a = b.
Proof.
  intros Hu Hv. revert v Hv. induction u as [|c u IH]; intros [|d v] Hv Heq; cbn [app] in Heq.
  - by injection Heq.
  - injection Heq as <- _. set_solver.
  - injection Heq as -> _. set_solver.
  - injection Heq as -> Heq. destruct (IH ltac:(set_solver) v ltac:(set_solver) Heq) as [-> ->]. done.
Qed.
Lemma dot_end (u v a : str) : dot ∉ u → u ≠ v ++ dot :: a.
Proof. intros Hu ->. apply Hu. set_solver. Qed.

Lemma drop_label_plain u xs : dot ∉ u → drop_label (u ++ xs) = drop_label xs.
Proof.
  intros Hu. induction u as [|c u IH]; [done|]. apply not_elem_of_cons in Hu as [Hc Hu]. cbn [app drop_label].
  rewrite decide_False by (intros ->; by apply Hc). by apply IH.
Qed.

Lemma dot_reverse (x : str) : dot ∉ x → dot ∉ reverse x.
Proof. by rewrite elem_of_reverse. Qed.
Lemma reverse_ne {A} (x : list A) : x ≠ [] → reverse x ≠ [].
Proof. intros Hx E. apply Hx. by rewrite <- (reverse_involutive x), E. Qed.

(** The bytes of a name by labels, its last label first. *)
Definition name_key (X : list str) : str := join [dot] (reverse <$> X).
Definition name_labels (X : list str) : Prop := Forall (λ x, x ≠ [] ∧ dot ∉ x) X.

(** One label of the key against the first label of the name. *)
Lemma key_match_label l k x ys : l = wildcard ∨ literal_label l → dot ∉ l → x ≠ [] → dot ∉ x →
  (k = [] ∨ ∃ k', k = dot :: k') → (ys = [] ∨ ∃ ys', ys = dot :: ys') →
  key_match (label_key l ++ k) (reverse x ++ ys) = true ↔ (l = x ∨ l = wildcard) ∧ key_match k ys = true.
Proof.
  intros Hl Hdl Hx Hdx Hk Hys. unfold label_key.
  assert (l ≠ []) as Hne by (destruct Hl as [->|[Hl _]]; done). rewrite decide_False by done.
  assert (drop_label ys = ys) as Hdrop by (destruct Hys as [->|[ys' ->]]; [done|]; cbn; by rewrite decide_True).
  destruct Hl as [->|(_ & Hp & Hw)].
  - change (reverse wildcard ++ k) with (wildcardByte :: k). pose proof (reverse_ne x Hx) as Hrx.
    destruct (reverse x) as [|c r] eqn:Er; [done|]. cbn [app key_match]. rewrite decide_False, decide_True by done.
    change (c :: r ++ ys) with ((c :: r) ++ ys). rewrite <- Er, drop_label_plain, Hdrop by (by apply dot_reverse).
    destruct Hys as [->|[ys' ->]]; destruct Hk as [->|[k' ->]]; cbn [key_match].
    + rewrite bool_decide_true by done. naive_solver.
    + rewrite bool_decide_false by done. naive_solver.
    + naive_solver.
    + rewrite !decide_False by done. rewrite !bool_decide_true by done. naive_solver.
  - rewrite key_match_literal.
    2: { apply Forall_reverse, Forall_forall. intros c Hc. split; intros ->; done. }
    split.
    + intros (xs' & Heq & Hm). destruct Hk as [->|[k' ->]].
      * destruct xs' as [|? ?]; [|done]. rewrite app_nil_r in Heq. destruct Hys as [->|[ys' ->]].
        -- rewrite app_nil_r in Heq. split; [|done]. left. by apply (inj reverse).
        -- exfalso. symmetry in Heq. by apply dot_end in Heq; [|apply dot_reverse].
      * destruct xs' as [|d xs']; [done|]. assert (d = dot) as ->.
        { cbn [key_match] in Hm. rewrite !decide_False, andb_true_iff, bool_decide_eq_true in Hm by done. by destruct Hm. }
        destruct Hys as [->|[ys' ->]].
        -- rewrite app_nil_r in Heq. exfalso. by apply dot_end in Heq; [|apply dot_reverse].
        -- apply dot_split in Heq as [Heq ->]; [|by apply dot_reverse..]. split; [|done]. left. symmetry. by apply (inj reverse).
    + intros [[->| ->] Hm]; [by exists ys|]. exfalso. apply Hw. by left.
Qed.

Lemma name_key_cons x X : name_key (x :: X) = reverse x ++ match X with [] => [] | _ => dot :: name_key X end.
Proof. unfold name_key. destruct X as [|y X]; [by rewrite app_nil_r|]. done. Qed.

(** Bytes match like labels. *)
Lemma key_match_path q X : path_ok q → name_labels X → X ≠ [] →
  key_match (path_key q) (name_key X) = true ↔ path_matches q X.
Proof.
  revert X. induction q as [|l q IH]; intros X Hq HX Hne; [done|]. destruct X as [|x X]; [done|].
  apply Forall_cons in HX as [[Hx Hdx] HX]. rewrite name_key_cons. cbn [path_matches].
  assert (∀ ys, ys = match X with [] => [] | _ => dot :: name_key X end → ys = [] ∨ ∃ ys', ys = dot :: ys') as Hys.
  { intros ys ->. destruct X; [by left|right; by eexists]. }
  destruct q as [|l2 q].
  - destruct Hq as [->|[Hdl Hl]].
    + pose proof (reverse_ne x Hx) as Hrx. destruct (reverse x) as [|c r]; [done|]. split; [by right|done].
    + unfold path_key. cbn [fmap list_fmap join]. rewrite <- (app_nil_r (label_key l)).
      rewrite key_match_label; [|done|done|done|done|by left|by apply Hys].
      assert (l ≠ dotWildcard) by (destruct Hl as [->|[? _]]; done).
      destruct X as [|y X]; cbn [key_match path_matches]; naive_solver.
  - rewrite path_ok_cons in Hq by done. destruct Hq as [[Hdl Hl] Hq]. rewrite path_key_cons by done.
    rewrite key_match_label; [|done|done|done|done|right; by eexists|by apply Hys].
    destruct X as [|y X]; [cbn [key_match path_matches]; naive_solver|].
    specialize (IH (y :: X) Hq HX ltac:(done)). rewrite <- IH. clear IH.
    change (key_match (dot :: path_key (l2 :: q)) (dot :: name_key (y :: X)))
      with (bool_decide (dot = dot) && key_match (path_key (l2 :: q)) (name_key (y :: X))).
    rewrite bool_decide_true by done. cbn [andb]. naive_solver.
Qed.

Lemma path_ok_snoc q : path_ok q → ∃ q' l, q = q' ++ [l] ∧ Forall pattern_label q' ∧ (l = dotWildcard ∨ pattern_label l).
Proof.
  induction q as [|l q IH]; [done|]. destruct q as [|l2 q]; [intros Hl; exists [], l; by repeat split|].
  rewrite path_ok_cons by done. intros [Hl Hq]. destruct (IH Hq) as (q' & l' & -> & Hq' & Hl').
  exists (l :: q'), l'. split; [done|]. split; [by constructor|done].
Qed.

Definition plus_label (l : str) : str := if decide (l = []) then complexWildcard else l.
Lemma label_key_plus l : label_key l = reverse (plus_label l).
Proof. unfold label_key, plus_label. by case_decide. Qed.

Lemma join_snoc (l : list str) p : l ≠ [] → join [dot] (l ++ [p]) = join [dot] l ++ dot :: p.
Proof.
  induction l as [|a l IH]; [done|]. intros _. destruct l as [|b l]; [done|].
  change ((a :: b :: l) ++ [p]) with (a :: ((b :: l) ++ [p])). rewrite join_cons_ne by (by destruct l).
  rewrite IH, (join_cons_ne a (b :: l)) by done. by rewrite <- app_assoc.
Qed.

Lemma reverse_join (l : list str) : reverse (join [dot] l) = join [dot] (reverse <$> reverse l).
Proof.
  induction l as [|p l IH]; [done|]. destruct l as [|p2 l]; [done|]. rewrite join_cons_ne by done.
  rewrite reverse_app, reverse_cons, IH, (reverse_cons (p2 :: l) p), fmap_app. cbn [fmap list_fmap].
  rewrite join_snoc by (rewrite fmap_reverse; by apply reverse_ne). by rewrite <- app_assoc.
Qed.

Lemma ascii_app s t : is_ascii (s ++ t) = is_ascii s && is_ascii t.
Proof. apply forallb_app. Qed.
Lemma is_ascii_join (l : list str) : Forall (λ p, is_ascii p = true) l → is_ascii (join [dot] l) = true.
Proof.
  induction 1 as [|p l Hp Hl IH]; [done|]. destruct l as [|p2 l]; [done|]. rewrite join_cons_ne by done.
  rewrite ascii_app, Hp. exact IH.
Qed.

(** The key that [NewDomainSet] makes of the pattern of a path. *)
Lemma pattern_key_path q : path_ok q → q ≠ [dotWildcard] → Forall (λ l, is_ascii l = true) q →
  pattern_key (joinDomain (reverse q)) = Ok (path_key q).
Proof.
  intros Hq Hne Ha. destruct (path_ok_snoc q Hq) as (q' & l & -> & Hq' & Hl).
  assert (plus_label <$> q' = q') as Hplus.
  { rewrite <- (list_fmap_id q') at 2. apply list_fmap_ext. intros i x Hx. rewrite Forall_forall in Hq'.
    destruct (Hq' x (list_elem_of_lookup_2 _ _ _ Hx)) as [_ Hx']. unfold plus_label. rewrite decide_False; [done|].
    destruct Hx' as [->|[? _]]; done. }
  set (domain := joinDomain (reverse (q' ++ [l]))).
  assert (∃ c r, domain = c :: r ∧ (if decide (c = dot) then complexWildcard ++ domain else domain)
    = join [dot] (plus_label <$> reverse (q' ++ [l]))) as (c & r & Hd & Hd').
  { unfold domain. rewrite reverse_snoc. cbn [fmap list_fmap]. rewrite fmap_reverse, Hplus. unfold joinDomain.
    destruct Hl as [->|[Hdl Hl]].
    - destruct q' as [|a q'] using rev_ind; [done|]. rewrite reverse_snoc, !join_cons_ne by done.
      exists dot. eexists. split; [done|]. by rewrite decide_True.
    - assert (l ≠ []) as Hl0 by (destruct Hl as [->|[? _]]; done). unfold plus_label. rewrite decide_False by done.
      destruct l as [|c l]; [done|]. destruct (reverse q') as [|a r]; [|rewrite join_cons_ne by done];
        eexists _, _; (split; [done|]); rewrite decide_False; try done; intros ->; apply Hdl; by left. }
  unfold pattern_key. rewrite Hd. rewrite <- Hd, Hd'. f_equal. rewrite Reverse_ascii.
  - rewrite reverse_join. unfold path_key. rewrite <- fmap_reverse, reverse_involutive, <- list_fmap_compose.
    f_equal. apply list_fmap_ext. intros i x _. cbn. by rewrite label_key_plus.
  - apply is_ascii_join, Forall_fmap, Forall_reverse. eapply Forall_impl; [exact Ha|]. intros x Hx. cbn.
    unfold plus_label. destruct (decide (x = [])); [reflexivity|done].
Qed.

Lemma label_key_dot l : l = dotWildcard ∨ pattern_label l → dot ∉ label_key l.
Proof.
  intros [->|[Hd Hl]]; [change (dot ∉ [complexWildcardByte]); by rewrite list_elem_of_singleton|]. unfold label_key.
  case_decide as E; [exfalso; subst; by destruct Hl as [|[? _]]|]. by apply dot_reverse.
Qed.

Lemma label_key_inj l l' : l = dotWildcard ∨ pattern_label l → l' = dotWildcard ∨ pattern_label l' →
  label_key l = label_key l' → l = l'.
Proof.
  assert (∀ l, pattern_label l → reverse l ≠ complexWildcard) as Hplus.
  { intros x [_ [->|(_ & Hp & _)]] E; [done|]. apply Hp. rewrite <- elem_of_reverse, E. by left. }
  unfold label_key. intros Hl Hl' E. repeat case_decide; subst; try done.
  - destruct Hl' as [->|Hl']; [done|]. exfalso. by apply (Hplus l').
  - destruct Hl as [->|Hl]; [done|]. exfalso. by apply (Hplus l).
  - by apply (inj reverse).
Qed.

Lemma is_ascii_reverse s : is_ascii s = true → is_ascii (reverse s) = true.
Proof.
  unfold is_ascii. rewrite !forallb_forall. intros Hs x Hx. apply Hs, list_elem_of_In, elem_of_reverse. by apply list_elem_of_In.
Qed.

(** The pattern of a key is the pattern of its path. *)
Lemma key_pattern_path q : path_ok q → q ≠ [dotWildcard] → Forall (λ l, is_ascii l = true) q →
  key_pattern (path_key q) = joinDomain (reverse q).
Proof.
  intros Hq Hne Ha. pose proof (pattern_key_path q Hq Hne Ha) as Hk.
  assert (is_ascii (joinDomain (reverse q)) = true) as Hasc by (by apply is_ascii_join, Forall_reverse).
  assert (head (joinDomain (reverse q)) ≠ Some complexWildcardByte) as Hhead.
  { destruct (path_ok_snoc q Hq) as (q' & l & -> & _ & Hl). rewrite reverse_snoc. unfold joinDomain.
    assert (complexWildcardByte ∉ l) as Hp.
    { destruct Hl as [->|[_ [->|(_ & Hp & _)]]]; [apply not_elem_of_nil| |done]. unfold wildcard. by intros ?%list_elem_of_singleton. }
    destruct l as [|c l].
    - destruct q' as [|a q' _] using rev_ind; [done|]. rewrite reverse_snoc, join_cons_ne by done. done.
    - destruct (reverse q'); [|rewrite join_cons_ne by done]; cbn; intros [= ->]; apply Hp; left. }
  unfold pattern_key in Hk. destruct (joinDomain (reverse q)) as [|c r] eqn:Ed; [done|]. injection Hk as <-.
  unfold key_pattern. destruct (decide (c = dot)) as [->|Hc].
  - rewrite (Reverse_ascii ("+"%char :: dot :: r)) by exact Hasc.
    rewrite reverse_cons, bool_decide_true by apply last_snoc.
    rewrite length_app, Nat.add_sub, take_app_length, Reverse_ascii; [by rewrite reverse_involutive|]. by apply is_ascii_reverse.
  - rewrite (Reverse_ascii (c :: r)) by exact Hasc. rewrite bool_decide_false by (rewrite last_reverse; exact Hhead).
    rewrite Reverse_ascii; [by rewrite reverse_involutive|]. by apply is_ascii_reverse.
Qed.

Lemma path_key_inj q q' : path_ok q → path_ok q' → path_key q = path_key q' → q = q'.
Proof.
  assert (∀ q, path_ok q → Forall (λ l, l = dotWildcard ∨ pattern_label l) q) as Hall.
  { intros x (y & l & -> & Hy & Hl)%path_ok_snoc. apply Forall_app. split; [|by constructor].
    eapply Forall_impl; [exact Hy|]. by right. }
  assert (∀ q, path_ok q → split_on dot (path_key q) = label_key <$> q) as Hsplit.
  { intros x Hx. unfold path_key. apply split_on_join; [by destruct x|]. apply Forall_fmap. eapply Forall_impl; [by apply Hall|].
    intros l. apply label_key_dot. }
  intros Hq Hq' E. apply (f_equal (split_on dot)) in E. rewrite !Hsplit in E by done.
  apply Hall in Hq, Hq'. clear Hall Hsplit. revert q' Hq' E. induction Hq as [|l q Hl _ IH]; intros [|l' q'] Hq' E; try done.
  apply Forall_cons in Hq' as [Hl' Hq']. cbn [fmap list_fmap] in E. injection E as El E.
  f_equal; [by apply label_key_inj|by apply IH].
Qed.

(** ** The paths of accepted patterns *)

Section accepted.
Context (unicode_lower : str → str).

Lemma valid_labels domain parts i part : ValidAndSplitDomain unicode_lower domain = Some parts → parts !! i = Some part →
  (complexWildcardByte ∈ part → part = complexWildcard ∧ i = 0 ∧ length parts ≠ 1) ∧ (wildcardByte ∈ part → part = wildcard).
Proof.
  unfold ValidAndSplitDomain. intros HV Hi.
  destruct (bool_decide _); [done|]. destruct (match decode_rune domain with Some (r, _) => _ | None => _ end); [done|].
  destruct (match decode_last_rune domain with Some (r, _) => _ | None => _ end); [done|].
  set (l := split_on dot (ToLower unicode_lower domain)) in *. clearbody l.
  destruct (match l with [part] => _ | _ => _ end); [done|]. destruct (existsb id _) eqn:E; [done|].
  injection HV as <-. apply not_true_iff_false in E.
  destruct (decide ((complexWildcardByte ∈ part → part = complexWildcard ∧ i = 0 ∧ length l ≠ 1) ∧ (wildcardByte ∈ part → part = wildcard)))
    as [|Hbad]; [done|]. exfalso. apply E, existsb_exists. eexists. split.
  - apply list_elem_of_In, (list_elem_of_lookup_2 _ i). rewrite list_lookup_imap, Hi. done.
  - cbn. apply not_true_iff_false in E || idtac. change (ascii_of_N 43) with complexWildcardByte. change (ascii_of_N 42) with wildcardByte.
    apply orb_true_iff. rewrite !andb_true_iff, !orb_true_iff, !negb_true_iff, !bool_decide_eq_true, !bool_decide_eq_false, Nat.eqb_neq, Nat.eqb_eq.
    destruct (decide (complexWildcardByte ∈ part)); destruct (decide (wildcardByte ∈ part)); destruct (decide (part = complexWildcard));
      destruct (decide (part = wildcard)); destruct (decide (i = 0)); destruct (decide (length l = 1)); naive_solver.
Qed.
End accepted.

Lemma is_ascii_split c s : is_ascii s = true → Forall (λ p, is_ascii p = true) (split_on c s).
Proof.
  induction s as [|x s IH]; cbn [is_ascii forallb split_on]; [by repeat constructor|]. rewrite andb_true_iff. intros [Hx Hs].
  specialize (IH Hs). case_decide; [by constructor|]. destruct (split_on c s) as [|p ps]; [repeat constructor; cbn; by rewrite Hx|].
  apply Forall_cons in IH as [Hp Hps]. constructor; [|done]. cbn. by rewrite Hx.
Qed.

Lemma path_ok_intro q l : Forall pattern_label q → l = dotWildcard ∨ pattern_label l → path_ok (q ++ [l]).
Proof.
  intros Hq Hl. induction Hq as [|a q Ha _ IH]; [done|]. cbn [app]. apply path_ok_cons; [by destruct q|done].
Qed.

Lemma length_join (l : list str) : length (join [dot] l) = sum_list (length <$> l) + (length l - 1).
Proof.
  induction l as [|p l IH]; [done|]. destruct l as [|p2 l]; [cbn; lia|]. rewrite join_cons_ne, length_app by done.
  cbn [length] in *. rewrite IH. cbn [fmap list_fmap]. rewrite !sum_list_cons. lia.
Qed.

Lemma sum_list_perm l l' : l ≡ₚ l' → sum_list l = sum_list l'.
Proof. induction 1; rewrite ?sum_list_cons; lia. Qed.

Lemma length_path_key q : length (path_key q) = sum_list ((λ l, length (plus_label l)) <$> q) + (length q - 1).
Proof.
  unfold path_key. rewrite length_join, <- list_fmap_compose, length_fmap. do 2 f_equal. apply list_fmap_ext. intros i x _.
  cbn. by rewrite label_key_plus, length_reverse.
Qed.

Lemma length_plus_le l : length (plus_label l) ≤ length l + (if decide (l = []) then 1 else 0).
Proof. unfold plus_label. case_decide; cbn; lia. Qed.

Section paths.
Context (unicode_lower : str → str).

(** What [Insert] stores a pattern under. *)
Lemma paths_of_ok domain q : is_ascii domain = true → q ∈ paths_of unicode_lower domain →
  path_ok q ∧ q ≠ [dotWildcard] ∧ Forall (λ l, is_ascii l = true) q.
Proof.
  intros Ha Hin. unfold paths_of in Hin.
  destruct (ValidAndSplitDomain unicode_lower domain) as [[|first rst]|] eqn:HV; [by apply elem_of_nil in Hin| |by apply elem_of_nil in Hin].
  pose proof (ValidAndSplitDomain_Some _ _ _ HV) as (Hparts & Htail & Hne). cbn [tail] in Htail.
  assert (Forall (λ p, is_ascii p = true) (first :: rst)) as Hasc.
  { rewrite Hparts. apply is_ascii_split. unfold ToLower. rewrite Ha. by apply is_ascii_lower. }
  assert (Forall (λ p, dot ∉ p) (first :: rst)) as Hdot by (rewrite Hparts; apply split_on_no_sep_parts).
  assert (∀ i p, (first :: rst) !! i = Some p → i ≠ 0 → p ≠ [] → pattern_label p) as Hlab.
  { intros i p Hi H0 Hp. destruct (valid_labels _ _ _ _ _ HV Hi) as [Hplus Hstar]. split.
    - rewrite Forall_forall in Hdot. apply Hdot. by eapply list_elem_of_lookup_2.
    - destruct (decide (wildcardByte ∈ p)); [left; by apply Hstar|right]. split; [done|]. split; [|done]. intros Hx.
      by destruct (Hplus Hx) as (_ & ? & _). }
  assert (Forall pattern_label rst) as Hrst.
  { apply Forall_lookup. intros i p Hi. apply (Hlab (S i)); [done|done|]. rewrite Forall_lookup in Htail. by eapply Htail. }
  apply Forall_cons in Hasc as [Hf1 Hr1]. apply Forall_cons in Hdot as [Hf2 _].
  assert (∀ l, rst ≠ [] ∨ l ≠ dotWildcard → is_ascii l = true → l = dotWildcard ∨ pattern_label l →
    path_ok (reverse (l :: rst)) ∧ reverse (l :: rst) ≠ [dotWildcard] ∧ Forall (λ l, is_ascii l = true) (reverse (l :: rst))) as Hpath.
  { intros l Hor Hl1 Hl2. rewrite reverse_cons. split; [apply path_ok_intro; [by apply Forall_reverse|done]|]. split.
    - intros E. destruct (reverse rst) as [|a r] eqn:Er.
      + simpl in E. simplify_eq. destruct Hor as [Hr|]; [|done]. by apply reverse_ne in Hr.
      + destruct r; done.
    - apply Forall_app. split; [by apply Forall_reverse|by constructor]. }
  destruct (decide (first = complexWildcard)) as [->|Hfirst].
  - assert (rst ≠ []) as Hr.
    { destruct (valid_labels _ _ _ 0 complexWildcard HV eq_refl) as [Hplus _]. destruct Hplus as (_ & _ & Hl); [by left|]. by intros ->. }
    apply elem_of_cons in Hin as [->|Hin].
    + destruct rst as [|r0 rst]; [done|]. apply Forall_cons in Hrst as [Hr0 Hrst]. apply Forall_cons in Hr1 as [Ha0 Hr1].
      rewrite reverse_cons. split; [apply path_ok_intro; [by apply Forall_reverse|by right]|]. split.
      * intros E. apply (f_equal last) in E. rewrite last_snoc in E. injection E as ->. by destruct Hr0 as [_ [|[? _]]].
      * apply Forall_app. split; [by apply Forall_reverse|by constructor].
    + apply list_elem_of_singleton in Hin as ->. apply Hpath; [by left|done|by left].
  - apply list_elem_of_singleton in Hin as ->. apply Hpath; [|done|].
    + destruct (decide (rst = [])) as [->|]; [right|by left]. by intros ->.
    + destruct (decide (first = [])) as [->|Hf0]; [by left|right]. destruct (valid_labels _ _ _ 0 first HV eq_refl) as [Hplus Hstar].
      split; [done|]. destruct (decide (wildcardByte ∈ first)); [left; by apply Hstar|right]. split; [done|]. split; [|done].
      intros Hx. by destruct (Hplus Hx) as [? _].
Qed.

Lemma paths_of_bytes domain : is_ascii domain = true →
  sum_list ((λ q, length (path_key q)) <$> paths_of unicode_lower domain) ≤ 2 * length domain.
Proof.
  intros Ha. unfold paths_of.
  destruct (ValidAndSplitDomain unicode_lower domain) as [[|first rst]|] eqn:HV; [cbn; lia| |cbn; lia].
  pose proof (ValidAndSplitDomain_Some _ _ _ HV) as (Hparts & Htail & Hne). cbn [tail] in Htail.
  assert (length domain = sum_list (length <$> first :: rst) + (length (first :: rst) - 1)) as Hlen.
  { rewrite Hparts at 1 2. rewrite <- length_join, join_split_on. unfold ToLower. by rewrite Ha, length_fmap. }
  assert ((λ l, length (plus_label l)) <$> rst = length <$> rst) as Hrst.
  { apply list_fmap_ext. intros i x Hx. rewrite Forall_lookup in Htail. unfold plus_label.
    rewrite decide_False; [done|]. by eapply Htail. }
  assert (∀ l, sum_list ((λ l, length (plus_label l)) <$> reverse l) = sum_list ((λ l, length (plus_label l)) <$> l)) as Hrev.
  { intros l. apply sum_list_perm. by rewrite reverse_Permutation. }
  cbn [fmap list_fmap length] in Hlen. rewrite sum_list_cons in Hlen.
  destruct (decide (first = complexWildcard)) as [->|Hf]; cbn [fmap list_fmap]; rewrite ?sum_list_cons, !length_path_key, !Hrev;
    cbn [fmap list_fmap]; rewrite ?sum_list_cons, ?Hrst, !length_reverse.
  - change (length (plus_label dotWildcard)) with 1. change (length complexWildcard) with 1 in Hlen. cbn [length]. cbn. lia.
  - pose proof (length_plus_le first) as Hp. cbn [length] in *. cbn. destruct (decide (first = [])) as [->|]; [|lia].
    destruct rst as [|r rst]; [done|]. cbn [length] in *. lia.
Qed.
End paths.

(** ** The set of a trie *)

Lemma str_ltb_strict s t : s ≠ t → str_ltb t s = false → str_ltb s t = true.
Proof.
  revert t. induction s as [|c s IH]; intros [|d t] Hne; cbn; try done.
  destruct (decide (c = d)) as [->|Hcd]; [rewrite decide_True by done; apply IH; congruence|].
  rewrite decide_False by done. rewrite Z.ltb_ge, Z.ltb_lt. assert (byteZ c ≠ byteZ d) by (by intros ?%byteZ_inj). lia.
Qed.

Lemma sort_strings_ascending ks : NoDup ks → sort_strings ks ≡ₚ ks ∧ ascending (sort_strings ks).
Proof.
  intros Hnd. assert (sort_strings ks ≡ₚ ks) as Hp by apply merge_sort_Permutation. split; [done|].
  assert (StronglySorted (λ x y, str_ltb y x = false) (sort_strings ks)) as Hs.
  { apply sort_by_sorted. split; [apply str_ltb_asym|]. intros x y z. apply str_ltb_negtrans. }
  rewrite <- Hp in Hnd. clear Hp. induction Hs as [|k l Hs IH Hf]; [constructor|]. apply NoDup_cons in Hnd as [Hk Hnd].
  constructor; [by apply IH|]. rewrite Forall_forall in Hf |- *. intros x Hx. apply str_ltb_strict; [by intros ->|by apply Hf].
Qed.

Lemma foldl_collect {T} (l : list (str * T)) (ks acc : list str) :
  Forall2 (λ dx k, pattern_key dx.1 = Ok k) l ks →
  foldl (λ st dx, ks ← st; k ← pattern_key dx.1; Ok (ks ++ [k])) (Ok acc) l = Ok (acc ++ ks).
Proof.
  intros Hl. revert acc. induction Hl as [|dx k l ks Hk _ IH]; intros acc; cbn [foldl]; [by rewrite app_nil_r|].
  cbn [mbind result_bind]. rewrite Hk. cbn [mbind result_bind]. rewrite IH, <- app_assoc. done.
Qed.

Section sets.
Context {T : Type} (unicode_lower : str → str) (ops : list (trie_op T)).

Definition op_domain (o : trie_op T) : str := match o with OInsert domain _ => domain | OOptimize => [] end.
Definition ascii_patterns : bool := forallb (λ o, is_ascii (op_domain o)) ops.
Definition pattern_bytes : nat := sum_list ((λ o, length (op_domain o)) <$> ops).
Definition all_paths : list (list str) := ops ≫= λ o, paths_of unicode_lower (op_domain o).

Lemma stored_path q d : stored unicode_lower ops q = Some d → q ∈ all_paths.
Proof.
  unfold stored, all_paths. induction ops as [|o l IH] using rev_ind; [done|]. rewrite foldl_snoc, bind_app, elem_of_app.
  destruct o as [domain x|]; [|by left; apply IH]. case_decide as E; [|by left; apply IH].
  intros _. right. cbn. rewrite app_nil_r. done.
Qed.

Lemma all_paths_bytes : ascii_patterns = true →
  sum_list ((λ q, length (path_key q)) <$> all_paths) ≤ 2 * pattern_bytes.
Proof.
  unfold ascii_patterns, all_paths, pattern_bytes. induction ops as [|o l IH]; [done|]. cbn [forallb]. rewrite andb_true_iff.
  intros [Ho Hl]. cbn [mbind list_bind fmap list_fmap]. rewrite fmap_app, sum_list_with_app, sum_list_cons.
  pose proof (paths_of_bytes unicode_lower _ Ho). specialize (IH Hl). cbn in *. lia.
Qed.

Lemma all_paths_ok q : ascii_patterns = true → q ∈ all_paths →
  path_ok q ∧ q ≠ [dotWildcard] ∧ Forall (λ l, is_ascii l = true) q.
Proof.
  intros Ha Hin. unfold all_paths in Hin. apply list_elem_of_bind in Hin as (o & Hq & Ho).
  eapply paths_of_ok; [|exact Hq]. unfold ascii_patterns in Ha. rewrite forallb_forall in Ha. apply Ha. by apply list_elem_of_In.
Qed.

Lemma sum_list_submseteq (l l' : list nat) : l ⊆+ l' → sum_list l ≤ sum_list l'.
Proof. induction 1; rewrite ?sum_list_cons; lia. Qed.

(** The keys of the trie: one for every path that something is stored under. *)
Lemma trie_keys : ascii_patterns = true → ∃ keys,
  Foreach collect_key (build unicode_lower ops) (Ok []) = Ok keys ∧ NoDup keys ∧ bytes keys ≤ 2 * pattern_bytes
  ∧ Forall (λ k, k ≠ []) keys
  ∧ key_pattern <$> keys = (Foreach record_call (build unicode_lower ops) []).*1
  ∧ ∀ k, k ∈ keys ↔ ∃ q d, stored unicode_lower ops q = Some d ∧ path_ok q ∧ k = path_key q.
Proof.
  intros Ha. destruct (Foreach_complete unicode_lower ops) as (ps & Hnd & Hps & Hfe).
  destruct (build_ok unicode_lower ops) as [Hok _].
  assert (∀ q, q ∈ ps.*1 → ∃ d, stored unicode_lower ops q = Some d ∧ q ∈ all_paths) as Hin.
  { intros q ([q' d] & -> & Hqd)%list_elem_of_fmap. apply Hps in Hqd as [_ Hst]. exists d. split; [done|]. by eapply stored_path. }
  exists (path_key <$> ps.*1). split; [|split; [|split; [|split; [|split]]]].
  - rewrite (Foreach_fold collect_key (λ st dx, ks ← st; k ← pattern_key dx.1; Ok (ks ++ [k]))) by done. rewrite Hfe.
    rewrite (foldl_collect _ (path_key <$> ps.*1) []); [done|]. rewrite Forall2_fmap_l, !Forall2_fmap_r.
    apply Forall_Forall2_diag, Forall_forall.
    intros [q d] Hqd. cbn. destruct (Hin q) as (_ & _ & Hq); [by apply (list_elem_of_fmap_2 fst) in Hqd|].
    apply all_paths_ok in Hq as (H1 & H2 & H3); [|done]. by apply pattern_key_path.
  - apply NoDup_fmap_2_strong; [|done]. intros x y Hx Hy. destruct (Hin x Hx) as (_ & _ & H1), (Hin y Hy) as (_ & _ & H2).
    apply all_paths_ok in H1 as (H1 & _), H2 as (H2 & _); [|done..]. by apply path_key_inj.
  - etrans; [|by apply all_paths_bytes]. unfold bytes. rewrite <- list_fmap_compose. apply sum_list_submseteq.
    apply (fmap_submseteq (λ q, length (path_key q))), NoDup_submseteq; [done|]. intros q Hq. by destruct (Hin q Hq) as (_ & _ & ?).
  - apply Forall_fmap, Forall_forall. intros q Hq. cbn. destruct (Hin q Hq) as (_ & _ & H1). apply all_paths_ok in H1 as (H1 & _); [|done].
    intros E. apply (f_equal length) in E. rewrite length_path_key in E. destruct q as [|l q]; [done|]. cbn [fmap list_fmap] in E.
    rewrite sum_list_cons in E. unfold plus_label in E at 1. destruct (decide (l = [])); cbn in E; [lia|]. destruct l; [done|]. simpl in E. lia.
  - rewrite Hfe, <- !list_fmap_compose. apply list_fmap_ext. intros i [q d] Hqd%list_elem_of_lookup_2. cbn.
    destruct (Hin q) as (_ & _ & Hq); [by apply (list_elem_of_fmap_2 fst) in Hqd|].
    apply all_paths_ok in Hq as (H1 & H2 & H3); [|done]. by apply key_pattern_path.
  - intros k. rewrite list_elem_of_fmap. split.
    + intros (q & -> & Hq). destruct (Hin q Hq) as (d & Hd & Hp). exists q, d. apply all_paths_ok in Hp as (? & _); done.
    + intros (q & d & Hd & Hq & ->). exists q. split; [done|]. apply list_elem_of_fmap. exists (q, d). split; [done|].
      apply Hps. split; [by intros ->|done].
Qed.
End sets.

Lemma NewDomainSet_keys {T} (unicode_lower : str → str) (ops : list (trie_op T)) : ascii_patterns ops = true → ∃ keys,
  NewDomainSet (build unicode_lower ops) = build_set keys ∧ ascending keys ∧ bytes keys ≤ 2 * pattern_bytes ops
  ∧ Forall (λ k, k ≠ []) keys
  ∧ key_pattern <$> keys ≡ₚ (Foreach record_call (build unicode_lower ops) []).*1
  ∧ ∀ k, k ∈ keys ↔ ∃ q d, stored unicode_lower ops q = Some d ∧ path_ok q ∧ k = path_key q.
Proof.
  intros Ha. destruct (trie_keys unicode_lower ops Ha) as (keys & Hf & Hnd & Hb & Hne & Hkp & Hk).
  destruct (sort_strings_ascending keys Hnd) as [Hp Hs]. exists (sort_strings keys).
  split; [unfold NewDomainSet; by rewrite Hf|]. split; [done|]. split; [|split; [|split]].
  - unfold bytes in *. by rewrite (sum_list_perm _ (length <$> keys)) by (by rewrite Hp).
  - by rewrite Hp.
  - by rewrite Hp, Hkp.
  - intros k. by rewrite Hp.
Qed.

(** A name whose bytes are ASCII and not before the wildcard byte. *)
Definition plain_name (domain : str) : bool := forallb (λ c, (42 <=? byteZ c)%Z && (byteZ c <? 128)%Z) domain.

Lemma plain_name_ascii domain : plain_name domain = true → is_ascii domain = true ∧ visible (rev_key domain).
Proof.
  unfold plain_name, is_ascii, visible, rev_key. rewrite !forallb_forall. intros Hd. split.
  - intros c Hc. specialize (Hd c Hc). by apply andb_true_iff in Hd as [_ ?].
  - apply Forall_fmap, Forall_reverse, Forall_forall. intros c Hc%list_elem_of_In. specialize (Hd c Hc).
    apply andb_true_iff in Hd as [H1%Z.leb_le _]. cbn. destruct (lower_byte_range c) as [->|[_ ->]]; lia.
Qed.

Lemma rev_key_name unicode_lower domain parts : is_ascii domain = true →
  ValidAndSplitDomain unicode_lower domain = Some parts → rev_key domain = name_key (reverse parts).
Proof.
  intros Ha (-> & _)%ValidAndSplitDomain_Some. unfold name_key, rev_key. rewrite <- reverse_join, join_split_on.
  unfold ToLower. by rewrite Ha, fmap_reverse.
Qed.

(** [Search] finds something exactly when a stored path matches. *)
Lemma Search_stored {T} (unicode_lower : str → str) (ops : list (trie_op T)) domain parts :
  ValidAndSplitDomain unicode_lower domain = Some parts → head parts ≠ Some [] →
  is_Some (Search unicode_lower domain (build unicode_lower ops))
  ↔ ∃ q d, stored unicode_lower ops q = Some d ∧ path_matches q (reverse parts).
Proof.
  intros HV Hh. destruct (build_ok unicode_lower ops) as [_ Hst]. set (root := build unicode_lower ops) in *.
  pose proof (search_best root (reverse parts) (valid_parts _ _ _ HV Hh)) as Hbest.
  assert (is_Some (Search unicode_lower domain root) ↔ is_Some (search_data root (reverse parts))) as ->.
  { unfold Search. rewrite HV, bool_decide_false by done. unfold search, search_data. rewrite isEmpty_data.
    destruct (search_rev root (reverse parts)) as [n|]; cbn; [destruct (data n); cbn|]; rewrite ?is_Some_alt; done. }
  unfold best_match in Hbest. destruct (search_data root (reverse parts)) as [d|].
  - destruct Hbest as (q & Hq & Hm & _). rewrite Hst in Hq. split; [|done]. intros _. by exists q, d.
  - split; [by intros []|]. intros (q & d & Hd & Hm). apply Hbest in Hm. rewrite Hst, Hd in Hm. done.
Qed.

(** C17: the set and the trie agree. For every sequence of inserts and
    optimizations of ASCII patterns, of at most [2^28] bytes, [NewDomainSet]
    gives a set, and for every name that is a valid domain of ASCII bytes from
    ['*'] on, [Has] answers yes exactly when [Search] of the trie finds a value:
    the reversed keys, the sorting, the level-order bitmap, the child index and
    the search with its stack of wildcards implement the matching of labels. *)
Theorem DomainSet_agrees {T} (unicode_lower : str → str) (ops : list (trie_op T)) :
  ascii_patterns ops = true → (Z.of_nat (pattern_bytes ops) < 2 ^ 28)%Z →
  ∃ set, NewDomainSet (build unicode_lower ops) = Ok set
  ∧ ∀ domain parts, plain_name domain = true → ValidAndSplitDomain unicode_lower domain = Some parts → head parts ≠ Some [] →
    Has unicode_lower set domain = Ok (bool_decide (is_Some (Search unicode_lower domain (build unicode_lower ops)))).
Proof.
  intros Ha Hb. destruct (NewDomainSet_keys unicode_lower ops Ha) as (keys & -> & Hs & Hkb & _ & _ & Hk).
  assert (∀ domain parts, plain_name domain = true → ValidAndSplitDomain unicode_lower domain = Some parts → head parts ≠ Some [] →
    existsb (λ k, key_match k (rev_key domain)) keys
    = bool_decide (is_Some (Search unicode_lower domain (build unicode_lower ops)))) as Hmatch.
  { intros domain parts Hp HV Hh. destruct (plain_name_ascii domain Hp) as [Hasc Hv]. apply eq_bool_prop_intro.
    rewrite bool_decide_spec, (Search_stored _ _ _ _ HV Hh), Is_true_true, existsb_exists.
    rewrite (rev_key_name _ _ _ Hasc HV). pose proof (ValidAndSplitDomain_nonempty _ _ _ HV) as Hne.
    assert (name_labels (reverse parts)) as Hlab.
    { pose proof (valid_parts _ _ _ HV Hh) as H1. pose proof (ValidAndSplitDomain_Some _ _ _ HV) as (Hparts & _ & _).
      apply Forall_and. split; [done|]. apply Forall_reverse. rewrite Hparts. apply split_on_no_sep_parts. }
    split.
    - intros (k & Hin%list_elem_of_In & Hm). apply Hk in Hin as (q & d & Hd & Hq & ->). exists q, d. split; [done|].
      by apply key_match_path; [| |apply reverse_ne|].
    - intros (q & d & Hd & Hm). destruct (all_paths_ok unicode_lower ops q Ha) as [Hq _]; [by eapply stored_path|].
      exists (path_key q). split; [apply list_elem_of_In, Hk; by exists q, d|]. by apply key_match_path; [| |apply reverse_ne|]. }
  destruct (decide (keys = [])) as [->|Hne].
  { exists None. split; [done|]. intros domain parts Hp HV Hh. by rewrite <- (Hmatch domain parts). }
  destruct (build_set_spec keys (conj Hs Hne)) as (ss & P & b & lv & t & Hset & _ & _ & _ & _ & _ & Hl & Hrep & Hsp & _); [lia|].
  exists (Some ss). split; [done|]. intros domain parts Hp HV Hh. rewrite <- (Hmatch domain parts) by done.
  destruct (plain_name_ascii domain Hp) as [Hasc Hv]. rewrite (Has_tree unicode_lower ss (degs P) t domain Hl Hrep).
  unfold normalize_key. rewrite Hasc. f_equal. by apply (spells_match keys).
Qed.

Definition demo_ops : list (trie_op nat) :=
  [OInsert (lit "+.example.com") 1; OInsert (lit "*.net") 2; OInsert (lit "a.*.org") 3; OOptimize].

Lemma DomainSet_agrees_witness : ∃ set, NewDomainSet (build id demo_ops) = Ok set
  ∧ Has id set (lit "WWW.example.com") = Ok true ∧ Has id set (lit "a.b.net") = Ok false.
Proof.
  destruct (DomainSet_agrees id demo_ops) as (set & Hset & Hhas); [reflexivity|vm_compute; reflexivity|].
  exists set. split; [exact Hset|]. split.
  - rewrite (Hhas (lit "WWW.example.com") (lit <$> ["www"; "example"; "com"])); [|reflexivity|vm_compute; reflexivity|discriminate].
    f_equal.
  - rewrite (Hhas (lit "a.b.net") (lit <$> ["a"; "b"; "net"])); [|reflexivity|vm_compute; reflexivity|discriminate].
    f_equal.
Defined.

(** Outside those names they differ, although [ValidAndSplitDomain] says it
    keeps them consistent: a byte before ['*'] hides the wildcard of its node,
    and [Has] does not reject empty labels. *)
Example DomainSet_disagrees :
  let root := build id [OInsert (lit "*.com") 1; OInsert (lit "x#.com") 2; OInsert (lit "+.net") 3] in
  ∃ set, NewDomainSet root = Ok set
  ∧ (Search id (lit "y#.com") root ≫= data) = Some 1 ∧ Has id set (lit "y#.com") = Ok false
  ∧ (Search id (lit "a..net") root ≫= data) = None ∧ Has id set (lit "a..net") = Ok true.
Proof. eexists. split; [vm_compute; reflexivity|]. repeat split; vm_compute; reflexivity. Qed.

(** ** Files of built sets *)

Lemma padded_rep bm l : bm_rep bm l → padded bm (length l) = Ok false.
Proof.
  intros [Hw Hc Hr]. unfold padded. destruct (Nat.eqb_spec (length l mod 64) 0) as [|Hrem]; [done|].
  pose proof (Nat.div_mod (length l) 64 ltac:(lia)) as Hdm. pose proof (Nat.mod_upper_bound (length l) 64 ltac:(lia)) as Hmb.
  assert (length bm = S (length l / 64)) as Hlen.
  { rewrite Hw. symmetry. apply (Nat.div_unique _ _ _ (length l mod 64 - 1)); lia. }
  rewrite last_lookup, Hlen. cbn [pred]. destruct (lookup_lt_is_Some_2 bm (length l / 64)) as [w Hwl]; [lia|]. rewrite Hwl.
  f_equal. apply negb_false_iff, Z.eqb_eq. apply Z.bits_inj'. intros j Hj. rewrite Z.bits_0, Z.shiftr_spec by lia.
  destruct (decide (j + Z.of_nat (length l mod 64) < 64)%Z) as [Hlt|Hge].
  - pose proof (f_equal (.!! (length l / 64 * 64 + Z.to_nat (j + Z.of_nat (length l mod 64)))) Hc) as Hb. cbn beta in Hb.
    assert (∀ q r, r < 64 → (q * 64 + r) / 64 = q ∧ (q * 64 + r) mod 64 = r) as Hqr.
    { intros q r Hrr. split; [rewrite Nat.div_add_l, Nat.div_small by lia; lia|].
      by rewrite (Nat.add_comm (q * 64)), Nat.Div0.mod_add, Nat.mod_small. }
    destruct (Hqr (length l / 64) (Z.to_nat (j + Z.of_nat (length l mod 64))) ltac:(lia)) as [H1 H2].
    rewrite bm_bits_lookup, H1, H2, Hwl, lookup_app_r, lookup_replicate_2 in Hb by lia.
    cbn [fmap option_fmap option_map] in Hb. rewrite Z2Nat.id in Hb by lia. by injection Hb.
  - rewrite Forall_forall in Hr. pose proof (Hr w (list_elem_of_lookup_2 _ _ _ Hwl)) as Hwr.
    destruct (Z.eq_dec w 0%Z) as [->|]; [apply Z.bits_0|]. apply Z.bits_above_log2; [lia|].
    pose proof (proj1 (Z.log2_lt_pow2 w 64 ltac:(lia)) ltac:(lia)). lia.
Qed.

Lemma ones_take_enc ds m : m ≤ length (enc ds) → start ds (ones (take m (enc ds))) + ones (take m (enc ds)) ≤ m.
Proof.
  revert m. induction ds as [|d ds IH]; intros m Hm; [destruct m; cbn in *; lia|]. rewrite enc_cons in *.
  rewrite length_app, length_replicate in Hm. cbn [length] in Hm. destruct (decide (m ≤ d)) as [Hd|Hd].
  - rewrite take_app_le, take_replicate, ones_false, start_0 by (rewrite length_replicate; lia). lia.
  - assert (take m (replicate d false ++ true :: enc ds) = replicate d false ++ true :: take (m - d - 1) (enc ds)) as ->.
    { rewrite take_app, length_replicate, take_ge by (rewrite length_replicate; lia). f_equal.
      destruct (m - d) as [|k] eqn:Ek; [lia|]. cbn [take]. by rewrite Nat.sub_1_r. }
    rewrite ones_app, ones_false. change (ones (true :: ?l)) with (S (ones l)). rewrite Nat.add_0_l, start_cons. specialize (IH (m - d - 1) ltac:(lia)). lia.
Qed.

Lemma balance_loop_ok bm LB cnt i zeros one : cnt = LB - i → i ≤ LB → LB ≤ length (bm_bits bm) →
  one = ones (take i (bm_bits bm)) → zeros + one = i →
  (∀ m, i < m < LB → 2 * ones (take m (bm_bits bm)) ≤ m) →
  balance_loop bm LB cnt i zeros one = Ok (LB - ones (take LB (bm_bits bm)), ones (take LB (bm_bits bm))).
Proof.
  revert i zeros one. induction cnt as [|cnt IH]; intros i zeros one Hcnt Hi HLB Hone Hsum Hm.
  { cbn. assert (i = LB) as -> by lia. do 2 f_equal; lia. }
  cbn [balance_loop]. rewrite getBit_spec. destruct (lookup_lt_is_Some_2 (bm_bits bm) i) as [x Hx]; [lia|]. rewrite Hx.
  cbn [mbind result_bind].
  assert (ones (take (S i) (bm_bits bm)) = one + (if x then 1 else 0)) as Hnext.
  { rewrite (take_S_r _ _ _ Hx), ones_app, <- Hone. by destruct x. }
  assert (((i <? LB - 1)%nat && ((if x then zeros else S zeros) <? (if x then S one else one))%nat) = false) as ->.
  { apply andb_false_iff. rewrite !Nat.ltb_ge. destruct (decide (S i < LB)) as [Hlt|]; [right|left; lia].
    specialize (Hm (S i) ltac:(lia)). rewrite Hnext in Hm. destruct x; lia. }
  apply IH; [lia|lia|done|rewrite Hnext; destruct x; lia|destruct x; lia|]. intros m ?. apply Hm. lia.
Qed.

(** [validateBinary] accepts what [NewDomainSet] writes. *)
Lemma built_valid keys P b lv : build_inv keys P [] [] b lv → Forall (λ k, k ≠ []) keys →
  validateBinary (b_leaves b) (b_labelBitmap b) (b_labels b) = Ok ().
Proof.
  intros Hinv Hnn. pose proof (built_count _ _ _ _ Hinv) as Hc. pose proof (inv_bits _ _ _ _ _ _ Hinv) as Hbits.
  pose proof (inv_leaves _ _ _ _ _ _ Hinv) as Hlv. rewrite <- (built_leaves _ _ _ _ Hinv) in Hlv.
  pose proof (length_enc (degs P)) as Hlen. rewrite length_degs in Hlen.
  set (r := replicate (64 * length (b_labelBitmap b) - length (enc (degs P))) false).
  assert (bm_bits (b_labelBitmap b) = enc (degs P) ++ r) as Hbb by apply Hbits.
  assert (count_ones (b_labelBitmap b) = length P) as Hones.
  { rewrite count_ones_spec, Hbb. unfold r. by rewrite ones_app, ones_enc, ones_false, length_degs, Nat.add_0_r. }
  assert (2 ≤ length P) as H2.
  { destruct (decide (kid_keys P = [])) as [Hk|Hk].
    - exfalso. pose proof (built_last _ _ _ _ Hinv) as (ks & Hl & He). rewrite (built_level _ _ _ _ Hinv), Hk in Hl.
      injection Hl as <-. unfold ends in He. apply bool_decide_eq_true in He. destruct keys as [|k keys]; [done|].
      injection He as ->. by inversion Hnn.
    - rewrite (built_level _ _ _ _ Hinv). destruct (kid_keys P); [done|]. simpl. lia. }
  unfold validateBinary. rewrite Hones. rewrite (inv_labels _ _ _ _ _ _ Hinv), length_kid_labels.
  assert ((length P <? 2)%nat || negb (length P =? sum_list (degs P) + 1)%nat = false) as ->.
  { apply orb_false_iff. rewrite Nat.ltb_ge, negb_false_iff, Nat.eqb_eq. lia. }
  replace (2 * length P - 1) with (length (enc (degs P))) by lia.
  rewrite (bm_words _ _ Hbits), Nat.eqb_refl. cbn [negb]. rewrite (padded_rep _ _ Hbits). cbn [mbind result_bind].
  rewrite (bm_words _ _ Hlv), length_fmap, Nat.eqb_refl. cbn [negb].
  pose proof (padded_rep _ _ Hlv) as Hpl. rewrite length_fmap in Hpl. rewrite Hpl. cbn [mbind result_bind].
  assert (count_ones (b_leaves b) ≠ 0) as Hleaf.
  { rewrite count_ones_spec, (bm_content _ _ Hlv), ones_app. pose proof (built_last _ _ _ _ Hinv) as (ks & Hl & He).
    apply last_Some in Hl as (P0 & ->). rewrite fmap_app, ones_app. cbn [fmap list_fmap]. rewrite He. change (ones [true]) with 1. lia. }
  destruct (Nat.eqb_spec (count_ones (b_leaves b)) 0) as [|_]; [done|].
  assert (ones (take (length (enc (degs P))) (bm_bits (b_labelBitmap b))) = length P) as Hto.
  { by rewrite Hbb, take_app_length, ones_enc, length_degs. }
  rewrite balance_loop_ok; [|lia|lia|rewrite Hbb, length_app; lia|done|done|].
  - cbn [mbind result_bind]. rewrite Hto, getBit_spec, Hbb.
    destruct (enc_one (degs P) r (length P - 1)) as [Hone _]; [rewrite length_degs; lia|].
    replace (S (length P - 1)) with (length (degs P)) in Hone by (rewrite length_degs; lia). rewrite start_length in Hone.
    replace (length (enc (degs P)) - 1) with (sum_list (degs P) + (length P - 1)) by lia. rewrite Hone. cbn [mbind result_bind].
    assert (negb (length (enc (degs P)) - length P =? length P - 1)%nat || negb (length P =? length P)%nat || negb true = false) as ->; [|done].
    rewrite Nat.eqb_refl. cbn [negb]. rewrite !orb_false_r, negb_false_iff, Nat.eqb_eq. lia.
  - intros m Hm. rewrite Hbb, take_app_le by lia. pose proof (ones_take_enc (degs P) m ltac:(lia)) as Hs.
    set (n := ones (take m (enc (degs P)))) in *. destruct (decide (n < length P)) as [Hn|Hn].
    + pose proof (inv_ahead _ _ _ _ _ _ Hinv n Hn). lia.
    + pose proof (start_mono (degs P) (length P) n ltac:(lia)) as Hmono. rewrite <- length_degs, start_length in Hmono. lia.
Qed.

Lemma length_words (ws : list Z) : length (ws ≫= be_put 8) = length ws * 8.
Proof.
  induction ws as [|w ws IH]; [done|]. cbn [mbind list_bind length]. rewrite length_app, length_be_put.
  change (8 + length (ws ≫= be_put 8) = 8 + length ws * 8). by rewrite IH.
Qed.

Lemma words_of_put ws : Forall (λ w, 0 ≤ w < 2 ^ 64)%Z ws → words_of (length ws) (ws ≫= be_put 8) = ws.
Proof.
  intros Hr. unfold words_of. apply list_eq. intros i. rewrite list_lookup_fmap.
  destruct (decide (i < length ws)) as [Hi|Hi].
  2: { rewrite !lookup_ge_None_2; [done|lia|rewrite length_seq; lia]. }
  rewrite lookup_seq_lt by done. cbn [fmap option_fmap option_map]. destruct (lookup_lt_is_Some_2 ws i Hi) as [w Hw]. rewrite Hw.
  f_equal. rewrite Forall_forall in Hr. pose proof (Hr w (list_elem_of_lookup_2 _ _ _ Hw)) as Hwr.
  rewrite <- (take_drop_middle ws i w Hw). rewrite bind_app. cbn [mbind list_bind]. change (list_bind _ _ (be_put 8) ?l) with (l ≫= be_put 8).
  unfold slice. rewrite Nat.add_0_l.
  assert (length (take i ws ≫= be_put 8) = i * 8) as Hti by (rewrite length_words, length_take; lia).
  rewrite drop_app_le by lia. rewrite drop_ge by lia. cbn [app]. replace (i * 8 + 8 - i * 8) with 8 by lia.
  rewrite <- (length_be_put 8 w) at 1. rewrite take_app_length. apply be_get_put_small. simpl. lia.
Qed.

Lemma readUint64Slice_write lo hi ws r : Forall (λ w, 0 ≤ w < 2 ^ 64)%Z ws → (lo ≤ Z.of_nat (length ws) ≤ hi)%Z → (hi < 2 ^ 62)%Z →
  readUint64Slice lo hi (writeUint64Slice ws ++ r) = Ok (ws, r).
Proof.
  intros Hr Hlen Hhi. unfold readUint64Slice, writeUint64Slice. rewrite <- app_assoc, read_full_app by apply length_be_put.
  cbn [mbind result_bind]. rewrite be_get_put_small by (simpl; lia).
  rewrite wrap_id by (done || (unfold in_int, int_min, int_max; cbn [int64 it_signed it_bits]; lia)).
  assert ((Z.of_nat (length ws) <? lo)%Z || (hi <? Z.of_nat (length ws))%Z = false) as ->.
  { apply orb_false_iff. rewrite !Z.ltb_ge. lia. }
  rewrite Nat2Z.id, read_full_app by apply length_words. cbn [mbind result_bind]. by rewrite words_of_put.
Qed.

Lemma result_bind_eq {A B} (m : result A) (f : A → result B) a : m = Ok a → m ≫= f = f a.
Proof. by intros ->. Qed.

(** Reading what [WriteBin] wrote, within the limits of the format. *)
Lemma ReadDomainSetBin_write ss :
  Forall (λ w, 0 ≤ w < 2 ^ 64)%Z (leaves ss) → Forall (λ w, 0 ≤ w < 2 ^ 64)%Z (labelBitmap ss) →
  (1 ≤ Z.of_nat (length (leaves ss)) ≤ (maxBinaryDomainLabels + 64) / 64)%Z →
  (1 ≤ Z.of_nat (length (labelBitmap ss)) ≤ (2 * maxBinaryDomainLabels + 64) / 64)%Z →
  (1 ≤ Z.of_nat (length (labels ss)) ≤ maxBinaryDomainLabels)%Z →
  ReadDomainSetBin (WriteBin ss) =
    (_ ← validateBinary (leaves ss) (labelBitmap ss) (labels ss); init_set (leaves ss) (labelBitmap ss) (labels ss)).
Proof.
  intros Hlv Hbm H1 H2 H3. unfold ReadDomainSetBin, WriteBin.
  assert (0 ≤ maxBinaryDomainLabels < 2 ^ 25)%Z as Hmax by done. revert H1 H2 H3 Hmax. generalize maxBinaryDomainLabels as mx.
  intros mx H1 H2 H3 Hmax.
  erewrite (result_bind_eq (read_full 1 _)); [|by apply read_full_app]. cbv beta iota zeta. rewrite bool_decide_true by done. cbn [negb].
  erewrite (result_bind_eq (readUint64Slice _ _ _)); [|apply readUint64Slice_write; [done..|apply Z.div_lt_upper_bound; lia]]. cbv beta iota zeta.
  erewrite (result_bind_eq (readUint64Slice _ _ _)); [|apply readUint64Slice_write; [done..|apply Z.div_lt_upper_bound; lia]]. cbv beta iota zeta.
  erewrite (result_bind_eq (read_full 8 _)); [|apply read_full_app, length_be_put]. cbv beta iota zeta.
  rewrite be_get_put_small by lia.
  rewrite wrap_id by (done || (unfold in_int, int_min, int_max; cbn [int64 it_signed it_bits]; lia)).
  rewrite (proj2 (Z.ltb_ge _ 1)), (proj2 (Z.ltb_ge mx _)) by lia. cbn [orb].
  pose proof (read_full_app (length (labels ss)) (labels ss) [] eq_refl) as Hrf. rewrite app_nil_r in Hrf.
  by rewrite Nat2Z.id, Hrf.
Qed.

(** C26: a set that was built from ASCII patterns (of at most [2^23] bytes, so
    that it stays within the limits of the format) is read back from its file as
    it was written: the file passes the validation, and the index of children is
    the same. *)
Theorem DomainSet_roundtrip {T} (unicode_lower : str → str) (ops : list (trie_op T)) (ss : DomainSet) :
  ascii_patterns ops = true → (Z.of_nat (pattern_bytes ops) ≤ 2 ^ 23)%Z →
  NewDomainSet (build unicode_lower ops) = Ok (Some ss) → ReadDomainSetBin (WriteBin ss) = Ok ss.
Proof.
  intros Ha Hb Hnew. destruct (NewDomainSet_keys unicode_lower ops Ha) as (keys & Heq & Hs & Hkb & Hnn & _).
  rewrite Heq in Hnew. destruct (decide (keys = [])) as [->|Hne]; [done|].
  destruct (build_set_spec keys (conj Hs Hne)) as (ss' & P & b & lv & t & Hset & Hinv & H1 & H2 & H3 & Hinit & Hl & _ & _ & Hlab); [lia|].
  rewrite Hset in Hnew. injection Hnew as ->.
  pose proof (built_valid _ _ _ _ Hinv Hnn) as Hval. rewrite <- H1, <- H2, <- H3 in Hval.
  pose proof (inv_bits _ _ _ _ _ _ Hinv) as Hbits. pose proof (inv_leaves _ _ _ _ _ _ Hinv) as Hlv.
  rewrite <- (built_leaves _ _ _ _ Hinv) in Hlv. rewrite <- H1 in Hlv. rewrite <- H2 in Hbits.
  pose proof (louds_nodes _ _ Hl) as Hn. pose proof (louds_labels _ _ Hl) as Hll. rewrite length_degs in Hn.
  pose proof (length_enc (degs P)) as Hle. rewrite length_degs in Hle.
  assert (1 ≤ length (labels ss)) as Hpos.
  { unfold validateBinary in Hval. rewrite count_ones_spec in Hval. destruct (ones _ <? 2)%nat eqn:E2 in Hval; [done|].
    apply Nat.ltb_ge in E2. rewrite (bm_content _ _ Hbits), ones_app, ones_enc, ones_false, length_degs in E2. lia. }
  assert ((maxBinaryDomainLabels + 64) / 64 = 262145 ∧ (2 * maxBinaryDomainLabels + 64) / 64 = 524289)%Z as [Hm1 Hm2] by done.
  pose proof (words_cover (length P)) as Hw1. pose proof (words_bound (length P)) as Hw2.
  pose proof (words_cover (length (enc (degs P)))) as Hw3. pose proof (words_bound (length (enc (degs P)))) as Hw4.
  rewrite ReadDomainSetBin_write; [|apply Hlv|apply Hbits|rewrite Hm1, (bm_words _ _ Hlv), length_fmap; lia
    |rewrite Hm2, (bm_words _ _ Hbits); lia|unfold maxBinaryDomainLabels; lia].
  rewrite Hval. exact Hinit.
Qed.

Lemma DomainSet_roundtrip_witness : ∃ ss, NewDomainSet (build id demo_ops) = Ok (Some ss)
  ∧ ReadDomainSetBin (WriteBin ss) = Ok ss.
Proof.
  eexists. split; [vm_compute; reflexivity|]. apply (DomainSet_roundtrip id demo_ops); [reflexivity|discriminate|vm_compute; reflexivity].
Defined.

(** ** The enumeration of a built set *)

(** A callback that records a view of every key and goes on. *)
Definition record_key {A} (g : str → A) (k : str) (st : list A) : bool * list A := (true, st ++ [g k]).

Lemma group_concat ks : Forall (λ k, k ≠ []) ks → (group ks ≫= λ cg, cons cg.1 <$> cg.2) = ks.
Proof.
  induction 1 as [|k ks Hk _ IH]; [done|]. destruct k as [|c k]; [done|]. cbn [group].
  destruct (group ks) as [|[d g] gs]; [by rewrite <- IH|].
  destruct (decide (c = d)) as [->|]; cbn [mbind list_bind fmap list_fmap fst snd app] in *; by rewrite <- IH.
Qed.

(** The visit of the tree of some keys records them in order. *)
Lemma spells_visit {A} (h : str → A) ks t : spells ks t → ascending ks → ∀ cur st,
  tvisit (record_key h) t cur st = (true, st ++ ((λ k, h (cur ++ k)) <$> ks)).
Proof.
  induction 1 as [ks leaf kids -> Hfst Hsp IH]. intros Hs cur st.
  destruct (ascending_rest ks Hs) as [Hrs Hnn]. destruct (group_ascending _ Hrs Hnn) as (_ & Hasc & _).
  pose proof (group_concat _ Hnn) as Hcat. fold (kids_of ks) in *.
  assert (∀ st, visit_kids (record_key h) kids cur st = (true, st ++ ((λ k, h (cur ++ k)) <$> rest ks))) as Hkids.
  { rewrite <- Hcat. clear Hcat Hs Hrs Hnn Hsp st. revert kids Hfst IH. induction (kids_of ks) as [|[c g] gs IHg];
      intros [|[c' t] kids] Hfst IH st; cbn [fmap list_fmap fst] in Hfst; try done; [cbn; by rewrite app_nil_r|].
    injection Hfst as -> Hfst. apply Forall_cons in Hasc as [[Hg _] Hasc]. cbn [visit_kids].
    rewrite (IH 0 c t g eq_refl eq_refl Hg). rewrite IHg; [|done|done|intros j; apply (IH (S j))].
    cbn [mbind list_bind fst snd]. rewrite fmap_app, <- app_assoc. do 3 f_equal. rewrite <- list_fmap_compose.
    apply list_fmap_ext. intros i x _. cbn. by rewrite <- app_assoc. }
  rewrite tvisit_node. unfold rest in Hkids. destruct (ends ks) eqn:E; unfold record_key at 1; rewrite Hkids; [|done].
  unfold ends in E. apply bool_decide_eq_true in E. destruct ks as [|k ks]; [done|]. injection E as ->.
  cbn [tail fmap list_fmap]. rewrite <- app_assoc. cbn [app]. by rewrite app_nil_r.
Qed.

(** [Foreach] of a set that was built from ASCII patterns goes through the
    same patterns as [Foreach] of the trie it was built from, each once: whatever
    the rank and select library is, the two enumerations are permutations of each
    other. *)
Theorem DomainSet_Foreach {T} `{BitmapIndex} (unicode_lower : str → str) (ops : list (trie_op T)) (ss : DomainSet) :
  ascii_patterns ops = true → (Z.of_nat (pattern_bytes ops) < 2 ^ 28)%Z →
  NewDomainSet (build unicode_lower ops) = Ok (Some ss) →
  ∃ l, set_Foreach (record_key id) ss [] = Ok l ∧ l ≡ₚ (Foreach record_call (build unicode_lower ops) []).*1.
Proof.
  intros Ha Hb Hnew. destruct (NewDomainSet_keys unicode_lower ops Ha) as (keys & Heq & Hs & Hkb & Hnn & Hperm & _).
  rewrite Heq in Hnew. destruct (decide (keys = [])) as [->|Hne]; [done|].
  destruct (build_set_spec keys (conj Hs Hne)) as (ss' & P & b & lv & t & Hset & _ & _ & _ & _ & _ & Hl & Hrep & Hsp & _); [lia|].
  rewrite Hset in Hnew. injection Hnew as ->. exists (key_pattern <$> keys). split; [|exact Hperm].
  unfold set_Foreach. erewrite set_keys_spec by done. f_equal.
  change (λ key, record_key id (key_pattern key)) with (record_key key_pattern).
  by rewrite (spells_visit _ keys t).
Qed.

Lemma DomainSet_Foreach_witness : ∃ ss l, NewDomainSet (build id demo_ops) = Ok (Some ss)
  ∧ @set_Foreach scan_index _ (record_key id) ss [] = Ok l ∧ l ≡ₚ (Foreach record_call (build id demo_ops) []).*1.
Proof.
  assert (∃ ss, NewDomainSet (build id demo_ops) = Ok (Some ss)) as [ss Hss] by (eexists; vm_compute; reflexivity).
  destruct (@DomainSet_Foreach _ scan_index id demo_ops ss) as [l Hl]; [reflexivity|vm_compute; reflexivity|exact Hss|].
  exists ss, l. split; [exact Hss|exact Hl].
Defined.
