(* ===== verification/CidrSet.v ===== *)
(** * CidrSet: the address sets of [component/cidr]

    [src/component/cidr/ipcidr_set.go]: a set of addresses built from prefixes.
    Before [Merge] it is a list of ranges that is scanned; [Merge] normalizes
    the list and keeps only the bounds, in tables of machine integers per
    family that a binary search reads; adding to a merged set rebuilds the
    list from the tables.

    The ranges and the normalization are those of the third-party package
    go4.org/netipx: [NetIPX] states what its documentation promises. *)
From S2P Require Import Prelude Bytes NetIP.

(** [a ≤ b] as addresses of one family, without zones. *)
Definition addr_le (a b : Addr) : Prop := BitLen a = BitLen b ∧ (addr_num a ≤ addr_num b)%Z.

Class NetIPX := {
  IPRange : Type;
  IPRangeFrom : Addr → Addr → IPRange;
  From : IPRange → Addr;
  To : IPRange → Addr;
  range_IsValid : IPRange → bool;
  range_Contains : IPRange → Addr → bool;
  range_Prefixes : IPRange → list Prefix;
  RangeOfPrefix : Prefix → IPRange;
  (* the builder: AddRange for each range, then IPSet().Ranges() *)
  ipset : list IPRange → result (list IPRange)
}.

(** The documented behaviour, for the addresses without zone that prefixes and
    lookups deal in. *)
Definition plain_range `{NetIPX} (r : IPRange) : Prop :=
  range_IsValid r = true ∧ wf_addr (From r) ∧ wf_addr (To r) ∧ addr_zone (From r) = [] ∧ addr_zone (To r) = [].

Class NetIPXLaws `{NetIPX} := {
  From_IPRangeFrom : ∀ a b, From (IPRangeFrom a b) = a;
  To_IPRangeFrom : ∀ a b, To (IPRangeFrom a b) = b;
  IsValid_range : ∀ r, addr_zone (From r) = [] → addr_zone (To r) = [] →
    range_IsValid r = true ↔ From r ≠ AddrZero ∧ addr_le (From r) (To r);
  Contains_range : ∀ r ip, plain_range r → addr_zone ip = [] →
    range_Contains r ip = true ↔ addr_le (From r) ip ∧ addr_le ip (To r);
  RangeOfPrefix_valid : ∀ p, range_IsValid (RangeOfPrefix p) = prefix_valid p;
  RangeOfPrefix_plain : ∀ p, prefix_valid p = true → wf_addr (p_addr p) → plain_range (RangeOfPrefix p);
  RangeOfPrefix_contains : ∀ p ip, prefix_valid p = true → wf_addr (p_addr p) → wf_addr ip → addr_zone ip = [] →
    range_Contains (RangeOfPrefix p) ip = prefix_contains p ip;
  (* the same addresses, in disjoint ranges in increasing order, IPv4 first *)
  ipset_ok : ∀ rs, Forall plain_range rs → ∃ out, ipset rs = Ok out
    ∧ Forall plain_range out
    ∧ (∀ i j r s, i < j → out !! i = Some r → out !! j = Some s →
         (BitLen (To r) < BitLen (From s) ∨ (BitLen (To r) = BitLen (From s) ∧ addr_num (To r) < addr_num (From s)))%Z)
    ∧ ∀ ip, addr_zone ip = [] → existsb (λ r, range_Contains r ip) out = existsb (λ r, range_Contains r ip) rs
}.

(** ** The set *)

Record v6addr := MkV6 { hi : Z; lo : Z }.

#[export] Instance v6addr_eq_dec : EqDecision v6addr.
Proof. solve_decision. Defined.

Record IpCidrSet `{NetIPX} := MkSet {
  rr : list IPRange;
  merged : bool;
  v4From : list Z;
  v4To : list Z;
  v6From : list v6addr;
  v6To : list v6addr
}.
Arguments MkSet {_} _ _ _ _ _ _.

Section set.
Context `{NetIPX}.

Definition NewIpCidrSet : IpCidrSet := MkSet [] false [] [] [] [].

(** The bytes of an address as machine integers, and back. *)
Definition ipv4Uint32 (ip : Addr) : Z := be_get (As4 ip).
Definition ipv4FromUint32 (v : Z) : Addr := AddrFrom4 (be_put 4 v).
Definition ipv6Addr (ip : Addr) : v6addr := MkV6 (be_get (slice (As16 ip) 0 8)) (be_get (slice (As16 ip) 8 16)).
Definition v6ToIP (a : v6addr) : Addr := AddrFrom16 (be_put 8 (hi a) ++ be_put 8 (lo a)).

Definition greater (a b : v6addr) : bool := (hi a >? hi b)%Z || ((hi a =? hi b)%Z && (lo a >? lo b)%Z).
Definition lessOrEqual (a b : v6addr) : bool := (hi a <? hi b)%Z || ((hi a =? hi b)%Z && (lo a <=? lo b)%Z).

(** The loop of both [containsV4] and [containsV6]: the number of bounds that
    are not above [ip]. [j - i] shrinks in every round. *)
Fixpoint bound_loop {A} (gt : A → A → bool) (from : list A) (ip : A) (fuel i j : nat) : result nat :=
  match fuel with
  | 0 => Ok i
  | S fuel =>
    if (i <? j)%nat then
      let h := Nat.div2 (i + j) in
      match from !! h with
      | None => Panic
      | Some x => if gt x ip then bound_loop gt from ip fuel i h else bound_loop gt from ip fuel (S h) j
      end
    else Ok i
  end.

Definition contains_bounds {A} (gt le : A → A → bool) (from to : list A) (ip : A) : result bool :=
  i ← bound_loop gt from ip (length from) 0 (length from);
  match i with
  | 0 => Ok false
  | S i => match to !! i with Some t => Ok (le ip t) | None => Panic end
  end.

Definition containsV4 (from to : list Z) (ip : Z) : result bool := contains_bounds Z.gtb Z.leb from to ip.
Definition containsV6 (from to : list v6addr) (ip : v6addr) : result bool :=
  contains_bounds greater lessOrEqual from to ip.

Definition appendCompactTo (set : IpCidrSet) (rr : list IPRange) : list IPRange :=
  (rr ++ zip_with (λ a b, IPRangeFrom (ipv4FromUint32 a) (ipv4FromUint32 b)) (v4From set) (v4To set))
  ++ zip_with (λ a b, IPRangeFrom (v6ToIP a) (v6ToIP b)) (v6From set) (v6To set).

Definition AddIpCidr (ipCidr : Prefix) (set : IpCidrSet) : result IpCidrSet :=
  let r := RangeOfPrefix ipCidr in
  if range_IsValid r then
    let rr := if merged set then appendCompactTo set [] else rr set in
    Ok (MkSet (rr ++ [r]) false [] [] [] [])
  else Err "not valid ipcidr range".

(** With [netip.ParsePrefix] as an argument. *)
Definition AddIpCidrForString (ParsePrefix : str → result Prefix) (ipCidr : str) (set : IpCidrSet) : result IpCidrSet :=
  prefix ← ParsePrefix ipCidr; AddIpCidr prefix set.

Definition IsContain (ip : Addr) (set : IpCidrSet) : result bool :=
  if negb (IsValid ip) then Ok false
  else
    let ip := without_zone ip in
    if merged set then
      if Is4 ip then containsV4 (v4From set) (v4To set) (ipv4Uint32 ip)
      else if Is6 ip then containsV6 (v6From set) (v6To set) (ipv6Addr ip)
      else Ok false
    else Ok (existsb (λ r, range_Contains r ip) (rr set)).

Definition IsEmpty (set : IpCidrSet) : bool :=
  if merged set then (length (v4From set) + length (v6From set) =? 0)%nat else (length (rr set) =? 0)%nat.

Definition MatchIp (ip : Addr) (set : IpCidrSet) : result bool :=
  if IsEmpty set then Ok false else IsContain ip set.

(** The second loop of [buildLookup]; the first only counts. *)
Definition add_bounds (set : IpCidrSet) (r : IPRange) : IpCidrSet :=
  let from := From r in
  let to := To r in
  if Is4 from then
    MkSet (rr set) (merged set) (v4From set ++ [ipv4Uint32 from]) (v4To set ++ [ipv4Uint32 to]) (v6From set) (v6To set)
  else if Is6 from then
    MkSet (rr set) (merged set) (v4From set) (v4To set) (v6From set ++ [ipv6Addr from]) (v6To set ++ [ipv6Addr to])
  else set.
Definition buildLookup (rs : list IPRange) (set : IpCidrSet) : IpCidrSet :=
  foldl add_bounds (MkSet (rr set) (merged set) [] [] [] []) rs.

Definition fromIPSet (i : list IPRange) (set : IpCidrSet) : IpCidrSet :=
  let set := buildLookup i set in
  MkSet [] true (v4From set) (v4To set) (v6From set) (v6To set).

Definition Merge (set : IpCidrSet) : result IpCidrSet :=
  if merged set then Ok set
  else if negb (forallb range_IsValid (rr set)) then Err "invalid IP range"
  else i ← ipset (rr set); Ok (fromIPSet i set).

Definition rangeCount (set : IpCidrSet) : nat :=
  if merged set then length (v4From set) + length (v6From set) else length (rr set).

(** [forEachRange] over the ranges of a set until the callback refuses. *)
Definition ranges_of (set : IpCidrSet) : list IPRange :=
  if merged set then appendCompactTo set [] else rr set.
Fixpoint range_loop {St} (f : IPRange → St → bool * St) (l : list IPRange) (st : St) : St :=
  match l with
  | [] => st
  | r :: l => let '(ok, st) := f r st in if ok then range_loop f l st else st
  end.
Definition forEachRange {St} (f : IPRange → St → bool * St) (set : IpCidrSet) (st : St) : St :=
  range_loop f (ranges_of set) st.

Fixpoint prefix_loop {St} (f : Prefix → St → bool * St) (l : list Prefix) (st : St) : bool * St :=
  match l with
  | [] => (true, st)
  | p :: l => let '(ok, st) := f p st in if ok then prefix_loop f l st else (false, st)
  end.
Definition Foreach {St} (f : Prefix → St → bool * St) (set : IpCidrSet) (st : St) : St :=
  forEachRange (λ r st, prefix_loop f (range_Prefixes r) st) set st.

Definition ToIPSet (set : IpCidrSet) : list IPRange :=
  let added := forEachRange (λ r acc, (true, if range_IsValid r then acc ++ [r] else acc)) set [] in
  match ipset added with Ok i => i | _ => [] end.
End set.

(** ** The binary search *)

Section search.
Context {A : Type} (gt : A → A → bool) (from : list A) (ip : A).

(** [c] is where the bounds above [ip] begin. *)
Definition splits_at (c : nat) : Prop :=
  (∀ k x, k < c → from !! k = Some x → gt x ip = false) ∧ (∀ k x, c ≤ k → from !! k = Some x → gt x ip = true).

(** The bounds above [ip] are a suffix of the table. *)
Definition gt_suffix : Prop := ∀ i j x y, i ≤ j → from !! i = Some x → from !! j = Some y → gt x ip = true → gt y ip = true.

Lemma bound_loop_splits fuel i j : gt_suffix → j - i ≤ fuel → i ≤ j ≤ length from →
  (∀ k x, k < i → from !! k = Some x → gt x ip = false) → (∀ k x, j ≤ k → from !! k = Some x → gt x ip = true) →
  ∃ c, bound_loop gt from ip fuel i j = Ok c ∧ c ≤ length from ∧ splits_at c.
Proof.
  intros Hsuf. revert i j. induction fuel as [|fuel IH]; intros i j Hf Hij Hlo Hhi.
  - assert (i = j) as -> by lia. exists j. split; [done|]. split; [lia|done].
  - cbn [bound_loop]. destruct (Nat.ltb_spec i j); [|assert (i = j) as -> by lia; exists j; split; [done|]; split; [lia|done]].
    pose proof (Nat.div2_div (i + j)) as Hd.
    assert (Hh : i ≤ Nat.div2 (i + j) < j).
    { rewrite Hd. split; [apply Nat.div_le_lower_bound; lia|apply Nat.Div0.div_lt_upper_bound; lia]. }
    destruct (lookup_lt_is_Some_2 from (Nat.div2 (i + j)) ltac:(lia)) as [x Hx]. rewrite Hx.
    destruct (gt x ip) eqn:Hg; apply IH; try lia; try done.
    + intros k y Hk Hy. by eapply (Hsuf _ k x y).
    + intros k y Hk Hy. destruct (gt y ip) eqn:Hgy; [|done].
      rewrite (Hsuf k (Nat.div2 (i + j)) y x) in Hg; [done|lia|done|done|done].
Qed.
End search.

Lemma existsb_bounds {A} (f : A → Z) (z : Z) (bs : list (A * A)) :
  existsb (λ ab, (f ab.1 <=? z)%Z && (z <=? f ab.2)%Z) bs = true
  ↔ ∃ i a b, bs !! i = Some (a, b) ∧ (f a ≤ z ≤ f b)%Z.
Proof.
  rewrite existsb_exists. split.
  - intros ([a b] & Hin & Hab). apply list_elem_of_In, list_elem_of_lookup_1 in Hin as [i Hi]. zify_bool. eauto 10.
  - intros (i & a & b & Hi & Hab). exists (a, b). split; [by eapply list_elem_of_In, list_elem_of_lookup_2|].
    apply andb_true_iff. simpl. rewrite !Z.leb_le. lia.
Qed.

(** A table of disjoint ranges in increasing order is searched correctly. *)
Lemma contains_bounds_spec {A} (gt le : A → A → bool) (f : A → Z) (z : Z) (ip : A) (bs : list (A * A)) :
  (∀ a b, (a, b) ∈ bs → gt a ip = (z <? f a)%Z ∧ le ip b = (z <=? f b)%Z ∧ (f a ≤ f b)%Z) →
  (∀ i j a b a' b', i < j → bs !! i = Some (a, b) → bs !! j = Some (a', b') → (f b < f a')%Z) →
  contains_bounds gt le bs.*1 bs.*2 ip = Ok (existsb (λ ab, (f ab.1 <=? z)%Z && (z <=? f ab.2)%Z) bs).
Proof.
  intros Hb Hord. unfold contains_bounds.
  assert (Hbi : ∀ i a b, bs !! i = Some (a, b) → gt a ip = (z <? f a)%Z ∧ le ip b = (z <=? f b)%Z ∧ (f a ≤ f b)%Z)
    by (intros; by eapply Hb, list_elem_of_lookup_2).
  assert (Hlook : ∀ i x, bs.*1 !! i = Some x → ∃ b, bs !! i = Some (x, b)).
  { intros i x. rewrite list_lookup_fmap. intros ([a b] & Hi & ->)%fmap_Some. eauto. }
  assert (Hsuf : gt_suffix gt bs.*1 ip).
  { intros i j x y Hij (bx & Hx)%Hlook (by_ & Hy)%Hlook. destruct (decide (i = j)) as [->|]; [by simplify_eq|].
    destruct (Hbi _ _ _ Hx) as (-> & _ & Hle). destruct (Hbi _ _ _ Hy) as (-> & _ & _).
    specialize (Hord i j x bx y by_ ltac:(lia) Hx Hy). rewrite !Z.ltb_lt. lia. }
  destruct (bound_loop_splits gt bs.*1 ip (length bs.*1) 0 (length bs.*1) Hsuf) as (c & -> & Hc & Hlo & Hhi);
    [lia|lia|lia|intros k x Hk Hx; apply lookup_lt_Some in Hx; lia|].
  cbn [mbind result_bind]. rewrite length_fmap in Hc.
  destruct c as [|c].
  - f_equal. apply eq_true_iff_eq. rewrite existsb_bounds. split; [done|]. intros (i & a & b & Hi & Hab).
    specialize (Hhi i a ltac:(lia)). rewrite list_lookup_fmap, Hi in Hhi. destruct (Hbi _ _ _ Hi) as (E & _).
    rewrite E in Hhi. specialize (Hhi eq_refl). apply Z.ltb_lt in Hhi. lia.
  - destruct (lookup_lt_is_Some_2 bs c ltac:(lia)) as [[a b] Hab]. rewrite list_lookup_fmap, Hab. cbn [fmap option_fmap option_map snd].
    destruct (Hbi _ _ _ Hab) as (Hga & -> & _). f_equal. apply eq_true_iff_eq. rewrite existsb_bounds, Z.leb_le.
    specialize (Hlo c a ltac:(lia)). rewrite list_lookup_fmap, Hab in Hlo. specialize (Hlo eq_refl).
    rewrite Hga, Z.ltb_ge in Hlo. split; [eauto 10|]. intros (i & a' & b' & Hi & Hab').
    destruct (Hbi _ _ _ Hi) as (Hga' & _). destruct (decide (i = c)) as [->|Hne]; [simplify_eq; lia|].
    destruct (decide (i < c)) as [Hlt|].
    + specialize (Hord i c a' b' a b Hlt Hi Hab). lia.
    + specialize (Hhi i a' ltac:(lia)). rewrite list_lookup_fmap, Hi in Hhi. specialize (Hhi eq_refl).
      rewrite Hga', Z.ltb_lt in Hhi. lia.
Qed.

(** ** Addresses as machine integers *)

Lemma be_get_app s t : be_get (s ++ t) = (be_get s * 2 ^ (8 * Z.of_nat (length t)) + be_get t)%Z.
Proof.
  unfold be_get. rewrite <- be_get_acc_linear. generalize 0%Z as acc. revert t.
  induction s as [|c s IH]; intros t acc; [done|]. apply IH.
Qed.

Definition num6 (a : v6addr) : Z := (hi a * 2 ^ 64 + lo a)%Z.

Lemma ipv4Uint32_num v : (0 ≤ v < 2 ^ 32)%Z → ipv4Uint32 (Addr4 v) = v.
Proof. intros. by apply be_get_put_small. Qed.

Lemma ipv4FromUint32_num v : (0 ≤ v < 2 ^ 32)%Z → ipv4FromUint32 v = Addr4 v.
Proof. intros. unfold ipv4FromUint32, AddrFrom4. by rewrite be_get_put_small. Qed.

Lemma ipv6Addr_spec v z : (0 ≤ v < 2 ^ 128)%Z →
  num6 (ipv6Addr (Addr6 v z)) = v ∧ (0 ≤ lo (ipv6Addr (Addr6 v z)) < 2 ^ 64)%Z ∧ v6ToIP (ipv6Addr (Addr6 v z)) = Addr6 v [].
Proof.
  intros Hv. unfold num6, v6ToIP, ipv6Addr. cbn [hi lo As16 addr_num].
  set (b := be_put 16 v). assert (Hlen : length b = 16) by apply length_be_put.
  assert (Hb : slice b 0 8 ++ slice b 8 16 = b).
  { unfold slice. cbn [Nat.sub]. rewrite drop_0, (take_ge (drop 8 b)) by (rewrite length_drop; lia). apply take_drop. }
  assert (length (slice b 0 8) = 8 ∧ length (slice b 8 16) = 8) as [H1 H2] by (rewrite !length_slice by lia; lia).
  split_and!.
  - transitivity (be_get b); [|by apply be_get_put_small]. rewrite <- Hb at 3. rewrite be_get_app, H2. done.
  - apply be_get_range.
  - pose proof (be_get_range (slice b 8 16)) as Hr. rewrite H2 in Hr. exact (proj2 Hr).
  - unfold AddrFrom16. rewrite !be_put_get_n, Hb by done. f_equal. by apply be_get_put_small.
Qed.

Lemma greater_num a b : (0 ≤ lo a < 2 ^ 64)%Z → (0 ≤ lo b < 2 ^ 64)%Z → greater a b = (num6 b <? num6 a)%Z.
Proof.
  intros Ha Hb. unfold greater, num6. apply eq_true_iff_eq. rewrite orb_true_iff, andb_true_iff, !Z.gtb_lt, Z.eqb_eq, Z.ltb_lt. nia.
Qed.

Lemma lessOrEqual_num a b : (0 ≤ lo a < 2 ^ 64)%Z → (0 ≤ lo b < 2 ^ 64)%Z → lessOrEqual a b = (num6 a <=? num6 b)%Z.
Proof.
  intros Ha Hb. unfold lessOrEqual, num6. apply eq_true_iff_eq.
  rewrite orb_true_iff, andb_true_iff, !Z.ltb_lt, Z.eqb_eq, !Z.leb_le. nia.
Qed.

(** ** The tables *)

Section tables.
#[local] Set Default Proof Using "All".
Context `{NetIPXLaws}.
Implicit Types (r : IPRange) (out rs : list IPRange).

(** A range is of one family. *)
Lemma plain_cases r : plain_range r →
  (∃ a b, From r = Addr4 a ∧ To r = Addr4 b ∧ (0 ≤ a ≤ b)%Z ∧ (b < 2 ^ 32)%Z) ∨
  (∃ a b, From r = Addr6 a [] ∧ To r = Addr6 b [] ∧ (0 ≤ a ≤ b)%Z ∧ (b < 2 ^ 128)%Z).
Proof.
  intros (Hv & Hwf & Hwt & Hzf & Hzt). apply IsValid_range in Hv as [Hne [Hbit Hle]]; [|done|done].
  destruct (From r) as [|a|a zf], (To r) as [|b|b zt]; try done; simpl in *; subst; [left|right]; exists a, b; split_and!; done || lia.
Qed.

Definition four (rs : list IPRange) : list IPRange := filter (λ r, Is4 (From r) = true) rs.
Definition six (rs : list IPRange) : list IPRange := filter (λ r, Is6 (From r) = true) rs.

Lemma buildLookup_tables rs set : Forall plain_range rs →
  buildLookup rs set = MkSet (rr set) (merged set)
    (ipv4Uint32 ∘ From <$> four rs) (ipv4Uint32 ∘ To <$> four rs) (ipv6Addr ∘ From <$> six rs) (ipv6Addr ∘ To <$> six rs).
Proof.
  intros Hrs. unfold buildLookup.
  assert (Hgen : ∀ s, foldl add_bounds s rs = MkSet (rr s) (merged s)
    (v4From s ++ (ipv4Uint32 ∘ From <$> four rs)) (v4To s ++ (ipv4Uint32 ∘ To <$> four rs))
    (v6From s ++ (ipv6Addr ∘ From <$> six rs)) (v6To s ++ (ipv6Addr ∘ To <$> six rs))).
  { induction rs as [|r rs IH]; intros s; [destruct s; simpl; by rewrite !app_nil_r|].
    apply Forall_cons in Hrs as [Hr Hrs]. cbn [foldl]. rewrite IH by done. unfold add_bounds, four, six. rewrite !filter_cons.
    destruct (plain_cases r Hr) as [(a & b & E & _)|(a & b & E & _)]; rewrite E; cbn [Is4 Is6];
      repeat ((rewrite decide_True by done) || (rewrite decide_False by done)); cbn [rr merged v4From v4To v6From v6To]; rewrite ?fmap_cons, <- ?app_assoc;
      cbn [app compose]; by rewrite ?E. }
  by rewrite Hgen.
Qed.

(** The ranges a normalized set is made of. *)
Definition increasing (out : list IPRange) : Prop := ∀ i j r s, i < j → out !! i = Some r → out !! j = Some s →
  (BitLen (To r) < BitLen (From s) ∨ (BitLen (To r) = BitLen (From s) ∧ addr_num (To r) < addr_num (From s)))%Z.

Lemma increasing_filter (P : IPRange → Prop) `{!∀ r, Decision (P r)} out : increasing out → increasing (filter P out).
Proof.
  induction out as [|x out IH]; intros Hinc; [done|].
  assert (Htail : increasing out) by (intros i j r s Hij Hi Hj; apply (Hinc (S i) (S j) r s); [lia|done|done]).
  rewrite filter_cons. case_decide; [|by apply IH]. intros [|i] [|j] r s Hij Hi Hj; try lia; simpl in *.
  - simplify_eq. assert (Hin : s ∈ filter P out) by by eapply list_elem_of_lookup_2.
    apply list_elem_of_filter in Hin as [_ Hin]. apply list_elem_of_lookup_1 in Hin as [k Hk].
    apply (Hinc 0 (S k)); [lia|done|done].
  - apply (IH Htail i j); [lia|done|done].
Qed.

Definition compact (set : IpCidrSet) (out : list IPRange) : Prop :=
  set = MkSet [] true (ipv4Uint32 ∘ From <$> four out) (ipv4Uint32 ∘ To <$> four out)
          (ipv6Addr ∘ From <$> six out) (ipv6Addr ∘ To <$> six out)
  ∧ Forall plain_range out ∧ increasing out.

Lemma fmap_pair {A B C} (f : A → B) (g : A → C) (l : list A) :
  f <$> l = ((λ x, (f x, g x)) <$> l).*1 ∧ g <$> l = ((λ x, (f x, g x)) <$> l).*2.
Proof. by rewrite <- !list_fmap_compose. Qed.

(** Membership in the set the ranges stand for, read off one family. *)
Lemma existsb_family {A} (f : A → Z) (conv : Addr → A) (fam : IPRange → Prop) `{!∀ r, Decision (fam r)} out ip z :
  (∀ r, r ∈ out → fam r → range_Contains r ip = (f (conv (From r)) <=? z)%Z && (z <=? f (conv (To r)))%Z) →
  (∀ r, r ∈ out → ¬ fam r → range_Contains r ip = false) →
  existsb (λ ab, (f ab.1 <=? z)%Z && (z <=? f ab.2)%Z) ((λ r, (conv (From r), conv (To r))) <$> filter fam out)
  = existsb (λ r, range_Contains r ip) out.
Proof.
  induction out as [|r out IH]; intros Hin Hout; [done|]. rewrite filter_cons. cbn [existsb]. case_decide as Hf.
  - rewrite fmap_cons. cbn [existsb fst snd]. rewrite (Hin r) by (try done; left). f_equal. apply IH; intros x Hx; [apply Hin|apply Hout]; by right.
  - rewrite (Hout r) by (try done; left). apply IH; intros x Hx; [apply Hin|apply Hout]; by right.
Qed.

Lemma Contains_bool r ip : plain_range r → addr_zone ip = [] →
  range_Contains r ip = (BitLen (From r) =? BitLen ip)%Z && (addr_num (From r) <=? addr_num ip)%Z && (addr_num ip <=? addr_num (To r))%Z.
Proof.
  intros Hr Hz. apply eq_true_iff_eq. rewrite Contains_range, !andb_true_iff, Z.eqb_eq, !Z.leb_le by done.
  unfold addr_le. destruct (plain_cases r Hr) as [(a & b & -> & -> & _)|(a & b & -> & -> & _)]; simpl; intuition lia.
Qed.

(** What a table of one family has to know of its elements. *)
Lemma table_contains {A} (gt le : A → A → bool) (f : A → Z) (conv : Addr → A) (fam : IPRange → Prop)
    `{!∀ r, Decision (fam r)} out ip :
  Forall plain_range out → increasing out → addr_zone ip = [] →
  (∀ r, r ∈ out → fam r → BitLen (From r) = BitLen ip ∧ BitLen (To r) = BitLen ip
     ∧ f (conv (From r)) = addr_num (From r) ∧ f (conv (To r)) = addr_num (To r)
     ∧ gt (conv (From r)) (conv ip) = (addr_num ip <? addr_num (From r))%Z
     ∧ le (conv ip) (conv (To r)) = (addr_num ip <=? addr_num (To r))%Z) →
  (∀ r, r ∈ out → ¬ fam r → BitLen (From r) ≠ BitLen ip) →
  contains_bounds gt le (conv ∘ From <$> filter fam out) (conv ∘ To <$> filter fam out) (conv ip)
  = Ok (existsb (λ r, range_Contains r ip) out).
Proof.
  intros Hall Hinc Hz Hin Hout. rewrite Forall_forall in Hall.
  destruct (fmap_pair (conv ∘ From) (conv ∘ To) (filter fam out)) as [-> ->].
  rewrite (contains_bounds_spec gt le f (addr_num ip)).
  - f_equal. apply existsb_family; intros r Hr Hf; rewrite Contains_bool by auto.
    + destruct (Hin r Hr Hf) as (E1 & E2 & -> & -> & _). by rewrite E1, Z.eqb_refl.
    + specialize (Hout r Hr Hf). by rewrite (proj2 (Z.eqb_neq _ _) Hout).
  - intros a b (r & [= -> ->] & Hr)%list_elem_of_fmap. apply list_elem_of_filter in Hr as [Hf Hr].
    destruct (Hin r Hr Hf) as (_ & _ & E1 & E2 & E3 & E4). cbn [compose]. rewrite E1, E2, E3, E4.
    split_and!; [done|done|]. destruct (plain_cases r (Hall r Hr)) as [(a & b & -> & -> & ? & _)|(a & b & -> & -> & ? & _)]; simpl; lia.
  - intros i j a b a' b' Hij Hi Hj. rewrite list_lookup_fmap in Hi, Hj.
    apply fmap_Some in Hi as (r & Hi & [= -> ->]). apply fmap_Some in Hj as (s & Hj & [= -> ->]).
    pose proof (increasing_filter fam out Hinc i j r s Hij Hi Hj) as Hlt.
    apply list_elem_of_lookup_2, list_elem_of_filter in Hi as [Hfr Hr].
    apply list_elem_of_lookup_2, list_elem_of_filter in Hj as [Hfs Hs].
    destruct (Hin r Hr Hfr) as (R1 & R2 & _ & E2 & _). destruct (Hin s Hs Hfs) as (S1 & S2 & E1 & _).
    cbn [compose]. rewrite E1, E2. lia.
Qed.

Lemma compact_IsContain set out ip : compact set out → wf_addr ip → IsValid ip = true → addr_zone ip = [] →
  IsContain ip set = Ok (existsb (λ r, range_Contains r ip) out).
Proof.
  intros (-> & Hall & Hinc) Hwf Hv Hz. unfold IsContain. rewrite Hv. cbn [negb]. pose proof Hall as Hall'.
  rewrite Forall_forall in Hall'.
  destruct ip as [|z|z zn]; [done| |]; cbn [without_zone merged Is4 Is6 v4From v4To v6From v6To]; simpl in Hwf, Hz; subst.
  - apply (table_contains Z.gtb Z.leb id ipv4Uint32); try done; intros r Hr Hf;
      destruct (plain_cases r (Hall' r Hr)) as [(a & b & E1 & E2 & Ha & Hb)|(a & b & E1 & E2 & Ha & Hb)]; rewrite E1, ?E2 in *; try done.
    cbn [BitLen addr_num]. rewrite !ipv4Uint32_num, Z.gtb_ltb by lia. done.
  - apply (table_contains greater lessOrEqual num6 ipv6Addr); try done; intros r Hr Hf;
      destruct (plain_cases r (Hall' r Hr)) as [(a & b & E1 & E2 & Ha & Hb)|(a & b & E1 & E2 & Ha & Hb)]; rewrite E1, ?E2 in *; try done.
    destruct (ipv6Addr_spec a [] ltac:(lia)) as (Na & La & _). destruct (ipv6Addr_spec b [] ltac:(lia)) as (Nb & Lb & _).
    destruct (ipv6Addr_spec z [] ltac:(lia)) as (Nz & Lz & _).
    rewrite greater_num, lessOrEqual_num, Na, Nb, Nz by done. done.
Qed.

(** The ranges a merged set stands for are rebuilt from its tables. *)
Lemma compact_rebuild set out : compact set out →
  appendCompactTo set [] = ((λ r, IPRangeFrom (From r) (To r)) <$> four out) ++ ((λ r, IPRangeFrom (From r) (To r)) <$> six out).
Proof.
  intros (-> & Hall & _). unfold appendCompactTo. cbn [v4From v4To v6From v6To app]. rewrite Forall_forall in Hall.
  assert (Hzip : ∀ (A : Type) (conv : Addr → A) (back : A → Addr) l,
    (∀ r, r ∈ l → back (conv (From r)) = From r ∧ back (conv (To r)) = To r) →
    zip_with (λ a b, IPRangeFrom (back a) (back b)) (conv ∘ From <$> l) (conv ∘ To <$> l)
    = (λ r, IPRangeFrom (From r) (To r)) <$> l).
  { intros A conv back l Hl. induction l as [|r l IH]; [done|]. rewrite !fmap_cons. cbn [zip_with compose].
    destruct (Hl r) as [-> ->]; [left|]. f_equal. apply IH. intros x Hx. apply Hl. by right. }
  f_equal; apply Hzip; intros r [Hf Hr]%list_elem_of_filter;
    destruct (plain_cases r (Hall r Hr)) as [(a & b & E1 & E2 & Ha & Hb)|(a & b & E1 & E2 & Ha & Hb)]; rewrite E1, ?E2 in *; try done.
  - by rewrite !ipv4Uint32_num, !ipv4FromUint32_num by lia.
  - split; apply ipv6Addr_spec; lia.
Qed.

Lemma rebuilt_plain r : plain_range r → plain_range (IPRangeFrom (From r) (To r)).
Proof.
  intros Hr. unfold plain_range. rewrite IsValid_range; rewrite ?From_IPRangeFrom, ?To_IPRangeFrom; [|apply Hr|apply Hr].
  destruct Hr as (Hv & H1 & H2 & H3 & H4). split; [|done]. by apply IsValid_range in Hv.
Qed.

Lemma rebuilt_contains r ip : plain_range r → addr_zone ip = [] →
  range_Contains (IPRangeFrom (From r) (To r)) ip = range_Contains r ip.
Proof.
  intros Hr Hz. rewrite !Contains_bool by (try done; by apply rebuilt_plain). by rewrite From_IPRangeFrom, To_IPRangeFrom.
Qed.

Lemma families_perm out : Forall plain_range out → four out ++ six out ≡ₚ out.
Proof.
  intros Hall. induction out as [|r out IH]; [done|]. apply Forall_cons in Hall as [Hr Hall]. unfold four, six in *. rewrite !filter_cons.
  destruct (plain_cases r Hr) as [(a & b & -> & _)|(a & b & -> & _)]; cbn [Is4 Is6];
    repeat ((rewrite decide_True by done) || (rewrite decide_False by done)).
  - simpl. by rewrite IH.
  - by rewrite <- Permutation_middle, IH.
Qed.

Lemma rebuild_same set out : compact set out →
  Forall plain_range (appendCompactTo set [])
  ∧ ∀ ip, addr_zone ip = [] → existsb (λ r, range_Contains r ip) (appendCompactTo set []) = existsb (λ r, range_Contains r ip) out.
Proof.
  intros Hc. rewrite (compact_rebuild set out Hc). destruct Hc as (_ & Hall & _).
  rewrite <- fmap_app. pose proof (families_perm out Hall) as Hperm.
  split.
  - apply Forall_fmap. rewrite Hperm. eapply Forall_impl; [exact Hall|]. intros r. apply rebuilt_plain.
  - intros ip Hz. rewrite <- (existsb_perm _ _ _ Hperm). assert (Hall' : Forall plain_range (four out ++ six out)) by by rewrite Hperm.
    clear Hperm Hall. induction (four out ++ six out) as [|r l IH]; [done|]. apply Forall_cons in Hall' as [Hr Hl].
    rewrite fmap_cons. cbn [existsb]. rewrite rebuilt_contains by done. f_equal. by apply IH.
Qed.
End tables.

(** ** Sequences of operations *)

Section runs.
#[local] Set Default Proof Using "All".
Context `{NetIPXLaws}.

Inductive set_op := OAdd (p : Prefix) | OMerge.

Definition apply_op (set : IpCidrSet) (o : set_op) : IpCidrSet :=
  match o with
  | OAdd p => match AddIpCidr p set with Ok set' => set' | _ => set end
  | OMerge => match Merge set with Ok set' => set' | _ => set end
  end.
Definition run (ops : list set_op) : IpCidrSet := foldl apply_op NewIpCidrSet ops.

Definition added (ops : list set_op) : list Prefix := omap (λ o, match o with OAdd p => Some p | OMerge => None end) ops.

(** The addresses of the set are those of the prefixes [ps]. *)
Definition denotes (rs : list IPRange) (ps : list Prefix) : Prop :=
  ∀ ip, wf_addr ip → addr_zone ip = [] →
    existsb (λ r, range_Contains r ip) rs = existsb (λ p, prefix_contains p ip) ps.

Definition set_ok (ps : list Prefix) (set : IpCidrSet) : Prop :=
  ∃ rs, Forall plain_range rs ∧ denotes rs ps ∧ if merged set then compact set rs else rr set = rs.

Lemma AddIpCidr_ok ps set p : set_ok ps set → wf_addr (p_addr p) → set_ok (ps ++ [p]) (apply_op set (OAdd p)).
Proof.
  intros (rs & Hrs & Hden & Hm) Hwf. cbn [apply_op]. unfold AddIpCidr. rewrite RangeOfPrefix_valid.
  destruct (prefix_valid p) eqn:Hp.
  2: { exists rs. split; [done|]. split; [|done]. intros ip Hip Hz. rewrite existsb_app_bool, <- Hden by done.
       cbn. unfold prefix_contains. by rewrite Hp, !orb_false_r. }
  assert (Hrr : ∃ rs', (if merged set then appendCompactTo set [] else rr set) = rs' ∧ Forall plain_range rs' ∧ denotes rs' ps).
  { destruct (merged set); [|subst; eauto]. destruct (rebuild_same set rs Hm) as [Hpl Hsame].
    eexists. split; [done|]. split; [done|]. intros ip Hip Hz. rewrite Hsame by done. by apply Hden. }
  destruct Hrr as (rs' & -> & Hpl & Hden'). exists (rs' ++ [RangeOfPrefix p]). split.
  - apply Forall_app. split; [done|]. constructor; [by apply RangeOfPrefix_plain|constructor].
  - split; [|done]. intros ip Hip Hz. rewrite !existsb_app_bool, Hden' by done. cbn.
    by rewrite RangeOfPrefix_contains.
Qed.

Lemma Merge_ok ps set : set_ok ps set → ∃ set', Merge set = Ok set' ∧ set_ok ps set' ∧ merged set' = true.
Proof.
  intros (rs & Hrs & Hden & Hm). unfold Merge. destruct (merged set) eqn:Em.
  { exists set. split; [done|]. split; [|done]. exists rs. by rewrite Em. }
  subst rs. assert (forallb range_IsValid (rr set) = true) as ->.
  { apply forallb_forall. intros r Hr%list_elem_of_In. rewrite Forall_forall in Hrs. by apply Hrs. }
  cbn [negb]. destruct (ipset_ok (rr set) Hrs) as (out & -> & Hout & Hinc & Hsame). cbn [mbind result_bind].
  eexists. split; [done|]. split; [|done]. exists out. split; [done|]. split.
  - intros ip Hip Hz. rewrite Hsame by done. by apply Hden.
  - unfold fromIPSet. rewrite buildLookup_tables by done. cbn. by split.
Qed.

Lemma run_ok ops : Forall (λ p, wf_addr (p_addr p)) (added ops) → set_ok (added ops) (run ops).
Proof.
  unfold run. induction ops as [|o ops IH] using rev_ind; intros Hwf; [by exists []|].
  unfold added in *. rewrite omap_app, Forall_app in *. destruct Hwf as [Hwf Ho]. rewrite foldl_snoc.
  specialize (IH Hwf). destruct o as [p|]; cbn [omap list_omap] in *.
  - apply AddIpCidr_ok; [done|]. by apply Forall_cons in Ho as [? _].
  - rewrite app_nil_r. cbn [apply_op]. destruct (Merge_ok _ _ IH) as (set' & -> & ? & _). done.
Qed.

Lemma set_ok_IsContain ps set ip : set_ok ps set → wf_addr ip →
  IsContain ip set = Ok (existsb (λ p, prefix_contains p (without_zone ip)) ps).
Proof.
  intros (rs & Hrs & Hden & Hm) Hwf. destruct (IsValid ip) eqn:Hv.
  - assert (Hz : addr_zone (without_zone ip) = []) by by destruct ip.
    assert (Hw : wf_addr (without_zone ip)) by by destruct ip.
    assert (Hvz : IsValid (without_zone ip) = true) by by destruct ip.
    rewrite <- Hden by done. transitivity (IsContain (without_zone ip) set).
    { unfold IsContain. rewrite Hv, Hvz. by destruct ip. }
    destruct (merged set) eqn:Em; [by apply compact_IsContain|]. unfold IsContain. rewrite Hvz, Em, Hm. by destruct ip.
  - unfold IsContain. rewrite Hv. cbn [negb]. destruct ip; try done. f_equal. symmetry.
    clear. induction ps as [|p ps IH]; [done|]. cbn [existsb]. rewrite IH, orb_false_r. unfold prefix_contains.
    change (IsValid (without_zone AddrZero)) with false. by rewrite !andb_false_r.
Qed.

Lemma set_ok_IsEmpty ps set ip : set_ok ps set → IsEmpty set = true → wf_addr ip →
  existsb (λ p, prefix_contains p (without_zone ip)) ps = false.
Proof.
  intros (rs & Hrs & Hden & Hm) He Hwf. assert (rs = []) as ->.
  { unfold IsEmpty in He. destruct (merged set).
    - destruct Hm as (-> & _ & _). cbn [v4From v6From] in He. rewrite !length_fmap in He.
      apply Nat.eqb_eq in He. destruct rs as [|r rs]; [done|]. exfalso. apply Forall_cons in Hrs as [Hr _].
      unfold four, six in He. rewrite !filter_cons in He.
      destruct (plain_cases r Hr) as [(a & b & E & _)|(a & b & E & _)]; rewrite E in He; cbn [Is4 Is6] in He; repeat case_decide; simpl in He; lia || done.
    - subst. apply Nat.eqb_eq in He. by destruct (rr set). }
  rewrite <- Hden; [done|by destruct ip|by destruct ip].
Qed.
End runs.

(** C27: The set answers membership exactly. After any sequence of additions of
    prefixes and merges, in any order, [IsContain] and [MatchIp] return (they
    do not panic) whether some added prefix contains the address without its
    zone, whatever mixture of list scan and binary search the history leads to,
    and [Merge] succeeds. *)
Theorem IpCidrSet_contains `{NetIPXLaws} (ops : list set_op) (ip : Addr) :
  Forall (λ p, wf_addr (p_addr p)) (added ops) → wf_addr ip →
  let expected := existsb (λ p, prefix_contains p (without_zone ip)) (added ops) in
  IsContain ip (run ops) = Ok expected ∧ MatchIp ip (run ops) = Ok expected
  ∧ ∃ set', Merge (run ops) = Ok set' ∧ IsContain ip set' = Ok expected.
Proof.
  intros Hwf Hip expected. pose proof (run_ok ops Hwf) as Hok.
  pose proof (set_ok_IsContain _ _ ip Hok Hip) as Hc. split; [done|]. split.
  - unfold MatchIp. destruct (IsEmpty (run ops)) eqn:He; [|done].
    unfold expected. by rewrite (set_ok_IsEmpty _ _ ip Hok He Hip).
  - destruct (Merge_ok _ _ Hok) as (set' & HM & Hok' & _). exists set'. split; [done|]. by apply set_ok_IsContain.
Qed.

(** ** A concrete range library

    Pairs of addresses, normalized by inserting interval after interval: it
    shows that the promises can be kept, and the witness computes with it. *)

Section intervals.
Definition interval := (Z * Z)%type.
Implicit Types (l : list interval).

Fixpoint add_interval (a b : Z) (l : list interval) : list interval :=
  match l with
  | [] => [(a, b)]
  | (c, d) :: l' =>
    if (b <? c)%Z then (a, b) :: l
    else if (d <? a)%Z then (c, d) :: add_interval a b l'
    else add_interval (Z.min a c) (Z.max b d) l'
  end.

Definition in_interval (z : Z) (x : interval) : bool := (x.1 <=? z)%Z && (z <=? x.2)%Z.
Definition before (x y : interval) : Prop := (x.2 < y.1)%Z.
Definition ordered l : Prop := StronglySorted before l ∧ Forall (λ x, (x.1 ≤ x.2)%Z) l.

Lemma add_interval_in a b l z : (a ≤ b)%Z → Forall (λ x, (x.1 ≤ x.2)%Z) l →
  existsb (in_interval z) (add_interval a b l) = in_interval z (a, b) || existsb (in_interval z) l.
Proof.
  revert a b. induction l as [|[c d] l IH]; intros a b Hab Hl; [done|]. apply Forall_cons in Hl as [Hcd Hl]. simpl in Hcd.
  cbn [add_interval]. destruct (Z.ltb_spec b c); [done|]. destruct (Z.ltb_spec d a); cbn [existsb].
  - rewrite IH by done. by rewrite !orb_assoc, (orb_comm (in_interval z (c, d))).
  - rewrite IH by (done || lia). rewrite orb_assoc. f_equal. unfold in_interval. simpl.
    apply eq_true_iff_eq. rewrite orb_true_iff, !andb_true_iff, !Z.leb_le. lia.
Qed.

Lemma add_interval_above lb a b l : (lb < a)%Z → Forall (λ x, (lb < x.1)%Z) l →
  Forall (λ x, (lb < x.1)%Z) (add_interval a b l).
Proof.
  revert a b. induction l as [|[c d] l IH]; intros a b Ha Hl; [by repeat constructor|]. cbn [add_interval].
  pose proof Hl as Hl'. apply Forall_cons in Hl' as [Hc Hl']. simpl in Hc.
  destruct (Z.ltb_spec b c); [by constructor|]. destruct (Z.ltb_spec d a); [constructor; [done|by apply IH]|].
  apply IH; [lia|done].
Qed.

Lemma add_interval_ordered a b l : (a ≤ b)%Z → ordered l → ordered (add_interval a b l).
Proof.
  revert a b. induction l as [|[c d] l IH]; intros a b Hab [Hs Hle]; [split; repeat constructor; done|].
  cbn [add_interval]. inversion Hs as [|? ? Hs' Hall]; subst. apply Forall_cons in Hle as [Hcd Hle]. simpl in Hcd.
  destruct (Z.ltb_spec b c) as [Hbc|Hbc].
  - split; [|by repeat constructor]. constructor; [done|]. constructor; [done|].
    eapply Forall_impl; [exact Hall|]. intros x. unfold before. simpl. lia.
  - destruct (Z.ltb_spec d a) as [Hda|Hda]; [|apply IH; [lia|by split]].
    destruct (IH a b Hab) as [H1 H2]; [by split|]. split; [|by constructor]. constructor; [done|].
    apply (add_interval_above d a b l); [lia|done].
Qed.

Definition normalize (l : list interval) : list interval := foldr (λ x acc, add_interval x.1 x.2 acc) [] l.

Lemma normalize_spec l : Forall (λ x, (x.1 ≤ x.2)%Z) l →
  ordered (normalize l) ∧ ∀ z, existsb (in_interval z) (normalize l) = existsb (in_interval z) l.
Proof.
  induction l as [|[a b] l IH]; intros Hl; [split; [split; constructor|done]|]. apply Forall_cons in Hl as [Hab Hl].
  destruct (IH Hl) as [Hord Hin]. cbn [normalize foldr fst snd]. split; [by apply add_interval_ordered|].
  intros z. rewrite add_interval_in by (done || apply Hord). cbn [existsb]. by rewrite <- Hin.
Qed.

Lemma normalize_bound u l : Forall (λ x, (0 ≤ x.1)%Z ∧ (x.2 < u)%Z) l → Forall (λ x, (0 ≤ x.1)%Z ∧ (x.2 < u)%Z) (normalize l).
Proof.
  assert (Hadd : ∀ l a b, (0 ≤ a)%Z → (b < u)%Z → Forall (λ x, (0 ≤ x.1)%Z ∧ (x.2 < u)%Z) l →
    Forall (λ x, (0 ≤ x.1)%Z ∧ (x.2 < u)%Z) (add_interval a b l)).
  { clear l. induction l as [|[c d] l IH]; intros a b Ha Hb Hl; [by repeat constructor|]. cbn [add_interval].
    pose proof Hl as Hl'. apply Forall_cons in Hl' as [[Hc Hd] Hl']. simpl in Hc, Hd.
    destruct (b <? c)%Z; [by repeat constructor|]. destruct (d <? a)%Z; [constructor; [done|by apply IH]|].
    apply IH; [lia|lia|done]. }
  induction l as [|[a b] l IH]; intros Hl; [constructor|]. apply Forall_cons in Hl as [[Ha Hb] Hl].
  cbn [normalize foldr]. apply Hadd; auto.
Qed.
End intervals.

Definition pair_range_valid (r : Addr * Addr) : bool :=
  IsValid r.1 && bool_decide (addr_zone r.1 = addr_zone r.2) && (BitLen r.1 =? BitLen r.2)%Z && (addr_num r.1 <=? addr_num r.2)%Z.
Definition pair_range_contains (r : Addr * Addr) (ip : Addr) : bool :=
  pair_range_valid r && (BitLen r.1 =? BitLen ip)%Z && in_interval (addr_num ip) (addr_num r.1, addr_num r.2).
Definition last_addr (p : Prefix) : Addr :=
  let k := (BitLen (p_addr p) - p_bits p)%Z in
  match p_addr (Masked p) with
  | AddrZero => AddrZero
  | Addr4 v => Addr4 (v + 2 ^ k - 1)
  | Addr6 v z => Addr6 (v + 2 ^ k - 1) z
  end.
Definition intervals_of (bits : Z) (rs : list (Addr * Addr)) : list interval :=
  (λ r, (addr_num r.1, addr_num r.2)) <$> filter (λ r, BitLen r.1 = bits) rs.
Definition pair_ipset (rs : list (Addr * Addr)) : list (Addr * Addr) :=
  ((λ x, (Addr4 x.1, Addr4 x.2)) <$> normalize (intervals_of 32 rs))
  ++ ((λ x, (Addr6 x.1 [], Addr6 x.2 [])) <$> normalize (intervals_of 128 rs)).

Definition pair_netipx : NetIPX := {|
  IPRange := Addr * Addr; IPRangeFrom := pair; From := fst; To := snd;
  range_IsValid := pair_range_valid; range_Contains := pair_range_contains; range_Prefixes := λ _, [];
  RangeOfPrefix := λ p, if prefix_valid p then (p_addr (Masked p), last_addr p) else (AddrZero, AddrZero);
  ipset := λ rs, Ok (pair_ipset rs)
|}.

Lemma mask_interval len bits v : (0 ≤ bits ≤ len)%Z → (0 ≤ v < 2 ^ len)%Z →
  let k := (len - bits)%Z in let m := mask_num len bits v in
  (0 ≤ m)%Z ∧ (m + 2 ^ k - 1 < 2 ^ len)%Z ∧ (m ≤ m + 2 ^ k - 1)%Z
  ∧ ∀ x, (Z.shiftr x k =? Z.shiftr v k)%Z = in_interval x (m, m + 2 ^ k - 1)%Z.
Proof.
  intros Hb Hv k m. unfold m, mask_num. fold k. assert (Hk : (0 ≤ k)%Z) by (unfold k; lia).
  rewrite Z.shiftl_mul_pow2, (Z.shiftr_div_pow2 v) by done. pose proof (Z.pow_pos_nonneg 2 k ltac:(lia) Hk) as Hp.
  assert (Hlen : (2 ^ len = 2 ^ bits * 2 ^ k)%Z) by (rewrite <- Z.pow_add_r by lia; f_equal; unfold k; lia).
  assert (Hq : (0 ≤ v / 2 ^ k < 2 ^ bits)%Z) by (split; [apply Z.div_pos; lia|apply Z.div_lt_upper_bound; lia]).
  split_and!; [nia|nia|lia|]. intros x. rewrite Z.shiftr_div_pow2 by done. unfold in_interval. simpl.
  apply eq_true_iff_eq. rewrite andb_true_iff, Z.eqb_eq, !Z.leb_le.
  pose proof (Z.div_mod x (2 ^ k) ltac:(lia)) as Hdm. pose proof (Z.mod_pos_bound x (2 ^ k) Hp). split; [intros <-; nia|].
  intros [H1 H2]. symmetry. apply Z.div_unique_pos with (r := (x - v / 2 ^ k * 2 ^ k)%Z); nia.
Qed.

Lemma pair_RangeOfPrefix p : prefix_valid p = true → wf_addr (p_addr p) →
  ∃ a b, wf_addr (p_addr (Masked p)) ∧ wf_addr (last_addr p) ∧ addr_zone (p_addr (Masked p)) = [] ∧ addr_zone (last_addr p) = []
    ∧ p_addr (Masked p) ≠ AddrZero ∧ BitLen (p_addr (Masked p)) = BitLen (p_addr p) ∧ BitLen (last_addr p) = BitLen (p_addr p)
    ∧ addr_num (p_addr (Masked p)) = a ∧ addr_num (last_addr p) = b ∧ (a ≤ b)%Z
    ∧ ∀ ip, addr_zone ip = [] → IsValid ip = true →
        prefix_contains p ip = (BitLen (p_addr p) =? BitLen ip)%Z && in_interval (addr_num ip) (a, b).
Proof.
  intros Hv Hw. pose proof Hv as Hv'. unfold prefix_valid in Hv'.
  assert (Hc : ∀ ip, addr_zone ip = [] → IsValid ip = true → prefix_contains p ip
    = (BitLen (p_addr p) =? BitLen ip)%Z && (Z.shiftr (addr_num ip) (BitLen ip - p_bits p) =? Z.shiftr (addr_num (p_addr p)) (BitLen ip - p_bits p))%Z).
  { intros ip Hz Hi. unfold prefix_contains. rewrite Hv, Hi, bool_decide_true by done. done. }
  unfold last_addr, Masked. rewrite Hv. destruct p as [[|v|v z] bits]; cbn -[Z.pow Z.shiftr mask_num Z.sub Z.eqb Z.leb] in *; [done| |]; zify_bool.
  - destruct (mask_interval 32 bits v) as (M1 & M2 & M3 & M4); [lia|done|]. eexists _, _.
    split_and!; try done; try lia. intros ip Hz Hi. rewrite Hc by done. destruct (Z.eqb_spec 32 (BitLen ip)) as [E|E]; cbn [andb]; [|done]. rewrite <- E. apply M4.
  - destruct (mask_interval 128 bits v) as (M1 & M2 & M3 & M4); [lia|done|]. eexists _, _.
    split_and!; try done; try lia. intros ip Hz Hi. rewrite Hc by done. destruct (Z.eqb_spec 128 (BitLen ip)) as [E|E]; cbn [andb]; [|done]. rewrite <- E. apply M4.
Qed.

Lemma pair_plain_cases (r : Addr * Addr) : plain_range (H := pair_netipx) r →
  (∃ a b, r = (Addr4 a, Addr4 b) ∧ (0 ≤ a ≤ b)%Z ∧ (b < 2 ^ 32)%Z) ∨
  (∃ a b, r = (Addr6 a [], Addr6 b []) ∧ (0 ≤ a ≤ b)%Z ∧ (b < 2 ^ 128)%Z).
Proof.
  destruct r as [f t]. intros (Hv & Hwf & Hwt & Hzf & Hzt). simpl in *. unfold pair_range_valid in Hv. simpl in Hv.
  zify_bool. destruct f as [|a|a zf], t as [|b|b zt]; simpl in *; try done; subst; [left|right]; exists a, b; split_and!; done || lia.
Qed.

Lemma plain_pair4 a b : (0 ≤ a ≤ b)%Z → (b < 2 ^ 32)%Z → plain_range (H := pair_netipx) (Addr4 a, Addr4 b).
Proof.
  intros Ha Hb. split; [|simpl; split_and!; done || lia]. change (pair_range_valid (Addr4 a, Addr4 b) = true).
  unfold pair_range_valid. cbn -[Z.leb]. apply Z.leb_le. lia.
Qed.

Lemma plain_pair6 a b : (0 ≤ a ≤ b)%Z → (b < 2 ^ 128)%Z → plain_range (H := pair_netipx) (Addr6 a [], Addr6 b []).
Proof.
  intros Ha Hb. split; [|simpl; split_and!; done || lia]. change (pair_range_valid (Addr6 a [], Addr6 b []) = true).
  unfold pair_range_valid. cbn -[Z.leb]. apply Z.leb_le. lia.
Qed.

Lemma intervals_of_spec bits u (rs : list (Addr * Addr)) : Forall (plain_range (H := pair_netipx)) rs →
  bits = 32%Z ∧ u = (2 ^ 32)%Z ∨ bits = 128%Z ∧ u = (2 ^ 128)%Z →
  Forall (λ x, (x.1 ≤ x.2)%Z) (intervals_of bits rs) ∧ Forall (λ x, (0 ≤ x.1)%Z ∧ (x.2 < u)%Z) (intervals_of bits rs).
Proof.
  intros Hrs Hb. unfold intervals_of. rewrite !Forall_fmap, <- Forall_and. apply Forall_forall.
  intros r [Hbit Hr]%list_elem_of_filter. rewrite Forall_forall in Hrs. specialize (Hrs r Hr).
  destruct (pair_plain_cases r Hrs) as [(a & b & -> & Ha & Hb')|(a & b & -> & Ha & Hb')]; simpl in *; lia.
Qed.

Lemma contains_interval (rs : list (Addr * Addr)) ip : Forall (plain_range (H := pair_netipx)) rs →
  existsb (λ r, pair_range_contains r ip) rs = existsb (in_interval (addr_num ip)) (intervals_of (BitLen ip) rs).
Proof.
  induction rs as [|r rs IH]; intros Hrs; [done|]. apply Forall_cons in Hrs as [Hr Hrs]. unfold intervals_of. rewrite filter_cons.
  cbn [existsb]. rewrite IH by done. unfold pair_range_contains. rewrite (proj1 Hr : pair_range_valid r = true).
  destruct (decide (BitLen r.1 = BitLen ip)) as [E|E].
  - rewrite E, Z.eqb_refl. done.
  - by rewrite (proj2 (Z.eqb_neq _ _) E).
Qed.

Lemma pair_ipset_plain rs : Forall (plain_range (H := pair_netipx)) rs → Forall (plain_range (H := pair_netipx)) (pair_ipset rs).
Proof.
  intros Hrs. unfold pair_ipset. apply Forall_app; split; apply Forall_fmap.
  - destruct (intervals_of_spec 32 (2 ^ 32) rs Hrs) as [H1 H2]; [auto|].
    destruct (normalize_spec _ H1) as [[_ Hle] _]. pose proof (normalize_bound _ _ H2) as Hb.
    pose proof (conj Hle Hb) as Hboth. rewrite <- Forall_and in Hboth. eapply Forall_impl; [exact Hboth|]. intros [a b] [? [? ?]]. simpl in *. apply plain_pair4; lia.
  - destruct (intervals_of_spec 128 (2 ^ 128) rs Hrs) as [H1 H2]; [auto|].
    destruct (normalize_spec _ H1) as [[_ Hle] _]. pose proof (normalize_bound _ _ H2) as Hb.
    pose proof (conj Hle Hb) as Hboth. rewrite <- Forall_and in Hboth. eapply Forall_impl; [exact Hboth|]. intros [a b] [? [? ?]]. simpl in *. apply plain_pair6; lia.
Qed.

Definition range_before (r s : Addr * Addr) : Prop :=
  (BitLen r.2 < BitLen s.1 ∨ (BitLen r.2 = BitLen s.1 ∧ addr_num r.2 < addr_num s.1))%Z.

Lemma sorted_fmap {A B} (R : A → A → Prop) (R' : B → B → Prop) (f : A → B) (l : list A) :
  (∀ x y, R x y → R' (f x) (f y)) → StronglySorted R l → StronglySorted R' (f <$> l).
Proof.
  intros Hf. induction 1 as [|x l Hs IH Hall]; [constructor|]. rewrite fmap_cons. constructor; [done|].
  apply Forall_fmap. eapply Forall_impl; [exact Hall|]. intros y. apply Hf.
Qed.

Lemma pair_ipset_sorted rs : Forall (plain_range (H := pair_netipx)) rs → StronglySorted range_before (pair_ipset rs).
Proof.
  intros Hrs. unfold pair_ipset.
  destruct (intervals_of_spec 32 (2 ^ 32) rs Hrs) as [H1 _]; [auto|]. destruct (normalize_spec _ H1) as [[S1 _] _].
  destruct (intervals_of_spec 128 (2 ^ 128) rs Hrs) as [H2 _]; [auto|]. destruct (normalize_spec _ H2) as [[S2 _] _].
  apply StronglySorted_app. split_and!.
  - intros x y (x' & -> & _)%list_elem_of_fmap (y' & -> & _)%list_elem_of_fmap. left. simpl. lia.
  - eapply sorted_fmap; [|exact S1]. intros x y Hxy. right. simpl. split; [done|apply Hxy].
  - eapply sorted_fmap; [|exact S2]. intros x y Hxy. right. simpl. split; [done|apply Hxy].
Qed.

Lemma intervals_of_ipset bits rs : bits = 32%Z ∨ bits = 128%Z → intervals_of bits (pair_ipset rs) = normalize (intervals_of bits rs).
Proof.
  intros Hb. unfold intervals_of at 1, pair_ipset. rewrite filter_app, fmap_app.
  assert (Hall : ∀ (P : Addr * Addr → Prop) `{!∀ r, Decision (P r)} (f : interval → Addr * Addr) (l : list interval), (∀ x, P (f x)) → filter P (f <$> l) = f <$> l).
  { intros P ? f l HP. induction l as [|x l IH]; [done|]. rewrite fmap_cons, filter_cons_True by done. by rewrite IH. }
  assert (Hnone : ∀ (P : Addr * Addr → Prop) `{!∀ r, Decision (P r)} (f : interval → Addr * Addr) (l : list interval), (∀ x, ¬ P (f x)) → filter P (f <$> l) = []).
  { intros P ? f l HP. induction l as [|x l IH]; [done|]. rewrite fmap_cons, filter_cons_False by done. by rewrite IH. }
  destruct Hb as [->| ->].
  - rewrite Hall, Hnone by (intros x; simpl; done || lia). rewrite app_nil_r, <- list_fmap_compose.
    rewrite (list_fmap_ext _ id); [by rewrite list_fmap_id|]. by intros i [].
  - rewrite Hnone, Hall by (intros x; simpl; done || lia). simpl. rewrite <- list_fmap_compose.
    rewrite (list_fmap_ext _ id); [by rewrite list_fmap_id|]. by intros i [].
Qed.

Lemma intervals_of_zero rs : Forall (plain_range (H := pair_netipx)) rs → intervals_of 0 rs = [].
Proof.
  unfold intervals_of. induction 1 as [|r rs Hr _ IH]; [done|]. rewrite filter_cons_False; [done|].
  destruct (pair_plain_cases r Hr) as [(a & b & -> & _)|(a & b & -> & _)]; simpl; lia.
Qed.

#[export] Instance pair_netipx_laws : NetIPXLaws (H := pair_netipx).
Proof.
  split; try done.
  - intros [f t] Hf Ht. simpl in *. unfold pair_range_valid. simpl. rewrite Hf, Ht, bool_decide_true by done.
    rewrite !andb_true_iff, IsValid_true, Z.eqb_eq, Z.leb_le. unfold addr_le. naive_solver.
  - intros r ip Hr Hz. simpl. unfold pair_range_contains. rewrite (proj1 Hr : pair_range_valid r = true).
    unfold in_interval. rewrite !andb_true_iff, Z.eqb_eq, !Z.leb_le. unfold addr_le.
    destruct (pair_plain_cases r Hr) as [(a & b & -> & _)|(a & b & -> & _)]; simpl; intuition lia.
  - intros p. simpl. destruct (prefix_valid p) eqn:Hp; [|done]. unfold last_addr, Masked. rewrite Hp.
    pose proof Hp as Hp'. unfold prefix_valid in Hp'. unfold pair_range_valid.
    destruct p as [[|v|v z] bits]; cbn -[Z.pow mask_num Z.sub Z.leb Z.eqb] in *; [done| |]; zify_bool;
      rewrite Z.eqb_refl; simpl; apply Z.leb_le.
    + pose proof (Z.pow_pos_nonneg 2 (32 - bits)). lia.
    + pose proof (Z.pow_pos_nonneg 2 (128 - bits)). lia.
  - intros p Hp Hw. destruct (pair_RangeOfPrefix p Hp Hw) as (a & b & H1 & H2 & H3 & H4 & H5 & H6 & H7 & H8 & H9 & Hab & _).
    unfold plain_range. simpl. rewrite Hp. split; [|done]. unfold pair_range_valid. simpl.
    rewrite H3, H4, H6, H7, H8, H9, Z.eqb_refl, bool_decide_true by done. rewrite (proj2 (IsValid_true _)) by done.
    simpl. apply Z.leb_le. lia.
  - intros p ip Hp Hw Hwi Hz. simpl. rewrite Hp.
    destruct (pair_RangeOfPrefix p Hp Hw) as (a & b & H1 & H2 & H3 & H4 & H5 & H6 & H7 & H8 & H9 & Hab & Hc).
    unfold pair_range_contains, pair_range_valid. simpl.
    rewrite H3, H4, H6, H7, H8, H9, Z.eqb_refl, bool_decide_true by done. rewrite (proj2 (IsValid_true _)) by done.
    rewrite (proj2 (Z.leb_le a b) Hab). simpl. destruct (IsValid ip) eqn:Hi; [by rewrite Hc|].
    destruct ip; try done. unfold prefix_contains. rewrite Hi, andb_false_r. simpl.
    unfold prefix_valid in Hp. by destruct (p_addr p).
  - intros rs Hrs. exists (pair_ipset rs). split; [done|]. split; [by apply pair_ipset_plain|]. split.
    + intros i j r s Hij Hi Hj. by eapply (StronglySorted_lookup range_before (pair_ipset rs) i j r s (pair_ipset_sorted rs Hrs)).
    + intros ip Hz. simpl. rewrite !contains_interval by (done || by apply pair_ipset_plain).
      destruct ip as [|v|v z]; cbn [BitLen].
      * rewrite !intervals_of_zero by (done || by apply pair_ipset_plain). done.
      * rewrite intervals_of_ipset by auto. apply normalize_spec, (intervals_of_spec 32 (2 ^ 32)); auto.
      * rewrite intervals_of_ipset by auto. apply normalize_spec, (intervals_of_spec 128 (2 ^ 128)); auto.
Qed.

(** Two overlapping prefixes and one of the other family, merged, then one more
    added. *)
Definition sample_ops : list set_op :=
  [OAdd (MkPrefix (Addr4 (10 * 2 ^ 24)) 8); OAdd (MkPrefix (Addr4 (10 * 2 ^ 24 + 65536)) 16);
   OAdd (MkPrefix (Addr6 (1 * 2 ^ 112) []) 16); OMerge; OAdd (MkPrefix (Addr4 (192 * 2 ^ 24)) 24)].

Lemma IpCidrSet_contains_witness :
  IsContain (Addr4 (10 * 2 ^ 24 + 70000)) (run (H := pair_netipx) sample_ops) = Ok true
  ∧ MatchIp (Addr4 (10 * 2 ^ 24 + 70000)) (run (H := pair_netipx) sample_ops) = Ok true
  ∧ ∃ set', Merge (run (H := pair_netipx) sample_ops) = Ok set' ∧ IsContain (Addr4 (10 * 2 ^ 24 + 70000)) set' = Ok true.
Proof.
  apply (IpCidrSet_contains (H := pair_netipx) sample_ops (Addr4 (10 * 2 ^ 24 + 70000))).
  - repeat constructor; vm_compute; done.
  - vm_compute. done.
Defined.
