(* ===== verification/CidrSetBin.v ===== *)
(** * CidrSetBin: the binary form of an address set

    [src/component/cidr/ipcidr_set_bin.go]: [WriteBin] writes the ranges of a set
    (CidrSet) as pairs of 16-byte addresses, IPv4 addresses in their mapped form,
    and [ReadIpCidrSet] reads ranges back and merges them. The writer is the
    bytes it writes; write errors are left out. *)
From S2P Require Import Prelude Bytes NetIP CidrSet.

Section binary.
Context `{NetIPX}.

(** A row of the merged tables; the bytes not written are zero. *)
Definition row4 (from to : Z) : str :=
  replicate 10 (byte_of 0) ++ be_put 2 65535 ++ be_put 4 from ++ replicate 10 (byte_of 0) ++ be_put 2 65535 ++ be_put 4 to.
Definition row6 (from to : v6addr) : str := be_put 8 (hi from) ++ be_put 8 (lo from) ++ be_put 8 (hi to) ++ be_put 8 (lo to).
(** A row of the list of ranges. *)
Definition range_row (r : IPRange) : str := As16 (From r) ++ As16 (To r).

Definition WriteBin (ss : IpCidrSet) : str :=
  [byte_of 1] ++ be_put 8 (Z.of_nat (rangeCount ss))
  ++ (if merged ss then concat (zip_with row4 (v4From ss) (v4To ss)) ++ concat (zip_with row6 (v6From ss) (v6To ss))
      else concat (range_row <$> rr ss)).

Definition maxBinaryIPRanges : Z := 2 ^ 20.

Definition read_row (row : str) : result IPRange :=
  let rangeValue := IPRangeFrom (Unmap (AddrFrom16 (slice row 0 16))) (Unmap (AddrFrom16 (slice row 16 32))) in
  if range_IsValid rangeValue then Ok rangeValue else Err "IP range is invalid".
Fixpoint read_rows (n : nat) (buf : str) : result (list IPRange) :=
  match n with
  | 0 => Ok []
  | S n => r ← read_row (take 32 buf); rs ← read_rows n (drop 32 buf); Ok (r :: rs)
  end.

Definition ReadIpCidrSet (r : str) : result IpCidrSet :=
  '(version, r) ← read_full 1 r;
  if decide (version ≠ [byte_of 1]) then Err "version is invalid"
  else
    '(hdr, r) ← read_full 8 r;
    let length := wrap int64 (be_get hdr) in
    if (length <? 1)%Z then Err "length is invalid"
    else if (length >? maxBinaryIPRanges)%Z then Err "IP range count exceeds maximum"
    else
      '(buf, _) ← read_full (Z.to_nat length * 32) r;
      rs ← read_rows (Z.to_nat length) buf;
      match Merge (MkSet rs false [] [] [] []) with
      | Err _ => Err "normalize IP ranges"
      | o => o
      end.
End binary.

(** ** Rows *)

Lemma be_put_app n m a b : (0 ≤ a)%Z → (0 ≤ b < 2 ^ (8 * Z.of_nat m))%Z → (a < 2 ^ (8 * Z.of_nat n))%Z →
  be_put n a ++ be_put m b = be_put (n + m) (a * 2 ^ (8 * Z.of_nat m) + b).
Proof.
  intros Ha Hb Han. apply be_get_inj; [by rewrite length_app, !length_be_put|]. rewrite be_get_app, length_be_put, !be_get_put_small; try lia.
  replace (8 * Z.of_nat (n + m))%Z with (8 * Z.of_nat n + 8 * Z.of_nat m)%Z by lia. rewrite Z.pow_add_r by lia. nia.
Qed.

Lemma mapped_num v : (0 ≤ v < 2 ^ 32)%Z → Z.lor (Z.shiftl 65535 32) v = (65535 * 2 ^ 32 + v)%Z.
Proof.
  intros Hv. rewrite Z.shiftl_mul_pow2 by lia. assert (Z.land (65535 * 2 ^ 32) v = 0)%Z as Hl.
  { apply Z.bits_inj'. intros i Hi. rewrite Z.land_spec, Z.bits_0. destruct (Z.ltb_spec i 32).
    - by rewrite Z.mul_pow2_bits_low by lia.
    - rewrite <- (Z.mod_small v (2 ^ 32)) by lia. rewrite (Z.mod_pow2_bits_high v 32 i) by lia. apply andb_false_r. }
  pose proof (Z.add_lor_land (65535 * 2 ^ 32) v). lia.
Qed.

Lemma As16_4 v : (0 ≤ v < 2 ^ 32)%Z → replicate 10 (byte_of 0) ++ be_put 2 65535 ++ be_put 4 v = As16 (Addr4 v).
Proof.
  intros Hv. change (replicate 10 (byte_of 0)) with (be_put 10 0). cbn [As16]. rewrite mapped_num by done.
  rewrite be_put_app by lia. by rewrite be_put_app by lia.
Qed.

Lemma As16_6 v z : (0 ≤ v < 2 ^ 128)%Z → be_put 8 (hi (ipv6Addr (Addr6 v z))) ++ be_put 8 (lo (ipv6Addr (Addr6 v z))) = As16 (Addr6 v z).
Proof.
  intros Hv. unfold ipv6Addr. cbn [hi lo]. set (b := As16 (Addr6 v z)). assert (length b = 16) as Hlen by apply length_be_put.
  rewrite !be_put_get_n by (rewrite length_slice; lia). unfold slice. cbn [Nat.sub].
  rewrite drop_0, (take_ge (drop 8 b)) by (rewrite length_drop; lia). apply take_drop.
Qed.
Lemma length_As16 a : length (As16 a) = 16.
Proof. destruct a; apply length_be_put. Qed.

(** An address that is not the mapped form of an IPv4 address is read back. *)
Lemma Unmap_As16 a : wf_addr a → addr_zone a = [] → a ≠ AddrZero → Is4In6 a = false → Unmap (AddrFrom16 (As16 a)) = a.
Proof.
  intros Hwf Hz Hne Hm. destruct a as [|v|v z]; [done| |]; cbn in Hwf, Hz; subst.
  - unfold AddrFrom16. cbn [As16]. rewrite mapped_num by done. rewrite be_get_put_small by lia.
    assert (Z.shiftr (65535 * 2 ^ 32 + v) 32 = 65535)%Z as Hs
      by (rewrite Z.shiftr_div_pow2, Z.div_add_l, (Z.div_small v) by lia; lia).
    unfold Unmap, Is4In6. rewrite Hs. cbn [addr_num Z.eqb Pos.eqb]. f_equal.
    rewrite Z.add_comm, Z.mod_add, Z.mod_small by lia. done.
  - rewrite AddrFrom16_As16 by done. unfold Unmap. by rewrite Hm.
Qed.

Section rows.
#[local] Set Default Proof Using "All".
Context `{NetIPXLaws}.

(** The range does not begin or end at the mapped form of an IPv4 address. *)
Definition unmapped (r : IPRange) : Prop := Is4In6 (From r) = false ∧ Is4In6 (To r) = false.
Definition same_range (r : IPRange) : IPRange := IPRangeFrom (From r) (To r).

Lemma read_range_row r : plain_range r → unmapped r → read_row (range_row r) = Ok (same_range r).
Proof.
  intros Hr [Hf Ht]. unfold read_row, range_row, slice. cbn [Nat.sub]. pose proof (length_As16 (From r)) as L1. pose proof (length_As16 (To r)) as L2.
  rewrite drop_0, take_app_length', drop_app_length', (take_ge (As16 (To r))) by lia.
  destruct Hr as (Hv & Hwf & Hwt & Hzf & Hzt). pose proof Hv as Hv'. apply IsValid_range in Hv' as [Hne [Hbit _]]; [|done|done].
  rewrite !Unmap_As16 by (try done; intros E; rewrite E in Hbit; by destruct (From r)).
  assert (range_IsValid (same_range r) = true) as Hs; [|unfold same_range in *; by rewrite Hs].
  apply rebuilt_plain. by split_and!.
Qed.

Lemma read_range_rows rs rest : Forall plain_range rs → Forall unmapped rs →
  read_rows (length rs) (concat (range_row <$> rs) ++ rest) = Ok (same_range <$> rs).
Proof.
  induction rs as [|r rs IH]; intros Hp Hu; [done|]. apply Forall_cons in Hp as [Hr Hp], Hu as [Hur Hu]. cbn [length read_rows fmap list_fmap concat].
  assert (length (range_row r) = 32) as Hlen by (unfold range_row; by rewrite length_app, !length_As16).
  rewrite <- app_assoc, take_app_length', drop_app_length' by done. rewrite read_range_row by done. cbn [mbind result_bind]. by rewrite IH.
Qed.

Lemma length_rows rs : length (concat (range_row <$> rs)) = length rs * 32.
Proof.
  induction rs as [|r rs IH]; [done|]. cbn [fmap list_fmap concat length]. rewrite length_app, IH. unfold range_row. rewrite length_app, !length_As16. lia.
Qed.

(** The ranges in the order of the rows. *)
Definition written (ss : IpCidrSet) (rs : list IPRange) : list IPRange := if merged ss then four rs ++ six rs else rs.

Lemma concat_zip {A} (row : A → A → str) (f g : IPRange → A) l : (∀ r, r ∈ l → row (f r) (g r) = range_row r) →
  concat (zip_with row (f <$> l) (g <$> l)) = concat (range_row <$> l).
Proof.
  induction l as [|r l IH]; intros Hrow; [done|]. rewrite !fmap_cons. cbn [zip_with concat]. rewrite Hrow by left.
  f_equal. apply IH. intros x Hx. apply Hrow. by right.
Qed.

Lemma WriteBin_rows ss rs : Forall plain_range rs → (if merged ss then compact ss rs else rr ss = rs) →
  WriteBin ss = [byte_of 1] ++ be_put 8 (Z.of_nat (length (written ss rs))) ++ concat (range_row <$> written ss rs)
  ∧ length (written ss rs) = rangeCount ss.
Proof.
  intros Hrs Hs. unfold WriteBin, written, rangeCount. destruct (merged ss); [|by subst]. destruct Hs as (-> & _). cbn [v4From v4To v6From v6To].
  rewrite length_app, !length_fmap, fmap_app, concat_app. split; [|done].
  rewrite (concat_zip row4 (ipv4Uint32 ∘ From) (ipv4Uint32 ∘ To) (four rs)), (concat_zip row6 (ipv6Addr ∘ From) (ipv6Addr ∘ To) (six rs)); [done|..].
  - intros r [Hf Hr]%list_elem_of_filter. rewrite Forall_forall in Hrs.
    destruct (plain_cases r (Hrs r Hr)) as [(a & b & E1 & _)|(a & b & E1 & E2 & Ha & Hb)]; [by rewrite E1 in Hf|].
    unfold row6, range_row, compose. rewrite E1, E2, <- !As16_6 by lia. by rewrite <- !app_assoc.
  - intros r [Hf Hr]%list_elem_of_filter. rewrite Forall_forall in Hrs.
    destruct (plain_cases r (Hrs r Hr)) as [(a & b & E1 & E2 & Ha & Hb)|(a & b & E1 & _)]; [|by rewrite E1 in Hf].
    unfold row4, range_row, compose. rewrite E1, E2, !ipv4Uint32_num by lia. rewrite <- !As16_4 by lia. by rewrite <- !app_assoc.
Qed.
End rows.

(** ** Reading back *)

Section roundtrip.
#[local] Set Default Proof Using "All".
Context `{NetIPXLaws}.

Lemma read_set rs rest : Forall plain_range rs → Forall unmapped rs → (0 < Z.of_nat (length rs) ≤ maxBinaryIPRanges)%Z →
  ReadIpCidrSet ([byte_of 1] ++ be_put 8 (Z.of_nat (length rs)) ++ concat (range_row <$> rs) ++ rest)
  = match Merge (MkSet (same_range <$> rs) false [] [] [] []) with Err _ => Err "normalize IP ranges" | o => o end.
Proof.
  intros Hp Hu Hn. unfold maxBinaryIPRanges in *. unfold ReadIpCidrSet. rewrite read_full_app by done. cbn [mbind result_bind].
  rewrite decide_False by (intros E; by apply E). rewrite read_full_app by apply length_be_put. cbn [mbind result_bind].
  rewrite be_get_put_small by lia. rewrite wrap_id by (done || (unfold in_int, int_min, int_max; cbn; lia)).
  rewrite (proj2 (Z.ltb_ge _ _)) by lia. unfold maxBinaryIPRanges. rewrite Z.gtb_ltb, (proj2 (Z.ltb_ge _ _)) by lia.
  rewrite Nat2Z.id, read_full_app by apply length_rows. cbn [mbind result_bind].
  rewrite <- (app_nil_r (concat _)), read_range_rows by done. done.
Qed.

(** The rows of a set denote what the set does. *)
Lemma written_same ss rs : Forall plain_range rs →
  Forall plain_range (same_range <$> written ss rs)
  ∧ ∀ ip, addr_zone ip = [] → existsb (λ r, range_Contains r ip) (same_range <$> written ss rs) = existsb (λ r, range_Contains r ip) rs.
Proof.
  intros Hrs. assert (written ss rs ≡ₚ rs) as Hperm by (unfold written; destruct (merged ss); [by apply families_perm|done]).
  split; [apply Forall_fmap; rewrite Hperm; eapply Forall_impl; [exact Hrs|]; intros r; apply rebuilt_plain|].
  intros ip Hz. rewrite <- (existsb_perm _ _ _ Hperm). rewrite <- Hperm in Hrs. clear Hperm.
  induction (written ss rs) as [|r l IH]; [done|]. apply Forall_cons in Hrs as [Hr Hl]. rewrite fmap_cons. cbn [existsb].
  unfold same_range at 1. rewrite rebuilt_contains by done. f_equal. by apply IH.
Qed.

Lemma set_ok_rows ps ss rs : Forall plain_range rs → denotes rs ps → set_ok ps (MkSet (same_range <$> written ss rs) false [] [] [] []).
Proof.
  intros Hrs Hden. destruct (written_same ss rs Hrs) as [Hpl Hsame]. exists (same_range <$> written ss rs). split; [done|]. split; [|done].
  intros ip Hip Hz. rewrite Hsame by done. by apply Hden.
Qed.
End roundtrip.

(** C28: the binary form of an address set. After any additions of prefixes and
    merges, a set of one up to [2^20] ranges none of which begins or ends at the
    mapped form of an IPv4 address is written by [WriteBin] and read back by
    [ReadIpCidrSet] as a merged set that contains the same addresses, whatever
    follows in the file. *)
Theorem IpCidrSet_roundtrip `{NetIPXLaws} (ops : list set_op) (rest : str) :
  let ss := run ops in
  Forall (λ p, wf_addr (p_addr p)) (added ops) → (0 < Z.of_nat (rangeCount ss) ≤ maxBinaryIPRanges)%Z →
  Forall unmapped (ranges_of ss) →
  ∃ ss', ReadIpCidrSet (WriteBin ss ++ rest) = Ok ss' ∧ merged ss' = true
  ∧ ∀ ip, wf_addr ip → IsContain ip ss' = IsContain ip ss.
Proof.
  intros ss Hwf Hn Hu. pose proof (run_ok ops Hwf) as Hok. fold ss in Hok. pose proof Hok as (rs & Hrs & Hden & Hm).
  destruct (WriteBin_rows ss rs Hrs Hm) as [Hw Hlen].
  assert (Forall plain_range (written ss rs)) as Hp by (unfold written; destruct (merged ss); [by rewrite families_perm|done]).
  assert (Forall unmapped (written ss rs)) as Hu'.
  { unfold ranges_of, written in *. destruct (merged ss); [|by subst]. rewrite (compact_rebuild ss rs Hm), <- fmap_app, Forall_fmap in Hu.
    eapply Forall_impl; [exact Hu|]. intros r. unfold unmapped, compose. by rewrite From_IPRangeFrom, To_IPRangeFrom. }
  rewrite Hw, <- !app_assoc, read_set by (done || by rewrite Hlen).
  destruct (Merge_ok (added ops) _ (set_ok_rows _ ss rs Hrs Hden)) as (ss' & -> & Hok' & Hm'). exists ss'. split; [done|]. split; [done|].
  intros ip Hip. by rewrite !(set_ok_IsContain (added ops)).
Qed.

(** ** Any bytes *)

Section any_bytes.
#[local] Set Default Proof Using "All".
Context `{NetIPXLaws}.

Lemma Unmap_plain s : length s ≤ 16 → wf_addr (Unmap (AddrFrom16 s)) ∧ addr_zone (Unmap (AddrFrom16 s)) = [].
Proof.
  intros Hs. pose proof (be_get_range s) as Hr. assert (2 ^ (8 * Z.of_nat (length s)) ≤ 2 ^ 128)%Z by (apply Z.pow_le_mono_r; lia).
  unfold Unmap, AddrFrom16. destruct (Is4In6 _); [|split; [cbn [wf_addr]; lia|reflexivity]]. split; [|reflexivity]. cbn [wf_addr addr_num].
  apply Z.mod_pos_bound. lia.
Qed.

Lemma read_rows_plain n : ∀ buf, match read_rows n buf with Ok rs => Forall plain_range rs | Err _ => True | Panic => False end.
Proof.
  induction n as [|n IH]; intros buf; [constructor|]. cbn [read_rows]. unfold read_row at 1.
  destruct (Unmap_plain (slice (take 32 buf) 0 16)) as [W1 Z1]; [unfold slice; rewrite length_take; lia|].
  destruct (Unmap_plain (slice (take 32 buf) 16 32)) as [W2 Z2]; [unfold slice; rewrite length_take; lia|].
  set (r := IPRangeFrom _ _). destruct (range_IsValid r) eqn:Hv; [|done]. cbn [mbind result_bind].
  specialize (IH (drop 32 buf)). destruct (read_rows n (drop 32 buf)) as [rs| |]; [|done|done]. cbn.
  constructor; [|done]. unfold plain_range. rewrite Hv. unfold r. rewrite From_IPRangeFrom, To_IPRangeFrom. exact (conj eq_refl (conj W1 (conj W2 (conj Z1 Z2)))).
Qed.

(** Whatever the bytes are, reading them returns a set or an error, and looking an
    address up in the set returns. *)
Lemma ReadIpCidrSet_safe (r : str) :
  match ReadIpCidrSet r with Ok ss => ∀ ip, wf_addr ip → ∃ b, IsContain ip ss = Ok b | Err _ => True | Panic => False end.
Proof.
  unfold ReadIpCidrSet. pose proof (read_full_returns 1 r). destruct (read_full 1 r) as [[version r1]| |]; [|done|done]. cbn [mbind result_bind].
  case_decide; [done|]. pose proof (read_full_returns 8 r1). destruct (read_full 8 r1) as [[hdr r2]| |]; [|done|done]. cbn [mbind result_bind].
  set (n := wrap int64 (be_get hdr)). destruct (n <? 1)%Z; [done|]. destruct (n >? maxBinaryIPRanges)%Z; [done|].
  pose proof (read_full_returns (Z.to_nat n * 32) r2). destruct (read_full (Z.to_nat n * 32) r2) as [[buf r3]| |]; [|done|done]. cbn [mbind result_bind].
  pose proof (read_rows_plain (Z.to_nat n) buf) as Hrs. destruct (read_rows (Z.to_nat n) buf) as [rs| |]; [|done|done]. cbn [mbind result_bind].
  unfold Merge. cbn [merged rr]. assert (forallb range_IsValid rs = true) as ->.
  { apply forallb_forall. intros x Hx%list_elem_of_In. rewrite Forall_forall in Hrs. by apply Hrs. }
  cbn [negb]. destruct (ipset_ok rs Hrs) as (out & -> & Hout & Hinc & _). cbn [mbind result_bind]. intros ip Hip.
  unfold fromIPSet. rewrite buildLookup_tables by done. cbn [v4From v4To v6From v6To].
  match goal with |- ∃ _, IsContain _ ?s = _ => set (ss := s); assert (compact ss out) as Hc by (by split) end.
  destruct (IsValid ip) eqn:Hv; [|exists false; unfold IsContain; by rewrite Hv].
  exists (existsb (λ r, range_Contains r (without_zone ip)) out). rewrite <- (compact_IsContain ss out (without_zone ip) Hc) by (by destruct ip).
  unfold IsContain. rewrite Hv. by destruct ip.
Qed.
End any_bytes.

(** ** Instances *)

Lemma IpCidrSet_roundtrip_witness :
  let ss := run (H := pair_netipx) sample_ops in
  ∃ ss', ReadIpCidrSet (H := pair_netipx) (WriteBin ss ++ []) = Ok ss' ∧ merged ss' = true
  ∧ IsContain (Addr4 (10 * 2 ^ 24 + 70000)) ss' = IsContain (Addr4 (10 * 2 ^ 24 + 70000)) ss.
Proof.
  intros ss. destruct (IpCidrSet_roundtrip (H := pair_netipx) sample_ops []) as (ss' & Hr & Hm & Hc).
  - repeat constructor; vm_compute; done.
  - vm_compute. split; [reflexivity|discriminate].
  - vm_compute. repeat constructor.
  - exists ss'. split; [exact Hr|]. split; [exact Hm|]. apply Hc. vm_compute. split; [discriminate|reflexivity].
Defined.

(** The mapped addresses [::ffff:0:0/96] are written as they are and read back as
    all of IPv4. *)
Example mapped_prefix_becomes_ipv4 :
  let ss := run (H := pair_netipx) [OAdd (MkPrefix (Addr6 (65535 * 2 ^ 32) []) 96); OMerge] in
  IsContain (Addr4 1) ss = Ok false
  ∧ match ReadIpCidrSet (H := pair_netipx) (WriteBin ss) with Ok ss' => IsContain (Addr4 1) ss' = Ok true | _ => False end.
Proof. vm_compute. split; reflexivity. Qed.

(** The binary form of an empty set is refused. *)
Example empty_set_is_refused :
  ReadIpCidrSet (H := pair_netipx) (WriteBin (H := pair_netipx) NewIpCidrSet) = Err "length is invalid"%string.
Proof. vm_compute. reflexivity. Qed.
