(* ===== verification/LogicRules.v ===== *)
(** * LogicRules: the logical rules and the sub-rules

    [src/rules/logic/logic.go]: AND, OR, NOT and SUB-RULE over other rules, the
    parser of their parenthesized payload and their evaluation; with
    [ParseRulePayload] of [src/rules/common/base.go], the rule types of
    [src/constant/rule.go] and the check for circular sub-rules of
    [src/config/config.go].

    [C.Rule] is an interface; [RuleLeaf] is what the logical rules use of the
    implementations they do not define. [Match] may change the metadata (the
    helper resolves addresses and finds processes on demand), so it threads a
    state. All SUB-RULE rules share one map of rule lists, filled after they
    are built: the evaluation takes its final content. Evaluation follows names
    in that map, so it takes fuel; [out_of_fuel] is the result when it does not
    suffice. *)
From S2P Require Import Prelude GoStrings.

(** ** Rule types *)

Inductive RuleType :=
| Domain | DomainSuffix | DomainKeyword | DomainRegex | DomainWildcard | GEOSITE | GEOIP | SrcGEOIP | IPASN | SrcIPASN
| IPCIDR | SrcIPCIDR | IPSuffix | SrcIPSuffix | SrcPort | DstPort | InPort | DSCP | InUser | InName | InType
| ProcessName | ProcessPath | ProcessNameRegex | ProcessPathRegex | ProcessNameWildcard | ProcessPathWildcard
| RematchName | RuleSet | Network | Uid | SubRules | MATCH | AND | OR | NOT.

#[export] Instance RuleType_eq_dec : EqDecision RuleType.
Proof. solve_decision. Defined.

Definition RuleType_String (rt : RuleType) : string :=
  match rt with
  | Domain => "Domain" | DomainSuffix => "DomainSuffix" | DomainKeyword => "DomainKeyword"
  | DomainRegex => "DomainRegex" | DomainWildcard => "DomainWildcard" | GEOSITE => "GeoSite"
  | GEOIP => "GeoIP" | SrcGEOIP => "SrcGeoIP" | IPASN => "IPASN" | SrcIPASN => "SrcIPASN"
  | IPCIDR => "IPCIDR" | SrcIPCIDR => "SrcIPCIDR" | IPSuffix => "IPSuffix" | SrcIPSuffix => "SrcIPSuffix"
  | SrcPort => "SrcPort" | DstPort => "DstPort" | InPort => "InPort" | InUser => "InUser"
  | InName => "InName" | InType => "InType" | ProcessName => "ProcessName" | ProcessPath => "ProcessPath"
  | ProcessNameRegex => "ProcessNameRegex" | ProcessPathRegex => "ProcessPathRegex"
  | ProcessNameWildcard => "ProcessNameWildcard" | ProcessPathWildcard => "ProcessPathWildcard"
  | RematchName => "RematchName" | MATCH => "Match" | RuleSet => "RuleSet" | Network => "Network"
  | DSCP => "DSCP" | Uid => "Uid" | SubRules => "SubRules" | AND => "AND" | OR => "OR" | NOT => "NOT"
  end.

(** ** The payload of a rule line *)

Definition comma : ascii := ascii_of_N 44.
Definition trimArr (arr : list str) : list str := trim_cut (lit " ") <$> arr.

Definition joined_types : list str :=
  lit <$> ["NOT"; "OR"; "AND"; "SUB-RULE"; "DOMAIN-REGEX"; "PROCESS-NAME-REGEX"; "PROCESS-PATH-REGEX"].

(** The type, the payload, the target and the parameters. *)
Definition ParseRulePayload (unicode_upper : str → str) (ruleRaw : str) (needTarget : bool)
    : str * str * str * list str :=
  let item := trimArr (split_on comma ruleRaw) in
  let tp := ToUpper unicode_upper (default [] (head item)) in
  if (1 <? length item)%nat then
    if decide (tp = lit "MATCH") then (tp, [], default [] (item !! 1), [])
    else if decide (tp ∈ joined_types) then
      let target := if needTarget then default [] (last item) else [] in
      let item := if needTarget then take (length item - 1) item else item in
      (tp, join [comma] (tail item), target, [])
    else
      let payload := default [] (item !! 1) in
      if (2 <? length item)%nat then
        if needTarget then (tp, payload, default [] (item !! 2), drop 3 item)
        else (tp, payload, [], drop 2 item)
      else (tp, payload, [], [])
  else (tp, [], [], []).

(** ** Parsing a logical payload *)

Record Range := MkRange { start : nat; end_ : nat }.

Definition containRange (r : Range) (preStart preEnd : nat) : bool :=
  (preStart <? start r)%nat && (end_ r <? preEnd)%nat.

Definition lparen : ascii := ascii_of_N 40.
Definition rparen : ascii := ascii_of_N 41.

(** The scan of [format]; the stack has its top first. Go ranges over the
    runes with their byte offsets; a parenthesis is a byte of its own in any
    string, valid UTF-8 or not, so the model goes byte by byte. *)
Fixpoint format_loop (payload : str) (i : nat) (stack : list nat) (subRanges : list Range) : result (list Range) :=
  match payload with
  | [] => if bool_decide (stack = []) then Ok subRanges else Err "format error is missing )"
  | c :: payload =>
    if decide (c = lparen) then format_loop payload (S i) (i :: stack) subRanges
    else if decide (c = rparen) then
      match stack with
      | [] => Err "missing '('"
      | start :: stack => format_loop payload (S i) stack (subRanges ++ [MkRange start i])
      end
    else format_loop payload (S i) stack subRanges
  end.
Definition start_less (a b : Range) : bool := (start a <? start b)%nat.
Definition format `{SortSlice} (payload : str) : result (list Range) :=
  subRanges ← format_loop payload 0 [] []; Ok (sort_slice start_less subRanges).

(** One round of [findSubRuleRange]: the range around everything and ranges
    inside a kept one are left out. *)
Definition keep (payload : str) (subRuleRange : list Range) (rr : Range) : list Range :=
  if ((start rr =? 0) && (end_ rr =? length payload - 1))%nat then subRuleRange
  else if existsb (λ r, containRange rr (start r) (end_ r)) subRuleRange then subRuleRange
  else subRuleRange ++ [rr].
Definition findSubRuleRange (payload : str) (ruleRanges : list Range) : list Range :=
  foldl (keep payload) [] ruleRanges.

(** The parts of a payload that are parsed as rules. *)
Definition subPayloads `{SortSlice} (payload : str) : result (list str) :=
  if negb (bool_decide (head payload = Some lparen)) || negb (bool_decide (last payload = Some rparen))
  then Err "payload format error"
  else
    ranges ← format payload;
    Ok ((λ r, slice payload (S (start r)) (end_ r)) <$> findSubRuleRange payload ranges).

(** ** What a payload means *)

(** A payload is a sequence of bytes outside parentheses and of groups. *)
Inductive item :=
| Text (c : ascii)
| Group (items : list item).

Fixpoint render (it : item) : str :=
  match it with
  | Text c => [c]
  | Group items => lparen :: concat (map render items) ++ [rparen]
  end.
Abbreviation render_all items := (concat (map render items)).

Fixpoint clean (it : item) : bool :=
  match it with
  | Text c => bool_decide (c ≠ lparen) && bool_decide (c ≠ rparen)
  | Group items => forallb clean items
  end.

Definition groups (items : list item) : list str :=
  omap (λ it, match it with Group l => Some (render_all l) | Text _ => None end) items.
(** One pair of parentheses around everything is left out. *)
Definition parts (items : list item) : list str :=
  match items with [Group l] => groups l | _ => groups items end.

Lemma item_nested_ind (P : item → Prop) :
  (∀ c, P (Text c)) → (∀ l, Forall P l → P (Group l)) → ∀ it, P it.
Proof.
  intros Ht Hg. fix IH 1. intros [c|l]; [apply Ht|apply Hg].
  induction l as [|it l IHl]; constructor; [apply IH|apply IHl].
Qed.

Section parsing.
(** The ranges of the groups, by their end and by their start. *)
Fixpoint post (i : nat) (it : item) : list Range :=
  match it with
  | Text _ => []
  | Group l =>
    (fix go j l := match l with [] => [MkRange i j] | it :: l => post j it ++ go (j + length (render it))%nat l end) (S i) l
  end.
Fixpoint post_all (i : nat) (l : list item) : list Range :=
  match l with [] => [] | it :: l => post i it ++ post_all (i + length (render it)) l end.
Fixpoint pre (i : nat) (it : item) : list Range :=
  match it with
  | Text _ => []
  | Group l =>
    MkRange i (S i + length (render_all l)) ::
    (fix go j l := match l with [] => [] | it :: l => pre j it ++ go (j + length (render it))%nat l end) (S i) l
  end.
Fixpoint pre_all (i : nat) (l : list item) : list Range :=
  match l with [] => [] | it :: l => pre i it ++ pre_all (i + length (render it)) l end.

Lemma post_Group i l : post i (Group l) = post_all (S i) l ++ [MkRange i (S i + length (render_all l))].
Proof.
  cbn [post]. generalize (S i) as j. induction l as [|it l IH]; intros j; cbn [map concat post_all length].
  - by rewrite Nat.add_0_r.
  - rewrite IH, length_app, <- app_assoc. by rewrite Nat.add_assoc.
Qed.
Lemma pre_Group i l : pre i (Group l) = MkRange i (S i + length (render_all l)) :: pre_all (S i) l.
Proof. reflexivity. Qed.

Lemma length_render_Group l : length (render (Group l)) = S (S (length (render_all l))).
Proof. cbn [render length]. rewrite length_app. cbn. lia. Qed.

(** Scanning a forest appends its ranges. *)
Definition scans (i : nat) (s : str) (rs : list Range) : Prop :=
  ∀ rest stack acc, format_loop (s ++ rest) i stack acc = format_loop rest (i + length s) stack (acc ++ rs).

Lemma scans_all l : Forall (λ it, clean it = true → ∀ i, scans i (render it) (post i it)) l →
  forallb clean l = true → ∀ i, scans i (render_all l) (post_all i l).
Proof.
  induction 1 as [|it l Hit _ IH]; intros Hc i rest stack acc; cbn [map concat post_all forallb] in *.
  { by rewrite Nat.add_0_r, app_nil_r. }
  apply andb_prop in Hc as [Hc1 Hc2]. rewrite <- app_assoc, Hit, IH, length_app, <- app_assoc by done.
  f_equal. lia.
Qed.

Lemma scans_item it : clean it = true → ∀ i, scans i (render it) (post i it).
Proof.
  induction it as [c|l IH] using item_nested_ind; intros Hc i rest stack acc.
  - cbn in Hc. apply andb_prop in Hc as [H1%bool_decide_eq_true H2%bool_decide_eq_true].
    cbn. rewrite !decide_False, app_nil_r by done. f_equal. lia.
  - rewrite post_Group, length_render_Group. cbn [render clean app] in *. cbn [format_loop].
    rewrite decide_True, <- app_assoc, (scans_all l IH Hc) by done. cbn [app format_loop].
    rewrite decide_False, decide_True, <- app_assoc by done. repeat (f_equal; try lia).
Qed.

Lemma format_loop_render l : forallb clean l = true → format_loop (render_all l) 0 [] [] = Ok (post_all 0 l).
Proof.
  intros Hc. rewrite <- (app_nil_r (render_all l)), (scans_all l) by (done || apply Forall_true, scans_item).
  done.
Qed.

(** A scan that succeeds has read a forest. *)
Lemma format_loop_segments s : ∀ i stack acc rs, format_loop s i stack acc = Ok rs →
  ∃ segs, length segs = S (length stack) ∧ Forall (λ l, forallb clean l = true) segs ∧
    s = join [rparen] ((λ l, render_all l) <$> segs).
Proof.
  induction s as [|c s IH]; intros i stack acc rs; cbn [format_loop].
  { destruct stack; [|done]. intros _. exists [[]]. split_and!; [done|by repeat constructor|done]. }
  destruct (decide (c = lparen)) as [->|Hl].
  { intros ([|g [|g' segs]] & Hn & Hc & ->)%IH; [done..|]. exists ((Group g :: g') :: segs).
    apply Forall_cons in Hc as [Hg [Hg' Hc]%Forall_cons]. split_and!.
    - cbn in *. lia.
    - constructor; [|done]. cbn. by rewrite Hg.
    - destruct segs; cbn; rewrite <- !app_assoc; done. }
  destruct (decide (c = rparen)) as [->|Hr].
  { destruct stack as [|st stack]; [done|]. intros (segs & Hn & Hc & ->)%IH. exists ([] :: segs). split_and!.
    - cbn in *. lia.
    - by constructor.
    - destruct segs; [done|]. done. }
  intros ([|g segs] & Hn & Hc & ->)%IH; [done|]. exists ((Text c :: g) :: segs).
  apply Forall_cons in Hc as [Hg Hc]. split_and!; [done| |].
  - constructor; [|done]. cbn. by rewrite !bool_decide_true.
  - by destruct segs.
Qed.

Lemma format_loop_forest s rs : format_loop s 0 [] [] = Ok rs ↔
  ∃ l, forallb clean l = true ∧ s = render_all l ∧ rs = post_all 0 l.
Proof.
  split.
  - intros Hs. pose proof Hs as ([|l [|]] & Hn & Hc & ->)%format_loop_segments; [done| |done].
    exists l. apply Forall_inv in Hc. cbn [fmap list_fmap join] in Hs. rewrite format_loop_render in Hs by done.
    split_and!; [done..|congruence].
  - intros (l & Hc & -> & ->). by apply format_loop_render.
Qed.

(** *** Order by start *)

Lemma post_pre_all l : Forall (λ it, ∀ i, post i it ≡ₚ pre i it) l → ∀ i, post_all i l ≡ₚ pre_all i l.
Proof. induction 1 as [|it l Hit _ IH]; intros i; cbn; [done|]. by rewrite Hit, IH. Qed.
Lemma post_pre it : ∀ i, post i it ≡ₚ pre i it.
Proof.
  induction it as [c|l IH] using item_nested_ind; intros i; [done|].
  rewrite post_Group, pre_Group, (post_pre_all l IH). by rewrite Permutation_app_comm.
Qed.

(** The ranges of a forest written at [i]. *)
Definition inside (lo hi : nat) (r : Range) : Prop := (lo ≤ start r ∧ start r < end_ r < hi)%nat.

Lemma pre_all_inside_of l : Forall (λ it, ∀ i, Forall (inside i (i + length (render it))) (pre i it)) l →
  ∀ i, Forall (inside i (i + length (render_all l))) (pre_all i l).
Proof.
  induction 1 as [|it l Hit _ IH]; intros i; cbn; [constructor|]. rewrite length_app. apply Forall_app. split.
  - eapply Forall_impl; [apply Hit|]. unfold inside. intros; cbn in *. lia.
  - eapply Forall_impl; [apply IH|]. unfold inside. intros; cbn in *. lia.
Qed.
Lemma pre_inside it : ∀ i, Forall (inside i (i + length (render it))) (pre i it).
Proof.
  induction it as [c|l IH] using item_nested_ind; intros i; [constructor|].
  rewrite pre_Group, length_render_Group. constructor; [unfold inside; cbn; lia|].
  eapply Forall_impl; [apply (pre_all_inside_of l IH)|]. unfold inside. intros; cbn in *. lia.
Qed.
Lemma pre_all_inside l i : Forall (inside i (i + length (render_all l))) (pre_all i l).
Proof. apply pre_all_inside_of, Forall_true, pre_inside. Qed.

Definition start_lt (a b : Range) : Prop := (start a < start b)%nat.
Lemma pre_all_sorted_of l : Forall (λ it, ∀ i, StronglySorted start_lt (pre i it)) l →
  ∀ i, StronglySorted start_lt (pre_all i l).
Proof.
  induction 1 as [|it l Hit _ IH]; intros i; cbn; [constructor|]. apply StronglySorted_app. split_and!; [|done..].
  intros a b Ha Hb. pose proof (pre_inside it i) as H1. pose proof (pre_all_inside l (i + length (render it))) as H2.
  rewrite Forall_forall in H1, H2. specialize (H1 _ Ha). specialize (H2 _ Hb). unfold inside, start_lt in *. lia.
Qed.
Lemma pre_sorted it : ∀ i, StronglySorted start_lt (pre i it).
Proof.
  induction it as [c|l IH] using item_nested_ind; intros i; [constructor|].
  rewrite pre_Group. constructor; [by apply pre_all_sorted_of|].
  eapply Forall_impl; [apply pre_all_inside|]. unfold inside, start_lt. intros; cbn in *. lia.
Qed.
Lemma pre_all_sorted l i : StronglySorted start_lt (pre_all i l).
Proof. apply pre_all_sorted_of, Forall_true, pre_sorted. Qed.

Lemma sorted_start_inj l a b : StronglySorted start_lt l → a ∈ l → b ∈ l → start a = start b → a = b.
Proof.
  induction 1 as [|x l _ IH Hx]; [by intros ?%not_elem_of_nil|].
  rewrite Forall_forall in Hx. unfold start_lt in Hx.
  intros [->|Ha]%elem_of_cons [->|Hb]%elem_of_cons Heq; [done| | |auto].
  - apply Hx in Hb. lia.
  - apply Hx in Ha. lia.
Qed.

Lemma range_order_strict_weak : strict_weak start_less.
Proof. split; unfold start_less; intros *; rewrite ?Nat.ltb_lt, ?Nat.ltb_ge; lia. Qed.

Lemma sort_post `{SortSlice} l : sort_slice start_less (post_all 0 l) = pre_all 0 l.
Proof.
  assert (Hp : sort_slice start_less (post_all 0 l) ≡ₚ pre_all 0 l).
  { rewrite sort_slice_perm. apply post_pre_all, Forall_true, post_pre. }
  eapply (StronglySorted_unique_strong (λ x y, start_less y x = false)); [|apply sort_slice_sorted, range_order_strict_weak| |done].
  - intros a b Ha Hb. rewrite Hp in Ha. unfold start_less. rewrite !Nat.ltb_ge. intros ? ?.
    eapply sorted_start_inj; [apply pre_all_sorted|done..|lia].
  - clear Hp. induction (pre_all_sorted l 0) as [|a rs _ IH Ha]; [constructor|]. constructor; [done|].
    eapply Forall_impl; [apply Ha|]. unfold start_lt, start_less. intros b ?. apply Nat.ltb_ge. lia.
Qed.

(** *** The groups that are kept *)

Fixpoint tops (i : nat) (l : list item) : list Range :=
  match l with
  | [] => []
  | Text _ :: l => tops (S i) l
  | Group g :: l => MkRange i (S i + length (render_all g)) :: tops (i + length (render (Group g))) l
  end.

(** Ranges inside a kept one are left out. *)
Lemma keep_nested payload acc rs r lo hi : r ∈ acc → (start r < lo)%nat → (hi ≤ end_ r)%nat →
  Forall (inside lo hi) rs → foldl (keep payload) acc rs = acc.
Proof.
  intros Hr Hlo Hhi. induction 1 as [|rr rs Hin _ IH]; cbn [foldl]; [done|].
  assert (keep payload acc rr = acc) as ->; [|done]. unfold keep. destruct (_ && _); [done|].
  assert (existsb (λ r, containRange rr (start r) (end_ r)) acc = true) as ->; [|done].
  apply existsb_exists. exists r. split; [by apply list_elem_of_In|]. unfold containRange, inside in *.
  apply andb_true_intro. rewrite !Nat.ltb_lt. lia.
Qed.

Lemma keep_top payload acc rr : ¬ (start rr = 0 ∧ end_ rr = length payload - 1)%nat →
  Forall (λ r, end_ r < end_ rr)%nat acc → keep payload acc rr = acc ++ [rr].
Proof.
  intros Hfull Hacc. unfold keep. destruct (_ && _) eqn:E.
  { apply andb_prop in E as [E1%Nat.eqb_eq E2%Nat.eqb_eq]. tauto. }
  destruct (existsb _ _) eqn:Ex; [|done]. apply existsb_exists in Ex as (r & Hr%list_elem_of_In & Hc).
  rewrite Forall_forall in Hacc. specialize (Hacc _ Hr). unfold containRange in Hc.
  apply andb_prop in Hc as [_ Hc%Nat.ltb_lt]. lia.
Qed.

Lemma keep_all payload l : ∀ i acc, Forall (λ r, end_ r < i)%nat acc →
  Forall (λ r, ¬ (start r = 0 ∧ end_ r = length payload - 1))%nat (tops i l) →
  foldl (keep payload) acc (pre_all i l) = acc ++ tops i l.
Proof.
  induction l as [|[c|g] l IH]; intros i acc Hacc Hfull; cbn [pre_all tops] in *; [by rewrite app_nil_r| |].
  { cbn [pre app render length]. rewrite Nat.add_1_r. apply IH; [|done].
    eapply Forall_impl; [apply Hacc|]. intros; cbn in *; lia. }
  rewrite pre_Group. cbn [app foldl]. apply Forall_cons in Hfull as [Hf1 Hf2].
  rewrite keep_top, foldl_app; [|done|eapply Forall_impl; [apply Hacc|]; intros; cbn in *; lia].
  rewrite (keep_nested _ _ (pre_all (S i) g) (MkRange i (S i + length (render_all g))) (S i) (S i + length (render_all g)));
    [|apply elem_of_app; right; left|cbn; lia|cbn; lia|apply pre_all_inside].
  rewrite IH, <- app_assoc; [done| |done]. rewrite length_render_Group.
  apply Forall_app. split; [|constructor; [cbn; lia|constructor]].
  eapply Forall_impl; [apply Hacc|]. intros; cbn in *; lia.
Qed.

(** Only a group around everything is the full range. *)
Lemma tops_inside l : ∀ i, Forall (inside i (i + length (render_all l))) (tops i l).
Proof.
  induction l as [|[c|g] l IH]; intros i; cbn [tops map concat]; [constructor| |].
  - eapply Forall_impl; [apply IH|]. unfold inside. intros; cbn in *. lia.
  - rewrite length_app, length_render_Group. constructor; [unfold inside; cbn; lia|].
    eapply Forall_impl; [apply IH|]. unfold inside. intros; cbn in *. lia.
Qed.

Lemma render_nonempty it : (0 < length (render it))%nat.
Proof. destruct it; cbn; lia. Qed.

Lemma tops_not_full l : (∀ g, l ≠ [Group g]) →
  Forall (λ r, ¬ (start r = 0 ∧ end_ r = length (render_all l) - 1))%nat (tops 0 l).
Proof.
  intros Hl. destruct l as [|[c|g] l]; cbn [tops]; [constructor| |].
  - eapply Forall_impl; [apply tops_inside|]. unfold inside. intros; cbn in *. lia.
  - destruct l as [|it l]; [by destruct (Hl g)|]. constructor.
    + cbn [map concat start end_]. rewrite !length_app, length_render_Group. pose proof (render_nonempty it). lia.
    + eapply Forall_impl; [apply tops_inside|]. rewrite length_render_Group. unfold inside. intros; cbn in *. lia.
Qed.

Lemma tops_slices l : ∀ s s' i, i = length s →
  (λ r, slice (s ++ render_all l ++ s') (S (start r)) (end_ r)) <$> tops i l = groups l.
Proof.
  induction l as [|[c|g] l IH]; intros s s' i ->; cbn [tops map concat]; [done| |].
  - etrans; [|apply (IH (s ++ [c]) s' (S (length s))); rewrite length_app; cbn; lia].
    cbn [render]. by rewrite <- !app_assoc.
  - rewrite fmap_cons. cbn [groups omap list_omap]. f_equal.
    + cbn [start end_ render]. unfold slice.
      replace (s ++ ((lparen :: render_all g ++ [rparen]) ++ render_all l) ++ s')
        with ((s ++ [lparen]) ++ render_all g ++ (rparen :: render_all l ++ s')) by (by rewrite <- !app_assoc; cbn; rewrite <- !app_assoc).
      rewrite drop_app_length', take_app_length' by (rewrite ?length_app; cbn; lia). done.
    + etrans; [|apply (IH (s ++ render (Group g)) s' (length s + length (render (Group g)))); by rewrite length_app].
      by rewrite <- !app_assoc.
Qed.

(** The kept ranges of a payload, and what they contain. *)
Lemma kept_parts l : (λ r, slice (render_all l) (S (start r)) (end_ r)) <$> findSubRuleRange (render_all l) (pre_all 0 l) = parts l.
Proof.
  unfold findSubRuleRange. assert (Hl : (∃ g, l = [Group g]) ∨ (∀ g, l ≠ [Group g])).
  { destruct l as [|[c|g] [|]]; by eauto. }
  destruct Hl as [[g ->]|Hl].
  - cbn [pre_all]. rewrite app_nil_r, pre_Group. cbn [foldl map concat]. rewrite app_nil_r.
    assert (keep (render (Group g)) [] (MkRange 0 (1 + length (render_all g))) = []) as ->.
    { unfold keep. rewrite length_render_Group. cbn [start end_]. rewrite !(proj2 (Nat.eqb_eq _ _)) by lia. done. }
    rewrite keep_all, app_nil_l; [|constructor|eapply Forall_impl; [apply tops_inside|]; unfold inside; intros; cbn in *; lia].
    apply (tops_slices g [lparen] [rparen] 1 eq_refl).
  - rewrite keep_all by (constructor || by apply tops_not_full). cbn [app].
    pose proof (tops_slices l [] [] 0 eq_refl) as Hs. rewrite app_nil_l, app_nil_r in Hs. rewrite Hs.
    destruct l as [|[c|g] [|]]; try done. by destruct (Hl g).
Qed.

Lemma subPayloads_forest `{SortSlice} payload subs :
  subPayloads payload = Ok subs ↔
  head payload = Some lparen ∧ last payload = Some rparen ∧
  ∃ items, forallb clean items = true ∧ payload = render_all items ∧ subs = parts items.
Proof.
  unfold subPayloads, format. destruct (decide (head payload = Some lparen)) as [Hh|Hh].
  2: { rewrite bool_decide_false by done. cbn. split; [done|tauto]. }
  destruct (decide (last payload = Some rparen)) as [Hl|Hl].
  2: { rewrite (bool_decide_false (last _ = _)), orb_true_r by done. split; [done|tauto]. }
  rewrite !bool_decide_true by done. cbn [negb orb]. split.
  - intros (rs & (rs' & (items & Hc & Hp & ->)%format_loop_forest & [= <-])%result_bind_Ok & [= <-])%result_bind_Ok.
    split_and!; [done..|]. exists items. split_and!; [done..|]. subst payload. by rewrite sort_post, kept_parts.
  - intros (_ & _ & items & Hc & -> & ->). rewrite format_loop_render by done. cbn [mbind result_bind].
    by rewrite sort_post, kept_parts.
Qed.

(** Every part is shorter than the payload by two pairs of parentheses. *)
Lemma groups_length sub l : sub ∈ groups l → (length sub + 2 ≤ length (render_all l))%nat.
Proof.
  induction l as [|[c|g] l IH]; cbn [groups omap list_omap map concat]; [by intros ?%not_elem_of_nil| |].
  - intros Hs. rewrite length_app. specialize (IH Hs). lia.
  - rewrite length_app, length_render_Group. intros [->|Hs]%elem_of_cons; [lia|]. specialize (IH Hs). lia.
Qed.

Lemma last_group_length l : last (render_all l) = Some rparen → forallb clean l = true → (2 ≤ length (render_all l))%nat.
Proof.
  destruct l as [|it l _] using rev_ind; [done|]. rewrite map_app, concat_app, forallb_app. cbn. rewrite app_nil_r, andb_true_r.
  destruct it as [c|g]; cbn [render clean].
  - rewrite last_snoc. intros [= ->] [_ Hc]%andb_prop. by vm_compute in Hc.
  - intros _ _. rewrite !length_app. cbn. rewrite length_app. cbn. lia.
Qed.

Lemma subPayloads_length `{SortSlice} payload subs sub : subPayloads payload = Ok subs → sub ∈ subs →
  (length sub + 4 ≤ length payload)%nat.
Proof.
  intros (Hh & Hl & items & Hc & -> & ->)%subPayloads_forest Hs.
  destruct items as [|[c|g] [|it items]]; try by apply not_elem_of_nil in Hs.
  - cbn in Hh, Hc. injection Hh as ->. by vm_compute in Hc.
  - cbn [parts] in Hs. apply groups_length in Hs. cbn [map concat]. rewrite app_nil_r, length_render_Group. lia.
  - change (parts (Group g :: it :: items)) with (render_all g :: groups (it :: items)) in Hs.
    change (render_all (Group g :: it :: items)) with (render (Group g) ++ render_all (it :: items)) in *.
    rewrite length_app, length_render_Group. apply elem_of_cons in Hs as [->|Hs].
    + enough (2 ≤ length (render_all (it :: items)))%nat by lia. cbn [forallb clean] in Hc. apply andb_prop in Hc as [_ Hc].
      apply last_group_length; [|done]. rewrite last_app in Hl. destruct (last (render_all (it :: items))) eqn:E; [done|].
      apply last_None in E. cbn in E. pose proof (render_nonempty it). destruct (render it); [cbn in *; lia|done].
    + apply groups_length in Hs. lia.
Qed.

(** The parts of a payload that are parsed as rules. A payload is accepted
    exactly when it starts with [(], ends with [)] and its parentheses balance,
    so that it is a sequence of bytes and groups; the parts are then the
    contents of its outermost groups, in order, whatever they nest, where one
    pair of parentheses around the whole payload does not count. *)
Theorem subPayloads_correct `{SortSlice} payload subs :
  subPayloads payload = Ok subs ↔
  head payload = Some lparen ∧ last payload = Some rparen ∧
  ∃ items, forallb clean items = true ∧ payload = render_all items ∧ subs = parts items.
Proof. apply subPayloads_forest. Qed.
End parsing.

(** ** Rules *)

(** The callbacks a rule may use while it matches: they change the connection
    (look its address or its process up), or are absent. *)
Record RuleMatchHelper (St : Type) := MkHelper {
  ResolveIP : option (St → St);
  FindProcess : option (St → St);
  CheckPassRule : option (str → St → bool)
}.
Arguments MkHelper {St} _ _ _.
Arguments ResolveIP {St} _.
Arguments FindProcess {St} _.
Arguments CheckPassRule {St} _.

(** What the other rules provide. [leaf_safe] is [KernelDirectMatchSafe] for
    the rules that have that method. *)
Class RuleLeaf (St : Type) := {
  Leaf : Type;
  leaf_RuleType : Leaf → RuleType;
  leaf_Match : Leaf → RuleMatchHelper St → St → (bool * str) * St;
  leaf_Adapter : Leaf → str;
  leaf_Payload : Leaf → str;
  leaf_ProviderNames : Leaf → list str;
  leaf_safe : Leaf → option bool
}.

Section rules.
Context {St : Type} `{RuleLeaf St}.

Inductive Rule :=
| RLeaf (l : Leaf)
| RLogic (ruleType : RuleType) (payload adapter : str) (rules : list Rule).

Definition rule_RuleType (r : Rule) : RuleType :=
  match r with RLeaf l => leaf_RuleType l | RLogic rt _ _ _ => rt end.
Definition rule_Adapter (r : Rule) : str :=
  match r with RLeaf l => leaf_Adapter l | RLogic _ _ a _ => a end.

(** *** Construction *)

Context (unicode_upper : str → str) `{SortSlice}.
(** [ParseRuleFunc] with no sub-rules: type, payload, target, parameters. *)
Context (parseRule : str → str → str → list str → result Rule).

Definition payloadToRule (subPayload : str) : result Rule :=
  let '(tp, payload, target, params) := ParseRulePayload unicode_upper subPayload false in
  if decide (tp = lit "MATCH" ∨ tp = lit "SUB-RULE") then Err "unsupported rule type on logic rule"
  else if decide (tp = []) then Err "format is error"
  else parseRule tp payload target params.

Fixpoint parse_all (l : list str) : result (list Rule) :=
  match l with
  | [] => Ok []
  | p :: l => rule ← payloadToRule p; rules ← parse_all l; Ok (rule :: rules)
  end.
Definition parsePayload (payload : str) : result (list Rule) :=
  subs ← subPayloads payload; parse_all subs.

Definition NewSubRule (payload adapter : str) : result Rule :=
  rules ← parsePayload (lparen :: payload ++ [rparen]);
  if (length rules =? 1)%nat then Ok (RLogic SubRules payload adapter rules)
  else Err "Sub-Rule rule must contain one rule".
Definition NewNOT (payload adapter : str) : result Rule :=
  rules ← parsePayload payload;
  if (length rules =? 1)%nat then Ok (RLogic NOT payload adapter rules) else Err "not rule must contain one rule".
Definition NewOR (payload adapter : str) : result Rule :=
  rules ← parsePayload payload; Ok (RLogic OR payload adapter rules).
Definition NewAND (payload adapter : str) : result Rule :=
  rules ← parsePayload payload; Ok (RLogic AND payload adapter rules).

(** *** Printing and inspection *)

Definition quoted (r : RuleType) (payload : str) : str :=
  lit "(" ++ lit (RuleType_String r) ++ lit "," ++ payload ++ lit ")".
Fixpoint rule_Payload (r : Rule) : str :=
  match r with
  | RLeaf l => leaf_Payload l
  | RLogic rt payload _ rules =>
    let parts := map (λ r, quoted (rule_RuleType r) (rule_Payload r)) rules in
    match rt with
    | NOT => lit "(!" ++ default [] (head parts) ++ lit ")"
    | OR => lit "(" ++ join (lit " || ") parts ++ lit ")"
    | AND => lit "(" ++ join (lit " && ") parts ++ lit ")"
    | _ => payload
    end
  end.

Fixpoint rule_ProviderNames (r : Rule) : list str :=
  match r with
  | RLeaf l => leaf_ProviderNames l
  | RLogic _ _ _ rules => concat (map rule_ProviderNames rules)
  end.

Definition safe_type (rt : RuleType) : bool :=
  match rt with
  | Domain | DomainSuffix | DomainKeyword | DomainRegex | DomainWildcard
  | GEOSITE | GEOIP | IPASN | IPCIDR | IPSuffix => true
  | _ => false
  end.
Fixpoint KernelDirectMatchSafe (r : Rule) : bool :=
  match r with
  | RLeaf l => match leaf_safe l with Some b => b | None => safe_type (leaf_RuleType l) end
  | RLogic rt _ _ rules => if decide (rt = SubRules) then false else forallb KernelDirectMatchSafe rules
  end.

(** *** Evaluation *)

Context (helper : RuleMatchHelper St) (subRules : gmap str (list Rule)).

Definition out_of_fuel {A} : result A := Err "out of fuel".

Definition passes (a : str) (st : St) : bool :=
  bool_decide (a = lit "PASS-RULE") || match CheckPassRule helper with Some f => f a st | None => false end.

(** The loops, over the evaluation of one rule. *)
Fixpoint or_loop (mtch : Rule → St → result ((bool * str) * St)) (adapter : str) (rules : list Rule) (st : St)
    : result ((bool * str) * St) :=
  match rules with
  | [] => Ok ((false, []), st)
  | r :: rules => '((m, _), st) ← mtch r st; if (m : bool) then Ok ((true, adapter), st) else or_loop mtch adapter rules st
  end.
Fixpoint and_loop (mtch : Rule → St → result ((bool * str) * St)) (adapter : str) (rules : list Rule) (st : St)
    : result ((bool * str) * St) :=
  match rules with
  | [] => Ok ((true, adapter), st)
  | r :: rules => '((m, _), st) ← mtch r st; if (m : bool) then and_loop mtch adapter rules st else Ok ((false, adapter), st)
  end.
Fixpoint sub_loop (mtch : Rule → St → result ((bool * str) * St)) (sub : str → St → result ((bool * str) * St))
    (rules : list Rule) (st : St) : result ((bool * str) * St) :=
  match rules with
  | [] => Ok ((false, []), st)
  | r :: rules =>
    '((m, a), st) ← mtch r st;
    if (m : bool) then
      '((m, a), st) ← (if decide (rule_RuleType r = SubRules) then sub (rule_Adapter r) st else Ok ((true, a), st));
      if (m : bool) && passes a st then sub_loop mtch sub rules st else Ok ((m, a), st)
    else sub_loop mtch sub rules st
  end.

Fixpoint Match (fuel : nat) (r : Rule) (st : St) {struct fuel} : result ((bool * str) * St) :=
  match fuel with
  | 0 => out_of_fuel
  | S fuel =>
    match r with
    | RLeaf l => Ok (leaf_Match l helper st)
    | RLogic rt _ adapter rules =>
      match rt with
      | SubRules =>
        match rules with
        | [] => Panic
        | r0 :: _ => '((m, _), st) ← Match fuel r0 st;
                     if (m : bool) then matchSubRules fuel adapter st else Ok ((false, []), st)
        end
      | NOT =>
        match rules with
        | [] => Panic
        | r0 :: _ => '((m, _), st) ← Match fuel r0 st;
                     if (m : bool) then Ok ((false, []), st) else Ok ((true, adapter), st)
        end
      | OR => or_loop (Match fuel) adapter rules st
      | AND => and_loop (Match fuel) adapter rules st
      | _ => Ok ((false, []), st)
      end
    end
  end
with matchSubRules (fuel : nat) (name : str) (st : St) {struct fuel} : result ((bool * str) * St) :=
  match fuel with
  | 0 => out_of_fuel
  | S fuel => sub_loop (Match fuel) (matchSubRules fuel) (default [] (subRules !! name)) st
  end.

(** *** The check of the configuration *)

Fixpoint verify_loop (check : str → result unit) (arr : list str) (rules : list Rule) : result unit :=
  match rules with
  | [] => Ok tt
  | rule :: rules =>
    if decide (rule_RuleType rule = SubRules) then
      match subRules !! rule_Adapter rule with
      | None => Err "sub-rule error: not found"
      | Some _ =>
        if bool_decide (rule_Adapter rule ∈ arr) then Err "sub-rule error: circular references"
        else _ ← check (rule_Adapter rule); verify_loop check arr rules
      end
    else verify_loop check arr rules
  end.
Fixpoint verifySubRuleCircularReferences (fuel : nat) (n : str) (arr : list str) : result unit :=
  match fuel with
  | 0 => out_of_fuel
  | S fuel =>
    let arr := arr ++ [n] in
    verify_loop (λ name, verifySubRuleCircularReferences fuel name arr) arr (default [] (subRules !! n))
  end.

(** The names along a chain are distinct, so their number bounds it. *)
Definition verifySubRule : result unit :=
  foldM (λ _ name, verifySubRuleCircularReferences (S (size subRules)) name []) tt (map_to_list subRules).*1.
(** *** Binding to the rule providers *)

(** [BindRuleProviders]: the rules of the other kinds it reaches (a RULE-SET
    rule replaces its provider there). Only a SUB-RULE rule has the map, whose
    lists Go visits in any order; the model takes that of [map_to_list]. *)
Fixpoint bind_each (bind : Rule → result (list Leaf)) (rules : list Rule) : result (list Leaf) :=
  match rules with
  | [] => Ok []
  | r :: rules => l ← bind r; l' ← bind_each bind rules; Ok (l ++ l')
  end.
Fixpoint BindRuleProviders (fuel : nat) (r : Rule) : result (list Leaf) :=
  match fuel with
  | 0 => out_of_fuel
  | S fuel =>
    match r with
    | RLeaf l => Ok [l]
    | RLogic rt _ _ rules =>
      l ← bind_each (BindRuleProviders fuel) rules;
      l' ← (if decide (rt = SubRules) then bind_each (BindRuleProviders fuel) (concat (map_to_list subRules).*2) else Ok []);
      Ok (l ++ l')
    end
  end.
End rules.
Arguments Rule _ {_}.

(** ** Circular sub-rules *)

Section circular.
Context {St : Type} `{RuleLeaf St} (subRules : gmap str (list (Rule St))).

(** A rule of the list [n] continues with the list [m]. *)
Definition refers (n m : str) : Prop :=
  ∃ rules r, subRules !! n = Some rules ∧ r ∈ rules ∧ rule_RuleType r = SubRules ∧ rule_Adapter r = m.

Lemma refers_default n m :
  refers n m ↔ ∃ r, r ∈ default [] (subRules !! n) ∧ rule_RuleType r = SubRules ∧ rule_Adapter r = m.
Proof.
  unfold refers. split.
  - intros (rules & r & -> & ?). by exists r.
  - destruct (subRules !! n) as [rules|] eqn:E; cbn; intros (r & Hr & ?); [by exists rules, r|].
    by apply not_elem_of_nil in Hr.
Qed.

Lemma refers_key n m : tc refers n m → is_Some (subRules !! n).
Proof. by intros [x y (? & ? & -> & _)|x y z (? & ? & -> & _)]. Qed.

(** What a successful pass over one list has established. *)
Lemma verify_loop_ok check arr rules :
  verify_loop subRules check arr rules = Ok tt ↔
  ∀ r, r ∈ rules → rule_RuleType r = SubRules →
    is_Some (subRules !! rule_Adapter r) ∧ rule_Adapter r ∉ arr ∧ check (rule_Adapter r) = Ok tt.
Proof.
  induction rules as [|r rules IH]; cbn [verify_loop].
  { split; [|done]. intros _ r Hr. by apply not_elem_of_nil in Hr. }
  destruct (decide (rule_RuleType r = SubRules)) as [Ht|Ht].
  - destruct (subRules !! rule_Adapter r) as [rs|] eqn:E.
    + destruct (bool_decide (rule_Adapter r ∈ arr)) eqn:Ha.
      * apply bool_decide_eq_true in Ha. split; [done|]. intros Hall. by destruct (Hall r) as (_ & ? & _); [left|..].
      * apply bool_decide_eq_false in Ha. destruct (check (rule_Adapter r)) as [[]| |] eqn:Ec; cbn [mbind result_bind].
        -- rewrite IH. split.
           ++ intros Hall r' [->|Hr']%elem_of_cons ?; [by rewrite E|by apply Hall].
           ++ intros Hall r' Hr'. apply Hall. by right.
        -- split; [done|]. intros Hall. destruct (Hall r) as (_ & _ & ?); [left|done|congruence].
        -- split; [done|]. intros Hall. destruct (Hall r) as (_ & _ & ?); [left|done|congruence].
    + split; [done|]. intros Hall. destruct (Hall r) as ([? ?] & _); [left|done|congruence].
  - rewrite IH. split.
    + intros Hall r' [->|Hr']%elem_of_cons ?; [done|by apply Hall].
    + intros Hall r' Hr'. apply Hall. by right.
Qed.

Lemma verify_ok fuel n arr :
  verifySubRuleCircularReferences subRules (S fuel) n arr = Ok tt ↔
  ∀ m, refers n m → is_Some (subRules !! m) ∧ m ∉ arr ++ [n] ∧
    verifySubRuleCircularReferences subRules fuel m (arr ++ [n]) = Ok tt.
Proof.
  cbn [verifySubRuleCircularReferences]. rewrite verify_loop_ok. split.
  - intros Hall m (r & Hr & Ht & <-)%refers_default. by apply Hall.
  - intros Hall r Hr Ht. apply Hall, refers_default. eauto.
Qed.

(** A chain from a verified list leaves the list and the names before it. *)
Lemma verify_sound fuel : ∀ n arr, verifySubRuleCircularReferences subRules fuel n arr = Ok tt →
  ∀ m, tc refers n m → is_Some (subRules !! m) ∧ m ∉ arr ++ [n].
Proof.
  induction fuel as [|fuel IH]; intros n arr Hv m Hm; [done|].
  rewrite verify_ok in Hv. destruct Hm as [n m Hr|n k m Hr Hm].
  - by destruct (Hv _ Hr) as (? & ? & _).
  - destruct (Hv _ Hr) as (_ & _ & Hk). destruct (IH _ _ Hk _ Hm) as [? Hn]. split; [done|].
    intros Hin. apply Hn, elem_of_app. by left.
Qed.

(** The names of a chain are distinct keys: the fuel suffices. *)
Definition chain_fuel (fuel : nat) (n : str) (arr : list str) : Prop :=
  NoDup (arr ++ [n]) ∧ (∀ m, m ∈ arr ++ [n] → is_Some (subRules !! m)) ∧
  (size subRules < fuel + length arr)%nat.

Lemma keys_length (l : list str) : NoDup l → (∀ m, m ∈ l → is_Some (subRules !! m)) → (length l ≤ size subRules)%nat.
Proof.
  intros Hn Hl. rewrite <- size_dom, <- (size_list_to_set (C := gset str) l) by done.
  apply subseteq_size. intros m Hm%elem_of_list_to_set. by apply elem_of_dom, Hl.
Qed.

Lemma chain_fuel_step fuel n m arr : chain_fuel (S fuel) n arr →
  is_Some (subRules !! m) → m ∉ arr ++ [n] → chain_fuel fuel m (arr ++ [n]).
Proof.
  intros (Hn & Hk & Hf) Hm Hnot. split_and!.
  - apply NoDup_app; split_and!; [done| |apply NoDup_singleton]. by intros x Hx ->%list_elem_of_singleton.
  - intros x [?| ->%list_elem_of_singleton]%elem_of_app; [by apply Hk|done].
  - rewrite length_app. cbn. lia.
Qed.

Lemma chain_fuel_pos n arr : ¬ chain_fuel 0 n arr.
Proof. intros (Hn & Hk & Hf). pose proof (keys_length _ Hn Hk) as Hl. rewrite length_app in Hl. cbn in *. lia. Qed.

Lemma verify_complete fuel : ∀ n arr, chain_fuel fuel n arr →
  (∀ m k, rtc refers n m → refers m k → is_Some (subRules !! k)) → (∀ m, rtc refers n m → ¬ tc refers m m) →
  (∀ m, m ∈ arr → tc refers m n) → verifySubRuleCircularReferences subRules fuel n arr = Ok tt.
Proof.
  induction fuel as [|fuel IH]; intros n arr Hc Hclosed Hacyc Harr; [by apply chain_fuel_pos in Hc|].
  apply verify_ok. intros m Hr.
  assert (Hm : is_Some (subRules !! m)) by (by apply (Hclosed n)).
  assert (Hin : ∀ k, k ∈ arr ++ [n] → tc refers k m).
  { intros k [Hk| ->%list_elem_of_singleton]%elem_of_app; [eapply tc_r; eauto|by apply tc_once]. }
  assert (Hnot : m ∉ arr ++ [n]).
  { intros Hk%Hin. by apply (Hacyc m); [apply rtc_once|]. }
  split_and!; [done..|]. apply IH; [by eapply chain_fuel_step| | |done].
  - intros x k ?. apply Hclosed. by eapply rtc_l.
  - intros x ?. apply Hacyc. by eapply rtc_l.
Qed.

Lemma verify_loop_fuel check arr rules :
  (∀ m, is_Some (subRules !! m) → m ∉ arr → check m ≠ out_of_fuel) → verify_loop subRules check arr rules ≠ out_of_fuel.
Proof.
  intros Hc. induction rules as [|r rules IH]; cbn [verify_loop]; [done|].
  destruct (decide _); [|done]. destruct (subRules !! rule_Adapter r) eqn:E; [|done].
  destruct (bool_decide _) eqn:Ha; [done|]. apply bool_decide_eq_false in Ha.
  specialize (Hc (rule_Adapter r) ltac:(by rewrite E) Ha). by destruct (check _).
Qed.

Lemma verify_fuel fuel : ∀ n arr, chain_fuel fuel n arr →
  verifySubRuleCircularReferences subRules fuel n arr ≠ out_of_fuel.
Proof.
  induction fuel as [|fuel IH]; intros n arr Hc; [by apply chain_fuel_pos in Hc|].
  cbn [verifySubRuleCircularReferences]. apply verify_loop_fuel. intros m Hm Hnot. by eapply IH, chain_fuel_step.
Qed.

Lemma chain_fuel_start n : is_Some (subRules !! n) → chain_fuel (S (size subRules)) n [].
Proof.
  intros Hn. split_and!; [apply NoDup_singleton| |cbn; lia]. by intros m ->%list_elem_of_singleton.
Qed.

Lemma foldM_unit {A} (f : A → result unit) l :
  foldM (λ _ x, f x) tt l = Ok tt ↔ ∀ x, x ∈ l → f x = Ok tt.
Proof.
  induction l as [|x l IH]; cbn [foldM]; [split; [|done]; intros _ x Hx; by apply not_elem_of_nil in Hx|].
  destruct (f x) as [[]| |] eqn:E; cbn [mbind result_bind].
  - rewrite IH. split; [intros Hl y [->|]%elem_of_cons; auto|intros Hl y ?; apply Hl; by right].
  - split; [done|]. intros Hl. by rewrite (Hl x) in E by left.
  - split; [done|]. intros Hl. by rewrite (Hl x) in E by left.
Qed.

Lemma elem_of_keys n : n ∈ (map_to_list subRules).*1 ↔ is_Some (subRules !! n).
Proof.
  rewrite list_elem_of_fmap. split.
  - intros ([k v] & -> & Hk%elem_of_map_to_list). by exists v.
  - intros [v Hv]. exists (n, v). by rewrite elem_of_map_to_list.
Qed.

Lemma verifySubRule_ok :
  verifySubRule subRules = Ok tt ↔
  ∀ n, is_Some (subRules !! n) → verifySubRuleCircularReferences subRules (S (size subRules)) n [] = Ok tt.
Proof.
  unfold verifySubRule. rewrite (foldM_unit (λ name, verifySubRuleCircularReferences subRules (S (size subRules)) name [])).
  setoid_rewrite elem_of_keys. done.
Qed.

(** C34: [verifySubRule] accepts a map of sub-rules exactly when every name a
    sub-rule refers to is defined and no list reaches itself through the
    references; and it always returns: the recursion is never deeper than the
    number of lists. *)
Theorem verifySubRule_correct :
  (verifySubRule subRules = Ok tt ↔
    (∀ n m, refers n m → is_Some (subRules !! m)) ∧ (∀ n, ¬ tc refers n n)) ∧
  verifySubRule subRules ≠ out_of_fuel.
Proof.
  split; [rewrite verifySubRule_ok; split|].
  - intros Hv. split.
    + intros n m Hr. pose proof Hr as (rules & r & Hn & _). eapply (verify_sound _ n []); [apply Hv; by rewrite Hn|by apply tc_once].
    + intros n Hn. pose proof (refers_key _ _ Hn) as Hk.
      destruct (verify_sound _ _ _ (Hv _ Hk) _ Hn) as [_ []]. by left.
  - intros [Hclosed Hacyc] n Hn. apply verify_complete; [by apply chain_fuel_start|by eauto..|].
    intros m Hm. by apply not_elem_of_nil in Hm.
  - unfold verifySubRule. assert (Hk : ∀ n, n ∈ (map_to_list subRules).*1 → is_Some (subRules !! n)) by (intros n; apply elem_of_keys).
    induction (map_to_list subRules).*1 as [|n l IH]; cbn [foldM]; [done|].
    pose proof (verify_fuel _ _ _ (chain_fuel_start n ltac:(apply Hk; left))) as Hf.
    destruct (verifySubRuleCircularReferences _ _ _ _) as [[]| |]; [|done..].
    apply IH. intros m Hm. apply Hk. by right.
Qed.
End circular.


(** ** Termination *)

Section termination.
Context {St : Type} `{RuleLeaf St} (helper : RuleMatchHelper St) (subRules : gmap str (list (Rule St))).
Abbreviation Match := (Match helper subRules).
Abbreviation matchSubRules := (matchSubRules helper subRules).
Abbreviation sub_loop := (sub_loop helper).

(** The rules the constructors build: NOT and SUB-RULE have a rule, and no rule
    inside another is a SUB-RULE ([payloadToRule] refuses it). *)
Fixpoint plain (r : Rule St) : bool :=
  match r with
  | RLeaf l => bool_decide (leaf_RuleType l ≠ SubRules)
  | RLogic rt _ _ rules =>
    bool_decide (rt ≠ SubRules) && negb (bool_decide (rt = NOT ∧ rules = [])) && forallb plain rules
  end.
Definition well_built (r : Rule St) : bool :=
  match r with
  | RLogic SubRules _ _ rules => negb (bool_decide (rules = [])) && forallb plain rules
  | _ => plain r
  end.

(** An evaluation that returns: some fuel is enough for every input, and more
    does not change the result. *)
Definition returns {I A} (eval : nat → I → result A) : Prop :=
  ∃ fuel, ∀ i, ∃ out, ∀ f, (fuel ≤ f)%nat → eval f i = Ok out.

Lemma returns_ret {I A} (g : I → A) : returns (λ _ i, Ok (g i)).
Proof. exists 0. eauto. Qed.

Lemma returns_succ {I A} (e e' : nat → I → result A) :
  (∀ f i, e (S f) i = e' f i) → returns e' → returns e.
Proof.
  intros Heq [fuel Hf]. exists (S fuel). intros i. destruct (Hf i) as [out Ho]. exists out.
  intros [|f] ?; [lia|]. rewrite Heq. apply Ho. lia.
Qed.

Lemma returns_bind {I A B} (e : nat → I → result A) (k : nat → A → result B) :
  returns e → returns k → returns (λ f i, a ← e f i; k f a).
Proof.
  intros [f1 H1] [f2 H2]. exists (f1 `max` f2). intros i.
  destruct (H1 i) as [a Ha]. destruct (H2 a) as [out Ho]. exists out. intros f ?.
  rewrite Ha by lia. cbn [mbind result_bind]. apply Ho. lia.
Qed.

Lemma returns_if {I A} (b : I → bool) (e1 e2 : nat → I → result A) :
  returns e1 → returns e2 → returns (λ f i, if b i then e1 f i else e2 f i).
Proof.
  intros [f1 H1] [f2 H2]. exists (f1 `max` f2). intros i. destruct (b i).
  - destruct (H1 i) as [out Ho]. exists out. intros f ?. apply Ho. lia.
  - destruct (H2 i) as [out Ho]. exists out. intros f ?. apply Ho. lia.
Qed.

Lemma returns_comap {I J A} (g : I → J) (e : nat → J → result A) : returns e → returns (λ f i, e f (g i)).
Proof. intros [f1 H1]. exists f1. intros i. apply H1. Qed.

Abbreviation outcome := (bool * str * St)%type.

(** The shape of every evaluation step: evaluate, then go on by the answer. *)
Lemma returns_match {I A} (e : nat → I → result outcome) (yes : nat → str * St → result A) (no : nat → St → result A) :
  returns e → returns yes → returns no →
  returns (λ f i, '((m, a), st) ← e f i; if (m : bool) then yes f (a, st) else no f st).
Proof.
  intros He Hy Hn. apply (returns_bind e (λ f (o : outcome), let '((m, a), st) := o in if m then yes f (a, st) else no f st) He).
  pose proof (returns_if (λ o : outcome, o.1.1) _ _
    (returns_comap (λ o : outcome, (o.1.2, o.2)) yes Hy) (returns_comap (λ o : outcome, o.2) no Hn)) as [fuel Hf].
  exists fuel. intros [[m a] st]. apply (Hf ((m, a), st)).
Qed.

Lemma or_loop_returns adapter rules : Forall (λ r, returns (λ f, Match f r)) rules →
  returns (λ f, or_loop (Match f) adapter rules).
Proof.
  induction 1 as [|r rules Hr _ IH]; cbn [or_loop]; [apply returns_ret|].
  apply (returns_match _ (λ _ i, Ok ((true, adapter), i.2)) _ Hr (returns_ret _) IH).
Qed.

Lemma and_loop_returns adapter rules : Forall (λ r, returns (λ f, Match f r)) rules →
  returns (λ f, and_loop (Match f) adapter rules).
Proof.
  induction 1 as [|r rules Hr _ IH]; cbn [and_loop]; [apply returns_ret|].
  apply (returns_match _ _ (λ _ st, Ok ((false, adapter), st)) Hr (returns_comap snd _ IH) (returns_ret _)).
Qed.

Lemma sub_loop_returns rules :
  Forall (λ r, returns (λ f, Match f r) ∧ (rule_RuleType r = SubRules → returns (λ f, matchSubRules f (rule_Adapter r)))) rules →
  returns (λ f, sub_loop (Match f) (matchSubRules f) rules).
Proof.
  induction 1 as [|r rules [Hr Hsub] _ IH]; cbn [LogicRules.sub_loop]; [apply returns_ret|].
  eapply (returns_match _ (λ f i,
    '((m, a), st) ← (if decide (rule_RuleType r = SubRules) then matchSubRules f (rule_Adapter r) i.2 else Ok ((true, i.1), i.2));
    if (m : bool) && passes helper a st then sub_loop (Match f) (matchSubRules f) rules st else Ok ((m, a), st)) _ Hr); [|exact IH].
  apply (returns_bind (λ f (i : str * St),
    if decide (rule_RuleType r = SubRules) then matchSubRules f (rule_Adapter r) i.2 else Ok ((true, i.1), i.2))
    (λ f (o : outcome), let '((m, a), st) := o in
      if m && passes helper a st then sub_loop (Match f) (matchSubRules f) rules st else Ok ((m, a), st))).
  - destruct (decide _) as [Ht|]; [apply (returns_comap snd _ (Hsub Ht))|apply returns_ret].
  - destruct (returns_if (λ o : outcome, o.1.1 && passes helper o.1.2 o.2) _ _
      (returns_comap (λ o : outcome, o.2) _ IH) (returns_ret id)) as [fuel Hf].
    exists fuel. intros [[m a] st]. apply (Hf ((m, a), st)).
Qed.

Lemma Rule_nested_ind (P : Rule St → Prop) :
  (∀ l, P (RLeaf l)) → (∀ rt payload adapter rules, Forall P rules → P (RLogic rt payload adapter rules)) → ∀ r, P r.
Proof.
  intros Hl Hn. fix IH 1. intros [l|rt payload adapter rules]; [apply Hl|apply Hn].
  induction rules as [|r rules IHr]; constructor; [apply IH|apply IHr].
Qed.

Lemma NOT_returns payload adapter r rules : returns (λ f, Match f r) →
  returns (λ f, Match f (RLogic NOT payload adapter (r :: rules))).
Proof.
  intros Hr. eapply returns_succ; [intros f st; reflexivity|].
  apply (returns_match _ (λ _ i, Ok ((false, []), i.2)) (λ _ st, Ok ((true, adapter), st)) Hr); apply returns_ret.
Qed.

Lemma SubRules_returns payload adapter r rules : returns (λ f, Match f r) → returns (λ f, matchSubRules f adapter) →
  returns (λ f, Match f (RLogic SubRules payload adapter (r :: rules))).
Proof.
  intros Hr Hs. eapply returns_succ; [intros f st; reflexivity|].
  apply (returns_match _ _ (λ _ st, Ok ((false, []), st)) Hr (returns_comap snd _ Hs)); apply returns_ret.
Qed.

Lemma plain_returns r : plain r = true → returns (λ f, Match f r).
Proof.
  induction r as [l|rt payload adapter rules IH] using Rule_nested_ind; intros Hp.
  { eapply returns_succ; [intros f st; reflexivity|apply (returns_ret (leaf_Match l helper))]. }
  cbn [plain] in Hp. apply andb_prop in Hp as [[Ht Hn]%andb_prop Hall].
  apply bool_decide_eq_true in Ht. apply negb_true_iff, bool_decide_eq_false in Hn.
  assert (Hr : Forall (λ r, returns (λ f, Match f r)) rules).
  { apply Forall_forall. intros r Hr. rewrite Forall_forall in IH. apply IH; [done|].
    by apply (proj1 (forallb_forall _ _) Hall), list_elem_of_In. }
  destruct rt; try done; try (eapply returns_succ; [intros f st; reflexivity|
    first [by apply and_loop_returns|by apply or_loop_returns|by apply (returns_ret (λ st, ((false, []), st)))]]).
  destruct rules as [|r rules]; [by exfalso; apply Hn|]. apply NOT_returns. by apply Forall_inv in Hr.
Qed.

Lemma well_built_returns r : well_built r = true →
  (rule_RuleType r = SubRules → returns (λ f, matchSubRules f (rule_Adapter r))) → returns (λ f, Match f r).
Proof.
  destruct r as [l|rt payload adapter rules]; [by intros; apply plain_returns|].
  destruct (decide (rt = SubRules)) as [->|Hrt].
  - cbn [well_built]. intros [Hn Hp]%andb_prop Hs. destruct rules as [|r rules]; [done|].
    cbn in Hp. apply andb_prop in Hp as [Hp _]. apply SubRules_returns; [by apply plain_returns|by apply Hs].
  - intros Hb _. apply plain_returns. by destruct rt.
Qed.

Lemma matchSubRules_returns n : Forall (λ r, well_built r = true) (default [] (subRules !! n)) →
  (∀ m, refers subRules n m → returns (λ f, matchSubRules f m)) → returns (λ f, matchSubRules f n).
Proof.
  intros Hb Hm. eapply returns_succ; [intros f st; reflexivity|]. apply sub_loop_returns, Forall_forall.
  intros r Hr. rewrite Forall_forall in Hb.
  assert (Hs : rule_RuleType r = SubRules → returns (λ f, matchSubRules f (rule_Adapter r))).
  { intros Ht. apply Hm, refers_default. eauto. }
  split; [|done]. apply well_built_returns; auto.
Qed.

Definition all_well_built : Prop := ∀ n rules, subRules !! n = Some rules → Forall (λ r, well_built r = true) rules.

Lemma verified_returns fuel : all_well_built → ∀ n arr,
  verifySubRuleCircularReferences subRules fuel n arr = Ok tt → returns (λ f, matchSubRules f n).
Proof.
  intros Hb. induction fuel as [|fuel IH]; intros n arr Hv; [done|].
  rewrite verify_ok in Hv. apply matchSubRules_returns.
  - destruct (subRules !! n) eqn:E; [by eapply Hb|by constructor].
  - intros m (_ & _ & Hm)%Hv. by eapply IH.
Qed.

Lemma wellbuilt_returns r :
  verifySubRule subRules = Ok tt → all_well_built → well_built r = true →
  ∃ fuel, ∀ st, ∃ out, ∀ f, (fuel ≤ f)%nat → Match f r st = Ok out.
Proof.
  intros Hv Hb Hr. apply (well_built_returns r Hr). intros _. rewrite verifySubRule_ok in Hv.
  destruct (subRules !! rule_Adapter r) as [rules|] eqn:E.
  - eapply (verified_returns _ Hb), Hv. by rewrite E.
  - apply matchSubRules_returns; [by rewrite E|]. intros m (rules & r' & E' & _). congruence.
Qed.

(** C31: evaluation against a configuration that [verifySubRule] accepted always
    returns: for a rule the constructors can build, over sub-rules they can
    build, some depth of recursion is enough for every connection, whatever the
    other rules answer, and the result is the same at every larger depth. *)
Theorem Match_returns r :
  verifySubRule subRules = Ok tt → all_well_built → well_built r = true →
  ∃ fuel, ∀ st, ∃ out, ∀ f, (fuel ≤ f)%nat → Match f r st = Ok out.
Proof. apply wellbuilt_returns. Qed.
End termination.

(** ** Binding *)

Section binding.
Context {St : Type} `{RuleLeaf St} (subRules : gmap str (list (Rule St))).
Abbreviation BindRuleProviders := (BindRuleProviders subRules).

Definition binds (bind : nat → result (list Leaf)) : Prop := ∃ fuel l, ∀ f, (fuel ≤ f)%nat → bind f = Ok l.

Lemma bind_each_binds rules : Forall (λ r, binds (λ f, BindRuleProviders f r)) rules →
  binds (λ f, bind_each (BindRuleProviders f) rules).
Proof.
  induction 1 as [|r rules (f1 & l1 & H1) _ (f2 & l2 & H2)]; [by exists 0, []|].
  exists (f1 `max` f2), (l1 ++ l2). intros f ?. cbn [bind_each]. rewrite H1, H2 by lia. done.
Qed.

Lemma plain_binds r : plain r = true → binds (λ f, BindRuleProviders f r).
Proof.
  induction r as [l|rt payload adapter rules IH] using Rule_nested_ind; intros Hp.
  { exists 1, [l]. intros [|f] ?; [lia|done]. }
  cbn [plain] in Hp. apply andb_prop in Hp as [[Ht _]%andb_prop Hall]. apply bool_decide_eq_true in Ht.
  destruct (bind_each_binds rules) as (fuel & l & Hl).
  { apply Forall_forall. intros r Hr. rewrite Forall_forall in IH. apply IH; [done|].
    by apply (proj1 (forallb_forall _ _) Hall), list_elem_of_In. }
  exists (S fuel), (l ++ []). intros [|f] ?; [lia|]. cbn [LogicRules.BindRuleProviders].
  rewrite Hl, decide_False by (done || lia). done.
Qed.

(** Running out of depth is the only failure. *)
Definition ok_or_deep {A} (m : result A) : Prop := m = out_of_fuel ∨ ∃ a, m = Ok a.

Lemma bind_each_ok_or_deep bind (rules : list (Rule St)) :
  (∀ r, ok_or_deep (bind r)) → ok_or_deep (bind_each bind rules).
Proof.
  intros Hb. induction rules as [|r rules IH]; cbn [bind_each]; [right; eauto|].
  destruct (Hb r) as [-> | [l ->]]; [by left|]. cbn [mbind result_bind].
  destruct IH as [-> | [l' ->]]; [by left|right; eauto].
Qed.

Lemma bind_each_deep bind (rules : list (Rule St)) r : (∀ r, ok_or_deep (bind r)) →
  r ∈ rules → bind r = out_of_fuel → bind_each bind rules = out_of_fuel.
Proof.
  intros Hb Hr Hd. induction rules as [|r' rules IH]; [by apply not_elem_of_nil in Hr|]. cbn [bind_each].
  apply elem_of_cons in Hr as [<-|Hr]; [by rewrite Hd|].
  destruct (Hb r') as [-> | [l ->]]; [done|]. cbn [mbind result_bind]. by rewrite IH by done.
Qed.

Lemma Bind_ok_or_deep fuel : ∀ r, ok_or_deep (BindRuleProviders fuel r).
Proof.
  induction fuel as [|fuel IH]; intros r; [by left|]. destruct r as [l|rt payload adapter rules]; [right; by eexists|].
  cbn [LogicRules.BindRuleProviders]. destruct (bind_each_ok_or_deep _ rules IH) as [-> | [l ->]]; [by left|].
  destruct (decide (rt = SubRules)); [|right; by eexists]. cbn [mbind result_bind].
  destruct (bind_each_ok_or_deep _ (concat (map_to_list subRules).*2) IH) as [-> | [l' ->]]; [by left|right; by eexists].
Qed.

Lemma elem_of_lists r : r ∈ concat (map_to_list subRules).*2 ↔ ∃ n rules, subRules !! n = Some rules ∧ r ∈ rules.
Proof.
  rewrite list_elem_of_In, in_concat. split.
  - intros (rules & Hr%list_elem_of_In & Hin%list_elem_of_In). apply list_elem_of_fmap in Hr as ([n rules'] & -> & Hk).
    apply elem_of_map_to_list in Hk. eauto.
  - intros (n & rules & Hn & Hr). exists rules. split; apply list_elem_of_In; [|done].
    apply list_elem_of_fmap. exists (n, rules). by rewrite elem_of_map_to_list.
Qed.

Lemma Bind_deep n m payload adapter rules fuel : all_well_built subRules → refers subRules n m →
  BindRuleProviders fuel (RLogic SubRules payload adapter rules) = out_of_fuel.
Proof.
  intros Hb (rs & r & Hn & Hr & Ht & _). revert payload adapter rules.
  induction fuel as [|fuel IH]; intros payload adapter rules; [done|]. cbn [LogicRules.BindRuleProviders].
  destruct (bind_each_ok_or_deep _ rules (Bind_ok_or_deep fuel)) as [-> | [l ->]]; [done|].
  cbn [mbind result_bind]. rewrite decide_True by done.
  rewrite (bind_each_deep _ _ r (Bind_ok_or_deep fuel)); [done|apply elem_of_lists; eauto|].
  destruct r as [l'|rt p a rs']; [|cbn in Ht; subst; apply IH].
  specialize (Hb _ _ Hn). rewrite Forall_forall in Hb. specialize (Hb _ Hr). cbn in *. by case_bool_decide.
Qed.

(** Binding a SUB-RULE rule to the rule providers returns exactly when no
    sub-rule list holds a SUB-RULE rule itself: every SUB-RULE rule goes through
    all lists of the shared map, so one inside the map meets itself again and
    the recursion never ends, also for a map [verifySubRule] accepts. *)
Theorem BindRuleProviders_returns payload adapter rules :
  all_well_built subRules → well_built (RLogic SubRules payload adapter rules) = true →
  ((∃ n m, refers subRules n m) → ∀ fuel, BindRuleProviders fuel (RLogic SubRules payload adapter rules) = out_of_fuel) ∧
  ((∀ n m, ¬ refers subRules n m) →
    ∃ fuel l, ∀ f, (fuel ≤ f)%nat → BindRuleProviders f (RLogic SubRules payload adapter rules) = Ok l).
Proof.
  intros Hb Hr. split; [intros (n & m & Href) fuel; by eapply Bind_deep|]. intros Hno.
  cbn in Hr. apply andb_prop in Hr as [_ Hall].
  destruct (bind_each_binds rules) as (f1 & l1 & H1).
  { apply Forall_forall. intros r Hr. apply plain_binds, (proj1 (forallb_forall _ _) Hall). by apply list_elem_of_In. }
  destruct (bind_each_binds (concat (map_to_list subRules).*2)) as (f2 & l2 & H2).
  { apply Forall_forall. intros r (n & rs & Hn & Hr)%elem_of_lists. apply plain_binds.
    specialize (Hb _ _ Hn). rewrite Forall_forall in Hb. specialize (Hb _ Hr).
    destruct r as [l|[] p a rs']; try done. exfalso. apply (Hno n a). by exists rs, (RLogic SubRules p a rs'). }
  exists (S (f1 `max` f2)), (l1 ++ l2). intros [|f] ?; [lia|]. cbn [LogicRules.BindRuleProviders].
  rewrite H1 by lia. cbn [mbind result_bind]. rewrite decide_True, H2 by (done || lia). done.
Qed.
End binding.

(** ** Instances *)

(** [((A,x),((B)),C)]: the parts are [A,x] and [(B)]. *)
Example subPayloads_example :
  @subPayloads merge_sort_slice (lit "((A,x),((B)),C)") = Ok [lit "A,x"; lit "(B)"].
Proof. vm_compute. reflexivity. Qed.

(** Rules that always answer [b] with the target [a]. *)
Definition const_leaf : RuleLeaf unit := {|
  Leaf := bool * str;
  leaf_RuleType := λ _, Domain;
  leaf_Match := λ l _ st, (l, st);
  leaf_Adapter := snd;
  leaf_Payload := λ _, [];
  leaf_ProviderNames := λ _, [];
  leaf_safe := λ _, None
|}.
#[local] Existing Instance const_leaf.

Definition no_helper : RuleMatchHelper unit := MkHelper None None None.
Definition always (b : bool) (a : str) : Rule unit := RLeaf (b, a).

(** The list [a] continues with [b] for some connections. *)
Definition two_lists : gmap str (list (Rule unit)) :=
  {[ lit "a" := [RLogic SubRules [] (lit "b") [always true []]];
     lit "b" := [always true (lit "DIRECT")] ]}.
Definition to_a : Rule unit := RLogic SubRules [] (lit "a") [always true []].

Lemma two_lists_well_built : all_well_built two_lists.
Proof.
  intros n rules Hn. unfold two_lists in Hn.
  apply lookup_insert_Some in Hn as [[_ <-]|[_ Hn]]; [by repeat constructor|].
  apply lookup_singleton_Some in Hn as [_ <-]. by repeat constructor.
Qed.

Lemma Match_returns_witness :
  Match no_helper two_lists 9 to_a () = Ok ((true, lit "DIRECT"), ()) ∧
  ∃ fuel, ∀ st, ∃ out, ∀ f, (fuel ≤ f)%nat → Match no_helper two_lists f to_a st = Ok out.
Proof.
  split; [vm_compute; reflexivity|].
  apply (Match_returns no_helper two_lists to_a); [vm_compute; reflexivity|exact two_lists_well_built|reflexivity].
Defined.

Lemma BindRuleProviders_returns_witness :
  verifySubRule two_lists = Ok tt ∧ ∀ fuel, BindRuleProviders two_lists fuel to_a = out_of_fuel.
Proof.
  split; [vm_compute; reflexivity|].
  apply (BindRuleProviders_returns two_lists [] (lit "a") [always true []]);
    [exact two_lists_well_built|reflexivity|].
  exists (lit "a"), (lit "b"). do 2 eexists. split_and!; [vm_compute; reflexivity|left|reflexivity|reflexivity].
Defined.
