(* ===== verification/Rules.v ===== *)
(** * Rules: the rules that match one property of a connection

    The rules of [src/rules/common]: domains, addresses, ports, inbound, user,
    network, process and the final rule, with their constructors and [Match];
    [ParseRule] of [src/rules/parser.go], which builds every rule, the logical
    ones of [LogicRules] included; and [RuleWrapper] of
    [src/rules/wrapper/wrapper.go].

    [RuleEnv] has what is not in these files: Unicode's case tables (the ASCII
    cases are written out), the text form of prefixes, the regular expression
    engines, the platform, and the four kinds of rules that read the geo
    databases or a rule provider. Errors carry the constant text of the message. *)
From S2P Require Import Prelude GoStrings Bytes NetIP Metadata Ranges Wildcard LogicRules.

(** The state of one evaluation: the metadata and which look-ups were done
    ([ruleMatchContext] of [src/tunnel/tunnel.go]). *)
Record ruleMatchContext := MkContext { metadata : Metadata; resolved : bool; attemptProcessLookup : bool }.
Abbreviation Helper := (RuleMatchHelper ruleMatchContext).

Class RuleEnv := {
  unicode_lower : str → str;
  unicode_upper : str → str;
  unicode_fold : str → str → bool;          (* strings.EqualFold beyond ASCII *)
  ParsePrefix : str → option Prefix;
  prefix_string : Prefix → str;
  regexp2_compile : str → option (str → bool);   (* IgnoreCase; the match function *)
  regexp_compile : str → option (str → bool);
  goos_linux : bool;                        (* GOOS is linux or android *)
  Other : Type;                             (* GEOSITE, GEOIP, IPASN, RULE-SET *)
  other_RuleType : Other → RuleType;
  other_Match : Other → Helper → ruleMatchContext → (bool * str) * ruleMatchContext;
  other_Adapter : Other → str;
  other_Payload : Other → str;
  other_ProviderNames : Other → list str;
  other_safe : Other → option bool;
  NewGEOSITE : str → str → result Other;
  NewGEOIP : str → str → bool → bool → result Other;
  NewIPASN : str → str → bool → bool → result Other;
  NewRuleSet : str → str → bool → bool → result Other
}.

(** What is documented of them: a prefix is valid and has no zone; the rules of
    the other kinds say so. *)
Class RuleEnvLaws `{RuleEnv} := {
  ParsePrefix_valid : ∀ s p, ParsePrefix s = Some p →
    prefix_valid p = true ∧ addr_zone (p_addr p) = [] ∧ wf_addr (p_addr p);
  other_kind : ∀ o, other_RuleType o ∈ [GEOSITE; GEOIP; SrcGEOIP; IPASN; SrcIPASN; RuleSet]
}.

Section rules.
Context `{RuleEnv}.

(** ** Host names *)

Abbreviation ToLower := (ToLower unicode_lower).
Abbreviation ToUpper := (ToUpper unicode_upper).
Definition EqualFold (s t : str) : bool :=
  if is_ascii s && is_ascii t then bool_decide (lower_byte <$> s = lower_byte <$> t) else unicode_fold s t.

Definition isASCIILower (s : str) : bool := forallb (λ c, negb ((128 <=? byteZ c)%Z || in_z 65 90 (byteZ c))) s.
Definition isASCII (s : str) : bool := forallb (λ c, negb (128 <=? byteZ c)%Z) s.

Definition matchDomainExact (host domain : str) : bool := bool_decide (host = domain) || EqualFold host domain.

Definition dot : ascii := ascii_of_N 46.
Definition hasDotLabelSuffix (host suffix : str) : bool :=
  let n := length suffix in
  if decide (host = suffix) then true
  else (n <? length host)%nat && bool_decide (host !! (length host - n - 1)%nat = Some dot)
       && bool_decide (drop (length host - n) host = suffix).

Definition matchDomainSuffix (host suffix : str) : bool :=
  let n := length suffix in
  if hasDotLabelSuffix host suffix then true
  else if isASCIILower host then false
  else if negb (isASCII host) || negb (isASCII suffix) then hasDotLabelSuffix (ToLower host) suffix
  else if EqualFold host suffix then true
  else (n <? length host)%nat && bool_decide (host !! (length host - n - 1)%nat = Some dot)
       && EqualFold (drop (length host - n) host) suffix.

Definition matchDomainKeyword (host keyword : str) : bool :=
  let n := length keyword in
  if decide (keyword = []) then true
  else if str_contains host keyword then true
  else if isASCIILower host then false
  else if negb (isASCII host) || negb (isASCII keyword) then str_contains (ToLower host) keyword
  else if (length host <? n)%nat then false
  else existsb (λ i, EqualFold (slice host i (i + n)) keyword) (seq 0 (length host - n + 1)).

Definition asciiLowerOnce (s : str) : str := if isASCIILower s then s else ToLower s.

(** ** Regular expressions *)

Record compiledRegex := MkRegex { re_pattern : str; re_fast : option (str → bool); re_slow : option (str → bool) }.

Definition backslash : ascii := ascii_of_N 92.
Definition escapable : str := lit ".*+?()[]{}|^$\".

(** The scan of [stdlibIgnoreCasePattern]: whether the pattern is in the common
    subset. *)
Fixpoint std_pattern_ok (p : str) : bool :=
  match p with
  | [] => true
  | c :: p =>
    if decide (c = backslash) then
      match p with d :: p' => bool_decide (d ∈ escapable) && std_pattern_ok p' | [] => false end
    else if decide (c = lparen) then
      negb (bool_decide (head p = Some "?"%char)) && std_pattern_ok p
    else if decide (c = "["%char) then false
    else std_pattern_ok p
  end.
Definition stdlibIgnoreCasePattern (pattern : str) : option str :=
  if std_pattern_ok pattern then Some (lit "(?i:" ++ pattern ++ lit ")") else None.

Definition compileIgnoreCaseRegex (pattern : str) : result compiledRegex :=
  match regexp2_compile pattern with
  | None => Err "regexp2"
  | Some slow =>
    match stdlibIgnoreCasePattern pattern ≫= regexp_compile with
    | Some fast => Ok (MkRegex pattern (Some fast) None)
    | None => Ok (MkRegex pattern None (Some slow))
    end
  end.

(** [ok, _ := c.slow.MatchString(s)]: an error of the slow engine is no match. *)
Definition regex_Match (c : compiledRegex) (s : str) : bool :=
  match re_fast c, re_slow c with
  | Some fast, _ => fast s
  | None, Some slow => slow s
  | None, None => false
  end.

(** ** The rules *)

Inductive CommonRule :=
| RDomain (domain adapter : str)
| RDomainSuffix (suffix adapter : str)
| RDomainKeyword (keyword adapter : str)
| RDomainRegex (regex : compiledRegex) (adapter : str)
| RDomainWildcard (pattern adapter : str)
| RPort (adapter port : str) (ruleType : RuleType) (portRanges : list Ranges.Range)
| RDSCP (ranges : list Ranges.Range) (payload adapter : str)
| RIPCIDR (ipnet : Prefix) (adapter : str) (isSourceIP noResolveIP : bool)
| RIPSuffix (ipBytes : str) (bits : Z) (payload adapter : str) (isSourceIP noResolveIP : bool)
| RInName (names : list str) (adapter payload : str)
| RInUser (users : list str) (adapter payload : str)
| RInType (types : list ConnType) (adapter payload : str)
| RRematchName (names : list str) (adapter payload : str)
| RNetworkType (network : NetWork) (adapter : str)
| RUid (uids : list Ranges.Range) (oUid adapter : str)
| RProcess (pattern lowerPattern adapter : str) (ruleType : RuleType) (regexp : option compiledRegex)
| RMatch (adapter : str)
| ROther (o : Other).

Definition common_RuleType (r : CommonRule) : RuleType :=
  match r with
  | RDomain _ _ => Domain
  | RDomainSuffix _ _ => DomainSuffix
  | RDomainKeyword _ _ => DomainKeyword
  | RDomainRegex _ _ => DomainRegex
  | RDomainWildcard _ _ => DomainWildcard
  | RPort _ _ ruleType _ => ruleType
  | RDSCP _ _ _ => DSCP
  | RIPCIDR _ _ isSourceIP _ => if isSourceIP then SrcIPCIDR else IPCIDR
  | RIPSuffix _ _ _ _ isSourceIP _ => if isSourceIP then SrcIPSuffix else IPSuffix
  | RInName _ _ _ => InName
  | RInUser _ _ _ => InUser
  | RInType _ _ _ => InType
  | RRematchName _ _ _ => RematchName
  | RNetworkType _ _ => Network
  | RUid _ _ _ => Uid
  | RProcess _ _ _ ruleType _ => ruleType
  | RMatch _ => MATCH
  | ROther o => other_RuleType o
  end.

Definition common_Adapter (r : CommonRule) : str :=
  match r with
  | RDomain _ a | RDomainSuffix _ a | RDomainKeyword _ a | RDomainRegex _ a | RDomainWildcard _ a
  | RPort a _ _ _ | RDSCP _ _ a | RIPCIDR _ a _ _ | RIPSuffix _ _ _ a _ _ | RInName _ a _ | RInUser _ a _
  | RInType _ a _ | RRematchName _ a _ | RNetworkType _ a | RUid _ _ a | RProcess _ _ a _ _ | RMatch a => a
  | ROther o => other_Adapter o
  end.

Definition common_Payload (r : CommonRule) : str :=
  match r with
  | RDomain p _ | RDomainSuffix p _ | RDomainKeyword p _ | RDomainWildcard p _
  | RPort _ p _ _ | RDSCP _ p _ | RIPSuffix _ _ p _ _ _ | RInName _ _ p | RInUser _ _ p
  | RInType _ _ p | RRematchName _ _ p | RUid _ p _ | RProcess p _ _ _ _ => p
  | RDomainRegex c _ => re_pattern c
  | RIPCIDR ipnet _ _ _ => prefix_string ipnet
  | RNetworkType network _ => lit (NetWork_String network)
  | RMatch _ => []
  | ROther o => other_Payload o
  end.

(** ** Matching *)

(** [helper.ResolveIP()] and [helper.FindProcess()], where present. *)
Definition call (f : option (ruleMatchContext → ruleMatchContext)) (st : ruleMatchContext) : ruleMatchContext :=
  match f with Some f => f st | None => st end.

(** [wildcard.Match] as a condition; it always returns ([Wildcard]). *)
Definition wildcard_Match (pattern s : str) : bool := default false (Wildcard.Match pattern s).

(** The bytes from the end: [bits/8] whole ones, then the low bits of the one
    before. [bits] is at most eight times the length, so the indices are in
    range. *)
Definition byte_at (s : str) (i : nat) : Z := byteZ (default zero (s !! i)).
Definition ip_suffix_Match (ipBytes : str) (bits : Z) (mIPBytes : str) : bool :=
  let size := length mIPBytes in
  let whole := Z.to_nat (bits / 8) in
  if negb (length ipBytes =? size)%nat then false
  else if existsb (λ i, negb (byte_at ipBytes (size - i) =? byte_at mIPBytes (size - i))%Z) (rev (seq 1 whole)) then false
  else if negb (bits mod 8 =? 0)%Z
          && negb (wrap uint8 (Z.shiftl (byte_at ipBytes (size - whole - 1)) (8 - bits mod 8))
                   =? wrap uint8 (Z.shiftl (byte_at mIPBytes (size - whole - 1)) (8 - bits mod 8)))%Z then false
  else true.

(** A match answers with the adapter; some rules answer without when they do
    not match. *)
Definition or_empty (b : bool) (adapter : str) : bool * str := if b then (true, adapter) else (false, []).

(** *** [Match] of each kind *)

Abbreviation answer := ((bool * str) * ruleMatchContext)%type.

Definition Domain_Match (domain a : str) (st : ruleMatchContext) : answer :=
  ((matchDomainExact (RuleHost (metadata st)) domain, a), st).
Definition DomainSuffix_Match (suffix a : str) (st : ruleMatchContext) : answer :=
  ((matchDomainSuffix (RuleHost (metadata st)) suffix, a), st).
Definition DomainKeyword_Match (keyword a : str) (st : ruleMatchContext) : answer :=
  ((matchDomainKeyword (RuleHost (metadata st)) keyword, a), st).
Definition DomainRegex_Match (regex : compiledRegex) (a : str) (st : ruleMatchContext) : answer :=
  ((regex_Match regex (RuleHost (metadata st)), a), st).
Definition DomainWildcard_Match (pattern a : str) (st : ruleMatchContext) : answer :=
  ((wildcard_Match pattern (asciiLowerOnce (RuleHost (metadata st))), a), st).
Definition Port_Match (a : str) (ruleType : RuleType) (portRanges : list Ranges.Range) (st : ruleMatchContext) : answer :=
  let targetPort := match ruleType with
                    | InPort => m_InPort (metadata st)
                    | SrcPort => m_SrcPort (metadata st)
                    | _ => m_DstPort (metadata st)
                    end in
  ((IntRanges_Check portRanges targetPort, a), st).
Definition DSCP_Match (ranges : list Ranges.Range) (a : str) (st : ruleMatchContext) : answer :=
  ((IntRanges_Check ranges (m_DSCP (metadata st)), a), st).
Definition IPCIDR_Match (ipnet : Prefix) (a : str) (isSourceIP noResolveIP : bool) (helper : Helper) (st : ruleMatchContext) : answer :=
  let st := if negb noResolveIP && negb isSourceIP then call (ResolveIP helper) st else st in
  let ip := if isSourceIP then m_SrcIP (metadata st) else m_DstIP (metadata st) in
  ((IsValid ip && prefix_contains ipnet (without_zone ip), a), st).
Definition IPSuffix_Match (ipBytes : str) (bits : Z) (a : str) (isSourceIP noResolveIP : bool) (helper : Helper)
    (st : ruleMatchContext) : answer :=
  let st := if negb noResolveIP && negb isSourceIP then call (ResolveIP helper) st else st in
  let ip := if isSourceIP then m_SrcIP (metadata st) else m_DstIP (metadata st) in
  (or_empty (ip_suffix_Match ipBytes bits (AsSlice ip)) a, st).
Definition InName_Match (names : list str) (a : str) (st : ruleMatchContext) : answer :=
  (or_empty (bool_decide (m_InName (metadata st) ∈ names)) a, st).
Definition InUser_Match (users : list str) (a : str) (st : ruleMatchContext) : answer :=
  (or_empty (bool_decide (m_InUser (metadata st) ∈ users)) a, st).
Definition InType_Match (types : list ConnType) (a : str) (st : ruleMatchContext) : answer :=
  (or_empty (bool_decide (m_Type (metadata st) ∈ types)) a, st).
Definition RematchName_Match (names : list str) (a : str) (st : ruleMatchContext) : answer :=
  (or_empty (bool_decide (m_RematchName (metadata st) ∈ names)) a, st).
Definition NetworkType_Match (network : NetWork) (a : str) (st : ruleMatchContext) : answer :=
  ((bool_decide (network = m_NetWork (metadata st)), a), st).
Definition Uid_Match (uids : list Ranges.Range) (a : str) (helper : Helper) (st : ruleMatchContext) : answer :=
  let st := call (FindProcess helper) st in
  (or_empty (negb (m_Uid (metadata st) =? 0)%Z && IntRanges_Check uids (m_Uid (metadata st))) a, st).
Definition Process_Match (pattern lowerPattern a : str) (ruleType : RuleType) (regexp : option compiledRegex)
    (helper : Helper) (st : ruleMatchContext) : answer :=
  let st := call (FindProcess helper) st in
  let target := match ruleType with
                | ProcessName | ProcessNameRegex | ProcessNameWildcard => m_Process (metadata st)
                | _ => m_ProcessPath (metadata st)
                end in
  let m := match ruleType with
           | ProcessNameRegex | ProcessPathRegex => match regexp with Some c => regex_Match c target | None => false end
           | ProcessNameWildcard | ProcessPathWildcard => wildcard_Match lowerPattern (asciiLowerOnce target)
           | _ => bool_decide (target = pattern) || EqualFold target pattern
           end in
  ((m, a), st).
Definition Match_Match (a : str) (st : ruleMatchContext) : answer := ((true, a), st).

Definition common_Match (r : CommonRule) (helper : Helper) (st : ruleMatchContext) : answer :=
  match r with
  | RDomain domain a => Domain_Match domain a st
  | RDomainSuffix suffix a => DomainSuffix_Match suffix a st
  | RDomainKeyword keyword a => DomainKeyword_Match keyword a st
  | RDomainRegex regex a => DomainRegex_Match regex a st
  | RDomainWildcard pattern a => DomainWildcard_Match pattern a st
  | RPort a _ ruleType portRanges => Port_Match a ruleType portRanges st
  | RDSCP ranges _ a => DSCP_Match ranges a st
  | RIPCIDR ipnet a isSourceIP noResolveIP => IPCIDR_Match ipnet a isSourceIP noResolveIP helper st
  | RIPSuffix ipBytes bits _ a isSourceIP noResolveIP => IPSuffix_Match ipBytes bits a isSourceIP noResolveIP helper st
  | RInName names a _ => InName_Match names a st
  | RInUser users a _ => InUser_Match users a st
  | RInType types a _ => InType_Match types a st
  | RRematchName names a _ => RematchName_Match names a st
  | RNetworkType network a => NetworkType_Match network a st
  | RUid uids _ a => Uid_Match uids a helper st
  | RProcess pattern lowerPattern a ruleType regexp => Process_Match pattern lowerPattern a ruleType regexp helper st
  | RMatch a => Match_Match a st
  | ROther o => other_Match o helper st
  end.

#[export] Instance common_leaf : RuleLeaf ruleMatchContext := {|
  Leaf := CommonRule;
  leaf_RuleType := common_RuleType;
  leaf_Match := common_Match;
  leaf_Adapter := common_Adapter;
  leaf_Payload := common_Payload;
  leaf_ProviderNames := λ r, match r with ROther o => other_ProviderNames o | _ => [] end;
  leaf_safe := λ r, match r with ROther o => other_safe o | _ => None end
|}.

(** ** Constructors *)

Abbreviation errPayload := (Err "payloadRule error").

Definition NewDomain (domain adapter : str) : CommonRule := RDomain (ToLower domain) adapter.
Definition NewDomainSuffix (suffix adapter : str) : CommonRule := RDomainSuffix (ToLower suffix) adapter.
Definition NewDomainKeyword (keyword adapter : str) : CommonRule := RDomainKeyword (ToLower keyword) adapter.
Definition NewDomainRegex (regex adapter : str) : result CommonRule :=
  r ← compileIgnoreCaseRegex regex; Ok (RDomainRegex r adapter).
Definition NewDomainWildcard (pattern adapter : str) : result CommonRule := Ok (RDomainWildcard (ToLower pattern) adapter).

Definition NewPort (port adapter : str) (ruleType : RuleType) : result CommonRule :=
  match NewUnsignedRanges uint16 port with
  | Ok portRanges => if decide (portRanges = []) then errPayload else Ok (RPort adapter port ruleType portRanges)
  | Err _ => errPayload
  | Panic => Panic
  end.

Definition NewDSCP (dscp adapter : str) : result CommonRule :=
  ranges ← match NewUnsignedRanges uint8 dscp with Err _ => Err "parse DSCP rule fail" | r => r end;
  if existsb (λ r, 63 <? r_end r)%Z ranges then Err "DSCP couldn't be negative or exceed 63"
  else Ok (RDSCP ranges dscp adapter).

Definition NewIPCIDR (s adapter : str) (isSourceIP noResolveIP : bool) : result CommonRule :=
  match ParsePrefix s with None => errPayload | Some ipnet => Ok (RIPCIDR ipnet adapter isSourceIP noResolveIP) end.
Definition NewIPSuffix (payload adapter : str) (isSrc noResolveIP : bool) : result CommonRule :=
  match ParsePrefix payload with
  | None => errPayload
  | Some ipnet => Ok (RIPSuffix (AsSlice (p_addr ipnet)) (p_bits ipnet) payload adapter isSrc noResolveIP)
  end.

(** The parts between slashes, trimmed and not empty. *)
Definition slash : ascii := ascii_of_N 47.
Definition split_names (empty : string) (s : str) : result (list str) :=
  let names := trim_space <$> split_on slash s in
  if decide ([] ∈ names) then Err empty else Ok names.

Definition NewInName (iNames adapter : str) : result CommonRule :=
  names ← split_names "in name couldn't be empty" iNames; Ok (RInName names adapter iNames).
Definition NewInUser (iUsers adapter : str) : result CommonRule :=
  users ← split_names "in user couldn't be empty" iUsers; Ok (RInUser users adapter iUsers).
Definition NewRematchName (iNames adapter : str) : result CommonRule :=
  names ← split_names "rematch name couldn't be empty" iNames; Ok (RRematchName names adapter iNames).

Fixpoint parseInTypes (tps : list str) : result (list ConnType) :=
  match tps with
  | [] => Ok []
  | tp :: tps =>
    let utp := ToUpper tp in
    r ← (if decide (utp = lit "SOCKS") then Ok [SOCKS4; SOCKS5] else t ← ParseType utp; Ok [t]);
    res ← parseInTypes tps; Ok (r ++ res)
  end.
Definition NewInType (iTypes adapter : str) : result CommonRule :=
  types ← split_names "in type couldn't be empty" iTypes;
  tps ← parseInTypes types; Ok (RInType tps adapter (ToUpper iTypes)).

Definition NewNetworkType (network adapter : str) : result CommonRule :=
  if decide (ToUpper network = lit "TCP") then Ok (RNetworkType TCP adapter)
  else if decide (ToUpper network = lit "UDP") then Ok (RNetworkType UDP adapter)
  else Err "unsupported network type, only TCP/UDP".

Definition NewUid (oUid adapter : str) : result CommonRule :=
  if negb goos_linux then Err "uid rule not support this platform"
  else match NewUnsignedRanges uint32 oUid with
  | Ok uidRange => if decide (uidRange = []) then errPayload else Ok (RUid uidRange oUid adapter)
  | Err _ => errPayload
  | Panic => Panic
  end.

Definition NewProcess (pattern adapter : str) (ruleType : RuleType) : result CommonRule :=
  match ruleType with
  | ProcessNameRegex | ProcessPathRegex =>
    r ← compileIgnoreCaseRegex pattern; Ok (RProcess pattern [] adapter ruleType (Some r))
  | ProcessNameWildcard | ProcessPathWildcard => Ok (RProcess pattern (ToLower pattern) adapter ruleType None)
  | _ => Ok (RProcess pattern [] adapter ruleType None)
  end.

(** ** Parsing *)

(** Whether the source address is meant, and whether to skip resolving. *)
Definition ParseParams (params : list str) : bool * bool :=
  let isSrc := bool_decide (lit "src" ∈ params) in
  (isSrc, if isSrc then true else bool_decide (lit "no-resolve" ∈ params)).

Context `{SortSlice}.
Abbreviation Rule := (Rule ruleMatchContext).
Definition common (r : CommonRule) : Rule := RLeaf r.
Definition leaf (r : result CommonRule) : result Rule := common <$> r.
Definition other (r : result Other) : result Rule := (λ o, common (ROther o)) <$> r.

Inductive rule_tag :=
| TDomain | TDomainSuffix | TDomainKeyword | TDomainRegex | TDomainWildcard | TGeosite | TGeoip | TSrcGeoip | TIpAsn
| TSrcIpAsn | TIpCidr | TSrcIpCidr | TIpSuffix | TSrcIpSuffix | TPort (t : RuleType) | TDscp | TProcess (t : RuleType)
| TNetwork | TUid | TInType | TInUser | TInName | TRematchName | TSubRule | TAnd | TOr | TNot | TRuleSet | TMatch.

(** The cases of the [switch] of [ParseRule]. *)
Definition rule_tags : list (string * rule_tag) :=
  [("DOMAIN", TDomain); ("DOMAIN-SUFFIX", TDomainSuffix); ("DOMAIN-KEYWORD", TDomainKeyword);
   ("DOMAIN-REGEX", TDomainRegex); ("DOMAIN-WILDCARD", TDomainWildcard); ("GEOSITE", TGeosite); ("GEOIP", TGeoip);
   ("SRC-GEOIP", TSrcGeoip); ("IP-ASN", TIpAsn); ("SRC-IP-ASN", TSrcIpAsn); ("IP-CIDR", TIpCidr); ("IP-CIDR6", TIpCidr);
   ("SRC-IP-CIDR", TSrcIpCidr); ("IP-SUFFIX", TIpSuffix); ("SRC-IP-SUFFIX", TSrcIpSuffix); ("SRC-PORT", TPort SrcPort);
   ("DST-PORT", TPort DstPort); ("IN-PORT", TPort InPort); ("DSCP", TDscp); ("PROCESS-NAME", TProcess ProcessName);
   ("PROCESS-PATH", TProcess ProcessPath); ("PROCESS-NAME-REGEX", TProcess ProcessNameRegex);
   ("PROCESS-PATH-REGEX", TProcess ProcessPathRegex); ("PROCESS-NAME-WILDCARD", TProcess ProcessNameWildcard);
   ("PROCESS-PATH-WILDCARD", TProcess ProcessPathWildcard); ("NETWORK", TNetwork); ("UID", TUid); ("IN-TYPE", TInType);
   ("IN-USER", TInUser); ("IN-NAME", TInName); ("REMATCH-NAME", TRematchName); ("SUB-RULE", TSubRule); ("AND", TAnd);
   ("OR", TOr); ("NOT", TNot); ("RULE-SET", TRuleSet); ("MATCH", TMatch)]%string.
Definition rule_tag_of (tp : str) : option rule_tag := snd ∘ snd <$> list_find (λ e, lit e.1 = tp) rule_tags.

(** [ParseRule] calls the logical constructors, which call it on the rules in
    their payload. [subRules] of the source is the shared map a SUB-RULE rule
    keeps; here the map is an argument of the evaluation. Running out of fuel is
    [Panic], which no other case but a panic of the constructors of the other
    kinds gives. *)
Fixpoint ParseRule (fuel : nat) (tp payload target : str) (params : list str) : result Rule :=
  match fuel with
  | 0 => Panic
  | S fuel =>
    if decide (tp ≠ lit "MATCH" ∧ payload = []) then Err "missing subsequent parameters"
    else
      let '(isSrc, noResolve) := ParseParams params in
      match rule_tag_of tp with
      | Some TDomain => Ok (common (NewDomain payload target))
      | Some TDomainSuffix => Ok (common (NewDomainSuffix payload target))
      | Some TDomainKeyword => Ok (common (NewDomainKeyword payload target))
      | Some TDomainRegex => leaf (NewDomainRegex payload target)
      | Some TDomainWildcard => leaf (NewDomainWildcard payload target)
      | Some TGeosite => other (NewGEOSITE payload target)
      | Some TGeoip => other (NewGEOIP payload target isSrc noResolve)
      | Some TSrcGeoip => other (NewGEOIP payload target true true)
      | Some TIpAsn => other (NewIPASN payload target isSrc noResolve)
      | Some TSrcIpAsn => other (NewIPASN payload target true true)
      | Some TIpCidr => leaf (NewIPCIDR payload target isSrc noResolve)
      | Some TSrcIpCidr => leaf (NewIPCIDR payload target true true)
      | Some TIpSuffix => leaf (NewIPSuffix payload target isSrc noResolve)
      | Some TSrcIpSuffix => leaf (NewIPSuffix payload target true true)
      | Some (TPort t) => leaf (NewPort payload target t)
      | Some TDscp => leaf (NewDSCP payload target)
      | Some (TProcess t) => leaf (NewProcess payload target t)
      | Some TNetwork => leaf (NewNetworkType payload target)
      | Some TUid => leaf (NewUid payload target)
      | Some TInType => leaf (NewInType payload target)
      | Some TInUser => leaf (NewInUser payload target)
      | Some TInName => leaf (NewInName payload target)
      | Some TRematchName => leaf (NewRematchName payload target)
      | Some TSubRule => NewSubRule unicode_upper (ParseRule fuel) payload target
      | Some TAnd => NewAND unicode_upper (ParseRule fuel) payload target
      | Some TOr => NewOR unicode_upper (ParseRule fuel) payload target
      | Some TNot => NewNOT unicode_upper (ParseRule fuel) payload target
      | Some TRuleSet => other (NewRuleSet payload target isSrc noResolve)
      | Some TMatch => Ok (common (RMatch target))
      | None => Err "unsupported rule type"
      end
  end.

(** A nested payload is shorter than the one around it. *)
Definition ParseRule_fuel (payload : str) : nat := S (length payload).
Definition parseRule (tp payload target : str) (params : list str) : result Rule :=
  ParseRule (ParseRule_fuel payload) tp payload target params.
End rules.

(** ** Host rules ignore case *)

Section hosts.
Context `{RuleEnv}.
Abbreviation lower := (fmap (M := list) lower_byte).

Lemma lower_byte_dot c : lower_byte c = dot ↔ c = dot.
Proof.
  split; [|by intros ->]. intros Hd. destruct (lower_byte_range c) as [Heq|[E Hb]]; [congruence|].
  rewrite Hd in Hb. unfold in_z in E. zify_bool. change (byteZ dot) with 46%Z in Hb. lia.
Qed.

Lemma isASCII_is_ascii s : isASCII s = is_ascii s.
Proof.
  unfold isASCII, is_ascii. induction s as [|c s IH]; cbn -[Z.leb Z.ltb]; [done|].
  by rewrite IH, <- Z.ltb_antisym.
Qed.

Lemma isASCIILower_lower s : isASCIILower s = true → lower s = s.
Proof.
  induction s as [|c s IH]; cbn -[Z.leb]; [done|]. rewrite andb_true_iff, negb_true_iff, orb_false_iff. intros [[_ Hc] Hs].
  rewrite IH by done. f_equal. unfold lower_byte. by rewrite Hc.
Qed.

Lemma EqualFold_lower s t : is_ascii s = true → is_ascii t = true → EqualFold s (lower t) = bool_decide (lower s = lower t).
Proof. intros Hs Ht. unfold EqualFold. by rewrite Hs, is_ascii_lower, lower_idem. Qed.

Lemma hasDotLabelSuffix_spec h s : hasDotLabelSuffix h s = true ↔ h = s ∨ (dot :: s) `suffix_of` h.
Proof.
  unfold hasDotLabelSuffix. destruct (decide (h = s)) as [->|Hne]; [by split; [left|]|].
  rewrite !andb_true_iff, Nat.ltb_lt, !bool_decide_eq_true. split.
  - intros [[Hn Hd] Hs]. right. exists (take (length h - length s - 1) h).
    rewrite <- (take_drop (length h - length s - 1) h) at 1. f_equal.
    rewrite (drop_S h dot _ Hd). f_equal. rewrite <- Hs at 2. f_equal. lia.
  - intros [->|[p ->]]; [done|]. rewrite length_app. cbn [length]. split_and!; [lia| |].
    + apply list_lookup_middle. lia.
    + replace (length p + S (length s) - length s) with (length (p ++ [dot])) by (rewrite length_app; cbn; lia).
      change (p ++ dot :: s) with (p ++ [dot] ++ s). rewrite app_assoc. apply drop_app_length.
Qed.

Lemma str_contains_spec s sub : str_contains s sub = true ↔ ∃ a b, s = a ++ sub ++ b.
Proof.
  induction s as [|c s IH]; cbn [str_contains]; rewrite orb_true_iff, bool_decide_eq_true.
  - split.
    + intros [[b Hb]|?]; [by exists [], b|done].
    + intros (a & b & Hab). left. exists b. by destruct a.
  - rewrite IH. split.
    + intros [[b Hb]|(a & b & ->)]; [by exists [], b|by exists (c :: a), b].
    + intros ([|x a] & b & Hab); [left; by exists b|right]. injection Hab as -> ->. by exists a, b.
Qed.

Lemma matchDomainExact_spec host p : is_ascii host = true → is_ascii p = true →
  matchDomainExact host (lower p) = true ↔ lower host = lower p.
Proof.
  intros Hh Hp. unfold matchDomainExact. rewrite EqualFold_lower, orb_true_iff, !bool_decide_eq_true by done.
  split; [intros [->|]; [apply lower_idem|done]|by right].
Qed.

(** A dotted suffix of the lowered name comes from one of the name. *)
Lemma lower_suffix host p : (dot :: lower p) `suffix_of` lower host ↔
  ∃ a b, host = a ++ dot :: b ∧ lower b = lower p.
Proof.
  split.
  - intros [k Hk]. apply fmap_app_inv in Hk as (a & b & _ & Hb & ->).
    destruct b as [|c b]; [done|]. cbn in Hb. injection Hb as Hc Hb. symmetry in Hc. apply lower_byte_dot in Hc as ->.
    by exists a, b.
  - intros (a & b & -> & Hb). exists (lower a). rewrite fmap_app, fmap_cons, Hb. done.
Qed.

Lemma dotted_tail host n : (n < length host)%nat ∧ host !! (length host - n - 1)%nat = Some dot ↔
  ∃ a b, host = a ++ dot :: b ∧ length b = n.
Proof.
  split.
  - intros [Hn Hd]. exists (take (length host - n - 1) host), (drop (S (length host - n - 1)) host).
    rewrite <- (drop_S host dot _ Hd), take_drop, length_drop. split; [done|lia].
  - intros (a & b & -> & <-). rewrite length_app. cbn [length]. split; [lia|]. apply list_lookup_middle. lia.
Qed.

Lemma drop_dotted a b n : length b = n → drop (length (a ++ dot :: b) - n) (a ++ dot :: b) = b.
Proof.
  intros <-. replace (length (a ++ dot :: b) - length b) with (length (a ++ [dot])) by (rewrite !length_app; cbn; lia).
  change (a ++ dot :: b) with (a ++ [dot] ++ b). by rewrite app_assoc, drop_app_length.
Qed.

Lemma is_ascii_app a b : is_ascii (a ++ b) = true ↔ is_ascii a = true ∧ is_ascii b = true.
Proof. unfold is_ascii. by rewrite forallb_app, andb_true_iff. Qed.
Lemma is_ascii_dotted a b : is_ascii (a ++ dot :: b) = true → is_ascii b = true.
Proof. change (dot :: b) with ([dot] ++ b). rewrite !is_ascii_app. tauto. Qed.
Lemma is_ascii_slice s i j : is_ascii s = true → is_ascii (slice s i j) = true.
Proof.
  unfold is_ascii, slice. rewrite !forallb_forall. intros Hs c Hc. apply Hs.
  apply list_elem_of_In in Hc. apply list_elem_of_In. by eapply subseteq_drop, subseteq_take.
Qed.

Lemma matchDomainSuffix_spec host p : is_ascii host = true → is_ascii p = true →
  matchDomainSuffix host (lower p) = true ↔ lower host = lower p ∨ (dot :: lower p) `suffix_of` lower host.
Proof.
  intros Hh Hp. unfold matchDomainSuffix. destruct (hasDotLabelSuffix host (lower p)) eqn:Ed.
  { split; [intros _|done]. apply hasDotLabelSuffix_spec in Ed as [->|[k ->]]; [left; apply lower_idem|right].
    exists (lower k). by rewrite fmap_app, fmap_cons, lower_idem. }
  destruct (isASCIILower host) eqn:El.
  { apply isASCIILower_lower in El. rewrite El. split; [done|]. intros Hs%hasDotLabelSuffix_spec. congruence. }
  rewrite !isASCII_is_ascii, Hh, is_ascii_lower by done. cbn [negb orb].
  rewrite EqualFold_lower by done. destruct (bool_decide _) eqn:Ee.
  { apply bool_decide_eq_true in Ee. split; [by left|done]. }
  apply bool_decide_eq_false in Ee. rewrite lower_suffix, !andb_true_iff, Nat.ltb_lt, bool_decide_eq_true, length_fmap, dotted_tail.
  split.
  - intros [(a & b & -> & Hb) Hf]. right. exists a, b. split; [done|].
    rewrite drop_dotted, EqualFold_lower in Hf by (done || by eapply is_ascii_dotted). by apply bool_decide_eq_true in Hf.
  - intros [?|(a & b & -> & Hb)]; [done|].
    assert (Hl : length b = length p) by (by rewrite <- (length_fmap lower_byte b), Hb, length_fmap).
    split; [by exists a, b|].
    rewrite drop_dotted, EqualFold_lower by (done || by eapply is_ascii_dotted). by apply bool_decide_eq_true.
Qed.

Lemma lower_infix host p : (∃ a b, lower host = a ++ lower p ++ b) ↔
  ∃ i, (i + length p ≤ length host)%nat ∧ lower (slice host i (i + length p)) = lower p.
Proof.
  split.
  - intros (a & b & Hab). apply fmap_app_inv in Hab as (a' & r & -> & Hr & ->).
    symmetry in Hr. apply fmap_app_inv in Hr as (q & b' & Hq & -> & ->).
    assert (Hl : length q = length p) by (by rewrite <- (length_fmap lower_byte q), <- Hq, length_fmap).
    exists (length a'). rewrite !length_app. split; [lia|]. unfold slice.
    replace (length a' + length p - length a') with (length q) by lia. by rewrite drop_app_length, take_app_length.
  - intros (i & Hi & Hs). exists (lower (take i host)), (lower (drop (i + length p) host)).
    rewrite <- Hs, <- !fmap_app. f_equal. unfold slice. replace (i + length p - i) with (length p) by lia.
    rewrite <- (take_drop i host) at 1. f_equal. rewrite <- (take_drop (length p) (drop i host)) at 1. by rewrite drop_drop.
Qed.

Lemma matchDomainKeyword_spec host p : is_ascii host = true → is_ascii p = true →
  matchDomainKeyword host (lower p) = true ↔ ∃ a b, lower host = a ++ lower p ++ b.
Proof.
  intros Hh Hp. unfold matchDomainKeyword. destruct (decide (lower p = [])) as [->|Hne].
  { split; [intros _|done]. by exists [], (lower host). }
  destruct (str_contains host (lower p)) eqn:Ec.
  { split; [intros _|done]. apply str_contains_spec in Ec as (a & b & ->). exists (lower a), (lower b).
    by rewrite !fmap_app, lower_idem. }
  destruct (isASCIILower host) eqn:El.
  { apply isASCIILower_lower in El. rewrite El. split; [done|]. intros Hs%str_contains_spec. congruence. }
  rewrite !isASCII_is_ascii, Hh, is_ascii_lower by done. cbn [negb orb]. rewrite lower_infix, length_fmap.
  destruct (Nat.ltb_spec (length host) (length p)) as [Hlt|Hge]; [split; [done|intros (i & ? & _); lia]|].
  rewrite existsb_exists. split.
  - intros (i & Hi%in_seq & Hf). rewrite EqualFold_lower in Hf by (done || by apply is_ascii_slice).
    apply bool_decide_eq_true in Hf. exists i. split; [lia|done].
  - intros (i & Hi & Hs). exists i. split; [apply in_seq; lia|].
    rewrite EqualFold_lower by (done || by apply is_ascii_slice). by apply bool_decide_eq_true.
Qed.

(** C29: the host rules compare without regard to case: for ASCII names and
    patterns DOMAIN matches the name itself, DOMAIN-SUFFIX the name and its
    subdomains (a suffix after a dot), DOMAIN-KEYWORD a substring and
    DOMAIN-WILDCARD the language of the pattern, all on the lowered name. The
    shortcuts for lower-case names and the folding comparison change nothing. *)
Theorem domain_rules_correct pattern adapter (helper : Helper) st :
  let host := lower (RuleHost (metadata st)) in
  let p := lower pattern in
  is_ascii (RuleHost (metadata st)) = true → is_ascii pattern = true →
  ((common_Match (NewDomain pattern adapter) helper st).1.1 = true ↔ host = p) ∧
  ((common_Match (NewDomainSuffix pattern adapter) helper st).1.1 = true ↔ host = p ∨ (dot :: p) `suffix_of` host) ∧
  ((common_Match (NewDomainKeyword pattern adapter) helper st).1.1 = true ↔ ∃ a b, host = a ++ p ++ b) ∧
  (∃ r, NewDomainWildcard pattern adapter = Ok r ∧ ((common_Match r helper st).1.1 = true ↔ glob p host)).
Proof.
  intros host p Hh Hp. unfold NewDomain, NewDomainSuffix, NewDomainKeyword, NewDomainWildcard, ToLower.
  rewrite Hp. unfold common_Match, Domain_Match, DomainSuffix_Match, DomainKeyword_Match, DomainWildcard_Match. cbn [fst]. split_and!.
  - by apply matchDomainExact_spec.
  - by apply matchDomainSuffix_spec.
  - by apply matchDomainKeyword_spec.
  - eexists. split; [done|]. cbn [fst]. unfold wildcard_Match.
    assert (asciiLowerOnce (RuleHost (metadata st)) = host) as ->.
    { unfold asciiLowerOnce, ToLower. destruct (isASCIILower _) eqn:El; [by rewrite <- isASCIILower_lower at 1|by rewrite Hh]. }
    destruct (Match_decides p host) as (b & Hb & Hg). fold p. by rewrite Hb.
Qed.
End hosts.

(** ** Address suffixes *)

Section suffixes.
Context `{RuleEnv}.
#[local] Open Scope Z_scope.

Lemma mod_pow2_bits u v m : 0 ≤ m → u mod 2 ^ m = v mod 2 ^ m ↔ ∀ k, 0 ≤ k < m → Z.testbit u k = Z.testbit v k.
Proof.
  intros Hm. split.
  - intros Heq k Hk. rewrite <- (Z.mod_pow2_bits_low u m k), <- (Z.mod_pow2_bits_low v m k) by lia. by rewrite Heq.
  - intros Hb. apply Z.bits_inj'. intros k Hk. destruct (Z.ltb_spec k m).
    + rewrite !Z.mod_pow2_bits_low by lia. apply Hb. lia.
    + by rewrite !Z.mod_pow2_bits_high by lia.
Qed.

Lemma byte_at_be_put n u i : (0 < i ≤ n)%nat →
  byte_at (be_put n u) (n - i) = Z.shiftr u (8 * Z.of_nat (i - 1)) mod 2 ^ 8.
Proof.
  intros Hi. unfold byte_at. induction n as [|n IH]; [lia|]. cbn [be_put].
  destruct (decide (i = S n)) as [->|Hne].
  - rewrite Nat.sub_diag. cbn. rewrite byteZ_byte_of. do 3 f_equal. lia.
  - replace (S n - i)%nat with (S (n - i))%nat by lia. apply IH. lia.
Qed.

Lemma byte_bits u v a : 0 ≤ a →
  Z.shiftr u a mod 2 ^ 8 = Z.shiftr v a mod 2 ^ 8 ↔ ∀ k, a ≤ k < a + 8 → Z.testbit u k = Z.testbit v k.
Proof.
  intros Ha. rewrite mod_pow2_bits by lia. split; intros Hb k Hk.
  - specialize (Hb (k - a) ltac:(lia)). rewrite !Z.shiftr_spec in Hb by lia. by replace (k - a + a) with k in Hb by lia.
  - rewrite !Z.shiftr_spec by lia. apply Hb. lia.
Qed.

(** Shifted left in a byte, only the low bits are compared. *)
Lemma low_bits u v a r : 0 ≤ a → 0 < r < 8 →
  wrap uint8 (Z.shiftl (Z.shiftr u a mod 2 ^ 8) (8 - r)) = wrap uint8 (Z.shiftl (Z.shiftr v a mod 2 ^ 8) (8 - r)) ↔
  ∀ k, a ≤ k < a + r → Z.testbit u k = Z.testbit v k.
Proof.
  intros Ha Hr. unfold wrap, int_min. cbn [it_signed it_bits uint8]. rewrite !Z.sub_0_r, !Z.add_0_r, mod_pow2_bits by lia.
  split; intros Hb k Hk.
  - specialize (Hb (k - a + (8 - r)) ltac:(lia)). rewrite !Z.shiftl_spec in Hb by lia.
    replace (k - a + (8 - r) - (8 - r)) with (k - a) in Hb by lia.
    rewrite !Z.mod_pow2_bits_low, !Z.shiftr_spec in Hb by lia. by replace (k - a + a) with k in Hb by lia.
  - rewrite !Z.shiftl_spec by lia. destruct (Z.ltb_spec k (8 - r)).
    + by rewrite !Z.testbit_neg_r by lia.
    + rewrite !Z.mod_pow2_bits_low, !Z.shiftr_spec by lia. apply Hb. lia.
Qed.

Lemma byte_of_bit k : 0 ≤ k → 8 * Z.of_nat (Z.to_nat (k / 8)) ≤ k < 8 * Z.of_nat (Z.to_nat (k / 8)) + 8.
Proof.
  intros Hk. rewrite Z2Nat.id by (apply Z.div_pos; lia).
  pose proof (Z.div_mod k 8 ltac:(lia)). pose proof (Z.mod_pos_bound k 8 ltac:(lia)). lia.
Qed.

Lemma whole_bytes_spec n u v w : (w ≤ n)%nat →
  existsb (λ i, negb (byte_at (be_put n u) (n - i) =? byte_at (be_put n v) (n - i))) (rev (seq 1 w)) = false ↔
  ∀ k, 0 ≤ k < 8 * Z.of_nat w → Z.testbit u k = Z.testbit v k.
Proof.
  intros Hw. rewrite <- not_true_iff_false, existsb_exists. split.
  - intros Hno k Hk. pose proof (byte_of_bit k ltac:(lia)) as Hkb. set (i := Z.to_nat (k / 8)) in *.
    destruct (Z.eqb_spec (byte_at (be_put n u) (n - S i)) (byte_at (be_put n v) (n - S i))) as [Heq|Hne].
    + rewrite !byte_at_be_put, byte_bits in Heq by lia. apply Heq. lia.
    + destruct Hno. exists (S i). split; [|by rewrite (proj2 (Z.eqb_neq _ _))]. apply -> in_rev. apply in_seq. lia.
  - intros Hb (i & Hi & Hne). apply in_rev, in_seq in Hi. apply negb_true_iff, Z.eqb_neq in Hne. apply Hne.
    rewrite !byte_at_be_put, byte_bits by lia. intros k Hk. apply Hb. lia.
Qed.

Lemma ip_suffix_Match_spec n u v bits : 0 ≤ bits ≤ 8 * Z.of_nat n →
  ip_suffix_Match (be_put n u) bits (be_put n v) = true ↔ u mod 2 ^ bits = v mod 2 ^ bits.
Proof.
  intros Hbits. rewrite mod_pow2_bits by lia. unfold ip_suffix_Match. rewrite !length_be_put, Nat.eqb_refl. cbn [negb].
  pose proof (Z.div_mod bits 8 ltac:(lia)) as Hdm. pose proof (Z.mod_pos_bound bits 8 ltac:(lia)) as Hmod.
  assert (Hw : Z.of_nat (Z.to_nat (bits / 8)) = bits / 8) by (apply Z2Nat.id, Z.div_pos; lia).
  set (w := Z.to_nat (bits / 8)) in *.
  pose proof (whole_bytes_spec n u v w ltac:(lia)) as Hwhole.
  destruct (existsb _ _) eqn:Ee.
  { split; [done|]. intros Hb. assert (true = false) as ?; [|done]. apply Hwhole. intros k Hk. apply Hb. lia. }
  pose proof (proj1 Hwhole eq_refl) as Hlow. clear Hwhole Ee.
  destruct (Z.eqb_spec (bits mod 8) 0) as [E0|E0]; cbn [negb andb].
  { split; [intros _ k Hk; apply Hlow; lia|done]. }
  replace (n - w - 1)%nat with (n - S w)%nat by lia. rewrite !byte_at_be_put by lia.
  replace (8 * Z.of_nat (S w - 1)) with (8 * Z.of_nat w) by lia.
  destruct (Z.eqb_spec (wrap uint8 (Z.shiftl (Z.shiftr u (8 * Z.of_nat w) mod 2 ^ 8) (8 - bits mod 8)))
    (wrap uint8 (Z.shiftl (Z.shiftr v (8 * Z.of_nat w) mod 2 ^ 8) (8 - bits mod 8)))) as [Heq|Hne]; cbn [negb].
  - split; [intros _ k Hk|done]. rewrite low_bits in Heq by lia.
    destruct (Z.ltb_spec k (8 * Z.of_nat w)); [apply Hlow; lia|apply Heq; lia].
  - split; [done|]. intros Hb. destruct Hne. apply low_bits; [lia..|]. intros k Hk. apply Hb. lia.
Qed.

(** What the address rules look at: the address after the look-up they ask for. *)
Definition rule_state (isSourceIP noResolveIP : bool) (helper : Helper) (st : ruleMatchContext) : ruleMatchContext :=
  if negb noResolveIP && negb isSourceIP then call (ResolveIP helper) st else st.
Definition rule_ip (isSourceIP : bool) (st : ruleMatchContext) : Addr :=
  if isSourceIP then m_SrcIP (metadata st) else m_DstIP (metadata st).

Lemma ip_suffix_addr p ip : prefix_valid p = true →
  ip_suffix_Match (AsSlice (p_addr p)) (p_bits p) (AsSlice ip) =
  bool_decide (BitLen ip = BitLen (p_addr p) ∧ addr_num ip mod 2 ^ p_bits p = addr_num (p_addr p) mod 2 ^ p_bits p).
Proof.
  destruct p as [a bits]. unfold prefix_valid. cbn [p_addr p_bits]. intros [[Ha Hb0]%andb_prop Hb1]%andb_prop. zify_bool.
  apply eq_bool_prop_intro. rewrite bool_decide_spec, Is_true_true.
  destruct a as [|u|u z], ip as [|v|v z']; cbn [BitLen addr_num AsSlice] in *; try done;
    try (unfold ip_suffix_Match; rewrite ?length_be_put; cbn; split; [done|lia]).
  - rewrite ip_suffix_Match_spec by lia. split; [by intros ->|by intros [_ ->]].
  - rewrite ip_suffix_Match_spec by lia. split; [by intros ->|by intros [_ ->]].
Qed.

Lemma prefix_contains_addr p ip : prefix_valid p = true →
  IsValid ip && prefix_contains p (without_zone ip) =
  bool_decide (BitLen ip = BitLen (p_addr p) ∧
    addr_num ip / 2 ^ (BitLen (p_addr p) - p_bits p) = addr_num (p_addr p) / 2 ^ (BitLen (p_addr p) - p_bits p)).
Proof.
  intros Hv. unfold prefix_contains. rewrite Hv. destruct p as [a bits]. unfold prefix_valid in Hv. cbn [p_addr p_bits] in *.
  apply andb_prop in Hv as [[Ha Hb0]%andb_prop Hb1]. zify_bool. apply eq_bool_prop_intro. rewrite bool_decide_spec, Is_true_true.
  rewrite !andb_true_iff, !Z.eqb_eq, bool_decide_eq_true.
  assert (IsValid (without_zone ip) = IsValid ip ∧ addr_zone (without_zone ip) = [] ∧ BitLen (without_zone ip) = BitLen ip
    ∧ addr_num (without_zone ip) = addr_num ip) as (-> & -> & -> & ->) by (by destruct ip).
  split.
  - intros [_ [[_ Hl] Hs]]. split; [done|]. rewrite Hl. rewrite <- !Z.shiftr_div_pow2 by lia. done.
  - intros [Hl Hs]. rewrite Hl, !Z.shiftr_div_pow2 by lia.
    assert (IsValid ip = true) as -> by (destruct ip; [by destruct a|done..]). done.
Qed.

(** An address rule built from the prefix [p] matches the addresses of the
    same family, with or without a zone, whose leading bits (IP-CIDR) or
    trailing bits (IP-SUFFIX) are those of [p]; the byte loop of IP-SUFFIX
    compares exactly the low bits, for every prefix length. *)
Theorem address_rules_correct `{!RuleEnvLaws} payload adapter isSrc noResolve p (helper : Helper) st :
  ParsePrefix payload = Some p →
  let st' := rule_state isSrc noResolve helper st in
  let ip := rule_ip isSrc st' in
  let len := BitLen (p_addr p) in
  (∃ r, NewIPSuffix payload adapter isSrc noResolve = Ok r ∧ common_Match r helper st =
    (or_empty (bool_decide (BitLen ip = len ∧ addr_num ip mod 2 ^ p_bits p = addr_num (p_addr p) mod 2 ^ p_bits p)) adapter, st')) ∧
  (∃ r, NewIPCIDR payload adapter isSrc noResolve = Ok r ∧ common_Match r helper st =
    ((bool_decide (BitLen ip = len ∧ addr_num ip / 2 ^ (len - p_bits p) = addr_num (p_addr p) / 2 ^ (len - p_bits p)), adapter), st')).
Proof.
  intros Hp st' ip len. destruct (ParsePrefix_valid _ _ Hp) as (Hv & Hz & _).
  unfold NewIPSuffix, NewIPCIDR. rewrite Hp. split; (eexists; split; [reflexivity|]).
  - change ((or_empty (ip_suffix_Match (AsSlice (p_addr p)) (p_bits p) (AsSlice ip)) adapter, st') =
      (or_empty (bool_decide (BitLen ip = len ∧ addr_num ip mod 2 ^ p_bits p = addr_num (p_addr p) mod 2 ^ p_bits p)) adapter, st')).
    by rewrite (ip_suffix_addr p ip Hv).
  - change ((IsValid ip && prefix_contains p (without_zone ip), adapter, st') =
      (bool_decide (BitLen ip = len ∧ addr_num ip / 2 ^ (len - p_bits p) = addr_num (p_addr p) / 2 ^ (len - p_bits p)), adapter, st')).
    by rewrite (prefix_contains_addr p ip Hv).
Qed.
End suffixes.

(** ** Parsing *)

Section parsing.
Context `{RuleEnv} `{SortSlice}.
Abbreviation Rule := (Rule ruleMatchContext).

(** *** Payloads get shorter *)

Lemma drop_while_in_length cut s : length (drop_while_in cut s) ≤ length s.
Proof. induction s as [|c s IH]; cbn; [done|]. case_decide; cbn; lia. Qed.
Lemma trim_cut_length cut s : length (trim_cut cut s) ≤ length s.
Proof.
  unfold trim_cut. rewrite length_rev. etrans; [apply drop_while_in_length|]. rewrite length_rev. apply drop_while_in_length.
Qed.

Lemma join_cons2 sep s t l : join sep (s :: t :: l) = s ++ sep ++ join sep (t :: l).
Proof. reflexivity. Qed.
Lemma join_trim_length cut l : length (join [comma] (trim_cut cut <$> l)) ≤ length (join [comma] l).
Proof.
  induction l as [|s [|t l] IH]; [done|apply trim_cut_length|]. rewrite !fmap_cons in *.
  pose proof (trim_cut_length cut s). rewrite !join_cons2, !length_app. lia.
Qed.
Lemma join_tail_length l : length (join [comma] (tail l)) ≤ length (join [comma] l).
Proof. destruct l as [|s [|t l]]; cbn [tail]; [done|cbn; lia|]. rewrite join_cons2, !length_app. lia. Qed.
Lemma join_elem_length s l : s ∈ l → length s ≤ length (join [comma] l).
Proof.
  induction l as [|t [|u l] IH]; [by intros ?%not_elem_of_nil|by intros ->%list_elem_of_singleton|].
  rewrite join_cons2, !length_app. intros [->|Hs]%elem_of_cons; [lia|]. specialize (IH Hs). lia.
Qed.

Lemma ParseRulePayload_length up s tp payload target params :
  ParseRulePayload up s false = (tp, payload, target, params) → length payload ≤ length s.
Proof.
  unfold ParseRulePayload, trimArr.
  assert (Hj : length (join [comma] (trim_cut (lit " ") <$> split_on comma s)) ≤ length s).
  { etrans; [apply join_trim_length|]. by rewrite join_split_on. }
  set (item := trim_cut (lit " ") <$> split_on comma s) in *.
  assert (H1 : length (default [] (item !! 1)) ≤ length s).
  { destruct (item !! 1) as [p|] eqn:E; cbn; [|lia]. apply list_elem_of_lookup_2, join_elem_length in E. lia. }
  pose proof (join_tail_length item) as Ht.
  destruct (1 <? length item)%nat; [|intros [= <- <- <- <-]; cbn; lia].
  destruct (decide _); [intros [= <- <- <- <-]; cbn; lia|]. destruct (decide _).
  { cbv zeta. intros Heq. assert (payload = join [comma] (tail item)) as -> by congruence. lia. }
  destruct (2 <? length item)%nat; intros Heq; assert (payload = default [] (item !! 1)) as -> by congruence; done.
Qed.

(** *** Fuel *)

Section ext.
Context (up : str → str) (pr1 pr2 : str → str → str → list str → result Rule).

Lemma parsePayload_ext payload :
  (∀ tp p target params, length p + 4 ≤ length payload → pr1 tp p target params = pr2 tp p target params) →
  parsePayload up pr1 payload = parsePayload up pr2 payload.
Proof.
  intros Hpr. unfold parsePayload. destruct (subPayloads payload) as [subs| |] eqn:E; [|done..]. cbn [mbind result_bind].
  assert (Hl : Forall (λ sub, length sub + 4 ≤ length payload) subs)
    by (apply Forall_forall; intros; by eapply subPayloads_length).
  clear E. induction Hl as [|sub subs Hs _ IH]; cbn [parse_all]; [done|]. rewrite IH.
  assert (payloadToRule up pr1 sub = payloadToRule up pr2 sub) as ->; [|done].
  unfold payloadToRule. destruct (ParseRulePayload up sub false) as [[[tp p] target] params] eqn:Ep.
  apply ParseRulePayload_length in Ep. destruct (decide _); [done|]. destruct (decide _); [done|]. apply Hpr. lia.
Qed.
End ext.

Lemma ParseRule_stable f1 : ∀ f2 tp payload target params, length payload < f1 → length payload < f2 →
  ParseRule f1 tp payload target params = ParseRule f2 tp payload target params.
Proof.
  induction f1 as [|f1 IH]; intros [|f2] tp payload target params H1 H2; [lia..|]. cbn [ParseRule].
  destruct (decide _); [done|]. destruct (ParseParams params). destruct (rule_tag_of tp) as [[]|]; try done.
  - unfold NewSubRule. rewrite (parsePayload_ext _ (ParseRule f1) (ParseRule f2)); [done|].
    intros tp' p target' params'. cbn [length]. rewrite length_app. cbn [length]. intros ?. apply IH; lia.
  - unfold NewAND. rewrite (parsePayload_ext _ (ParseRule f1) (ParseRule f2)); [done|]. intros. apply IH; lia.
  - unfold NewOR. rewrite (parsePayload_ext _ (ParseRule f1) (ParseRule f2)); [done|]. intros. apply IH; lia.
  - unfold NewNOT. rewrite (parsePayload_ext _ (ParseRule f1) (ParseRule f2)); [done|]. intros. apply IH; lia.
Qed.

(** *** Parsing returns *)

(** One of the constructors that read the geo data or the rule providers
    panics. *)
Definition other_panics : Prop :=
  ∃ payload target isSrc noResolve, NewGEOSITE payload target = Panic ∨ NewGEOIP payload target isSrc noResolve = Panic ∨
    NewIPASN payload target isSrc noResolve = Panic ∨ NewRuleSet payload target isSrc noResolve = Panic.

Lemma leaf_Panic m : leaf m = Panic → m = Panic.
Proof. by destruct m. Qed.
Lemma other_Panic m : other m = Panic → m = Panic.
Proof. by destruct m. Qed.

Lemma format_loop_returns rest : ∀ i stack subRanges, format_loop rest i stack subRanges ≠ Panic.
Proof. induction rest; intros; cbn; repeat case_match; done || apply IHrest. Qed.
Lemma subPayloads_returns payload : subPayloads payload ≠ Panic.
Proof.
  unfold subPayloads. destruct (_ || _); [done|]. unfold format. pose proof (format_loop_returns payload 0 [] []) as Hl.
  by destruct (format_loop payload 0 [] []).
Qed.

Lemma parsePayload_Panic up pr payload : parsePayload up pr payload = Panic →
  ∃ tp p target params, length p + 4 ≤ length payload ∧ pr tp p target params = Panic.
Proof.
  intros [Hs|(subs & Hs & Hp)]%result_bind_Panic; [by apply subPayloads_returns in Hs|].
  assert (Hl : Forall (λ sub, length sub + 4 ≤ length payload) subs)
    by (apply Forall_forall; intros; by eapply subPayloads_length).
  clear Hs. induction Hl as [|sub subs Hs _ IH]; cbn [parse_all] in Hp; [done|].
  apply result_bind_Panic in Hp as [Hp|(r & _ & [Hp|(rs & _ & Hp)]%result_bind_Panic)]; [|by apply IH|done].
  unfold payloadToRule in Hp. destruct (ParseRulePayload up sub false) as [[[tp p] target] params] eqn:Ep.
  apply ParseRulePayload_length in Ep. case_decide; [done|]. case_decide; [done|]. exists tp, p, target, params. split; [lia|done].
Qed.

Lemma compileIgnoreCaseRegex_returns p : compileIgnoreCaseRegex p ≠ Panic.
Proof. unfold compileIgnoreCaseRegex. by repeat case_match. Qed.
Lemma split_names_returns e s : split_names e s ≠ Panic.
Proof. unfold split_names. by case_decide. Qed.
Lemma ParseType_returns t : ParseType t ≠ Panic.
Proof. unfold ParseType. by repeat case_match. Qed.
Lemma parseInTypes_returns l : parseInTypes l ≠ Panic.
Proof.
  induction l as [|t l IH]; cbn [parseInTypes]; [done|].
  intros [Hr|(r & _ & [Hr|(? & _ & ?)]%result_bind_Panic)]%result_bind_Panic; [|done..].
  case_decide; [done|]. apply result_bind_Panic in Hr as [Hr|(? & _ & ?)]; [by apply ParseType_returns in Hr|done].
Qed.

(** The constructors of this file return a rule or an error. *)
Ltac leaf_returns :=
  repeat match goal with
  | |- (_ ≫= _) = Panic → False => intros [?|(? & ? & ?)]%result_bind_Panic
  | H : (_ ≫= _) = Panic |- _ => apply result_bind_Panic in H as [?|(? & ? & ?)]
  | H : compileIgnoreCaseRegex _ = Panic |- _ => by apply compileIgnoreCaseRegex_returns in H
  | H : split_names _ _ = Panic |- _ => by apply split_names_returns in H
  | H : parseInTypes _ = Panic |- _ => by apply parseInTypes_returns in H
  | H : NewUnsignedRanges _ _ = Panic |- _ => by apply NewUnsignedRanges_returns in H
  | H : _ |- _ => progress (repeat case_match; simplify_eq)
  | |- _ → False => intros ?
  end; try done.

Lemma ParseRule_Panic fuel : ∀ tp payload target params, length payload < fuel →
  ParseRule fuel tp payload target params = Panic → other_panics.
Proof.
  induction fuel as [|fuel IH]; intros tp payload target params Hf; [lia|]. cbn [ParseRule].
  case_decide; [done|]. destruct (ParseParams params) as [isSrc noResolve].
  destruct (rule_tag_of tp) as [[]|]; try done;
    try (intros Ho%other_Panic; exists payload, target, isSrc, noResolve; by auto);
    try (intros Ho%other_Panic; exists payload, target, true, true; by auto);
    try (intros [Hl|(rules & _ & Hl)]%result_bind_Panic; [|by repeat case_match];
      apply parsePayload_Panic in Hl as (tp' & p' & target' & params' & Hlen & Hp);
      eapply IH; [|exact Hp]; cbn [length] in Hlen; rewrite ?length_app in Hlen; cbn [length] in Hlen; lia);
    intros Hl%leaf_Panic; exfalso; revert Hl.
  all: unfold NewDomainRegex, NewDomainWildcard, NewPort, NewDSCP, NewIPCIDR, NewIPSuffix, NewInName, NewInUser,
      NewRematchName, NewInType, NewNetworkType, NewUid, NewProcess; leaf_returns.
Qed.

(** *** Parsed rules are well built *)

Definition tag_ok (e : string * rule_tag) : bool :=
  match e.2 with
  | TPort t | TProcess t => bool_decide (t ≠ SubRules)
  | TSubRule => bool_decide (e.1 = "SUB-RULE"%string)
  | _ => true
  end.
Lemma rule_tag_of_ok tp t : rule_tag_of tp = Some t → ∃ name, tp = lit name ∧ tag_ok (name, t) = true.
Proof.
  unfold rule_tag_of. intros ([i [name t']] & [Hi [Hn _]]%list_find_Some & ->)%fmap_Some. exists name. split; [done|].
  assert (Hall : forallb tag_ok rule_tags = true) by (vm_compute; reflexivity).
  apply (proj1 (forallb_forall _ _) Hall), list_elem_of_In. by eapply list_elem_of_lookup_2.
Qed.

Lemma leaf_plain m r : leaf m = Ok r → (∀ c, m = Ok c → common_RuleType c ≠ SubRules) → plain r = true.
Proof.
  unfold leaf. destruct m as [c| |]; [|done..]. cbn. intros [= <-] Hc. cbn. apply bool_decide_eq_true. by apply Hc.
Qed.
Lemma other_plain `{!RuleEnvLaws} m r : other m = Ok r → plain r = true.
Proof.
  unfold other. destruct m as [o| |]; [|done..]. cbn. intros [= <-]. cbn. apply bool_decide_eq_true.
  pose proof (other_kind o) as Ho. intros Heq. rewrite Heq in Ho. by repeat (apply elem_of_cons in Ho as [?|Ho]; [done|]); apply not_elem_of_nil in Ho.
Qed.

(** The constructors keep the kind they are asked for. *)
Lemma NewPort_type payload target t c : NewPort payload target t = Ok c → common_RuleType c = t.
Proof. unfold NewPort. destruct (NewUnsignedRanges _ _); [case_decide|..]; by intros [= <-]. Qed.
Lemma NewProcess_type payload target t c : NewProcess payload target t = Ok c → common_RuleType c = t.
Proof.
  unfold NewProcess. destruct t; try (by intros [= <-]);
    destruct (compileIgnoreCaseRegex payload); cbn; by intros [= <-].
Qed.

(** A rule of a fixed kind is plain. *)
Ltac fixed_kind := intros c; cbv beta delta [NewDomainRegex NewDomainWildcard NewDSCP NewIPCIDR NewIPSuffix NewInName NewInUser
    NewRematchName NewInType NewNetworkType NewUid];
  intros Hc; repeat (apply result_bind_Ok in Hc as (? & _ & Hc)); repeat case_match; simplify_eq; cbn; by repeat case_match.

Definition built (tp : str) (r : Rule) : Prop := well_built r = true ∧ (tp ≠ lit "SUB-RULE" → plain r = true).

Lemma plain_well_built r : plain r = true → well_built r = true.
Proof. by destruct r as [|[]]. Qed.
Lemma plain_built tp r : plain r = true → built tp r.
Proof. intros Hp. split; [by apply plain_well_built|done]. Qed.

Lemma parsePayload_plain up pr payload rules :
  (∀ tp p target params r, pr tp p target params = Ok r → built tp r) →
  parsePayload up pr payload = Ok rules → forallb plain rules = true.
Proof.
  intros Hpr (subs & _ & Hall)%result_bind_Ok. revert rules Hall.
  induction subs as [|sub subs IH]; intros rules; cbn [parse_all]; [by intros [= <-]|].
  intros (r & Hr & (rs & Hrs & [= <-])%result_bind_Ok)%result_bind_Ok. cbn. rewrite (IH _ Hrs), andb_true_r.
  unfold payloadToRule in Hr. destruct (ParseRulePayload up sub false) as [[[tp p] target] params].
  destruct (decide _) as [|Htp]; [done|]. destruct (decide _); [done|]. apply Hpr in Hr as [_ Hp]. apply Hp. tauto.
Qed.

Lemma RLogic_plain rt payload adapter rules : rt ≠ SubRules → (rt = NOT → rules ≠ []) → forallb plain rules = true →
  plain (RLogic rt payload adapter rules) = true.
Proof. intros Ht Hn Hr. cbn. rewrite Hr, bool_decide_true, bool_decide_false by naive_solver. done. Qed.

Lemma ParseRule_built `{!RuleEnvLaws} fuel : ∀ tp payload target params r,
  ParseRule fuel tp payload target params = Ok r → built tp r.
Proof.
  induction fuel as [|fuel IH]; intros tp payload target params r; cbn [ParseRule]; [done|].
  destruct (decide _); [done|]. destruct (ParseParams params) as [isSrc noResolve].
  destruct (rule_tag_of tp) as [t|] eqn:Et; [|done]. apply rule_tag_of_ok in Et as (name & -> & Ht).
  destruct t; try (intros [= <-]; by apply plain_built);
    try (intros Hl; apply plain_built; eapply leaf_plain; [exact Hl|fixed_kind]; fail);
    try (intros Ho; apply plain_built; by eapply other_plain).
  - intros Hl. apply plain_built. eapply leaf_plain; [exact Hl|]. intros c ->%NewPort_type. by apply bool_decide_eq_true in Ht.
  - intros Hl. apply plain_built. eapply leaf_plain; [exact Hl|]. intros c ->%NewProcess_type. by apply bool_decide_eq_true in Ht.
  - intros (rules & Hr%parsePayload_plain & Hn)%result_bind_Ok; [|apply IH].
    destruct (length rules =? 1)%nat eqn:El; [|done]. injection Hn as <-. apply bool_decide_eq_true in Ht. cbn in Ht. subst.
    split; [|done]. cbn. rewrite Hr. by destruct rules.
  - intros (rules & Hr%parsePayload_plain & [= <-])%result_bind_Ok; [|apply IH]. by apply plain_built, RLogic_plain.
  - intros (rules & Hr%parsePayload_plain & [= <-])%result_bind_Ok; [|apply IH]. by apply plain_built, RLogic_plain.
  - intros (rules & Hr%parsePayload_plain & Hn)%result_bind_Ok; [|apply IH].
    destruct (length rules =? 1)%nat eqn:El; [|done]. injection Hn as <-. apply plain_built, RLogic_plain; [done| |done].
    by destruct rules.
Qed.

End parsing.

(** ** Instances *)

(** An environment with the identity for the Unicode tables, one prefix, a
    regular expression engine that compares strings and no other rules. *)
Definition demo_env : RuleEnv := {|
  unicode_lower := id; unicode_upper := id; unicode_fold := λ s t, bool_decide (s = t);
  ParsePrefix := λ s, if decide (s = lit "10.0.0.7/4") then Some (MkPrefix (Addr4 167772167) 4) else None;
  prefix_string := λ _, lit "10.0.0.7/4";
  regexp2_compile := λ p, Some (λ s, bool_decide (s = p)); regexp_compile := λ _, None; goos_linux := true;
  Other := Empty_set;
  other_RuleType := λ o, match o with end; other_Match := λ o, match o with end; other_Adapter := λ o, match o with end;
  other_Payload := λ o, match o with end; other_ProviderNames := λ o, match o with end; other_safe := λ o, match o with end;
  NewGEOSITE := λ _ _, Err "no geo data"; NewGEOIP := λ _ _ _ _, Err "no geo data";
  NewIPASN := λ _ _ _ _, Err "no geo data"; NewRuleSet := λ _ _ _ _, Err "no provider"
|}.
Definition demo_laws : @RuleEnvLaws demo_env.
Proof.
  constructor; [|by intros []]. intros s p. cbn. case_decide; [|done]. intros [= <-]. vm_compute. done.
Qed.
#[local] Existing Instances demo_env demo_laws merge_sort_slice.

Definition no_lookups : Helper := MkHelper None None None.
Definition demo_context (host : str) (ip : Addr) : ruleMatchContext :=
  MkContext (with_Host host (with_DstIP ip metadata_zero)) false false.

Lemma domain_rules_correct_witness :
  (common_Match (NewDomainSuffix (lit "Example.COM") (lit "P")) no_lookups (demo_context (lit "WWW.example.com") AddrZero)).1.1 = true.
Proof.
  destruct (domain_rules_correct (lit "Example.COM") (lit "P") no_lookups (demo_context (lit "WWW.example.com") AddrZero))
    as (_ & Hs & _); [reflexivity..|]. apply Hs.
  right. exists (lit "www"). reflexivity.
Defined.

(** 192.0.2.23 ends with the four bits of 10.0.0.7. *)
Lemma address_rules_correct_witness :
  ∃ r, NewIPSuffix (lit "10.0.0.7/4") (lit "P") false true = Ok r ∧
    common_Match r no_lookups (demo_context [] (Addr4 3221225991)) = ((true, lit "P"), demo_context [] (Addr4 3221225991)).
Proof.
  destruct (address_rules_correct (lit "10.0.0.7/4") (lit "P") false true (MkPrefix (Addr4 167772167) 4) no_lookups
    (demo_context [] (Addr4 3221225991))) as [(r & Hr & Hm) _]; [vm_compute; reflexivity|].
  exists r. split; [exact Hr|]. rewrite Hm. vm_compute. reflexivity.
Defined.

Definition nested_payload : str := lit "((DOMAIN,a.com),(NOT,((DST-PORT,80/443))))".
Definition is_ok {A} (r : result A) : bool := match r with Ok _ => true | _ => false end.
Lemma demo_no_panics : ¬ other_panics.
Proof. by intros (? & ? & ? & ? & [?|[?|[?|?]]]). Qed.

(** A DSCP value beyond a byte is reduced to its low bits before the check for
    63: the rule [DSCP,300] is accepted and matches 44. *)
Example NewDSCP_truncates : NewDSCP (lit "300") (lit "P") = Ok (RDSCP [Ranges.MkRange 44 44] (lit "300") (lit "P")).
Proof. reflexivity. Qed.
