(* ===== verification/Routing.v ===== *)
(** * Routing: from the rules of the configuration to an outbound

    - [parseRules] and [parseSubRules] of [src/config/config.go] build the rules
      and check the sub-rules;
    - [RuleWrapper] ([src/rules/wrapper/wrapper.go]) counts hits and misses of
      the top-level rules and can switch them off;
    - [resolveMetadata], [matchWithState], [getRules] and the callbacks of
      [ruleMatchContext] of [src/tunnel/tunnel.go] choose the outbound of a
      connection; [Rematch] ([src/adapter/outbound/rematch.go]) sends it through
      the rules again.

    [ProxyEnv] is the part of [C.Proxy] routing uses; what a group unwraps to is
    fixed during one evaluation. [TunnelEnv] has the look-ups: hosts, DNS and
    processes. *)
From S2P Require Import Prelude GoStrings NetIP Metadata LogicRules Rules.

(** ** Outbounds *)

Inductive AdapterType :=
| Direct | Reject | RejectDrop | Compatible | Pass | PassRule | Rematch | Dns
| Relay | Selector | Fallback | URLTest | LoadBalance
| Shadowsocks | ShadowsocksR | Snell | Socks5 | Http | Vmess | Vless | Trojan | Hysteria | Hysteria2 | WireGuard | Tuic | Ssh
| Mieru | AnyTLS | Sudoku | Masque | TrustTunnel | ShadowQuic | OpenVPN | Tailscale | GostRelay.
#[export] Instance AdapterType_eq_dec : EqDecision AdapterType.
Proof. solve_decision. Defined.

Class ProxyEnv := {
  Proxy : Type;
  Name : Proxy → str;
  ProxyType : Proxy → AdapterType;
  SupportUDP : Proxy → bool;
  Unwrap : Proxy → Metadata → option Proxy;         (* touch = false *)
  DialContext : Proxy → Metadata → bool * Metadata  (* whether it fails; the metadata it leaves *)
}.

(** Groups do not contain themselves ([proxyGroupsDagSort] of [config] refuses
    it), so unwrapping ends; the configuration has finitely many rematch
    outbounds. *)
Class ProxyEnvLaws `{ProxyEnv} := {
  depth : Proxy → nat;
  max_depth : nat;
  Unwrap_depth : ∀ p m q, Unwrap p m = Some q → depth q < depth p;
  depth_max : ∀ p, depth p ≤ max_depth;
  rematch_names : list str;
  rematch_named : ∀ p, ProxyType p = Rematch → Name p ∈ rematch_names
}.

(** [outbound.Rematch]. *)
Record RematchProxy := MkRematch { rm_Name : str; targetRematchName : option str; targetSubRule : option str }.
Definition NewRematch (name : str) (rematch subRule : option str) : result RematchProxy :=
  if decide (rematch = None ∧ subRule = None) then Err "rematch requires at least one of target-rematch-name or target-sub-rule"
  else Ok (MkRematch name rematch subRule).
Definition applyMetadata (l : RematchProxy) (m : Metadata) : Metadata :=
  let m := match targetRematchName l with Some name => with_RematchName name m | None => m end in
  match targetSubRule l with Some name => with_SpecialRules name m | None => m end.
Definition Rematch_DialContext (l : RematchProxy) (m : Metadata) : bool * Metadata := (false, applyMetadata l m).

Section routing.
Context `{RuleEnv} `{SortSlice}.
Abbreviation Rule := (Rule ruleMatchContext).

(** ** The configuration *)

(** One line of the rules. [bfuel] bounds the recursion of
    [BindRuleProviders]. *)
Definition parse_line (bfuel : nat) (proxies ruleProviders : gset str) (subRules : gmap str (list Rule))
    (rules : list Rule) (line : str) : result (list Rule) :=
  let '(tp, payload, target, params) := ParseRulePayload unicode_upper line true in
  if decide (target = []) then Err "format invalid"
  else
    _ ← (if decide (target ∈ proxies) then Ok tt
         else if decide (tp ≠ lit "SUB-RULE") then Err "proxy not found"
         else if decide (subRules !! target = None) then Err "sub-rule not found" else Ok tt);
    parsed ← parseRule tp payload target params;
    if negb (forallb (λ name, bool_decide (name ∈ ruleProviders)) (rule_ProviderNames parsed)) then Err "rule set not found"
    else _ ← BindRuleProviders subRules bfuel parsed; Ok (rules ++ [parsed]).
Definition parseRules (bfuel : nat) (rulesConfig : list str) (proxies ruleProviders : gset str)
    (subRules : gmap str (list Rule)) : result (list Rule) :=
  foldM (parse_line bfuel proxies ruleProviders subRules) [] rulesConfig.

(** The map first has every name with an empty list; the lists are filled in
    the order of a loop over the Go map. *)
Definition parse_sub (bfuel : nat) (proxies ruleProviders : gset str) (subRules : gmap str (list Rule))
    (entry : str * list str) : result (gmap str (list Rule)) :=
  if decide (entry.1 = []) then Err "sub-rule name is empty"
  else rules ← parseRules bfuel entry.2 proxies ruleProviders subRules; Ok (<[entry.1 := rules]> subRules).
Definition parseSubRules (bfuel : nat) (cfg : gmap str (list str)) (proxies ruleProviders : gset str)
    : result (gmap str (list Rule)) :=
  subRules ← foldM (parse_sub bfuel proxies ruleProviders) ((λ _, []) <$> cfg) (map_to_list cfg);
  _ ← verifySubRule subRules;
  Ok subRules.

(** ** Rule wrappers *)

Record RuleWrapper := MkWrapper {
  w_Rule : Rule; disabled : bool; hitCount : Z; hitAt : Z; missCount : Z; missAt : Z
}.
Definition NewRuleWrapper (rule : Rule) : RuleWrapper := MkWrapper rule false 0 0 0 0.
Definition SetDisabled (v : bool) (w : RuleWrapper) : RuleWrapper :=
  MkWrapper (w_Rule w) v (hitCount w) (hitAt w) (missCount w) (missAt w).
Definition Hit (now : Z) (w : RuleWrapper) : RuleWrapper :=
  MkWrapper (w_Rule w) (disabled w) (wrap uint64 (hitCount w + 1)) now (missCount w) (missAt w).
Definition Miss (now : Z) (w : RuleWrapper) : RuleWrapper :=
  MkWrapper (w_Rule w) (disabled w) (hitCount w) (hitAt w) (wrap uint64 (missCount w + 1)) now.

(** The rules the tunnel goes through: wrapped at the top level, bare in the
    sub-rules. *)
Inductive TopRule := Bare (r : Rule) | Wrapped (w : RuleWrapper).
Definition top_rule (t : TopRule) : Rule := match t with Bare r => r | Wrapped w => w_Rule w end.

Section match_with_state.
Context `{ProxyEnv}.
Context (now : Z) (helper : Helper) (proxies : gmap str Proxy) (subRules : gmap str (list Rule)).
Abbreviation ctx := ruleMatchContext.

Definition top_Match (rfuel : nat) (t : TopRule) (st : ctx) : result ((bool * str) * TopRule * ctx) :=
  match t with
  | Bare r => '(out, st) ← Match helper subRules rfuel r st; Ok (out, t, st)
  | Wrapped w =>
    if disabled w then Ok ((false, []), t, st)
    else '((ok, adapter), st) ← Match helper subRules rfuel (w_Rule w) st;
         Ok ((ok, adapter), Wrapped (if (ok : bool) then Hit now w else Miss now w), st)
  end.

(** ** Choosing an outbound *)

(** The nested groups of an adapter: Pass anywhere skips the rule, a rematch
    outbound restarts the evaluation. *)
Inductive verdict := VUse | VPass | VRematch (p : Proxy).
Fixpoint scan (cfuel : nat) (adapter : option Proxy) (m : Metadata) : result verdict :=
  match adapter with
  | None => Ok VUse
  | Some a =>
    match cfuel with
    | 0 => out_of_fuel
    | S cfuel =>
      if decide (ProxyType a = Pass) then Ok VPass
      else if decide (ProxyType a = Rematch) then Ok (VRematch a)
      else scan cfuel (Unwrap a m) m
    end
  end.

Inductive decision := DNone | DUse (p : Proxy) (r : TopRule) | DRematch (p : Proxy) (r : TopRule).

(** One pass over the rules, with the rules as it leaves them. *)
Fixpoint match_rules (rfuel cfuel : nat) (rules : list TopRule) (st : ctx) : result (decision * list TopRule * ctx) :=
  match rules with
  | [] => Ok (DNone, [], st)
  | r :: rules =>
    '((m, ada), r, st) ← top_Match rfuel r st;
    let next := '(d, rules, st) ← match_rules rfuel cfuel rules st; Ok (d, r :: rules, st) in
    if (m : bool) then
      match proxies !! ada with
      | None => next
      | Some adapter =>
        v ← scan cfuel (Some adapter) (metadata st);
        match v with
        | VPass => next
        | VRematch p => Ok (DRematch p r, r :: rules, st)
        | VUse =>
          if bool_decide (m_NetWork (metadata st) = UDP) && negb (SupportUDP adapter) then next
          else Ok (DUse adapter r, r :: rules, st)
        end
      end
    else next
  end.

Definition getRules (m : Metadata) (rules : list TopRule) : list TopRule :=
  match subRules !! m_SpecialRules m with Some sr => Bare <$> sr | None => rules end.
(** The wrappers after a pass over [getRules]. *)
Definition put_rules (m : Metadata) (rules rules' : list TopRule) : list TopRule :=
  match subRules !! m_SpecialRules m with Some _ => rules | None => rules' end.

Definition with_metadata (m : Metadata) (st : ctx) : ctx := MkContext m (resolved st) (attemptProcessLookup st).

Fixpoint matchWithState (rounds rfuel cfuel : nat) (rematchChain : list str) (rules : list TopRule) (st : ctx)
    : result ((option Proxy * option TopRule) * list TopRule * ctx) :=
  match rounds with
  | 0 => out_of_fuel
  | S rounds =>
    '(d, rules', st') ← match_rules rfuel cfuel (getRules (metadata st) rules) st;
    let rules := put_rules (metadata st) rules rules' in
    match d with
    | DUse p r => Ok ((Some p, Some r), rules, st')
    | DNone => Ok ((proxies !! lit "DIRECT", None), rules, st')
    | DRematch p r =>
      if bool_decide (Name p ∈ rematchChain) then Ok ((Some p, Some r), rules, st')
      else
        let '(failed, m) := DialContext p (metadata st') in
        let st' := with_metadata m st' in
        if failed then Ok ((Some p, Some r), rules, st')
        else matchWithState rounds rfuel cfuel (rematchChain ++ [Name p]) rules st'
    end
  end.
End match_with_state.

(** ** The tunnel *)

Inductive TunnelMode := Global | RuleMode | DirectMode.
Inductive FindProcessMode := FindProcessStrict | FindProcessAlways | FindProcessOff.

(** [filepath.Base] on a slash-separated path. *)
Definition path_base (path : str) : str :=
  if decide (path = []) then [dot]
  else match List.rev (drop_while_in [slash] (List.rev path)) with
       | [] => [slash]
       | trimmed => default [] (last (split_on slash trimmed))
       end.

Class TunnelEnv := {
  hosts_Search : str → option Addr;                  (* DefaultHosts, and RandIP of the node *)
  resolver_ResolveIP : str → result Addr;
  FindProcessName : str → Addr → Z → result (Z * str);   (* uid and path *)
  FindPackageName : Metadata → result str;
  features_CMFA : bool
}.

Record routingSnapshot `{ProxyEnv} := MkSnapshot {
  rs_proxies : gmap str Proxy; rs_rules : list TopRule; rs_subRules : gmap str (list Rule); rs_mode : TunnelMode
}.

Section tunnel.
Context `{ProxyEnv} `{TunnelEnv}.
Abbreviation ctx := ruleMatchContext.

Definition resolveIP (c : ctx) : ctx :=
  let m := metadata c in
  if resolved c || bool_decide (m_Host m = []) || Resolved m then c
  else MkContext (match resolver_ResolveIP (m_Host m) with Ok ip => with_DstIP ip m | _ => m end) true (attemptProcessLookup c).

Definition findProcess (c : ctx) : ctx :=
  if negb (attemptProcessLookup c) then c
  else
    let m := metadata c in
    let set_process (pkg : str) (m : Metadata) := with_Process pkg (m_ProcessPath m) (m_Uid m) m in
    let package (m : Metadata) := match FindPackageName m with Ok pkg => set_process pkg m | _ => m end in
    let m :=
      if negb features_CMFA then
        match FindProcessName (lit (NetWork_String (m_NetWork m))) (m_SrcIP m) (m_SrcPort m) with
        | Ok (uid, path) => package (with_Process (path_base path) path uid m)
        | _ => m
        end
      else package m in
    MkContext m (resolved c) false.

Fixpoint pass_chain (cfuel : nat) (a : option Proxy) (m : Metadata) : bool :=
  match a, cfuel with
  | Some a, S cfuel => if decide (ProxyType a = PassRule) then true else pass_chain cfuel (Unwrap a m) m
  | _, _ => false
  end.
Definition checkPassRule (cfuel : nat) (proxies : gmap str Proxy) (adapterName : str) (c : ctx) : bool :=
  pass_chain cfuel (proxies !! adapterName) (metadata c).

(** The rules are evaluated with the callbacks the mode allows. *)
Definition resolveMetadata (rounds rfuel cfuel : nat) (now : Z) (findMode : FindProcessMode) (state : routingSnapshot)
    (m : Metadata) : result ((option Proxy * option TopRule) * list TopRule * Metadata) :=
  if decide (m_SpecialProxy m ≠ []) then
    match rs_proxies state !! m_SpecialProxy m with
    | Some p => Ok ((Some p, None), rs_rules state, m)
    | None => Err "proxy not found"
    end
  else
    let host := if decide (m_Host m = []) then None else hosts_Search (m_Host m) in
    let m := match host with Some ip => with_DstIP ip m | None => m end in
    let fixed := match rs_mode state with
                 | DirectMode => Some (rs_proxies state !! lit "DIRECT")
                 | Global => Some (rs_proxies state !! lit "GLOBAL")
                 | RuleMode => None
                 end in
    let c := MkContext m (bool_decide (is_Some host)) (negb (bool_decide (m_Type m = INNER))) in
    let c := match findMode with FindProcessAlways => findProcess c | _ => c end in
    let find := match findMode with FindProcessStrict => Some findProcess | _ => None end in
    let helper := MkHelper (Some resolveIP) find (Some (checkPassRule cfuel (rs_proxies state))) in
    match fixed with
    | Some proxy => Ok ((proxy, None), rs_rules state, metadata c)
    | None =>
      '(out, rules, c) ← matchWithState now helper (rs_proxies state) (rs_subRules state) rounds rfuel cfuel [] (rs_rules state) c;
      Ok (out, rules, metadata c)
    end.
End tunnel.
End routing.

(** ** What the configuration guarantees *)

Section config.
#[local] Set Default Proof Using "All".
Context `{RuleEnv} `{!RuleEnvLaws} `{SortSlice}.
Abbreviation Rule := (Rule ruleMatchContext).
Abbreviation all_built := (Forall (λ r : Rule, well_built r = true)).

Lemma parse_line_built bfuel proxies ruleProviders subRules rules line rules' :
  all_built rules → parse_line bfuel proxies ruleProviders subRules rules line = Ok rules' → all_built rules'.
Proof.
  intros Hr. unfold parse_line. destruct (ParseRulePayload unicode_upper line true) as [[[tp payload] target] params].
  destruct (decide _); [done|]. intros (_ & _ & (parsed & Hp & Hrest)%result_bind_Ok)%result_bind_Ok.
  destruct (negb _); [done|]. apply result_bind_Ok in Hrest as (_ & _ & [= <-]).
  apply Forall_app. split; [done|]. constructor; [|constructor]. by apply ParseRule_built in Hp as [Hp _].
Qed.

Lemma parseRules_built bfuel lines proxies ruleProviders subRules rules :
  parseRules bfuel lines proxies ruleProviders subRules = Ok rules → all_built rules.
Proof. apply foldM_invariant; [|constructor]. intros ? ? ? _. apply parse_line_built. Qed.

Lemma parseSubRules_ok bfuel cfg proxies ruleProviders subRules :
  parseSubRules bfuel cfg proxies ruleProviders = Ok subRules →
  verifySubRule subRules = Ok tt ∧ all_well_built subRules.
Proof.
  intros (sr & Hf & ([] & Hv & [= <-])%result_bind_Ok)%result_bind_Ok. split; [done|].
  revert Hf. apply (foldM_invariant all_well_built).
  - intros s [name lines] s' _ Hs. unfold parse_sub. cbn [fst snd]. destruct (decide (name = [])); [done|].
    intros (rules & Hr%parseRules_built & [= <-])%result_bind_Ok k rs Hn.
    apply lookup_insert_Some in Hn as [[_ <-]|[_ Hn]]; [done|by eapply Hs].
  - intros n rs Hn. apply lookup_fmap_Some in Hn as (? & <- & _). constructor.
Qed.
End config.

(** ** Evaluation returns *)

Section returns.
Context `{RuleEnv} `{ProxyEnv} `{PL : !ProxyEnvLaws}.
Context (now : Z) (helper : Helper) (proxies : gmap str Proxy) (subRules : gmap str (list (Rule ruleMatchContext))).
Abbreviation Match := (Match helper subRules).
Abbreviation match_rules := (match_rules now helper proxies subRules).
Abbreviation matchWithState := (matchWithState now helper proxies subRules).
Abbreviation ctx := ruleMatchContext.

(** From the fuel [F] on, the evaluation of [r] has one result. *)
Definition stable (F : nat) (r : Rule ctx) : Prop := ∀ st, ∃ out, ∀ f, (F ≤ f)%nat → Match f r st = Ok out.

Lemma stable_all rules : Forall (λ r, ∃ F, stable F r) rules → ∃ F, Forall (stable F) rules.
Proof.
  induction 1 as [|r rules [F1 Hs1] _ [F2 Hs2]]; [by exists 0|]. exists (F1 `max` F2). constructor.
  - intros st. destruct (Hs1 st) as [out Ho]. exists out. intros f ?. apply Ho. lia.
  - eapply Forall_impl; [apply Hs2|]. intros r' Hr' st. destruct (Hr' st) as [out Ho]. exists out. intros f ?. apply Ho. lia.
Qed.

Lemma scan_returns cfuel : ∀ a m, (∀ p, a = Some p → depth p < cfuel) →
  ∃ v, scan cfuel a m = Ok v ∧ ∀ p, v = VRematch p → ProxyType p = Rematch.
Proof.
  induction cfuel as [|cfuel IH]; intros [a|] m Ha; cbn [scan]; try (by eexists).
  { specialize (Ha a eq_refl). lia. }
  destruct (decide (ProxyType a = Pass)); [by eexists|].
  destruct (decide (ProxyType a = Rematch)); [eexists; split; [done|]; by intros p [= <-]|].
  apply IH. intros q Hq. apply Unwrap_depth in Hq. specialize (Ha a eq_refl). lia.
Qed.

Lemma top_Match_returns F t st : stable F (top_rule t) →
  ∃ out t' st', top_rule t' = top_rule t ∧ ∀ f, (F ≤ f)%nat → top_Match now helper subRules f t st = Ok (out, t', st').
Proof.
  intros Hs. destruct (Hs st) as [[[ok a] st'] Ho]. destruct t as [r|w]; cbn [top_rule top_Match] in *.
  - exists (ok, a), (Bare r), st'. split; [done|]. intros f Hf. by rewrite Ho.
  - destruct (disabled w) eqn:Ed; [by exists (false, []), (Wrapped w), st|].
    exists (ok, a), (Wrapped (if ok then Hit now w else Miss now w)), st'. split; [by destruct ok|].
    intros f Hf. by rewrite Ho.
Qed.

(** A pass returns, keeps the rules and rematches through rematch outbounds. *)
Lemma match_rules_returns F rules : ∀ st, Forall (λ t, stable F (top_rule t)) rules →
  ∃ d rules' st', (∀ f, (F ≤ f)%nat → match_rules f (S max_depth) rules st = Ok (d, rules', st')) ∧
    top_rule <$> rules' = top_rule <$> rules ∧ ∀ p r, d = DRematch p r → ProxyType p = Rematch.
Proof.
  induction rules as [|t rules IH]; intros st Hall; [by exists DNone, [], st|].
  apply Forall_cons in Hall as [Ht Hall].
  destruct (top_Match_returns F t st Ht) as ([m ada] & t' & st1 & Htop & Hm).
  destruct (IH st1 Hall) as (d & rules' & st' & Hd & Hrules & Hre).
  (* the rule is skipped *)
  assert (Hskip : ∃ d0 rules0 st0, (∀ f, (F ≤ f)%nat →
      ('(d, rules, st) ← match_rules f (S max_depth) rules st1; Ok (d, t' :: rules, st)) = Ok (d0, rules0, st0)) ∧
      top_rule <$> rules0 = top_rule <$> (t :: rules) ∧ ∀ p r, d0 = DRematch p r → ProxyType p = Rematch).
  { exists d, (t' :: rules'), st'. split_and!; [|by rewrite !fmap_cons, Htop, Hrules|done]. intros f Hf. by rewrite Hd. }
  cbn [Routing.match_rules]. destruct Hskip as (d0 & rules0 & st0 & Hn & Hr0 & Hre0).
  destruct m; [|by exists d0, rules0, st0; split; [|done]; intros f Hf; rewrite Hm by done; apply Hn].
  destruct (proxies !! ada) as [adapter|] eqn:Ep;
    [|by exists d0, rules0, st0; split; [|done]; intros f Hf; rewrite Hm by done; cbn; rewrite Ep; apply Hn].
  destruct (scan_returns (S max_depth) (Some adapter) (metadata st1)) as (v & Hv & Hvr).
  { intros p [= <-]. pose proof (depth_max adapter). lia. }
  destruct v as [| |p].
  - destruct (bool_decide (m_NetWork (metadata st1) = UDP) && negb (SupportUDP adapter)) eqn:Eu.
    + exists d0, rules0, st0. split; [|done]. intros f Hf. rewrite Hm by done. cbn -[scan]. rewrite Ep, Hv. cbn. rewrite Eu. by apply Hn.
    + exists (DUse adapter t'), (t' :: rules), st1. split_and!; [|by rewrite !fmap_cons, Htop|done].
      intros f Hf. rewrite Hm by done. cbn -[scan]. rewrite Ep, Hv. cbn. by rewrite Eu.
  - exists d0, rules0, st0. split; [|done]. intros f Hf. rewrite Hm by done. cbn -[scan]. rewrite Ep, Hv. by apply Hn.
  - exists (DRematch p t'), (t' :: rules), st1. split_and!; [|by rewrite !fmap_cons, Htop|intros p' r [= <- _]; by apply Hvr].
    intros f Hf. rewrite Hm by done. cbn -[scan]. by rewrite Ep, Hv.
Qed.

Definition top_stable (F : nat) (rules : list TopRule) : Prop := Forall (λ t, stable F (top_rule t)) rules.
Definition sub_stable (F : nat) : Prop := ∀ n rules, subRules !! n = Some rules → Forall (stable F) rules.

Lemma top_stable_same F rules rules' : top_rule <$> rules' = top_rule <$> rules → top_stable F rules → top_stable F rules'.
Proof.
  unfold top_stable. intros Heq Hs. change (Forall (stable F ∘ top_rule) rules').
  rewrite <- Forall_fmap, Heq. by apply Forall_fmap.
Qed.
Lemma getRules_stable F m rules : sub_stable F → top_stable F rules → top_stable F (getRules subRules m rules).
Proof.
  intros Hsub Htop. unfold getRules. destruct (subRules !! m_SpecialRules m) as [rs|] eqn:E; [|done].
  apply Forall_fmap. eapply Forall_impl; [by eapply Hsub|]. done.
Qed.
Lemma put_rules_stable F m rules rules' : top_stable F rules →
  top_rule <$> rules' = top_rule <$> getRules subRules m rules → top_stable F (put_rules subRules m rules rules').
Proof.
  intros Htop. unfold put_rules, getRules. destruct (subRules !! m_SpecialRules m); [done|].
  intros Heq. by eapply top_stable_same.
Qed.

Lemma matchWithState_rounds F rounds : sub_stable F → ∀ chain rules st,
  NoDup chain → chain ⊆ rematch_names → (length rematch_names < rounds + length chain)%nat → top_stable F rules →
  ∃ out, ∀ f, (F ≤ f)%nat → matchWithState rounds f (S max_depth) chain rules st = Ok out.
Proof.
  intros Hsub. induction rounds as [|rounds IH]; intros chain rules st Hnd Hin Hlen Htop.
  { pose proof (submseteq_length _ _ (NoDup_submseteq _ _ Hnd Hin)). lia. }
  destruct (match_rules_returns F (getRules subRules (metadata st) rules) st) as (d & rules' & st' & Hd & Hrules & Hre).
  { by apply getRules_stable. }
  pose proof (put_rules_stable _ _ _ _ Htop Hrules) as Htop'. cbn [Routing.matchWithState].
  destruct d as [|p r|p r].
  - eexists. intros f Hf. rewrite Hd by done. reflexivity.
  - eexists. intros f Hf. rewrite Hd by done. reflexivity.
  - destruct (bool_decide (Name p ∈ chain)) eqn:Ec.
    { eexists. intros f Hf. rewrite Hd by done. cbn. rewrite Ec. reflexivity. }
    destruct (DialContext p (metadata st')) as [[] m] eqn:Ed.
    { eexists. intros f Hf. rewrite Hd by done. cbn. rewrite Ec, Ed. reflexivity. }
    apply bool_decide_eq_false in Ec. pose proof (rematch_named p (Hre _ _ eq_refl)) as Hn.
    destruct (IH (chain ++ [Name p]) (put_rules subRules (metadata st) rules rules') (with_metadata m st')) as [out Ho]; [..|done|].
    + apply NoDup_app. split_and!; [done| |apply NoDup_singleton]. by intros x Hx ->%list_elem_of_singleton.
    + intros x [Hx| ->%list_elem_of_singleton]%elem_of_app; [by apply Hin|done].
    + rewrite length_app. cbn. lia.
    + exists out. intros f Hf. rewrite Hd by done. cbn. rewrite bool_decide_false, Ed by done. by apply Ho.
Qed.
End returns.

(** ** The first rule that applies *)

Section first_match.
Context `{RuleEnv} `{ProxyEnv}.
Context (now : Z) (helper : Helper) (proxies : gmap str Proxy) (subRules : gmap str (list (Rule ruleMatchContext))).
Context (rfuel cfuel : nat).
Abbreviation ctx := ruleMatchContext.
Abbreviation top_Match := (top_Match now helper subRules rfuel).
Abbreviation match_rules := (match_rules now helper proxies subRules rfuel cfuel).
Abbreviation matchWithState rounds := (matchWithState now helper proxies subRules rounds rfuel cfuel).

(** The outbounds a group stands for. *)
Definition unwraps (m : Metadata) : Proxy → Proxy → Prop := rtc (λ a b, Unwrap a m = Some b).

Lemma scan_VUse fuel : ∀ p m, scan fuel (Some p) m = Ok VUse →
  ∀ q, unwraps m p q → ProxyType q ≠ Pass ∧ ProxyType q ≠ Rematch.
Proof.
  induction fuel as [|fuel IH]; intros p m; cbn [scan]; [done|].
  destruct (decide (ProxyType p = Pass)); [done|]. destruct (decide (ProxyType p = Rematch)); [done|].
  intros Hs q Hq. destruct Hq as [p|p k q Hk Hq]; [done|]. rewrite Hk in Hs. by eapply IH.
Qed.
Lemma scan_VPass fuel : ∀ p m, scan fuel (Some p) m = Ok VPass → ∃ q, unwraps m p q ∧ ProxyType q = Pass.
Proof.
  induction fuel as [|fuel IH]; intros p m; cbn [scan]; [done|].
  destruct (decide (ProxyType p = Pass)); [intros _; by exists p; split; [apply rtc_refl|]|].
  destruct (decide (ProxyType p = Rematch)); [done|]. destruct (Unwrap p m) as [k|] eqn:Ek; [|by destruct fuel].
  intros (q & Hq & Ht)%IH. exists q. split; [by eapply rtc_l|done].
Qed.
Lemma scan_VRematch fuel : ∀ p m r, scan fuel (Some p) m = Ok (VRematch r) → unwraps m p r ∧ ProxyType r = Rematch.
Proof.
  induction fuel as [|fuel IH]; intros p m r; cbn [scan]; [done|].
  destruct (decide (ProxyType p = Pass)); [done|].
  destruct (decide (ProxyType p = Rematch)); [intros [= <-]; by split; [apply rtc_refl|]|].
  destruct (Unwrap p m) as [k|] eqn:Ek; [|by destruct fuel]. intros [Hq Ht]%IH. split; [by eapply rtc_l|done].
Qed.

(** Why a rule does not decide: it does not match, its outbound is unknown,
    leads to a Pass outbound, or cannot carry UDP. *)
Definition passed_over (m : bool) (ada : str) (md : Metadata) : Prop :=
  m = false ∨ proxies !! ada = None ∨
  ∃ p, proxies !! ada = Some p ∧
    ((∃ q, unwraps md p q ∧ ProxyType q = Pass) ∨ m_NetWork md = UDP ∧ SupportUDP p = false).

Inductive passes_over : list TopRule → ctx → ctx → Prop :=
| passes_nil st : passes_over [] st st
| passes_cons t rules st m ada t' st1 st2 :
    top_Match t st = Ok ((m, ada), t', st1) → passed_over m ada (metadata st1) →
    passes_over rules st1 st2 → passes_over (t :: rules) st st2.

(** [r] is the first rule that is not passed over; it matched with [ada]. *)
Definition decides (rules : list TopRule) (st : ctx) (r : TopRule) (ada : str) (st' : ctx) : Prop :=
  ∃ before t after st1, rules = before ++ t :: after ∧ passes_over before st st1 ∧
    top_Match t st1 = Ok ((true, ada), r, st').

Definition uses (rules : list TopRule) (st : ctx) (p : Proxy) (r : TopRule) (st' : ctx) : Prop :=
  ∃ ada, decides rules st r ada st' ∧ proxies !! ada = Some p ∧
    (∀ q, unwraps (metadata st') p q → ProxyType q ≠ Pass ∧ ProxyType q ≠ Rematch) ∧
    (m_NetWork (metadata st') = UDP → SupportUDP p = true).
Definition rematches (rules : list TopRule) (st : ctx) (p : Proxy) (r : TopRule) (st' : ctx) : Prop :=
  ∃ ada adapter, decides rules st r ada st' ∧ proxies !! ada = Some adapter ∧
    unwraps (metadata st') adapter p ∧ ProxyType p = Rematch.

Definition decision_spec (rules : list TopRule) (st : ctx) (d : decision) (st' : ctx) : Prop :=
  match d with
  | DNone => passes_over rules st st'
  | DUse p r => uses rules st p r st'
  | DRematch p r => rematches rules st p r st'
  end.

Lemma decides_cons t rules st m ada t' st1 r a st' :
  top_Match t st = Ok ((m, ada), t', st1) → passed_over m ada (metadata st1) →
  decides rules st1 r a st' → decides (t :: rules) st r a st'.
Proof.
  intros Ht Hp (before & t0 & after & st2 & -> & Hb & Hm). exists (t :: before), t0, after, st2.
  split_and!; [done|by econstructor|done].
Qed.
Lemma decision_spec_cons t rules st m ada t' st1 d st' :
  top_Match t st = Ok ((m, ada), t', st1) → passed_over m ada (metadata st1) →
  decision_spec rules st1 d st' → decision_spec (t :: rules) st d st'.
Proof.
  intros Ht Hp. destruct d as [|p r|p r]; cbn.
  - intros Hd. by econstructor.
  - intros (a & Hd & Hrest). exists a. split; [by eapply decides_cons|done].
  - intros (a & adapter & Hd & Hrest). exists a, adapter. split; [by eapply decides_cons|done].
Qed.

Lemma match_rules_spec rules : ∀ st d rules' st', match_rules rules st = Ok (d, rules', st') → decision_spec rules st d st'.
Proof.
  induction rules as [|t rules IH]; intros st d rules' st'; cbn [Routing.match_rules]; [intros [= <- <- <-]; constructor|].
  intros ([[[m ada] t'] st1] & Ht & Hrest)%result_bind_Ok.
  assert (Hskip : passed_over m ada (metadata st1) →
    ('(d, rules, st) ← match_rules rules st1; Ok (d, t' :: rules, st)) = Ok (d, rules', st') → decision_spec (t :: rules) st d st').
  { intros Hp ([[d0 rules0] st0] & Hm & [= <- <- <-])%result_bind_Ok. by eapply decision_spec_cons, IH. }
  assert (Hhere : ∀ a, m = true → ada = a → decides (t :: rules) st t' a st1).
  { intros a -> <-. exists [], t, rules, st. split_and!; [done|constructor|done]. }
  destruct m; [|apply Hskip; [by left|done]].
  destruct (proxies !! ada) as [adapter|] eqn:Ep; [|apply Hskip; [by right; left|done]].
  apply result_bind_Ok in Hrest as (v & Hv & Hrest). destruct v as [| |p].
  - destruct (bool_decide (m_NetWork (metadata st1) = UDP)) eqn:Eu; cbn [andb] in Hrest.
    + apply bool_decide_eq_true in Eu. destruct (SupportUDP adapter) eqn:Es; cbn [negb] in Hrest.
      * injection Hrest as <- <- <-. exists ada. split_and!; [by apply Hhere|done|by eapply scan_VUse|done].
      * apply Hskip; [|done]. right; right. exists adapter. split; [done|by right].
    + apply bool_decide_eq_false in Eu. injection Hrest as <- <- <-. exists ada.
      split_and!; [by apply Hhere|done|by eapply scan_VUse|done].
  - apply Hskip; [|done]. right; right. exists adapter. split; [done|left]. by eapply scan_VPass.
  - injection Hrest as <- <- <-. apply scan_VRematch in Hv as [Hu Hr]. exists ada, adapter.
    split_and!; [by apply Hhere|done..].
Qed.

(** The state a round starts in, and a round that ends with a rematch. *)
Definition round_state : Type := list str * list TopRule * ctx.
Inductive rematch_step : round_state → round_state → Prop :=
| rematch_round chain rules st p r rules' st' m :
    match_rules (getRules subRules (metadata st) rules) st = Ok (DRematch p r, rules', st') →
    Name p ∉ chain → DialContext p (metadata st') = (false, m) →
    rematch_step (chain, rules, st)
      (chain ++ [Name p], put_rules subRules (metadata st) rules rules', with_metadata m st').

Definition answer_spec (chain : list str) (rules : list TopRule) (st : ctx) (out : option Proxy * option TopRule) (st' : ctx) : Prop :=
  match out with
  | (Some p, Some r) =>
    uses rules st p r st' ∨
    ∃ st1, rematches rules st p r st1 ∧
      (Name p ∈ chain ∧ st' = st1 ∨ ∃ m, DialContext p (metadata st1) = (true, m) ∧ st' = with_metadata m st1)
  | (None, Some _) => False
  | (p, None) => p = proxies !! lit "DIRECT" ∧ passes_over rules st st'
  end.

(** C4: the outbound of a connection is decided by the first rule that applies.
    After the rematches, the answer comes from the rules that are then in force
    (a sub-rule list where one is selected): the first rule that matches, has a
    known outbound that neither leads to a Pass outbound nor fails to carry a
    UDP connection, decides; when every rule is passed over the outbound is
    [DIRECT]; and a rematch outbound is only returned when it was used before
    or refused the connection. *)
Theorem matchWithState_first_match rounds : ∀ chain rules st out rules' st',
  matchWithState rounds chain rules st = Ok (out, rules', st') →
  ∃ chain0 rules0 st0, rtc rematch_step (chain, rules, st) (chain0, rules0, st0) ∧
    answer_spec chain0 (getRules subRules (metadata st0) rules0) st0 out st'.
Proof.
  induction rounds as [|rounds IH]; intros chain rules st out rules' st'; cbn [Routing.matchWithState]; [done|].
  intros ([[d rs] st1] & Hm & Hrest)%result_bind_Ok. pose proof (match_rules_spec _ _ _ _ _ Hm) as Hd.
  destruct d as [|p r|p r].
  - assert (out = (proxies !! lit "DIRECT", None) ∧ st' = st1) as [-> ->] by (split; congruence).
    exists chain, rules, st. split; [apply rtc_refl|]. unfold answer_spec. destruct (proxies !! lit "DIRECT"); by split.
  - injection Hrest as <- <- <-. exists chain, rules, st. split; [apply rtc_refl|]. by left.
  - destruct (bool_decide (Name p ∈ chain)) eqn:Ec.
    { apply bool_decide_eq_true in Ec. injection Hrest as <- <- <-. exists chain, rules, st. split; [apply rtc_refl|].
      right. exists st1. split; [done|by left]. }
    apply bool_decide_eq_false in Ec. destruct (DialContext p (metadata st1)) as [[] m] eqn:Ed.
    { injection Hrest as <- <- <-. exists chain, rules, st. split; [apply rtc_refl|].
      right. exists st1. split; [done|]. right. by exists m. }
    apply IH in Hrest as (chain0 & rules0 & st0 & Hr & Ha). exists chain0, rules0, st0. split; [|done].
    eapply rtc_l; [|done]. by econstructor.
Qed.
End first_match.

(** ** Theorems *)

Section theorems.
Context `{RuleEnv} `{!RuleEnvLaws} `{SortSlice} `{ProxyEnv} `{!ProxyEnvLaws}.
#[local] Set Default Proof Using "All".

(** C3: a configuration that was accepted routes every connection. Whatever
    the look-ups answer, [matchWithState] over the parsed rules and sub-rules
    returns, with an outbound or [DIRECT]: the rules and the sub-rules can be
    evaluated to an end, groups are unwrapped at most as deep as they nest, and
    there are at most one more rounds than rematch outbounds. *)
Theorem accepted_config_routes (bfuel : nat) (subConfig : gmap str (list str)) (lines : list str)
    (names ruleProviders : gset str) (subRules : gmap str (list (Rule ruleMatchContext)))
    (rules : list (Rule ruleMatchContext)) (now : Z) (helper : Helper) (proxies : gmap str Proxy) :
  parseSubRules bfuel subConfig names ruleProviders = Ok subRules →
  parseRules bfuel lines names ruleProviders subRules = Ok rules →
  ∃ fuel, ∀ st, ∃ out, ∀ f, (fuel ≤ f)%nat →
    matchWithState now helper proxies subRules (S (length rematch_names)) f (S max_depth) []
      (Wrapped ∘ NewRuleWrapper <$> rules) st = Ok out.
Proof.
  intros [Hv Hb]%parseSubRules_ok Hr%parseRules_built.
  assert (Hret : ∀ r, well_built r = true → ∃ F, stable helper subRules F r).
  { intros r Hw. by apply (wellbuilt_returns helper subRules r Hv Hb Hw). }
  destruct (stable_all helper subRules (rules ++ concat (map_to_list subRules).*2)) as [F HF].
  { apply Forall_app. split; [by eapply Forall_impl|]. apply Forall_forall.
    intros r (n & rs & Hn & Hin)%elem_of_lists. apply Hret. specialize (Hb _ _ Hn). rewrite Forall_forall in Hb. by apply Hb. }
  apply Forall_app in HF as [HF1 HF2]. exists F. intros st. apply matchWithState_rounds.
  - intros n rs Hn. apply Forall_forall. intros r Hr'. rewrite Forall_forall in HF2. apply HF2, elem_of_lists. eauto.
  - constructor.
  - intros x Hx. by apply not_elem_of_nil in Hx.
  - cbn. lia.
  - unfold top_stable. apply Forall_fmap. by eapply Forall_impl.
Qed.
End theorems.

(** ** Instances *)

#[local] Existing Instances demo_env demo_laws merge_sort_slice.

(** DIRECT, an outbound without UDP, and one that continues with the list [s]. *)
Definition demo_proxies : ProxyEnv := {|
  Proxy := nat;
  Name := λ p, match p with 0 => lit "DIRECT" | 1 => lit "AGAIN" | _ => lit "P" end;
  ProxyType := λ p, match p with 0 => Direct | 1 => Rematch | _ => Http end;
  SupportUDP := λ p, (p <? 2)%nat;
  Unwrap := λ _ _, None;
  DialContext := λ p m, match p with
    | 1 => Rematch_DialContext (MkRematch (lit "AGAIN") None (Some (lit "s"))) m
    | _ => (true, m)
    end
|}.
#[local] Existing Instance demo_proxies.
Definition demo_proxy_laws : ProxyEnvLaws.
Proof.
  refine {| depth := λ _, 0; max_depth := 0; rematch_names := [lit "AGAIN"] |}; [done|done|].
  intros [|[|p]]; try done. intros _. left.
Defined.
#[local] Existing Instance demo_proxy_laws.

Definition demo_names : gset str := {[ lit "DIRECT"; lit "AGAIN"; lit "P" ]}.
Definition demo_map : gmap str Proxy := {[ lit "DIRECT" := 0; lit "AGAIN" := 1; lit "P" := 2 ]}.
Definition demo_sub : gmap str (list str) := {[ lit "s" := [lit "DOMAIN,a.com,P"; lit "MATCH,DIRECT"] ]}.
Definition demo_lines : list str := [lit "DOMAIN-SUFFIX,com,AGAIN"; lit "AND,((DST-PORT,80),(NETWORK,tcp)),P"; lit "MATCH,DIRECT"].

Definition demo_config : result (gmap str (list (Rule ruleMatchContext)) * list (Rule ruleMatchContext)) :=
  subRules ← parseSubRules 9 demo_sub demo_names ∅;
  rules ← parseRules 9 demo_lines demo_names ∅ subRules; Ok (subRules, rules).

Lemma accepted_config_routes_witness :
  ∃ subRules rules, parseSubRules 9 demo_sub demo_names ∅ = Ok subRules ∧ parseRules 9 demo_lines demo_names ∅ subRules = Ok rules ∧
    ∃ fuel, ∀ st, ∃ out, ∀ f, (fuel ≤ f)%nat →
      matchWithState 0 no_lookups demo_map subRules 2 f 1 [] (Wrapped ∘ NewRuleWrapper <$> rules) st = Ok out.
Proof.
  assert (Hok : is_ok demo_config = true) by (vm_compute; reflexivity). unfold demo_config in Hok.
  destruct (parseSubRules 9 demo_sub demo_names ∅) as [subRules|e|] eqn:Es; [|discriminate Hok..].
  cbn [mbind result_bind] in Hok.
  destruct (parseRules 9 demo_lines demo_names ∅ subRules) as [rules|e|] eqn:Er; [|discriminate Hok..].
  exists subRules, rules. split; [reflexivity|]. split; [exact Er|].
  exact (accepted_config_routes 9 demo_sub demo_lines demo_names ∅ subRules rules 0 no_lookups demo_map Es Er).
Defined.

(** A UDP connection passes over the outbound without UDP. *)
Definition udp_context : ruleMatchContext :=
  MkContext (MkMetadata UDP HTTP AddrZero AddrZero None None [] [] 0 53 AddrZero 0 [] [] [] [] DNSNormal 0 [] [] [] [] [] 0 []) false false.
Definition udp_rules : list TopRule := [Bare (common (RMatch (lit "P"))); Bare (common (RMatch (lit "DIRECT")))].
Lemma matchWithState_first_match_witness :
  ∃ chain0 rules0 st0, rtc (rematch_step 0 no_lookups demo_map ∅ 1 1) ([], udp_rules, udp_context) (chain0, rules0, st0) ∧
    answer_spec 0 no_lookups demo_map ∅ 1 chain0 (getRules ∅ (metadata st0) rules0) st0
      (Some 0, Some (Bare (common (RMatch (lit "DIRECT"))))) udp_context.
Proof.
  apply (matchWithState_first_match 0 no_lookups demo_map ∅ 1 1 2 [] udp_rules udp_context
    (Some 0, Some (Bare (common (RMatch (lit "DIRECT"))))) udp_rules udp_context). reflexivity.
Defined.
