(* ===== verification/GroupDag.v ===== *)
(** * GroupDag: the dependencies of proxy groups and of dialer proxies

    [src/config/utils.go]. [proxyGroupsDagSort] sorts the proxy groups of the
    configuration so that every group comes after the groups it contains, or
    reports the groups of a loop; [validateDialerProxies] refuses chains of
    dialer proxies that do not end.

    The graph of the sort is a map from names to nodes; a missing node that the
    code would dereference is a panic. The order in which Go ranges over a map is
    not specified: every range statement takes its order from [MapRange]. The
    decoder of a group's mapping ([common/structure], over reflection) is a
    parameter; it refuses a mapping without a name, so the mappings are not nil. *)
From S2P Require Import Prelude.
From stdpp Require Import relations.

(** The order of the [n]-th range statement over a map. *)
Class MapRange := {
  map_range : ∀ {V : Type}, nat → gmap str V → list str;
  map_range_perm : ∀ {V : Type} n (m : gmap str V), map_range n m ≡ₚ (map_to_list m).*1
}.

(** [outboundgroup.GroupCommonOption]. *)
Record GroupCommonOption := MkGroupOption {
  go_Name : str;
  go_Type : str;
  go_Proxies : list str;
  go_Use : list str;
  go_URL : str;
  go_Interval : Z;
  go_TestTimeout : Z;
  go_MaxFailedTimes : Z;
  go_EmptyFallback : str;
  go_Lazy : bool;
  go_DisableUDP : bool;
  go_Filter : str;
  go_ExcludeFilter : str;
  go_ExcludeType : str;
  go_ExpectedStatus : str;
  go_IncludeAll : bool;
  go_IncludeAllProxies : bool;
  go_IncludeAllProviders : bool;
  go_Hidden : bool;
  go_Icon : str
}.

Section sort.
Context {Mapping : Type} (Decode : Mapping → GroupCommonOption + string) `{MapRange}.

(** ** The sort *)

Record graphNode := MkNode {
  indegree : Z;
  topo : Z;
  g_data : option Mapping;
  outdegree : Z;
  g_option : option GroupCommonOption;
  from : list str
}.
Definition set_indegree (d : Z) (n : graphNode) : graphNode :=
  MkNode d (topo n) (g_data n) (outdegree n) (g_option n) (from n).
Definition set_outdegree (d : Z) (n : graphNode) : graphNode :=
  MkNode (indegree n) (topo n) (g_data n) d (g_option n) (from n).
Definition add_from (name : str) (n : graphNode) : graphNode :=
  MkNode (indegree n) (topo n) (g_data n) (outdegree n) (g_option n) (from n ++ [name]).
Definition set_group (m : Mapping) (o : GroupCommonOption) (n : graphNode) : graphNode :=
  MkNode (indegree n) (topo n) (Some m) (outdegree n) (Some o) (from n).

Abbreviation Graph := (gmap str graphNode).

(** What the sort returns: the sorted mappings, or one of its three errors. *)
Inductive dag_outcome :=
| DagSorted (groups : list Mapping)
| DagDecode (mapping : Mapping) (err : string)
| DagDuplicate (name : str)
| DagLoop (loopElements : list str).

(** Step 1.1: the nodes of a group and of its members. *)
Definition add_member (graph : Graph) (proxy : str) : Graph :=
  match graph !! proxy with
  | Some node => <[proxy := set_indegree (indegree node + 1) node]> graph
  | None => <[proxy := MkNode 1 (-1) None 0 None []]> graph
  end.

Definition add_group (graph : Graph) (mapping : Mapping) : Graph + dag_outcome :=
  match Decode mapping with
  | inr err => inr (DagDecode mapping err)
  | inl option =>
    let groupName := go_Name option in
    match graph !! groupName with
    | Some node =>
      match g_data node with
      | Some _ => inr (DagDuplicate groupName)
      | None => inl (foldl add_member (<[groupName := set_group mapping option node]> graph) (go_Proxies option))
      end
    | None => inl (foldl add_member (<[groupName := MkNode 0 (-1) (Some mapping) 0 (Some option) []]> graph) (go_Proxies option))
    end
  end.

Fixpoint build_graph (graph : Graph) (groupsConfig : list Mapping) : Graph + dag_outcome :=
  match groupsConfig with
  | [] => inl graph
  | mapping :: rest =>
    match add_group graph mapping with
    | inl graph => build_graph graph rest
    | inr e => inr e
    end
  end.

(** One turn of the loops over [node.option.Proxies] and [node.from]: a degree
    goes down, and its node joins the queue when it reaches zero. *)
Definition countdown (degree : graphNode → Z) (set_degree : Z → graphNode → graphNode)
    (st : Graph * list str) (name : str) : result (Graph * list str) :=
  let '(graph, queue) := st in
  match graph !! name with
  | None => Panic
  | Some node =>
    let d := (degree node - 1)%Z in
    Ok (<[name := set_degree d node]> graph, if (d =? 0)%Z then queue ++ [name] else queue)
  end.

(** [groupsConfig[len(groupsConfig)-index] = node.data]; a group has its data. *)
Definition store_group (groupsConfig : list Mapping) (index : nat) (data : option Mapping) : result (list Mapping) :=
  match data with
  | Some m => if (index <=? length groupsConfig)%nat then Ok (<[(length groupsConfig - index)%nat := m]> groupsConfig) else Panic
  | None => Panic
  end.

(** Step 1.2. *)
Fixpoint sort_loop (fuel : nat) (graph : Graph) (index : nat) (groupsConfig : list Mapping) (queue : list str)
    : result (Graph * list Mapping) :=
  match queue with
  | [] => Ok (graph, groupsConfig)
  | name :: queue =>
    match fuel, graph !! name with
    | S fuel, Some node =>
      match g_option node with
      | None => sort_loop fuel (delete name graph) index groupsConfig queue
      | Some option =>
        groupsConfig ← store_group groupsConfig (S index) (g_data node);
        '(graph, queue) ← foldM (countdown indegree set_indegree) (graph, queue) (go_Proxies option);
        sort_loop fuel (delete name graph) (S index) groupsConfig queue
      end
    | _, _ => Panic
    end
  end.

(** The names whose degree is zero, in the order of the [n]-th range. *)
Definition free_names (degree : graphNode → Z) (n : nat) (graph : Graph) : list str :=
  filter (λ name, degree <$> graph !! name = Some 0%Z) (map_range n graph).

(** Step 2.1. *)
Definition link (name : str) (graph : Graph) (proxy : str) : result Graph :=
  match graph !! name with
  | None => Panic
  | Some node =>
    let graph := <[name := set_outdegree (outdegree node + 1) node]> graph in
    match graph !! proxy with
    | None => Panic
    | Some child => Ok (<[proxy := add_from name child]> graph)
    end
  end.
Definition link_node (graph : Graph) (name : str) : result Graph :=
  match graph !! name with
  | None => Panic
  | Some node => match g_option node with
                 | None => Ok graph
                 | Some option => foldM (link name) graph (go_Proxies option)
                 end
  end.

(** Step 2.2. *)
Fixpoint trim_loop (fuel : nat) (graph : Graph) (queue : list str) : result Graph :=
  match queue with
  | [] => Ok graph
  | name :: queue =>
    match fuel, graph !! name with
    | S fuel, Some node =>
      '(graph, queue) ← foldM (countdown outdegree set_outdegree) (graph, queue) (from node);
      trim_loop fuel (delete name graph) queue
    | _, _ => Panic
    end
  end.

(** Every name is in a queue at most once, so the size of the graph bounds the
    turns of both loops. *)
Definition proxyGroupsDagSort (groupsConfig : list Mapping) : result dag_outcome :=
  match build_graph ∅ groupsConfig with
  | inr e => Ok e
  | inl graph =>
    '(graph, groupsConfig) ← sort_loop (size graph) graph 0 groupsConfig (free_names indegree 0 graph);
    if decide (graph = ∅) then Ok (DagSorted groupsConfig)
    else
      graph ← foldM link_node graph (map_range 1 graph);
      graph ← trim_loop (size graph) graph (free_names outdegree 2 graph);
      Ok (DagLoop (map_range 3 graph))
  end.
End sort.

(** ** Dialer proxies *)

Inductive dialer_error := DialerNotFound (name dialerProxy : str) | DialerCycle (name : str).

Section dialer.
Context `{MapRange}.

Inductive walk_state := OnPath | Acyclic.
#[export] Instance walk_state_eq_dec : EqDecision walk_state.
Proof. solve_decision. Defined.

(** The walk from a proxy along its dialer proxies: the state and the path, or
    [None] for a cycle. *)
Fixpoint walk_chain (fuel : nat) (graph : gmap str str) (current : option str) (state : gmap str walk_state)
    (path : list str) : result (option (gmap str walk_state * list str)) :=
  match current with
  | None => Ok (Some (state, path))
  | Some current =>
    if decide (state !! current = Some Acyclic) then Ok (Some (state, path))
    else if decide (state !! current = Some OnPath) then Ok None
    else match fuel with
         | 0 => Panic
         | S fuel => walk_chain fuel graph (graph !! current) (<[current := OnPath]> state) (path ++ [current])
         end
  end.

(** A chain has at most the names of the graph and one more. *)
Fixpoint walk_names (graph : gmap str str) (names : list str) (state : gmap str walk_state) : result (option dialer_error) :=
  match names with
  | [] => Ok None
  | name :: names =>
    o ← walk_chain (S (size graph)) graph (Some name) state [];
    match o with
    | None => Ok (Some (DialerCycle name))
    | Some (state, path) => walk_names graph names (foldl (λ state p, <[p := Acyclic]> state) state path)
    end
  end.

Definition validateDialerProxiesHasCycle (graph : gmap str str) : result (option dialer_error) :=
  walk_names graph (map_range 0 graph) ∅.

(** The configured dialer proxies; [proxies] gives the dialer proxy of every
    proxy, empty when it has none. *)
Fixpoint collect_dialers (proxies : gmap str str) (names : list str) (graph : gmap str str) : gmap str str + dialer_error :=
  match names with
  | [] => inl graph
  | name :: names =>
    match proxies !! name with
    | Some (c :: dialerProxy) =>
      match proxies !! (c :: dialerProxy) with
      | None => inr (DialerNotFound name (c :: dialerProxy))
      | Some _ => collect_dialers proxies names (<[name := c :: dialerProxy]> graph)
      end
    | _ => collect_dialers proxies names graph
    end
  end.

Definition validateDialerProxies (proxies : gmap str str) : result (option dialer_error) :=
  match collect_dialers proxies (map_range 0 proxies) ∅ with
  | inr e => Ok (Some e)
  | inl graph => validateDialerProxiesHasCycle graph
  end.
End dialer.

(** The order of stdpp's maps is one of them. *)
Definition list_range : MapRange := {| map_range V n m := (map_to_list m).*1; map_range_perm V n m := reflexivity _ |}.

(** * Finite directed graphs *)

Section digraph.
Context (R : relation str).

Lemma tc_last x y : tc R x y → ∃ z, rtc R x z ∧ R z y.
Proof.
  induction 1 as [x y Hxy|x y z Hxy _ (w & Hw & Hwz)]; [by exists x|]. exists w. split; [by eapply rtc_l|done].
Qed.
Lemma tc_first x y : tc R x y → ∃ z, R x z ∧ rtc R z y.
Proof. intros Ht. destruct Ht as [x y Hxy|x y z Hxy Hyz]; [by exists y|]. exists y. split; [done|by apply tc_rtc]. Qed.
Lemma tc_rtc_cycle x y : tc R x x → rtc R x y → tc R x y.
Proof. intros Ht Hr. by eapply tc_rtc_r. Qed.

(** When every element of a finite set has a predecessor in it, every element
    can be reached from a cycle. *)
Lemma pred_cycle (L : gset str) : (∀ n, n ∈ L → ∃ m, m ∈ L ∧ R m n) →
  ∀ n, n ∈ L → ∃ c, tc R c c ∧ rtc R c n.
Proof.
  intros Hpred n0 Hn0.
  assert (∀ k (visited : list str) x, size L - length visited ≤ k → NoDup (x :: visited) → Forall (.∈ L) (x :: visited) →
    Forall (tc R x) visited → rtc R x n0 → ∃ c, tc R c c ∧ rtc R c n0) as Hgen.
  { induction k as [|k IH]; intros visited x Hk Hnd Hin Hv Hx.
    all: assert (length (x :: visited) ≤ size L) as Hlen by
      (change (size L) with (length (elements L)); apply submseteq_length, NoDup_submseteq; [done|]; intros z Hz; rewrite Forall_forall in Hin;
       apply elem_of_elements, Hin, Hz).
    all: cbn in Hlen. { lia. }
    destruct (Hpred x) as (m & Hm & Hmx); [by apply Forall_cons in Hin as [? _]|].
    destruct (decide (m ∈ x :: visited)) as [Hseen|Hnew].
    - exists m. split; [|by eapply rtc_l]. apply elem_of_cons in Hseen as [->|Hseen]; [by apply tc_once|].
      rewrite Forall_forall in Hv. eapply tc_l; [exact Hmx|by apply Hv].
    - apply (IH (x :: visited) m); [cbn; lia|by constructor|by constructor| |by eapply rtc_l].
      constructor; [by apply tc_once|]. eapply Forall_impl; [exact Hv|]. intros z Hz. by eapply tc_l. }
  apply (Hgen (size L) [] n0); [lia|apply NoDup_singleton|by repeat constructor|constructor|done].
Qed.
End digraph.

Lemma tc_flip (R : relation str) x y : tc (flip R) x y → tc R y x.
Proof. induction 1 as [x y Hxy|x y z Hxy _ IH]; [by apply tc_once|]. by eapply tc_r. Qed.
Lemma rtc_flip' (R : relation str) x y : rtc (flip R) x y → rtc R y x.
Proof. induction 1 as [|x y z Hxy _ IH]; [done|]. by eapply rtc_r. Qed.

Lemma succ_cycle (R : relation str) (L : gset str) : (∀ n, n ∈ L → ∃ m, m ∈ L ∧ R n m) →
  ∀ n, n ∈ L → ∃ c, tc R c c ∧ rtc R n c.
Proof.
  intros Hs n Hn. destruct (pred_cycle (flip R) L Hs n Hn) as (c & Hc & Hcn). exists c. by split; [apply tc_flip|apply rtc_flip'].
Qed.

(** ** Counting references *)

Definition occ (n : str) (l : list str) : nat := length (filter (n =.) l).

Lemma occ_nil n : occ n [] = 0.
Proof. done. Qed.
Lemma occ_cons n x l : occ n (x :: l) = (if decide (n = x) then 1 else 0) + occ n l.
Proof. unfold occ. rewrite filter_cons. by case_decide. Qed.
Lemma occ_concat n l k : occ n (l ++ k) = occ n l + occ n k.
Proof. unfold occ. by rewrite filter_app, length_app. Qed.
Lemma occ_zero n l : occ n l = 0 ↔ n ∉ l.
Proof.
  induction l as [|x l IH]; [rewrite occ_nil; split; [intros _; apply not_elem_of_nil|done]|].
  rewrite occ_cons, not_elem_of_cons, <- IH. case_decide; naive_solver lia.
Qed.
Lemma occ_pos n l : 0 < occ n l ↔ n ∈ l.
Proof. pose proof (occ_zero n l) as Hz. destruct (decide (n ∈ l)); split; intros; try done; destruct (occ n l); naive_solver lia. Qed.
Lemma occ_replicate n m k : occ n (replicate k m) = if decide (n = m) then k else 0.
Proof.
  induction k as [|k IH]; cbn [replicate]; [rewrite occ_nil; by case_decide|]. rewrite occ_cons, IH. by case_decide.
Qed.
Lemma occ_bind {A} n (f : A → list str) l : occ n (l ≫= f) = sum_list_with (λ x, occ n (f x)) l.
Proof. induction l as [|x l IH]; [done|]. cbn [mbind list_bind sum_list_with]. by rewrite occ_concat, IH. Qed.

Lemma sum_list_with_zero {A} (f : A → nat) l : (∀ x, x ∈ l → f x = 0) → sum_list_with f l = 0.
Proof.
  induction l as [|x l IH]; intros Hf; [done|]. cbn [sum_list_with]. rewrite (Hf x) by left. apply IH.
  intros y Hy. apply Hf. by right.
Qed.
Lemma sum_list_with_ext {A} (f g : A → nat) l : (∀ x, x ∈ l → f x = g x) → sum_list_with f l = sum_list_with g l.
Proof.
  induction l as [|x l IH]; intros Hf; [done|]. cbn [sum_list_with]. rewrite (Hf x) by left. f_equal. apply IH.
  intros y Hy. apply Hf. by right.
Qed.

(** The references of the nodes in [L] to [n]. *)
Definition refs (succ : str → list str) (L : gset str) (n : str) : nat := sum_list_with (λ m, occ n (succ m)) (elements L).

Lemma refs_delete (succ : str → list str) L m n : m ∈ L → refs succ L n = occ n (succ m) + refs succ (L ∖ {[m]}) n.
Proof.
  intros Hm. unfold refs. rewrite (union_difference_L {[m]} L) at 1 by set_solver.
  by rewrite elements_union_singleton by set_solver.
Qed.
Lemma refs_pos (succ : str → list str) L n : 0 < refs succ L n ↔ ∃ m, m ∈ L ∧ n ∈ succ m.
Proof.
  setoid_rewrite <- (occ_pos n). setoid_rewrite <- (elem_of_elements L). unfold refs.
  induction (elements L) as [|x l IH]; [cbn; split; [lia|by intros (m & ?%not_elem_of_nil & _)]|].
  cbn [sum_list_with]. setoid_rewrite elem_of_cons. split.
  - intros Hs. destruct (decide (0 < occ n (succ x))) as [|]; [by exists x; eauto|]. destruct (proj1 IH) as (m & ? & ?); [lia|]. exists m. eauto.
  - intros (m & [->|Hm] & Ho); [lia|]. enough (0 < sum_list_with (λ m, occ n (succ m)) l) by lia. apply IH. eauto.
Qed.

(** References from a list without duplicates that has all the sources. *)
Lemma refs_names (succ : str → list str) (L : gset str) names n : NoDup names → (∀ m, m ∈ names → m ∈ L) → (∀ m, m ∉ names → succ m = []) →
  refs succ L n = sum_list_with (λ m, occ n (succ m)) names.
Proof.
  intros Hnd Hin Hno. unfold refs.
  assert (elements L ≡ₚ names ++ elements (L ∖ list_to_set names)) as Hp.
  { apply NoDup_Permutation; [apply NoDup_elements|apply NoDup_app; split; [done|]; split; [set_solver|apply NoDup_elements]|].
    intros x. rewrite elem_of_app, !elem_of_elements, elem_of_difference, elem_of_list_to_set.
    destruct (decide (x ∈ names)); naive_solver. }
  rewrite Hp, sum_list_with_app, (sum_list_with_zero _ (elements _)); [lia|].
  intros x Hx%elem_of_elements. rewrite Hno by set_solver. done.
Qed.

(** Counting the elements of a list by value. *)
Lemma sum_occ (L : gset str) l : (∀ x, x ∈ l → x ∈ L) → sum_list_with (λ m, occ m l) (elements L) = length l.
Proof.
  induction l as [|x l IH]; intros Hl; [by apply sum_list_with_zero|]. cbn [length].
  rewrite <- (IH ltac:(intros; apply Hl; by right)). assert (x ∈ L) as Hx by (apply Hl; left).
  rewrite (union_difference_L {[x]} L) by set_solver. rewrite elements_union_singleton by set_solver. cbn [sum_list_with].
  rewrite occ_cons, decide_True by done. cbn [Nat.add]. do 2 f_equal. apply sum_list_with_ext. intros y Hy%elem_of_elements.
  rewrite occ_cons, decide_False by set_solver. done.
Qed.

(** * The queue of nodes without references *)

Section peel.
Context {Mapping : Type} (degree : graphNode (Mapping := Mapping) → Z).
Context (set_degree : Z → graphNode (Mapping := Mapping) → graphNode (Mapping := Mapping)).
Context (get_set : ∀ d n, degree (set_degree d n) = d) (set_set : ∀ d d' n, set_degree d (set_degree d' n) = set_degree d n)
  (set_get : ∀ n, set_degree (degree n) n = n).
#[local] Set Default Proof Using "All".

Lemma countdown_fold l graph queue :
  (∀ n, n ∈ l → ∃ node, graph !! n = Some node ∧ (Z.of_nat (occ n l) ≤ degree node)%Z) →
  ∃ graph' fresh, foldM (countdown degree set_degree) (graph, queue) l = Ok (graph', queue ++ fresh)
  ∧ (∀ n, graph' !! n = (λ node, set_degree (degree node - Z.of_nat (occ n l)) node) <$> graph !! n)
  ∧ NoDup fresh ∧ ∀ n, n ∈ fresh ↔ n ∈ l ∧ degree <$> graph !! n = Some (Z.of_nat (occ n l)).
Proof.
  revert graph queue. induction l as [|x l IH]; intros graph queue Hl.
  { exists graph, []. cbn [foldM]. rewrite app_nil_r. split; [done|]. split; [|split; [constructor|]].
    - intros n. destruct (graph !! n) as [node|]; [|done]. cbn [fmap option_fmap option_map]. rewrite occ_nil, Z.sub_0_r. by rewrite set_get.
    - intros n. rewrite !elem_of_nil. tauto. }
  destruct (Hl x) as (node & Hx & Hd); [left|]. rewrite occ_cons, decide_True in Hd by done.
  set (graph1 := <[x := set_degree (degree node - 1) node]> graph).
  set (queue1 := if (degree node - 1 =? 0)%Z then queue ++ [x] else queue).
  destruct (IH graph1 queue1) as (graph' & fresh & Hf & Hg & Hnd & Hfresh).
  { intros n Hn. destruct (Hl n) as (node' & Hn' & Hd'); [by right|]. rewrite occ_cons in Hd'. unfold graph1.
    destruct (decide (n = x)) as [->|Hne]; [rewrite lookup_insert_eq|rewrite lookup_insert_ne by done]; eexists; (split; [done|]).
    - rewrite get_set. lia.
    - lia. }
  exists graph', (if (degree node - 1 =? 0)%Z then x :: fresh else fresh). split; [|split; [|split]].
  - cbn [foldM countdown]. rewrite Hx. cbn [mbind result_bind]. fold graph1 queue1. rewrite Hf. unfold queue1.
    destruct (_ =? 0)%Z; [|done]. by rewrite <- app_assoc.
  - intros n. rewrite Hg, occ_cons. unfold graph1. destruct (decide (n = x)) as [->|Hne].
    + rewrite lookup_insert_eq, Hx. cbn. rewrite set_set, get_set. do 2 f_equal. lia.
    + by rewrite lookup_insert_ne.
  - destruct (Z.eqb_spec (degree node - 1) 0) as [He|He]; [|done]. constructor; [|done]. rewrite Hfresh. intros [Hin _].
    apply occ_pos in Hin. lia.
  - intros n. assert (n ∈ fresh ↔ n ∈ l ∧ degree <$> graph1 !! n = Some (Z.of_nat (occ n l))) as Hn by apply Hfresh.
    rewrite occ_cons. unfold graph1 in Hn. destruct (decide (n = x)) as [->|Hne].
    + rewrite lookup_insert_eq in Hn. rewrite Hx. cbn in Hn |- *. rewrite get_set in Hn. rewrite elem_of_cons.
      pose proof (occ_zero x l) as Hz. destruct (Z.eqb_spec (degree node - 1) 0) as [He|He].
      * rewrite elem_of_cons. split; [intros _; split; [by left|]; f_equal; lia|by left].
      * rewrite Hn. split; [intros [? [= Hq]]; split; [by right|]; f_equal; lia|]. intros [_ [= Hq]].
        split; [|f_equal; lia]. apply occ_pos. lia.
    + rewrite lookup_insert_ne in Hn by done. cbn [Nat.add]. rewrite elem_of_cons.
      destruct (_ =? 0)%Z; rewrite ?elem_of_cons; rewrite Hn; naive_solver.
Qed.

(** Degrees count the references from the nodes of the graph, references stay in
    it, and the queue has the nodes without any. *)
Record peel (succ : str → list str) (graph : gmap str graphNode) (queue : list str) : Prop := {
  peel_degree : ∀ n node, graph !! n = Some node → degree node = Z.of_nat (refs succ (dom graph) n);
  peel_closed : ∀ m n, m ∈ dom graph → n ∈ succ m → n ∈ dom graph;
  peel_nodup : NoDup queue;
  peel_queue : ∀ n, n ∈ queue ↔ n ∈ dom graph ∧ refs succ (dom graph) n = 0
}.

(** Taking a node off the queue. *)
Lemma peel_step succ graph name queue : peel succ graph (name :: queue) →
  ∃ graph' queue', foldM (countdown degree set_degree) (graph, queue) (succ name) = Ok (graph', queue')
  ∧ (∀ n, graph' !! n = (λ node, set_degree (degree node - Z.of_nat (occ n (succ name))) node) <$> graph !! n)
  ∧ peel succ (delete name graph') queue' ∧ dom (delete name graph') = dom graph ∖ {[name]} ∧ name ∈ dom graph
  ∧ ∀ m, m ∈ dom graph → name ∉ succ m.
Proof.
  intros [Hdeg Hcl Hnd Hq]. destruct (proj1 (Hq name) ltac:(left)) as [Hname Hrefs].
  assert (∀ n, refs succ (dom graph) n = occ n (succ name) + refs succ (dom graph ∖ {[name]}) n) as Hsplit
    by (intros n; by apply refs_delete).
  assert (∀ m, m ∈ dom graph → name ∉ succ m) as Hno.
  { intros m Hm Hin. assert (0 < refs succ (dom graph) name) by (apply refs_pos; eauto). lia. }
  destruct (countdown_fold (succ name) graph queue) as (graph' & fresh & Hf & Hg & Hndf & Hfresh).
  { intros n Hn. pose proof (Hcl name n Hname Hn) as [node Hnode]%elem_of_dom. exists node. split; [done|].
    rewrite (Hdeg n node Hnode), Hsplit. lia. }
  assert (dom graph' = dom graph) as Hdom.
  { apply set_eq. intros n. by rewrite !elem_of_dom, Hg, fmap_is_Some. }
  exists graph', (queue ++ fresh). split; [done|]. split; [done|].
  assert (dom (delete name graph') = dom graph ∖ {[name]}) as Hdom' by (by rewrite dom_delete_L, Hdom).
  split; [|by split; [|split]]. apply NoDup_cons in Hnd as [Hnq Hnd].
  assert (∀ n, n ∈ fresh → n ∈ dom graph ∧ n ≠ name ∧ 0 < refs succ (dom graph) n ∧ refs succ (dom graph ∖ {[name]}) n = 0) as Hfr.
  { intros n [Hin He]%Hfresh. pose proof (Hcl name n Hname Hin) as Hn. split; [done|]. split; [by intros ->; apply (Hno name)|].
    apply elem_of_dom in Hn as [node Hn]. rewrite Hn in He. injection He as He. rewrite (Hdeg n node Hn), Hsplit in He.
    rewrite Hsplit. apply occ_pos in Hin. lia. }
  split.
  - intros n node Hn. rewrite Hdom'. apply lookup_delete_Some in Hn as [Hne Hn]. rewrite Hg in Hn.
    destruct (graph !! n) as [node0|] eqn:E; [|done]. injection Hn as <-. rewrite get_set, (Hdeg n node0 E), Hsplit. lia.
  - intros m n. rewrite Hdom', !elem_of_difference, !not_elem_of_singleton. intros [Hm Hmn] Hin. split; [by eapply Hcl|].
    intros ->. by apply (Hno m).
  - apply NoDup_app. split; [done|]. split; [|done]. intros n Hn Hn'. apply Hfr in Hn' as (_ & _ & ? & _).
    assert (n ∈ name :: queue) as Hin by (by right). apply Hq in Hin as [_ ?]. lia.
  - intros n. rewrite Hdom', elem_of_app, elem_of_difference, not_elem_of_singleton. split.
    + intros [Hn|(? & ? & ? & ?)%Hfr]; [|done]. assert (n ∈ name :: queue) as Hin by (by right).
      apply Hq in Hin as [Hin Hz]. rewrite Hsplit in Hz. split; [|lia]. split; [done|]. by intros ->.
    + intros [[Hn Hne] Hz]. destruct (decide (n ∈ succ name)) as [Hin|Hout].
      * right. apply Hfresh. split; [done|]. apply elem_of_dom in Hn as [node Hn]. rewrite Hn. cbn.
        rewrite (Hdeg n node Hn), Hsplit, Hz. do 2 f_equal. lia.
      * left. apply occ_zero in Hout. assert (n ∈ name :: queue) as Hin by (apply Hq; split; [done|rewrite Hsplit; lia]).
        by apply elem_of_cons in Hin as [->|].
Qed.

End peel.

(** What is left when the queue is empty is referenced from what is left. *)
Lemma peel_end {Mapping} (degree : graphNode (Mapping := Mapping) → Z) succ graph : peel degree succ graph [] → ∀ n, n ∈ dom graph → ∃ m, m ∈ dom graph ∧ n ∈ succ m.
Proof.
  intros [_ _ _ Hq] n Hn. apply refs_pos. destruct (refs succ (dom graph) n) eqn:E; [|lia].
  assert (n ∈ @nil str) as ?%not_elem_of_nil by (by apply Hq). done.
Qed.

(** * The sort *)

Section sort_facts.
Context {Mapping : Type} (base : str → option (Mapping * GroupCommonOption)) (names : list str) (gs0 : list Mapping).
Context (names_nodup : NoDup names) (names_base : ∀ n, n ∈ names ↔ is_Some (base n)) (names_length : length gs0 = length names).
#[local] Set Default Proof Using "All".

(** The members of a group. *)
Definition members (n : str) : list str := default [] (go_Proxies ∘ snd <$> base n).

Definition untouched (n : str) (node : graphNode) : Prop :=
  g_option node = snd <$> base n ∧ g_data node = fst <$> base n ∧ outdegree node = 0%Z ∧ from node = [].

(** The groups that are placed, from the end of the list. *)
Definition placed (out : list (str * Mapping)) : list Mapping := take (length gs0 - length out) gs0 ++ reverse out.*2.

Record sort_inv (graph : gmap str graphNode) (queue : list str) (out : list (str * Mapping)) : Prop := {
  sort_peel : peel indegree members graph queue;
  sort_untouched : ∀ n node, graph !! n = Some node → untouched n node;
  sort_data : ∀ n m, (n, m) ∈ out → fst <$> base n = Some m;
  sort_nodup : NoDup out.*1;
  sort_gone : ∀ n, n ∈ out.*1 → n ∉ dom graph;
  sort_complete : ∀ n, n ∈ names → n ∈ out.*1 ∨ n ∈ dom graph;
  sort_order : ∀ i j n m, out.*1 !! i = Some n → out.*1 !! j = Some m → n ∈ members m → j < i
}.

Lemma sort_inv_names graph queue out : sort_inv graph queue out → ∀ n, n ∈ out.*1 → n ∈ names.
Proof.
  intros Hinv n ([n' m] & -> & Hnm)%list_elem_of_fmap. apply names_base. apply (sort_data _ _ _ Hinv) in Hnm. cbn.
  by destruct (base n').
Qed.

Lemma sort_inv_length graph queue out n : sort_inv graph queue out → n ∈ names → n ∉ out.*1 → length out < length gs0.
Proof.
  intros Hinv Hn Hout. rewrite names_length. assert (length (n :: out.*1) ≤ length names) as Hl; [|cbn in Hl; by rewrite length_fmap in Hl].
  apply submseteq_length, NoDup_submseteq; [constructor; [done|apply Hinv]|]. intros x [->|Hx]%elem_of_cons; [done|].
  by eapply sort_inv_names.
Qed.

Lemma store_placed out n m : length out < length gs0 →
  store_group (placed out) (S (length out)) (Some m) = Ok (placed (out ++ [(n, m)])).
Proof.
  intros Hl. assert (length (placed out) = length gs0) as Hlen.
  { unfold placed. rewrite length_app, length_reverse, length_fmap, length_take. lia. }
  unfold store_group. rewrite Hlen. destruct (Nat.leb_spec (S (length out)) (length gs0)) as [_|]; [|lia]. f_equal.
  unfold placed. rewrite length_app, fmap_app, reverse_app. cbn [length fmap list_fmap snd].
  replace (length gs0 - length out) with (S (length gs0 - S (length out))) by lia.
  replace (length gs0 - (length out + 1)) with (length gs0 - S (length out)) by lia.
  destruct (lookup_lt_is_Some_2 gs0 (length gs0 - S (length out))) as [x Hx]; [lia|].
  rewrite (take_S_r _ _ x Hx), <- app_assoc, insert_app_r_alt by (rewrite length_take; lia).
  rewrite length_take, Nat.min_l, Nat.sub_diag by lia. done.
Qed.

(** Taking one group off the queue keeps the invariant. *)
Lemma sort_step graph name queue out node : sort_inv graph (name :: queue) out → graph !! name = Some node →
  ∃ graph' queue', foldM (countdown indegree set_indegree) (graph, queue) (members name) = Ok (graph', queue')
  ∧ dom (delete name graph') = dom graph ∖ {[name]} ∧ (∀ m, m ∈ dom graph → name ∉ members m)
  ∧ match base name with
    | Some (m, o) => length out < length gs0 ∧ sort_inv (delete name graph') queue' (out ++ [(name, m)])
    | None => sort_inv (delete name graph') queue' out
    end.
Proof.
  intros Hinv Hnode. pose proof Hinv as [Hpeel Hun Hdata Hnd Hgone Hcomp Hord].
  destruct (peel_step indegree set_indegree ltac:(done) ltac:(done) ltac:(by intros []) members graph name queue Hpeel)
    as (graph' & queue' & Hf & Hg & Hpeel' & Hdom & Hname & Hno).
  exists graph', queue'. split; [done|]. split; [done|]. split; [done|].
  assert (∀ n node, delete name graph' !! n = Some node → untouched n node) as Hun'.
  { intros n node' [_ Hn]%lookup_delete_Some. rewrite Hg in Hn. destruct (graph !! n) as [node0|] eqn:E; [|done].
    injection Hn as <-. apply (Hun n node0 E). }
  assert (name ∉ out.*1) as Hnew by (by intros ?%Hgone).
  destruct (base name) as [[m o]|] eqn:Eb.
  - assert (name ∈ names) as Hin by (apply names_base; by rewrite Eb). split; [by eapply sort_inv_length|].
    split; rewrite ?fmap_app; cbn [fmap list_fmap fst]; [done|done| | | | |].
    + intros n m' [Hin'|[= -> ->]%list_elem_of_singleton]%elem_of_app; [by apply Hdata|]. by rewrite Eb.
    + apply NoDup_app. split; [done|]. split; [by intros x Hx ->%list_elem_of_singleton|apply NoDup_singleton].
    + intros n [Hx%Hgone| ->%list_elem_of_singleton]%elem_of_app; rewrite Hdom; set_solver.
    + intros n Hn. rewrite Hdom, elem_of_app, list_elem_of_singleton. destruct (Hcomp n Hn); [by eauto|].
      destruct (decide (n = name)); [by eauto|]. right. set_solver.
    + intros i j n m' Hi Hj Hin'. destruct (decide (j < length out.*1)) as [Hjl|Hjl].
      * rewrite lookup_app_l in Hj by done. destruct (decide (i < length out.*1)) as [Hil|Hil]; [|lia].
        rewrite lookup_app_l in Hi by done. by eapply Hord.
      * rewrite lookup_app_r in Hj by lia. apply list_lookup_singleton_Some in Hj as [_ <-]. exfalso.
        pose proof (peel_closed _ _ _ _ Hpeel name n Hname Hin') as Hn.
        apply list_elem_of_lookup_2, elem_of_app in Hi as [Hi| ->%list_elem_of_singleton]; [by apply (Hgone n)|by apply (Hno name)].
  - split; [done|done|done|done| | |done].
    + intros n Hn%Hgone. rewrite Hdom. set_solver.
    + intros n Hn. destruct (Hcomp n Hn) as [|Hd]; [by left|]. right. rewrite Hdom. apply elem_of_difference. split; [done|].
      intros ->%elem_of_singleton. apply names_base in Hn as [? Hn]. congruence.
Qed.

(** The loop takes off what is not held back by a loop. *)
Lemma sort_loop_spec fuel graph queue out : sort_inv graph queue out → size (dom graph) ≤ fuel →
  ∃ graph' out', sort_loop fuel graph (length out) (placed out) queue = Ok (graph', placed out') ∧ sort_inv graph' [] out'
  ∧ dom graph' ⊆ dom graph
  ∧ ∀ C : str → Prop, (∀ n, C n → n ∈ dom graph) → (∀ n, C n → ∃ m, C m ∧ n ∈ members m) → ∀ n, C n → n ∈ dom graph'.
Proof.
  revert graph queue out. induction fuel as [|fuel IH]; intros graph queue out Hinv Hfuel.
  all: destruct queue as [|name queue]; [by exists graph, out|].
  all: destruct (proj1 (peel_queue _ _ _ _ (sort_peel _ _ _ Hinv) name) ltac:(left)) as [Hname _].
  { assert (size (dom graph) ≠ 0) as ?; [|lia]. intros He%size_empty_inv. set_solver. }
  pose proof Hname as [node Hnode]%elem_of_dom.
  destruct (sort_step _ _ _ _ _ Hinv Hnode) as (graph' & queue' & Hf & Hdom & Hno & Hnext).
  destruct (sort_untouched _ _ _ Hinv name node Hnode) as (Hopt & Hdat & _).
  assert (size (dom (delete name graph')) ≤ fuel) as Hsz.
  { rewrite Hdom. rewrite size_difference by set_solver. rewrite size_singleton. lia. }
  assert (∀ C : str → Prop, (∀ n, C n → n ∈ dom graph) → (∀ n, C n → ∃ m, C m ∧ n ∈ members m) →
    ∀ n, C n → n ∈ dom (delete name graph')) as Hkeep.
  { intros C HC Hpred n Hn. rewrite Hdom. apply elem_of_difference. split; [by apply HC|].
    intros ->%elem_of_singleton. destruct (Hpred name Hn) as (p & Hp & Hin). by apply (Hno p); [apply HC|]. }
  cbn [sort_loop]. rewrite Hnode, Hopt, Hdat. unfold members in Hf.
  destruct (base name) as [[m o]|] eqn:Eb; cbn [fmap option_fmap option_map compose default from_option id fst snd] in *.
  - destruct Hnext as [Hl Hnext]. rewrite (store_placed _ name) by done. cbn [mbind result_bind]. rewrite Hf. cbn [mbind result_bind].
    destruct (IH _ _ _ Hnext Hsz) as (g & out' & Hloop & Hinv' & Hsub & Hmax). rewrite length_app, Nat.add_1_r in Hloop.
    exists g, out'. split; [done|]. split; [done|]. split; [set_solver|].
    intros C HC Hpred. by apply (Hmax C); [apply Hkeep|].
  - injection Hf as <- <-.
    destruct (IH _ _ _ Hnext Hsz) as (g & out' & Hloop & Hinv' & Hsub & Hmax).
    exists g, out'. split; [done|]. split; [done|]. split; [set_solver|].
    intros C HC Hpred. by apply (Hmax C); [apply Hkeep|].
Qed.
End sort_facts.

(** ** The graph *)

Section build_facts.
Context {Mapping : Type}.
Implicit Types its : list (Mapping * GroupCommonOption).

Definition item_names its : list str := (λ it, go_Name it.2) <$> its.
Definition targets its : list str := its ≫= λ it, go_Proxies it.2.

Fixpoint group_of its (n : str) : option (Mapping * GroupCommonOption) :=
  match its with
  | [] => None
  | it :: its => if decide (go_Name it.2 = n) then Some it else group_of its n
  end.

Lemma group_of_app its its' n : group_of (its ++ its') n = match group_of its n with Some it => Some it | None => group_of its' n end.
Proof. induction its as [|it its IH]; [done|]. cbn. by case_decide. Qed.
Lemma group_of_names its n : is_Some (group_of its n) ↔ n ∈ item_names its.
Proof.
  unfold item_names. induction its as [|it its IH]; cbn; [rewrite elem_of_nil; split; [by intros []|done]|].
  rewrite elem_of_cons, <- IH. case_decide; [subst; split; eauto|]. naive_solver.
Qed.
Lemma group_of_in its n it : group_of its n = Some it → it ∈ its ∧ go_Name it.2 = n.
Proof.
  induction its as [|it' its IH]; cbn; [done|]. case_decide; [intros [= ->]; split; [left|done]|].
  intros [? ?]%IH. split; [by right|done].
Qed.
Lemma group_of_elem its it : NoDup (item_names its) → it ∈ its → group_of its (go_Name it.2) = Some it.
Proof.
  unfold item_names. induction its as [|it' its IH]; intros Hnd; [by intros ?%not_elem_of_nil|]. cbn in Hnd |- *.
  apply NoDup_cons in Hnd as [Hn Hnd]. intros [->|Hin]%elem_of_cons; [by rewrite decide_True|].
  rewrite decide_False; [by apply IH|]. intros E. apply Hn. rewrite E. by apply (list_elem_of_fmap_2 (λ it, go_Name it.2)).
Qed.

(** The node of a name once some groups are in the graph. *)
Definition node_of its (n : str) : option graphNode :=
  if decide (n ∈ item_names its ∨ n ∈ targets its)
  then Some (MkNode (Z.of_nat (occ n (targets its))) (-1) (fst <$> group_of its n) 0 (snd <$> group_of its n) [])
  else None.

Lemma add_members (graph : gmap str (graphNode (Mapping := Mapping))) ps n : foldl add_member graph ps !! n
  = match graph !! n with
    | Some node => Some (set_indegree (indegree node + Z.of_nat (occ n ps)) node)
    | None => if decide (n ∈ ps) then Some (MkNode (Z.of_nat (occ n ps)) (-1) None 0 None []) else None
    end.
Proof.
  revert graph. induction ps as [|p ps IH]; intros graph; cbn [foldl].
  { rewrite occ_nil, decide_False by apply not_elem_of_nil. destruct (graph !! n) as [[]|]; [|done]. unfold set_indegree. cbn.
    by rewrite Z.add_0_r. }
  rewrite IH, occ_cons. unfold add_member. destruct (decide (n = p)) as [->|Hne].
  - rewrite (decide_True (P := p ∈ p :: ps)) by left. destruct (graph !! p) as [node|]; rewrite lookup_insert_eq; unfold set_indegree; cbn; do 2 f_equal; lia.
  - assert (match graph !! p with Some node => <[p := set_indegree (indegree node + 1) node]> graph
            | None => <[p := MkNode 1 (-1) None 0 None []]> graph end !! n = graph !! n) as ->
      by (destruct (graph !! p); by rewrite lookup_insert_ne).
    destruct (graph !! n); [done|]. destruct (decide (n ∈ ps)) as [Hin|Hin].
    + by rewrite (decide_True (P := n ∈ p :: ps)) by (by right).
    + rewrite (decide_False (P := n ∈ p :: ps)); [done|]. by rewrite not_elem_of_cons.
Qed.

(** Adding a group with a new name. *)
Lemma node_of_snoc (graph : gmap str graphNode) its m o node0 : (∀ n, graph !! n = node_of its n) → go_Name o ∉ item_names its →
  node0 = MkNode (Z.of_nat (occ (go_Name o) (targets its))) (-1) (Some m) 0 (Some o) [] →
  ∀ n, foldl add_member (<[go_Name o := node0]> graph) (go_Proxies o) !! n = node_of (its ++ [(m, o)]) n.
Proof.
  intros Hg Hnew -> n. rewrite add_members. unfold node_of, item_names, targets.
  rewrite group_of_app, fmap_app, bind_app. cbn [group_of fmap list_fmap mbind list_bind snd]. rewrite app_nil_r, occ_concat.
  destruct (decide (go_Name o = n)) as [<-|Hne].
  - rewrite lookup_insert_eq, decide_True by (left; apply elem_of_app; right; by left).
    destruct (group_of its (go_Name o)) as [it|] eqn:E; [exfalso; apply Hnew, group_of_names; by rewrite E|].
    unfold set_indegree. cbn. unfold targets. do 2 f_equal. lia.
  - rewrite lookup_insert_ne by done. rewrite Hg. unfold node_of, item_names, targets.
    destruct (decide (n ∈ ((λ it, go_Name it.2) <$> its) ∨ n ∈ its ≫= (λ it, go_Proxies it.2))) as [Hin|Hout].
    + rewrite decide_True by (rewrite !elem_of_app; tauto). unfold set_indegree. cbn.
      replace (match group_of its n with Some it => Some it | None => None end) with (group_of its n) by (by destruct (group_of its n)).
      do 2 f_equal. lia.
    + destruct (group_of its n) as [it|] eqn:E; [exfalso; apply Hout; left; apply (proj1 (group_of_names its n)); by rewrite E|].
      assert (occ n (its ≫= λ it, go_Proxies it.2) = 0) as -> by (apply occ_zero; tauto).
      destruct (decide (n ∈ go_Proxies o)) as [Hp|Hp].
      * by rewrite decide_True by (rewrite !elem_of_app; tauto).
      * rewrite decide_False; [done|]. rewrite !elem_of_app, list_elem_of_singleton. intuition.
Qed.
End build_facts.

(** The group at a position of the configuration. *)
Definition named {Mapping} (Decode : Mapping → GroupCommonOption + string) (groups : list Mapping) (i : nat) (n : str) : Prop :=
  ∃ m o, groups !! i = Some m ∧ Decode m = inl o ∧ go_Name o = n.

Section build_spec.
Context {Mapping : Type} (Decode : Mapping → GroupCommonOption + string).
Implicit Types its : list (Mapping * GroupCommonOption).

Definition decoded its : Prop := Forall (λ it, Decode it.1 = inl it.2) its.

Lemma build_graph_spec gs : ∀ its (graph : gmap str graphNode), (∀ n, graph !! n = node_of its n) → NoDup (item_names its) → decoded its →
  match build_graph Decode graph gs with
  | inl graph' => ∃ its', its'.*1 = gs ∧ decoded (its ++ its') ∧ NoDup (item_names (its ++ its')) ∧ ∀ n, graph' !! n = node_of (its ++ its') n
  | inr (DagDecode m e) => m ∈ gs ∧ Decode m = inr e
  | inr (DagDuplicate n) => ∃ i j, i < j ∧ named Decode (its.*1 ++ gs) i n ∧ named Decode (its.*1 ++ gs) j n
  | inr _ => False
  end.
Proof.
  induction gs as [|m gs IH]; intros its graph Hg Hnd Hdec; cbn [build_graph].
  { exists []. by rewrite !app_nil_r. }
  unfold add_group. destruct (Decode m) as [o|e] eqn:Em; [|by split; [left|]].
  assert (∀ node0, node0 = MkNode (Z.of_nat (occ (go_Name o) (targets its))) (-1) (Some m) 0 (Some o) [] → go_Name o ∉ item_names its →
    match build_graph Decode (foldl add_member (<[go_Name o := node0]> graph) (go_Proxies o)) gs with
    | inl graph' => ∃ its', its'.*1 = m :: gs ∧ decoded (its ++ its') ∧ NoDup (item_names (its ++ its')) ∧ ∀ n, graph' !! n = node_of (its ++ its') n
    | inr (DagDecode m' e) => m' ∈ m :: gs ∧ Decode m' = inr e
    | inr (DagDuplicate n) => ∃ i j, i < j ∧ named Decode (its.*1 ++ m :: gs) i n ∧ named Decode (its.*1 ++ m :: gs) j n
    | inr _ => False
    end) as Hstep.
  { intros node0 Hnode Hnew.
    assert (NoDup (item_names (its ++ [(m, o)]))) as Hnd'.
    { unfold item_names. rewrite fmap_app. apply NoDup_app. split; [done|]. split; [by intros x Hx ->%list_elem_of_singleton|apply NoDup_singleton]. }
    assert (decoded (its ++ [(m, o)])) as Hdec' by (apply Forall_app; split; [done|]; by repeat constructor).
    specialize (IH _ _ (node_of_snoc graph its m o node0 Hg Hnew Hnode) Hnd' Hdec'). rewrite fmap_app, <- app_assoc in IH.
    destruct (build_graph Decode _ gs) as [g|[| | |]]; [|done| |done|done].
    - destruct IH as (its' & Hgs & H1 & H2 & H3). rewrite <- app_assoc in H1, H2. exists ((m, o) :: its').
      split; [cbn; by rewrite Hgs|]. split; [done|]. split; [done|]. intros n. by rewrite H3, <- app_assoc.
    - destruct IH as [? ?]. split; [by right|done]. }
  rewrite Hg. unfold node_of. destruct (decide _) as [Hin|Hout].
  - cbn [g_data]. destruct (group_of its (go_Name o)) as [it|] eqn:E; cbn [fmap option_fmap option_map].
    + apply group_of_in in E as [Hit Hn]. apply list_elem_of_lookup in Hit as [i Hi].
      assert (i < length its) as Hlt by (by eapply lookup_lt_Some).
      exists i, (length its). split; [done|]. split.
      * exists it.1, it.2. split; [|split; [|done]].
        -- rewrite lookup_app_l by (by rewrite length_fmap). by rewrite list_lookup_fmap, Hi.
        -- unfold decoded in Hdec. rewrite Forall_forall in Hdec. apply Hdec. by eapply list_elem_of_lookup_2.
      * exists m, o. split; [|done]. rewrite lookup_app_r by (by rewrite length_fmap). by rewrite length_fmap, Nat.sub_diag.
    + apply Hstep; [done|]. intros Hn. apply group_of_names in Hn as [? Hn]. congruence.
  - apply Hstep; [|tauto]. f_equal. symmetry. rewrite (proj2 (occ_zero _ _)); [done|tauto].
Qed.
End build_spec.

(** ** Locating a loop *)

Section loop_facts.
Context {Mapping : Type}.
Implicit Types graph : gmap str (graphNode (Mapping := Mapping)).

Definition linked (n name : str) (ps : list str) (node : graphNode (Mapping := Mapping)) : graphNode :=
  MkNode (indegree node) (topo node) (g_data node) (outdegree node + Z.of_nat (if decide (n = name) then length ps else 0))
    (g_option node) (from node ++ replicate (occ n ps) name).

Lemma link_fold name ps : ∀ graph, name ∈ dom graph → (∀ p, p ∈ ps → p ∈ dom graph) →
  ∃ graph', foldM (link name) graph ps = Ok graph' ∧ ∀ n, graph' !! n = linked n name ps <$> graph !! n.
Proof.
  induction ps as [|p ps IH]; intros graph Hname Hps; cbn [foldM].
  { exists graph. split; [done|]. intros n. destruct (graph !! n) as [[]|]; [|done]. unfold linked. cbn. case_decide; by rewrite Z.add_0_r, app_nil_r. }
  pose proof Hname as [node Hnode]%elem_of_dom. pose proof (Hps p ltac:(left)) as [child Hchild]%elem_of_dom.
  assert (∃ graph1, link name graph p = Ok graph1 ∧ ∀ n, graph1 !! n = linked n name [p] <$> graph !! n) as (graph1 & H1 & Hg1).
  { unfold link. rewrite Hnode. destruct (decide (p = name)) as [->|Hne].
    - rewrite lookup_insert_eq, insert_insert_eq. eexists. split; [done|]. intros n. unfold linked. rewrite occ_cons, occ_nil.
      destruct (decide (n = name)) as [->|]; [by rewrite lookup_insert_eq, Hnode|]. rewrite lookup_insert_ne by done.
      destruct (graph !! n) as [[]|]; [|done]. cbn. by rewrite Z.add_0_r, app_nil_r.
    - rewrite lookup_insert_ne, Hchild by done. eexists. split; [done|]. intros n. unfold linked. rewrite occ_cons, occ_nil.
      destruct (decide (n = p)) as [->|Hp].
      + rewrite lookup_insert_eq, Hchild, decide_False by done. cbn. unfold add_from. by rewrite Z.add_0_r.
      + rewrite lookup_insert_ne by done. destruct (decide (n = name)) as [->|Hn].
        * rewrite lookup_insert_eq, Hnode. cbn. unfold set_outdegree. by rewrite app_nil_r.
        * rewrite lookup_insert_ne by done. destruct (graph !! n) as [[]|]; [|done]. cbn. by rewrite Z.add_0_r, app_nil_r. }
  assert (∀ n, n ∈ dom graph1 ↔ n ∈ dom graph) as Hdom by (intros n; by rewrite !elem_of_dom, Hg1, fmap_is_Some).
  destruct (IH graph1) as (graph' & Hf & Hg'); [by apply Hdom|intros q Hq; apply Hdom, Hps; by right|].
  exists graph'. rewrite H1. split; [done|]. intros n. rewrite Hg', Hg1. destruct (graph !! n) as [node'|]; [|done]. cbn. f_equal.
  unfold linked. cbn [indegree topo g_data outdegree g_option from length]. rewrite !occ_cons, occ_nil.
  f_equal; [case_decide; lia|]. rewrite <- app_assoc. f_equal. rewrite Nat.add_0_r. by rewrite replicate_add.
Qed.

Context (members : str → list str).
Definition with_members graph : Prop :=
  ∀ n node, graph !! n = Some node → default [] (go_Proxies <$> g_option node) = members n.

Lemma link_nodes l : ∀ graph, NoDup l → (∀ n, n ∈ l → n ∈ dom graph) → (∀ m n, m ∈ dom graph → n ∈ members m → n ∈ dom graph) →
  with_members graph →
  ∃ graph', foldM link_node graph l = Ok graph' ∧ dom graph' = dom graph
  ∧ ∀ n node', graph' !! n = Some node' → ∃ node, graph !! n = Some node
    ∧ outdegree node' = (outdegree node + Z.of_nat (if decide (n ∈ l) then length (members n) else 0))%Z
    ∧ ∀ m, occ m (from node') = occ m (from node) + (if decide (m ∈ l) then occ n (members m) else 0).
Proof.
  induction l as [|x l IH]; intros graph Hnd Hl Hcl Hw; cbn [foldM].
  { exists graph. split; [done|]. split; [done|]. intros n node Hn. exists node. split; [done|].
    rewrite decide_False by apply not_elem_of_nil. split; [lia|]. intros m. rewrite decide_False by apply not_elem_of_nil. lia. }
  apply NoDup_cons in Hnd as [Hx Hnd]. assert (x ∈ dom graph) as Hxd by (apply Hl; left).
  pose proof Hxd as [node Hnode]%elem_of_dom. pose proof (Hw x node Hnode) as Hm.
  assert (∃ graph1, link_node graph x = Ok graph1 ∧ ∀ n, graph1 !! n = linked n x (members x) <$> graph !! n) as (graph1 & H1 & Hg1).
  { destruct (link_fold x (members x) graph Hxd) as (graph1 & Hf & Hg); [intros p Hp; by apply (Hcl x)|].
    exists graph1. split; [|done]. unfold link_node. rewrite Hnode. destruct (g_option node); cbn in Hm; [by rewrite Hm|].
    rewrite <- Hm in Hf. by injection Hf as ->. }
  assert (dom graph1 = dom graph) as Hdom by (apply set_eq; intros n; by rewrite !elem_of_dom, Hg1, fmap_is_Some).
  destruct (IH graph1) as (graph' & Hf & Hd' & Hg'); [done|rewrite Hdom; intros n Hn; apply Hl; by right|by rewrite Hdom| |].
  { intros n node' Hn. rewrite Hg1 in Hn. destruct (graph !! n) as [node0|] eqn:E; [|done]. injection Hn as <-. exact (Hw n node0 E). }
  exists graph'. rewrite H1. split; [done|]. split; [congruence|]. intros n node' Hn. destruct (Hg' n node' Hn) as (node1 & Hn1 & Ho & Hfr).
  rewrite Hg1 in Hn1. destruct (graph !! n) as [node0|] eqn:E; [|done]. injection Hn1 as <-. exists node0. split; [done|].
  unfold linked in Ho, Hfr. cbn [outdegree from] in Ho, Hfr. split.
  - rewrite Ho. destruct (decide (n = x)) as [->|Hne].
    + rewrite (decide_True (P := x ∈ x :: l)) by left. rewrite (decide_False (P := x ∈ l)) by done. lia.
    + rewrite (decide_ext (n ∈ x :: l) (n ∈ l)); [lia|]. rewrite elem_of_cons. naive_solver.
  - intros m. rewrite Hfr, occ_concat, occ_replicate. destruct (decide (m = x)) as [->|Hne].
    + rewrite (decide_True (P := x ∈ x :: l)) by left. rewrite (decide_False (P := x ∈ l)) by done. lia.
    + rewrite (decide_ext (m ∈ x :: l) (m ∈ l)); [lia|]. rewrite elem_of_cons. naive_solver.
Qed.
End loop_facts.

Section range_facts.
Context {Mapping : Type} `{MapRange}.
Implicit Types graph : gmap str (graphNode (Mapping := Mapping)).

Lemma map_range_dom {V} (k : nat) (g : gmap str V) (n : str) : n ∈ map_range k g ↔ n ∈ dom g.
Proof.
  rewrite map_range_perm, elem_of_dom, list_elem_of_fmap. split.
  - intros ([n' v] & -> & Hv%elem_of_map_to_list). by exists v.
  - intros [v Hv]. exists (n, v). by rewrite elem_of_map_to_list.
Qed.
Lemma map_range_nodup {V} (k : nat) (g : gmap str V) : NoDup (map_range k g).
Proof. rewrite map_range_perm. apply NoDup_fst_map_to_list. Qed.

(** The start of a queue. *)
Lemma peel_start (degree : graphNode → Z) (succ : str → list str) (k : nat) graph :
  (∀ n node, graph !! n = Some node → degree node = Z.of_nat (refs succ (dom graph) n)) →
  (∀ m n, m ∈ dom graph → n ∈ succ m → n ∈ dom graph) → peel degree succ graph (free_names degree k graph).
Proof.
  intros Hd Hcl. split; [done|done|apply NoDup_filter, map_range_nodup|]. intros n. unfold free_names.
  rewrite list_elem_of_filter, map_range_dom, elem_of_dom. split.
  - intros [Hz [node Hn]]. rewrite Hn in Hz. injection Hz as Hz. rewrite (Hd n node Hn) in Hz. split; [by exists node|lia].
  - intros [[node Hn] Hz]. split; [|by exists node]. rewrite Hn. cbn. rewrite (Hd n node Hn), Hz. done.
Qed.
End range_facts.

Section trim_facts.
Context {Mapping : Type} (preds : str → list str).
Implicit Types graph : gmap str (graphNode (Mapping := Mapping)).

Definition with_preds graph : Prop := ∀ n node, graph !! n = Some node → from node = preds n.

Lemma trim_graph_spec fuel : ∀ graph queue, peel outdegree preds graph queue → with_preds graph → size (dom graph) ≤ fuel →
  ∃ graph', trim_loop fuel graph queue = Ok graph' ∧ peel outdegree preds graph' [] ∧ dom graph' ⊆ dom graph
  ∧ ∀ C : str → Prop, (∀ n, C n → n ∈ dom graph) → (∀ n, C n → ∃ m, C m ∧ n ∈ preds m) → ∀ n, C n → n ∈ dom graph'.
Proof.
  induction fuel as [|fuel IH]; intros graph queue Hpeel Hw Hfuel.
  all: destruct queue as [|name queue]; [by exists graph|].
  all: destruct (proj1 (peel_queue _ _ _ _ Hpeel name) ltac:(left)) as [Hname _].
  { assert (size (dom graph) ≠ 0) as ?; [|lia]. intros He%size_empty_inv. set_solver. }
  pose proof Hname as [node Hnode]%elem_of_dom.
  destruct (peel_step outdegree set_outdegree ltac:(done) ltac:(done) ltac:(by intros []) preds graph name queue Hpeel)
    as (graph' & queue' & Hf & Hg & Hpeel' & Hdom & _ & Hno).
  cbn [trim_loop]. rewrite Hnode, (Hw name node Hnode), Hf. cbn [mbind result_bind].
  destruct (IH (delete name graph') queue' Hpeel') as (g & Hloop & Hend & Hsub & Hmax).
  { intros n node' [_ Hn]%lookup_delete_Some. rewrite Hg in Hn. destruct (graph !! n) as [node0|] eqn:E; [|done].
    injection Hn as <-. exact (Hw n node0 E). }
  { rewrite Hdom, size_difference by set_solver. rewrite size_singleton. lia. }
  exists g. split; [done|]. split; [done|]. split; [set_solver|]. intros C HC Hpred. apply (Hmax C); [|done].
  intros n Hn. rewrite Hdom. apply elem_of_difference. split; [by apply HC|].
  intros ->%elem_of_singleton. destruct (Hpred name Hn) as (p & Hp & Hin). by apply (Hno p); [apply HC|].
Qed.
End trim_facts.

(** Steps 2.1 and 2.2 leave the nodes that are between two loops. *)
Section locate.
Context {Mapping : Type} `{MapRange} (members : str → list str) (graph : gmap str (graphNode (Mapping := Mapping))).
Context (Hpeel : peel indegree members graph []) (Hw : with_members members graph).
Context (Hfresh : ∀ n node, graph !! n = Some node → outdegree node = 0%Z ∧ from node = []).
#[local] Set Default Proof Using "All".

Definition member_of (a b : str) : Prop := b ∈ members a.

Lemma locate_loop :
  ∃ graph1 graph2, foldM link_node graph (map_range 1 graph) = Ok graph1
  ∧ trim_loop (size graph1) graph1 (free_names outdegree 2 graph1) = Ok graph2 ∧ dom graph2 ⊆ dom graph
  ∧ (∀ n, n ∈ dom graph2 → (∃ p, p ∈ dom graph2 ∧ member_of p n) ∧ (∃ s, s ∈ dom graph2 ∧ member_of n s))
  ∧ ∀ C : str → Prop, (∀ n, C n → n ∈ dom graph) → (∀ n, C n → ∃ s, C s ∧ member_of n s) → ∀ n, C n → n ∈ dom graph2.
Proof.
  pose proof (peel_closed _ _ _ _ Hpeel) as Hcl.
  destruct (link_nodes members (map_range 1 graph) graph) as (graph1 & H1 & Hdom & Hg1);
    [apply map_range_nodup|by intros n ?%map_range_dom|done|done|].
  set (preds := λ n, default [] (from <$> graph1 !! n)).
  assert (∀ n, n ∈ dom graph → ∀ m, occ m (preds n) = if decide (m ∈ dom graph) then occ n (members m) else 0) as Hpreds.
  { intros n Hn m. rewrite <- Hdom in Hn. apply elem_of_dom in Hn as [node' Hn]. unfold preds. rewrite Hn. cbn [fmap option_fmap option_map default from_option id].
    destruct (Hg1 n node' Hn) as (node & Hnode & _ & Hf). rewrite Hf, (proj2 (Hfresh n node Hnode)), occ_nil.
    rewrite (decide_ext (m ∈ map_range 1 graph) (m ∈ dom graph)) by apply map_range_dom. done. }
  assert (∀ m n, n ∈ dom graph → m ∈ preds n ↔ m ∈ dom graph ∧ n ∈ members m) as Hin.
  { intros m n Hn. rewrite <- occ_pos, (Hpreds n Hn). case_decide; [rewrite occ_pos|]; naive_solver lia. }
  assert (with_preds preds graph1) as Hwp by (intros n node Hn; unfold preds; by rewrite Hn).
  destruct (trim_graph_spec preds (size graph1) graph1 (free_names outdegree 2 graph1)) as (graph2 & H2 & Hend & Hsub & Hmax); [|done|by rewrite size_dom|].
  { apply peel_start.
    - intros n node' Hn. destruct (Hg1 n node' Hn) as (node & Hnode & Ho & _). rewrite Ho, (proj1 (Hfresh n node Hnode)), Hdom.
      assert (n ∈ dom graph) as Hnd by (rewrite elem_of_dom; eauto). rewrite decide_True by (by apply map_range_dom). rewrite Z.add_0_l. f_equal.
      rewrite <- (sum_occ (dom graph) (members n)) by (intros x; by apply Hcl). unfold refs. apply sum_list_with_ext.
      intros m Hm%elem_of_elements. by rewrite (Hpreds m Hm), decide_True.
    - rewrite Hdom. intros m n Hm Hp. by apply Hin in Hp as [? _]. }
  rewrite Hdom in Hsub. exists graph1, graph2. split; [done|]. split; [done|]. split; [done|]. split.
  - intros n Hn. pose proof (Hsub n Hn) as Hng. split.
    + destruct (peel_end _ _ _ Hpeel n Hng) as (p & Hp & Hpn). exists p. split; [|done].
      apply (peel_closed _ _ _ _ Hend n); [done|]. by apply Hin.
    + destruct (peel_end _ _ _ Hend n Hn) as (s & Hs & Hns). exists s. split; [done|]. by apply Hin in Hns as [_ ?]; [|apply Hsub].
  - intros C HC Hsucc. apply (Hmax C); [by rewrite Hdom|]. intros n Hn. destruct (Hsucc n Hn) as (s & Hs & Hns).
    exists s. split; [done|]. apply Hin; [by apply HC|]. split; [by apply HC|done].
Qed.
End locate.

(** ** Correctness of the sort *)

(** Group [a] lists [b] among its proxies. *)
Definition contains {Mapping} (Decode : Mapping → GroupCommonOption + string) (groups : list Mapping) (a b : str) : Prop :=
  ∃ m o, m ∈ groups ∧ Decode m = inl o ∧ go_Name o = a ∧ b ∈ go_Proxies o.

(** Reachable from a loop and on the way to a loop. *)
Definition between_loops (R : relation str) (n : str) : Prop :=
  (∃ c, tc R c c ∧ rtc R c n) ∧ (∃ c, tc R c c ∧ rtc R n c).

Lemma sum_list_with_fmap {A B} (f : B → nat) (g : A → B) l : sum_list_with f (g <$> l) = sum_list_with (λ x, f (g x)) l.
Proof. induction l as [|x l IH]; [done|]. cbn. by rewrite IH. Qed.

Lemma elem_of_lookup_named {Mapping} (Decode : Mapping → GroupCommonOption + string) its i n : decoded Decode its →
  named Decode its.*1 i n ↔ item_names its !! i = Some n.
Proof.
  intros Hd. unfold named, item_names. rewrite !list_lookup_fmap. unfold decoded in Hd. rewrite Forall_lookup in Hd.
  destruct (its !! i) as [[m o]|] eqn:E; cbn; [|naive_solver]. specialize (Hd i _ E). cbn in Hd. split.
  - intros (m' & o' & [= <-] & Hm & <-). congruence.
  - intros [= <-]. by exists m, o.
Qed.

Section sort_correct.
Context {Mapping : Type} (Decode : Mapping → GroupCommonOption + string) `{MapRange}.
Context (its : list (Mapping * GroupCommonOption)) (Hdec : decoded Decode its) (Hnd : NoDup (item_names its)).
Context (graph : gmap str (graphNode (Mapping := Mapping))) (Hg : ∀ n, graph !! n = node_of its n).
Abbreviation base := (group_of its).
Abbreviation names := (item_names its).
Abbreviation R := (contains Decode its.*1).
#[local] Set Default Proof Using "All".

Lemma contains_members a b : R a b ↔ b ∈ members base a.
Proof.
  unfold contains, members. split.
  - intros (m & o & Hin & Hm & <- & Hb). apply list_elem_of_fmap in Hin as ([m' o'] & -> & Hin).
    unfold decoded in Hdec. rewrite Forall_forall in Hdec. pose proof (Hdec _ Hin) as Hm'. cbn in Hm, Hm'.
    assert (o' = o) as -> by congruence. pose proof (group_of_elem _ _ Hnd Hin) as E. cbn in E. by rewrite E.
  - destruct (base a) as [[m o]|] eqn:E; [|by intros ?%not_elem_of_nil]. cbn. apply group_of_in in E as [Hin Hn].
    intros Hb. exists m, o. unfold decoded in Hdec. rewrite Forall_forall in Hdec. split; [|split; [by apply (Hdec _ Hin)|done]].
    by apply (list_elem_of_fmap_2 fst _ _ Hin).
Qed.

Lemma graph_dom n : n ∈ dom graph ↔ n ∈ names ∨ n ∈ targets its.
Proof. rewrite elem_of_dom, Hg. unfold node_of. case_decide; [split; [done|by eexists]|split; [by intros []|done]]. Qed.

Lemma members_targets m n : n ∈ members base m → n ∈ targets its ∧ m ∈ names.
Proof.
  unfold members, targets. destruct (base m) as [it|] eqn:E; [|by intros ?%not_elem_of_nil]. intros Hn. split.
  - apply list_elem_of_bind. exists it. split; [done|]. by apply group_of_in in E as [? _].
  - apply group_of_names. by rewrite E.
Qed.

Lemma refs_targets n : refs (members base) (dom graph) n = occ n (targets its).
Proof.
  rewrite (refs_names _ _ names n Hnd); [|intros m Hm; apply graph_dom; by left|].
  - unfold item_names. rewrite sum_list_with_fmap. unfold targets. rewrite occ_bind. apply sum_list_with_ext.
    intros it Hit. unfold members. by rewrite (group_of_elem _ _ Hnd Hit).
  - intros m Hm. unfold members. destruct (base m) eqn:E; [|done]. exfalso. apply Hm, group_of_names. by rewrite E.
Qed.

Lemma sort_start : sort_inv base names graph (free_names indegree 0 graph) [].
Proof.
  split; [| |by intros n m ?%not_elem_of_nil|constructor|by intros n ?%not_elem_of_nil|intros n Hn; right; apply graph_dom; by left|done].
  - apply peel_start.
    + intros n node Hn. rewrite refs_targets. rewrite Hg in Hn. unfold node_of in Hn. case_decide; [|done]. by injection Hn as <-.
    + intros m n _ [Hn _]%members_targets. apply graph_dom. by right.
  - intros n node Hn. rewrite Hg in Hn. unfold node_of in Hn. case_decide; [|done]. injection Hn as <-. by repeat split.
Qed.

Lemma names_groups : (∀ n, n ∈ names ↔ is_Some (base n)) ∧ length its.*1 = length names.
Proof. split; [intros n; symmetry; apply group_of_names|]. unfold item_names. by rewrite !length_fmap. Qed.

(** What the first loop leaves. *)
Lemma sorted_groups : ∃ graph' out, sort_loop (size graph) graph 0 its.*1 (free_names indegree 0 graph) = Ok (graph', placed its.*1 out)
  ∧ sort_inv base names graph' [] out ∧ dom graph' ⊆ dom graph ∧ ∀ n, (∃ c, tc R c c ∧ rtc R c n) → n ∈ dom graph'.
Proof.
  destruct names_groups as [Hb Hl].
  destruct (sort_loop_spec base names its.*1 Hnd Hb Hl (size graph) graph _ [] sort_start) as (g & out & Hs & Hinv & Hsub & Hmax).
  { by rewrite size_dom. }
  assert (placed its.*1 [] = its.*1) as Hp.
  { unfold placed. cbn [length]. rewrite Nat.sub_0_r, take_ge by done. apply app_nil_r. }
  rewrite Hp in Hs. exists g, out. split; [done|]. split; [done|]. split; [done|].
  assert (∀ n, (∃ c, tc R c c ∧ rtc R c n) → ∃ m, (∃ c, tc R c c ∧ rtc R c m) ∧ n ∈ members base m) as Hpred.
  { intros n (c & Hc & Hr). destruct (tc_last R c n) as (m & Hm & Hmn); [by apply tc_rtc_cycle|].
    exists m. split; [by exists c|]. by apply contains_members. }
  apply Hmax; [|done]. intros n Hn. destruct (Hpred n Hn) as (m & _ & [Hin _]%members_targets). apply graph_dom. by right.
Qed.

(** The placed groups of an empty graph are all groups. *)
Lemma placed_groups out : sort_inv base names ∅ [] out →
  ∃ its', its'.*1 = out.*2 ∧ item_names its' = out.*1 ∧ its' ≡ₚ its.
Proof.
  intros Hinv. assert (out.*1 ≡ₚ names) as Hperm.
  { apply NoDup_Permutation; [apply Hinv|done|]. intros n. split; [eapply sort_inv_names; [exact Hnd|apply names_groups..|exact Hinv]|].
    intros Hn. destruct (sort_complete _ _ _ _ _ Hinv n Hn) as [|Hd]; [done|]. by rewrite dom_empty_L in Hd. }
  assert (Forall (λ nm, ∃ o, base nm.1 = Some (nm.2, o)) out) as Hout.
  { apply Forall_forall. intros [n m] Hin. apply (sort_data _ _ _ _ _ Hinv) in Hin. cbn. destruct (base n) as [[m' o]|]; [|done].
    injection Hin as ->. by exists o. }
  exists (omap base out.*1).
  assert ((omap base out.*1).*1 = out.*2 ∧ item_names (omap base out.*1) = out.*1 ∧ ∀ it, it ∈ omap base out.*1 → it ∈ its) as (E1 & E2 & E3).
  { clear Hperm Hinv. induction Hout as [|[n m] out [o Ho] _ (IH1 & IH2 & IH3)]; [split; [done|]; split; [done|]; by intros it ?%not_elem_of_nil|].
    cbn in Ho |- *. rewrite Ho. cbn. rewrite IH1. pose proof (group_of_in _ _ _ Ho) as [Hin Hn]. unfold item_names in *. cbn in *. rewrite IH2, Hn.
    split; [done|]. split; [done|]. intros it [->|Hit]%elem_of_cons; [done|by apply IH3]. }
  split; [done|]. split; [done|]. apply submseteq_length_Permutation.
  - apply NoDup_submseteq; [|done]. apply (NoDup_fmap_1 (λ it, go_Name it.2)). fold (item_names (omap base out.*1)). rewrite E2. apply Hinv.
  - rewrite <- (length_fmap (λ it, go_Name it.2) its), <- (length_fmap (λ it, go_Name it.2) (omap _ _)).
    fold (item_names its) (item_names (omap base out.*1)). by rewrite E2, Hperm.
Qed.

(** Every group has its place, after the groups it contains. *)
Lemma sorted_order out : sort_inv base names ∅ [] out →
  placed its.*1 out ≡ₚ its.*1
  ∧ ∀ i j a b, named Decode (placed its.*1 out) i a → named Decode (placed its.*1 out) j b → R a b → j < i.
Proof.
  intros Hinv. destruct (placed_groups out Hinv) as (its' & H1 & H2 & H3).
  assert (placed its.*1 out = (reverse its').*1) as Hplaced.
  { unfold placed. rewrite <- H1, length_fmap. replace (length out) with (length its) by
      (rewrite <- H3, <- (length_fmap fst its'), H1, length_fmap; done).
    rewrite Nat.sub_diag, take_0, fmap_reverse. done. }
  rewrite Hplaced. split; [by rewrite reverse_Permutation, H3|].
  assert (decoded Decode (reverse its')) as Hdec' by (unfold decoded in *; by rewrite reverse_Permutation, H3).
  assert (item_names (reverse its') = reverse out.*1) as Hn' by (unfold item_names in *; by rewrite fmap_reverse, H2).
  intros i j a b Hi Hj Hab. rewrite elem_of_lookup_named, Hn' in Hi, Hj by done.
  pose proof (lookup_lt_Some _ _ _ Hi) as Hil. pose proof (lookup_lt_Some _ _ _ Hj) as Hjl. rewrite length_reverse in Hil, Hjl.
  rewrite reverse_lookup in Hi, Hj by done. apply contains_members in Hab.
  pose proof (sort_order _ _ _ _ _ Hinv _ _ _ _ Hj Hi Hab). lia.
Qed.

(** A graph that is left: the nodes between two loops. *)
Lemma located_loop graph' out : sort_inv base names graph' [] out → graph' ≠ ∅ →
  (∀ n, (∃ c, tc R c c ∧ rtc R c n) → n ∈ dom graph') →
  ∃ graph1 graph2, foldM link_node graph' (map_range 1 graph') = Ok graph1
  ∧ trim_loop (size graph1) graph1 (free_names outdegree 2 graph1) = Ok graph2
  ∧ dom graph2 ≠ ∅ ∧ ∀ n, n ∈ dom graph2 ↔ between_loops R n.
Proof.
  intros Hinv Hne Hcyc.
  destruct (locate_loop (members base) graph') as (g1 & g2 & H1 & H2 & Hsub & Hloop & Hmax).
  - apply Hinv.
  - intros n node Hn. unfold members. destruct (sort_untouched _ _ _ _ _ Hinv n node Hn) as (-> & _). by destruct (base n).
  - intros n node Hn. by destruct (sort_untouched _ _ _ _ _ Hinv n node Hn) as (_ & _ & ? & ?).
  - assert (∀ n, n ∈ dom g2 ↔ between_loops R n) as Hiff.
    { intros n. split.
      - intros Hn. split.
        + apply (pred_cycle R (dom g2)); [|done]. intros x Hx. destruct (Hloop x Hx) as [(p & Hp & Hpx) _]. exists p.
          split; [done|]. by apply contains_members.
        + apply (succ_cycle R (dom g2)); [|done]. intros x Hx. destruct (Hloop x Hx) as [_ (p & Hp & Hpx)]. exists p.
          split; [done|]. by apply contains_members.
      - apply (Hmax (between_loops R)); [intros x [Hx _]; by apply Hcyc|]. intros x [(c & Hc & Hcx) (d & Hd & Hxd)].
        destruct (tc_first R x d) as (s & Hxs & Hsd).
        { destruct (tc_first R d d Hd) as (e & Hde & Hed). eapply tc_rtc_l; [exact Hxd|done]. }
        exists s. split; [|by apply contains_members]. split; [exists c; split; [done|by eapply rtc_r]|by exists d]. }
    exists g1, g2. split; [done|]. split; [done|]. split; [|done].
    assert (∃ n, n ∈ dom graph') as [n Hn].
    { apply set_choose_L. by rewrite dom_empty_iff_L. }
    destruct (pred_cycle R (dom graph') ltac:(intros x Hx; destruct (peel_end _ _ _ (sort_peel _ _ _ _ _ Hinv) x Hx) as (p & Hp & Hpx);
      exists p; split; [done|by apply contains_members]) n Hn) as (c & Hc & _).
    assert (c ∈ dom g2) by (apply Hiff; split; by exists c). set_solver.
Qed.
End sort_correct.

(** What an outcome of the sort says about the groups. *)
Definition dag_outcome_spec {Mapping} (Decode : Mapping → GroupCommonOption + string) (groups : list Mapping)
    (outcome : dag_outcome (Mapping := Mapping)) : Prop :=
  match outcome with
  | DagSorted gs =>
    gs ≡ₚ groups
    ∧ (∀ i j a b, named Decode gs i a → named Decode gs j b → contains Decode groups a b → j < i)
    ∧ (∀ m, m ∈ groups → ∃ o, Decode m = inl o)
    ∧ (∀ i j n, named Decode groups i n → named Decode groups j n → i = j)
    ∧ ∀ a, ¬ tc (contains Decode groups) a a
  | DagDecode m e => m ∈ groups ∧ Decode m = inr e
  | DagDuplicate n => ∃ i j, i < j ∧ named Decode groups i n ∧ named Decode groups j n
  | DagLoop l => NoDup l ∧ l ≠ [] ∧ ∀ n, n ∈ l ↔ between_loops (contains Decode groups) n
  end.

Lemma dag_sort_outcome {Mapping} (Decode : Mapping → GroupCommonOption + string) `{MapRange} (groups : list Mapping) :
  ∃ outcome, proxyGroupsDagSort Decode groups = Ok outcome ∧ dag_outcome_spec Decode groups outcome.
Proof.
  unfold proxyGroupsDagSort. pose proof (build_graph_spec Decode groups [] ∅ ltac:(done) ltac:(constructor) ltac:(constructor)) as Hb.
  destruct (build_graph Decode ∅ groups) as [graph|[| | |]]; [|done|by eexists|by eexists|done].
  destruct Hb as (its & <- & Hdec & Hnd & Hg). cbn [app] in *.
  destruct (sorted_groups Decode its Hdec Hnd graph Hg) as (graph' & out & -> & Hinv & _ & Hcyc). cbn [mbind result_bind].
  destruct (decide (graph' = ∅)) as [->|Hne].
  - eexists. split; [done|]. destruct (sorted_order Decode its Hdec Hnd graph Hg out Hinv) as [Hperm Hord]. split; [done|]. split; [done|]. split; [|split].
    + intros m ([m' o] & -> & Hin)%list_elem_of_fmap. exists o. unfold decoded in Hdec. rewrite Forall_forall in Hdec. by apply (Hdec (m', o)).
    + intros i j n Hi Hj. rewrite elem_of_lookup_named in Hi, Hj by done. by eapply NoDup_lookup.
    + intros a Ha. assert (a ∈ dom (∅ : gmap str (graphNode (Mapping := Mapping)))) as Hd by (apply Hcyc; by exists a).
      by rewrite dom_empty_L in Hd.
  - destruct (located_loop Decode its Hdec Hnd graph Hg graph' out Hinv Hne Hcyc) as (g1 & g2 & -> & Htrim & Hne2 & Hiff).
    cbn [mbind result_bind]. rewrite Htrim. eexists. split; [done|]. split; [apply map_range_nodup|]. split.
    + intros E. apply Hne2. apply set_eq. intros n. rewrite <- (map_range_dom 3 g2 n), E. set_solver.
    + intros n. by rewrite map_range_dom.
Qed.

(** C6: [proxyGroupsDagSort] returns on every configuration and in every order of
    its maps. It accepts exactly when every group can be decoded, no two groups
    have the same name and no group contains itself through others; the result
    then has the same groups, each after all the groups it contains. When there
    is a loop it reports, without repetition, the names that can be reached from
    a loop and lead to a loop. *)
Theorem proxyGroupsDagSort_correct {Mapping} (Decode : Mapping → GroupCommonOption + string) `{MapRange} (groups : list Mapping) :
  match proxyGroupsDagSort Decode groups with
  | Ok (DagSorted gs) =>
    gs ≡ₚ groups
    ∧ (∀ i j a b, named Decode gs i a → named Decode gs j b → contains Decode groups a b → j < i)
    ∧ (∀ m, m ∈ groups → ∃ o, Decode m = inl o)
    ∧ (∀ i j n, named Decode groups i n → named Decode groups j n → i = j)
    ∧ ∀ a, ¬ tc (contains Decode groups) a a
  | Ok (DagDecode m e) => m ∈ groups ∧ Decode m = inr e
  | Ok (DagDuplicate n) => ∃ i j, i < j ∧ named Decode groups i n ∧ named Decode groups j n
  | Ok (DagLoop l) => NoDup l ∧ l ≠ [] ∧ ∀ n, n ∈ l ↔ between_loops (contains Decode groups) n
  | Err _ | Panic => False
  end.
Proof. destruct (dag_sort_outcome Decode groups) as (outcome & -> & Hs). by destruct outcome. Qed.

(** A decoder for groups that are given by their name and their members. *)
Definition plain_group (g : string * list string) : GroupCommonOption :=
  MkGroupOption (lit g.1) (lit "select") (lit <$> g.2) [] [] 0 0 0 [] true false [] [] [] [] false false false false [].
Definition plain_decode (g : string * list string) : GroupCommonOption + string := inl (plain_group g).

Lemma proxyGroupsDagSort_correct_witness :
  let groups := [("a", ["b"; "c"; "DIRECT"]); ("b", ["c"]); ("c", ["DIRECT"])]%string in
  ∃ gs, @proxyGroupsDagSort _ plain_decode list_range groups = Ok (DagSorted gs) ∧ gs ≡ₚ groups ∧ named plain_decode gs 2 (lit "a").
Proof.
  intros groups. pose proof (@proxyGroupsDagSort_correct _ plain_decode list_range groups) as Hs.
  assert (@proxyGroupsDagSort _ plain_decode list_range groups = Ok (DagSorted (reverse groups))) as E by (vm_compute; reflexivity).
  rewrite E in Hs. exists (reverse groups). split; [exact E|]. split; [apply Hs|].
  eexists _, _. split; [reflexivity|]. split; reflexivity.
Defined.

(** A comment says that only the loops remain in the graph; a group between two
    loops, which is in none, is reported with them. *)
Example DagLoop_reports_others :
  ∃ l, @proxyGroupsDagSort _ plain_decode list_range [("a", ["a"; "b"]); ("b", ["c"]); ("c", ["c"])]%string = Ok (DagLoop l)
  ∧ lit "b" ∈ l.
Proof. eexists. split; [vm_compute; reflexivity|]. apply (bool_decide_unpack _). vm_compute. exact I. Qed.

(** * Dialer proxies *)

Section chains.
Context (graph : gmap str str).

Definition dials_to (a b : str) : Prop := graph !! a = Some b.
Definition runs_free (a : str) : Prop := ¬ ∃ c, tc dials_to c c ∧ rtc dials_to a c.

Lemma runs_free_step a : match graph !! a with Some b => runs_free b | None => True end → runs_free a.
Proof.
  intros Hb (c & Hc & Hac). inversion Hac as [|? b ? Hab Hbc]; subst.
  - destruct (tc_first _ _ _ Hc) as (b & Hb' & Hr). unfold dials_to in Hb'. rewrite Hb' in Hb. apply Hb. by exists c.
  - unfold dials_to in Hab. rewrite Hab in Hb. apply Hb. by exists c.
Qed.

(** The state of a walk from [name]: what earlier walks found, and the path. *)
Record walking (name : str) (current : option str) (state : gmap str walk_state) (path : list str) : Prop := {
  walk_acyclic : ∀ a, state !! a = Some Acyclic → runs_free a;
  walk_path : ∀ a, state !! a = Some OnPath ↔ a ∈ path;
  walk_nodup : NoDup path;
  walk_start : name ∈ path ∨ current = Some name;
  walk_current : ∀ c, current = Some c → rtc dials_to name c ∧ ∀ a, a ∈ path → tc dials_to a c ∧ a ∈ dom graph;
  walk_free : match current with Some c => runs_free c | None => True end → ∀ a, a ∈ path → runs_free a
}.

Lemma walking_step name c state path : walking name (Some c) state path → state !! c = None →
  walking name (graph !! c) (<[c := OnPath]> state) (path ++ [c]).
Proof.
  intros [Hac Hp Hnd Hs Hcur Hfree] Hc. destruct (Hcur c eq_refl) as [Hr Ht].
  assert (c ∉ path) as Hnew by (rewrite <- Hp; congruence).
  split.
  - intros a. destruct (decide (a = c)) as [->|]; [by rewrite lookup_insert_eq|]. rewrite lookup_insert_ne by done. apply Hac.
  - intros a. rewrite elem_of_app, list_elem_of_singleton. destruct (decide (a = c)) as [->|].
    + rewrite lookup_insert_eq. naive_solver.
    + rewrite lookup_insert_ne, Hp by done. naive_solver.
  - apply NoDup_app. split; [done|]. split; [by intros x Hx ->%list_elem_of_singleton|apply NoDup_singleton].
  - left. rewrite elem_of_app, list_elem_of_singleton. naive_solver.
  - intros d Hd. split; [by eapply rtc_r|]. intros a [Ha| ->%list_elem_of_singleton]%elem_of_app.
    + destruct (Ht a Ha) as [? ?]. split; [by eapply tc_r|done].
    + split; [by apply tc_once|]. apply elem_of_dom. eauto.
  - intros Hn. apply runs_free_step in Hn. intros a [Ha| ->%list_elem_of_singleton]%elem_of_app; [by apply Hfree|done].
Qed.

Lemma walk_chain_spec name : ∀ fuel current state path, walking name current state path → S (size graph) ≤ fuel + length path →
  match walk_chain fuel graph current state path with
  | Ok None => ∃ c, tc dials_to c c ∧ rtc dials_to name c
  | Ok (Some (state', path')) => ∃ current', walking name current' state' path' ∧ ∀ a, a ∈ path' ∨ current' = Some a → runs_free a
  | Err _ | Panic => False
  end.
Proof.
  induction fuel as [|fuel IH]; intros [c|] state path Hw Hfuel; cbn [walk_chain].
  2, 4: exists None; split; [done|]; intros a [Ha|]; [|done]; by apply (walk_free _ _ _ _ Hw).
  all: destruct (decide (state !! c = Some Acyclic)) as [Ha|Ha];
    [exists (Some c); split; [done|]; pose proof (walk_acyclic _ _ _ _ Hw c Ha) as Hc;
     intros a [Hin|[= ->]]; [by apply (walk_free _ _ _ _ Hw)|done]|].
  all: destruct (decide (state !! c = Some OnPath)) as [Ho|Ho];
    [destruct (walk_current _ _ _ _ Hw c eq_refl) as [Hr Ht]; exists c; split; [by apply Ht, (walk_path _ _ _ _ Hw)|done]|].
  - assert (length path ≤ size (dom graph)); [|rewrite size_dom in *; lia]. change (size (dom graph)) with (length (elements (dom graph))).
    apply submseteq_length, NoDup_submseteq; [apply Hw|]. intros a Hin. apply elem_of_elements.
    by apply (walk_current _ _ _ _ Hw c eq_refl).
  - apply IH; [|rewrite length_app; cbn; lia]. apply walking_step; [done|]. by destruct (state !! c) as [[]|].
Qed.

(** The walks that are over. *)
Definition settled (state : gmap str walk_state) : Prop := ∀ a, is_Some (state !! a) → state !! a = Some Acyclic ∧ runs_free a.

Lemma settle name current state path : walking name current state path → (∀ a, a ∈ path → runs_free a) →
  settled (foldl (λ state p, <[p := Acyclic]> state) state path).
Proof.
  intros [Hac Hp _ _ _ _] Hfree.
  assert (∀ l state a, foldl (λ (state : gmap str walk_state) p, <[p := Acyclic]> state) state l !! a
    = if decide (a ∈ l) then Some Acyclic else state !! a) as Hfold.
  { induction l as [|x l IH]; intros st a; cbn [foldl]; [by rewrite decide_False by apply not_elem_of_nil|]. rewrite IH.
    destruct (decide (a ∈ l)); [by rewrite decide_True by (by right)|]. destruct (decide (a = x)) as [->|].
    - by rewrite lookup_insert_eq, decide_True by left.
    - rewrite lookup_insert_ne by done. rewrite decide_False; [done|]. by rewrite not_elem_of_cons. }
  intros a. rewrite Hfold. destruct (decide (a ∈ path)) as [Hin|Hout]; [intros _; split; [done|by apply Hfree]|].
  intros [[] Hs]; [by apply Hp in Hs|]. split; [done|]. by apply Hac.
Qed.

Lemma walk_names_spec names : ∀ state, settled state →
  match walk_names graph names state with
  | Ok None => ∀ a, a ∈ names → runs_free a
  | Ok (Some (DialerCycle a)) => ∃ c, tc dials_to c c ∧ rtc dials_to a c
  | _ => False
  end.
Proof.
  induction names as [|name names IH]; intros state Hs; cbn [walk_names]; [by intros a ?%not_elem_of_nil|].
  assert (walking name (Some name) state []) as Hw.
  { split; [intros a Ha; apply Hs; by rewrite Ha| |constructor|by right| |by intros _ a ?%not_elem_of_nil].
    - intros a. rewrite elem_of_nil. split; [|done]. intros Ha. destruct (Hs a) as [? _]; [by rewrite Ha|]. congruence.
    - intros c [= <-]. split; [done|]. by intros a ?%not_elem_of_nil. }
  pose proof (walk_chain_spec name (S (size graph)) _ _ _ Hw) as Hspec. cbn [length] in Hspec. specialize (Hspec ltac:(lia)).
  destruct (walk_chain _ _ _ _ _) as [[[state' path]|]| |]; cbn [mbind result_bind]; [|done..].
  destruct Hspec as (current & Hw' & Hfree). specialize (IH _ (settle _ _ _ _ Hw' ltac:(intros a Ha; apply Hfree; by left))).
  destruct (walk_names graph names _) as [[[]|]| |]; [done..| |done|done].
  intros a [->|Ha]%elem_of_cons; [|by apply IH]. apply Hfree. by destruct (walk_start _ _ _ _ Hw'); [left|right].
Qed.
End chains.

(** The configured dialer proxy of a proxy. *)
Definition dials (proxies : gmap str str) (a b : str) : Prop := proxies !! a = Some b ∧ b ≠ [].

Lemma collect_dialers_spec proxies names : ∀ graph, (∀ a b, graph !! a = Some b → dials proxies a b) → (∀ a, a ∈ names → a ∈ dom proxies) →
  match collect_dialers proxies names graph with
  | inl graph' => (∀ a b, graph' !! a = Some b → dials proxies a b)
    ∧ (∀ a b, a ∈ names → dials proxies a b → graph' !! a = Some b ∧ is_Some (proxies !! b))
    ∧ ∀ a b, graph !! a = Some b → graph' !! a = Some b
  | inr (DialerNotFound a b) => dials proxies a b ∧ proxies !! b = None
  | inr (DialerCycle _) => False
  end.
Proof.
  induction names as [|n names IH]; intros graph Hg Hn; cbn [collect_dialers].
  { split; [done|]. split; [by intros a b ?%not_elem_of_nil|done]. }
  assert (∀ a, a ∈ names → a ∈ dom proxies) as Hn' by (intros a Ha; apply Hn; by right).
  destruct (proj1 (elem_of_dom proxies n) (Hn n ltac:(left))) as [d Hd]. rewrite Hd. destruct d as [|c d].
  - specialize (IH graph Hg Hn'). destruct (collect_dialers proxies names graph) as [g|[]]; [|done..].
    destruct IH as (H1 & H2 & H3). split; [done|]. split; [|done]. intros a b [->|Ha]%elem_of_cons Hab; [|by apply H2].
    destruct Hab as [Hab Hne]. congruence.
  - destruct (proxies !! (c :: d)) as [dd|] eqn:Ed; [|by split; [split|]].
    assert (∀ a b, <[n := c :: d]> graph !! a = Some b → dials proxies a b) as Hg'.
    { intros a b [[<- <-]|[_ Hab]]%lookup_insert_Some; [by split|by apply Hg]. }
    specialize (IH _ Hg' Hn'). destruct (collect_dialers proxies names _) as [g|[]]; [|done..].
    destruct IH as (H1 & H2 & H3). split; [done|]. split.
    + intros a b [->|Ha]%elem_of_cons Hab; [|by apply H2]. destruct Hab as [Hab _]. rewrite Hd in Hab. injection Hab as <-.
      split; [|by rewrite Ed]. apply H3. by rewrite lookup_insert_eq.
    + intros a b Hab. destruct (decide (a = n)) as [->|].
      * destruct (Hg n b Hab) as [Hb _]. rewrite Hd in Hb. injection Hb as <-. apply H3. by rewrite lookup_insert_eq.
      * apply H3. by rewrite lookup_insert_ne.
Qed.

(** What the check of the dialer proxies promises. *)
Definition dialer_outcome_spec (proxies : gmap str str) (outcome : option dialer_error) : Prop :=
  match outcome with
  | None => (∀ a b, dials proxies a b → is_Some (proxies !! b)) ∧ ∀ a, ¬ tc (dials proxies) a a
  | Some (DialerNotFound a b) => dials proxies a b ∧ proxies !! b = None
  | Some (DialerCycle a) => ∃ c, tc (dials proxies) c c ∧ rtc (dials proxies) a c
  end.

Lemma dialers_outcome `{MapRange} (proxies : gmap str str) :
  ∃ outcome, validateDialerProxies proxies = Ok outcome ∧ dialer_outcome_spec proxies outcome.
Proof.
  unfold validateDialerProxies. pose proof (collect_dialers_spec proxies (map_range 0 proxies) ∅ ltac:(done)) as Hc.
  specialize (Hc ltac:(by intros a ?%map_range_dom)). destruct (collect_dialers _ _ _) as [graph|[]]; [|done || by eexists..].
  destruct Hc as (H1 & H2 & _).
  assert (∀ a b, dials proxies a b → dials_to graph a b ∧ is_Some (proxies !! b)) as Hin.
  { intros a b Hab. apply H2; [|done]. apply map_range_dom, elem_of_dom. destruct Hab. by eexists. }
  unfold validateDialerProxiesHasCycle. pose proof (walk_names_spec graph (map_range 0 graph) ∅) as Hw.
  specialize (Hw ltac:(by intros a [])). destruct (walk_names _ _ _) as [[[]|]| |]; [done| | |done|done]; (eexists; split; [done|]).
  - destruct Hw as (c & Hc & Hr). exists c. split; [eapply (tc_congruence id); [|exact Hc]; intros ?? ?; by apply H1|].
    eapply rtc_subrel; [|exact Hr]. intros ?? ?. by apply H1.
  - split; [intros a b Hab; exact (proj2 (Hin a b Hab))|]. intros a Ha. destruct (tc_first _ _ _ Ha) as (b & Hab & _).
    apply (Hw a); [apply map_range_dom, elem_of_dom; exists b; by apply Hin|]. exists a. split; [|done].
    eapply (tc_congruence id); [|exact Ha]. intros x y Hxy. by apply Hin.
Qed.

(** C7: [validateDialerProxies] returns for every map of proxies and in every
    order of its ranges: it accepts exactly when every configured dialer proxy
    exists and following them never comes back, and otherwise names a proxy
    whose dialer proxy is missing or whose chain runs into a cycle. *)
Theorem validateDialerProxies_correct `{MapRange} (proxies : gmap str str) :
  match validateDialerProxies proxies with
  | Ok None => (∀ a b, dials proxies a b → is_Some (proxies !! b)) ∧ ∀ a, ¬ tc (dials proxies) a a
  | Ok (Some (DialerNotFound a b)) => dials proxies a b ∧ proxies !! b = None
  | Ok (Some (DialerCycle a)) => ∃ c, tc (dials proxies) c c ∧ rtc (dials proxies) a c
  | Err _ | Panic => False
  end.
Proof. destruct (dialers_outcome proxies) as ([[]|] & -> & Hs); exact Hs. Qed.

Lemma validateDialerProxies_correct_witness :
  let proxies := list_to_map [(lit "a", lit "b"); (lit "b", lit "c"); (lit "c", [])] in
  @validateDialerProxies list_range proxies = Ok None ∧ ¬ tc (dials proxies) (lit "a") (lit "a").
Proof.
  intros proxies. pose proof (@validateDialerProxies_correct list_range proxies) as Hs.
  assert (@validateDialerProxies list_range proxies = Ok None) as E by (vm_compute; reflexivity).
  rewrite E in Hs. split; [exact E|]. apply Hs.
Defined.
