(* ===== verification/ProxyGroup.v ===== *)
(** * ProxyGroup: how a group chooses a proxy

    [src/adapter/outboundgroup]: the proxies of a group ([groupbase.go]) and the
    choice of a selector, a fallback, a URL-test and a load-balance group, with
    the cache of the last choice ([src/common/singledo]).

    A proxy is an object of [ProxyEnv] (Routing); a provider is a reference into
    a heap, which other goroutines change between two calls. What a health check
    knows about a proxy is read from the snapshot [Health], which is fixed during
    one call. Regular expressions are a parameter. Mutexes make a call atomic;
    the calls that [singledo] joins are not modelled, nor is [Touch], which only
    records the time of use at a provider. The last section counts failed
    connections. *)
From S2P Require Import Prelude GoStrings NetIP Metadata LogicRules Rules Lru Routing.

(** [regexp2] with no options; the empty expression is one. *)
Class GroupRegexp := {
  Regexp : Type;
  Compile : str → option Regexp;
  MatchString : Regexp → str → bool
}.

Inductive VehicleType := VFile | VHTTP | VCompatible | VInline.
#[export] Instance VehicleType_eq_dec : EqDecision VehicleType.
Proof. solve_decision. Defined.

Definition AdapterType_String (at_ : AdapterType) : string :=
  match at_ with
  | Direct => "Direct" | Reject => "Reject" | RejectDrop => "RejectDrop" | Compatible => "Compatible" | Pass => "Pass"
  | PassRule => "PassRule" | Rematch => "Rematch" | Dns => "Dns" | Shadowsocks => "Shadowsocks" | ShadowsocksR => "ShadowsocksR"
  | Snell => "Snell" | Socks5 => "Socks5" | Http => "Http" | Vmess => "Vmess" | Vless => "Vless" | Trojan => "Trojan"
  | Hysteria => "Hysteria" | Hysteria2 => "Hysteria2" | WireGuard => "WireGuard" | Tuic => "Tuic" | Ssh => "Ssh" | Mieru => "Mieru"
  | AnyTLS => "AnyTLS" | Sudoku => "Sudoku" | Masque => "Masque" | TrustTunnel => "TrustTunnel" | ShadowQuic => "ShadowQuic"
  | OpenVPN => "OpenVPN" | Tailscale => "Tailscale" | GostRelay => "GostRelay" | Relay => "Relay" | Selector => "Selector"
  | Fallback => "Fallback" | URLTest => "URLTest" | LoadBalance => "LoadBalance"
  end.

Section groups.
Context `{RuleEnv} `{ProxyEnv} `{GroupRegexp}.

(** ** The proxies of a group *)

Record ProxyProvider := MkProvider {
  pd_Name : str;
  pd_VehicleType : VehicleType;
  pd_Version : Z;
  pd_Proxies : list Proxy;
  pd_HealthCheckURL : str
}.
Definition Providers := nat → ProxyProvider.

Record GroupBase := MkGroupBase {
  gb_Name : str;
  gb_Type : AdapterType;
  gb_hidden : bool;
  gb_icon : str;
  filterRegs : list Regexp;
  excludeFilterRegs : list Regexp;
  excludeTypeArray : option (list str);
  gb_providers : list nat;
  testTimeout : Z;
  maxFailedTimes : Z;
  emptyFallback : Proxy;
  providerVersions : list Z;
  providerProxies : list Proxy
}.
Definition with_cache (versions : list Z) (proxies : list Proxy) (gb : GroupBase) : GroupBase :=
  MkGroupBase (gb_Name gb) (gb_Type gb) (gb_hidden gb) (gb_icon gb) (filterRegs gb) (excludeFilterRegs gb) (excludeTypeArray gb)
    (gb_providers gb) (testTimeout gb) (maxFailedTimes gb) (emptyFallback gb) versions proxies.

Record GroupBaseOption := MkGroupBaseOption {
  bo_Name : str;
  bo_Type : AdapterType;
  bo_Hidden : bool;
  bo_Icon : str;
  bo_Filter : str;
  bo_ExcludeFilter : str;
  bo_ExcludeType : str;
  bo_TestTimeout : Z;
  bo_MaxFailedTimes : Z;
  bo_EmptyFallback : Proxy;
  bo_Providers : list nat
}.

Definition backquote : ascii := ascii_of_N 96.
Definition bar : ascii := ascii_of_N 124.

(** [regexp2.MustCompile] of the expressions between back quotes. *)
Definition must_compile (filter : str) : result (list Regexp) :=
  if decide (filter = []) then Ok []
  else foldM (λ regs s, match Compile s with Some r => Ok (regs ++ [r]) | None => Panic end) [] (split_on backquote filter).

Definition NewGroupBase (opt : GroupBaseOption) : result GroupBase :=
  let excludeTypes := if decide (bo_ExcludeType opt = []) then None else Some (split_on bar (bo_ExcludeType opt)) in
  excludeRegs ← must_compile (bo_ExcludeFilter opt);
  regs ← must_compile (bo_Filter opt);
  Ok (MkGroupBase (bo_Name opt) (bo_Type opt) (bo_Hidden opt) (bo_Icon opt) regs excludeRegs excludeTypes (bo_Providers opt)
    (if (bo_TestTimeout opt =? 0)%Z then 5000 else bo_TestTimeout opt)
    (if (bo_MaxFailedTimes opt =? 0)%Z then 5 else bo_MaxFailedTimes opt)
    (bo_EmptyFallback opt) [] []).

(** [proxiesSet] and [newProxies]. *)
Definition pick (st : gset str * list Proxy) (p : Proxy) : gset str * list Proxy :=
  if decide (Name p ∈ st.1) then st else ({[Name p]} ∪ st.1, st.2 ++ [p]).
Definition pick_matching (proxies : list Proxy) (st : gset str * list Proxy) (reg : Regexp) : gset str * list Proxy :=
  foldl (λ st p, if MatchString reg (Name p) then pick st p else st) st proxies.
Definition by_filters (regs : list Regexp) (proxies : list Proxy) : gset str * list Proxy :=
  foldl (pick_matching proxies) (∅, []) regs.

Definition provider_proxies (gb : GroupBase) (pd : ProxyProvider) : list Proxy :=
  if decide (length (filterRegs gb) = 0) then pd_Proxies pd
  else if decide (pd_VehicleType pd = VCompatible) then pd_Proxies pd
  else (by_filters (filterRegs gb) (pd_Proxies pd)).2.

Definition reorder (gb : GroupBase) (proxies : list Proxy) : list Proxy :=
  if (1 <? length (gb_providers gb))%nat && (1 <? length (filterRegs gb))%nat
  then (foldl pick (by_filters (filterRegs gb) proxies) proxies).2
  else proxies.

Definition excluded (gb : GroupBase) (p : Proxy) : bool := existsb (λ reg, MatchString reg (Name p)) (excludeFilterRegs gb).
Definition excluded_type (gb : GroupBase) (p : Proxy) : bool :=
  match excludeTypeArray gb with
  | Some types => existsb (EqualFold (lit (AdapterType_String (ProxyType p)))) types
  | None => false
  end.

(** What [GetProxies] computes when its cache is out of date. *)
Definition collect_proxies (gb : GroupBase) (w : Providers) : list Proxy :=
  let proxies := gb_providers gb ≫= λ id, provider_proxies gb (w id) in
  let proxies := reorder gb proxies in
  let proxies := if decide (length (excludeFilterRegs gb) = 0) then proxies
                 else List.filter (λ p, negb (excluded gb p)) proxies in
  List.filter (λ p, negb (excluded_type gb p)) proxies.

Definition GetProxies (gb : GroupBase) (w : Providers) : list Proxy * GroupBase :=
  let versions := (λ id, pd_Version (w id)) <$> gb_providers gb in
  if decide (versions = providerVersions gb) then (providerProxies gb, gb)
  else
    let proxies := collect_proxies gb w in
    if decide (length proxies = 0) then ([emptyFallback gb], gb)
    else (proxies, with_cache versions proxies gb).

(** [proxies[0]]. *)
Definition first_proxy (proxies : list Proxy) : result Proxy :=
  match proxies with p :: _ => Ok p | [] => Panic end.

(** What the health checks know. *)
Record Health := MkHealth { AliveForTestUrl : Proxy → str → bool; LastDelayForTestUrl : Proxy → str → Z }.

Definition find_name (name : str) (proxies : list Proxy) : option Proxy :=
  List.find (λ p, bool_decide (Name p = name)) proxies.

(** ** Selector *)

Record SelectorGroup := MkSelector { s_base : GroupBase; s_disableUDP : bool; s_selected : str; s_testUrl : str }.

Definition selectedProxy (s : SelectorGroup) (w : Providers) : result Proxy * SelectorGroup :=
  let '(proxies, gb) := GetProxies (s_base s) w in
  (match find_name (s_selected s) proxies with Some p => Ok p | None => first_proxy proxies end,
   MkSelector gb (s_disableUDP s) (s_selected s) (s_testUrl s)).

Definition Selector_Set (s : SelectorGroup) (w : Providers) (name : str) : result unit * SelectorGroup :=
  let '(proxies, gb) := GetProxies (s_base s) w in
  match find_name name proxies with
  | Some _ => (Ok tt, MkSelector gb (s_disableUDP s) name (s_testUrl s))
  | None => (Err "proxy not exist", MkSelector gb (s_disableUDP s) (s_selected s) (s_testUrl s))
  end.
Definition Selector_ForceSet (s : SelectorGroup) (name : str) : SelectorGroup :=
  MkSelector (s_base s) (s_disableUDP s) name (s_testUrl s).

(** ** Fallback *)

Record FallbackGroup := MkFallback {
  f_base : GroupBase; f_disableUDP : bool; f_testUrl : str; f_selected : str; f_expectedStatus : str
}.
Definition with_f_selected (gb : GroupBase) (selected : str) (f : FallbackGroup) : FallbackGroup :=
  MkFallback gb (f_disableUDP f) (f_testUrl f) selected (f_expectedStatus f).

(** The loop of [findAliveProxy], which also forgets a dead selection. *)
Fixpoint alive_loop (h : Health) (url : str) (selected : str) (proxies : list Proxy) : option Proxy * str :=
  match proxies with
  | [] => (None, selected)
  | proxy :: rest =>
    if decide (length selected = 0) then
      if AliveForTestUrl h proxy url then (Some proxy, selected) else alive_loop h url selected rest
    else if decide (Name proxy = selected) then
      if AliveForTestUrl h proxy url then (Some proxy, selected) else alive_loop h url [] rest
    else alive_loop h url selected rest
  end.

Definition findAliveProxy (f : FallbackGroup) (w : Providers) (h : Health) : result Proxy * FallbackGroup :=
  let '(proxies, gb) := GetProxies (f_base f) w in
  let '(o, selected) := alive_loop h (f_testUrl f) (f_selected f) proxies in
  (match o with Some p => Ok p | None => first_proxy proxies end, with_f_selected gb selected f).

(** [Set]: the selection, and the proxy to test when it is not alive. *)
Definition Fallback_Set (f : FallbackGroup) (w : Providers) (h : Health) (name : str) : result (option Proxy) * FallbackGroup :=
  let '(proxies, gb) := GetProxies (f_base f) w in
  match find_name name proxies with
  | None => (Err "proxy not exist", with_f_selected gb (f_selected f) f)
  | Some p => (Ok (if AliveForTestUrl h p (f_testUrl f) then None else Some p), with_f_selected gb name f)
  end.
Definition Fallback_ForceSet (f : FallbackGroup) (name : str) : FallbackGroup := with_f_selected (f_base f) name f.

(** ** URL test *)

(** [singledo.Single], used by one goroutine at a time; times are in nanoseconds. *)
Record Single := MkSingle { sg_wait : Z; sg_result : option (Proxy * Z) }.
Definition NewSingle (wait : Z) : Single := MkSingle wait None.
Definition Reset (s : Single) : Single := MkSingle (sg_wait s) None.

Record URLTestGroup := MkURLTest {
  u_base : GroupBase;
  u_selected : str;
  u_testUrl : str;
  u_expectedStatus : str;
  u_tolerance : Z;
  u_disableUDP : bool;
  u_fastNode : option Proxy;
  u_fastSingle : Single
}.
Definition with_u (gb : GroupBase) (selected : str) (node : option Proxy) (single : Single) (u : URLTestGroup) : URLTestGroup :=
  MkURLTest gb selected (u_testUrl u) (u_expectedStatus u) (u_tolerance u) (u_disableUDP u) node single.

(** The first alive proxy with the smallest delay. *)
Definition faster (h : Health) (url : str) (best : option (Proxy * Z)) (proxy : Proxy) : option (Proxy * Z) :=
  if AliveForTestUrl h proxy url then
    let delay := LastDelayForTestUrl h proxy url in
    match best with
    | Some (_, minDelay) => if (delay <? minDelay)%Z then Some (proxy, delay) else best
    | None => Some (proxy, delay)
    end
  else best.
Definition fastest (h : Health) (url : str) (proxies : list Proxy) : option (Proxy * Z) := foldl (faster h url) None proxies.

(** The function [fast] passes to [Do]: the chosen proxy, which is [fastNode]
    from then on. *)
Definition choose_fast (u : URLTestGroup) (h : Health) (proxies : list Proxy) : result Proxy :=
  let url := u_testUrl u in
  let pinned := if decide (u_selected u = []) then None
                else List.find (λ p, AliveForTestUrl h p url && bool_decide (Name p = u_selected u)) proxies in
  match pinned with
  | Some p => Ok p
  | None =>
    fast ← match fastest h url proxies with Some (p, _) => Ok p | None => first_proxy proxies end;
    match u_fastNode u with
    | None => Ok fast
    | Some node =>
      let fastNotExist := negb (existsb (λ p, bool_decide (Name p = Name node)) proxies) in
      if fastNotExist || negb (AliveForTestUrl h node url)
         || (wrap uint16 (LastDelayForTestUrl h fast url + u_tolerance u) <? LastDelayForTestUrl h node url)%Z
      then Ok fast else Ok node
    end
  end.

Definition fast (u : URLTestGroup) (w : Providers) (h : Health) (now : Z) : result Proxy * URLTestGroup :=
  let run :=
    let '(proxies, gb) := GetProxies (u_base u) w in
    let node := choose_fast u h proxies in
    (node, match node with
           | Ok p => with_u gb (u_selected u) (Some p) (MkSingle (sg_wait (u_fastSingle u)) (Some (p, now))) u
           | _ => with_u gb (u_selected u) (u_fastNode u) (Reset (u_fastSingle u)) u
           end) in
  match sg_result (u_fastSingle u) with
  | Some (p, t) => if (now - t <? sg_wait (u_fastSingle u))%Z then (Ok p, u) else run
  | None => run
  end.

Definition URLTest_ForceSet (u : URLTestGroup) (name : str) : URLTestGroup :=
  with_u (u_base u) name (u_fastNode u) (Reset (u_fastSingle u)) u.
Definition URLTest_Set (u : URLTestGroup) (w : Providers) (name : str) : result unit * URLTestGroup :=
  let '(proxies, gb) := GetProxies (u_base u) w in
  let u := with_u gb (u_selected u) (u_fastNode u) (u_fastSingle u) u in
  match find_name name proxies with
  | Some _ => (Ok tt, URLTest_ForceSet u name)
  | None => (Err "proxy not exist", u)
  end.
End groups.
Arguments ProxyProvider {_}.
Arguments Providers {_}.
Arguments GroupBase {_ _}.

(** * The proxies of a group *)

Section base_facts.
Context `{RuleEnv} `{ProxyEnv} `{GroupRegexp}.
Implicit Types (gb : GroupBase) (w : Providers).

(** The result of a call that does not use the cache. *)
Definition fresh_proxies gb w : list Proxy :=
  let proxies := collect_proxies gb w in if decide (length proxies = 0) then [emptyFallback gb] else proxies.

(** The fields that never change. *)
Definition same_group gb gb' : Prop := gb' = with_cache (providerVersions gb') (providerProxies gb') gb.

Lemma collect_proxies_same gb gb' w : same_group gb gb' → collect_proxies gb' w = collect_proxies gb w.
Proof. by intros ->. Qed.

(** Some calls one after the other, with the providers as they are then. *)
Fixpoint get_all gb (ws : list Providers) : list (list Proxy) :=
  match ws with
  | [] => []
  | w :: ws => let '(proxies, gb) := GetProxies gb w in proxies :: get_all gb ws
  end.

(** A provider that has not counted a new version has the same proxies. *)
Definition versioned (ws : list Providers) (ids : list nat) : Prop :=
  ∀ w w' id, w ∈ ws → w' ∈ ws → id ∈ ids → pd_Version (w id) = pd_Version (w' id) →
    pd_Proxies (w id) = pd_Proxies (w' id) ∧ pd_VehicleType (w id) = pd_VehicleType (w' id).

Lemma provider_proxies_same gb pd pd' : pd_Proxies pd = pd_Proxies pd' → pd_VehicleType pd = pd_VehicleType pd' →
  provider_proxies gb pd = provider_proxies gb pd'.
Proof. unfold provider_proxies. by intros -> ->. Qed.

(** Two snapshots with the versions of the group's providers in common. *)
Lemma collect_versions gb ws w w' : versioned ws (gb_providers gb) → w ∈ ws → w' ∈ ws →
  (λ id, pd_Version (w id)) <$> gb_providers gb = (λ id, pd_Version (w' id)) <$> gb_providers gb →
  collect_proxies gb w = collect_proxies gb w'.
Proof.
  intros Hv Hw Hw' He. unfold collect_proxies.
  assert ((gb_providers gb ≫= λ id, provider_proxies gb (w id)) = (gb_providers gb ≫= λ id, provider_proxies gb (w' id))) as ->; [|done].
  assert (∀ id, id ∈ gb_providers gb → pd_Version (w id) = pd_Version (w' id)) as Hid.
  { intros id [i Hi]%list_elem_of_lookup. apply (f_equal (.!! i)) in He. rewrite !list_lookup_fmap, Hi in He. by injection He. }
  unfold versioned in Hv. clear He. induction (gb_providers gb) as [|id ids IH]; [done|]. cbn. f_equal.
  - destruct (Hv w w' id Hw Hw' ltac:(left)) as [? ?]; [apply Hid; left|]. by apply provider_proxies_same.
  - apply IH; [intros v v' i Hv1 Hv2 Hi; apply (Hv v v' i Hv1 Hv2); by right|intros i Hi; apply Hid; by right].
Qed.

(** The cache is empty, or what a call on an earlier snapshot computed. *)
Definition cache_ok (ws : list Providers) gb : Prop :=
  providerVersions gb = [] ∨ ∃ w, w ∈ ws ∧ providerVersions gb = (λ id, pd_Version (w id)) <$> gb_providers gb
    ∧ providerProxies gb = collect_proxies gb w ∧ providerProxies gb ≠ [].

Lemma GetProxies_fresh ws gb w : versioned ws (gb_providers gb) → gb_providers gb ≠ [] → w ∈ ws → cache_ok ws gb →
  ∃ gb', GetProxies gb w = (fresh_proxies gb w, gb') ∧ same_group gb gb' ∧ cache_ok ws gb'.
Proof.
  intros Hv Hne Hw Hc. unfold GetProxies, fresh_proxies. case_decide as He.
  - exists gb. destruct Hc as [Hc|(w' & Hw' & Hver & Hp & Hn)].
    { rewrite Hc in He. by destruct (gb_providers gb). }
    rewrite (collect_versions gb ws w w'), <- Hp by (done || congruence). split; [|split; [by destruct gb|right; by exists w']].
    rewrite decide_False; [done|]. by destruct (providerProxies gb).
  - case_decide as Hl; [exists gb; split; [done|]; split; [by destruct gb|done]|].
    eexists. split; [done|]. split; [done|]. right. exists w. repeat split; [done..|]. cbn. by destruct (collect_proxies gb w).
Qed.

(** C18: the cache of a group is never out of date. Whatever other goroutines do to
    the providers between the calls, as long as a provider counts a new version
    with every change, each call of [GetProxies] on a new group gives what it
    would compute afresh: the filtered proxies, or the fallback when there are
    none. *)
Theorem GetProxies_never_stale (opt : GroupBaseOption) gb (ws : list Providers) :
  NewGroupBase opt = Ok gb → bo_Providers opt ≠ [] → versioned ws (bo_Providers opt) →
  get_all gb ws = fresh_proxies gb <$> ws.
Proof.
  intros Hnew Hne Hv.
  assert (gb_providers gb = bo_Providers opt ∧ providerVersions gb = []) as [Hp Hver].
  { unfold NewGroupBase in Hnew. destruct (must_compile (bo_ExcludeFilter opt)) as [regs| |]; [|done..]. cbn in Hnew.
    destruct (must_compile (bo_Filter opt)) as [regs'| |]; [|done..]. by injection Hnew as <-. }
  rewrite <- Hp in Hne, Hv. clear Hnew Hp opt.
  assert (∀ l gb', (∀ w, w ∈ l → w ∈ ws) → same_group gb gb' → cache_ok ws gb' → get_all gb' l = fresh_proxies gb <$> l) as Hall.
  { induction l as [|w l IH]; intros gb' Hl Hs Hc; [done|]. cbn [get_all fmap list_fmap].
    destruct (GetProxies_fresh ws gb' w) as (gb2 & -> & Hs2 & Hc2); [by rewrite Hs|by rewrite Hs|apply Hl; left|done|].
    f_equal; [by rewrite Hs|]. apply IH; [intros v Hv'; apply Hl; by right| |done]. unfold same_group in *. rewrite Hs2, Hs. done. }
  apply Hall; [done|by destruct gb|by left].
Qed.

(** ** Finding a name *)

Lemma find_name_app name l1 l2 : find_name name (l1 ++ l2) = match find_name name l1 with Some p => Some p | None => find_name name l2 end.
Proof. unfold find_name. induction l1 as [|p l1 IH]; [done|]. cbn. by destruct (bool_decide _). Qed.

Lemma find_name_None name l : find_name name l = None ↔ name ∉ Name <$> l.
Proof.
  unfold find_name. induction l as [|p l IH]; cbn; [split; [intros _; apply not_elem_of_nil|done]|].
  rewrite not_elem_of_cons. destruct (bool_decide_reflect (Name p = name)) as [He|He]; [naive_solver|]. rewrite IH. naive_solver.
Qed.

Lemma find_name_Some name l p : find_name name l = Some p →
  ∃ l1 l2, l = l1 ++ p :: l2 ∧ Name p = name ∧ name ∉ Name <$> l1.
Proof.
  unfold find_name. induction l as [|q l IH]; [done|]. cbn. destruct (bool_decide_reflect (Name q = name)) as [He|He].
  - intros [= ->]. exists [], l. split; [done|]. split; [done|]. apply not_elem_of_nil.
  - intros (l1 & l2 & -> & Hn & Hno)%IH. exists (q :: l1), l2. split; [done|]. split; [done|]. cbn. rewrite not_elem_of_cons. naive_solver.
Qed.

(** ** What the filters leave *)

(** The first proxy of each name. *)
Definition picks (l : list Proxy) : list Proxy := (foldl pick (∅, []) l).2.

Lemma foldl_pick st l : st.1 = list_to_set (Name <$> st.2) → NoDup (Name <$> st.2) →
  let st' := foldl pick st l in
  st'.1 = list_to_set (Name <$> st'.2) ∧ NoDup (Name <$> st'.2)
  ∧ (∀ p, p ∈ l → Name p ∈ Name <$> st'.2)
  ∧ ∃ new, st'.2 = st.2 ++ new ∧ ∀ p, p ∈ new → p ∈ l ∧ Name p ∉ Name <$> st.2.
Proof.
  revert st. induction l as [|x l IH]; intros st Hst Hnd; cbn [foldl].
  { split; [done|]. split; [done|]. split; [by intros p ?%not_elem_of_nil|]. exists []. rewrite app_nil_r. split; [done|]. by intros p ?%not_elem_of_nil. }
  assert ((pick st x).1 = list_to_set (Name <$> (pick st x).2) ∧ NoDup (Name <$> (pick st x).2) ∧ Name x ∈ Name <$> (pick st x).2
    ∧ ∃ new, (pick st x).2 = st.2 ++ new ∧ ∀ p, p ∈ new → p = x ∧ Name p ∉ Name <$> st.2) as (P1 & P2 & P3 & new1 & Hnew1 & Hin1).
  { unfold pick. case_decide as Hin; rewrite Hst, elem_of_list_to_set in Hin.
    - split; [done|]. split; [done|]. split; [done|]. exists []. rewrite app_nil_r. split; [done|]. by intros p ?%not_elem_of_nil.
    - cbn [fst snd]. rewrite fmap_app. split; [rewrite Hst, list_to_set_app_L; cbn; set_solver|]. split.
      + apply NoDup_app. split; [done|]. split; [by intros n Hn ->%list_elem_of_singleton|apply NoDup_singleton].
      + split; [apply elem_of_app; right; by left|]. exists [x]. split; [done|]. by intros p ->%list_elem_of_singleton. }
  destruct (IH _ P1 P2) as (G1 & G2 & G3 & new2 & Hnew2 & Hin2). split; [done|]. split; [done|]. split.
  - intros p [->|Hp]%elem_of_cons; [|by apply G3]. rewrite Hnew2, fmap_app. apply elem_of_app. by left.
  - exists (new1 ++ new2). rewrite Hnew2, Hnew1, app_assoc. split; [done|]. intros p [Hp|Hp]%elem_of_app.
    + destruct (Hin1 p Hp) as [-> ?]. split; [left|done].
    + destruct (Hin2 p Hp) as [? Hno]. split; [by right|]. intros Hn. apply Hno. rewrite Hnew1, fmap_app. apply elem_of_app. by left.
Qed.

Definition matching (reg : Regexp) (proxies : list Proxy) : list Proxy := List.filter (λ p, MatchString reg (Name p)) proxies.

Lemma pick_matching_foldl proxies st reg : pick_matching proxies st reg = foldl pick st (matching reg proxies).
Proof. unfold pick_matching, matching. revert st. induction proxies as [|p l IH]; intros st; [done|]. cbn. by destruct (MatchString _ _). Qed.

Lemma by_filters_foldl regs proxies st : foldl (pick_matching proxies) st regs = foldl pick st (regs ≫= λ reg, matching reg proxies).
Proof.
  revert st. induction regs as [|r regs IH]; intros st; [done|]. cbn [foldl mbind list_bind]. by rewrite foldl_app, IH, pick_matching_foldl.
Qed.

Lemma elem_of_matching reg proxies p : p ∈ matching reg proxies ↔ p ∈ proxies ∧ MatchString reg (Name p) = true.
Proof. unfold matching. by rewrite list_elem_of_In, filter_In, <- list_elem_of_In. Qed.

Lemma picks_spec l : NoDup (Name <$> picks l) ∧ (∀ p, p ∈ l → Name p ∈ Name <$> picks l) ∧ ∀ p, p ∈ picks l → p ∈ l.
Proof.
  destruct (foldl_pick (∅, []) l) as (_ & H2 & H3 & new & Hnew & Hin); [done|constructor|]. split; [done|]. split; [done|].
  intros p Hp. unfold picks in Hp. rewrite Hnew in Hp. cbn in Hp. by apply Hin.
Qed.

(** Whether a filter of the group lets a name through. *)
Definition wanted gb (name : str) : bool := existsb (λ reg, MatchString reg name) (filterRegs gb).

Lemma wanted_spec gb name : wanted gb name = true ↔ ∃ reg, reg ∈ filterRegs gb ∧ MatchString reg name = true.
Proof. unfold wanted. rewrite existsb_exists. by setoid_rewrite list_elem_of_In. Qed.

(** The proxies of a provider that the group may use. *)
Definition offered gb (pd : ProxyProvider) (p : Proxy) : Prop :=
  p ∈ pd_Proxies pd ∧ (filterRegs gb = [] ∨ pd_VehicleType pd = VCompatible ∨ wanted gb (Name p) = true).

Lemma provider_proxies_spec gb pd :
  (∀ p, p ∈ provider_proxies gb pd → offered gb pd p)
  ∧ ∀ p, offered gb pd p → Name p ∈ Name <$> provider_proxies gb pd.
Proof.
  unfold provider_proxies, offered. case_decide as Hr; [apply nil_length_inv in Hr; split; [by eauto|]; intros p [Hp _]; by apply (list_elem_of_fmap_2 Name)|].
  case_decide as Hv; [split; [by eauto|]; intros p [Hp _]; by apply (list_elem_of_fmap_2 Name)|].
  unfold by_filters. rewrite by_filters_foldl. fold (picks (filterRegs gb ≫= λ reg, matching reg (pd_Proxies pd))).
  destruct (picks_spec (filterRegs gb ≫= λ reg, matching reg (pd_Proxies pd))) as (_ & H2 & H3). split.
  - intros p Hp%H3. apply list_elem_of_bind in Hp as (reg & [Hin Hm]%elem_of_matching & Hreg). split; [done|]. right. right.
    apply wanted_spec. eauto.
  - intros p [Hp [Hf|[Hc|(reg & Hreg & Hm)%wanted_spec]]]; [by rewrite Hf in Hr|done|]. apply H2, list_elem_of_bind.
    exists reg. by rewrite elem_of_matching.
Qed.

(** The first filter that matches a name. *)
Fixpoint filter_rank (regs : list Regexp) (name : str) : nat :=
  match regs with
  | [] => 0
  | reg :: regs => if MatchString reg name then 0 else S (filter_rank regs name)
  end.

Lemma filter_rank_le regs name : filter_rank regs name ≤ length regs.
Proof. induction regs as [|r regs IH]; [done|]. cbn. destruct (MatchString r name); lia. Qed.
Lemma filter_rank_app l r k name : MatchString r name = true → filter_rank (l ++ r :: k) name ≤ length l.
Proof. intros Hm. induction l as [|x l IH]; cbn; [by rewrite Hm|]. destruct (MatchString x name); lia. Qed.
Lemma filter_rank_match regs name : filter_rank regs name < length regs →
  ∃ r, regs !! filter_rank regs name = Some r ∧ MatchString r name = true.
Proof.
  intros Hl. induction regs as [|r regs IH]; cbn in *; [lia|]. destruct (MatchString r name) eqn:E; [by exists r|]. apply IH. lia.
Qed.

Definition by_rank gb (p q : Proxy) : Prop := filter_rank (filterRegs gb) (Name p) ≤ filter_rank (filterRegs gb) (Name q).

(** The picked proxies are in the order of their filters. *)
Definition ranked gb (k : nat) (proxies : list Proxy) (st : gset str * list Proxy) : Prop :=
  st.1 = list_to_set (Name <$> st.2) ∧ NoDup (Name <$> st.2) ∧ StronglySorted (by_rank gb) st.2
  ∧ (∀ p, p ∈ st.2 → filter_rank (filterRegs gb) (Name p) < k)
  ∧ ∀ p, p ∈ proxies → filter_rank (filterRegs gb) (Name p) < k → Name p ∈ Name <$> st.2.

(** Adding the proxies of rank [k]. *)
Lemma ranked_step gb k proxies st l : ranked gb k proxies st →
  (∀ p, p ∈ l → p ∈ proxies) → (∀ p, p ∈ l → filter_rank (filterRegs gb) (Name p) ≤ k) →
  (∀ p, p ∈ proxies → filter_rank (filterRegs gb) (Name p) = k → p ∈ l) → ranked gb (S k) proxies (foldl pick st l).
Proof.
  intros (R1 & R2 & R3 & R4 & R5) Hl Hrank Hall.
  destruct (foldl_pick st l R1 R2) as (F1 & F2 & F3 & new & Hnew & Hin).
  assert (∀ p, p ∈ new → filter_rank (filterRegs gb) (Name p) = k) as Hk.
  { intros p Hp. destruct (Hin p Hp) as [Hpl Hno]. pose proof (Hrank p Hpl). apply Hl in Hpl.
    destruct (decide (filter_rank (filterRegs gb) (Name p) < k)); [|lia]. exfalso. by apply Hno, R5. }
  split; [done|]. split; [done|]. rewrite Hnew. split; [|split].
  - apply StronglySorted_app_2; [|done|].
    + intros x y Hx Hy. unfold by_rank. rewrite (Hk y Hy). specialize (R4 x Hx). lia.
    + assert (∀ p, p ∈ new → filter_rank (filterRegs gb) (Name p) = k) as Hk' by done. clear -Hk'. induction new as [|x new IH]; constructor.
      * apply IH. intros p Hp. apply Hk'. by right.
      * apply Forall_forall. intros y Hy. unfold by_rank. rewrite (Hk' x), (Hk' y); [done|by right|left].
  - intros p [Hp|Hp]%elem_of_app; [specialize (R4 p Hp); lia|rewrite (Hk p Hp); lia].
  - intros p Hp Hlt. destruct (decide (filter_rank (filterRegs gb) (Name p) = k)) as [He|He].
    + rewrite <- Hnew. by apply F3, Hall.
    + rewrite fmap_app. apply elem_of_app. left. apply R5; [done|lia].
Qed.

Lemma ranked_filters gb proxies regs1 regs2 st : filterRegs gb = regs1 ++ regs2 → ranked gb (length regs1) proxies st →
  ranked gb (length (filterRegs gb)) proxies (foldl (pick_matching proxies) st regs2).
Proof.
  revert regs1 st. induction regs2 as [|r regs2 IH]; intros regs1 st He Hst; cbn [foldl].
  { by rewrite app_nil_r in He; rewrite He. }
  apply (IH (regs1 ++ [r])); [by rewrite <- app_assoc|]. rewrite length_app, Nat.add_1_r, pick_matching_foldl.
  apply ranked_step; [done| | |].
  - by intros p [? _]%elem_of_matching.
  - intros p [_ Hm]%elem_of_matching. rewrite He. by apply filter_rank_app.
  - intros p Hp Hr. apply elem_of_matching. split; [done|].
    destruct (filter_rank_match (filterRegs gb) (Name p)) as (r' & Hr' & Hm); [rewrite Hr, He, length_app; cbn; lia|].
    rewrite Hr, He, lookup_app_r, Nat.sub_diag in Hr' by done. by injection Hr' as ->.
Qed.

Lemma reorder_spec gb proxies :
  (∀ p, p ∈ reorder gb proxies → p ∈ proxies) ∧ (∀ p, p ∈ proxies → Name p ∈ Name <$> reorder gb proxies)
  ∧ (1 < length (gb_providers gb) → 1 < length (filterRegs gb) →
     NoDup (Name <$> reorder gb proxies) ∧ StronglySorted (by_rank gb) (reorder gb proxies)).
Proof.
  unfold reorder. destruct ((1 <? length (gb_providers gb))%nat && (1 <? length (filterRegs gb))%nat) eqn:E.
  - assert (foldl pick (by_filters (filterRegs gb) proxies) proxies
      = foldl pick (∅, []) ((filterRegs gb ≫= λ reg, matching reg proxies) ++ proxies)) as Heq.
    { unfold by_filters. by rewrite by_filters_foldl, foldl_app. }
    destruct (picks_spec ((filterRegs gb ≫= λ reg, matching reg proxies) ++ proxies)) as (S1 & S2 & S3).
    unfold picks in S1, S2, S3. rewrite <- Heq in S1, S2, S3. split; [|split].
    + intros p [Hp|Hp]%S3%elem_of_app; [|done]. apply list_elem_of_bind in Hp as (reg & [? _]%elem_of_matching & _). done.
    + intros p Hp. apply S2, elem_of_app. by right.
    + intros _ _. split; [done|].
      assert (ranked gb 0 proxies (∅, [])) as H0'.
      { split; [done|]. split; [constructor|]. split; [constructor|]. split; [by intros p ?%not_elem_of_nil|]. intros p _ Hlt. lia. }
      pose proof (ranked_filters gb proxies [] (filterRegs gb) (∅, []) eq_refl H0') as Hr.
      assert (ranked gb (S (length (filterRegs gb))) proxies (foldl pick (by_filters (filterRegs gb) proxies) proxies)) as Hlast.
      { apply ranked_step; [done|done| |done]. intros p _. apply filter_rank_le. }
      apply Hlast.
  - split; [done|]. split; [intros p Hp; by apply (list_elem_of_fmap_2 Name)|]. intros Hp Hf.
    apply andb_false_iff in E as [E|E]; apply Nat.ltb_ge in E; lia.
Qed.

Lemma StronglySorted_List_filter {A} (R : relation A) (f : A → bool) l : StronglySorted R l → StronglySorted R (List.filter f l).
Proof.
  induction 1 as [|x l Hl IH Hx]; [constructor|]. cbn. destruct (f x); [|done]. constructor; [done|].
  rewrite Forall_forall in Hx |- *. intros y Hy%list_elem_of_In%filter_In. apply Hx, list_elem_of_In, Hy.
Qed.

Lemma elem_of_collect gb w p : p ∈ collect_proxies gb w ↔
  p ∈ reorder gb (gb_providers gb ≫= λ id, provider_proxies gb (w id)) ∧ excluded gb p = false ∧ excluded_type gb p = false.
Proof.
  unfold collect_proxies. rewrite list_elem_of_In, filter_In, negb_true_iff. case_decide as Hl.
  - rewrite <- list_elem_of_In. unfold excluded. apply nil_length_inv in Hl. rewrite Hl. naive_solver.
  - rewrite filter_In, <- list_elem_of_In, negb_true_iff. tauto.
Qed.

(** *** One proxy of each name *)

Lemma find_name_picks st l n : st.1 = list_to_set (Name <$> st.2) →
  find_name n (foldl pick st l).2 = match find_name n st.2 with Some p => Some p | None => find_name n l end.
Proof.
  revert st. induction l as [|x l IH]; intros st Hst; cbn [foldl]; [by destruct (find_name n st.2)|].
  assert ((pick st x).1 = list_to_set (Name <$> (pick st x).2)) as Hpick.
  { unfold pick. case_decide; [done|]. cbn [fst snd]. rewrite fmap_app, list_to_set_app_L, Hst. cbn. set_solver. }
  rewrite (IH _ Hpick). unfold pick. case_decide as Hin; rewrite Hst, elem_of_list_to_set in Hin.
  - destruct (find_name n st.2) eqn:E; [done|]. apply find_name_None in E. unfold find_name. cbn.
    by rewrite bool_decide_eq_false_2 by congruence.
  - cbn [snd]. rewrite find_name_app. destruct (find_name n st.2); [done|]. unfold find_name. cbn. by destruct (bool_decide _).
Qed.

Lemma find_name_filter (f : str → bool) n l :
  find_name n (List.filter (λ p, f (Name p)) l) = if f n then find_name n l else None.
Proof.
  unfold find_name. induction l as [|p l IH]; cbn; [by destruct (f n)|].
  destruct (bool_decide_reflect (Name p = n)) as [<-|Hne]; destruct (f (Name p)) eqn:E; cbn.
  - by rewrite bool_decide_eq_true_2.
  - by rewrite IH.
  - by rewrite bool_decide_eq_false_2.
  - done.
Qed.

Lemma find_name_filters regs l n : find_name n (regs ≫= λ reg, matching reg l)
  = if existsb (λ reg, MatchString reg n) regs then find_name n l else None.
Proof.
  induction regs as [|r regs IH]; [done|]. cbn [mbind list_bind existsb]. rewrite find_name_app, IH. unfold matching at 1.
  rewrite (find_name_filter (MatchString r)). destruct (MatchString r n); cbn; [|done]. destruct (find_name n l); [done|]. by destruct (existsb _ _).
Qed.

(** [p] is the first of its name in [l]. *)
Definition first_named (l : list Proxy) (p : Proxy) : Prop := ∃ l1 l2, l = l1 ++ p :: l2 ∧ Name p ∉ Name <$> l1.

Lemma find_name_first l p : find_name (Name p) l = Some p ↔ first_named l p.
Proof.
  split; [intros (l1 & l2 & -> & _ & Hno)%find_name_Some; by exists l1, l2|].
  intros (l1 & l2 & -> & Hno). rewrite find_name_app. rewrite (proj2 (find_name_None _ _) Hno).
  unfold find_name. cbn. by rewrite bool_decide_eq_true_2.
Qed.

Lemma elem_of_NoDup_name l p : NoDup (Name <$> l) → p ∈ l ↔ find_name (Name p) l = Some p.
Proof.
  intros Hnd. split.
  - intros (l1 & l2 & ->)%list_elem_of_split. apply find_name_first. exists l1, l2. split; [done|].
    rewrite fmap_app, NoDup_app in Hnd. destruct Hnd as (_ & Hno & _). intros Hin. apply (Hno _ Hin). left.
  - intros (l1 & l2 & -> & _)%find_name_Some. apply elem_of_app. right. left.
Qed.

(** A provider whose proxies the filters do not look at. *)
Definition unfiltered gb (pd : ProxyProvider) : Prop := filterRegs gb = [] ∨ pd_VehicleType pd = VCompatible.
(** The proxies the providers offer, in their order. *)
Definition candidates gb (w : Providers) : list Proxy := gb_providers gb ≫= λ id,
  List.filter (λ p, bool_decide (length (filterRegs gb) = 0) || bool_decide (pd_VehicleType (w id) = VCompatible) || wanted gb (Name p))
    (pd_Proxies (w id)).

Lemma elem_of_provider_proxies gb pd p :
  p ∈ provider_proxies gb pd ↔ offered gb pd p ∧ (unfiltered gb pd ∨ first_named (pd_Proxies pd) p).
Proof.
  unfold offered, unfiltered. rewrite <- find_name_first. unfold provider_proxies.
  case_decide as Hr; [apply nil_length_inv in Hr; naive_solver|]. case_decide as Hv; [naive_solver|].
  unfold by_filters. rewrite by_filters_foldl. set (l := filterRegs gb ≫= _).
  destruct (picks_spec l) as [Hnd _]. unfold picks in Hnd. rewrite (elem_of_NoDup_name _ _ Hnd), find_name_picks by done.
  cbn. subst l. rewrite find_name_filters. fold (wanted gb (Name p)). assert (filterRegs gb ≠ []) by (by intros E; rewrite E in Hr).
  destruct (wanted gb (Name p)); [|naive_solver]. split; [|naive_solver]. intros Hp. split; [|by auto]. split; [|by auto].
  apply find_name_Some in Hp as (l1 & l2 & -> & _). apply elem_of_app. right. left.
Qed.

Lemma find_name_candidates gb w n :
  find_name n (gb_providers gb ≫= λ id, provider_proxies gb (w id)) = find_name n (candidates gb w).
Proof.
  unfold candidates. induction (gb_providers gb) as [|id ids IH]; [done|]. cbn [mbind list_bind]. rewrite !find_name_app, IH.
  rewrite (find_name_filter (λ n, bool_decide (length (filterRegs gb) = 0) || bool_decide (pd_VehicleType (w id) = VCompatible) || wanted gb n)).
  generalize (find_name n (ids ≫= λ id, List.filter (λ p, bool_decide (length (filterRegs gb) = 0)
    || bool_decide (pd_VehicleType (w id) = VCompatible) || wanted gb (Name p)) (pd_Proxies (w id)))). intros rest. clear IH.
  unfold provider_proxies. destruct (decide (length (filterRegs gb) = 0)) as [Hr|Hr]; [by rewrite (bool_decide_eq_true_2 _ Hr)|].
  rewrite (bool_decide_eq_false_2 _ Hr).
  destruct (decide (pd_VehicleType (w id) = VCompatible)) as [Hv|Hv]; [by rewrite (bool_decide_eq_true_2 _ Hv)|].
  rewrite (bool_decide_eq_false_2 _ Hv). cbn [orb].
  unfold by_filters. rewrite by_filters_foldl, find_name_picks by done. cbn [snd find_name List.find]. by rewrite find_name_filters.
Qed.

Lemma elem_of_reorder gb proxies p : 1 < length (gb_providers gb) → 1 < length (filterRegs gb) →
  p ∈ reorder gb proxies ↔ find_name (Name p) proxies = Some p.
Proof.
  intros Hp Hf. destruct (reorder_spec gb proxies) as (_ & _ & Q3). destruct (Q3 Hp Hf) as [Hnd _].
  rewrite (elem_of_NoDup_name _ _ Hnd). unfold reorder. rewrite !(proj2 (Nat.ltb_lt _ _)) by done. cbn [andb].
  unfold by_filters. rewrite by_filters_foldl, <- foldl_app, find_name_picks by done. cbn [snd find_name List.find].
  rewrite find_name_app, find_name_filters. destruct (existsb _ _); [|done]. by destruct (find_name (Name p) proxies).
Qed.

Lemma collect_exact gb w p : p ∈ collect_proxies gb w ↔
  (∃ id, id ∈ gb_providers gb ∧ offered gb (w id) p ∧ (unfiltered gb (w id) ∨ first_named (pd_Proxies (w id)) p))
  ∧ (1 < length (gb_providers gb) ∧ 1 < length (filterRegs gb) → first_named (candidates gb w) p)
  ∧ excluded gb p = false ∧ excluded_type gb p = false.
Proof.
  rewrite elem_of_collect. set (all := gb_providers gb ≫= _).
  assert (p ∈ all ↔ ∃ id, id ∈ gb_providers gb ∧ offered gb (w id) p ∧ (unfiltered gb (w id) ∨ first_named (pd_Proxies (w id)) p)) as <-.
  { subst all. rewrite list_elem_of_bind. setoid_rewrite elem_of_provider_proxies. naive_solver. }
  enough (p ∈ reorder gb all ↔ p ∈ all ∧ (1 < length (gb_providers gb) ∧ 1 < length (filterRegs gb) → first_named (candidates gb w) p)) by tauto.
  destruct (decide (1 < length (gb_providers gb) ∧ 1 < length (filterRegs gb))) as [[Hp Hf]|Hno].
  - rewrite elem_of_reorder by done. rewrite <- find_name_first, <- find_name_candidates. fold all.
    split; [|naive_solver]. intros Hn. split; [|done]. apply find_name_Some in Hn as (l1 & l2 & -> & _). apply elem_of_app. right. left.
  - unfold reorder. replace (_ && _) with false; [naive_solver|]. symmetry. apply andb_false_iff. rewrite !Nat.ltb_ge. lia.
Qed.

Lemma NoDup_List_filter_name (f : Proxy → bool) l : NoDup (Name <$> l) → NoDup (Name <$> List.filter f l).
Proof.
  induction l as [|x l IH]; [done|]. rewrite fmap_cons. intros [Hx Hl]%NoDup_cons. cbn. destruct (f x); [|by apply IH].
  rewrite fmap_cons. apply NoDup_cons. split; [|by apply IH]. intros (y & Hy & Hin)%list_elem_of_fmap. apply Hx.
  rewrite Hy. apply list_elem_of_fmap_2. by apply list_elem_of_In, filter_In, proj1, list_elem_of_In in Hin.
Qed.
Lemma collect_sorted gb w : 1 < length (gb_providers gb) → 1 < length (filterRegs gb) →
  NoDup (Name <$> collect_proxies gb w) ∧ StronglySorted (by_rank gb) (collect_proxies gb w).
Proof.
  intros Hp Hf. unfold collect_proxies. set (all := gb_providers gb ≫= _).
  destruct (reorder_spec gb all) as (_ & _ & Q3). destruct (Q3 Hp Hf) as [Hnd Hs].
  split; [apply NoDup_List_filter_name|apply StronglySorted_List_filter]; case_decide; try done;
    [by apply NoDup_List_filter_name|by apply StronglySorted_List_filter].
Qed.

Lemma collect_unique gb w :
  (∀ id id' p q, id ∈ gb_providers gb → id' ∈ gb_providers gb → p ∈ pd_Proxies (w id) → q ∈ pd_Proxies (w id') →
    Name p = Name q → p = q) →
  ∀ p, p ∈ collect_proxies gb w ↔
    (∃ id, id ∈ gb_providers gb ∧ offered gb (w id) p) ∧ excluded gb p = false ∧ excluded_type gb p = false.
Proof.
  intros Huniq p. set (all := gb_providers gb ≫= λ id, provider_proxies gb (w id)).
  destruct (reorder_spec gb all) as (Q1 & Q2 & _).
  assert (∀ p, p ∈ all → ∃ id, id ∈ gb_providers gb ∧ offered gb (w id) p) as Hall.
  { intros q Hp. apply list_elem_of_bind in Hp as (id & Hp & Hid). exists id. split; [done|]. by apply provider_proxies_spec. }
  rewrite elem_of_collect. fold all. split; [intros (Hp & Hx); split; [by apply Hall, Q1|done]|].
  intros [(id & Hid & Hoff) Hx]. split; [|done].
  assert (Name p ∈ Name <$> all) as Hn.
  { apply (proj2 (provider_proxies_spec gb (w id))) in Hoff as (q & Hq & Hin)%list_elem_of_fmap.
    apply list_elem_of_fmap. exists q. split; [done|]. apply list_elem_of_bind. by exists id. }
  apply list_elem_of_fmap in Hn as (q & Hpq & Hq%Q2). apply list_elem_of_fmap in Hq as (q' & Hqq & Hq').
  destruct (Hall q') as (id' & Hid' & Hoff' & _); [by apply Q1|]. destruct Hoff as [Hoff _].
  rewrite (Huniq id id' p q' Hid Hid' Hoff Hoff'); [done|congruence].
Qed.

(** C19: the proxies of a group are those its providers offer and its filters let
    through: a proxy of a provider when the group has no filter, the provider is
    the list of the group's own proxies or some filter matches the name, and no
    exclusion matches its name or its type; of the proxies of one name in a
    filtered provider it is the first. With several providers and several
    filters the names are distinct, of the proxies of one name that several
    providers offer only the first is there (the others are dropped, whatever
    they are), and the proxies come in the order of the first filter that
    matches them. So where a name identifies a proxy across the providers the
    proxies are exactly those offered and not excluded. *)
Theorem GetProxies_selects gb w :
  let several := 1 < length (gb_providers gb) ∧ 1 < length (filterRegs gb) in
  let kept p := excluded gb p = false ∧ excluded_type gb p = false in
  (∀ p, p ∈ collect_proxies gb w ↔
    (∃ id, id ∈ gb_providers gb ∧ offered gb (w id) p ∧ (unfiltered gb (w id) ∨ first_named (pd_Proxies (w id)) p))
    ∧ (several → first_named (candidates gb w) p) ∧ kept p)
  ∧ (several → NoDup (Name <$> collect_proxies gb w) ∧ StronglySorted (by_rank gb) (collect_proxies gb w))
  ∧ ((∀ id id' p q, id ∈ gb_providers gb → id' ∈ gb_providers gb → p ∈ pd_Proxies (w id) → q ∈ pd_Proxies (w id') →
        Name p = Name q → p = q) →
     ∀ p, p ∈ collect_proxies gb w ↔ (∃ id, id ∈ gb_providers gb ∧ offered gb (w id) p) ∧ kept p).
Proof.
  intros several kept. split_and!; [apply collect_exact|by intros []; apply collect_sorted|apply collect_unique].
Qed.
End base_facts.

(** * The choices *)

Section choice_facts.
Context `{RuleEnv} `{ProxyEnv} `{GroupRegexp}.
Implicit Types (h : Health) (proxies : list Proxy).

(** ** Selector *)

(** A selector uses the proxy of the selected name, and its first proxy when
    no proxy has that name. [Set] accepts exactly the names of its proxies, after
    which it uses the proxy of that name, as long as there is one; otherwise the
    selection stays. *)
Theorem Selector_Set_select (s : SelectorGroup) (w w' : Providers) (name : str) :
  let '(r, s') := Selector_Set s w name in
  (r = Ok tt ↔ name ∈ Name <$> (GetProxies (s_base s) w).1)
  ∧ (r = Ok tt → s_selected s' = name) ∧ (r ≠ Ok tt → s_selected s' = s_selected s)
  ∧ match selectedProxy s' w' with
    | (Ok p, _) => p ∈ (GetProxies (s_base s') w').1
        ∧ (Name p = s_selected s' ∨ s_selected s' ∉ Name <$> (GetProxies (s_base s') w').1 ∧ head (GetProxies (s_base s') w').1 = Some p)
    | (_, _) => (GetProxies (s_base s') w').1 = []
    end.
Proof.
  unfold Selector_Set. destruct (GetProxies (s_base s) w) as [proxies gb]. cbn [fst].
  assert (∀ s' : SelectorGroup, match selectedProxy s' w' with
    | (Ok p, _) => p ∈ (GetProxies (s_base s') w').1
        ∧ (Name p = s_selected s' ∨ s_selected s' ∉ Name <$> (GetProxies (s_base s') w').1 ∧ head (GetProxies (s_base s') w').1 = Some p)
    | (_, _) => (GetProxies (s_base s') w').1 = [] end) as Huse.
  { intros s'. unfold selectedProxy. destruct (GetProxies (s_base s') w') as [ps gb']. cbn [fst].
    destruct (find_name (s_selected s') ps) as [p|] eqn:E.
    - apply find_name_Some in E as (l1 & l2 & -> & Hn & _). split; [apply elem_of_app; right; left|by left].
    - apply find_name_None in E. destruct ps as [|p ps]; [done|]. split; [left|]. right. done. }
  destruct (find_name name proxies) as [p|] eqn:E.
  - split; [|split; [done|split; [done|apply Huse]]]. apply find_name_Some in E as (l1 & l2 & -> & <- & _).
    split; [|done]. intros _. apply (list_elem_of_fmap_2 Name), elem_of_app. right. left.
  - split; [|split; [done|split; [done|apply Huse]]]. apply find_name_None in E. by split.
Qed.

(** ** Fallback *)

Definition first_alive h url proxies : option Proxy := List.find (λ p, AliveForTestUrl h p url) proxies.

Lemma alive_loop_none h url proxies : alive_loop h url [] proxies = (first_alive h url proxies, []).
Proof. induction proxies as [|p l IH]; [done|]. cbn. by destruct (AliveForTestUrl h p url). Qed.

Lemma alive_loop_skip h url selected l1 l2 : selected ≠ [] → selected ∉ Name <$> l1 →
  alive_loop h url selected (l1 ++ l2) = alive_loop h url selected l2.
Proof.
  intros Hs. induction l1 as [|p l1 IH]; [done|]. cbn [fmap list_fmap app alive_loop]. rewrite not_elem_of_cons. intros [Hp Hl].
  rewrite !decide_False; [by apply IH|by apply not_eq_sym|by destruct selected].
Qed.

(** C20: what a fallback uses. Without a selection it uses its first live proxy;
    with the name of a live proxy selected it uses that one; when the selected
    proxy is dead it forgets the selection and uses the first live proxy after
    it; in all other cases its first proxy. *)
Theorem findAliveProxy_spec (f : FallbackGroup) (w : Providers) h :
  let proxies := (GetProxies (f_base f) w).1 in
  let url := f_testUrl f in
  let '(r, f') := findAliveProxy f w h in
  ∃ o, r = match o with Some p => Ok p | None => first_proxy proxies end
  ∧ ((f_selected f = [] ∧ o = first_alive h url proxies ∧ f_selected f' = [])
     ∨ (f_selected f ≠ [] ∧ f_selected f ∉ Name <$> proxies ∧ o = None ∧ f_selected f' = f_selected f)
     ∨ (f_selected f ≠ [] ∧ ∃ l1 p l2, proxies = l1 ++ p :: l2 ∧ Name p = f_selected f ∧ f_selected f ∉ Name <$> l1
        ∧ if AliveForTestUrl h p url then o = Some p ∧ f_selected f' = f_selected f
          else o = first_alive h url l2 ∧ f_selected f' = [])).
Proof.
  unfold findAliveProxy. destruct (GetProxies (f_base f) w) as [proxies gb]. cbn [fst].
  destruct (alive_loop h (f_testUrl f) (f_selected f) proxies) as [o selected] eqn:E. exists o. split; [done|]. cbn.
  destruct (decide (f_selected f = [])) as [Hs|Hs].
  { left. rewrite Hs, alive_loop_none in E. by injection E as <- <-. }
  right. destruct (find_name (f_selected f) proxies) as [p|] eqn:Ef.
  - right. split; [done|]. apply find_name_Some in Ef as (l1 & l2 & -> & Hn & Hno). exists l1, p, l2. split; [done|]. split; [done|]. split; [done|].
    rewrite alive_loop_skip in E by done. cbn in E. rewrite decide_False, decide_True in E by (done || by destruct (f_selected f)).
    destruct (AliveForTestUrl h p (f_testUrl f)); [by injection E as <- <-|]. rewrite alive_loop_none in E. by injection E as <- <-.
  - left. apply find_name_None in Ef. split; [done|]. split; [done|]. rewrite <- (app_nil_r proxies), alive_loop_skip in E by done.
    by injection E as <- <-.
Qed.

(** ** URL test *)

Definition alive_min h url proxies (p : Proxy) : Prop :=
  p ∈ proxies ∧ AliveForTestUrl h p url = true
  ∧ ∀ q, q ∈ proxies → AliveForTestUrl h q url = true → (LastDelayForTestUrl h p url ≤ LastDelayForTestUrl h q url)%Z.

Lemma fastest_spec h url proxies :
  match fastest h url proxies with
  | Some (p, d) => alive_min h url proxies p ∧ d = LastDelayForTestUrl h p url
  | None => ∀ p, p ∈ proxies → AliveForTestUrl h p url = false
  end.
Proof.
  unfold fastest. induction proxies as [|q l IH] using rev_ind; [by intros p ?%not_elem_of_nil|]. rewrite foldl_app. cbn [foldl].
  unfold faster at 1. destruct (AliveForTestUrl h q url) eqn:Eq.
  - destruct (foldl (faster h url) None l) as [[p d]|].
    + destruct IH as [(Hp & Ha & Hm) ->]. destruct (Z.ltb_spec (LastDelayForTestUrl h q url) (LastDelayForTestUrl h p url)) as [Hlt|Hge].
      * split; [|done]. split; [apply elem_of_app; right; by left|]. split; [done|].
        intros x [Hx| ->%list_elem_of_singleton]%elem_of_app Hxa; [|done]. specialize (Hm x Hx Hxa). lia.
      * split; [|done]. split; [apply elem_of_app; by left|]. split; [done|].
        intros x [Hx| ->%list_elem_of_singleton]%elem_of_app Hxa; [by apply Hm|done].
    + split; [|done]. split; [apply elem_of_app; right; by left|]. split; [done|].
      intros x [Hx| ->%list_elem_of_singleton]%elem_of_app Hxa; [|done]. by rewrite IH in Hxa.
  - destruct (foldl (faster h url) None l) as [[p d]|].
    + destruct IH as [(Hp & Ha & Hm) ->]. split; [|done]. split; [apply elem_of_app; by left|]. split; [done|].
      intros x [Hx| ->%list_elem_of_singleton]%elem_of_app Hxa; [by apply Hm|congruence].
    + intros x [Hx| ->%list_elem_of_singleton]%elem_of_app; [by apply IH|done].
Qed.
End choice_facts.

Section url_test.
Context `{RuleEnv} `{ProxyEnv} `{GroupRegexp}.

Definition pinned (u : URLTestGroup) (h : Health) (proxies : list Proxy) : Prop :=
  u_selected u ≠ [] ∧ ∃ q, q ∈ proxies ∧ AliveForTestUrl h q (u_testUrl u) = true ∧ Name q = u_selected u.

Definition alive (u : URLTestGroup) (h : Health) (p : Proxy) : Prop := AliveForTestUrl h p (u_testUrl u) = true.
Definition delay (u : URLTestGroup) (h : Health) (p : Proxy) : Z := LastDelayForTestUrl h p (u_testUrl u).

(** Within the tolerance of every live proxy. *)
Definition tolerable (u : URLTestGroup) (h : Health) (proxies : list Proxy) (p : Proxy) : Prop :=
  ∀ q, q ∈ proxies → alive u h q → (delay u h p ≤ delay u h q + u_tolerance u)%Z.

(** The last choice, still offered, alive and within the tolerance. *)
Definition keeps (u : URLTestGroup) (h : Health) (proxies : list Proxy) (node : Proxy) : Prop :=
  u_fastNode u = Some node ∧ Name node ∈ Name <$> proxies ∧ alive u h node ∧ tolerable u h proxies node.

Record fast_choice (u : URLTestGroup) (h : Health) (proxies : list Proxy) (p : Proxy) : Prop := {
  choice_known : p ∈ proxies ∨ u_fastNode u = Some p;
  choice_alive : (∃ q, q ∈ proxies ∧ alive u h q) → alive u h p;
  choice_pinned : pinned u h proxies → Name p = u_selected u;
  choice_tolerable : ¬ pinned u h proxies → tolerable u h proxies p;
  choice_keeps : ¬ pinned u h proxies → (∃ q, q ∈ proxies ∧ alive u h q) → ∀ node, keeps u h proxies node → p = node
}.

Lemma fast_choice_min u h proxies p : (0 ≤ u_tolerance u)%Z → alive_min h (u_testUrl u) proxies p → ¬ pinned u h proxies →
  (∀ node, ¬ keeps u h proxies node) → fast_choice u h proxies p.
Proof.
  intros Ht (Hp & Ha & Hm) Hpin Hk. split; [by left|done|done| |by intros _ _ node ?%Hk].
  intros _ q Hq Hqa. specialize (Hm q Hq Hqa). unfold delay. lia.
Qed.
Lemma fast_choice_none u h proxies p : (∀ q, q ∈ proxies → AliveForTestUrl h q (u_testUrl u) = false) → ¬ pinned u h proxies →
  p ∈ proxies ∨ u_fastNode u = Some p → fast_choice u h proxies p.
Proof.
  intros Hf Hpin Hp. unfold alive.
  split; [done|intros (q & Hq & Hqa)|done|intros _ q Hq Hqa|intros _ (q & Hq & Hqa)]; unfold alive in *; by rewrite Hf in Hqa.
Qed.

(** C21: what a URL-test group uses, as long as the delay of its fastest proxy and
    the tolerance fit into 16 bits together: a live proxy if there is one, the
    selected one while that is alive, and otherwise one whose delay is within the
    tolerance of every live proxy; it stays with the last choice while that is
    still offered, alive and within the tolerance. *)
Theorem choose_fast_spec (u : URLTestGroup) (h : Health) (proxies : list Proxy) :
  proxies ≠ [] → (0 ≤ u_tolerance u)%Z → (∀ p, 0 ≤ delay u h p)%Z →
  (∀ p, alive_min h (u_testUrl u) proxies p → delay u h p + u_tolerance u < 2 ^ 16)%Z →
  ∃ p, choose_fast u h proxies = Ok p ∧ fast_choice u h proxies p.
Proof.
  intros Hne Ht Hd Hfit. unfold choose_fast.
  set (o := if decide (u_selected u = []) then None else _).
  assert (match o with
          | Some p => p ∈ proxies ∧ alive u h p ∧ Name p = u_selected u ∧ pinned u h proxies
          | None => ¬ pinned u h proxies end) as Ho.
  { unfold o. case_decide as Hs; [by intros [? _]|]. destruct (List.find _ proxies) as [p|] eqn:E.
    - apply find_some in E as [Hp [Ha Hn%bool_decide_eq_true]%andb_true_iff]. apply list_elem_of_In in Hp. repeat split; [done..|]. by exists p.
    - intros (_ & q & Hq & Ha & Hn). apply list_elem_of_In, (find_none _ _ E) in Hq. rewrite Ha, bool_decide_true in Hq by done. done. }
  destruct o as [p|]; [destruct Ho as (Hp & Ha & Hn & Hpin); exists p; split; [done|]; split; [by left|done..]|].
  pose proof (fastest_spec h (u_testUrl u) proxies) as Hf. destruct (fastest h (u_testUrl u) proxies) as [[p d]|].
  - destruct Hf as [Hmin _]. pose proof (Hfit p Hmin) as Hsmall. cbn [mbind result_bind].
    destruct (u_fastNode u) as [node|] eqn:En.
    2: { exists p. split; [done|]. apply fast_choice_min; [done..|]. intros node (Hnode & _). congruence. }
    assert (wrap uint16 (delay u h p + u_tolerance u) = delay u h p + u_tolerance u)%Z as Hwrap.
    { apply wrap_id; [done|]. specialize (Hd p). unfold in_int, int_min, int_max. cbn. lia. }
    fold (delay u h p) (delay u h node). rewrite Hwrap.
    destruct (negb (existsb _ proxies) || negb (AliveForTestUrl h node (u_testUrl u)) || (delay u h p + u_tolerance u <? delay u h node)%Z) eqn:Ec.
    + exists p. split; [done|]. apply fast_choice_min; [done..|]. intros node' (Hnode & Hin & Ha & Htol). rewrite En in Hnode. injection Hnode as <-.
      apply orb_true_iff in Ec as [[Hx|Hx]%orb_true_iff|Hx%Z.ltb_lt].
      * apply negb_true_iff, not_true_iff_false in Hx. apply Hx, existsb_exists. apply list_elem_of_fmap in Hin as (q & Hq & Hin).
        exists q. split; [by apply list_elem_of_In|]. by apply bool_decide_eq_true.
      * unfold alive in Ha. by rewrite Ha in Hx.
      * destruct Hmin as (Hp & Hpa & _). specialize (Htol p Hp Hpa). lia.
    + apply orb_false_iff in Ec as [[_ Ha%negb_false_iff]%orb_false_iff Hle%Z.ltb_ge]. destruct Hmin as (Hp & Hpa & Hm). exists node. split; [done|].
      split; [by right|done|done| |intros _ _ node' (Hnode & _); congruence]. intros _ q Hq Hqa. specialize (Hm q Hq Hqa). unfold delay in *. lia.
  - destruct proxies as [|p0 ps]; [done|]. cbn [first_proxy mbind result_bind].
    destruct (u_fastNode u) as [node|] eqn:En; [|exists p0; split; [done|]; apply fast_choice_none; [done..|]; by left; left].
    destruct (_ || _ || _); eexists; (split; [done|]); apply fast_choice_none; try done; [left; left|by right].
Qed.
End url_test.

(** * Instances *)

(** Proxies that are a name and the number of the object; an expression matches
    the names that contain it. *)
Definition object_env : ProxyEnv := {|
  Proxy := string * nat;
  Name p := lit p.1;
  ProxyType _ := Http;
  SupportUDP _ := true;
  Unwrap _ _ := None;
  DialContext _ m := (false, m)
|}.
Definition substring_regexp : GroupRegexp := {| Regexp := str; Compile := Some; MatchString r s := str_contains s r |}.
#[local] Existing Instances demo_env object_env substring_regexp.

Definition demo_option : GroupBaseOption :=
  MkGroupBaseOption (lit "g") URLTest false [] (lit "hk`jp") (lit "slow") [] 0 0 ("fallback", 0)%string [0; 1].
Definition demo_provider (version : Z) (names : list (string * nat)) : ProxyProvider :=
  MkProvider (lit "p") VHTTP version names [].
Definition demo_world (version : Z) (id : nat) : ProxyProvider :=
  match id with
  | 0 => demo_provider 0 [("jp-1", 0); ("hk-1", 1); ("us-1", 2)]%string
  | _ => demo_provider version (if (version =? 0)%Z then [("hk-2", 3)] else [("hk-slow", 4); ("jp-2", 5); ("hk-3", 6)])%string
  end.

Lemma GetProxies_never_stale_witness : ∃ gb, NewGroupBase demo_option = Ok gb
  ∧ get_all gb [demo_world 0; demo_world 0; demo_world 1]
    = [[("hk-1", 1); ("hk-2", 3); ("jp-1", 0)]; [("hk-1", 1); ("hk-2", 3); ("jp-1", 0)]; [("hk-1", 1); ("hk-3", 6); ("jp-1", 0); ("jp-2", 5)]]%string.
Proof.
  eexists. split; [reflexivity|].
  rewrite (GetProxies_never_stale demo_option); [vm_compute; reflexivity|reflexivity|done|].
  intros w w' id Hw Hw' Hid. apply list_elem_of_In in Hw, Hw', Hid.
  destruct Hw as [<-|[<-|[<-|[]]]], Hw' as [<-|[<-|[<-|[]]]], Hid as [<-|[<-|[]]]; by vm_compute.
Defined.

Lemma GetProxies_selects_witness : ∃ gb, NewGroupBase demo_option = Ok gb
  ∧ ("jp-2", 5)%string ∈ collect_proxies gb (demo_world 1) ∧ StronglySorted (by_rank gb) (collect_proxies gb (demo_world 1)).
Proof.
  eexists. split; [reflexivity|]. set (gb := MkGroupBase _ _ _ _ _ _ _ _ _ _ _ _ _).
  destruct (GetProxies_selects gb (demo_world 1)) as (_ & Hs & Hin).
  split; [|apply Hs; cbn; lia]. apply Hin.
  - intros id id' p q Hid Hid'. apply list_elem_of_In in Hid, Hid'.
    destruct Hid as [<-|[<-|[]]], Hid' as [<-|[<-|[]]]; intros Hp%list_elem_of_In Hq%list_elem_of_In;
      cbn in Hp, Hq; destruct_or!; subst; try done; vm_compute; intros E; discriminate E.
  - split; [|by vm_compute]. exists 1. split; [right; by left|]. split; [right; by left|]. right. right. by vm_compute.
Defined.

(** Two providers have a proxy of one name. With one filter the group has both;
    with a second one it has the first only. *)
Definition same_names (id : nat) : ProxyProvider := demo_provider 0 [("hk-1", id)]%string.
Definition same_name_option (filter : string) : GroupBaseOption :=
  MkGroupBaseOption (lit "g") URLTest false [] (lit filter) [] [] 0 0 ("fallback", 0)%string [0; 1].
Example same_name_dropped :
  (λ gb, collect_proxies gb same_names) <$> NewGroupBase (same_name_option "hk") = Ok [("hk-1", 0); ("hk-1", 1)]%string
  ∧ (λ gb, collect_proxies gb same_names) <$> NewGroupBase (same_name_option "hk`jp") = Ok [("hk-1", 0)]%string.
Proof. vm_compute. done. Qed.

(** A group of the proxies in one list, all of the providers that hold it. *)
Definition one_list (names : list (string * nat)) (id : nat) : ProxyProvider := demo_provider 1 names.
Definition plain_base : GroupBase := MkGroupBase (lit "g") Fallback false [] [] [] None [0] 5000 5 ("fallback", 0)%string [] [].
Definition live_health (live : list nat) (delays : nat → Z) : Health :=
  MkHealth (λ p _, bool_decide (p.2 ∈ live)) (λ p _, delays p.2).

(** When the selected proxy is dead the loop goes on after it, so a live proxy
    before it is passed over and the first proxy is used, although it is dead; a
    selection that no proxy has keeps the first proxy in use for good. *)
Example findAliveProxy_uses_dead :
  let w := one_list [("d", 0); ("a", 1); ("b", 2)]%string in
  let h := live_health [1] (λ _, 0%Z) in
  let group selected := MkFallback plain_base false [] (lit selected) [] in
  (findAliveProxy (group "b") w h).1 = Ok ("d", 0)%string ∧ (findAliveProxy (group "gone") w h).1 = Ok ("d", 0)%string
  ∧ (findAliveProxy (group "") w h).1 = Ok ("a", 1)%string.
Proof. repeat split; vm_compute; reflexivity. Qed.

Definition demo_url_test (tolerance : Z) (node : option (string * nat)) : URLTestGroup :=
  MkURLTest plain_base [] [] [] tolerance false node (NewSingle 10000000000).

Lemma choose_fast_spec_witness :
  choose_fast (demo_url_test 50 (Some ("b", 1))%string) (live_health [0; 1; 2] (λ n, 100 + 20 * Z.of_nat n)%Z) [("a", 0); ("b", 1); ("c", 2)]%string
    = Ok ("b", 1)%string
  ∧ ∃ p, choose_fast (demo_url_test 50 (Some ("b", 1))%string) (live_health [0; 1; 2] (λ n, 100 + 20 * Z.of_nat n)%Z) [("a", 0); ("b", 1); ("c", 2)]%string
    = Ok p ∧ alive (demo_url_test 50 None) (live_health [0; 1; 2] (λ n, 100 + 20 * Z.of_nat n)%Z) p.
Proof.
  split; [reflexivity|].
  destruct (choose_fast_spec (demo_url_test 50 (Some ("b", 1))%string) (live_health [0; 1; 2] (λ n, 100 + 20 * Z.of_nat n)%Z)
    [("a", 0); ("b", 1); ("c", 2)]%string) as (p & Hp & Hc).
  - done.
  - done.
  - intros p. unfold delay. cbn. lia.
  - intros p (Hp & _). rewrite !elem_of_cons, elem_of_nil in Hp. destruct Hp as [->|[->|[->|[]]]]; reflexivity.
  - exists p. split; [exact Hp|]. apply (choice_alive _ _ _ _ Hc). exists ("a", 0)%string. split; [left|reflexivity].
Defined.

(** The sum of a delay and the tolerance wraps around at 16 bits: a proxy 20 ms
    slower than the fastest is given up although the tolerance is 100 ms. *)
Example tolerance_wraps :
  choose_fast (demo_url_test 100 (Some ("b", 1))%string) (live_health [0; 1] (λ n, 65480 + 20 * Z.of_nat n)%Z) [("a", 0); ("b", 1)]%string
  = Ok ("a", 0)%string.
Proof. reflexivity. Qed.

(** The last choice is looked up by name only: after a provider has replaced its
    proxies, the group goes on using the object of the same name that is no
    longer among them. *)
Example fast_keeps_replaced :
  choose_fast (demo_url_test 0 (Some ("a", 0))%string) (live_health [0; 1] (λ _, 100%Z)) [("a", 1)]%string = Ok ("a", 0)%string.
Proof. reflexivity. Qed.

(** * Failed connections

    [onDialFailed], [onDialSuccess] and [healthCheck] of [groupbase.go]. The
    counters are those of one group; a failure is handled under the mutex, and the
    health check it starts ends before the next one is handled. *)

Section dial_failures.

Record dialState := MkDial { failedTimes : Z; failedTime : Z; failedTesting : bool }.
Definition new_dial : dialState := MkDial 0 0 false.

(** What the error of a dial says: [C.ErrNotSupport], or a refused connection. *)
Inductive dial_error := NotSupport | Refused | OtherError.

Definition ignored_type (t : AdapterType) : bool := bool_decide (t ∈ [Direct; Compatible; Reject; Pass; RejectDrop]).

(** [healthCheck]: whether the providers are checked, and the state after it. *)
Definition healthCheck (d : dialState) : bool * dialState :=
  if failedTesting d then (false, d) else (true, MkDial 0 (failedTime d) false).

Definition onDialSuccess (d : dialState) : dialState :=
  if failedTesting d then d else MkDial 0 (failedTime d) (failedTesting d).

Definition onDialFailed (timeout max : Z) (t : AdapterType) (e : dial_error) (now : Z) (d : dialState) : bool * dialState :=
  if ignored_type t then (false, d)
  else match e with
  | NotSupport => (false, d)
  | Refused => healthCheck d
  | OtherError =>
    let times := (failedTimes d + 1)%Z in
    if (times =? 1)%Z then (false, MkDial times now (failedTesting d))
    else if (wrap int64 (timeout * 1000000) <? now - failedTime d)%Z then (false, MkDial 0 (failedTime d) (failedTesting d))
    else
      let d := MkDial times (failedTime d) (failedTesting d) in
      if (max <=? times)%Z then healthCheck d else (false, d)
  end.

(** Failed connections one after the other. *)
Fixpoint failures (timeout max : Z) (t : AdapterType) (times : list Z) (d : dialState) : list bool * dialState :=
  match times with
  | [] => ([], d)
  | now :: times =>
    let '(b, d) := onDialFailed timeout max t OtherError now d in
    let '(bs, d) := failures timeout max t times d in (b :: bs, d)
  end.

Lemma failures_below timeout max t times : ∀ d, ignored_type t = false → (0 < failedTimes d)%Z → failedTesting d = false →
  (∀ x, x ∈ times → x - failedTime d ≤ wrap int64 (timeout * 1000000))%Z →
  (Z.of_nat (length times) = Z.max 2 max - failedTimes d)%Z → times ≠ [] →
  failures timeout max t times d = (replicate (length times - 1) false ++ [true], MkDial 0 (failedTime d) false).
Proof.
  induction times as [|now times IH]; intros d Ht Hpos Htest Hw Hlen Hne; [done|]. cbn [failures length] in *.
  unfold onDialFailed at 1. rewrite Ht. rewrite (proj2 (Z.eqb_neq _ _)) by lia.
  pose proof (Hw now ltac:(left)) as Hnow. rewrite (proj2 (Z.ltb_ge _ _)) by lia.
  destruct (Z.leb_spec max (failedTimes d + 1)) as [Hle|Hgt].
  - unfold healthCheck. cbn. rewrite Htest. destruct times as [|x times]; [done|]. cbn in Hlen. lia.
  - rewrite IH; cbn; [|done|lia|done|intros x Hx; apply Hw; by right|lia|intros ->; cbn in Hlen; lia].
    f_equal. destruct times as [|x times]; [cbn in Hlen; lia|]. cbn. by rewrite Nat.sub_0_r.
Qed.

(** Without a success in between, failures within the timeout of the first one
    start a health check at number [max-failed-times], but never at the first. *)
Lemma onDialFailed_starts timeout max t first times d : ignored_type t = false → failedTimes d = 0%Z → failedTesting d = false →
  (∀ x, x ∈ times → x - first ≤ wrap int64 (timeout * 1000000))%Z → (Z.of_nat (length times) = Z.max 2 max - 1)%Z →
  failures timeout max t (first :: times) d = (replicate (length times) false ++ [true], MkDial 0 first false).
Proof.
  intros Ht Hz Htest Hw Hlen. cbn [failures]. unfold onDialFailed at 1. rewrite Ht, Hz. change (0 + 1 =? 1)%Z with true. cbv iota.
  rewrite failures_below; cbn; [|done|lia|done|done|lia|intros ->; cbn in Hlen; lia].
  f_equal. destruct times as [|x times]; [cbn in Hlen; lia|]. cbn. by rewrite Nat.sub_0_r.
Qed.
End dial_failures.

(** With [max-failed-times: 1] two failures are needed. *)
Example one_failure_is_not_enough : (failures 5000 1 Trojan [0; 1000]%Z new_dial).1 = [false; true].
Proof. reflexivity. Qed.
(** A failure after the window is not the first of a new one. *)
Example late_failure_is_forgotten : failedTimes (failures 5000 2 Trojan [0; 6000000000]%Z new_dial).2 = 0%Z.
Proof. reflexivity. Qed.
