(* ===== verification/LoadBalance.v ===== *)
(** * LoadBalance: how a load-balance group spreads connections

    [src/adapter/outboundgroup/loadbalance.go]: round robin, consistent hashing
    with a jump hash in float64, and sticky sessions over an LRU cache (Lru).

    The hash of a key ([maphash] with a random seed), the public suffix list,
    [net.ParseIP] and the printing of addresses are parameters, as is what the
    conversion of a float64 outside the range of int64 gives; the clock is an
    argument. The index of the round robin is a natural number: the code keeps
    it below the number of proxies. *)
From Stdlib Require Import SpecFloat.
From S2P Require Import Prelude GoStrings GoFloat NetIP Metadata LogicRules Rules Lru Routing ProxyGroup.

Class BalanceEnv := {
  MapHash : str → Z;
  ParseIP : str → bool;                          (* whether the host is an address *)
  EffectiveTLDPlusOne : str → option str;
  addr_String : Addr → str;
  int64_out_of_range : spec_float → Z
}.

Section balance.
Context `{ProxyEnv} `{BalanceEnv} `{GenericList}.

(** ** Keys *)

Definition getKey (metadata : option Metadata) : str :=
  match metadata with
  | None => []
  | Some m =>
    let by_ip := if IsValid (m_DstIP m) then addr_String (m_DstIP m) else [] in
    if decide (m_Host m = []) then by_ip
    else if ParseIP (m_Host m) then m_Host m
    else match EffectiveTLDPlusOne (m_Host m) with Some etld => etld | None => by_ip end
  end.
Definition getKeyWithSrcAndDst (metadata : option Metadata) : str :=
  match metadata with Some m => addr_String (m_SrcIP m) | None => [] end ++ getKey metadata.

(** ** The jump hash *)

Definition trunc_int64 (f : spec_float) : Z :=
  match f with
  | S754_zero _ => 0
  | S754_finite s m e => let n := float_trunc s m e in if in_int64 n then n else int64_out_of_range f
  | _ => int64_out_of_range f
  end.
Definition jump_key (key : Z) : Z := wrap uint64 (key * 2862933555777941757 + 1).
Definition jump_next (key b : Z) : Z :=
  trunc_int64 (f64_mul (float_of_int (b + 1)) (f64_div (float_of_int (2 ^ 31)) (float_of_int (Z.shiftr key 33 + 1)))).

(** [j] grows with every turn, so [buckets] turns are enough. *)
Fixpoint jump_loop (fuel : nat) (key b j buckets : Z) : result Z :=
  if (j <? buckets)%Z then
    match fuel with
    | 0 => Panic
    | S fuel => let key := jump_key key in jump_loop fuel key j (jump_next key j) buckets
    end
  else Ok b.
Definition jumpHash (key : Z) (buckets : Z) : result Z := jump_loop (Z.to_nat buckets) key 0 0 buckets.

Definition proxy_at (proxies : list Proxy) (idx : Z) : result Proxy :=
  if (0 <=? idx)%Z then match proxies !! Z.to_nat idx with Some p => Ok p | None => Panic end else Panic.

(** ** Round robin *)

(** The search from offset [i] on; [cnt] is [length - i]. *)
Fixpoint round_robin_loop (h : Health) (url : str) (proxies : list Proxy) (idx cnt i : nat) : option Proxy * nat :=
  match cnt with
  | 0 => (None, i)
  | S cnt =>
    match proxies !! ((idx + i) mod length proxies)%nat with
    | Some proxy => if AliveForTestUrl h proxy url then (Some proxy, S i) else round_robin_loop h url proxies idx cnt (S i)
    | None => (None, i)
    end
  end.
Definition strategyRoundRobin (h : Health) (url : str) (proxies : list Proxy) (touch : bool) (idx : nat) : result Proxy * nat :=
  let '(o, i) := round_robin_loop h url proxies idx (length proxies) 0 in
  (match o with Some p => Ok p | None => first_proxy proxies end,
   if touch then ((idx + i) mod length proxies)%nat else idx).

(** ** Consistent hashing *)

Definition maxRetry : nat := 5.
Fixpoint hash_loop (h : Health) (url : str) (proxies : list Proxy) (cnt : nat) (key : Z) : result (option Proxy) :=
  match cnt with
  | 0 => Ok None
  | S cnt =>
    idx ← jumpHash key (Z.of_nat (length proxies));
    proxy ← proxy_at proxies idx;
    if AliveForTestUrl h proxy url then Ok (Some proxy) else hash_loop h url proxies cnt (wrap uint64 (key + 1))
  end.
Definition strategyConsistentHashing (h : Health) (url : str) (proxies : list Proxy) (metadata : option Metadata) : result Proxy :=
  o ← hash_loop h url proxies maxRetry (MapHash (getKey metadata));
  match o with
  | Some p => Ok p
  | None => match first_alive h url proxies with Some p => Ok p | None => first_proxy proxies end
  end.

(** ** Sticky sessions *)

Definition SessionCache := (heap Z Z * LruCache Z Z)%type.
Definition new_sessions : SessionCache := (empty_heap, New [WithAge 600; WithSize 1000]).

(** The tries; [nanos] is the clock at each of them. *)
Fixpoint sticky_loop (h : Health) (url : str) (proxies : list Proxy) (now : Z) (nanos : nat → Z) (key : Z) (has : bool) (idx : Z)
    (cnt : nat) (nowIdx : Z) (c : SessionCache) : result Proxy * SessionCache :=
  match cnt with
  | 0 => (first_proxy proxies, Set_ now key 0%Z c)
  | S cnt =>
    match proxy_at proxies nowIdx with
    | Ok proxy =>
      if AliveForTestUrl h proxy url then
        (Ok proxy, if negb has || negb (nowIdx =? idx)%Z then Set_ now key nowIdx c else c)
      else
        match jumpHash (wrap uint64 (key + wrap uint64 (nanos cnt))) (Z.of_nat (length proxies)) with
        | Ok j => sticky_loop h url proxies now nanos key has idx cnt j c
        | _ => (Panic, c)
        end
    | _ => (Panic, c)
    end
  end.
Definition strategyStickySessions (h : Health) (url : str) (proxies : list Proxy) (metadata : option Metadata) (now : Z) (nanos : nat → Z)
    (c : SessionCache) : result Proxy * SessionCache :=
  let key := MapHash (getKeyWithSrcAndDst metadata) in
  let length := Z.of_nat (length proxies) in
  let '(o, c) := Get now key c in
  let cached := match o with Some idx => if (length <=? idx)%Z then None else Some idx | None => None end in
  match match cached with Some idx => Ok idx | None => jumpHash (wrap uint64 (key + wrap uint64 (nanos maxRetry))) length end with
  | Ok idx => sticky_loop h url proxies now nanos key (bool_decide (is_Some o)) idx (maxRetry - 1) idx c
  | _ => (Panic, c)
  end.
End balance.

(** * The jump hash *)

(** A finite number that is at least the integer [n]. *)
Definition at_least (n : Z) (m : positive) (e : Z) : Prop := if (0 <=? e)%Z then (n ≤ Zpos m * 2 ^ e)%Z else (n * 2 ^ (- e) ≤ Zpos m)%Z.

Lemma at_least_trunc n m e : at_least n m e → (n ≤ float_trunc false m e)%Z.
Proof.
  unfold at_least, float_trunc. destruct (0 <=? e)%Z eqn:E; [done|]. apply Z.leb_gt in E. intros Hn.
  apply Z.div_le_lower_bound; [apply Z.pow_pos_nonneg; lia|lia].
Qed.

(** An integer up to [2^53] below a number is below its rounding. *)
Lemma round_at_least n m e l : (0 < n ≤ 2 ^ 53)%Z → (e ≤ 0)%Z → (-1074 ≤ e)%Z → (n * 2 ^ (- e) ≤ m)%Z → (e + round_shift m ≤ 900)%Z →
  ∃ mz ez, binary_round_aux 53 1024 false m e l = S754_finite false mz ez ∧ at_least n mz ez
  ∧ let q := (m / 2 ^ round_shift m)%Z in
    (ez = e + round_shift m ∧ (Zpos mz = q ∨ Zpos mz = q + 1) ∧ Zpos mz < 2 ^ 53)%Z
    ∨ (ez = e + round_shift m + 1 ∧ Zpos mz = 2 ^ 52 ∧ q = 2 ^ 53 - 1)%Z.
Proof.
  intros Hn He He' Hle Hbig.
  assert (0 < m)%Z as Hm by (pose proof (Z.pow_pos_nonneg 2 (- e) ltac:(lia) ltac:(lia)); nia).
  destruct (binary_round_aux_bounds m e l Hm He' Hbig) as (mz & ez & Heq & Hcase). exists mz, ez. split; [done|]. split; [|done].
  destruct (shifted_range m Hm) as [Hq Hq52]. set (k := round_shift m) in *. assert (0 ≤ k)%Z as Hk by (unfold k, round_shift; lia).
  assert (0 < 2 ^ k)%Z as Hpk by (apply Z.pow_pos_nonneg; lia). cbn zeta in Hcase. set (q := (m / 2 ^ k)%Z) in *.
  assert (if (0 <=? e + k)%Z then n ≤ q * 2 ^ (e + k) else n * 2 ^ (- (e + k)) ≤ q)%Z as Hqn.
  { destruct (Z.leb_spec 0 (e + k)) as [Hnn|Hneg].
    - destruct (decide (e + k = 0)%Z) as [E|].
      + rewrite E, Z.pow_0_r, Z.mul_1_r. apply Z.div_le_lower_bound; [done|]. replace k with (- e)%Z by lia. lia.
      + assert (2 ^ 52 ≤ q)%Z by (apply Hq52; lia). pose proof (Z.pow_le_mono_r 2 1 (e + k)). nia.
    - apply Z.div_le_lower_bound; [done|]. replace (- e)%Z with (k + - (e + k))%Z in Hle by lia. rewrite Z.pow_add_r in Hle by lia. lia. }
  unfold at_least. destruct Hcase as [(-> & Hmz & _)|(-> & Hmz & Hq53)].
  - destruct (0 <=? e + k)%Z eqn:Es; [|lia]. pose proof (Z.pow_nonneg 2 (e + k)). nia.
  - rewrite Hmz. destruct (Z.leb_spec 0 (e + k)) as [Hnn|Hneg].
    + rewrite (proj2 (Z.leb_le 0 (e + k + 1))), Z.pow_add_r by lia. nia.
    + destruct (Z.leb_spec 0 (e + k + 1)) as [H0|H0].
      * replace (e + k + 1)%Z with 0%Z by lia. replace (- (e + k))%Z with 1%Z in Hqn by lia. lia.
      * replace (- (e + k))%Z with (- (e + k + 1) + 1)%Z in Hqn by lia. rewrite Z.pow_add_r in Hqn by lia. lia.
Qed.

(** The float64 of a positive integer up to [2^31]. *)
Lemma float_small n : (0 < n ≤ 2 ^ 32)%Z → ∃ m e, float_of_int n = S754_finite false m e ∧ (2 ^ 52 ≤ Zpos m < 2 ^ 53)%Z
  ∧ (-52 ≤ e ≤ 0)%Z ∧ Zpos m = (n * 2 ^ (- e))%Z.
Proof.
  intros Hn. destruct n as [|p|p]; [lia| |lia]. unfold float_of_int, binary_normalize. apply binary_round_small. lia.
Qed.

(** The quotient is at least one and (almost) at most [2^31]. *)
Lemma jump_quotient d : (0 < d ≤ 2 ^ 31)%Z → ∃ m e, f64_div (float_of_int (2 ^ 31)) (float_of_int d) = S754_finite false m e
  ∧ (-60 ≤ e ≤ -21)%Z ∧ (2 ^ (- e) ≤ Zpos m ≤ 2 ^ (31 - e) + 1)%Z ∧ (Zpos m ≤ 2 ^ 53)%Z.
Proof.
  intros Hd. destruct (float_small d) as (m2 & e2 & -> & Hm2 & He2 & Hv2); [lia|].
  change (float_of_int (2 ^ 31)) with (S754_finite false 4503599627370496 (-21)). unfold f64_div, SFdiv, SFdiv_core_binary.
  assert (Zdigits2 (Zpos m2) = 53)%Z as Hdig by (apply Zdigits2_unique; lia). rewrite Hdig.
  change (Zdigits2 (Zpos 4503599627370496)) with 53%Z. unfold fexp, emin.
  assert (-52 ≤ e2 ≤ -21)%Z as He2'.
  { split; [lia|]. destruct (Z.le_gt_cases e2 (-21)) as [|Hgt]; [done|]. assert (2 ^ (- e2) ≤ 2 ^ 20)%Z by (apply Z.pow_le_mono_r; lia). nia. }
  replace (Z.min (Z.max (53 + -21 - (53 + e2) - 53) (3 - 1024 - 53)) (-21 - e2))%Z with (-74 - e2)%Z by lia.
  replace (-21 - e2 - (-74 - e2))%Z with 53%Z by lia.
  cbv iota beta. cbn [xorb]. match goal with |- context [IntDef.Z.div_eucl ?a (Zpos m2)] => destruct (IntDef.Z.div_eucl a (Zpos m2)) as [q r] eqn:Eq end.
  assert (q = 2 ^ 105 / Zpos m2)%Z as Hq by (change (q = fst (IntDef.Z.div_eucl (Z.shiftl 4503599627370496 53) (Zpos m2))); by rewrite Eq).
  clear Eq.
  assert (2 ^ (- (-74 - e2)) ≤ q)%Z as Hone.
  { rewrite Hq. apply Z.div_le_lower_bound; [lia|]. rewrite Hv2, <- Z.mul_assoc, <- Z.pow_add_r by lia.
    replace (- e2 + - (-74 - e2))%Z with 74%Z by lia. lia. }
  assert (2 ^ 52 ≤ q ≤ 2 ^ 53)%Z as Hqr.
  { rewrite Hq. split; [apply Z.div_le_lower_bound; lia|]. apply Z.div_le_upper_bound; lia. }
  destruct (round_at_least 1 q (-74 - e2) (new_location (Zpos m2) r)) as (mz & ez & -> & Hal & Hcase); [lia|lia|lia|lia| |].
  { unfold round_shift. assert (Zdigits2 q ≤ 54)%Z; [|lia]. destruct (Zdigits2_bounds q) as [[Hl _] _]; [lia|].
    destruct (Z.le_gt_cases (Zdigits2 q) 54); [done|]. pose proof (Z.pow_le_mono_r 2 54 (Zdigits2 q - 1)). lia. }
  exists mz, ez. split; [done|].
  assert (q = 2 ^ 53 ∧ round_shift q = 1 ∨ q < 2 ^ 53 ∧ round_shift q = 0)%Z as Hsh.
  { destruct (decide (q = 2 ^ 53)%Z) as [->|]; [by left|]. right. split; [lia|]. unfold round_shift. rewrite (Zdigits2_unique q 53); lia. }
  assert (ez ≤ -21 ∧ -60 ≤ ez ∧ Zpos mz ≤ 2 ^ 53 ∧ (Zpos mz ≤ 2 ^ 52 + 1 ∨ ez ≤ -22))%Z as (Hez & Hez' & Hmz & Hmz').
  { cbn zeta in Hcase. destruct Hsh as [[-> Hr]|[Hlt Hr]]; rewrite Hr in Hcase.
    - change (2 ^ 53 / 2 ^ 1)%Z with (2 ^ 52)%Z in Hcase. lia.
    - rewrite Z.pow_0_r, Z.div_1_r in Hcase. lia. }
  unfold at_least in Hal. rewrite (proj2 (Z.leb_gt 0 ez)) in Hal by lia.
  assert (Zpos mz ≤ 2 ^ (31 - ez) + 1)%Z; [|lia]. destruct Hmz' as [|He].
  - pose proof (Z.pow_le_mono_r 2 52 (31 - ez) ltac:(lia) ltac:(lia)). lia.
  - pose proof (Z.pow_le_mono_r 2 53 (31 - ez) ltac:(lia) ltac:(lia)). lia.
Qed.

(** A rounded number that was below [2^62 + 2^31] fits into int64. *)
Lemma round_below m e mz ez : (0 < m)%Z → (e ≤ 0)%Z → (m ≤ (2 ^ 62 + 2 ^ 31) * 2 ^ (- e))%Z →
  (let q := (m / 2 ^ round_shift m)%Z in
    (ez = e + round_shift m ∧ (Zpos mz = q ∨ Zpos mz = q + 1) ∧ Zpos mz < 2 ^ 53)%Z
    ∨ (ez = e + round_shift m + 1 ∧ Zpos mz = 2 ^ 52 ∧ q = 2 ^ 53 - 1)%Z) →
  (float_trunc false mz ez < 2 ^ 63)%Z.
Proof.
  intros Hm He Hle Hcase. destruct (shifted_range m Hm) as [Hq Hq52]. cbn zeta in Hcase.
  set (k := round_shift m) in *. assert (0 ≤ k)%Z as Hk by (unfold k, round_shift; lia).
  assert (0 < 2 ^ k)%Z as Hpk by (apply Z.pow_pos_nonneg; lia). pose proof (Z.mul_div_le m (2 ^ k) Hpk) as Hdiv.
  set (q := (m / 2 ^ k)%Z) in *. unfold float_trunc. destruct (Z.leb_spec 0 ez) as [Hez|Hez].
  2: { assert (Zpos mz ≤ 2 ^ 53)%Z by lia. pose proof (Z.pow_pos_nonneg 2 (- ez) ltac:(lia) ltac:(lia)).
       assert (Zpos mz / 2 ^ (- ez) ≤ Zpos mz)%Z by (apply Z.div_le_upper_bound; nia). lia. }
  destruct (decide (e + k < 0)%Z) as [Hneg|Hnn].
  { destruct Hcase as [(-> & _)|(-> & -> & _)]; [lia|]. replace (e + k + 1)%Z with 0%Z by lia. done. }
  assert (q * 2 ^ (e + k) ≤ 2 ^ 62 + 2 ^ 31)%Z as Hv.
  { replace k with ((e + k) + - e)%Z in Hdiv at 1 by lia. rewrite Z.pow_add_r in Hdiv by lia.
    pose proof (Z.pow_pos_nonneg 2 (- e) ltac:(lia) ltac:(lia)). nia. }
  assert (2 ^ (e + k) ≤ 2 ^ 62)%Z as Hsmall.
  { destruct (decide (k = 0)%Z) as [E|]; [replace (e + k)%Z with 0%Z by lia; done|]. assert (2 ^ 52 ≤ q)%Z by (apply Hq52; lia).
    pose proof (Z.pow_nonneg 2 (e + k) ltac:(lia)). nia. }
  assert ((q + 1) * 2 ^ (e + k) < 2 ^ 63)%Z as Hq1.
  { destruct (decide (k = 0)%Z) as [E|]; [replace (e + k)%Z with 0%Z by lia; lia|]. assert (2 ^ 52 ≤ q)%Z by (apply Hq52; lia).
    pose proof (Z.pow_nonneg 2 (e + k) ltac:(lia)). assert (2 ^ (e + k) ≤ 2 ^ 11)%Z by nia. nia. }
  destruct Hcase as [(-> & Hmz & _)|(-> & -> & Hq53)].
  - pose proof (Z.pow_nonneg 2 (e + k) ltac:(lia)). nia.
  - rewrite Z.pow_add_r by lia. nia.
Qed.

(** One turn goes up, and stays in the range of int64. *)
Lemma jump_next_spec `{BalanceEnv} key b : in_int uint64 key → (0 ≤ b < 2 ^ 31)%Z → (b < jump_next key b)%Z.
Proof.
  intros Hkey Hb.
  assert (0 < Z.shiftr key 33 + 1 ≤ 2 ^ 31)%Z as Hd.
  { unfold in_int, int_min, int_max in Hkey. cbn in Hkey. rewrite Z.shiftr_div_pow2 by lia.
    pose proof (Z.div_pos key (2 ^ 33) ltac:(lia) ltac:(lia)). pose proof (Z.div_lt_upper_bound key (2 ^ 33) (2 ^ 31) ltac:(lia) ltac:(lia)). lia. }
  destruct (jump_quotient _ Hd) as (mq & eq & Hdiv & Heq & Hmq & Hmq53). unfold jump_next. rewrite Hdiv.
  destruct (float_small (b + 1)) as (m3 & e3 & -> & Hm3 & He3 & Hv3); [lia|]. unfold f64_mul, SFmul. cbn [xorb].
  assert ((b + 1) * 2 ^ (- (e3 + eq)) ≤ Zpos (m3 * mq))%Z as Hlow.
  { rewrite Pos2Z.inj_mul, Hv3. replace (- (e3 + eq))%Z with (- e3 + - eq)%Z by lia. rewrite Z.pow_add_r by lia.
    pose proof (Z.pow_pos_nonneg 2 (- e3) ltac:(lia) ltac:(lia)). nia. }
  assert (Zpos (m3 * mq) ≤ (2 ^ 62 + 2 ^ 31) * 2 ^ (- (e3 + eq)))%Z as Hhigh.
  { rewrite Pos2Z.inj_mul, Hv3. replace (- (e3 + eq))%Z with (- e3 + - eq)%Z by lia. replace (31 - eq)%Z with (31 + - eq)%Z in Hmq by lia.
    rewrite Z.pow_add_r in Hmq |- * by lia.
    pose proof (Z.pow_pos_nonneg 2 (- e3) ltac:(lia) ltac:(lia)) as Hp3. pose proof (Z.pow_pos_nonneg 2 (- eq) ltac:(lia) ltac:(lia)) as Hpq.
    assert ((b + 1) * Zpos mq ≤ 2 ^ 31 * (2 ^ 31 * 2 ^ (- eq) + 1))%Z by (apply Z.mul_le_mono_nonneg; lia). nia. }
  assert (Zdigits2 (Zpos (m3 * mq)) ≤ 107)%Z as Hdig.
  { destruct (Zdigits2_bounds (Zpos (m3 * mq))) as [[Hl _] _]; [lia|]. assert (Zpos (m3 * mq) < 2 ^ 107)%Z by nia.
    destruct (Z.le_gt_cases (Zdigits2 (Zpos (m3 * mq))) 107); [done|]. pose proof (Z.pow_le_mono_r 2 107 (Zdigits2 (Zpos (m3 * mq)) - 1)). lia. }
  destruct (round_at_least (b + 1) (Zpos (m3 * mq)) (e3 + eq) loc_Exact) as (mz & ez & -> & Hal & Hcase);
    [lia|lia|lia|done|unfold round_shift; lia|].
  apply at_least_trunc in Hal. unfold trunc_int64.
  assert (float_trunc false mz ez < 2 ^ 63)%Z as Hmax.
  { apply (round_below (Zpos (m3 * mq)) (e3 + eq) mz ez); [lia|lia|lia|done]. }
  assert (in_int64 (float_trunc false mz ez) = true) as ->; [|lia].
  clear Hcase Hlow Hhigh Hdig. generalize dependent (float_trunc false mz ez). intros n Hn1 Hn2.
  unfold in_int64, in_z, int_min, int_max. cbn. rewrite !(proj2 (Z.leb_le _ _)); [done|lia|lia].
Qed.

Section jump.
Context `{BalanceEnv}.

Lemma jump_key_uint64 key : in_int uint64 (jump_key key).
Proof. unfold jump_key. by apply wrap_in. Qed.

Lemma jump_loop_range buckets fuel : ∀ key b j, (0 < buckets < 2 ^ 31)%Z → (0 ≤ b < buckets)%Z → (0 ≤ j)%Z → (buckets - j ≤ Z.of_nat fuel)%Z →
  ∃ r, jump_loop fuel key b j buckets = Ok r ∧ (0 ≤ r < buckets)%Z.
Proof.
  induction fuel as [|fuel IH]; intros key b j Hn Hb Hj Hf; cbn [jump_loop]; destruct (Z.ltb_spec j buckets) as [Hlt|Hge]; [lia|by exists b| |by exists b].
  pose proof (jump_next_spec (jump_key key) j (jump_key_uint64 key) ltac:(lia)). apply IH; lia.
Qed.

(** One bucket more: the hash stays or moves to the new bucket. *)
Lemma jump_loop_grow buckets fuel fuel' : ∀ key b j, (0 < buckets < 2 ^ 31 - 1)%Z → (0 ≤ j)%Z → (buckets - j ≤ Z.of_nat fuel)%Z →
  (buckets + 1 - j ≤ Z.of_nat fuel')%Z → ∀ a, jump_loop fuel key b j buckets = Ok a →
  jump_loop fuel' key b j (buckets + 1) = Ok a ∨ jump_loop fuel' key b j (buckets + 1) = Ok buckets.
Proof.
  revert fuel'. induction fuel as [|fuel IH]; intros fuel' key b j Hn Hj Hf Hf' a Ha.
  all: pose proof (λ Hjb, jump_next_spec (jump_key key) j (jump_key_uint64 key) (conj Hj Hjb)) as Hnext.
  all: destruct (Z.ltb_spec j buckets) as [Hlt|Hge].
  { lia. }
  2: { cbn [jump_loop] in Ha. rewrite (proj2 (Z.ltb_lt j buckets)) in Ha by lia. destruct fuel' as [|fuel']; [lia|]. cbn [jump_loop].
       rewrite (proj2 (Z.ltb_lt j (buckets + 1))) by lia. specialize (Hnext ltac:(lia)). apply (IH fuel'); [lia|lia|lia|lia|exact Ha]. }
  all: assert (a = b) as -> by (cbn [jump_loop] in Ha; rewrite (proj2 (Z.ltb_ge j buckets)) in Ha by lia; congruence).
  all: destruct (decide (j = buckets)) as [->|Hne].
  all: destruct fuel' as [|fuel']; cbn [jump_loop].
  all: rewrite ?(proj2 (Z.ltb_lt buckets (buckets + 1))), ?(proj2 (Z.ltb_ge j (buckets + 1))) by lia.
  all: try (by left); try lia.
  all: specialize (Hnext ltac:(lia)); right; destruct fuel'; cbn [jump_loop]; rewrite (proj2 (Z.ltb_ge _ (buckets + 1))) by lia; done.
Qed.

Lemma jumpHash_grow (key n : Z) : (0 < n < 2 ^ 31)%Z →
  ∃ a, jumpHash key n = Ok a ∧ (0 ≤ a < n)%Z
  ∧ ((n + 1 < 2 ^ 31)%Z → jumpHash key (n + 1) = Ok a ∨ jumpHash key (n + 1) = Ok n).
Proof.
  intros Hn. unfold jumpHash. destruct (jump_loop_range n (Z.to_nat n) key 0 0) as (a & Ha & Hr); [lia..|].
  exists a. split; [done|]. split; [done|]. intros Hn1. by apply (jump_loop_grow n (Z.to_nat n)); [lia..|].
Qed.

(** C22: the jump hash in float64. For any number of buckets below [2^31] it
    returns one of them, and among more buckets a key stays in its bucket or moves
    to one of the new ones. *)
Theorem jumpHash_consistent (key n k : Z) : (0 < n ≤ k)%Z → (k < 2 ^ 31)%Z →
  ∃ a c, jumpHash key n = Ok a ∧ (0 ≤ a < n)%Z ∧ jumpHash key k = Ok c ∧ (c = a ∨ n ≤ c < k)%Z.
Proof.
  intros Hn Hk. destruct (jumpHash_grow key n) as (a & Ha & Hr & _); [lia|]. exists a.
  assert (∀ d : nat, (n + Z.of_nat d < 2 ^ 31)%Z → ∃ c, jumpHash key (n + Z.of_nat d) = Ok c ∧ (c = a ∨ n ≤ c < n + Z.of_nat d)%Z) as Hd.
  { induction d as [|d IH]; intros Hl; [rewrite Z.add_0_r; exists a; by split; [|left]|]. destruct IH as (c & Hc & Hcr); [lia|].
    destruct (jumpHash_grow key (n + Z.of_nat d)) as (c' & Hc' & _ & Hg); [lia|]. rewrite Hc in Hc'. injection Hc' as <-.
    replace (n + Z.of_nat (S d))%Z with (n + Z.of_nat d + 1)%Z by lia. destruct (Hg ltac:(lia)) as [E|E]; (eexists; split; [exact E|]); lia. }
  destruct (Hd (Z.to_nat (k - n))) as (c & Hc & Hcr); [lia|]. replace (n + Z.of_nat (Z.to_nat (k - n)))%Z with k in * by lia.
  exists c. done.
Qed.
End jump.

(** * Round robin *)

Section round_robin.
Context `{ProxyEnv} (h : Health) (url : str) (proxies : list Proxy).
Abbreviation L := (length proxies).
Abbreviation live p := (AliveForTestUrl h p url).

(** The positions from [idx] on, around the list. *)
Definition turn (idx i : nat) : nat := (idx + i) mod L.

Definition at_turns (idx : nat) (l : list nat) : list Proxy := omap (λ i, proxies !! turn idx i) l.

(** The live proxies in the order of their turns. *)
Definition waiting (idx : nat) : list Proxy := List.filter (λ p, live p) (at_turns idx (seq 0 L)).

Lemma turn_lookup idx i : proxies ≠ [] → is_Some (proxies !! turn idx i).
Proof.
  intros Hne. apply lookup_lt_is_Some. apply Nat.mod_upper_bound. by destruct proxies.
Qed.

Lemma round_robin_loop_spec idx cnt i : proxies ≠ [] →
  match round_robin_loop h url proxies idx cnt i with
  | (Some p, k) => ∃ j, k = i + j + 1 ∧ j < cnt ∧ proxies !! turn idx (i + j) = Some p ∧ live p = true
      ∧ List.filter (λ p, live p) (at_turns idx (seq i j)) = []
  | (None, k) => k = i + cnt ∧ List.filter (λ p, live p) (at_turns idx (seq i cnt)) = []
  end.
Proof.
  intros Hne. revert i. induction cnt as [|cnt IH]; intros i; cbn [round_robin_loop]; [split; [lia|done]|].
  destruct (turn_lookup idx i Hne) as [p Hp]. unfold turn in Hp. rewrite Hp. destruct (live p) eqn:El.
  - exists 0. rewrite !Nat.add_0_r. repeat split; [lia|lia|done|done].
  - specialize (IH (S i)). destruct (round_robin_loop h url proxies idx cnt (S i)) as [[q|] k].
    + destruct IH as (j & -> & Hj & Hq & Hl & Hdead). exists (S j). split; [lia|]. split; [lia|].
      rewrite Nat.add_succ_r. split; [done|]. split; [done|]. cbn [seq]. unfold at_turns. cbn [omap list_omap]. unfold turn at 1. rewrite Hp.
      cbn [List.filter]. by rewrite El.
    + destruct IH as [-> Hdead]. split; [lia|]. cbn [seq]. unfold at_turns. cbn [omap list_omap]. unfold turn at 1. rewrite Hp.
      cbn [List.filter]. by rewrite El.
Qed.

Lemma at_turns_app idx l k : at_turns idx (l ++ k) = at_turns idx l ++ at_turns idx k.
Proof. apply omap_app. Qed.

Lemma at_turns_eq a b n : ∀ i j, (∀ k, turn a (i + k) = turn b (j + k)) → at_turns a (seq i n) = at_turns b (seq j n).
Proof.
  induction n as [|n IH]; intros i j He; [done|]. unfold at_turns in *. cbn [seq omap list_omap].
  rewrite (IH (S i) (S j)) by (intros k; rewrite !Nat.add_succ_comm; apply He). specialize (He 0). rewrite !Nat.add_0_r in He. by rewrite He.
Qed.

(** The turns after [n] more steps, once around the list. *)
Lemma turns_shift idx n : n ≤ L → at_turns ((idx + n) mod L) (seq 0 L) = at_turns idx (seq n (L - n)) ++ at_turns idx (seq 0 n).
Proof.
  intros Hn. trans (at_turns idx (seq n L)).
  - apply at_turns_eq. intros k. unfold turn. rewrite Nat.Div0.add_mod_idemp_l. f_equal. lia.
  - replace L with ((L - n) + n) at 1 by lia. rewrite seq_app, at_turns_app. f_equal. apply at_turns_eq. intros k. unfold turn.
    replace (idx + (n + (L - n) + k)) with (idx + k + 1 * L) by lia. rewrite Nat.Div0.mod_add. done.
Qed.

Lemma Permutation_List_filter {A} (f : A → bool) l k : l ≡ₚ k → List.filter f l ≡ₚ List.filter f k.
Proof.
  induction 1 as [|x l k _ IH|x y l|l k m _ IH1 _ IH2]; cbn; [done| | |by etrans].
  - destruct (f x); [by constructor|done].
  - destruct (f x), (f y); [constructor|done..].
Qed.

Lemma waiting_perm idx : waiting idx ≡ₚ List.filter (λ p, live p) proxies.
Proof.
  destruct (decide (L = 0)) as [HL|HL]; [by apply nil_length_inv in HL; unfold waiting; rewrite HL|].
  assert (at_turns idx (seq 0 L) ≡ₚ proxies) as Hp; [|unfold waiting; by apply Permutation_List_filter].
  trans (at_turns 0 (seq 0 L)).
  - trans (at_turns ((0 + idx mod L) mod L) (seq 0 L)).
    + apply Permutation_refl', at_turns_eq. intros k. unfold turn. cbn [Nat.add]. by rewrite Nat.Div0.mod_mod, Nat.Div0.add_mod_idemp_l.
    + pose proof (Nat.mod_upper_bound idx L HL). rewrite turns_shift by lia. rewrite Permutation_app_comm, <- at_turns_app, <- seq_app.
      by replace (idx mod L + (L - idx mod L)) with L by lia.
  - apply Permutation_refl'. unfold at_turns, turn. cbn [Nat.add].
    assert (∀ l k : list Proxy, proxies = k ++ l → omap (λ i, proxies !! (i mod L)) (seq (length k) (length l)) = l) as Hgen.
    { induction l as [|p l IH]; intros k Hk; [done|]. cbn [length seq omap list_omap].
      rewrite Nat.mod_small by (rewrite Hk, length_app; cbn; lia). rewrite Hk at 1. rewrite lookup_app_r, Nat.sub_diag by done. cbn. f_equal.
      specialize (IH (k ++ [p])). rewrite length_app in IH. cbn in IH. rewrite Nat.add_1_r in IH. apply IH. by rewrite <- app_assoc. }
    by apply (Hgen proxies []).
Qed.

(** The first live proxy, at turn [j], and what waits after its turn. *)
Lemma waiting_at idx j p : j < L → proxies !! turn idx j = Some p → live p = true →
  List.filter (λ p, live p) (at_turns idx (seq 0 j)) = [] →
  ∃ rest, waiting idx = p :: rest ∧ waiting ((idx + (j + 1)) mod L) = rest ++ [p].
Proof.
  intros Hj Hp Hlive Hdead. exists (List.filter (λ p, live p) (at_turns idx (seq (j + 1) (L - (j + 1))))).
  assert (List.filter (λ p, live p) (at_turns idx (seq 0 (j + 1))) = [p]) as Hfirst.
  { rewrite seq_app, at_turns_app, List.filter_app, Hdead. unfold at_turns. cbn [Nat.add seq omap list_omap]. rewrite Hp. cbn [List.filter app]. by rewrite Hlive. }
  unfold waiting. split; [|by rewrite turns_shift, List.filter_app, Hfirst by lia].
  replace L with ((j + 1) + (L - (j + 1))) at 1 by lia. by rewrite seq_app, at_turns_app, List.filter_app, Hfirst.
Qed.

(** One connection takes the next live proxy and sends it to the end. *)
Lemma round_robin_step idx p rest : waiting idx = p :: rest →
  ∃ idx', strategyRoundRobin h url proxies true idx = (Ok p, idx') ∧ waiting idx' = rest ++ [p].
Proof.
  intros Hw. assert (proxies ≠ []) as Hne by (intros E; unfold waiting in Hw; by rewrite E in Hw).
  pose proof (round_robin_loop_spec idx L 0 Hne) as Hl. unfold strategyRoundRobin. destruct (round_robin_loop h url proxies idx L 0) as [[q|] k].
  - destruct Hl as (j & -> & Hj & Hq & Hlive & Hdead). cbn [Nat.add] in *.
    destruct (waiting_at idx j q Hj Hq Hlive Hdead) as (rest' & Hw' & Hnext). rewrite Hw in Hw'. injection Hw' as <- <-. by eexists.
  - destruct Hl as [_ Hdead]. unfold waiting in Hw. by rewrite Hdead in Hw.
Qed.

(** Some connections one after the other. *)
Fixpoint balance (n idx : nat) : list (result Proxy) * nat :=
  match n with
  | 0 => ([], idx)
  | S n => let '(r, idx) := strategyRoundRobin h url proxies true idx in let '(rs, idx) := balance n idx in (r :: rs, idx)
  end.

Lemma balance_waiting l : ∀ idx rest, waiting idx = l ++ rest → ∃ idx', balance (length l) idx = (Ok <$> l, idx') ∧ waiting idx' = rest ++ l.
Proof.
  induction l as [|p l IH]; intros idx rest Hw; [exists idx; split; [done|]; by rewrite app_nil_r|]. cbn [length balance].
  destruct (round_robin_step idx p (l ++ rest) Hw) as (idx1 & -> & Hw1). rewrite <- app_assoc in Hw1.
  destruct (IH idx1 (rest ++ [p]) Hw1) as (idx' & -> & Hw'). exists idx'. split; [done|]. by rewrite Hw', <- app_assoc.
Qed.

Lemma balance_add n m idx : balance (n + m) idx = let '(l, idx) := balance n idx in let '(k, idx) := balance m idx in (l ++ k, idx).
Proof.
  revert idx. induction n as [|n IH]; intros idx; cbn [Nat.add balance]; [by destruct (balance m idx)|].
  destruct (strategyRoundRobin h url proxies true idx) as [r idx1]. rewrite IH. destruct (balance n idx1) as [l idx2].
  by destruct (balance m idx2).
Qed.

(** C23: round robin is fair. While the proxies and their health stay as they are,
    the connections go through the live proxies in a fixed order, over and over:
    of every run of as many connections as there are live proxies, each live proxy
    gets exactly one. *)
Theorem round_robin_fair (idx m : nat) :
  let live_proxies := List.filter (λ p, live p) proxies in
  ∃ order, order ≡ₚ live_proxies ∧ (balance (m * length live_proxies) idx).1 = concat (replicate m (Ok <$> order)).
Proof.
  cbv zeta. exists (waiting idx). split; [apply waiting_perm|]. rewrite <- (waiting_perm idx).
  assert (∀ idx1, waiting idx1 = waiting idx → (balance (m * length (waiting idx)) idx1).1 = concat (replicate m (Ok <$> waiting idx))) as Hrun;
    [|by apply Hrun].
  induction m as [|m IH]; intros idx1 Hw1; [done|]. cbn [Nat.mul replicate concat].
  destruct (balance_waiting (waiting idx) idx1 []) as (idx2 & Hb & Hw2); [by rewrite app_nil_r|]. cbn [app] in Hw2.
  specialize (IH idx2 Hw2). rewrite balance_add, Hb. destruct (balance (m * length (waiting idx)) idx2) as [k idx3]. cbn in IH |- *. by rewrite IH.
Qed.
End round_robin.

(** * Hashing *)

Section hashing.
Context `{ProxyEnv} `{BalanceEnv} (h : Health) (url : str).
Abbreviation live p := (AliveForTestUrl h p url).

Lemma proxy_at_range (proxies : list Proxy) idx : (0 ≤ idx < Z.of_nat (length proxies))%Z →
  ∃ p, proxy_at proxies idx = Ok p ∧ proxies !! Z.to_nat idx = Some p ∧ p ∈ proxies.
Proof.
  intros Hi. destruct (lookup_lt_is_Some_2 proxies (Z.to_nat idx)) as [p Hp]; [lia|]. exists p. unfold proxy_at.
  rewrite (proj2 (Z.leb_le 0 idx)), Hp by lia. split; [done|]. split; [done|]. by eapply list_elem_of_lookup_2.
Qed.

Lemma jump_loop_pick (proxies : list Proxy) key : proxies ≠ [] → (Z.of_nat (length proxies) < 2 ^ 31)%Z →
  ∃ idx, jumpHash key (Z.of_nat (length proxies)) = Ok idx ∧ (0 ≤ idx < Z.of_nat (length proxies))%Z.
Proof.
  intros Hne Hl. unfold jumpHash. apply jump_loop_range; try lia. all: destruct proxies; [done|cbn in *; lia].
Qed.

Lemma hash_loop_spec (proxies : list Proxy) cnt : proxies ≠ [] → (Z.of_nat (length proxies) < 2 ^ 31)%Z → ∀ key,
  match hash_loop h url proxies cnt key with
  | Ok (Some p) => p ∈ proxies ∧ live p = true
  | Ok None => True
  | _ => False
  end.
Proof.
  intros Hne Hl. induction cnt as [|cnt IH]; intros key; [done|]. cbn [hash_loop].
  destruct (jump_loop_pick proxies key Hne Hl) as (idx & -> & Hi). cbn [mbind result_bind].
  destruct (proxy_at_range proxies idx Hi) as (p & -> & _ & Hp). cbn [mbind result_bind]. destruct (live p) eqn:E; [done|apply IH].
Qed.

(** Consistent hashing. A connection gets a live proxy whenever there is one;
    when all are alive, adding a proxy at the end of the list moves a connection
    to the new proxy or not at all. *)
Theorem consistent_hashing (proxies : list Proxy) (metadata : option Metadata) :
  proxies ≠ [] → (Z.of_nat (length proxies) + 1 < 2 ^ 31)%Z →
  ∃ p, strategyConsistentHashing h url proxies metadata = Ok p ∧ p ∈ proxies
  ∧ ((∃ q, q ∈ proxies ∧ live q = true) → live p = true)
  ∧ ∀ q, live q = true → (∀ q, q ∈ proxies → live q = true) →
    strategyConsistentHashing h url (proxies ++ [q]) metadata = Ok p ∨ strategyConsistentHashing h url (proxies ++ [q]) metadata = Ok q.
Proof.
  intros Hne Hl. set (key := MapHash (getKey metadata)).
  assert (∀ l : list Proxy, l ≠ [] → (Z.of_nat (length l) < 2 ^ 31)%Z → (∀ q, q ∈ l → live q = true) → ∀ idx,
    jumpHash key (Z.of_nat (length l)) = Ok idx → ∀ p, proxy_at l idx = Ok p → p ∈ l → strategyConsistentHashing h url l metadata = Ok p) as Hall.
  { intros l Hlne Hll Hlive idx Hi p Hp Hin. unfold strategyConsistentHashing. fold key. cbn [hash_loop maxRetry]. rewrite Hi. cbn [mbind result_bind].
    rewrite Hp. cbn [mbind result_bind]. by rewrite (Hlive p Hin). }
  assert (∃ p, strategyConsistentHashing h url proxies metadata = Ok p ∧ p ∈ proxies ∧ ((∃ q, q ∈ proxies ∧ live q = true) → live p = true))
    as (p & Hp & Hin & Hlive).
  { unfold strategyConsistentHashing. fold key. pose proof (hash_loop_spec proxies maxRetry Hne ltac:(lia) key) as Hloop.
    destruct (hash_loop h url proxies maxRetry key) as [[p|]| |]; [destruct Hloop; exists p; split; [done|]; by split| |done|done]. cbn [mbind result_bind].
    unfold first_alive. destruct (List.find (λ p, live p) proxies) as [p|] eqn:E.
    - apply find_some in E as [Hp Ha]. exists p. split; [done|]. split; [by apply list_elem_of_In|done].
    - destruct proxies as [|p0 ps]; [done|]. exists p0. split; [done|]. split; [left|]. intros (q & Hq & Ha).
      apply list_elem_of_In in Hq. pose proof (find_none _ _ E q Hq) as Hf. cbn in Hf. congruence. }
  exists p. split; [done|]. split; [done|]. split; [done|]. intros q Hq Hpl.
  destruct (jumpHash_grow key (Z.of_nat (length proxies))) as (idx & Hi & Hr & Hgrow); [destruct proxies; [done|cbn in *; lia]|].
  destruct (proxy_at_range proxies idx Hr) as (p' & Hp' & Hlook & Hin').
  assert (p' = p) as -> by (rewrite (Hall proxies Hne ltac:(lia) Hpl idx Hi p' Hp' Hin') in Hp; congruence).
  assert (Z.of_nat (length (proxies ++ [q])) = Z.of_nat (length proxies) + 1)%Z as Hlen by (rewrite length_app; cbn; lia).
  assert (∀ x, x ∈ proxies ++ [q] → live x = true) as Hlive' by (intros x [?| ->%list_elem_of_singleton]%elem_of_app; [by apply Hpl|done]).
  assert (∀ j x, (0 ≤ j)%Z → (proxies ++ [q]) !! Z.to_nat j = Some x → jumpHash key (Z.of_nat (length proxies) + 1) = Ok j →
    strategyConsistentHashing h url (proxies ++ [q]) metadata = Ok x) as Huse.
  { intros j x Hj Hx Hjump. apply (Hall (proxies ++ [q]) ltac:(by destruct proxies) ltac:(lia) Hlive' j).
    - by rewrite Hlen.
    - unfold proxy_at. by rewrite (proj2 (Z.leb_le 0 j)), Hx by lia.
    - by eapply list_elem_of_lookup_2. }
  destruct (Hgrow ltac:(lia)) as [Hj|Hj]; [left|right]; (eapply Huse; [|  |exact Hj]); [lia| |lia|].
  - apply lookup_app_l_Some. exact Hlook.
  - rewrite Nat2Z.id, lookup_app_r, Nat.sub_diag by lia. done.
Qed.
End hashing.

(** * Sticky sessions *)

Section sessions.
Context `{GenericList}.

Definition session_config : config := Config 600 1000 false false.
Definition sessions_ok (c : SessionCache) : Prop := lru_ok c ∧ cfg c.2 = session_config.

Lemma new_sessions_ok : sessions_ok new_sessions ∧ view new_sessions = [].
Proof. destruct (new_state_ok (K := Z) (V := Z) [OptAge 600; OptSize 1000]) as [Hok Hv]. by split. Qed.

Lemma Get_sessions now key c : sessions_ok c → sessions_ok (Get now key c).2
  ∧ (Get now key c).1 = e_value <$> (a_get session_config now key (view c)).1
  ∧ view (Get now key c).2 = (a_get session_config now key (view c)).2.
Proof.
  intros [Hok Hcfg]. destruct (get_refines now key c Hok) as (Hget & Hok' & Hview & Hc'). rewrite Hcfg in *.
  unfold Get. destruct (get now key c) as [r c']. cbn in *. by rewrite Hget.
Qed.

Lemma Set_sessions now key idx c : sessions_ok c → sessions_ok (Set_ now key idx c)
  ∧ view (Set_ now key idx c) = a_set session_config now key idx (a_expiry session_config now) (view c).
Proof.
  intros [Hok Hcfg]. destruct (set_refines now key idx c Hok) as (Hok' & Hview & Hc'). rewrite Hcfg in *.
  by split.
Qed.

Lemma session_expiry now : (0 ≤ now < 2 ^ 62)%Z → a_expiry session_config now = (now + 600)%Z.
Proof. intros Hnow. apply wrap_id; [done|]. unfold in_int, int_min, int_max. cbn. lia. Qed.

Lemma sessions_nodup c : sessions_ok c → NoDup (e_key <$> view c).
Proof. intros [Hok _]. by apply view_keys_nodup. Qed.
End sessions.

(** A connection: when it is made, the clock at each of its tries and what the
    health checks know then. *)
Record connection `{ProxyEnv} := MkConnection {
  cn_metadata : option Metadata;
  cn_time : Z;
  cn_nanos : nat → Z;
  cn_health : Health
}.
Arguments MkConnection {_} _ _ _ _.

Section sticky.
Context `{ProxyEnv} `{BalanceEnv} `{GenericList} (url : str) (proxies : list Proxy).

(** Connections one after the other, of any sessions, over one cache. *)
Fixpoint connect (l : list connection) (c : SessionCache) : list (result Proxy) * SessionCache :=
  match l with
  | [] => ([], c)
  | x :: l =>
    let '(r, c) := strategyStickySessions (cn_health x) url proxies (cn_metadata x) (cn_time x) (cn_nanos x) c in
    let '(rs, c) := connect l c in (r :: rs, c)
  end.

(** What a session is: the address of the client and where it goes, which is the
    host when that is an address, else the registrable domain of the host, else
    the address that is reached. *)
Definition named_address (m : Metadata) : option str := if decide (m_Host m ≠ [] ∧ ParseIP (m_Host m) = true) then Some (m_Host m) else None.
Definition named_domain (m : Metadata) : option str := if decide (m_Host m ≠ []) then EffectiveTLDPlusOne (m_Host m) else None.
Definition reached_address (m : Metadata) : option str := if IsValid (m_DstIP m) then Some (addr_String (m_DstIP m)) else None.
Definition session_key (metadata : option Metadata) : str :=
  match metadata with
  | Some m => addr_String (m_SrcIP m) ++ default [] (head (omap id [named_address m; named_domain m; reached_address m]))
  | None => []
  end.
Definition session (x : connection) : Z := MapHash (session_key (cn_metadata x)).

Lemma session_key_code metadata : getKeyWithSrcAndDst metadata = session_key metadata.
Proof.
  destruct metadata as [m|]; [|done]. unfold getKeyWithSrcAndDst, session_key. f_equal.
  unfold getKey, named_address, named_domain, reached_address.
  destruct (decide (m_Host m = [])) as [Hh|Hh].
  - rewrite !decide_False by tauto. by destruct (IsValid (m_DstIP m)).
  - rewrite (decide_True (P := m_Host m ≠ [])) by done. destruct (ParseIP (m_Host m)).
    + by rewrite decide_True.
    + rewrite decide_False by naive_solver. destruct (EffectiveTLDPlusOne (m_Host m)); [done|]. by destruct (IsValid (m_DstIP m)).
Qed.

Lemma connect_app l1 l2 c :
  connect (l1 ++ l2) c = ((connect l1 c).1 ++ (connect l2 (connect l1 c).2).1, (connect l2 (connect l1 c).2).2).
Proof.
  revert c. induction l1 as [|x l1 IH]; intros c; cbn; [by destruct (connect l2 c)|].
  destruct (strategyStickySessions _ _ _ _ _ _ c) as [r c']. rewrite IH. by destruct (connect l1 c').
Qed.
Lemma connect_length l c : length (connect l c).1 = length l.
Proof.
  revert c. induction l as [|x l IH]; intros c; cbn; [done|]. destruct (strategyStickySessions _ _ _ _ _ _ c) as [r c'].
  specialize (IH c'). destruct (connect l c'). cbn in *. by rewrite IH.
Qed.

(** *** The cache after a connection *)

Lemma sticky_loop_state h now nanos key has idx cnt : ∀ nowIdx c,
  (sticky_loop h url proxies now nanos key has idx cnt nowIdx c).2 = c
  ∨ ∃ i, (sticky_loop h url proxies now nanos key has idx cnt nowIdx c).2 = Set_ now key i c.
Proof.
  induction cnt as [|cnt IH]; intros nowIdx c; cbn [sticky_loop]; [by right; eexists|].
  destruct (proxy_at proxies nowIdx); [|by left..]. destruct (AliveForTestUrl h _ url).
  - cbn [snd]. case_match; [right; by eexists|by left].
  - case_match; [apply IH|by left..].
Qed.

Definition after (x : connection) (c : SessionCache) : SessionCache :=
  (strategyStickySessions (cn_health x) url proxies (cn_metadata x) (cn_time x) (cn_nanos x) c).2.
Lemma connect_cons x l c : connect (x :: l) c =
  ((strategyStickySessions (cn_health x) url proxies (cn_metadata x) (cn_time x) (cn_nanos x) c).1 :: (connect l (after x c)).1,
   (connect l (after x c)).2).
Proof. cbn [connect]. unfold after. destruct (strategyStickySessions _ _ _ _ _ _ c) as [r c']. cbn. by destruct (connect l c'). Qed.
Lemma after_state x c : after x c = (Get (cn_time x) (session x) c).2
  ∨ ∃ i, after x c = Set_ (cn_time x) (session x) i (Get (cn_time x) (session x) c).2.
Proof.
  unfold after, strategyStickySessions, session. rewrite session_key_code. destruct (Get _ _ c) as [o c']. cbn [snd].
  case_match; [apply sticky_loop_state|by left..].
Qed.

(** Every entry was stored by a connection of its session, ten minutes before it
    expires. *)
Definition stored_by (l : list connection) (c : SessionCache) : Prop :=
  ∀ e, e ∈ view c → ∃ x, x ∈ l ∧ session x = e_key e ∧ e_expires e = (cn_time x + 600)%Z.

Lemma after_ok x c : sessions_ok c → sessions_ok (after x c).
Proof.
  intros Hok. destruct (Get_sessions (cn_time x) (session x) c Hok) as [Hok' _].
  destruct (after_state x c) as [->|[i ->]]; [done|]. by apply Set_sessions.
Qed.
Lemma after_stored_by l x c : sessions_ok c → (0 ≤ cn_time x < 2 ^ 62)%Z → stored_by l c → stored_by (l ++ [x]) (after x c).
Proof.
  intros Hok Hx Hl. destruct (Get_sessions (cn_time x) (session x) c Hok) as (Hok' & _ & Hview).
  assert (stored_by (l ++ [x]) (Get (cn_time x) (session x) c).2) as Hget.
  { intros e. rewrite Hview. intros (y & Hy & ?)%elem_of_a_get%Hl; [|done]. exists y. split; [apply elem_of_app; by left|done]. }
  destruct (after_state x c) as [->|[i ->]]; [done|]. destruct (Set_sessions (cn_time x) (session x) i _ Hok') as [_ Hset].
  intros e. rewrite Hset. intros [He| ->]%elem_of_a_set; [by apply Hget|]. exists x.
  split; [apply elem_of_app; right; by left|]. split; [done|]. by apply session_expiry.
Qed.

Lemma connect_ok l : ∀ c, sessions_ok c → sessions_ok (connect l c).2.
Proof.
  induction l as [|x l IH]; intros c Hok; [done|]. rewrite connect_cons. by apply IH, after_ok.
Qed.
Lemma connect_stored_by l : ∀ l0 c, sessions_ok c → Forall (λ x, 0 ≤ cn_time x < 2 ^ 62)%Z l → stored_by l0 c →
  stored_by (l0 ++ l) (connect l c).2.
Proof.
  induction l as [|x l IH]; intros l0 c Hok Hl Hc; [by rewrite app_nil_r|]. apply Forall_cons in Hl as [Hx Hl].
  apply (IH (l0 ++ [x]) (after x c)) in Hl; [|by apply after_ok|by apply after_stored_by]. rewrite <- app_assoc in Hl. by rewrite connect_cons.
Qed.

(** A session that made no connection for ten minutes is not in the cache. *)
Lemma unknown_session l x : Forall (λ y, 0 ≤ cn_time y < 2 ^ 62)%Z l →
  Forall (λ y, session y = session x → cn_time y + 600 ≤ cn_time x)%Z l →
  (Get (cn_time x) (session x) (connect l new_sessions).2).1 = None.
Proof.
  intros Ht Hl. destruct new_sessions_ok as [Hok Hnil].
  assert (stored_by l (connect l new_sessions).2) as Hby.
  { apply (connect_stored_by l []); [done|done|]. intros e. rewrite Hnil. by intros ?%not_elem_of_nil. }
  destruct (Get_sessions (cn_time x) (session x) (connect l new_sessions).2) as (_ & -> & _); [by apply connect_ok|].
  unfold a_get. destruct (afind _ _) as [e|] eqn:Hf; [|done]. apply afind_Some in Hf as [He Hk].
  destruct (Hby e He) as (y & Hy & Hs & Hexp). rewrite Forall_forall in Hl. specialize (Hl y Hy ltac:(congruence)).
  by rewrite (proj2 (Z.leb_le (e_expires e) (cn_time x))) by lia.
Qed.

(** *** The proxy of a session *)

Section chosen.
Context (Hne : proxies ≠ []) (Hlen : (Z.of_nat (length proxies) < 2 ^ 31)%Z).
#[local] Set Default Proof Using "All".
Abbreviation live x p := (AliveForTestUrl (cn_health x) p url).

(** The tries end with a live proxy, whose index is stored unless it is the
    cached one, or with the first proxy. *)
Lemma sticky_loop_spec h now nanos key has idx cnt : ∀ nowIdx c, (0 ≤ nowIdx < Z.of_nat (length proxies))%Z →
  ∃ p c', sticky_loop h url proxies now nanos key has idx cnt nowIdx c = (Ok p, c') ∧ p ∈ proxies
  ∧ ((∃ i, (0 ≤ i)%Z ∧ proxies !! Z.to_nat i = Some p ∧ c' = if negb has || negb (i =? idx)%Z then Set_ now key i c else c)
     ∨ head proxies = Some p ∧ c' = Set_ now key 0%Z c).
Proof.
  induction cnt as [|cnt IH]; intros nowIdx c Hi; cbn [sticky_loop].
  { destruct proxies as [|p ps]; [done|]. eexists p, _. split; [done|]. split; [left|by right]. }
  destruct (proxy_at_range proxies nowIdx Hi) as (p & -> & Hlook & Hp). destruct (AliveForTestUrl h p url) eqn:El.
  - eexists p, _. split; [done|]. split; [done|]. left. exists nowIdx. split; [lia|]. by split.
  - destruct (jump_loop_pick proxies (wrap uint64 (key + wrap uint64 (nanos cnt))) Hne Hlen) as (j & -> & Hj). by apply IH.
Qed.

(** The proxy that the hash of the session and the clock point at. *)
Definition hashed_to (x : connection) (q : Proxy) : Prop :=
  ∃ j, jumpHash (wrap uint64 (session x + wrap uint64 (cn_nanos x maxRetry))) (Z.of_nat (length proxies)) = Ok j
    ∧ (0 ≤ j)%Z ∧ proxies !! Z.to_nat j = Some q.

(** The first connection of a session. *)
Lemma new_session x c others : sessions_ok c → (0 ≤ cn_time x < 2 ^ 62)%Z → (Get (cn_time x) (session x) c).1 = None →
  ∃ i p c', strategyStickySessions (cn_health x) url proxies (cn_metadata x) (cn_time x) (cn_nanos x) c = (Ok p, c') ∧ p ∈ proxies
  ∧ (∃ q, hashed_to x q ∧ (live x q = true → p = q)) ∧ (0 ≤ i)%Z ∧ proxies !! Z.to_nat i = Some p
  ∧ sessions_ok c' ∧ kept others (Entry (session x) i (cn_time x + 600)%Z) (view c').
Proof.
  intros Hok Hx Hmiss. unfold strategyStickySessions. rewrite session_key_code. fold (session x).
  destruct (Get_sessions (cn_time x) (session x) c Hok) as [Hok' _]. destruct (Get (cn_time x) (session x) c) as [o c0]. cbn in Hmiss, Hok'. subst o.
  destruct (jump_loop_pick proxies (wrap uint64 (session x + wrap uint64 (cn_nanos x maxRetry))) Hne Hlen) as (j & Hjump & Hj). rewrite Hjump.
  destruct (proxy_at_range proxies j Hj) as (q & Hat & Hlook & _).
  assert (hashed_to x q) as Hq by (exists j; split; [done|]; split; [lia|done]).
  assert (∀ i, sessions_ok (Set_ (cn_time x) (session x) i c0)
    ∧ kept others (Entry (session x) i (cn_time x + 600)%Z) (view (Set_ (cn_time x) (session x) i c0))) as Hset.
  { intros i. destruct (Set_sessions (cn_time x) (session x) i c0 Hok') as [Hs ->]. split; [done|].
    rewrite session_expiry by done. apply a_set_own. lia. }
  assert (∀ p c', sticky_loop (cn_health x) url proxies (cn_time x) (cn_nanos x) (session x) (bool_decide (is_Some (@None Z))) j (maxRetry - 1) j c0 = (Ok p, c') →
    live x q = true → p = q) as Huse.
  { cbn [maxRetry Nat.sub sticky_loop]. rewrite Hat. intros p c' Heq Hl. rewrite Hl in Heq. by injection Heq. }
  destruct (sticky_loop_spec (cn_health x) (cn_time x) (cn_nanos x) (session x) (bool_decide (is_Some (@None Z))) j (maxRetry - 1) j c0 Hj) as (p & c' & Hloop & Hin & Hcase).
  rewrite Hloop. specialize (Huse p c' Hloop).
  destruct Hcase as [(i & Hi & Hp & ->)|[Hh ->]].
  - exists i, p. eexists. rewrite bool_decide_false in * by (by intros []). cbn [negb orb]. destruct (Hset i). split_and!; try done. by exists q.
  - exists 0%Z, p. eexists. destruct (Hset 0%Z). split_and!; try done; [by exists q|]. by destruct proxies.
Qed.

(** A further connection of the session. *)
Lemma known_session x c i p exp others : sessions_ok c → (0 ≤ i)%Z → proxies !! Z.to_nat i = Some p → live x p = true →
  (cn_time x < exp)%Z → kept others (Entry (session x) i exp) (view c) →
  ∃ c', strategyStickySessions (cn_health x) url proxies (cn_metadata x) (cn_time x) (cn_nanos x) c = (Ok p, c')
  ∧ sessions_ok c' ∧ kept others (Entry (session x) i exp) (view c').
Proof.
  intros Hok Hi Hp Hl Hexp Hkept. unfold strategyStickySessions. rewrite session_key_code. fold (session x).
  destruct (Get_sessions (cn_time x) (session x) c Hok) as (Hok' & Hget & Hview).
  destruct (a_get_own others (Entry (session x) i exp) (view c) session_config (cn_time x) eq_refl (sessions_nodup c Hok) Hexp Hkept) as [Hown Hkept'].
  cbn [e_key] in Hown, Hkept'. rewrite Hown in Hget. rewrite <- Hview in Hkept'.
  destruct (Get (cn_time x) (session x) c) as [o c']. cbn in Hget, Hok', Hkept'. subst o.
  pose proof (lookup_lt_Some _ _ _ Hp) as Hlt. rewrite (proj2 (Z.leb_gt _ i)) by lia. exists c'.
  assert (proxy_at proxies i = Ok p) as Hat by (unfold proxy_at; by rewrite (proj2 (Z.leb_le 0 i)), Hp by lia).
  cbn [maxRetry Nat.sub sticky_loop]. rewrite Hat, Hl, Z.eqb_refl, bool_decide_true by done. by split.
Qed.

(** A connection of another session. *)
Lemma other_session x c k i exp others : sessions_ok c → session x ≠ k → session x ∈ others → size others < 1000 →
  (cn_time x < exp)%Z → kept others (Entry k i exp) (view c) → kept others (Entry k i exp) (view (after x c)).
Proof.
  intros Hok Hne' Hin Hsize Hexp Hkept. destruct (Get_sessions (cn_time x) (session x) c Hok) as (Hok' & _ & Hview).
  apply (a_get_kept others _ _ session_config (cn_time x) (session x)) in Hkept; [|done..]. rewrite <- Hview in Hkept.
  destruct (after_state x c) as [->|[j ->]]; [done|]. destruct (Set_sessions (cn_time x) (session x) j _ Hok') as [_ ->].
  apply a_set_kept; try done; [by apply sessions_nodup|]. cbn. lia.
Qed.

Lemma later_connections k i p exp (others : gset Z) l : ∀ c, sessions_ok c → (0 ≤ i)%Z → proxies !! Z.to_nat i = Some p →
  kept others (Entry k i exp) (view c) → size others < 1000 → Forall (λ x, cn_time x < exp)%Z l →
  (∀ x, x ∈ l → session x ≠ k → session x ∈ others) → (∀ x, x ∈ l → session x = k → live x p = true) →
  ∀ n x, l !! n = Some x → session x = k → (connect l c).1 !! n = Some (Ok p).
Proof.
  induction l as [|y l IH]; intros c Hok Hi Hp Hkept Hsize Ht Hothers Hlive n x Hn Hx; [done|].
  apply Forall_cons in Ht as [Hy Ht].
  assert (sessions_ok (after y c) ∧ kept others (Entry k i exp) (view (after y c))) as [Hok' Hkept'].
  { split; [by apply after_ok|]. destruct (decide (session y = k)) as [<-|Hyk].
    - unfold after. destruct (known_session y c i p exp others) as (c' & -> & _ & ?); try done. apply Hlive; [left|done].
    - apply other_session; try done. apply Hothers; [left|done]. }
  assert (∀ n x, l !! n = Some x → session x = k → (connect l (after y c)).1 !! n = Some (Ok p)) as IH'.
  { apply IH; try done; [intros z Hz; apply Hothers; by right|intros z Hz; apply Hlive; by right]. }
  rewrite connect_cons. destruct n as [|n]; [|by apply (IH' n x)].
  injection Hn as ->. destruct (known_session x c i p exp others) as (c' & -> & _); try done; [apply Hlive; [left|done]|by rewrite Hx].
Qed.
End chosen.

(** C24: sessions stick. Over any run of connections of any sessions that share
    the cache, with the list of proxies unchanged: a connection of a session that
    made none in the last ten minutes gets the proxy that the hash of the session
    (the client and the host, domain or address it goes to) and the clock point
    at, when that is alive, and one of the proxies in any case; and every further
    connection of the session in the ten minutes from there gets the same proxy,
    whatever the clock says and whichever connections of other sessions come
    between, as long as that proxy is alive for the connections of the session
    and the others are of at most 999 sessions, so that the cache of a thousand
    does not lose this one. (Sessions whose keys have one hash are one session to
    the code.) *)
Theorem sticky_sessions (before : list connection) (first : connection) (later : list connection) (others : gset Z) :
  proxies ≠ [] → (Z.of_nat (length proxies) < 2 ^ 31)%Z →
  Forall (λ x, 0 ≤ cn_time x < 2 ^ 62)%Z (before ++ [first]) →
  Forall (λ x, session x = session first → cn_time x + 600 ≤ cn_time first)%Z before →
  Forall (λ x, cn_time x < cn_time first + 600)%Z later →
  (∀ x, x ∈ later → session x ≠ session first → session x ∈ others) → size others ≤ 999 →
  let results := (connect (before ++ first :: later) new_sessions).1 in
  ∃ p, results !! length before = Some (Ok p) ∧ p ∈ proxies
  ∧ (∃ q, hashed_to first q ∧ (AliveForTestUrl (cn_health first) q url = true → p = q))
  ∧ ((∀ x, x ∈ later → session x = session first → AliveForTestUrl (cn_health x) p url = true) →
     ∀ n x, later !! n = Some x → session x = session first → results !! (length before + S n) = Some (Ok p)).
Proof.
  intros Hne Hlen [Hb [Hf _]%Forall_cons]%Forall_app Hmiss Hlater Hothers Hsize results.
  pose proof (unknown_session before first Hb Hmiss) as Hget.
  pose proof (connect_ok before _ (proj1 new_sessions_ok)) as Hok. set (c := (connect before new_sessions).2) in *.
  destruct (new_session Hne Hlen first c others Hok Hf Hget) as (i & p & c' & Hr & Hin & Hq & Hi & Hp & Hok' & Hkept).
  assert (results = (connect before new_sessions).1 ++ Ok p :: (connect later c').1) as ->.
  { subst results. rewrite connect_app. cbn [fst connect]. fold c. rewrite Hr. by destruct (connect later c'). }
  exists p. split; [by rewrite lookup_app_r, connect_length, Nat.sub_diag by (by rewrite connect_length)|].
  split; [done|]. split; [done|]. intros Hlive n x Hn Hx.
  rewrite lookup_app_r, connect_length by (rewrite connect_length; lia).
  replace (length before + S n - length before)%nat with (S n) by lia.
  apply (later_connections Hne Hlen (session first) i p (cn_time first + 600)%Z others later c') with (x := x); try done. lia.
Qed.
End sticky.

(** * Instances *)

Definition demo_balance : BalanceEnv := {|
  MapHash s := Z.of_nat (length s) + 12345678901234567;
  ParseIP _ := false;
  EffectiveTLDPlusOne s := Some s;
  addr_String _ := lit "0.0.0.0";
  int64_out_of_range _ := 0
|}%Z.
#[local] Existing Instances demo_env object_env demo_balance plain_list.

Definition demo_list : list Proxy := [("a", 0); ("b", 1); ("c", 2); ("d", 3)]%string.

(** The hash of one key for some numbers of buckets. *)
Example jumpHash_values : (λ n, jumpHash 12345678901234567 n) <$> [1; 2; 10; 100; 1000000]%Z = [Ok 0; Ok 0; Ok 5; Ok 5; Ok 548760]%Z.
Proof. vm_compute. reflexivity. Qed.

Lemma jumpHash_consistent_witness : ∃ a c, jumpHash 12345678901234567 10 = Ok a ∧ (0 ≤ a < 10)%Z
  ∧ jumpHash 12345678901234567 100 = Ok c ∧ (c = a ∨ 10 ≤ c < 100)%Z.
Proof. apply (jumpHash_consistent 12345678901234567 10 100); lia. Defined.

Lemma consistent_hashing_witness : ∃ p, strategyConsistentHashing (live_health [1; 2] (λ _, 0%Z)) [] demo_list None = Ok p
  ∧ AliveForTestUrl (live_health [1; 2] (λ _, 0%Z)) p [] = true.
Proof.
  destruct (consistent_hashing (live_health [1; 2] (λ _, 0%Z)) [] demo_list None) as (p & Hp & _ & Hl & _); [done|done|].
  exists p. split; [exact Hp|]. apply Hl. exists ("b", 1)%string. split; [right; by left|reflexivity].
Defined.

(** The client of the first host is back after 599 seconds. *)
Definition demo_hosts : list string := ["example.com"; "example.org.uk"]%string.
Definition demo_connection (n : nat) (now nanos : Z) : connection :=
  MkConnection (Some (with_Host (lit (default EmptyString (demo_hosts !! n))) metadata_zero)) now (λ i, Z.of_nat i * nanos)%Z (live_health [1; 2] (λ _, 0%Z)).
Lemma sticky_sessions_witness : ∃ p,
  let results := (connect [] demo_list [demo_connection 0 300 5; demo_connection 1 900 11; demo_connection 0 1000 1000003;
    demo_connection 1 1100 7; demo_connection 0 1599 3] new_sessions).1 in
  results !! 2 = Some (Ok p) ∧ results !! 4 = Some (Ok p).
Proof.
  destruct (sticky_sessions [] demo_list [demo_connection 0 300 5; demo_connection 1 900 11] (demo_connection 0 1000 1000003)
    [demo_connection 1 1100 7; demo_connection 0 1599 3] {[session (demo_connection 1 1100 7)]}) as (p & Hp & _ & _ & Hrun).
  - done.
  - done.
  - repeat constructor; cbn; lia.
  - repeat constructor; [cbn; lia|]. vm_compute. intros E. discriminate E.
  - repeat constructor.
  - intros x [->|[->|?%not_elem_of_nil]%elem_of_cons]%elem_of_cons Hx; [by apply elem_of_singleton|by destruct Hx|done].
  - rewrite size_singleton. lia.
  - exists p. split; [exact Hp|]. apply (Hrun) with (x := demo_connection 0 1599 3) (n := 1); [|reflexivity..].
    vm_compute in Hp. injection Hp as <-. intros x [->|[->|?%not_elem_of_nil]%elem_of_cons]%elem_of_cons _; [reflexivity..|done].
Defined.

(** A cached index that is out of range after the list became shorter is not
    replaced when its substitute is alive, so the session gets another proxy with
    every reading of the clock. *)
Example sticky_session_lost :
  let h := live_health [0; 1] (λ _, 0%Z) in
  let proxies : list Proxy := [("a", 0); ("b", 1)]%string in
  let c := Set_ 1000 (MapHash (getKeyWithSrcAndDst None)) 3%Z new_sessions in
  ∃ n1 n2, (connect [] proxies [MkConnection None 1001 (λ _, n1) h; MkConnection None 1002 (λ _, n2) h]%Z c).1
    = [Ok ("a", 0); Ok ("b", 1)]%string.
Proof. exists 0%Z, 2%Z. vm_compute. reflexivity. Qed.
