(* ===== verification/GroupParse.v ===== *)
(** * GroupParse: the proxies and proxy groups of a configuration

    [ParseProxyGroup] of [src/adapter/outboundgroup/parser.go] with the
    constructors of the four groups, the health checks it sets up
    ([src/adapter/provider]), and [parseProxies] of [src/config/config.go], which
    sorts the groups (GroupDag), parses them and checks the dialer proxies.

    Providers live in a heap; [providersMap] maps names to references. Decoding a
    mapping (reflection), parsing a proxy or a proxy provider and the objects of
    the built-in outbounds are parameters. A [nil] interface that the code would
    call is a panic. Log messages and the goroutines of the health checks are left
    out. *)
From S2P Require Import Prelude GoStrings NetIP Metadata Ranges LogicRules Rules Lru Routing ProxyGroup LoadBalance GroupDag.

(** ** Health checks *)

Record extraOption := MkExtra { ex_filters : gset str; ex_expectedStatus : list Ranges.Range }.
Record HealthCheck := MkHealthCheck {
  hc_url : str;
  hc_timeout : Z;
  hc_interval : Z;
  hc_lazy : bool;
  hc_expectedStatus : list Ranges.Range;
  hc_extra : gmap str extraOption
}.

(** [time.Duration(n) * unit], in nanoseconds. *)
Definition duration (n unit : Z) : Z := wrap int64 (n * unit).
Abbreviation Millisecond := 1000000%Z.
Abbreviation Second := 1000000000%Z.

Definition NewHealthCheck (url : str) (timeout interval : Z) (lazy : bool) (expectedStatus : list Ranges.Range) : HealthCheck :=
  let no_url := bool_decide (url = []) in
  MkHealthCheck url (duration (if (timeout =? 0)%Z then 5000 else timeout) Millisecond) (duration (if no_url then 0 else interval) Second) lazy
    (if no_url then [] else expectedStatus) ∅.

Definition splitAndAddFiltersToExtra (filter : str) (option : extraOption) : extraOption :=
  let filter := trim_space filter in
  if decide (filter = []) then option
  else foldl (λ option regex, let regex := trim_space regex in
                if decide (regex = []) then option
                else MkExtra ({[regex]} ∪ ex_filters option) (ex_expectedStatus option)) option (split_on backquote filter).

Definition registerHealthCheckTask (url : str) (expectedStatus : list Ranges.Range) (filter : str) (interval : Z) (hc : HealthCheck) : HealthCheck :=
  let url := trim_space url in
  if decide (url = [] ∨ url = hc_url hc) then hc
  else
    let interval := if (hc_interval hc =? 0)%Z then duration interval Second else hc_interval hc in
    let extra := match hc_extra hc !! url with
                 | Some option => if decide (filter = []) then hc_extra hc
                                  else <[url := splitAndAddFiltersToExtra filter option]> (hc_extra hc)
                 | None => <[url := splitAndAddFiltersToExtra filter (MkExtra ∅ expectedStatus)]> (hc_extra hc)
                 end in
    MkHealthCheck (hc_url hc) (hc_timeout hc) interval (hc_lazy hc) (hc_expectedStatus hc) extra.

(** ** Groups *)

(** The errors of [ParseProxyGroup]. *)
Inductive group_error :=
| EFormat
| ENegative (name : str)
| EFilter (name : str)
| EFallback (name fallback : str)
| EMissProxy (name : str)
| EStatus (name : str)
| EProxyNotFound (name proxy : str)
| EProviderNotFound (name provider : str)
| EProviderIsGroup (name provider : str)
| EDuplicateProvider (name : str)
| ENoProxy (name : str)
| EDecode
| EType (type : str)
| EStrategy (strategy : str).

Inductive strategyFn := ConsistentHashing | RoundRobin | StickySessions.

Section parse.
Context `{RuleEnv} `{ProxyEnv} `{GroupRegexp} `{GenericList}.

Record LoadBalanceGroup := MkLoadBalance {
  l_base : GroupBase; l_strategy : strategyFn; l_disableUDP : bool; l_testUrl : str; l_expectedStatus : str;
  l_index : nat; l_sessions : SessionCache
}.

Inductive Group :=
| GSelector (g : SelectorGroup)
| GFallback (g : FallbackGroup)
| GURLTest (g : URLTestGroup)
| GLoadBalance (g : LoadBalanceGroup).
Definition group_base (g : Group) : GroupBase :=
  match g with GSelector g => s_base g | GFallback g => f_base g | GURLTest g => u_base g | GLoadBalance g => l_base g end.

Definition base_option (type : AdapterType) (option : GroupCommonOption) (fallback : Proxy) (providers : list nat) : GroupBaseOption :=
  MkGroupBaseOption (go_Name option) type (go_Hidden option) (go_Icon option) (go_Filter option) (go_ExcludeFilter option)
    (go_ExcludeType option) (go_TestTimeout option) (go_MaxFailedTimes option) fallback providers.

Definition NewSelector (option : GroupCommonOption) (defaultSelected : str) (fallback : Proxy) (providers : list nat) : result SelectorGroup :=
  gb ← NewGroupBase (base_option Selector option fallback providers);
  Ok (MkSelector gb (go_DisableUDP option) defaultSelected (go_URL option)).
Definition NewFallback (option : GroupCommonOption) (fallback : Proxy) (providers : list nat) : result FallbackGroup :=
  gb ← NewGroupBase (base_option Fallback option fallback providers);
  Ok (MkFallback gb (go_DisableUDP option) (go_URL option) [] (go_ExpectedStatus option)).
Definition NewURLTest (option : GroupCommonOption) (tolerance : Z) (fallback : Proxy) (providers : list nat) : result URLTestGroup :=
  gb ← NewGroupBase (base_option URLTest option fallback providers);
  Ok (MkURLTest gb [] (go_URL option) (go_ExpectedStatus option) tolerance (go_DisableUDP option) None (NewSingle (10 * Second))).
Definition strategy_of (strategy : str) : option strategyFn :=
  if decide (strategy = [] ∨ strategy = lit "consistent-hashing") then Some ConsistentHashing
  else if decide (strategy = lit "round-robin") then Some RoundRobin
  else if decide (strategy = lit "sticky-sessions") then Some StickySessions
  else None.
Definition NewLoadBalance (option : GroupCommonOption) (strategy : str) (fallback : Proxy) (providers : list nat)
    : result (LoadBalanceGroup + group_error) :=
  match strategy_of strategy with
  | None => Ok (inr (EStrategy strategy))
  | Some fn =>
    gb ← NewGroupBase (base_option LoadBalance option fallback providers);
    Ok (inl (MkLoadBalance gb fn (go_DisableUDP option) (go_URL option) (go_ExpectedStatus option) 0 new_sessions))
  end.
End parse.

(** What the groups need of the rest: the decoder and the outbounds. *)
Class GroupsEnv `{RuleEnv} `{ProxyEnv} `{GroupRegexp} `{GenericList} := {
  Mapping : Type;
  DecodeGroup : Mapping → GroupCommonOption + string;   (* with Lazy set before; the sort does without, and does not read it *)
  DecodeTolerance : Mapping → option Z;
  DecodeDefaultSelected : Mapping → option str;
  DecodeStrategy : Mapping → option str;
  raw_name : Mapping → option str;                      (* mapping["name"].(string) *)
  NewProxy : Group → Proxy;                             (* adapter.NewProxy *)
  isProxyGroup : Proxy → bool;                          (* p.Adapter().(ProxyGroup) *)
  builtin : AdapterType → Proxy;
  ProxyMapping : Type;
  ParseProxy : ProxyMapping → option Proxy;               (* None is an error *)
  ProviderMapping : Type;
  ParseProxyProvider : str → ProviderMapping → option (ProxyProvider * HealthCheck);
  DialerProxy : Proxy → str                             (* p.ProxyInfo().DialerProxy *)
}.

Section groups_parser.
Context `{GroupsEnv}.

Record parse_state := MkParseState { ps_heap : list (ProxyProvider * HealthCheck); ps_map : gmap str nat }.

(** A step of the parser: a value or one of its errors. *)
Definition step A := result (A + group_error).
Definition sret {A} (a : A) : step A := Ok (inl a).
Definition sfail {A} (e : group_error) : step A := Ok (inr e).
Definition sbind {A B} (m : step A) (f : A → step B) : step B :=
  match m with Ok (inl a) => f a | Ok (inr e) => Ok (inr e) | Err e => Err e | Panic => Panic end.
#[local] Notation "'let!' x := m 'in' k" := (sbind m (λ x, k)) (at level 200, x pattern, m at level 100, k at level 200).

Fixpoint getProxies (group : str) (mapping : gmap str Proxy) (names : list str) : step (list Proxy) :=
  match names with
  | [] => sret []
  | name :: names =>
    match mapping !! name with
    | None => sfail (EProxyNotFound group name)
    | Some p => let! ps := getProxies group mapping names in sret (p :: ps)
    end
  end.

Fixpoint getProviders (group : str) (st : parse_state) (names : list str) : step (list nat) :=
  match names with
  | [] => sret []
  | name :: names =>
    match ps_map st !! name with
    | None => sfail (EProviderNotFound group name)
    | Some id =>
      match ps_heap st !! id with
      | None => Panic
      | Some (pd, _) =>
        if decide (pd_VehicleType pd = VCompatible) then sfail (EProviderIsGroup group name)
        else let! ids := getProviders group st names in sret (id :: ids)
      end
    end
  end.

Definition addTestUrlToProviders (ids : list nat) (url : str) (status : list Ranges.Range) (filter : str) (interval : Z) (st : parse_state) : parse_state :=
  if decide (ids = [] ∨ url = []) then st
  else MkParseState (foldl (λ heap id, alter (λ x, (x.1, registerHealthCheckTask url status filter interval x.2)) id heap) (ps_heap st) ids) (ps_map st).

(** [provider.NewCompatibleProvider]. *)
Definition NewCompatibleProvider (name : str) (proxies : list Proxy) (hc : HealthCheck) : option (ProxyProvider * HealthCheck) :=
  if decide (proxies = []) then None else Some (MkProvider name VCompatible 0 proxies (hc_url hc), hc).

Definition DefaultTestURL : str := lit "https://www.gstatic.com/generate_204".

(** The expressions of the filters are checked first. *)
Definition bad_filter (expression : str) : bool := negb (bool_decide (expression = [])) && negb (bool_decide (is_Some (Compile expression))).
Definition bad_filters (option : GroupCommonOption) : bool :=
  existsb bad_filter (split_on backquote (go_Filter option) ++ split_on backquote (go_ExcludeFilter option)).

(** The proxies that [include-all-proxies] adds. *)
Definition include_proxies (option : GroupCommonOption) (AllProxies : list str) : step (list str) :=
  if decide (go_Filter option = []) then sret (go_Proxies option ++ AllProxies)
  else
    let! regs := foldr (λ filter (k : step (list Regexp)),
      match Compile filter with
      | None => sfail (EFilter (go_Name option))
      | Some reg => let! regs := k in sret (reg :: regs)
      end) (sret []) (split_on backquote (go_Filter option)) in
    sret (go_Proxies option ++ (AllProxies ≫= λ p, (λ _, p) <$> List.filter (λ reg, MatchString reg p) regs)).

Definition fallback_name (option : GroupCommonOption) : str :=
  if decide (go_EmptyFallback option = []) then lit "COMPATIBLE" else go_EmptyFallback option.

(** The members and the providers after the [include-all] options. *)
Definition member_names (option : GroupCommonOption) (AllProxies AllProviders : list str) : step (list str * list str) :=
  let use := if go_IncludeAll option || go_IncludeAllProviders option then AllProviders else go_Use option in
  if go_IncludeAll option || go_IncludeAllProxies option then
    let! proxies := include_proxies option AllProxies in
    sret (if decide (proxies = [] ∧ use = []) then [fallback_name option] else proxies, use)
  else sret (go_Proxies option, use).

(** The providers named by [use]: their references, the test URL, and the state
    after their health checks are told about the group. *)
Definition use_providers (option : GroupCommonOption) (use : list str) (status : list Ranges.Range) (st : parse_state)
    : step (list nat * str * parse_state) :=
  if decide (use = []) then sret ([], go_URL option, st)
  else
    let! ids := getProviders (go_Name option) st use in
    if decide (go_URL option = []) then
      let urls := List.filter (λ u, negb (bool_decide (u = []))) (omap (λ id, pd_HealthCheckURL ∘ fst <$> ps_heap st !! id) ids) in
      sret (ids, match urls with u :: _ => u | [] => DefaultTestURL end, st)
    else sret (ids, go_URL option, addTestUrlToProviders ids (go_URL option) status (go_Filter option) (go_Interval option) st).

(** The provider of the group's own proxies. *)
Definition own_provider (option : GroupCommonOption) (proxyMap : gmap str Proxy) (proxies : list str) (status : list Ranges.Range)
    (ids : list nat) (url : str) (st : parse_state) : step (list nat * str * parse_state) :=
  if decide (proxies = []) then sret (ids, url, st)
  else
    let! ps := getProxies (go_Name option) proxyMap proxies in
    if decide (is_Some (ps_map st !! go_Name option)) then sfail (EDuplicateProvider (go_Name option))
    else
      let url := if decide (url = []) then DefaultTestURL else url in
      let interval := if decide (go_Type option ≠ lit "select" ∧ go_Type option ≠ lit "relay" ∧ go_Interval option = 0%Z) then 300%Z else go_Interval option in
      match NewCompatibleProvider (go_Name option) ps (NewHealthCheck url (go_TestTimeout option) interval (go_Lazy option) status) with
      | None => sfail (ENoProxy (go_Name option))
      | Some pd => sret (length (ps_heap st) :: ids, url, MkParseState (ps_heap st ++ [pd]) (<[go_Name option := length (ps_heap st)]> (ps_map st)))
      end.

Definition with_url_status (url status : str) (o : GroupCommonOption) : GroupCommonOption :=
  MkGroupOption (go_Name o) (go_Type o) (go_Proxies o) (go_Use o) url (go_Interval o) (go_TestTimeout o) (go_MaxFailedTimes o) (go_EmptyFallback o)
    (go_Lazy o) (go_DisableUDP o) (go_Filter o) (go_ExcludeFilter o) (go_ExcludeType o) status (go_IncludeAll o) (go_IncludeAllProxies o)
    (go_IncludeAllProviders o) (go_Hidden o) (go_Icon o).

Definition lift {A} (m : result A) : step A := match m with Ok a => sret a | Err e => Err e | Panic => Panic end.
Definition decoded_as {A} (o : option A) : step A := match o with Some a => sret a | None => sfail EDecode end.

(** The [switch] over the type. *)
Definition new_group (config : Mapping) (option : GroupCommonOption) (fallback : Proxy) (providers : list nat) : step Group :=
  if decide (go_Type option = lit "url-test") then
    let! tolerance := decoded_as (DecodeTolerance config) in
    let! g := lift (NewURLTest option tolerance fallback providers) in sret (GURLTest g)
  else if decide (go_Type option = lit "select") then
    let! selected := decoded_as (DecodeDefaultSelected config) in
    let! g := lift (NewSelector option selected fallback providers) in sret (GSelector g)
  else if decide (go_Type option = lit "fallback") then
    let! g := lift (NewFallback option fallback providers) in sret (GFallback g)
  else if decide (go_Type option = lit "load-balance") then
    let! strategy := decoded_as (DecodeStrategy config) in
    let! g := NewLoadBalance option strategy fallback providers in sret (GLoadBalance g)
  else sfail (EType (go_Type option)).

Definition ParseProxyGroup (config : Mapping) (proxyMap : gmap str Proxy) (AllProxies AllProviders : list str) (st : parse_state)
    : step (Group * parse_state) :=
  match DecodeGroup config with
  | inr _ => sfail EFormat
  | inl option =>
    if decide (go_Type option = [] ∨ go_Name option = []) then sfail EFormat
    else if (go_Interval option <? 0)%Z || (go_TestTimeout option <? 0)%Z then sfail (ENegative (go_Name option))
    else if bad_filters option then sfail (EFilter (go_Name option))
    else
      match proxyMap !! fallback_name option with
      | None => sfail (EFallback (go_Name option) (fallback_name option))
      | Some fallback =>
        if isProxyGroup fallback then sfail (EFallback (go_Name option) (fallback_name option))
        else
          let! (proxies, use) := member_names option AllProxies AllProviders in
          if decide (proxies = [] ∧ use = []) then sfail (EMissProxy (go_Name option))
          else
            match NewUnsignedRanges uint16 (go_ExpectedStatus option) with
            | Panic => Panic
            | Err _ => sfail (EStatus (go_Name option))
            | Ok ranges =>
              let status := trim_space (go_ExpectedStatus option) in
              let status := if decide (status = []) then lit "*" else status in
              let! (ids, url, st) := use_providers option use ranges st in
              let! (ids, url, st) := own_provider option proxyMap proxies ranges ids url st in
              let! g := new_group config (with_url_status url status option) fallback ids in
              sret (g, st)
            end
      end
  end.

(** ** The configuration *)

Record RawConfig := MkRawConfig {
  rc_Proxy : list ProxyMapping; rc_ProxyGroup : list Mapping; rc_ProxyProvider : gmap str ProviderMapping
}.

Inductive config_error :=
| CProxy (idx : nat)
| CProxyDuplicate (name : str)
| CGroupName (idx : nat)
| CGroups (e : dag_outcome (Mapping := Mapping))
| CReserved
| CProvider (name : str)
| CGroup (idx : nat) (e : group_error)
| CGroupDuplicate (name : str)
| CDialer (e : dialer_error).

Definition builtins : gmap str Proxy :=
  <[lit "PASS-RULE" := builtin PassRule]> (<[lit "PASS" := builtin Pass]> (<[lit "COMPATIBLE" := builtin Compatible]>
  (<[lit "REJECT-DROP" := builtin RejectDrop]> (<[lit "REJECT" := builtin Reject]> {[lit "DIRECT" := builtin Direct]})))).

(** The configured proxies, in order; [names] are the names so far. *)
Fixpoint parse_proxies (idx : nat) (l : list ProxyMapping) (proxies : gmap str Proxy) (names : list str)
    : (gmap str Proxy * list str) + config_error :=
  match l with
  | [] => inl (proxies, names)
  | mapping :: l =>
    match ParseProxy mapping with
    | Some proxy =>
      if decide (is_Some (proxies !! Name proxy)) then inr (CProxyDuplicate (Name proxy))
      else parse_proxies (S idx) l (<[Name proxy := proxy]> proxies) (names ++ [Name proxy])
    | None => inr (CProxy idx)
    end
  end.

Fixpoint group_names (idx : nat) (l : list Mapping) : list str + config_error :=
  match l with
  | [] => inl []
  | mapping :: l =>
    match raw_name mapping with
    | None => inr (CGroupName idx)
    | Some name => match group_names (S idx) l with inl names => inl (name :: names) | inr e => inr e end
    end
  end.

Definition ReservedName : str := lit "default".

Fixpoint parse_providers (cfg : gmap str ProviderMapping) (names : list str) (st : parse_state) : parse_state + config_error :=
  match names with
  | [] => inl st
  | name :: names =>
    if decide (name = ReservedName) then inr CReserved
    else match cfg !! name ≫= ParseProxyProvider name with
         | Some pd => parse_providers cfg names (MkParseState (ps_heap st ++ [pd]) (<[name := length (ps_heap st)]> (ps_map st)))
         | None => inr (CProvider name)
         end
  end.

Fixpoint parse_groups (idx : nat) (l : list Mapping) (AllProxies AllProviders : list str) (proxies : gmap str Proxy) (st : parse_state)
    : result ((gmap str Proxy * parse_state) + config_error) :=
  match l with
  | [] => Ok (inl (proxies, st))
  | mapping :: l =>
    match ParseProxyGroup mapping proxies AllProxies AllProviders st with
    | Ok (inl (group, st)) =>
      let groupName := gb_Name (group_base group) in
      if decide (is_Some (proxies !! groupName)) then Ok (inr (CGroupDuplicate groupName))
      else parse_groups (S idx) l AllProxies AllProviders (<[groupName := NewProxy group]> proxies) st
    | Ok (inr e) => Ok (inr (CGroup idx e))
    | Err e => Err e
    | Panic => Panic
    end
  end.

(** The proxies of the reserved provider. *)
Fixpoint listed_proxies (proxies : gmap str Proxy) (names : list str) : result (list Proxy) :=
  match names with
  | [] => Ok []
  | v :: names =>
    match proxies !! v with
    | None => Panic
    | Some p => ps ← listed_proxies proxies names;
                Ok (if decide (ProxyType p = Pass ∨ ProxyType p = PassRule) then ps else p :: ps)
    end
  end.

Definition global_option : GroupCommonOption :=
  MkGroupOption (lit "GLOBAL") [] [] [] [] 0 0 0 [] false false [] [] [] [] false false false false [].

(** The reserved provider, the group [GLOBAL] and the check of the dialers. *)
Definition finish_proxies `{MapRange} (proxyList : list str) (hasGlobal : bool) (proxies : gmap str Proxy) (st : parse_state)
    : result ((gmap str Proxy * parse_state) + config_error) :=
  ps ← listed_proxies proxies proxyList;
  match NewCompatibleProvider ReservedName ps (NewHealthCheck [] 5000 0 true []), proxies !! lit "COMPATIBLE" with
  | Some pd, Some compatible =>
    let id := length (ps_heap st) in
    let st := MkParseState (ps_heap st ++ [pd]) (<[ReservedName := id]> (ps_map st)) in
    proxies ← (if hasGlobal : bool then Ok proxies
               else global ← NewSelector global_option [] compatible [id]; Ok (<[lit "GLOBAL" := NewProxy (GSelector global)]> proxies));
    dialer ← validateDialerProxies (DialerProxy <$> proxies);
    Ok match dialer with Some e => inr (CDialer e) | None => inl (proxies, st) end
  | _, _ => Panic
  end.

Definition parseProxies `{SortSlice} `{MapRange} (cfg : RawConfig) : result ((gmap str Proxy * parse_state) + config_error) :=
  match parse_proxies 0 (rc_Proxy cfg) builtins [] with
  | inr e => Ok (inr e)
  | inl (proxies, AllProxies) =>
    match group_names 0 (rc_ProxyGroup cfg) with
    | inr e => Ok (inr e)
    | inl names =>
      sorted ← proxyGroupsDagSort DecodeGroup (rc_ProxyGroup cfg);
      match sorted with
      | DagSorted groupsConfig =>
        match parse_providers (rc_ProxyProvider cfg) (map_range 4 (rc_ProxyProvider cfg)) (MkParseState [] ∅) with
        | inr e => Ok (inr e)
        | inl st =>
          groups ← parse_groups 0 groupsConfig (sort_slice str_ltb AllProxies)
            (sort_slice str_ltb (map_range 4 (rc_ProxyProvider cfg))) proxies st;
          match groups with
          | inr e => Ok (inr e)
          | inl (proxies, st) =>
            finish_proxies ([lit "DIRECT"; lit "REJECT"] ++ AllProxies ++ names) (bool_decide (lit "GLOBAL" ∈ names)) proxies st
          end
        end
      | e => Ok (inr (CGroups e))
      end
    end
  end.
End groups_parser.

(** * What parsing guarantees *)

(** What is documented of the parameters: the empty expression compiles, a
    decoded group has the name that its mapping has, and a built-in outbound
    has the type it is made for. *)
Class GroupsLaws `{GroupsEnv} := {
  compile_empty : is_Some (Compile []);
  decode_name : ∀ m o n, DecodeGroup m = inl o → raw_name m = Some n → go_Name o = n;
  builtin_type : ∀ t, ProxyType (builtin t) = t
}.

Section group_facts.
Context `{GroupsLaws}.
#[local] Set Default Proof Using "All".

Lemma sbind_Ok {A B} (m : step A) (f : A → step B) b : sbind m f = Ok (inl b) ↔ ∃ a, m = Ok (inl a) ∧ f a = Ok (inl b).
Proof. destruct m as [[a|e]| |]; cbn; naive_solver. Qed.

(** A step that returns: it does not panic, an error satisfies [E], a value [P]. *)
Definition okS {A} (P : A → Prop) (E : group_error → Prop) (m : step A) : Prop :=
  match m with Ok (inl a) => P a | Ok (inr e) => E e | _ => False end.

Lemma okS_bind {A B} (P : A → Prop) (Q : B → Prop) E (m : step A) (f : A → step B) :
  okS P E m → (∀ a, P a → okS Q E (f a)) → okS Q E (sbind m f).
Proof. destruct m as [[a|e]| |]; cbn; auto. Qed.
Lemma okS_ret {A} (P : A → Prop) E a : P a → okS P E (sret a).
Proof. done. Qed.
Lemma okS_fail {A} (P : A → Prop) (E : group_error → Prop) e : E e → okS P E (sfail e).
Proof. done. Qed.
Lemma okS_impl {A} (P Q : A → Prop) (E F : group_error → Prop) m : okS P E m → (∀ a, P a → Q a) → (∀ e, E e → F e) → okS Q F m.
Proof. destruct m as [[a|e]| |]; cbn; auto. Qed.

(** ** Filters *)

Lemma compile_good s : bad_filter s = false → is_Some (Compile s).
Proof.
  unfold bad_filter. destruct (bool_decide_reflect (s = [])) as [->|]; [intros _; apply compile_empty|]. cbn.
  intros Hs%negb_false_iff. by apply bool_decide_eq_true in Hs.
Qed.
Lemma must_compile_ok filter : existsb bad_filter (split_on backquote filter) = false → ∃ regs, must_compile filter = Ok regs.
Proof.
  unfold must_compile. case_decide; [by eexists|].
  match goal with |- _ → ∃ _, foldM ?f _ _ = _ => cut (∀ l acc, existsb bad_filter l = false → ∃ regs, foldM f acc l = Ok regs); [by eauto|] end.
  intros l. induction l as [|s l IH]; intros acc Hb; cbn in Hb |- *; [by eexists|]. apply orb_false_iff in Hb as [Hs Hl].
  destruct (compile_good s Hs) as [r ->]. cbn. by apply IH.
Qed.

Lemma NewGroupBase_ok type option fallback providers : bad_filters option = false →
  ∃ gb, NewGroupBase (base_option type option fallback providers) = Ok gb ∧ gb_Name gb = go_Name option ∧ gb_providers gb = providers.
Proof.
  unfold bad_filters. rewrite existsb_app. intros [Hf Hx]%orb_false_iff. unfold NewGroupBase, base_option. cbn [bo_ExcludeFilter bo_Filter].
  destruct (must_compile_ok _ Hf) as [r1 ->]. destruct (must_compile_ok _ Hx) as [r2 ->]. cbn. by eexists.
Qed.

(** ** One group *)

(** Names map to providers of the heap. *)
Definition state_ok (st : parse_state) : Prop := ∀ name id, ps_map st !! name = Some id → id < length (ps_heap st).

(** Providers keep their place and their proxies; only health checks change. *)
Definition heap_le (st st' : parse_state) : Prop :=
  ∀ id pd hc, ps_heap st !! id = Some (pd, hc) → ∃ hc', ps_heap st' !! id = Some (pd, hc').
#[local] Instance heap_le_preorder : PreOrder heap_le.
Proof.
  split; [intros st id pd hc E; by eexists|]. intros st1 st2 st3 H12 H23 id pd hc E. destruct (H12 _ _ _ E) as [hc' E']. by eapply H23.
Qed.

(** The provider [id] offers [p]. *)
Definition offers (st : parse_state) (id : nat) (p : Proxy) : Prop :=
  ∃ pd hc, ps_heap st !! id = Some (pd, hc) ∧ p ∈ pd_Proxies pd.
Lemma offers_le st st' id p : heap_le st st' → offers st id p → offers st' id p.
Proof. intros Hle (pd & hc & E & Hp). destruct (Hle _ _ _ E) as [hc' E']. by exists pd, hc'. Qed.

Lemma heap_le_lt st st' id : heap_le st st' → id < length (ps_heap st) → id < length (ps_heap st').
Proof.
  intros Hle [[pd hc] E]%lookup_lt_is_Some_2. destruct (Hle _ _ _ E) as [hc' E']. by eapply lookup_lt_Some.
Qed.

Lemma getProxies_spec group mapping names :
  okS (λ ps, ∀ n, n ∈ names → ∃ p, mapping !! n = Some p ∧ p ∈ ps)
    (λ e, ∃ n, e = EProxyNotFound group n ∧ n ∈ names ∧ mapping !! n = None) (getProxies group mapping names).
Proof.
  induction names as [|n names IH]; cbn [getProxies]; [by intros ? ?%not_elem_of_nil|]. destruct (mapping !! n) as [p|] eqn:E.
  - eapply okS_bind; [eapply okS_impl; [exact IH|intros ps Hps; exact Hps|]|intros ps Hps; cbn].
    + intros e (m & -> & Hm & Hno). exists m. split; [done|]. split; [by right|done].
    + intros m [-> |Hm]%elem_of_cons; [exists p; split; [done|left]|]. destruct (Hps m Hm) as (q & ? & ?). exists q. split; [done|by right].
  - cbn. exists n. split; [done|]. split; [left|done].
Qed.

(** The errors other than a missing proxy. *)
Definition other_error (e : group_error) : Prop := ∀ g n, e ≠ EProxyNotFound g n.

Lemma getProviders_spec group st names : state_ok st →
  okS (λ ids, length ids = length names ∧ ∀ id, id ∈ ids → id < length (ps_heap st)) other_error (getProviders group st names).
Proof.
  intros Hst. induction names as [|n names IH]; cbn [getProviders]; [split; [done|by intros ? ?%not_elem_of_nil]|].
  destruct (ps_map st !! n) as [id|] eqn:E; [|done]. pose proof (Hst _ _ E) as Hlt.
  destruct (lookup_lt_is_Some_2 (ps_heap st) id Hlt) as [[pd hc] Hpd]. rewrite Hpd. case_decide; [done|].
  eapply okS_bind; [exact IH|]. intros ids [Hlen Hids]. cbn. rewrite Hlen. split; [done|]. intros i [-> |Hi]%elem_of_cons; auto.
Qed.

Lemma addTestUrl_heap ids url status filter interval st : heap_le st (addTestUrlToProviders ids url status filter interval st).
Proof.
  unfold addTestUrlToProviders. case_decide as Hc; [done|]. clear Hc. intros i pd hc. cbn. revert hc. generalize (ps_heap st).
  induction ids as [|j ids IH]; intros heap h E; cbn; [by eexists|].
  destruct (decide (j = i)) as [->|Hne].
  - eapply IH. by rewrite list_lookup_alter_eq, E.
  - eapply IH. by rewrite list_lookup_alter_ne.
Qed.
Lemma addTestUrl_state ids url status filter interval st : state_ok st → state_ok (addTestUrlToProviders ids url status filter interval st).
Proof.
  intros Hst name id Hid. eapply heap_le_lt; [apply addTestUrl_heap|]. apply (Hst name). unfold addTestUrlToProviders in Hid. by case_decide.
Qed.

(** A step that yields providers [ids] in a state that extends [st]. *)
Definition extends (st : parse_state) (ids : list nat) (st' : parse_state) : Prop :=
  state_ok st' ∧ heap_le st st' ∧ ∀ id, id ∈ ids → id < length (ps_heap st').

Lemma use_providers_spec option use status st : state_ok st →
  okS (λ r, extends st r.1.1 r.2 ∧ (use ≠ [] → r.1.1 ≠ [])) other_error (use_providers option use status st).
Proof.
  intros Hst. unfold use_providers. case_decide as Hu; [split; [split_and!; [done..|by intros ? ?%not_elem_of_nil]|done]|].
  eapply okS_bind; [by apply getProviders_spec|]. intros ids [Hids Hlt].
  assert (ids ≠ []) as Hne by (intros ->; by destruct use). case_decide; (split; [|done]); (split_and!; [..|]); cbn; try done.
  - by apply addTestUrl_state.
  - apply addTestUrl_heap.
  - intros id Hid. eapply heap_le_lt; [apply addTestUrl_heap|]. by apply Hlt.
Qed.

Lemma own_provider_spec option proxyMap proxies status ids url st : state_ok st → (∀ id, id ∈ ids → id < length (ps_heap st)) →
  okS (λ r, extends st r.1.1 r.2 ∧ (proxies ≠ [] ∨ ids ≠ [] → r.1.1 ≠ [])
         ∧ ∀ n, n ∈ proxies → ∃ p id, proxyMap !! n = Some p ∧ id ∈ r.1.1 ∧ offers r.2 id p)
    (λ e, other_error e ∨ ∃ n, e = EProxyNotFound (go_Name option) n ∧ n ∈ proxies ∧ proxyMap !! n = None)
    (own_provider option proxyMap proxies status ids url st).
Proof.
  intros Hst Hids. unfold own_provider. case_decide as Hp.
  { subst. split; [by split_and!|]. split; [by intros [?|?]|by intros ? ?%not_elem_of_nil]. }
  eapply okS_bind; [eapply okS_impl; [apply getProxies_spec|intros ps Hps; exact Hps|by eauto]|]. intros ps Hps. case_decide; [by left|].
  unfold NewCompatibleProvider. case_decide; [by left|].
  match goal with |- context [sret (_, _, ?s)] => set (st' := s) end.
  assert (heap_le st st') as Hle by (intros id pd hc E; exists hc; cbn; by rewrite lookup_app_l by (by eapply lookup_lt_Some)).
  split; [split_and!; [|done|]|split; [done|]].
  - intros name id. cbn. rewrite length_app. cbn. intros [[<- <-]|[_ Hid]]%lookup_insert_Some; [lia|]. apply Hst in Hid. lia.
  - cbn. rewrite length_app. cbn. intros id [-> |Hid]%elem_of_cons; [lia|]. apply Hids in Hid. lia.
  - intros n Hn. destruct (Hps n Hn) as (p & Hp' & Hin). exists p, (length (ps_heap st)). split; [done|]. split; [left|].
    eexists _, _. split; [cbn; by rewrite lookup_app_r, Nat.sub_diag by lia|done].
Qed.

Lemma new_group_spec config option fallback providers : bad_filters option = false →
  okS (λ g, gb_Name (group_base g) = go_Name option ∧ gb_providers (group_base g) = providers) other_error
    (new_group config option fallback providers).
Proof.
  intros Hb. unfold new_group, NewURLTest, NewSelector, NewFallback, NewLoadBalance, decoded_as.
  repeat (case_decide; [|]); try done.
  - destruct (DecodeTolerance config); [|done]. cbn. destruct (NewGroupBase_ok URLTest option fallback providers Hb) as (gb & -> & ?). done.
  - destruct (DecodeDefaultSelected config); [|done]. cbn. destruct (NewGroupBase_ok Selector option fallback providers Hb) as (gb & -> & ?). done.
  - cbn. destruct (NewGroupBase_ok Fallback option fallback providers Hb) as (gb & -> & ?). done.
  - destruct (DecodeStrategy config) as [s|]; [|done]. cbn. destruct (strategy_of s); [|done].
    destruct (NewGroupBase_ok LoadBalance option fallback providers Hb) as (gb & -> & ?). done.
Qed.

Lemma member_names_spec option AllProxies AllProviders :
  okS (λ r, (∀ n, n ∈ r.1 → n ∈ go_Proxies option ∨ n ∈ AllProxies ∨ n = fallback_name option) ∧ ∀ n, n ∈ go_Proxies option → n ∈ r.1) other_error
    (member_names option AllProxies AllProviders).
Proof.
  unfold member_names. destruct (go_IncludeAll option || go_IncludeAllProxies option); [|cbn; by eauto].
  assert (okS (λ ps, (∀ n, n ∈ ps → n ∈ go_Proxies option ∨ n ∈ AllProxies) ∧ ∀ n, n ∈ go_Proxies option → n ∈ ps) other_error
    (include_proxies option AllProxies)) as Hinc.
  { unfold include_proxies. case_decide; [cbn; split; [by intros n ?%elem_of_app|intros n ?; apply elem_of_app; by left]|].
    eapply (okS_bind (λ _, True)).
    - induction (split_on backquote (go_Filter option)) as [|s l IH]; cbn [foldr]; [done|]. destruct (Compile s); [|done]. by eapply okS_bind.
    - intros regs _. cbn. split; [|intros n ?; apply elem_of_app; by left].
      intros n [Hn|Hn]%elem_of_app; [by left|]. apply list_elem_of_bind in Hn as (p & Hn & Hp).
      apply list_elem_of_fmap in Hn as (_ & -> & _). by right. }
  eapply okS_bind; [exact Hinc|]. intros ps [Hps Hin]. cbn. case_decide as Hnil.
  - destruct Hnil as [-> _]. split; [intros n Hn; apply list_elem_of_singleton in Hn as ->; by eauto|].
    intros n Hn. by apply Hin, not_elem_of_nil in Hn.
  - split; [|done]. intros n Hn. destruct (Hps n Hn); by eauto.
Qed.

(** A group that stands: it has providers, all of them there, and whatever proxy it
    lists is the one of that name, offered by one of them. *)
Record group_ready (proxies : gmap str Proxy) (st : parse_state) (o : GroupCommonOption) (g : Group) : Prop := {
  ready_name : gb_Name (group_base g) = go_Name o;
  ready_some : gb_providers (group_base g) ≠ [];
  ready_providers : ∀ id, id ∈ gb_providers (group_base g) → id < length (ps_heap st);
  ready_members : ∀ n, n ∈ go_Proxies o → ∃ p id, proxies !! n = Some p ∧ id ∈ gb_providers (group_base g) ∧ offers st id p
}.
Lemma group_ready_le proxies proxies' st st' o g : proxies ⊆ proxies' → heap_le st st' → group_ready proxies st o g → group_ready proxies' st' o g.
Proof.
  intros Hsub Hle [R1 R2 R3 R4]. split; [done|done|intros id Hid; eapply heap_le_lt; eauto|].
  intros n Hn. destruct (R4 n Hn) as (p & id & Hp & Hid & Ho). exists p, id. split; [by eapply lookup_weaken|]. split; [done|]. by eapply offers_le.
Qed.

(** One group is parsed without a panic; the only proxies it can miss are those
    its mapping lists or that are among the proxies to include. *)
Lemma ParseProxyGroup_spec config proxyMap AllProxies AllProviders st : state_ok st →
  okS (λ r, state_ok r.2 ∧ heap_le st r.2 ∧ ∃ o, DecodeGroup config = inl o ∧ group_ready proxyMap r.2 o r.1)
    (λ e, other_error e ∨ ∃ o n, DecodeGroup config = inl o ∧ e = EProxyNotFound (go_Name o) n
       ∧ (n ∈ go_Proxies o ∨ n ∈ AllProxies) ∧ proxyMap !! n = None)
    (ParseProxyGroup config proxyMap AllProxies AllProviders st).
Proof.
  intros Hst. unfold ParseProxyGroup. destruct (DecodeGroup config) as [o|] eqn:Ed; [|by left].
  case_decide; [by left|]. destruct (_ || _); [by left|]. destruct (bad_filters o) eqn:Eb; [by left|].
  destruct (proxyMap !! fallback_name o) as [fallback|] eqn:Ef; [|by left]. destruct (isProxyGroup fallback); [by left|].
  eapply okS_bind; [eapply okS_impl; [apply member_names_spec|intros r Hr; exact Hr|by left]|]. intros [proxies use] [Hmem Hin]. cbn [fst] in Hmem, Hin.
  case_decide as Hmiss; [by left|]. pose proof (NewUnsignedRanges_returns uint16 (go_ExpectedStatus o)) as Hret.
  destruct (NewUnsignedRanges uint16 (go_ExpectedStatus o)) as [ranges| |]; [|by left|done].
  eapply okS_bind; [eapply okS_impl; [by apply use_providers_spec|intros r Hr; exact Hr|by left]|]. intros [[ids url] st1] [(Hst1 & Hle1 & Hlt1) Hids].
  eapply okS_bind; [eapply okS_impl; [by apply own_provider_spec|intros r Hr; exact Hr|]|].
  { intros e [?|(n & -> & Hn & Hno)]; [by left|]. right. exists o, n. split; [done|]. split; [done|]. split; [|done].
    destruct (Hmem n Hn) as [?|[?| ->]]; [by left|by right|congruence]. }
  intros [[ids2 url2] st2] ((Hst2 & Hle2 & Hlt2) & Hids2 & Hoff). cbn [fst snd] in *.
  eapply okS_bind; [eapply okS_impl; [by apply new_group_spec|intros g Hg; exact Hg|by left]|]. intros g [Hname Hprov]. cbn.
  split; [done|]. split; [by transitivity st1|]. exists o. split; [done|]. split; [done|..]; rewrite ?Hprov; [|done|by eauto].
  apply Hids2. destruct (decide (proxies = [])) as [->|]; [right|by left]. apply Hids. intros ->. by apply Hmiss.
Qed.

(** ** The configuration *)

Lemma parse_proxies_spec l : ∀ idx proxies names,
  match parse_proxies idx l proxies names with
  | inl (proxies', names') =>
    proxies ⊆ proxies'
    ∧ (∀ n p, proxies' !! n = Some p ↔ proxies !! n = Some p ∨ ∃ m, m ∈ l ∧ ParseProxy m = Some p ∧ Name p = n)
    ∧ ∀ n, n ∈ names' → n ∈ names ∨ is_Some (proxies' !! n)
  | inr e => match e with CProxy _ | CProxyDuplicate _ => True | _ => False end
  end.
Proof.
  induction l as [|m l IH]; intros idx proxies names; cbn [parse_proxies].
  { split; [done|]. split; [|by left]. intros n p. split; [by left|]. intros [?|(m & ?%not_elem_of_nil & _)]; done. }
  destruct (ParseProxy m) as [p|] eqn:Ep; [|done]. case_decide as Hdup; [done|].
  specialize (IH (S idx) (<[Name p := p]> proxies) (names ++ [Name p])).
  destruct (parse_proxies _ _ _ _) as [[proxies' names']|]; [|done]. destruct IH as (Hsub & Hdom & Hnames).
  assert (is_Some (proxies' !! Name p)) as Hp by (exists p; apply Hdom; left; by rewrite lookup_insert_eq).
  split; [etrans; [|exact Hsub]; apply insert_subseteq; by apply eq_None_not_Some|]. split.
  - apply eq_None_not_Some in Hdup. intros n q. rewrite Hdom, lookup_insert_Some. setoid_rewrite elem_of_cons. naive_solver.
  - intros n Hn. destruct (Hnames n Hn) as [[?|Hq]%elem_of_app|?]; [by left| |by right].
    apply list_elem_of_singleton in Hq as ->. by right.
Qed.

Lemma group_names_spec l : ∀ idx,
  match group_names idx l with
  | inl names => (∀ n, n ∈ names ↔ ∃ m, m ∈ l ∧ raw_name m = Some n) ∧ ∀ m, m ∈ l → is_Some (raw_name m)
  | inr e => match e with CGroupName _ => True | _ => False end
  end.
Proof.
  induction l as [|m l IH]; intros idx; cbn [group_names].
  { split; [|by intros m ?%not_elem_of_nil]. intros n. rewrite elem_of_nil. split; [done|]. by intros (m & ?%not_elem_of_nil & _). }
  destruct (raw_name m) as [name|] eqn:E; [|done].
  specialize (IH (S idx)). destruct (group_names (S idx) l) as [names|]; [|done]. destruct IH as [IH1 IH2]. split.
  - intros n. rewrite elem_of_cons, IH1. setoid_rewrite elem_of_cons. naive_solver.
  - intros m' [-> |Hm]%elem_of_cons; [by eexists|by apply IH2].
Qed.

Lemma parse_providers_spec cfg names : ∀ st, state_ok st →
  match parse_providers cfg names st with
  | inl st => state_ok st
  | inr e => match e with CReserved | CProvider _ => True | _ => False end
  end.
Proof.
  induction names as [|name names IH]; intros st Hst; cbn [parse_providers]; [done|]. case_decide; [done|].
  destruct (cfg !! name ≫= ParseProxyProvider name) as [pd|]; [|done]. apply IH. intros n id. cbn. rewrite length_app. cbn.
  intros [[<- <-]|[_ Hid]]%lookup_insert_Some; [lia|]. apply Hst in Hid. lia.
Qed.

(** Some mapping of [l] is the group of that name. *)
Definition group_in (l : list Mapping) (n : str) : Prop := ∃ m o, m ∈ l ∧ DecodeGroup m = inl o ∧ go_Name o = n.

Lemma group_in_snoc l m o n : DecodeGroup m = inl o → group_in (l ++ [m]) n ↔ group_in l n ∨ go_Name o = n.
Proof.
  intros Ho. split.
  - intros (m' & o' & [Hm|Hm]%elem_of_app & Ho' & Hn); [left; by exists m', o'|]. apply list_elem_of_singleton in Hm as ->. right. congruence.
  - intros [(m' & o' & Hm & ? & ?)|<-]; [exists m', o'; split; [apply elem_of_app; by left|done]|].
    exists m, o. split; [apply elem_of_app; right; left|done].
Qed.

(** The groups [parsed] so far, on top of the outbounds of [base]. *)
Record groups_parsed (base : gmap str Proxy) (parsed : list Mapping) (proxies : gmap str Proxy) (st : parse_state) : Prop := {
  gp_state : state_ok st;
  gp_base : base ⊆ proxies;
  gp_names : ∀ n, is_Some (proxies !! n) ↔ is_Some (base !! n) ∨ group_in parsed n;
  gp_ready : ∀ m, m ∈ parsed → ∃ o g, DecodeGroup m = inl o ∧ proxies !! go_Name o = Some (NewProxy g) ∧ group_ready proxies st o g
}.

Lemma groups_parsed_snoc base parsed proxies st m o g st' : groups_parsed base parsed proxies st → state_ok st' → heap_le st st' →
  DecodeGroup m = inl o → group_ready proxies st' o g → ¬ is_Some (proxies !! go_Name o) →
  groups_parsed base (parsed ++ [m]) (<[go_Name o := NewProxy g]> proxies) st'.
Proof.
  intros [Hs Hb Hn Hr] Hst' Hle Ho Hg Hnew. assert (proxies ⊆ <[go_Name o := NewProxy g]> proxies) as Hsub
    by (apply insert_subseteq; by apply eq_None_not_Some).
  split; [done|by etrans|..].
  - intros n. rewrite lookup_insert_is_Some', Hn, group_in_snoc by done. tauto.
  - intros m' [Hm|Hm]%elem_of_app.
    + destruct (Hr m' Hm) as (o' & g' & ? & ? & ?). exists o', g'. split; [done|]. split; [by eapply lookup_weaken|by eapply group_ready_le].
    + apply list_elem_of_singleton in Hm as ->. exists o, g. split; [done|]. split; [by rewrite lookup_insert_eq|].
      eapply group_ready_le; [exact Hsub|reflexivity|exact Hg].
Qed.

Lemma parse_groups_spec base AllProxies AllProviders l : (∀ n, n ∈ AllProxies → is_Some (base !! n)) → ∀ idx parsed proxies st,
  groups_parsed base parsed proxies st →
  match parse_groups idx l AllProxies AllProviders proxies st with
  | Ok (inl (proxies', st')) => groups_parsed base (parsed ++ l) proxies' st'
  | Ok (inr (CGroup _ (EProxyNotFound g n))) =>
    ∃ l1 m l2 o, parsed ++ l = l1 ++ m :: l2 ∧ DecodeGroup m = inl o ∧ go_Name o = g ∧ n ∈ go_Proxies o ∧ base !! n = None ∧ ¬ group_in l1 n
  | Ok (inr (CGroup _ _)) | Ok (inr (CGroupDuplicate _)) => True
  | _ => False
  end.
Proof.
  intros Hall. induction l as [|m l IH]; intros idx parsed proxies st Hp; cbn [parse_groups]; [by rewrite app_nil_r|].
  pose proof (ParseProxyGroup_spec m proxies AllProxies AllProviders st (gp_state _ _ _ _ Hp)) as Hg.
  destruct (ParseProxyGroup m proxies AllProxies AllProviders st) as [[[g st']|e]| |]; [|..|done|done]; cbn in Hg.
  - destruct Hg as (Hst' & Hle & o & Ho & Hready). rewrite (ready_name _ _ _ _ Hready). case_decide as Hdup; [done|].
    specialize (IH (S idx) (parsed ++ [m]) _ _ (groups_parsed_snoc _ _ _ _ _ _ _ _ Hp Hst' Hle Ho Hready Hdup)).
    by rewrite <- app_assoc in IH.
  - destruct Hg as [Hother|(o & n & Ho & -> & Hin & Hno)].
    + destruct e; try done. by edestruct (Hother name proxy).
    + assert (¬ is_Some (proxies !! n)) as Hno' by (by rewrite Hno; intros []).
      rewrite (gp_names _ _ _ _ Hp) in Hno'. exists parsed, m, l, o. split_and!; try done; [|..|naive_solver].
      * destruct Hin as [|Hin]; [done|]. exfalso. apply Hno'. left. by apply Hall.
      * apply eq_None_not_Some. intros Hbase. apply Hno'. by left.
Qed.

Lemma listed_proxies_spec proxies names : (∀ n, n ∈ names → is_Some (proxies !! n)) →
  ∃ ps, listed_proxies proxies names = Ok ps ∧ ∀ n p, n ∈ names → proxies !! n = Some p → ProxyType p ≠ Pass → ProxyType p ≠ PassRule → p ∈ ps.
Proof.
  induction names as [|n names IH]; intros Hin; cbn [listed_proxies]; [exists []; split; [done|by intros ? ? ?%not_elem_of_nil]|].
  destruct (Hin n ltac:(left)) as [p Hp]. rewrite Hp. destruct IH as (ps & -> & Hps); [intros m Hm; apply Hin; by right|]. cbn.
  eexists. split; [done|]. intros m q [-> |Hm]%elem_of_cons Hq H1' H2'.
  - assert (q = p) as -> by congruence. rewrite decide_False by naive_solver. left.
  - case_decide; [by eapply Hps|]. right. by eapply Hps.
Qed.
(** ** The whole of it *)

Context `{SortSlice} `{MapRange}.

(** [p] is the built-in outbound or the configured proxy called [n]. *)
Definition configured_as (cfg : RawConfig) (n : str) (p : Proxy) : Prop :=
  builtins !! n = Some p ∨ ∃ m, m ∈ rc_Proxy cfg ∧ ParseProxy m = Some p ∧ Name p = n.
Definition configured (cfg : RawConfig) (n : str) : Prop := ∃ p, configured_as cfg n p.

(** The last steps: the reserved provider, [GLOBAL] and the dialers. *)
Lemma finish_proxies_spec (proxyList : list str) (hasGlobal : bool) (proxies : gmap str Proxy) st : state_ok st → (∀ n, n ∈ proxyList → is_Some (proxies !! n)) →
  lit "DIRECT" ∈ proxyList → proxies !! lit "DIRECT" = Some (builtin Direct) → is_Some (proxies !! lit "COMPATIBLE") →
  ∃ g id st', state_ok st' ∧ heap_le st st' ∧ ps_map st' !! ReservedName = Some id ∧ gb_providers (s_base g) = [id]
  ∧ (∀ n p, n ∈ proxyList → proxies !! n = Some p → ProxyType p ≠ Pass → ProxyType p ≠ PassRule → offers st' id p)
  ∧ let final := if hasGlobal then proxies else <[lit "GLOBAL" := NewProxy (GSelector g)]> proxies in
    ∃ d, dialer_outcome_spec (DialerProxy <$> final) d
    ∧ finish_proxies proxyList hasGlobal proxies st = Ok match d with Some e => inr (CDialer e) | None => inl (final, st') end.
Proof.
  intros Hst Hin HD Hdirect [compatible Hc]. unfold finish_proxies.
  destruct (listed_proxies_spec proxies proxyList Hin) as (ps & -> & Hps). cbn [mbind result_bind].
  assert (builtin Direct ∈ ps) as Hd by (eapply Hps; try done; by rewrite builtin_type).
  unfold NewCompatibleProvider. rewrite Hc, decide_False by (intros ->; by apply not_elem_of_nil in Hd).
  match goal with |- context [Ok match _ with Some e => inr (CDialer e) | None => inl (_, ?s) end] => set (st' := s) end.
  destruct (NewGroupBase_ok Selector global_option compatible [length (ps_heap st)] eq_refl) as (gb & Hgb & _ & Hprov).
  exists (MkSelector gb false [] []), (length (ps_heap st)), st'. split_and!.
  - intros name id. cbn. rewrite length_app. cbn. intros [[<- <-]|[_ Hid]]%lookup_insert_Some; [lia|]. apply Hst in Hid. lia.
  - intros id pd hc E. exists hc. cbn. by rewrite lookup_app_l by (by eapply lookup_lt_Some).
  - cbn. by rewrite lookup_insert_eq.
  - done.
  - intros n p Hn Hp ? ?. eexists _, _. split; [cbn; by rewrite lookup_app_r, Nat.sub_diag by lia|]. by eapply Hps.
  - unfold NewSelector. rewrite Hgb. set (final := if hasGlobal : bool then _ else _). cbn.
    destruct (dialers_outcome (DialerProxy <$> final)) as (d & Hd1 & Hd2). exists d. split; [done|].
    subst final. destruct hasGlobal; cbn in *; by rewrite Hd1.
Qed.

Lemma group_in_perm l l' n : l ≡ₚ l' → group_in l n ↔ group_in l' n.
Proof. intros Hperm. unfold group_in. by setoid_rewrite Hperm. Qed.

Lemma named_in l m o : m ∈ l → DecodeGroup m = inl o → ∃ i, named DecodeGroup l i (go_Name o).
Proof. intros [i Hi]%list_elem_of_lookup Ho. by exists i, m, o. Qed.

(** The first group that misses a proxy misses one that is no group either: a
    member that is a group stands before it. *)
Lemma missing_is_no_group groups l1 m l2 o n :
  dag_outcome_spec DecodeGroup groups (DagSorted (l1 ++ m :: l2)) → DecodeGroup m = inl o → n ∈ go_Proxies o → ¬ group_in l1 n → ¬ group_in groups n.
Proof.
  intros (Hperm & Hord & _) Ho Hn Hno Hg. rewrite <- (group_in_perm _ _ n Hperm) in Hg. destruct Hg as (m' & o' & Hm' & Ho' & <-).
  apply list_elem_of_lookup in Hm' as [j Hj].
  assert (j < length l1) as Hlt.
  { apply (Hord (length l1) j (go_Name o) (go_Name o')); [|by exists m', o'|].
    - exists m, o. split; [by rewrite lookup_app_r, Nat.sub_diag by lia|done].
    - exists m, o. split; [|done]. rewrite <- Hperm. apply elem_of_app. right. left. }
  apply Hno. exists m', o'. split; [|done]. rewrite lookup_app_l in Hj by done. by eapply list_elem_of_lookup_2.
Qed.

(** What the accepted configuration looks like. *)
Record accepted (cfg : RawConfig) (proxies : gmap str Proxy) (st : parse_state) : Prop := {
  ac_names : ∀ n, is_Some (proxies !! n) ↔ configured cfg n ∨ group_in (rc_ProxyGroup cfg) n ∨ n = lit "GLOBAL";
  ac_proxies : ∀ n p, configured_as cfg n p → n ≠ lit "GLOBAL" → proxies !! n = Some p;
  ac_groups : ∀ m, m ∈ rc_ProxyGroup cfg → ∃ o g, DecodeGroup m = inl o ∧ proxies !! go_Name o = Some (NewProxy g)
    ∧ gb_Name (group_base g) = go_Name o ∧ gb_providers (group_base g) ≠ []
    ∧ (∀ id, id ∈ gb_providers (group_base g) → id < length (ps_heap st))
    ∧ ∀ n, n ∈ go_Proxies o → ∃ p id, id ∈ gb_providers (group_base g) ∧ offers st id p
        ∧ (n ≠ lit "GLOBAL" ∨ group_in (rc_ProxyGroup cfg) n → proxies !! n = Some p)
        ∧ (n = lit "GLOBAL" → ¬ group_in (rc_ProxyGroup cfg) n → configured_as cfg n p);
  ac_global : ¬ group_in (rc_ProxyGroup cfg) (lit "GLOBAL") →
    ∃ g id, proxies !! lit "GLOBAL" = Some (NewProxy (GSelector g)) ∧ gb_providers (s_base g) = [id]
    ∧ ∀ n p, group_in (rc_ProxyGroup cfg) n → proxies !! n = Some p → ProxyType p ≠ Pass → ProxyType p ≠ PassRule → offers st id p;
  ac_acyclic : ∀ a, ¬ tc (contains DecodeGroup (rc_ProxyGroup cfg)) a a;
  ac_dialers : ∀ a b, dials (DialerProxy <$> proxies) a b → is_Some (proxies !! b);
  ac_dials_acyclic : ∀ a, ¬ tc (dials (DialerProxy <$> proxies)) a a
}.

Lemma accepted_final cfg (names : list str) base proxies st (proxyList : list str) (hasGlobal : bool) g id st' :
  (∀ n p, base !! n = Some p ↔ configured_as cfg n p) →
  (∀ n, n ∈ names ↔ group_in (rc_ProxyGroup cfg) n) → (∀ n, n ∈ names → n ∈ proxyList) → hasGlobal = bool_decide (lit "GLOBAL" ∈ names) →
  groups_parsed base (rc_ProxyGroup cfg) proxies st → heap_le st st' → gb_providers (s_base g) = [id] →
  (∀ n p, n ∈ proxyList → proxies !! n = Some p → ProxyType p ≠ Pass → ProxyType p ≠ PassRule → offers st' id p) →
  (∀ a, ¬ tc (contains DecodeGroup (rc_ProxyGroup cfg)) a a) →
  let final := if hasGlobal then proxies else <[lit "GLOBAL" := NewProxy (GSelector g)]> proxies in
  dialer_outcome_spec (DialerProxy <$> final) None → accepted cfg final st'.
Proof.
  intros Hbase' Hnames Hlist HG [Hs Hsub Hdom Hready] Hle Hprov Hoff Hcyc final [Hd1 Hd2].
  assert (∀ n, is_Some (base !! n) ↔ configured cfg n) as Hbase by (intros n; split; intros [p Hp]; exists p; by apply Hbase').
  assert (∀ n, n ≠ lit "GLOBAL" ∨ group_in (rc_ProxyGroup cfg) n → final !! n = proxies !! n) as Hfinal.
  { intros n Hn. subst final hasGlobal. case_bool_decide as Hg; [done|]. rewrite lookup_insert_ne; [done|]. intros <-. rewrite Hnames in Hg. tauto. }
  split.
  - intros n. destruct (decide (n = lit "GLOBAL")) as [->|Hne]; [|rewrite Hfinal, Hdom, Hbase by (by left); tauto].
    split; [by auto|]. intros _. subst final hasGlobal. case_bool_decide as Hg; [|rewrite lookup_insert_eq; by eexists].
    apply Hdom. right. by apply Hnames.
  - intros n p Hp Hne. rewrite Hfinal by (by left). by eapply lookup_weaken; [apply Hbase'|].
  - intros m Hm. destruct (Hready m Hm) as (o & gr & Ho & Hgr & Hr). exists o, gr. split; [done|].
    split; [rewrite Hfinal; [done|right; by exists m, o]|]. split; [by eapply ready_name|]. split; [by eapply ready_some|]. split.
    + intros i Hi. eapply heap_le_lt; [done|]. by eapply ready_providers.
    + intros n Hn. destruct (ready_members _ _ _ _ Hr n Hn) as (p & i & Hp & Hi & Ho'). exists p, i.
      split; [done|]. split; [by eapply offers_le|]. split; [intros Hng; by rewrite Hfinal|]. intros _ Hng.
      destruct (proj1 (Hdom n)) as [[q Hq]|]; [by eexists| |done]. apply Hbase'. pose proof (lookup_weaken _ _ _ _ Hq Hsub). congruence.
  - intros Hno. exists g, id. subst final hasGlobal. rewrite <- Hnames in Hno. rewrite bool_decide_eq_false_2 in * by done.
    split; [by rewrite lookup_insert_eq|]. split; [done|]. intros n p Hn Hp. rewrite Hfinal in Hp by (by right).
    apply (Hoff n); [by apply Hlist, Hnames|done].
  - done.
  - intros a b Hab. apply Hd1 in Hab. by rewrite lookup_fmap, fmap_is_Some in Hab.
  - done.
Qed.

Lemma state_ok_nil : state_ok (MkParseState [] ∅).
Proof. intros name id. cbn. by rewrite lookup_empty. Qed.
Lemma groups_parsed_nil base st : state_ok st → groups_parsed base [] base st.
Proof.
  intros Hst. split; [done|done|..]; [|by intros m ?%not_elem_of_nil]. intros n. split; [by left|]. by intros [?|(m & o & ?%not_elem_of_nil & _)].
Qed.
Lemma groups_parsed_perm base l l' proxies st : l ≡ₚ l' → groups_parsed base l proxies st → groups_parsed base l' proxies st.
Proof.
  intros Hperm [P1 P2 P3 P4]. split; [done|done|intros n; by rewrite P3, (group_in_perm _ _ n Hperm)|]. intros m. rewrite <- Hperm. apply P4.
Qed.

(** C5: loading the outbounds of a configuration. [parseProxies] returns for every
    configuration, without a panic. When it accepts one, its map holds the
    built-in outbounds, the proxies, the groups and [GLOBAL]; every group has
    providers, and each proxy it lists is offered by one of them and is the one
    of that name in the map. The name [GLOBAL] is the exception: unless a group
    [GLOBAL] is configured, the map holds a generated group under it, which
    replaces a proxy so named, and a group that lists [GLOBAL] offers that
    configured proxy. The generated group offers every group;
    groups do not contain themselves, dialer proxies exist and do not come back
    to themselves. A group is reported to miss a proxy only if nothing of that
    name is configured: no proxy and, since the groups were sorted, no group. *)
Theorem parseProxies_correct (cfg : RawConfig) :
  match parseProxies cfg with
  | Ok (inl (proxies, st)) => accepted cfg proxies st
  | Ok (inr (CGroup _ (EProxyNotFound g n))) =>
    contains DecodeGroup (rc_ProxyGroup cfg) g n ∧ ¬ configured cfg n ∧ ¬ group_in (rc_ProxyGroup cfg) n
  | Ok (inr (CDialer (DialerNotFound _ n))) => ¬ configured cfg n ∧ ¬ group_in (rc_ProxyGroup cfg) n
  | Ok (inr _) => True
  | Err _ | Panic => False
  end.
Proof.
  unfold parseProxies. pose proof (parse_proxies_spec (rc_Proxy cfg) 0 builtins []) as Hpp.
  destruct (parse_proxies 0 (rc_Proxy cfg) builtins []) as [[base AllProxies]|e]; [|by destruct e].
  destruct Hpp as (Hbsub & Hbase' & Hall). change (∀ n p, base !! n = Some p ↔ configured_as cfg n p) in Hbase'.
  assert (∀ n, is_Some (base !! n) ↔ configured cfg n) as Hbase by (intros n; split; intros [p Hp]; exists p; by apply Hbase').
  assert (∀ n, n ∈ AllProxies → is_Some (base !! n)) as Hall' by (intros n [?%not_elem_of_nil|?]%Hall; done).
  pose proof (group_names_spec (rc_ProxyGroup cfg) 0) as Hgn.
  destruct (group_names 0 (rc_ProxyGroup cfg)) as [names|e]; [|by destruct e]. destruct Hgn as [Hnames Hraw].
  destruct (dag_sort_outcome DecodeGroup (rc_ProxyGroup cfg)) as (outcome & -> & Hdag). cbn [mbind result_bind].
  destruct outcome as [gs| | |]; [|done..].
  pose proof (parse_providers_spec (rc_ProxyProvider cfg) (map_range 4 (rc_ProxyProvider cfg)) (MkParseState [] ∅) state_ok_nil) as Hst.
  destruct (parse_providers _ _ _) as [st|e]; [|by destruct e].
  assert (∀ n, n ∈ names ↔ group_in (rc_ProxyGroup cfg) n) as Hng.
  { destruct Hdag as (_ & _ & Hdec & _). intros n. rewrite Hnames. split.
    - intros (m & Hm & Hn). destruct (Hdec m Hm) as [o Ho]. exists m, o. split; [done|]. split; [done|]. by eapply decode_name.
    - intros (m & o & Hm & Ho & <-). destruct (Hraw m Hm) as [n Hn]. exists m. split; [done|]. by rewrite (decode_name m o n). }
  pose proof (parse_groups_spec base (sort_slice str_ltb AllProxies) (sort_slice str_ltb (map_range 4 (rc_ProxyProvider cfg))) gs) as Hpg.
  specialize (Hpg ltac:(intros n; rewrite sort_slice_perm; apply Hall') 0 [] base st (groups_parsed_nil base st Hst)).
  destruct (parse_groups _ _ _ _ _ _) as [[[proxies st1]|e]| |]; [..|done|done]; cbn [mbind result_bind].
  - apply (groups_parsed_perm _ _ (rc_ProxyGroup cfg)) in Hpg; [|by destruct Hdag].
    assert (∀ n, configured cfg n ∨ group_in (rc_ProxyGroup cfg) n → is_Some (proxies !! n)) as Hin
      by (intros n Hn; apply (gp_names _ _ _ _ Hpg); rewrite Hbase; tauto).
    assert (∀ n p, builtins !! n = Some p → proxies !! n = Some p) as Hbi
      by (intros n p Hp; eapply lookup_weaken; [exact Hp|etrans; [exact Hbsub|apply Hpg]]).
    destruct (finish_proxies_spec ([lit "DIRECT"; lit "REJECT"] ++ AllProxies ++ names) (bool_decide (lit "GLOBAL" ∈ names)) proxies st1)
      as (g & id & st' & Hst' & Hle & _ & Hprov & Hoff & d & Hd & ->).
    + apply Hpg.
    + intros n. rewrite !elem_of_app, Hng. intros [Hn|[Hn|Hn]]; [|by apply Hin; left; apply Hbase, Hall'|by auto].
      apply Hin. left. apply list_elem_of_In in Hn as [<-|[<-|[]]]; eexists; by left.
    + left.
    + by apply Hbi.
    + eexists. by apply Hbi.
    + destruct d as [[a b|a]|]; [|done|].
      * destruct Hd as [_ Hno]. rewrite lookup_fmap, fmap_None in Hno.
        assert (¬ (configured cfg b ∨ group_in (rc_ProxyGroup cfg) b)) as Hnb; [|tauto].
        intros Hb. apply Hin in Hb. case_bool_decide; [by rewrite Hno in Hb; destruct Hb|].
        apply lookup_insert_None in Hno as [Hno _]. rewrite Hno in Hb. by destruct Hb.
      * apply (accepted_final cfg names base proxies st1 ([lit "DIRECT"; lit "REJECT"] ++ AllProxies ++ names) _ g id st'); try done; [|by destruct Hdag as (_ & _ & _ & _ & ?)].
        intros n Hn. rewrite !elem_of_app. by auto.
  - destruct e as [| | | | | |idx e| |]; try done. destruct e; try done. destruct Hpg as (l1 & m & l2 & o & E & Ho & <- & Hn & Hno & Hl1).
    cbn in E. subst gs. split_and!.
    + exists m, o. split; [|done]. destruct Hdag as (<- & _). apply elem_of_app. right. left.
    + rewrite <- Hbase, Hno. by intros [].
    + by eapply missing_is_no_group.
Qed.
End group_facts.

(** * Instances *)

(** Outbounds that are known by name, type and dialer; a proxy is given by its name
    and its dialer, a group as in GroupDag. *)
Definition named_env : ProxyEnv := {|
  Proxy := str * AdapterType * str;
  Name p := p.1.1;
  ProxyType p := p.1.2;
  SupportUDP _ := true;
  Unwrap _ _ := None;
  DialContext _ m := (false, m)
|}.
#[local] Existing Instances demo_env named_env substring_regexp plain_list merge_sort_slice list_range.
Definition named_groups : GroupsEnv := {|
  Mapping := string * list string;
  DecodeGroup := plain_decode;
  DecodeTolerance _ := Some 0%Z;
  DecodeDefaultSelected _ := Some [];
  DecodeStrategy _ := Some [];
  raw_name m := Some (lit m.1);
  NewProxy g := (gb_Name (group_base g), gb_Type (group_base g), []);
  isProxyGroup p := bool_decide (p.1.2 ∈ [Selector; Fallback; URLTest; LoadBalance]);
  builtin t := (lit (AdapterType_String t), t, []);
  ProxyMapping := string * string;
  ParseProxy m := Some (lit m.1, Trojan, lit m.2);
  ProviderMapping := Empty_set;
  ParseProxyProvider _ _ := None;
  DialerProxy p := p.2
|}.
#[local] Existing Instance named_groups.
#[local] Instance named_laws : GroupsLaws.
Proof. split; [by eexists|by intros m o n [= <-] [= <-]|done]. Qed.

Definition demo_config : RawConfig :=
  MkRawConfig [("hk", ""); ("jp", "hk")]%string [("auto", ["asia"; "DIRECT"]); ("asia", ["hk"; "jp"])]%string ∅.

Lemma parseProxies_correct_witness : ∃ proxies st, parseProxies demo_config = Ok (inl (proxies, st))
  ∧ is_Some (proxies !! lit "GLOBAL") ∧ ¬ tc (dials (DialerProxy <$> proxies)) (lit "jp") (lit "jp").
Proof.
  assert (match parseProxies demo_config with Ok (inl _) => true | _ => false end = true) as E by (vm_compute; reflexivity).
  pose proof (parseProxies_correct demo_config) as Hs. revert E Hs.
  generalize (parseProxies demo_config). intros [[[proxies st]|e]| |] E Hs; [|discriminate E..].
  exists proxies, st. split; [reflexivity|]. split; [apply (ac_names _ _ _ Hs); right; right; reflexivity|apply (ac_dials_acyclic _ _ _ Hs)].
Defined.

(** A proxy may be named [GLOBAL]: the names are compared while the proxies and
    the groups are read, and the group [GLOBAL] is stored after that, over the
    proxy. The groups that list [GLOBAL] keep the proxy. *)
Example GLOBAL_replaces_proxy :
  match parseProxies (MkRawConfig [("GLOBAL", "")]%string [("auto", ["GLOBAL"])]%string ∅) with
  | Ok (inl (proxies, st)) =>
    proxies !! lit "GLOBAL" = Some (lit "GLOBAL", Selector, [])
    ∧ pd_Proxies ∘ fst <$> ps_heap st !! 0 = Some [(lit "GLOBAL", Trojan, [])]
  | _ => False
  end.
Proof. vm_compute. split; reflexivity. Qed.
