(* ===== verification/OverrideValue.v ===== *)
(** * OverrideValue: the values of override expressions

    The first half of src/adapter/provider/override_expr.go: what the
    expressions compute with. A [value] is what a decoded YAML document holds
    ([any] in Go); the operators [evaluateOverrideBinary], the comparisons, the
    merge, flatten, unique and clone functions are on it.

    - A Go map is a list of entries in the order of its keys: the only orders
      the code shows are sorted ones, and where it ranges over a map in Go's
      random order the rounds do not depend on each other.
    - [VInt] is a Go integer. YAML decodes a number to [int] when it fits and to
      [uint64] above, so the Go type is a function of the number.
    - [VFloat] is a float64, in the standard library's [SpecFloat] with the
      parameters of binary64; integers are converted to it as the code does.
    - [VNoMatch] is the marker [overrideNoMatch] of an absent result, which the
      code passes around as a value.

    The file is about trees: two values do not share structure. *)
From Stdlib Require Import SpecFloat.
From S2P Require Import Prelude GoStrings GoFloat NetIP.

Inductive value : Type :=
| VNull
| VBool (b : bool)
| VStr (s : str)
| VInt (n : Z)
| VFloat (f : spec_float)
| VSeq (l : list value)
| VMap (m : list (str * value))
| VNoMatch.

(** ** Parameters *)

(** What the expressions use of packages outside the repository: how fmt prints
    a float64 and, under [%s], a value that is not a string, [strconv.ParseFloat], the conversion of a float64 outside the
    range of [int] (left to the implementation by the language), the YAML
    encoder, regular expressions, Unicode case mapping and
    [sort.SliceStable]. *)
Class OverrideEnv := {
  sprint_float : spec_float → str;
  sprintf_bad : value → str;
  ParseFloat : str → option spec_float;
  int_out_of_range : spec_float → Z;
  yaml_Marshal : value → result str;
  regex : Type;
  regexp_Compile : str → option regex;
  MatchString : regex → str → bool;
  ReplaceAllString : regex → str → str → str;
  unicode_upper : str → str;
  unicode_lower : str → str;
  sort_stable : ∀ {A}, (A → A → bool) → list A → list A
}.

(** [less] orders the elements of [l] into classes of equal elements. *)
Definition strict_weak_on {A} (less : A → A → bool) (l : list A) : Prop :=
  (∀ x y, x ∈ l → y ∈ l → less x y = true → less y x = false) ∧
  (∀ x y z, x ∈ l → y ∈ l → z ∈ l → less y x = false → less z y = false → less z x = false).
Definition same_class {A} (less : A → A → bool) (x y : A) : bool := negb (less x y) && negb (less y x).

(** Their documented behaviour, as far as a theorem needs it: the encoder
    returns; a stable sort rearranges, and for a strict weak order sorts and keeps the
    order of equal elements; a hexadecimal floating-point number must have a
    binary exponent. *)
Class OverrideLaws `{OverrideEnv} := {
  yaml_Marshal_returns : ∀ v, yaml_Marshal v ≠ Panic;
  sort_stable_perm : ∀ {A} (less : A → A → bool) l, sort_stable less l ≡ₚ l;
  sort_stable_sorted : ∀ {A} (less : A → A → bool) l, strict_weak_on less l →
    StronglySorted (λ x y, less y x = false) (sort_stable less l);
  sort_stable_stable : ∀ {A} (less : A → A → bool) l x, strict_weak_on less l → x ∈ l →
    List.filter (same_class less x) (sort_stable less l) = List.filter (same_class less x) l;
  ParseFloat_hex : ∀ s, (lit "0x" `prefix_of` s ∨ lit "0X" `prefix_of` s) →
    "p"%char ∉ s → "P"%char ∉ s → ParseFloat s = None
}.

(** ** Maps with sorted keys *)

Fixpoint map_get {A} (k : str) (m : list (str * A)) : option A :=
  match m with
  | [] => None
  | (k', v) :: m' => if decide (k = k') then Some v else map_get k m'
  end.

(** [m[k] = v] *)
Fixpoint map_set {A} (k : str) (v : A) (m : list (str * A)) : list (str * A) :=
  match m with
  | [] => [(k, v)]
  | (k', v') :: m' =>
    if decide (k = k') then (k, v) :: m'
    else if str_ltb k k' then (k, v) :: m
    else (k', v') :: map_set k v m'
  end.

(** [m[k]] of a map of values: [nil] for an absent key. *)
Definition map_at (k : str) (m : list (str * value)) : value := default VNull (map_get k m).

(** ** Numbers *)

Section values.
Context `{OverrideEnv}.

(** [int(f)] *)
Definition int_of_float (f : spec_float) : Z :=
  match f with
  | S754_zero _ => 0
  | S754_finite s m e =>
    let n := float_trunc s m e in if in_int64 n then n else int_out_of_range f
  | _ => int_out_of_range f
  end.

(** The number of a value and whether its Go type is an integer type. *)
Definition overrideNumber (v : value) : option (spec_float * bool) :=
  match v with
  | VInt n => Some (float_of_int n, true)
  | VFloat f => Some (f, false)
  | _ => None
  end.

Definition isOverrideScalar (v : value) : bool :=
  match v with
  | VNull | VBool _ | VStr _ => true
  | _ => bool_decide (is_Some (overrideNumber v))
  end.

Definition overrideTruthy (v : value) : bool :=
  match v with VNull => false | VBool b => b | _ => true end.

Definition isOverrideNoMatch (v : value) : bool := match v with VNoMatch => true | _ => false end.

Definition overrideType (v : value) : str :=
  match v with
  | VNull => lit "!!null" | VBool _ => lit "!!bool" | VStr _ => lit "!!str"
  | VSeq _ => lit "!!seq" | VMap _ => lit "!!map" | VFloat _ => lit "!!float"
  | VInt _ => lit "!!int" | VNoMatch => lit "provider.overrideNoMatch"
  end.

(** [fmt.Sprint] of the values it is used on. *)
Definition Sprint (v : value) : str :=
  match v with
  | VNull => lit "<nil>"
  | VBool b => if b then lit "true" else lit "false"
  | VStr s => s
  | VInt n => format_int n
  | VFloat f => sprint_float f
  | VNoMatch => lit "{}"
  | VSeq _ | VMap _ => []
  end.

(** ** Clone, equality and containment *)

Fixpoint cloneOverrideValue (v : value) : value :=
  match v with
  | VMap m => VMap ((fix go (m : list (str * value)) := match m with
                     | [] => []
                     | (k, x) :: m' => (k, cloneOverrideValue x) :: go m'
                     end) m)
  | VSeq l => VSeq ((fix go (l : list value) := match l with
                     | [] => []
                     | x :: l' => cloneOverrideValue x :: go l'
                     end) l)
  | _ => v
  end.

(** [reflect.DeepEqual]: values of the same type; floats by [==]. *)
Fixpoint DeepEqual (a b : value) : bool :=
  match a, b with
  | VNull, VNull | VNoMatch, VNoMatch => true
  | VBool x, VBool y => Bool.eqb x y
  | VStr s, VStr t => bool_decide (s = t)
  | VInt n, VInt k => (n =? k)%Z
  | VFloat f, VFloat g => SFeqb f g
  | VSeq l, VSeq k =>
    (fix go (l k : list value) := match l, k with
     | [], [] => true
     | x :: l', y :: k' => DeepEqual x y && go l' k'
     | _, _ => false
     end) l k
  | VMap m, VMap n =>
    (length m =? length n)%nat &&
    (fix go (m : list (str * value)) := match m with
     | [] => true
     | (k, x) :: m' => (match map_get k n with Some y => DeepEqual x y | None => false end) && go m'
     end) m
  | _, _ => false
  end.

Definition overrideEqual (left right : value) : bool :=
  match overrideNumber left with
  | Some (x, xi) =>
    match overrideNumber right with
    | Some (y, yi) => Bool.eqb xi yi && SFeqb x y
    | None => false
    end
  | None => DeepEqual left right
  end.

Definition overrideYQEqual (left right : value) : bool :=
  if negb (isOverrideScalar left) || negb (isOverrideScalar right) then false
  else match left, right with
  | VNull, VNull => true
  | VNull, _ | _, VNull => false
  | _, _ =>
    match overrideNumber left, overrideNumber right with
    | Some (x, xi), Some (y, yi) => Bool.eqb xi yi && SFeqb x y
    | _, _ => bool_decide (Sprint left = Sprint right)
    end
  end.

Fixpoint overrideContains (container contained : value) : bool :=
  match container with
  | VStr s => match contained with VStr t => str_contains s t | _ => false end
  | VSeq l =>
    let values := match contained with VSeq k => k | _ => [contained] end in
    forallb (λ wanted, existsb (λ candidate,
      overrideEqual candidate wanted || overrideContains candidate wanted) l) values
  | VMap m =>
    match contained with
    | VMap n => forallb (λ '(key, wanted),
        (fix at_key (m : list (str * value)) := match m with
         | [] => false
         | (k, candidate) :: m' =>
           if decide (key = k) then overrideEqual candidate wanted || overrideContains candidate wanted
           else at_key m'
         end) m) n
    | _ => false
    end
  | _ => false
  end.

(** ** Comparison *)

(** [strings.Compare] *)
Definition str_compare (s t : str) : Z :=
  if decide (s = t) then 0 else if str_ltb s t then -1 else 1.

Definition compareOverrideValues (left right : value) : result Z :=
  match overrideNumber left with
  | Some (x, _) =>
    match overrideNumber right with
    | Some (y, _) => Ok (if SFltb x y then -1 else if SFltb y x then 1 else 0)%Z
    | None => Err "cannot compare number"
    end
  | None =>
    match left, right with
    | VStr s, VStr t => Ok (str_compare s t)
    | _, _ => Err "cannot compare"
    end
  end.

(** The order of types in [sort]. *)
Definition sort_rank (v : value) : Z :=
  match v with
  | VNull => 0 | VBool _ => 1 | VInt _ | VFloat _ => 2 | VStr _ => 3 | _ => 4
  end.

Definition compareOverrideSortValues (left right : value) : result Z :=
  let l := sort_rank left in
  let r := sort_rank right in
  if negb (l =? r)%Z then Ok (if (l <? r)%Z then -1 else 1)%Z
  else match left, right with
  | VNull, _ => Ok 0%Z
  | VBool a, VBool b => Ok (if Bool.eqb a b then 0 else if negb a then -1 else 1)%Z
  | (VInt _ | VFloat _ | VStr _), _ => compareOverrideValues left right
  | _, _ => Err "sort only supports scalar array values in override-expr"
  end.

(** ** Merge, flatten, unique *)

Fixpoint mergeOverrideValues (lv rv : value) : value :=
  match lv, rv with
  | VMap m, VMap n =>
    VMap ((fix go (n : list (str * value)) (res : list (str * value)) := match n with
           | [] => res
           | (key, rightValue) :: n' =>
             let merged := match map_get key res with
                           | Some (VMap lm) =>
                             match rightValue with
                             | VMap _ => mergeOverrideValues (VMap lm) rightValue
                             | _ => cloneOverrideValue rightValue
                             end
                           | _ => cloneOverrideValue rightValue
                           end in
             go n' (map_set key merged res)
           end) n (match cloneOverrideValue (VMap m) with VMap c => c | _ => [] end))
  | _, _ => cloneOverrideValue rv
  end.

Definition mergeOverrideMaps (left right : list (str * value)) : value :=
  mergeOverrideValues (VMap left) (VMap right).

(** One value of the loop of [flattenOverrideArray]; a negative depth is no
    limit. *)
Fixpoint flatten_value (v : value) (depth : Z) : list value :=
  match v with
  | VSeq children =>
    if (depth =? 0)%Z then [cloneOverrideValue v]
    else (fix go (l : list value) := match l with
          | [] => []
          | x :: l' => flatten_value x (if (0 <? depth)%Z then depth - 1 else depth) ++ go l'
          end) children
  | _ => [cloneOverrideValue v]
  end.
Definition flattenOverrideArray (values : list value) (depth : Z) : list value :=
  values ≫= λ v, flatten_value v depth.

Definition overrideUniqueKey (v : value) : result str :=
  if isOverrideScalar v then
    match v with VNull => Ok (lit "null") | _ => Ok (Sprint v) end
  else yaml_Marshal v.

(** The loop of [unique]: a value is kept when its key was not seen. *)
Fixpoint unique_values (seen : list str) (l : list value) : result (list value) :=
  match l with
  | [] => Ok []
  | v :: l' =>
    key ← overrideUniqueKey v;
    if decide (key ∈ seen) then unique_values seen l'
    else rest ← unique_values (key :: seen) l'; Ok (cloneOverrideValue v :: rest)
  end.

(** ** Operators *)

Inductive binop :=
| OpAnd | OpOr | OpAlt | OpEq | OpNe | OpLt | OpLe | OpGt | OpGe
| OpAdd | OpSub | OpMul | OpDiv | OpMod.

#[export] Instance binop_eq_dec : EqDecision binop.
Proof. solve_decision. Defined.

(** Both operands are converted to float64; two integers are converted back and
    computed on as [int], with its wrap-around. *)
Definition evaluateOverrideNumbers (op : binop) (left right : value) : result value :=
  match overrideNumber left, overrideNumber right with
  | Some (x, xi), Some (y, yi) =>
    let ints := xi && yi in
    let a := int_of_float x in
    let b := int_of_float y in
    match op with
    | OpAdd => Ok (if ints then VInt (wrap int64 (a + b)) else VFloat (f64_add x y))
    | OpSub => Ok (if ints then VInt (wrap int64 (a - b)) else VFloat (f64_sub x y))
    | OpMul => Ok (if ints then VInt (wrap int64 (a * b)) else VFloat (f64_mul x y))
    | OpDiv => Ok (VFloat (f64_div x y))
    | OpMod =>
      if ints then
        if SFeqb y (S754_zero false) then Err "cannot modulo by zero"
        else if (b =? 0)%Z then Panic
        else Ok (VInt (wrap int64 (Z.rem a b)))
      else Ok (VFloat (f64_mod x y))
    | _ => Err "unsupported numeric operator"
    end
  | _, _ => Err "operator cannot be used with these types"
  end.

(** [strings.Repeat] guarded as in both branches of [*]. *)
Definition repeat_string (s : str) (count : value) : result value :=
  match overrideNumber count with
  | Some (c, true) =>
    if SFltb c (S754_zero false) then Err "string multiplier must be a non-negative integer"
    else if SFltb (float_of_int 10000000) c then Err "string multiplier cannot exceed 10 million"
    else Ok (VStr (concat (repeat s (Z.to_nat (int_of_float c)))))
  | _ => Err "string multiplier must be a non-negative integer"
  end.

Definition compare_op (op : binop) (left right : value) : result value :=
  if negb (isOverrideScalar left) || negb (isOverrideScalar right) then Err "cannot compare"
  else match left, right with
  | VNull, VNull => Ok (VBool (bool_decide (op = OpLe) || bool_decide (op = OpGe)))
  | VNull, _ | _, VNull => Ok (VBool false)
  | _, _ =>
    comparison ← compareOverrideValues left right;
    Ok (VBool match op with
              | OpLt => (comparison <? 0)%Z
              | OpLe => (comparison <=? 0)%Z
              | OpGt => (comparison >? 0)%Z
              | _ => (comparison >=? 0)%Z
              end)
  end.

Definition add_op (left right : value) : result value :=
  match left with
  | VNull => Ok (cloneOverrideValue right)
  | VStr s =>
    match right with
    | VNull => Ok (VStr s)
    | _ => if isOverrideScalar right then Ok (VStr (s ++ Sprint right)) else Err "cannot add string"
    end
  | VSeq l =>
    match right with
    | VNull => Ok (VSeq l)
    | VSeq _ => match cloneOverrideValue right with VSeq k => Ok (VSeq (l ++ k)) | _ => Panic end
    | _ => Ok (VSeq (l ++ [cloneOverrideValue right]))
    end
  | VMap m =>
    match right with
    | VMap n =>
      match cloneOverrideValue left with
      | VMap c => Ok (VMap (foldl (λ res '(key, v), map_set key (cloneOverrideValue v) res) c n))
      | _ => Panic
      end
    | _ => Err "cannot add mapping"
    end
  | _ =>
    match right with
    | VStr t => if isOverrideScalar left then Ok (VStr (Sprint left ++ t))
                else evaluateOverrideNumbers OpAdd left right
    | _ => evaluateOverrideNumbers OpAdd left right
    end
  end.

Definition sub_op (left right : value) : result value :=
  match left with
  | VNull => Ok (cloneOverrideValue right)
  | VSeq l =>
    match right with
    | VSeq k => Ok (VSeq (List.filter (λ item, negb (existsb (overrideEqual item) k)) l))
    | _ => Err "cannot be subtracted from !!seq"
    end
  | _ => evaluateOverrideNumbers OpSub left right
  end.

Definition mul_op (left right : value) : result value :=
  match left, right with
  | _, VNull => Ok (cloneOverrideValue left)
  | VNull, (VSeq _ | VMap _) => Ok (cloneOverrideValue right)
  | VMap m, VMap n => Ok (mergeOverrideMaps m n)
  | VMap _, _ => Err "cannot multiply mapping"
  | VSeq _, VSeq _ => Ok (cloneOverrideValue right)
  | VStr s, _ => repeat_string s right
  | _, VStr t => repeat_string t left
  | _, _ => evaluateOverrideNumbers OpMul left right
  end.

Definition div_op (left right : value) : result value :=
  match left with
  | VStr s =>
    match right with
    | VStr t => if decide (s = []) then Ok (VSeq []) else Ok (VSeq (VStr <$> Split s t))
    | _ => Err "operator / cannot be used with !!str"
    end
  | _ => evaluateOverrideNumbers OpDiv left right
  end.

Definition evaluateOverrideBinary (op : binop) (left right : value) : result value :=
  match op with
  | OpAnd => Ok (VBool (overrideTruthy left && overrideTruthy right))
  | OpOr => Ok (VBool (overrideTruthy left || overrideTruthy right))
  | OpAlt => Ok (if overrideTruthy left then left else right)
  | OpEq => Ok (VBool (overrideYQEqual left right))
  | OpNe => Ok (VBool (negb (overrideYQEqual left right)))
  | OpLt | OpLe | OpGt | OpGe => compare_op op left right
  | OpAdd => add_op left right
  | OpSub => sub_op left right
  | OpMul => mul_op left right
  | OpDiv => div_op left right
  | OpMod => evaluateOverrideNumbers OpMod left right
  end.
End values.

(** ** Facts *)

(** Induction on values with the hypothesis for every element and entry. *)
Lemma value_ind' (P : value → Prop) :
  P VNull → (∀ b, P (VBool b)) → (∀ s, P (VStr s)) → (∀ n, P (VInt n)) → (∀ f, P (VFloat f)) →
  (∀ l, Forall P l → P (VSeq l)) → (∀ m, Forall (λ kv, P kv.2) m → P (VMap m)) → P VNoMatch →
  ∀ v, P v.
Proof.
  intros Hnull Hb Hs Hn Hf Hseq Hmap Hnm. fix IH 1.
  intros [|b|s|n|f|l|m|]; [exact Hnull|exact (Hb b)|exact (Hs s)|exact (Hn n)|exact (Hf f)|..|exact Hnm].
  - apply Hseq. induction l as [|x l IHl]; constructor; [apply IH|exact IHl].
  - apply Hmap. induction m as [|[k x] m IHm]; constructor; [apply IH|exact IHm].
Qed.

(** On trees a clone is the value itself. *)
Lemma clone_id v : cloneOverrideValue v = v.
Proof.
  induction v as [| | | | |l IH|m IH|] using value_ind'; simpl; [done..| | |done].
  - f_equal. induction IH as [|x l Hx _ IHl]; [done|]. by rewrite Hx, IHl.
  - f_equal. induction IH as [|[k x] m Hx _ IHm]; [done|]. simpl in Hx. by rewrite Hx, IHm.
Qed.
#[export] Hint Rewrite clone_id : go.

(** *** The order of strings *)

Lemma str_ltb_total s t : s = t ∨ str_ltb s t = true ∨ str_ltb t s = true.
Proof.
  revert t. induction s as [|c s IH]; intros [|d t]; simpl; auto.
  destruct (decide (c = d)) as [->|Hne]; [rewrite decide_True by done|rewrite decide_False by done].
  - destruct (IH t) as [->|[?|?]]; auto.
  - right. rewrite !Z.ltb_lt. assert (byteZ c ≠ byteZ d) by (intros ?%byteZ_inj; done). lia.
Qed.

Lemma str_ltb_trans s t u : str_ltb s t = true → str_ltb t u = true → str_ltb s u = true.
Proof.
  intros H1 H2. destruct (str_ltb s u) eqn:E; [done|].
  pose proof (str_ltb_asym _ _ H1) as H1'. pose proof (str_ltb_asym _ _ H2) as H2'.
  pose proof (str_ltb_negtrans _ _ _ E H1'). 
  pose proof (str_ltb_negtrans u s t). congruence.
Qed.

Lemma str_ltb_ne s t : str_ltb s t = true → s ≠ t.
Proof. intros Hs ->. by rewrite str_ltb_irrefl in Hs. Qed.

(** *** Sorted entries *)

Definition str_lt (s t : str) : Prop := str_ltb s t = true.
Abbreviation sorted_map m := (StronglySorted str_lt (fst <$> m)).

Lemma map_get_set_eq {A} k (v : A) m : map_get k (map_set k v m) = Some v.
Proof.
  induction m as [|[k' v'] m IH]; simpl; [by rewrite decide_True|].
  destruct (decide (k = k')); simpl; [by rewrite decide_True|].
  destruct (str_ltb k k'); simpl; [by rewrite decide_True|]. by rewrite decide_False.
Qed.

Lemma map_get_set_ne {A} k k' (v : A) m : k ≠ k' → map_get k (map_set k' v m) = map_get k m.
Proof.
  intros Hk. induction m as [|[k1 v1] m IH]; simpl; [by rewrite decide_False|].
  destruct (decide (k' = k1)) as [->|]; simpl; [by rewrite !decide_False|].
  destruct (str_ltb k' k1); simpl; [by rewrite (decide_False (P := k = k'))|]. by rewrite IH.
Qed.

Lemma override_map_get_None {A} k (m : list (str * A)) : map_get k m = None ↔ k ∉ m.*1.
Proof.
  induction m as [|[k' v] m IH]; simpl; [set_solver|]. destruct (decide (k = k')); set_solver.
Qed.

Lemma override_map_get_elem {A} k (v : A) m : map_get k m = Some v → (k, v) ∈ m.
Proof.
  induction m as [|[k' v'] m IH]; simpl; [done|]. destruct (decide (k = k')); intros; simplify_eq; set_solver.
Qed.

Lemma elem_map_get {A} k (v : A) (m : list (str * A)) : sorted_map m → (k, v) ∈ m → map_get k m = Some v.
Proof.
  induction m as [|[k' v'] m IH]; simpl; [set_solver|]. intros [Hs Hk]%StronglySorted_inv.
  intros [[= <- <-]|Hin]%elem_of_cons; [by rewrite decide_True|].
  rewrite decide_False; [auto|]. intros ->. rewrite Forall_forall in Hk.
  assert (str_lt k' k') as Hl; [|by apply str_ltb_ne in Hl].
  apply Hk. apply list_elem_of_fmap. by exists (k', v).
Qed.

Lemma override_map_set_keys {A} k (v : A) m x : x ∈ (map_set k v m).*1 → x = k ∨ x ∈ m.*1.
Proof.
  induction m as [|[k' v'] m IH]; simpl; [set_solver|].
  destruct (decide (k = k')); simpl; [set_solver|]. destruct (str_ltb k k'); simpl; set_solver.
Qed.

Lemma sorted_map_set {A} k (v : A) m : sorted_map m → sorted_map (map_set k v m).
Proof.
  induction m as [|[k' v'] m IH]; simpl; intros Hs; [by repeat constructor|].
  pose proof Hs as [Hm Hk]%StronglySorted_inv.
  destruct (decide (k = k')) as [->|Hne]; simpl; [done|].
  destruct (str_ltb k k') eqn:E; simpl.
  - constructor; [done|]. constructor; [done|].
    eapply Forall_impl; [exact Hk|]. intros x. apply str_ltb_trans, E.
  - constructor; [auto|]. apply Forall_forall. intros x [->|Hx]%override_map_set_keys.
    + destruct (str_ltb_total k k') as [?|[?|?]]; congruence.
    + rewrite Forall_forall in Hk. auto.
Qed.

(** Two sorted maps with the same lookups are the same list. *)
Lemma map_ext {A} (m n : list (str * A)) : sorted_map m → sorted_map n →
  (∀ k, map_get k m = map_get k n) → m = n.
Proof.
  revert n. induction m as [|[k v] m IH]; intros [|[k' v'] n] Hm Hn He; [done|..].
  { specialize (He k'). simpl in He. by rewrite decide_True in He. }
  { specialize (He k). simpl in He. by rewrite decide_True in He. }
  simpl in *. apply StronglySorted_inv in Hm as [Hm Hk], Hn as [Hn Hk'].
  assert (∀ x (l : list (str * A)), Forall (str_lt x) l.*1 → map_get x l = None) as Hnone.
  { intros x l Hl. apply override_map_get_None. intros Hx. rewrite Forall_forall in Hl. by apply Hl, str_ltb_ne in Hx. }
  assert (k = k') as ->.
  { destruct (str_ltb_total k k') as [?|[Hlt|Hlt]]; [done|exfalso..].
    - pose proof (He k) as Hx. rewrite decide_True, decide_False in Hx by (done || by apply str_ltb_ne).
      symmetry in Hx. apply override_map_get_elem in Hx. apply (list_elem_of_fmap_2 fst) in Hx. simpl in Hx.
      rewrite Forall_forall in Hk'. apply Hk' in Hx. by apply str_ltb_asym in Hx; unfold str_lt in *; congruence.
    - pose proof (He k') as Hx. rewrite (decide_True (P := k' = k')), decide_False in Hx by (done || by apply str_ltb_ne).
      apply override_map_get_elem in Hx. apply (list_elem_of_fmap_2 fst) in Hx. simpl in Hx.
      rewrite Forall_forall in Hk. apply Hk in Hx. by apply str_ltb_asym in Hx; unfold str_lt in *; congruence. }
  pose proof (He k') as Hx. rewrite !decide_True in Hx by done. simplify_eq. f_equal.
  apply IH; [done..|]. intros x. specialize (He x). destruct (decide (x = k')) as [->|]; [|done].
  by rewrite !Hnone.
Qed.

Lemma map_set_id {A} k (v : A) m : sorted_map m → map_get k m = Some v → map_set k v m = m.
Proof.
  intros Hs Hg. apply map_ext; [by apply sorted_map_set|done|]. intros x.
  destruct (decide (x = k)) as [->|]; [by rewrite map_get_set_eq|by apply map_get_set_ne].
Qed.

Lemma Forall_map_set {A} (P : A → Prop) k v (m : list (str * A)) :
  P v → Forall (λ kv, P kv.2) m → Forall (λ kv, P kv.2) (map_set k v m).
Proof.
  intros Hv. induction 1 as [|[k' v'] m Hx Hm IH]; simpl; [by constructor|].
  destruct (decide (k = k')); [by constructor|]. destruct (str_ltb k k'); by repeat constructor.
Qed.

(** *** Well-formed values *)

(** Keys are sorted and distinct, which is what makes a list of entries stand
    for one Go map; without [nm] the marker of an absent result does not occur. *)
Fixpoint wf_value (nm : bool) (v : value) : Prop :=
  match v with
  | VNoMatch => nm = true
  | VSeq l => (fix go (l : list value) := match l with
               | [] => True
               | x :: l' => wf_value nm x ∧ go l'
               end) l
  | VMap m => sorted_map m ∧ (fix go (m : list (str * value)) := match m with
                              | [] => True
                              | (_, x) :: m' => wf_value nm x ∧ go m'
                              end) m
  | _ => True
  end.

Lemma wf_seq nm l : wf_value nm (VSeq l) ↔ Forall (wf_value nm) l.
Proof.
  simpl. induction l as [|x l IH]; [by split; [constructor|]|].
  rewrite Forall_cons. tauto.
Qed.

Lemma wf_map nm m : wf_value nm (VMap m) ↔ sorted_map m ∧ Forall (λ kv, wf_value nm kv.2) m.
Proof.
  simpl. assert (∀ P Q R : Prop, (Q ↔ R) → (P ∧ Q ↔ P ∧ R)) as Hand by tauto. apply Hand. clear.
  induction m as [|[k x] m IH]; [by split; [constructor|]|]. rewrite Forall_cons. simpl. tauto.
Qed.

Lemma wf_map_get nm m k v : wf_value nm (VMap m) → map_get k m = Some v → wf_value nm v.
Proof.
  intros [_ Hm]%wf_map Hk%override_map_get_elem. rewrite Forall_forall in Hm. by apply (Hm (k, v)).
Qed.

Lemma wf_map_at nm m k : wf_value nm (VMap m) → wf_value nm (map_at k m).
Proof.
  intros Hm. unfold map_at. destruct (map_get k m) eqn:E; simpl; [by eapply wf_map_get|done].
Qed.

Lemma wf_map_set nm m k v : wf_value nm (VMap m) → wf_value nm v → wf_value nm (VMap (map_set k v m)).
Proof.
  rewrite !wf_map. intros [Hs Hm] Hv. split; [by apply sorted_map_set|by apply Forall_map_set].
Qed.

Lemma wf_seq_lookup nm l i v : wf_value nm (VSeq l) → l !! i = Some v → wf_value nm v.
Proof. intros Hl%wf_seq Hi. by eapply Forall_lookup. Qed.

#[export] Hint Resolve wf_map_get wf_map_at wf_map_set wf_seq_lookup : go.

(** ** A concrete environment *)

(** Insertion sort, which [sort.SliceStable] is on short slices. *)
Fixpoint insert_stable {A} (less : A → A → bool) (x : A) (l : list A) : list A :=
  match l with
  | [] => [x]
  | y :: l' => if less x y then x :: l else y :: insert_stable less x l'
  end.
Definition insertion_sort {A} (less : A → A → bool) (l : list A) : list A :=
  foldl (λ acc x, insert_stable less x acc) [] l.

Lemma insert_stable_perm {A} (less : A → A → bool) x l : insert_stable less x l ≡ₚ x :: l.
Proof.
  induction l as [|y l IH]; simpl; [done|]. destruct (less x y); [done|].
  rewrite IH. apply Permutation_swap.
Qed.

Lemma insertion_sort_snoc {A} (less : A → A → bool) l x :
  insertion_sort less (l ++ [x]) = insert_stable less x (insertion_sort less l).
Proof. unfold insertion_sort. by rewrite foldl_app. Qed.

Lemma insertion_sort_perm {A} (less : A → A → bool) l : insertion_sort less l ≡ₚ l.
Proof.
  induction l as [|x l IH] using rev_ind; [done|].
  rewrite insertion_sort_snoc, insert_stable_perm, IH. apply Permutation_cons_append.
Qed.

Lemma strict_weak_on_incl {A} (less : A → A → bool) l k :
  (∀ y, y ∈ k → y ∈ l) → strict_weak_on less l → strict_weak_on less k.
Proof. intros Hin [H1 H2]. split; [intros x y ??; apply H1|intros x y z ???; apply H2]; auto. Qed.

Lemma insert_stable_sorted {A} (less : A → A → bool) x l : strict_weak_on less (x :: l) →
  StronglySorted (λ x y, less y x = false) l → StronglySorted (λ x y, less y x = false) (insert_stable less x l).
Proof.
  intros Hw. induction 1 as [|y l Hl IH Hy]; simpl; [by repeat constructor|].
  destruct Hw as [Hasym Htr]. destruct (less x y) eqn:E.
  - constructor; [by constructor|]. assert (less y x = false) as Hyx by (apply Hasym; set_solver).
    constructor; [done|]. apply Forall_forall. intros z Hz. rewrite Forall_forall in Hy.
    apply (Htr x y z); set_solver.
  - constructor.
    + apply IH. eapply strict_weak_on_incl; [|by split]. set_solver.
    + apply Forall_forall. intros z Hz. rewrite insert_stable_perm in Hz.
      apply elem_of_cons in Hz as [->|Hz]; [done|]. rewrite Forall_forall in Hy. auto.
Qed.

Lemma insertion_sort_sorted {A} (less : A → A → bool) l : strict_weak_on less l →
  StronglySorted (λ x y, less y x = false) (insertion_sort less l).
Proof.
  induction l as [|x l IH] using rev_ind; intros Hw; [constructor|].
  rewrite insertion_sort_snoc. apply insert_stable_sorted; [|apply IH; eapply strict_weak_on_incl; [|exact Hw]; set_solver].
  assert (∀ y, y ∈ x :: insertion_sort less l → y ∈ l ++ [x]) as Hin
    by (intros y; rewrite insertion_sort_perm; set_solver).
  by eapply strict_weak_on_incl.
Qed.

Lemma insert_stable_class {A} (less : A → A → bool) x l z : strict_weak_on less (z :: x :: l) →
  StronglySorted (λ x y, less y x = false) l →
  List.filter (same_class less z) (insert_stable less x l) =
  List.filter (same_class less z) l ++ List.filter (same_class less z) [x].
Proof.
  intros Hw. induction 1 as [|y l Hl IH Hy]; [done|].
  assert (strict_weak_on less (z :: x :: l)) as Hw'
    by (eapply strict_weak_on_incl; [|exact Hw]; set_solver).
  cbn [insert_stable]. destruct (less x y) eqn:E.
  - destruct (same_class less z x) eqn:Ez; cbn [List.filter]; rewrite Ez; [|by rewrite app_nil_r].
    assert (∀ w, w ∈ y :: l → same_class less z w = false) as Hnone.
    { intros w Hw2. unfold same_class in *. destruct Hw as [Hasym Htr].
      apply andb_true_iff in Ez as [Ez1 Ez2]. apply negb_true_iff in Ez1, Ez2.
      assert (less w y = false) as Hwy.
      { apply elem_of_cons in Hw2 as [->|Hw2]; [|rewrite Forall_forall in Hy; by apply Hy].
        destruct (less y y) eqn:E2; [|done]. rewrite <- E2. apply Hasym; set_solver. }
      destruct (less z w) eqn:Ezw; [done|]. simpl.
      exfalso. assert (less x y = false); [|congruence].
      apply (Htr y w x); [set_solver..|done|]. apply (Htr w z x); [set_solver..|done|done]. }
    rewrite (Hnone y) by left.
    assert (List.filter (same_class less z) l = []) as ->; [|done].
    clear -Hnone. induction l as [|w l IHl]; [done|]. simpl. rewrite (Hnone w) by set_solver.
    apply IHl. intros. apply Hnone. set_solver.
  - cbn [List.filter]. rewrite IH by done. by destruct (same_class less z y).
Qed.

Lemma insertion_sort_stable {A} (less : A → A → bool) l z : strict_weak_on less l → z ∈ l →
  List.filter (same_class less z) (insertion_sort less l) = List.filter (same_class less z) l.
Proof.
  intros Hw Hz. assert (∃ k, strict_weak_on less (l ++ k) ∧ z ∈ l ++ k) as (k & Hk & Hzk)
    by (exists []; by rewrite app_nil_r).
  clear Hw Hz. revert k Hk Hzk. induction l as [|x l IH] using rev_ind; intros k Hw Hz; [done|].
  rewrite insertion_sort_snoc, List.filter_app.
  assert (∀ y, y ∈ z :: x :: insertion_sort less l → y ∈ (l ++ [x]) ++ k) as Hin.
  { intros y [->|[->|Hy]%elem_of_cons]%elem_of_cons; [done|set_solver|].
    rewrite insertion_sort_perm in Hy. set_solver. }
  rewrite insert_stable_class.
  - f_equal. rewrite <- app_assoc in *. by apply (IH ([x] ++ k)).
  - by eapply strict_weak_on_incl.
  - apply insertion_sort_sorted. eapply strict_weak_on_incl; [|exact Hw]. set_solver.
Qed.

(** Numbers print as their integer part, regular expressions are literal
    strings, and documents print on one line. *)
Definition literal_env : OverrideEnv := {|
  sprint_float f := match f with S754_finite s m e => format_int (float_trunc s m e) | _ => lit "0" end;
  sprintf_bad v := lit "%!s(" ++ overrideType v ++ lit ")";
  ParseFloat s := if decide (s = lit "1.5") then Some (S754_finite false 6755399441055744 (-52)) else None;
  int_out_of_range _ := int_min int64;
  yaml_Marshal v := Ok (overrideType v);
  regex := str;
  regexp_Compile := Some;
  MatchString re s := str_contains s re;
  ReplaceAllString re s r := join r (Split s re);
  unicode_upper := id;
  unicode_lower := id;
  sort_stable := @insertion_sort
|}.

Definition literal_laws : @OverrideLaws literal_env.
Proof.
  split; simpl.
  - done.
  - intros. apply insertion_sort_perm.
  - intros. by apply insertion_sort_sorted.
  - intros. by apply insertion_sort_stable.
  - intros s Hs Hp HP. rewrite decide_False; [done|]. intros ->. by destruct Hs as [[k Hk]|[k Hk]].
Qed.

(** ** Integers through float64 *)

Lemma int_of_float_exact `{OverrideEnv} n f : (- 2 ^ 53 ≤ n ≤ 2 ^ 53)%Z → exact_float n f → int_of_float f = n.
Proof.
  intros Hn [[-> ->]|(s & m & e & -> & _ & He & Hv & Hs)]; [done|]. unfold int_of_float.
  rewrite (exact_float_trunc _ _ _ n) by done.
  assert (in_int64 n = true) as ->; [|done].
  unfold in_int64, in_z, int_min, int_max. simpl. rewrite !(proj2 (Z.leb_le _ _)); lia.
Qed.

Section exact.
Context `{OverrideEnv}.

(** Integers up to [2^53] in size are computed on exactly although the code
    goes through float64: sums, differences and products are those of [int]
    with its wrap-around, the remainder truncates and rejects zero, and
    equality and order are those of the numbers. *)
Theorem integer_arithmetic_exact (a b : Z) :
  (- 2 ^ 53 ≤ a ≤ 2 ^ 53)%Z → (- 2 ^ 53 ≤ b ≤ 2 ^ 53)%Z →
  evaluateOverrideBinary OpAdd (VInt a) (VInt b) = Ok (VInt (a + b)) ∧
  evaluateOverrideBinary OpSub (VInt a) (VInt b) = Ok (VInt (a - b)) ∧
  evaluateOverrideBinary OpMul (VInt a) (VInt b) = Ok (VInt (wrap int64 (a * b))) ∧
  evaluateOverrideBinary OpMod (VInt a) (VInt b) =
    (if (b =? 0)%Z then Err "cannot modulo by zero" else Ok (VInt (Z.rem a b))) ∧
  evaluateOverrideBinary OpEq (VInt a) (VInt b) = Ok (VBool (a =? b)%Z) ∧
  evaluateOverrideBinary OpLt (VInt a) (VInt b) = Ok (VBool (a <? b)%Z) ∧
  evaluateOverrideBinary OpLe (VInt a) (VInt b) = Ok (VBool (a <=? b)%Z).
Proof.
  intros Ha Hb. pose proof (float_of_int_exact a Ha) as Fa. pose proof (float_of_int_exact b Hb) as Fb.
  assert (in_int int64 (a + b) ∧ in_int int64 (a - b)) as [Hadd Hsub]
    by (unfold in_int, int_min, int_max; simpl; lia).
  assert (b ≠ 0%Z → in_int int64 (Z.rem a b)) as Hrem.
  { intros Hne. pose proof (Z.rem_bound_abs a b Hne). unfold in_int, int_min, int_max. simpl. lia. }
  pose proof (SFcompare_exact _ _ _ _ Fa Fb) as Hc. pose proof (SFcompare_exact _ _ _ _ Fb Fa) as Hc'.
  assert (SFcompare (float_of_int b) (S754_zero false) = Some (b ?= 0)%Z) as Hz
    by (apply SFcompare_exact; [done|by left]).
  cbn -[float_of_int wrap Z.mul Z.add Z.sub Z.rem]. unfold compare_op, compareOverrideValues, overrideYQEqual, evaluateOverrideNumbers.
  cbn -[float_of_int wrap Z.mul Z.add Z.sub Z.rem]. rewrite !(int_of_float_exact _ _ Ha Fa), !(int_of_float_exact _ _ Hb Fb).
  rewrite !wrap_id by done. unfold SFeqb, SFltb, SFleb. rewrite Hc, Hc', Hz.
  split_and!; try done.
  - destruct (Z.eqb_spec b 0) as [->|Hne]; [done|]. rewrite wrap_id by (by auto || done).
    destruct (Z.compare_spec b 0); [lia|done..].
  - do 2 f_equal. destruct (Z.compare_spec a b), (Z.eqb_spec a b); done || lia.
  - rewrite (Z.compare_antisym a b). unfold Z.ltb. by destruct (a ?= b)%Z.
  - rewrite (Z.compare_antisym a b). unfold Z.leb. by destruct (a ?= b)%Z.
Qed.
End exact.

(** Above [2^53] they are not: adding 0 to [2^53 + 1] changes it, and it is
    reported equal to [2^53]; nothing is rejected. *)
Theorem integer_arithmetic_inexact `{OverrideEnv} :
  evaluateOverrideBinary OpAdd (VInt 9007199254740993) (VInt 0) = Ok (VInt 9007199254740992) ∧
  evaluateOverrideBinary OpEq (VInt 9007199254740993) (VInt 9007199254740992) = Ok (VBool true).
Proof. by vm_compute. Qed.


Lemma integer_arithmetic_exact_witness :
  @evaluateOverrideBinary literal_env OpSub (VInt 7) (VInt 9007199254740992) = Ok (VInt (7 - 9007199254740992)).
Proof. apply (@integer_arithmetic_exact literal_env 7 9007199254740992); lia. Defined.

(** A remainder never divides by zero: a number other than 0 is other than 0
    after the trip through float64. *)
Lemma shr_fexp_exp m e l : (e ≤ (shr_fexp 53 1024 m e l).2)%Z.
Proof. unfold shr_fexp, shr. destruct (_ - e)%Z; simpl; lia. Qed.

Lemma binary_round_aux_exp s m e l s' m' e' :
  binary_round_aux 53 1024 s m e l = S754_finite s' m' e' → (e ≤ e')%Z.
Proof.
  unfold binary_round_aux. pose proof (shr_fexp_exp m e l) as H1.
  destruct (shr_fexp 53 1024 m e l) as [r1 e1]. simpl in H1.
  set (x := round_nearest_even _ _). pose proof (shr_fexp_exp x e1 loc_Exact) as H2.
  destruct (shr_fexp 53 1024 x e1 loc_Exact) as [r2 e2]. simpl in H2.
  destruct (shr_m r2); [done| |done]. destruct (Z.leb _ _); [|done]. intros [= _ _ <-]. lia.
Qed.

Lemma binary_round_exp s p s' m e : (2 ^ 53 < Zpos p)%Z →
  binary_round 53 1024 s p 0 = S754_finite s' m e → (0 ≤ e)%Z.
Proof.
  intros Hp. unfold binary_round, shl_align, fexp, emin.
  pose proof (digits2_pos_bounds p) as Hb.
  assert (53 < Zpos (digits2_pos p))%Z as Hd.
  { destruct (Z.le_gt_cases (Zpos (digits2_pos p)) 53); [|lia].
    pose proof (Z.pow_le_mono_r 2 (Zpos (digits2_pos p)) 53 ltac:(lia) ltac:(lia)). lia. }
  destruct (Z.max _ _ - 0)%Z eqn:E; [..|lia]; intros Hr%binary_round_aux_exp; lia.
Qed.

Lemma float_trunc_nonzero s m e : (0 ≤ e)%Z → float_trunc s m e ≠ 0%Z.
Proof.
  intros He. unfold float_trunc. rewrite (proj2 (Z.leb_le _ _)) by done.
  pose proof (Z.pow_pos_nonneg 2 e ltac:(lia) He). destruct s; lia.
Qed.

(** The number is outside the range of [int]. *)
Definition out_of_int (f : spec_float) : bool :=
  match f with S754_zero _ => false | S754_finite s m e => negb (in_int64 (float_trunc s m e)) | _ => true end.

(** The language leaves the conversion of such a number to the implementation; this
    says that it gives 0 for some of them. *)
Definition conversion_gives_zero `{OverrideEnv} : Prop := ∃ f, out_of_int f = true ∧ int_out_of_range f = 0%Z.

Lemma int_of_float_nonzero `{OverrideEnv} n : SFeqb (float_of_int n) (S754_zero false) = false →
  int_of_float (float_of_int n) ≠ 0%Z ∨ conversion_gives_zero.
Proof.
  intros Hz. destruct (decide (int_of_float (float_of_int n) = 0%Z)) as [E0|]; [right|by left].
  exists (float_of_int n). destruct (decide (- 2 ^ 53 ≤ n ≤ 2 ^ 53)%Z) as [Hn|Hn].
  - rewrite (int_of_float_exact n) in E0 by (done || by apply float_of_int_exact). by subst.
  - unfold int_of_float in E0. destruct (float_of_int n) as [s|s| |s m e] eqn:E; [by destruct s|done|done|].
    assert (0 ≤ e)%Z as He.
    { unfold float_of_int, binary_normalize in E. destruct n as [|p|p]; [lia|..];
        (eapply binary_round_exp; [|exact E]; lia). }
    cbn [out_of_int]. destruct (in_int64 _); [by apply float_trunc_nonzero in E0|done].
Qed.
