(* ===== verification/OverrideEval.v ===== *)
(** * OverrideEval: paths, streams and expressions

    The evaluation half of src/adapter/provider/override_expr.go: how a path is
    looked up, updated, deleted and expanded, and how an expression turns a
    value into a stream of values.

    - [expr] has one constructor per implementation of the interface
      [overrideValueExpr]. [evs e inputs] is [evalOverrideStreamInputs]; with one
      input it is [evalOverrideStream], and [single] of that is
      [evalOverrideSingle] and every [eval] method. The three interfaces of the
      code differ in one place only: a union runs each branch over all inputs.
    - Go's [error] of a path function is not modelled where no branch returns
      one (the segment kinds are exactly the three constructors).
    - Values are trees, so an update returns the new tree; the in-place updates
      of the code are on a tree that nothing else refers to. *)
From Stdlib Require Import SpecFloat.
From S2P Require Import Prelude GoStrings NetIP OverrideValue.

(** ** Loops *)

(** The results of [f] on each element, stopping at the first error. *)
Definition mapR {A B} (f : A → result B) : list A → result (list B) :=
  fix go l := match l with
  | [] => Ok []
  | x :: l' => y ← f x; ys ← go l'; Ok (y :: ys)
  end.

(** The same, appending streams. *)
Definition collect {A B} (f : A → result (list B)) : list A → result (list B) :=
  fix go l := match l with
  | [] => Ok []
  | x :: l' => ys ← f x; zs ← go l'; Ok (ys ++ zs)
  end.

(** A state through a list of stages. *)
Definition stagesR {A S} (f : A → S → result S) : list A → S → result S :=
  fix go l s := match l with
  | [] => Ok s
  | x :: l' => s' ← f x s; go l' s'
  end.

(** ** Paths *)

Inductive segment :=
| SField (key : str)
| SIndex (index : Z)
| SWild.
Abbreviation path := (list segment).

#[export] Instance segment_eq_dec : EqDecision segment.
Proof. solve_decision. Defined.

(** An index counted from the end when negative. *)
Definition resolve_index (index : Z) (len : nat) : Z :=
  if (index <? 0)%Z then (index + Z.of_nat len)%Z else index.

Definition nth_value (index : Z) (l : list value) : option value :=
  if (index <? 0)%Z then None else l !! Z.to_nat index.

Fixpoint lookupOverridePathStream (v : value) (p : path) : list value :=
  match p with
  | [] => [v]
  | SField key :: p' =>
    match v with
    | VMap m => lookupOverridePathStream (map_at key m) p'
    | _ => [VNull]
    end
  | SIndex index :: p' =>
    match v with
    | VSeq l =>
      match nth_value (resolve_index index (length l)) l with
      | Some x => lookupOverridePathStream x p'
      | None => [VNull]
      end
    | _ => [VNull]
    end
  | SWild :: p' =>
    match v with
    | VSeq l => l ≫= λ x, lookupOverridePathStream x p'
    | VMap m => m ≫= λ kv, lookupOverridePathStream kv.2 p'
    | _ => []
    end
  end.

(** Extend an array with [nil] until [index] is inside. *)
Definition pad_to (index : Z) (l : list value) : list value :=
  l ++ repeat VNull (Z.to_nat (index + 1) - length l).

Fixpoint updateOverridePath (node : value) (p : path) (updater : value → result value) : result value :=
  match p with
  | [] => updater node
  | SField key :: p' =>
    let node := match node with VNull => VMap [] | _ => node end in
    match node with
    | VMap m =>
      x ← updateOverridePath (map_at key m) p' updater;
      Ok (VMap (map_set key x m))
    | _ => Ok node
    end
  | SIndex index :: p' =>
    let node := match node with VNull => VSeq [] | _ => node end in
    match node with
    | VSeq l =>
      let i := resolve_index index (length l) in
      if (i <? 0)%Z then Err "array index is out of range"
      else
        let array := pad_to i l in
        x ← updateOverridePath (default VNull (array !! Z.to_nat i)) p' updater;
        Ok (VSeq (<[Z.to_nat i := x]> array))
    | _ => Ok node
    end
  | SWild :: p' =>
    match node with
    | VSeq l => l' ← mapR (λ x, updateOverridePath x p' updater) l; Ok (VSeq l')
    | VMap m => m' ← mapR (λ kv, x ← updateOverridePath kv.2 p' updater; Ok (kv.1, x)) m; Ok (VMap m')
    | _ => Ok node
    end
  end.

(** Does the segment select the entry with this key, the element at this index
    of an array of this length? *)
Definition matches_key (key : str) (s : segment) : bool :=
  match s with SWild => true | SField k => bool_decide (k = key) | SIndex _ => false end.
Definition matches_index (len idx : nat) (s : segment) : bool :=
  match s with
  | SWild => true
  | SIndex i => (resolve_index i len =? Z.of_nat idx)%Z
  | SField _ => false
  end.

(** What the paths delete of one child: all of it ([None]), or what the tails
    of the paths that go through it delete. *)
Fixpoint child_tails (matches : segment → bool) (paths : list path) : option (list path) :=
  match paths with
  | [] => Some []
  | [] :: ps => child_tails matches ps
  | (s :: tail) :: ps =>
    if matches s then
      match tail with
      | [] => None
      | _ => cons tail <$> child_tails matches ps
      end
    else child_tails matches ps
  end.

Fixpoint deleteOverridePaths (node : value) (paths : list path) : value :=
  match node with
  | VMap m =>
    VMap ((fix go (m : list (str * value)) := match m with
           | [] => []
           | (key, child) :: m' =>
             match child_tails (matches_key key) paths with
             | None => go m'
             | Some [] => (key, child) :: go m'
             | Some tails => (key, deleteOverridePaths child tails) :: go m'
             end
           end) m)
  | VSeq l =>
    let len := length l in
    VSeq ((fix go (idx : nat) (l : list value) := match l with
           | [] => []
           | child :: l' =>
             match child_tails (matches_index len idx) paths with
             | None => go (S idx) l'
             | Some [] => child :: go (S idx) l'
             | Some tails => deleteOverridePaths child tails :: go (S idx) l'
             end
           end) 0 l)
  | _ => node
  end.

(** *** Assignment targets *)

Record selection := Selection { sel_value : value; sel_path : path }.

Fixpoint expandOverrideTargetPath (s : selection) (p : path) : list selection :=
  match p with
  | [] => [s]
  | SField key :: p' =>
    match sel_value s with
    | VNull => expandOverrideTargetPath (Selection VNull (sel_path s ++ [SField key])) p'
    | VMap m => expandOverrideTargetPath (Selection (map_at key m) (sel_path s ++ [SField key])) p'
    | _ => []
    end
  | SIndex index :: p' =>
    match sel_value s with
    | VNull => expandOverrideTargetPath (Selection VNull (sel_path s ++ [SIndex index])) p'
    | VSeq l =>
      let i := resolve_index index (length l) in
      if (i <? 0)%Z then []
      else expandOverrideTargetPath (Selection (default VNull (l !! Z.to_nat i)) (sel_path s ++ [SIndex i])) p'
    | _ => []
    end
  | SWild :: p' =>
    match sel_value s with
    | VSeq l => imap (λ i x, Selection x (sel_path s ++ [SIndex (Z.of_nat i)])) l
                  ≫= λ s', expandOverrideTargetPath s' p'
    | VMap m => m ≫= λ kv, expandOverrideTargetPath (Selection kv.2 (sel_path s ++ [SField kv.1])) p'
    | _ => []
    end
  end.

(** ** Expressions *)

Inductive assign_op := AssignSet | AssignUpdate | AssignAdd | AssignSub | AssignMul.

Inductive fn :=
| Flength | Ftype | Fkeys | Fhas | Fcontains | Fselect | Fsub | Ftest | Fsplit | Fjoin
| Fupcase | Fdowncase | Ftrim | Ftostring | Ftonumber | Fnot | Freverse | Fsort | Funique
| Fflatten | Fany | Fall.
Inductive sfn :=
| Smap | Sfilter | Smap_values | Sto_entries | Sfrom_entries | Swith_entries | Sany_c | Sall_c.

Inductive expr :=
| EPipeline (stages : list expr)
| EUnion (values : list expr)
| ELiteral (v : value)
| EString (parts : list (str + expr))
| EPath (p : path)
| EArray (values : list expr)
| EMap (entries : list (str * expr))
| EUpdate (p : path) (operator : assign_op) (e : expr)
| EBinary (op : binop) (left right : expr)
| EFunction (name : fn) (args : list expr)
| EStreamFunction (name : sfn) (args : list expr).

(** ** Functions *)

(** [strconv.ParseInt(s, base, 64)]. *)
Definition digit_in (base : Z) (c : ascii) : option Z :=
  let b := byteZ c in
  let d := (if in_z 48 57 b then b - 48 else if in_z 97 122 b then b - 87
            else if in_z 65 90 b then b - 55 else base)%Z in
  if (d <? base)%Z then Some d else None.
Fixpoint digits_in (base acc : Z) (s : str) : option Z :=
  match s with
  | [] => Some acc
  | c :: s' => d ← digit_in base c; digits_in base (acc * base + d)%Z s'
  end.
Definition ParseInt (base : Z) (s : str) : option Z :=
  let neg := bool_decide (head s = Some "-"%char) in
  let body := if neg || bool_decide (head s = Some "+"%char) then tail s else s in
  if decide (body = []) then None
  else n ← digits_in base 0 body;
       if neg then if (n <=? 2 ^ 63)%Z then Some (- n)%Z else None
       else if (n <? 2 ^ 63)%Z then Some n else None.

(** [strings.TrimSuffix(s, newline)]. *)
Definition trim_newline (s : str) : str :=
  if decide (last s = Some (byte_of 10)) then take (length s - 1) s else s.

Definition has_prefix (p s : str) : bool := bool_decide (p `prefix_of` s).

Section functions.
Context `{OverrideEnv}.

(** The arguments are checked before the input: [args_n] is [argCount(n)]. *)
Definition args0 {A} (args : list value) (k : result A) : result A :=
  match args with [] => k | _ => Err "wrong number of arguments" end.
Definition args1 {A} (args : list value) (k : value → result A) : result A :=
  match args with [a] => k a | _ => Err "wrong number of arguments" end.
Definition args2 {A} (args : list value) (k : value → value → result A) : result A :=
  match args with [a; b] => k a b | _ => Err "wrong number of arguments" end.
Definition stringArg {A} (a : value) (k : str → result A) : result A :=
  match a with VStr s => k s | _ => Err "argument must be a string" end.
Definition arrayInput {A} (input : value) (k : list value → result A) : result A :=
  match input with VSeq l => k l | _ => Err "only supports arrays" end.
Definition stringInput {A} (input : value) (k : str → result A) : result A :=
  match input with VStr s => k s | _ => Err "requires string input" end.

Definition fn_select (input : value) (args : list value) : result value :=
  args1 args (λ a, Ok (if isOverrideNoMatch a || negb (overrideTruthy a) then VNoMatch else input)).

Definition fn_not (input : value) (args : list value) : result value :=
  args0 args (Ok (VBool (negb (overrideTruthy input)))).

Definition fn_reverse (input : value) (args : list value) : result value :=
  args0 args (arrayInput input (λ l, Ok (VSeq (rev l)))).

(** The sorting order, and when a comparison fails: two values that are neither
    null, booleans, numbers nor strings compare equal to each other and after
    everything else, so a sort compares two of them whenever there are two. *)
Definition sort_less (a b : value) : bool :=
  match compareOverrideSortValues a b with Ok c => (c <? 0)%Z | _ => false end.
Definition unsortable (l : list value) : bool :=
  (2 <=? length (List.filter (λ v, (sort_rank v =? 4)%Z) l))%nat.

Definition fn_sort (input : value) (args : list value) : result value :=
  args0 args (arrayInput input (λ l,
    if unsortable l then Err "sort only supports scalar array values in override-expr"
    else Ok (VSeq (sort_stable sort_less l)))).

Definition fn_unique (input : value) (args : list value) : result value :=
  args0 args (arrayInput input (λ l, r ← unique_values [] l; Ok (VSeq r))).

Definition fn_flatten (input : value) (args : list value) : result value :=
  match args with
  | [] => arrayInput input (λ l, Ok (VSeq (flattenOverrideArray l (-1))))
  | [a] => arrayInput input (λ l,
      match overrideNumber a with
      | Some (x, true) =>
        if SFltb x (S754_zero false) then Err "flatten depth must be a non-negative integer"
        else Ok (VSeq (flattenOverrideArray l (int_of_float x)))
      | _ => Err "flatten depth must be a non-negative integer"
      end)
  | _ => Err "wrong number of arguments"
  end.

Definition fn_any (input : value) (args : list value) : result value :=
  args0 args (arrayInput input (λ l, Ok (VBool (existsb overrideTruthy l)))).
Definition fn_all (input : value) (args : list value) : result value :=
  args0 args (arrayInput input (λ l, Ok (VBool (forallb overrideTruthy l)))).

Definition fn_length (input : value) (args : list value) : result value :=
  args0 args (match input with
    | VNull => Ok (VInt 0)
    | VStr s => Ok (VInt (Z.of_nat (length s)))
    | VSeq l => Ok (VInt (Z.of_nat (length l)))
    | VMap m => Ok (VInt (Z.of_nat (length m)))
    | VInt _ | VFloat _ | VBool _ => Ok (VInt (Z.of_nat (length (Sprint input))))
    | VNoMatch => Err "length cannot be used with this type"
    end).

Definition fn_type (input : value) (args : list value) : result value :=
  args0 args (Ok (VStr (overrideType input))).

Definition fn_keys (input : value) (args : list value) : result value :=
  args0 args (match input with
    | VMap m => Ok (VSeq ((λ kv, VStr kv.1) <$> m))
    | VSeq l => Ok (VSeq ((λ i, VInt (Z.of_nat i)) <$> seq 0 (length l)))
    | _ => Err "keys cannot be used with this type"
    end).

Definition fn_has (input : value) (args : list value) : result value :=
  args1 args (λ a, match input with
    | VMap m => stringArg a (λ key, Ok (VBool (bool_decide (is_Some (map_get key m)))))
    | VSeq l =>
      match overrideNumber a with
      | Some (x, true) =>
        let index := resolve_index (int_of_float x) (length l) in
        Ok (VBool ((0 <=? index)%Z && (index <? Z.of_nat (length l))%Z))
      | _ => Ok (VBool false)
      end
    | _ => Ok (VBool false)
    end).

Definition fn_contains (input : value) (args : list value) : result value :=
  args1 args (λ a, match input with
    | VStr s => stringArg a (λ needle, Ok (VBool (str_contains s needle)))
    | VSeq _ => match a with
                | VSeq _ => Ok (VBool (overrideContains input a))
                | _ => Err "cannot check contained in !!seq"
                end
    | VMap _ => match a with
                | VMap _ => Ok (VBool (overrideContains input a))
                | _ => Err "cannot check contained in !!map"
                end
    | _ =>
      if negb (isOverrideScalar a) then Err "cannot check contained"
      else if negb (bool_decide (overrideType input = overrideType a)) then Ok (VBool false)
      else Ok (VBool (overrideEqual input a))
    end).

Definition compile_pattern {A} (pattern : str) (k : regex → result A) : result A :=
  match regexp_Compile pattern with Some re => k re | None => Err "invalid regular expression" end.

Definition fn_test (input : value) (args : list value) : result value :=
  match args with
  | pattern :: rest =>
    match rest with
    | [] => Ok tt
    | [options] => stringArg options (λ o,
        if decide (trim_cut (lit "g") o = []) then Ok tt else Err "unsupported test options")
    | _ => Err "wrong number of arguments"
    end ≫= λ _,
    stringInput input (λ s, stringArg pattern (λ p, compile_pattern p (λ re,
      Ok (VBool (MatchString re s)))))
  | [] => Err "wrong number of arguments"
  end.

Definition fn_sub (input : value) (args : list value) : result value :=
  args2 args (λ pattern replacement,
    stringInput input (λ s, stringArg pattern (λ p, compile_pattern p (λ re,
      stringArg replacement (λ r, Ok (VStr (ReplaceAllString re s r))))))).

Definition fn_split (input : value) (args : list value) : result value :=
  args1 args (λ a, match input with
    | VNull => Ok VNoMatch
    | _ => stringInput input (λ s, stringArg a (λ sep, Ok (VSeq (VStr <$> Split s sep))))
    end).

Definition join_part (v : value) : str :=
  match v with VNull | VSeq _ | VMap _ => [] | _ => Sprint v end.
Definition fn_join (input : value) (args : list value) : result value :=
  args1 args (λ a, arrayInput input (λ l, stringArg a (λ sep, Ok (VStr (join sep (join_part <$> l)))))).

Definition fn_case (f : str → str) (input : value) (args : list value) : result value :=
  args0 args (stringInput input (λ s, Ok (VStr (f s)))).

Definition fn_tostring (input : value) (args : list value) : result value :=
  args0 args (match input with
    | VStr s => Ok (VStr s)
    | _ => encoded ← yaml_Marshal input; Ok (VStr (trim_newline encoded))
    end).

Definition fn_tonumber (input : value) (args : list value) : result value :=
  args0 args (match overrideNumber input with
    | Some _ => Ok input
    | None => stringInput input (λ s,
        if has_prefix (lit "0b") s || has_prefix (lit "0B") s then Err "cannot convert to number"
        else
          let integer := if has_prefix (lit "0x") s || has_prefix (lit "0X") s then ParseInt 16 (drop 2 s)
                         else if has_prefix (lit "0o") s then ParseInt 8 (drop 2 s)
                         else ParseInt 10 s in
          match integer with
          | Some n => Ok (VInt n)
          | None => match ParseFloat s with
                    | Some x => Ok (VFloat x)
                    | None => Err "cannot convert to number"
                    end
          end)
    end).

(** The body of [overrideFunctionExpr.eval] after the arguments. *)
Definition eval_function (name : fn) (input : value) (args : list value) : result value :=
  match name with
  | Fselect => fn_select input args
  | Fnot => fn_not input args
  | Freverse => fn_reverse input args
  | Fsort => fn_sort input args
  | Funique => fn_unique input args
  | Fflatten => fn_flatten input args
  | Fany => fn_any input args
  | Fall => fn_all input args
  | Flength => fn_length input args
  | Ftype => fn_type input args
  | Fkeys => fn_keys input args
  | Fhas => fn_has input args
  | Fcontains => fn_contains input args
  | Ftest => fn_test input args
  | Fsub => fn_sub input args
  | Fsplit => fn_split input args
  | Fjoin => fn_join input args
  | Fupcase => fn_case (ToUpper unicode_upper) input args
  | Fdowncase => fn_case (ToLower unicode_lower) input args
  | Ftrim => fn_case trim_space input args
  | Ftostring => fn_tostring input args
  | Ftonumber => fn_tonumber input args
  end.
End functions.

(** ** Entries *)

Definition entry_value (key v : value) : value := VMap [(lit "key", key); (lit "value", v)].

(** [None] is the [nil] slice for [nil]. *)
Definition toOverrideEntries (input : value) : result (option (list value)) :=
  match input with
  | VNull => Ok None
  | VSeq l => Ok (Some (imap (λ i x, entry_value (VInt (Z.of_nat i)) (cloneOverrideValue x)) l))
  | VMap m => Ok (Some ((λ kv, entry_value (VStr kv.1) (cloneOverrideValue kv.2)) <$> m))
  | _ => Err "has no keys"
  end.

Definition from_entry (res : list (str * value)) (item : value) : result (list (str * value)) :=
  match item with
  | VMap e =>
    match map_get (lit "key") e with
    | None => Err "entry has no key"
    | Some key =>
      match map_get (lit "value") e with
      | None => Err "entry has no value"
      | Some v =>
        match key with
        | VStr k => Ok (map_set k (cloneOverrideValue v) res)
        | _ => Err "entry key must be a string in override-expr"
        end
      end
    end
  | _ => Err "entry must be a mapping"
  end.
Definition fromOverrideEntries (input : value) : result value :=
  match input with
  | VSeq entries => res ← foldM from_entry [] entries; Ok (VMap res)
  | _ => Err "from_entries only supports arrays"
  end.

Definition overrideCollectionValues (input : value) : result (list value) :=
  match input with
  | VSeq l => Ok l
  | VMap m => Ok m.*2
  | _ => Err "expected array or mapping"
  end.

(** ** Evaluation *)

(** A value that is not the marker is a stream of one. *)
Definition to_stream (r : result value) : result (list value) :=
  v ← r; Ok (if isOverrideNoMatch v then [] else [v]).

(** [evalOverrideSingle], of the stream. *)
Definition single (r : result (list value)) : result value :=
  vs ← r;
  match vs with
  | [] => Ok VNoMatch
  | [v] => Ok v
  | _ => Err "expression produced several results; collect them with brackets"
  end.

(** The conditions of [any_c] and [all_c]: the first value whose first result
    is [stop] ends the loop. *)
Definition quantify (stop : bool) (f : value → result (list value)) : list value → result bool :=
  fix go l := match l with
  | [] => Ok (negb stop)
  | x :: l' =>
    items ← f x;
    match items with
    | item :: _ => if Bool.eqb (overrideTruthy item) stop then Ok stop else go l'
    | [] => go l'
    end
  end.

Section eval.
Context `{OverrideEnv}.

(** The text of one interpolated result. *)
Definition interpolate (values : list value) : result str :=
  match values with
  | [] => Ok []
  | VStr s :: _ => Ok s
  | v :: _ =>
    if isOverrideScalar v then Ok (match v with VNull => lit "null" | _ => Sprint v end)
    else encoded ← yaml_Marshal v; Ok (trim_newline encoded)
  end.

(** The rest of [overrideBinaryExpr.evalAll] once the left values are there;
    [right] is evaluated where the code does. *)
Definition eval_binary (op : binop) (lefts : list value) (right : unit → result (list value)) : result (list value) :=
  match op with
  | OpAlt =>
    match lefts with
    | [] => right tt
    | _ => collect (λ left, if overrideTruthy left then Ok [left] else right tt) lefts
    end
  | _ =>
    let needsRight := match op with
                      | OpAnd => existsb overrideTruthy lefts
                      | OpOr => existsb (λ l, negb (overrideTruthy l)) lefts
                      | _ => true
                      end in
    if negb needsRight then Ok ((λ l, VBool (bool_decide (op = OpOr) && overrideTruthy l)) <$> lefts)
    else
      rights ← right tt;
      collect (λ left,
        if bool_decide (op = OpAnd) && negb (overrideTruthy left) then Ok [VBool false]
        else if bool_decide (op = OpOr) && overrideTruthy left then Ok [VBool true]
        else mapR (evaluateOverrideBinary op left) rights) lefts
  end.

Definition assign_binop (o : assign_op) : binop :=
  match o with AssignAdd => OpAdd | AssignSub => OpSub | _ => OpMul end.

(** [overrideValueUpdateExpr.eval]; [run input] evaluates the right side. *)
Definition eval_update (p : path) (o : assign_op) (run : value → result value) (input : value) : result value :=
  let root := cloneOverrideValue input in
  match o with
  | AssignSet =>
    v ← run root;
    if isOverrideNoMatch v then Ok root
    else updateOverridePath root p (λ _, Ok (cloneOverrideValue v))
  | AssignUpdate =>
    updateOverridePath root p (λ old, v ← run old; Ok (if isOverrideNoMatch v then old else v))
  | _ =>
    v ← run root;
    updateOverridePath root p (λ old, evaluateOverrideBinary (assign_binop o) old v)
  end.

(** [overrideStreamFunctionExpr.evalAll]: [mapped] is the first stage of [map],
    [run] is [evalOverrideExpressionList] on one value, [n] the number of
    arguments. *)
Definition eval_stream_function (name : sfn) (n : nat) (mapped : list value → result (list value))
    (run : value → result (list value)) (input : value) : result (list value) :=
  let needs {A} (k : result A) : result A := match n with 0 => Err "expects an expression" | _ => k end in
  let none {A} (k : result A) : result A := match n with 0 => k | _ => Err "expects no arguments" end in
  match name with
  | Smap => needs (values ← overrideCollectionValues input; items ← mapped values; Ok [VSeq items])
  | Sfilter => needs (
      values ← overrideCollectionValues input;
      kept ← collect (λ v, items ← run v;
                           Ok (if existsb overrideTruthy items then [cloneOverrideValue v] else [])) values;
      Ok [VSeq kept])
  | Smap_values => needs (
      let update v := items ← run v; Ok (match items with x :: _ => cloneOverrideValue x | [] => v end) in
      match cloneOverrideValue input with
      | VSeq l => l' ← mapR update l; Ok [VSeq l']
      | VMap m => m' ← mapR (λ kv, x ← update kv.2; Ok (kv.1, x)) m; Ok [VMap m']
      | _ => Err "map_values only supports arrays and mappings"
      end)
  | Sto_entries => none (
      entries ← toOverrideEntries input;
      Ok (match entries with Some es => [VSeq es] | None => [] end))
  | Sfrom_entries => none (v ← fromOverrideEntries input; Ok [v])
  | Swith_entries => needs (
      match input with
      | VMap _ =>
        entries ← toOverrideEntries input;
        match entries with
        | Some es => transformed ← collect run es; v ← fromOverrideEntries (VSeq transformed); Ok [v]
        | None => Ok []
        end
      | _ => Err "with_entries only supports mappings"
      end)
  | Sany_c => needs (
      match input with
      | VSeq l => b ← quantify true run l; Ok [VBool b]
      | _ => Err "any_c only supports arrays"
      end)
  | Sall_c => needs (
      match input with
      | VSeq l => b ← quantify false run l; Ok [VBool b]
      | _ => Err "all_c only supports arrays"
      end)
  end.

(** [evalOverrideStreamInputs] *)
Fixpoint evs (e : expr) (inputs : list value) {struct e} : result (list value) :=
  match e with
  | EUnion values => collect (λ v, evs v inputs) values
  | EPipeline stages => collect (λ input, stagesR evs stages [input]) inputs
  | ELiteral v => collect (λ _, to_stream (Ok (cloneOverrideValue v))) inputs
  | EString parts => collect (λ input,
      texts ← mapR (λ part, match part with
                            | inl text => Ok text
                            | inr e => values ← evs e [input]; interpolate values
                            end) parts;
      to_stream (Ok (VStr (concat texts)))) inputs
  | EPath p => collect (λ input, Ok (lookupOverridePathStream input p)) inputs
  | EArray values => collect (λ input,
      items ← collect (λ v, evs v [input]) values; to_stream (Ok (VSeq items))) inputs
  | EMap entries => collect (λ input,
      res ← stagesR (λ '(key, v) res, values ← evs v [input];
                      Ok (match last values with Some x => map_set key x res | None => res end)) entries [];
      to_stream (Ok (VMap res))) inputs
  | EUpdate p o v => collect (λ input, to_stream (eval_update p o (λ x, single (evs v [x])) input)) inputs
  | EBinary op l r => collect (λ input, lefts ← evs l [input]; eval_binary op lefts (λ _, evs r [input])) inputs
  | EFunction name args => collect (λ input,
      if isOverrideNoMatch input then Ok []
      else args ← mapR (λ a, single (evs a [input])) args; to_stream (eval_function name input args)) inputs
  | EStreamFunction name args => collect (λ input,
      eval_stream_function name (length args) (λ values, collect (λ a, evs a values) args)
        (λ x, collect (λ a, evs a [x]) args) input) inputs
  end.

Definition evalOverrideStream (e : expr) (input : value) : result (list value) := evs e [input].
Definition evalOverrideSingle (e : expr) (input : value) : result value := single (evs e [input]).
End eval.
