(* ===== verification/OverrideFacts.v ===== *)
(** * OverrideFacts: what paths and expressions do

    Theorems about [OverrideEval]: looking a path up after updating it, paths
    that an update does not touch, deletion, the values an expression can
    produce, and the laws of the collection functions. *)
From Stdlib Require Import SpecFloat.
From S2P Require Import Prelude GoStrings GoFloat NetIP OverrideValue OverrideEval.

(** ** Results *)

(** The result is an error or satisfies [P]; a panic implies [X]. *)
Definition okX (X : Prop) {A} (P : A → Prop) (r : result A) : Prop :=
  match r with Ok a => P a | Err _ => True | Panic => X end.
(** Without a panic. *)
Abbreviation okR := (okX False).

Lemma okR_bind {X} {A B} (P : A → Prop) (Q : B → Prop) (m : result A) (f : A → result B) :
  okX X P m → (∀ a, P a → okX X Q (f a)) → okX X Q (m ≫= f).
Proof. destruct m; simpl; auto. Qed.

Lemma okR_impl {X} {A} (P Q : A → Prop) (r : result A) : okX X P r → (∀ a, P a → Q a) → okX X Q r.
Proof. destruct r; simpl; auto. Qed.

Lemma okR_mapR {X} {A B} (P : B → Prop) (f : A → result B) l :
  (∀ x, x ∈ l → okX X P (f x)) → okX X (Forall P) (mapR f l).
Proof.
  induction l as [|x l IH]; intros Hf; simpl; [constructor|].
  eapply okR_bind; [apply Hf; left|]. intros y Hy.
  eapply okR_bind; [apply IH; intros; apply Hf; by right|]. intros ys Hys. by constructor.
Qed.

Lemma okR_collect {X} {A B} (P : B → Prop) (f : A → result (list B)) l :
  (∀ x, x ∈ l → okX X (Forall P) (f x)) → okX X (Forall P) (collect f l).
Proof.
  induction l as [|x l IH]; intros Hf; simpl; [constructor|].
  eapply okR_bind; [apply Hf; left|]. intros y Hy.
  eapply okR_bind; [apply IH; intros; apply Hf; by right|]. intros ys Hys. simpl. by apply Forall_app.
Qed.

Lemma okR_stages {X} {A S} (P : S → Prop) (f : A → S → result S) l s :
  (∀ x s, x ∈ l → P s → okX X P (f x s)) → P s → okX X P (stagesR f l s).
Proof.
  revert s. induction l as [|x l IH]; intros s Hf Hs; simpl; [done|].
  eapply okR_bind; [apply Hf; [left|done]|]. intros s' Hs'. apply IH; [|done]. intros; apply Hf; [by right|done].
Qed.

Lemma okR_foldM {X} {A S} (P : S → Prop) (f : S → A → result S) l s :
  (∀ x s, x ∈ l → P s → okX X P (f s x)) → P s → okX X P (foldM f s l).
Proof.
  revert s. induction l as [|x l IH]; intros s Hf Hs; cbn [foldM]; [done|].
  eapply okR_bind; [apply Hf; [left|done]|]. intros s' Hs'. apply IH; [|done]. intros; apply Hf; [by right|done].
Qed.

(** ** Paths without wildcards *)

Definition definite (p : path) : bool := forallb (λ s, negb (bool_decide (s = SWild))) p.

(** What an update meets on its way: it gets (or creates what it needs to get)
    to the end, it is stopped by a value of another type, or by an index before
    the start of an array. *)
Inductive path_status := Reachable | Blocked | OutOfRange.
Fixpoint status (node : value) (p : path) : path_status :=
  match p with
  | [] => Reachable
  | SField key :: p' =>
    match node with
    | VNull => status VNull p'
    | VMap m => status (map_at key m) p'
    | _ => Blocked
    end
  | SIndex index :: p' =>
    match node with
    | VNull => if (index <? 0)%Z then OutOfRange else status VNull p'
    | VSeq l =>
      let i := resolve_index index (length l) in
      if (i <? 0)%Z then OutOfRange else status (default VNull (l !! Z.to_nat i)) p'
    | _ => Blocked
    end
  | SWild :: _ => Blocked
  end.

(** The one value a path without wildcards selects. *)
Fixpoint path_value (node : value) (p : path) : value :=
  match p with
  | [] => node
  | SField key :: p' => match node with VMap m => path_value (map_at key m) p' | _ => VNull end
  | SIndex index :: p' =>
    match node with
    | VSeq l => match nth_value (resolve_index index (length l)) l with
                | Some x => path_value x p'
                | None => VNull
                end
    | _ => VNull
    end
  | SWild :: _ => VNull
  end.

Lemma lookup_definite node p : definite p = true → lookupOverridePathStream node p = [path_value node p].
Proof.
  revert node. induction p as [|[key|i|] p IH]; intros node Hp; simpl in *; [done|..|done].
  - destruct node; auto.
  - destruct node; auto. destruct (nth_value _ _); auto.
Qed.

Lemma path_value_null p : path_value VNull p = VNull.
Proof. by destruct p as [|[| |] p]. Qed.

Lemma map_at_set_eq k v m : map_at k (map_set k v m) = v.
Proof. unfold map_at. by rewrite map_get_set_eq. Qed.
Lemma map_at_set_ne k k' v m : k ≠ k' → map_at k (map_set k' v m) = map_at k m.
Proof. intros. unfold map_at. by rewrite map_get_set_ne. Qed.
Lemma map_at_nil k : map_at k [] = VNull.
Proof. done. Qed.

(** *** Arrays that are extended *)

Lemma nth_value_nonneg i l : (0 ≤ i)%Z → nth_value i l = l !! Z.to_nat i.
Proof. intros. unfold nth_value. by rewrite (proj2 (Z.ltb_ge _ _)). Qed.

Lemma length_pad_to i l : (0 ≤ i)%Z → length (pad_to i l) = max (length l) (Z.to_nat i + 1).
Proof. intros. unfold pad_to. rewrite length_app, repeat_length, Z2Nat.inj_add by lia. simpl. lia. Qed.

Lemma pad_to_lookup i l j : default VNull (pad_to i l !! j) = default VNull (l !! j).
Proof.
  unfold pad_to. destruct (decide (j < length l)) as [Hj|Hj].
  - by rewrite lookup_app_l.
  - rewrite lookup_app_r, (lookup_ge_None_2 l) by lia.
    destruct (repeat VNull _ !! _) as [x|] eqn:E; [|done]. simpl.
    apply list_elem_of_lookup_2 in E. apply list_elem_of_In in E. by apply repeat_spec in E.
Qed.

Lemma pad_to_id i l : (Z.to_nat i < length l)%nat → (0 ≤ i)%Z → pad_to i l = l.
Proof.
  intros. unfold pad_to. replace (Z.to_nat (i + 1) - length l)%nat with 0%nat by lia. simpl. apply app_nil_r.
Qed.

(** An index that an update resolves, resolves to the same place afterwards. *)
Lemma resolve_index_pad index l (i := resolve_index index (length l)) : (0 ≤ i)%Z →
  resolve_index index (length (pad_to i l)) = i.
Proof.
  intros Hi. unfold resolve_index in *. destruct (Z.ltb_spec index 0); [|done].
  subst i. rewrite pad_to_id by lia. done.
Qed.

Lemma path_value_at (l : list value) (j : nat) p : path_value (default VNull (l !! j)) p =
  match l !! j with Some x => path_value x p | None => VNull end.
Proof. destruct (l !! j); simpl; [done|apply path_value_null]. Qed.

(** ** Update, then look up *)

Lemma update_reachable node p u v : status node p = Reachable → u (path_value node p) = Ok v →
  ∃ node', updateOverridePath node p u = Ok node' ∧ path_value node' p = v.
Proof.
  revert node. induction p as [|[key|index|] p IH]; intros node Hs Hu; cbn [status path_value updateOverridePath] in *;
    [by exists v|..|done].
  - assert (∃ m, match node with VNull => VMap [] | _ => node end = VMap m ∧
                 status (map_at key m) p = Reachable ∧ u (path_value (map_at key m) p) = Ok v) as (m & -> & Hs' & Hu').
    { destruct node; try done; [exists []|by exists m]. rewrite map_at_nil, path_value_null. auto. }
    destruct (IH _ Hs' Hu') as (x & -> & Hx). simpl. eexists. split; [done|]. simpl. by rewrite map_at_set_eq.
  - assert (∃ l, match node with VNull => VSeq [] | _ => node end = VSeq l ∧ (0 ≤ resolve_index index (length l))%Z ∧
                 status (default VNull (l !! Z.to_nat (resolve_index index (length l)))) p = Reachable ∧
                 u (path_value (default VNull (l !! Z.to_nat (resolve_index index (length l)))) p) = Ok v)
      as (l & -> & Hi & Hs' & Hu').
    { destruct node as [| | | | |l| |]; try done; [exists []|exists l].
      - unfold resolve_index. simpl. rewrite Z.add_0_r. destruct (Z.ltb_spec index 0); [done|].
        rewrite ?lookup_nil. simpl. rewrite path_value_null. auto.
      - destruct (Z.ltb_spec (resolve_index index (length l)) 0); [done|]. rewrite path_value_at.
        by rewrite nth_value_nonneg in Hu. }
    cbn zeta. rewrite (proj2 (Z.ltb_ge _ _)) by done. rewrite pad_to_lookup.
    destruct (IH _ Hs' Hu') as (x & -> & Hx). simpl. eexists. split; [done|]. cbn [path_value].
    rewrite length_insert, resolve_index_pad, nth_value_nonneg, list_lookup_insert_eq by
      (done || rewrite length_pad_to; lia). done.
Qed.

(** *** What an update does not touch *)

(** The two paths part at a field or at an index counted from the start. *)
Fixpoint disjoint_paths (p q : path) : bool :=
  match p, q with
  | SField k :: p', SField k' :: q' => if decide (k = k') then disjoint_paths p' q' else true
  | SIndex i :: p', SIndex j :: q' =>
    (0 <=? i)%Z && (0 <=? j)%Z && (if decide (i = j) then disjoint_paths p' q' else true)
  | _, _ => false
  end.

Lemma resolve_nonneg i n : (0 ≤ i)%Z → resolve_index i n = i.
Proof. intros. unfold resolve_index. by rewrite (proj2 (Z.ltb_ge _ _)). Qed.

Lemma update_frame node node' p q u : disjoint_paths p q = true →
  updateOverridePath node p u = Ok node' → path_value node' q = path_value node q.
Proof.
  revert node node' q. induction p as [|[k|i|] p IH]; intros node node' [|[k'|j|] q] Hd; try done;
    cbn [disjoint_paths updateOverridePath] in *.
  - assert (∀ m, (x ← updateOverridePath (map_at k m) p u; Ok (VMap (map_set k x m))) = Ok node' →
                 path_value node' (SField k' :: q) = path_value (VMap m) (SField k' :: q)) as Hmap.
    { intros m (x & Hx & [= <-])%result_bind_Ok. cbn [path_value]. destruct (decide (k = k')) as [<-|Hk].
      - rewrite map_at_set_eq. eauto.
      - by rewrite map_at_set_ne. }
    intros Hu. destruct node; try (by injection Hu as <-); [|auto].
    rewrite (Hmap [] Hu). cbn [path_value]. by rewrite map_at_nil, path_value_null.
  - apply andb_true_iff in Hd as [[Hi Hj]%andb_true_iff Hd]. apply Z.leb_le in Hi, Hj.
    assert (∀ l, (let i' := resolve_index i (length l) in
                  if (i' <? 0)%Z then Err "array index is out of range"
                  else x ← updateOverridePath (default VNull (pad_to i' l !! Z.to_nat i')) p u;
                       Ok (VSeq (<[Z.to_nat i' := x]> (pad_to i' l)))) = Ok node' →
                 path_value node' (SIndex j :: q) = path_value (VSeq l) (SIndex j :: q)) as Hseq.
    { intros l. cbn zeta. rewrite resolve_nonneg, (proj2 (Z.ltb_ge _ _)), pad_to_lookup by done.
      intros (x & Hx & [= <-])%result_bind_Ok. cbn [path_value].
      rewrite !resolve_nonneg, !nth_value_nonneg by done.
      destruct (decide (i = j)) as [<-|Hne].
      - rewrite list_lookup_insert_eq by (rewrite length_pad_to; lia).
        rewrite <- path_value_at. eauto.
      - rewrite list_lookup_insert_ne by (intros ?; apply Hne; lia).
        rewrite <- !path_value_at. by rewrite pad_to_lookup. }
    intros Hu. destruct node; try (by injection Hu as <-); [|auto].
    rewrite (Hseq [] Hu). cbn [path_value]. rewrite resolve_nonneg, nth_value_nonneg by done. done.
Qed.

(** *** Updates that do nothing, and updates that fail *)

Lemma status_null p : definite p = true → status VNull p ≠ Blocked.
Proof.
  induction p as [|[k|i|] p IH]; simpl; [done|auto| |done]. destruct (i <? 0)%Z; [done|auto].
Qed.

Lemma update_blocked node p u : wf_value true node → definite p = true → status node p = Blocked →
  updateOverridePath node p u = Ok node.
Proof.
  revert node. induction p as [|[key|index|] p IH]; intros node Hw Hp Hs; cbn [status updateOverridePath] in *;
    [done|..|done].
  - destruct node as [| | | | | |m|]; try done; [by apply status_null in Hs|].
    rewrite IH by (done || by apply wf_map_at). simpl. do 2 f_equal.
    unfold map_at in *. destruct (map_get key m) as [x|] eqn:E; simpl in *; [|by apply status_null in Hs].
    apply map_set_id; [by apply wf_map in Hw as [? _]|done].
  - destruct node as [| | | | |l| |]; try done; cbn zeta in *.
    { destruct (index <? 0)%Z; [done|]. by apply status_null in Hs. }
    destruct (Z.ltb_spec (resolve_index index (length l)) 0) as [|Hi]; [done|].
    destruct (l !! Z.to_nat (resolve_index index (length l))) as [x|] eqn:E; simpl in Hs; [|by apply status_null in Hs].
    pose proof (lookup_lt_Some _ _ _ E). rewrite pad_to_id, E by done. simpl.
    rewrite IH by (done || by eapply wf_seq_lookup). simpl. by rewrite list_insert_id.
Qed.

Lemma update_out_of_range node p u : status node p = OutOfRange →
  ∃ e, updateOverridePath node p u = Err e.
Proof.
  revert node. induction p as [|[key|index|] p IH]; intros node Hs; cbn [status updateOverridePath] in *; [done|..|done].
  - destruct node as [| | | | | |m|]; try done; destruct (IH _ Hs) as [e He]; rewrite ?map_at_nil, He; by exists e.
  - destruct node as [| | | | |l| |]; try done; cbn zeta in *.
    + unfold resolve_index. simpl. rewrite Z.add_0_r.
      destruct (index <? 0)%Z eqn:E; [rewrite E; by eexists|]. rewrite E.
      destruct (IH _ Hs) as [e He]. exists e. rewrite pad_to_lookup. simpl. by rewrite He.
    + destruct (resolve_index index (length l) <? 0)%Z; [by eexists|].
      destruct (IH _ Hs) as [e He]. exists e. rewrite pad_to_lookup, He. done.
Qed.

(** ** Deletion *)

Lemma child_tails_nil f : child_tails f [] = Some [].
Proof. done. Qed.

Lemma delete_nil v : deleteOverridePaths v [] = v.
Proof.
  induction v as [| | | | |l IH|m IH|] using value_ind'; simpl; [done..| | |done]; f_equal.
  - generalize 0%nat at 1. generalize (length l). intros n i. clear IH.
    revert i. induction l as [|x l IHl]; intros i; [done|]. f_equal. apply IHl.
  - induction m as [|[k x] m IHm]; [done|]. f_equal. apply IHm. by inversion IH.
Qed.

(** A deletion keeps the children that no path ends at, each without what the
    tails delete. *)
Lemma delete_map m paths : deleteOverridePaths (VMap m) paths =
  VMap (omap (λ kv, (λ ts, (kv.1, deleteOverridePaths kv.2 ts)) <$> child_tails (matches_key kv.1) paths) m).
Proof.
  simpl. f_equal. induction m as [|[k x] m IH]; [done|]. cbn [omap list_omap].
  destruct (child_tails _ _) as [[|t ts]|]; simpl; rewrite ?IH, ?delete_nil; done.
Qed.

Lemma delete_seq l paths : deleteOverridePaths (VSeq l) paths =
  VSeq (omap (λ ix, deleteOverridePaths ix.2 <$> child_tails (matches_index (length l) ix.1) paths) (imap pair l)).
Proof.
  cbn [deleteOverridePaths]. f_equal. generalize (length l) as n. intros n.
  change (imap pair l) with (imap (λ i x, (0 + i, x)) l). generalize 0%nat as i. induction l as [|x l IH]; intros i; [done|].
  rewrite imap_cons. cbn [omap list_omap]. rewrite Nat.add_0_r.
  assert (imap ((λ j y, (i + j, y)) ∘ S) l = imap (λ j y, (S i + j, y)) l) as ->.
  { apply imap_ext. intros j y _. simpl. f_equal. lia. }
  rewrite <- IH. destruct (child_tails _ _) as [[|t ts]|]; simpl; rewrite ?delete_nil; done.
Qed.

(** *** What a path selects

    A place inside a value is a list of keys and element numbers. *)
Inductive place := PKey (k : str) | PIdx (j : nat).

(** One segment leads from a value to a child: a field to the entry of its key, an
    index to the element it counts from the start or, when negative, from the end,
    a wildcard to every entry and every element. *)
Inductive seg_selects : segment → value → place → value → Prop :=
| field_selects k m x : map_get k m = Some x → seg_selects (SField k) (VMap m) (PKey k) x
| index_selects i l j x : l !! j = Some x → i = Z.of_nat j ∨ i = (Z.of_nat j - Z.of_nat (length l))%Z →
    seg_selects (SIndex i) (VSeq l) (PIdx j) x
| each_key k m x : map_get k m = Some x → seg_selects SWild (VMap m) (PKey k) x
| each_element l j x : l !! j = Some x → seg_selects SWild (VSeq l) (PIdx j) x.

Inductive selects : path → value → list place → Prop :=
| selects_here v : selects [] v []
| selects_child s p v q qs x : seg_selects s v q x → selects p x qs → selects (s :: p) v (q :: qs).

(** [k] is [l] without the elements that are [gone], the others related by [R]. *)
Inductive without {A B} (gone : A → Prop) (R : A → B → Prop) : list A → list B → Prop :=
| without_nil : without gone R [] []
| without_drop a l k : gone a → without gone R l k → without gone R (a :: l) k
| without_keep a b l k : ¬ gone a → R a b → without gone R l k → without gone R (a :: l) (b :: k).

(** The second value is the first one without what is at a dead place. *)
Inductive pruned (dead : list place → Prop) : value → value → Prop :=
| pruned_leaf v : match v with VSeq _ | VMap _ => False | _ => True end → pruned dead v v
| pruned_map m m' : without (λ kv, dead [PKey kv.1])
    (λ kv kv', kv'.1 = kv.1 ∧ pruned (λ q, dead (PKey kv.1 :: q)) kv.2 kv'.2) m m' → pruned dead (VMap m) (VMap m')
| pruned_seq l l' : without (λ ix, dead [PIdx ix.1]) (λ ix x', pruned (λ q, dead (PIdx ix.1 :: q)) ix.2 x') (imap pair l) l' →
    pruned dead (VSeq l) (VSeq l').

Lemma without_omap {A B} (gone : A → Prop) (R : A → B → Prop) (f : A → option B) l :
  (∀ a, a ∈ l → match f a with None => gone a | Some b => ¬ gone a ∧ R a b end) → without gone R l (omap f l).
Proof.
  induction l as [|a l IH]; intros Hf; [constructor|]. specialize (IH ltac:(intros; apply Hf; by right)). specialize (Hf a ltac:(left)).
  cbn [omap list_omap]. destruct (f a) as [b|]; [destruct Hf; by constructor|by constructor].
Qed.

Lemma without_mono {A B} (gone gone' : A → Prop) (R R' : A → B → Prop) l k : (∀ a, a ∈ l → gone a ↔ gone' a) →
  (∀ a b, a ∈ l → R a b → R' a b) → without gone R l k → without gone' R' l k.
Proof.
  intros Hg HR Hw. induction Hw as [|a l k Ha Hw IH|a b l k Ha Hab Hw IH]; [constructor|..].
  - apply without_drop; [apply Hg; [left|done]|]. apply IH; intros; [apply Hg|apply HR]; (by right) || done.
  - apply without_keep; [rewrite <- Hg by left; done|apply HR; [left|done]|]. apply IH; intros; [apply Hg|apply HR]; (by right) || done.
Qed.

Lemma without_unique {A B} (gone : A → Prop) (R : A → B → Prop) l : (∀ a b c, a ∈ l → R a b → R a c → b = c) →
  ∀ k k', without gone R l k → without gone R l k' → k = k'.
Proof.
  intros HR. induction l as [|a l IH]; intros k k' Hk Hk'; inversion Hk; inversion Hk'; subst; try done.
  - eapply IH; [|done|done]. intros; eapply HR; [by right|done|done].
  - f_equal; [eapply HR; [left|done|done]|]. eapply IH; [|done|done]. intros; eapply HR; [by right|done|done].
Qed.

Lemma imap_pair_elem {A} (l : list A) ix : ix ∈ imap pair l → l !! ix.1 = Some ix.2.
Proof. intros (i & x & -> & Hi)%elem_of_lookup_imap_1. done. Qed.

Lemma pruned_mono v : ∀ (dead dead' : list place → Prop) v', (∀ q, dead q ↔ dead' q) → pruned dead v v' → pruned dead' v v'.
Proof.
  induction v as [| | | | |l IH|m IH|] using value_ind'; intros dead dead' v' Hd Hp; inversion Hp; subst; try done; try by constructor.
  - apply pruned_seq. eapply without_mono; [| |eassumption]; intros ix; [by intros _; apply Hd|].
    intros x' Hix%imap_pair_elem Hx. rewrite Forall_lookup in IH. eapply (IH _ _ Hix); [|exact Hx]. intros q. apply Hd.
  - apply pruned_map. eapply without_mono; [| |eassumption]; intros kv; [by intros _; apply Hd|].
    intros kv' Hkv [Hk Hx]. split; [done|]. rewrite Forall_forall in IH. eapply (IH _ Hkv); [|exact Hx]. intros q. apply Hd.
Qed.

(** There is one way to prune a value. *)
Lemma pruned_unique v : ∀ (dead : list place → Prop) v1 v2, pruned dead v v1 → pruned dead v v2 → v1 = v2.
Proof.
  induction v as [| | | | |l IH|m IH|] using value_ind'; intros dead v1 v2 Ha Hb; inversion Ha; inversion Hb; subst; try done; f_equal.
  - eapply without_unique; [|eassumption|eassumption]. intros ix x y Hix%imap_pair_elem. rewrite Forall_lookup in IH. apply (IH _ _ Hix).
  - eapply without_unique; [|eassumption|eassumption]. intros kv [k x] [k' y] Hkv [Hk Hx] [Hk' Hy]. simpl in *. subst.
    rewrite Forall_forall in IH. f_equal. by eapply (IH _ Hkv).
Qed.

(** *** The paths through a child *)

Lemma child_tails_spec f paths :
  match child_tails f paths with
  | None => ∃ s, f s = true ∧ [s] ∈ paths
  | Some ts => (∀ s, f s = true → [s] ∉ paths) ∧ ∀ t, t ∈ ts ↔ t ≠ [] ∧ ∃ s, f s = true ∧ s :: t ∈ paths
  end.
Proof.
  induction paths as [|[|s t] paths IH]; cbn [child_tails].
  - split; [set_solver|]. intros t. split; [set_solver|]. intros (_ & s & _ & Hin). set_solver.
  - destruct (child_tails f paths) as [ts|]; [|set_solver]. destruct IH as [IH1 IH2].
    split; [intros s Hs [?|?]%elem_of_cons; [done|by eapply IH1]|]. intros t. rewrite IH2. set_solver.
  - destruct (f s) eqn:E.
    + destruct t as [|s' t]; [exists s; set_solver|]. destruct (child_tails f paths) as [ts|]; simpl.
      * destruct IH as [IH1 IH2]. split; [intros x Hx [?|?]%elem_of_cons; [done|by eapply IH1]|].
        intros u. rewrite elem_of_cons, IH2. split.
        -- intros [->|(Hu & x & Hx & Hin)]; (split; [done|]); [exists s|exists x]; set_solver.
        -- intros (Hu & x & Hx & [[= -> ->]|Hin]%elem_of_cons); [by left|right; eauto].
      * destruct IH as (x & Hx & Hin). exists x. set_solver.
    + destruct (child_tails f paths) as [ts|].
      * destruct IH as [IH1 IH2]. split.
        { intros x Hx [[= -> _]|?]%elem_of_cons; [congruence|by eapply IH1]. }
        intros u. rewrite IH2. split; intros (Hu & x & Hx & Hin); (split; [done|]); exists x; (split; [done|]).
        -- by right.
        -- apply elem_of_cons in Hin as [[= -> ->]|?]; [congruence|done].
      * destruct IH as (x & Hx & Hin). exists x. split; [done|by right].
Qed.

Lemma matches_key_selects s k m x : map_get k m = Some x → matches_key k s = true ↔ seg_selects s (VMap m) (PKey k) x.
Proof.
  intros Hx. destruct s as [k'|i|]; cbn [matches_key].
  - rewrite bool_decide_eq_true. split; [intros ->; by constructor|]. by inversion 1.
  - split; [done|]. by inversion 1.
  - split; [by constructor|done].
Qed.
Lemma matches_index_selects s j l x : l !! j = Some x → matches_index (length l) j s = true ↔ seg_selects s (VSeq l) (PIdx j) x.
Proof.
  intros Hx. pose proof (lookup_lt_Some _ _ _ Hx) as Hlt. destruct s as [k'|i|]; cbn [matches_index].
  - split; [done|]. by inversion 1.
  - rewrite Z.eqb_eq. unfold resolve_index. split.
    + intros E. constructor; [done|]. destruct (Z.ltb_spec i 0); lia.
    + inversion 1; subst. destruct (Z.ltb_spec i 0); lia.
  - split; [by constructor|done].
Qed.

(** A child is dropped when a path ends at it; the places selected inside it are
    those the tails select. *)
Lemma child_selected f paths v q x : (∀ s, f s = true ↔ seg_selects s v q x) → (∀ s y, seg_selects s v q y → y = x) →
  match child_tails f paths with
  | None => ∃ p, p ∈ paths ∧ selects p v [q]
  | Some ts => (¬ ∃ p, p ∈ paths ∧ selects p v [q])
               ∧ ∀ qs, (∃ p, p ∈ ts ∧ selects p x qs) ↔ ∃ p, p ∈ paths ∧ selects p v (q :: qs)
  end.
Proof.
  intros Hf Huniq. pose proof (child_tails_spec f paths) as Hc. destruct (child_tails f paths) as [ts|].
  - destruct Hc as [Hno Hts].
    assert (¬ ∃ p, p ∈ paths ∧ selects p v [q]) as Hend.
    { intros (p & Hp & Hsel). inversion Hsel as [|s p' ? ? ? y Hs Hp']; subst. inversion Hp'; subst.
      apply (Hno s); [|done]. apply Hf. by rewrite <- (Huniq _ _ Hs). }
    split; [done|]. intros qs. split.
    + intros (t & Ht & Hsel). apply Hts in Ht as (_ & s & Hs & Hin). exists (s :: t). split; [done|]. econstructor; [by apply Hf|done].
    + intros (p & Hp & Hsel). inversion Hsel as [|s p' ? ? ? y Hs Hp']; subst. pose proof (Huniq _ _ Hs) as ->.
      exists p'. split; [|done]. apply Hts. split; [|exists s; split; [by apply Hf|done]].
      intros ->. inversion Hp'; subst. apply Hend. by exists [s].
  - destruct Hc as (s & Hs & Hin). exists [s]. split; [done|]. econstructor; [by apply Hf|constructor].
Qed.

(** Deleting some paths removes what they select, and nothing else. *)
Lemma delete_pruned nm v : ∀ paths, wf_value nm v →
  pruned (λ q, ∃ p, p ∈ paths ∧ selects p v q) v (deleteOverridePaths v paths).
Proof.
  induction v as [| | | | |l IH|m IH|] using value_ind'; intros paths Hw; try (by constructor).
  - rewrite delete_seq. apply pruned_seq, without_omap. intros [j x] Hix%imap_pair_elem. cbn [fst snd] in *.
    assert (∀ s y, seg_selects s (VSeq l) (PIdx j) y → y = x) as Hu by (intros s y Hs; inversion Hs; congruence).
    pose proof (child_selected _ paths _ _ _ (λ s, matches_index_selects s j l x Hix) Hu) as Hc.
    destruct (child_tails _ paths) as [ts|]; [|done]. destruct Hc as [Hend Hin]. split; [done|]. simpl.
    apply wf_seq in Hw. rewrite Forall_lookup in IH, Hw. eapply pruned_mono; [exact Hin|]. apply (IH _ _ Hix). by apply (Hw _ _ Hix).
  - rewrite delete_map. apply wf_map in Hw as [Hsort Hw]. apply pruned_map, without_omap. intros [k x] Hkv. cbn [fst snd] in *.
    pose proof (elem_map_get k x m Hsort Hkv) as Hget.
    assert (∀ s y, seg_selects s (VMap m) (PKey k) y → y = x) as Hu by (intros s y Hs; inversion Hs; congruence).
    pose proof (child_selected _ paths _ _ _ (λ s, matches_key_selects s k m x Hget) Hu) as Hc.
    destruct (child_tails _ paths) as [ts|]; [|done]. destruct Hc as [Hend Hin]. split; [done|]. split; [done|]. cbn [fst snd].
    rewrite Forall_forall in IH, Hw. eapply pruned_mono; [exact Hin|]. apply (IH _ Hkv). by apply (Hw _ Hkv).
Qed.

(** ** Induction on expressions *)

Lemma expr_ind' (P : expr → Prop) :
  (∀ l, Forall P l → P (EPipeline l)) → (∀ l, Forall P l → P (EUnion l)) → (∀ v, P (ELiteral v)) →
  (∀ l, Forall (λ part, ∀ e, part = inr e → P e) l → P (EString l)) → (∀ p, P (EPath p)) →
  (∀ l, Forall P l → P (EArray l)) → (∀ l, Forall (λ kv, P kv.2) l → P (EMap l)) →
  (∀ p o e, P e → P (EUpdate p o e)) → (∀ op l r, P l → P r → P (EBinary op l r)) →
  (∀ f l, Forall P l → P (EFunction f l)) → (∀ f l, Forall P l → P (EStreamFunction f l)) → ∀ e, P e.
Proof.
  intros Hpipe Hun Hlit Hstr Hpath Harr Hmap Hupd Hbin Hfun Hsfun. fix IH 1.
  intros [l|l|v|l|p|l|l|p o e|op l r|f l|f l].
  - apply Hpipe. induction l; constructor; [apply IH|assumption].
  - apply Hun. induction l; constructor; [apply IH|assumption].
  - apply Hlit.
  - apply Hstr. induction l as [|[x|x] l IHl]; constructor; [intros ? [=]|exact IHl|intros ? [= <-]; apply IH|exact IHl].
  - apply Hpath.
  - apply Harr. induction l; constructor; [apply IH|assumption].
  - apply Hmap. induction l as [|[k x] l IHl]; constructor; [apply IH|exact IHl].
  - apply Hupd, IH.
  - apply Hbin; apply IH.
  - apply Hfun. induction l; constructor; [apply IH|assumption].
  - apply Hsfun. induction l; constructor; [apply IH|assumption].
Qed.

(** ** Well-formed results *)

Definition scalar_literal (v : value) : bool :=
  match v with VNull | VBool _ | VStr _ | VInt _ | VFloat _ => true | _ => false end.

(** Literals are the scalars the parser makes; without [nm] no compound
    assignment occurs inside an expression. *)
Fixpoint expr_ok (nm : bool) (e : expr) : bool :=
  match e with
  | EPipeline l | EUnion l | EArray l | EFunction _ l | EStreamFunction _ l => forallb (expr_ok nm) l
  | ELiteral v => scalar_literal v
  | EString parts => forallb (λ part, match part with inl _ => true | inr e => expr_ok nm e end) parts
  | EPath _ => true
  | EMap entries => forallb (λ kv, expr_ok nm kv.2) entries
  | EUpdate _ o e => match o with AssignSet | AssignUpdate => true | _ => nm end && expr_ok nm e
  | EBinary _ l r => expr_ok nm l && expr_ok nm r
  end.

Section wf.
#[local] Set Default Proof Using "All".
Context `{OverrideLaws} (nm : bool).
Abbreviation wf := (wf_value nm).
(** The one panic the evaluation can run into. *)
Abbreviation okZ := (okX conversion_gives_zero).
Abbreviation okv := (okZ wf).

(** *** Operators *)

Lemma wf_foldl_set {A} (f : A → value) (n : list (str * A)) c : wf (VMap c) → Forall (λ kv, wf (f kv.2)) n →
  wf (VMap (foldl (λ res '(key, v), map_set key (f v) res) c n)).
Proof.
  intros Hc Hn. revert c Hc. induction Hn as [|[k x] n Hx _ IH]; intros c Hc; simpl; [done|].
  apply IH. by apply wf_map_set.
Qed.

Lemma wf_merge lv rv : wf lv → wf rv → wf (mergeOverrideValues lv rv).
Proof.
  revert lv. induction rv as [| | | | | |n IH|] using value_ind'; intros lv Hl Hr;
    try (destruct lv; cbn [mergeOverrideValues]; rewrite ?clone_id; exact Hr).
  destruct lv as [| | | | | |m|]; try (cbn [mergeOverrideValues]; rewrite clone_id; exact Hr).
  cbn [mergeOverrideValues]. rewrite clone_id. apply wf_map in Hr as [_ Hr]. revert m Hl.
  induction IH as [|[k x] n Hx IHn IH]; intros m Hm; [done|]. apply Forall_cons in Hr as [Hx' Hr].
  apply IH; [done|]. apply wf_map_set; [done|]. rewrite clone_id.
  destruct (map_get k m) as [y|] eqn:E; [|done]. destruct y; try done. destruct x; try done.
  apply Hx; [|done]. by eapply wf_map_get.
Qed.

Lemma numbers_ok op a b : okv (evaluateOverrideNumbers op a b).
Proof.
  unfold evaluateOverrideNumbers. destruct (overrideNumber a) as [[x xi]|] eqn:Ea; [|done].
  destruct (overrideNumber b) as [[y yi]|] eqn:Eb; [|done]. destruct op; try done; simpl;
    destruct xi, yi; simpl; try done.
  destruct (SFeqb y (S754_zero false)) eqn:Ez; [done|].
  destruct b; try done. simpl in Eb. simplify_eq.
  destruct (int_of_float_nonzero _ Ez) as [Hz|Hz]; [by rewrite (proj2 (Z.eqb_neq _ _))|by case_match].
Qed.

Lemma repeat_ok s c : okv (repeat_string s c).
Proof. unfold repeat_string. by repeat (case_match; try done). Qed.

Lemma wf_strings (l : list str) : wf (VSeq (VStr <$> l)).
Proof. apply wf_seq. by apply Forall_fmap, Forall_true. Qed.

Lemma compare_ok op a b : okv (compare_op op a b).
Proof.
  unfold compare_op. destruct (negb _ || negb _); [done|].
  assert (okv (comparison ← compareOverrideValues a b;
    Ok (VBool match op with OpLt => (comparison <? 0)%Z | OpLe => (comparison <=? 0)%Z
                          | OpGt => (comparison >? 0)%Z | _ => (comparison >=? 0)%Z end))) as Hc.
  { unfold compareOverrideValues. by repeat (case_match; try done). }
  by destruct a, b.
Qed.

Lemma binary_ok op a b : wf a → wf b → okv (evaluateOverrideBinary op a b).
Proof.
  intros Ha Hb. pose proof (numbers_ok op a b) as Hnum. destruct op; simpl; try done; try apply compare_ok.
  - by destruct (overrideTruthy a).
  - unfold add_op. destruct a; rewrite ?clone_id; try done;
      try (destruct b; try done; rewrite ?clone_id; by repeat (case_match; try done)).
    + assert (∀ k, Forall wf k → okv (Ok (VSeq (l ++ k)))) as Happ.
      { intros k Hk. cbn [okX]. apply wf_seq, Forall_app. split; [by apply wf_seq|done]. }
      destruct b; try done; apply Happ; first [by apply wf_seq|by repeat constructor].
    + destruct b; try done. simpl. apply (wf_foldl_set cloneOverrideValue); [done|].
      apply wf_map in Hb as [_ Hb]. eapply Forall_impl; [exact Hb|]. intros [k x]. by rewrite clone_id.
  - unfold sub_op. destruct a; rewrite ?clone_id; try done. destruct b; try done. simpl. apply wf_seq.
    apply wf_seq in Ha. rewrite List.Forall_forall in *. intros x [Hx _]%List.filter_In. auto.
  - unfold mul_op. destruct a, b; rewrite ?clone_id; try done; try apply repeat_ok.
    by apply wf_merge.
  - unfold div_op. destruct a; try done. destruct b; try done. case_decide; [done|]. simpl. apply wf_strings.
Qed.

(** *** Paths *)

Lemma wf_lookup v p : wf v → Forall wf (lookupOverridePathStream v p).
Proof.
  revert v. induction p as [|[key|i|] p IH]; intros v Hv; simpl; [by repeat constructor|..].
  - destruct v; try by repeat constructor. apply IH. by apply wf_map_at.
  - destruct v as [| | | | |l| |]; try by repeat constructor. destruct (nth_value _ _) as [x|] eqn:E; [|by repeat constructor].
    apply IH. unfold nth_value in E. case_match; [done|]. by eapply wf_seq_lookup.
  - destruct v as [| | | | |l|m|]; try constructor; apply Forall_bind.
    + apply wf_seq in Hv. eapply Forall_impl; [exact Hv|auto].
    + apply wf_map in Hv as [_ Hv]. eapply Forall_impl; [exact Hv|]. intros [k x]; auto.
Qed.

Lemma mapR_keys {A B} (f : A → result B) (m : list (str * A)) m' :
  mapR (λ kv, x ← f kv.2; Ok (kv.1, x)) m = Ok m' → m'.*1 = m.*1.
Proof.
  revert m'. induction m as [|[k x] m IH]; simpl; intros m'; [by intros [= <-]|].
  intros (kv & (y & Hy & [= <-])%result_bind_Ok & (ys & Hys & [= <-])%result_bind_Ok)%result_bind_Ok.
  simpl. f_equal. by apply IH.
Qed.

Lemma map_values_ok (f : value → result value) m : (∀ x, wf x → okv (f x)) → wf (VMap m) →
  okZ (λ m', wf (VMap m')) (mapR (λ kv, x ← f kv.2; Ok (kv.1, x)) m).
Proof.
  intros Hf [Hs Hm]%wf_map.
  assert (okZ (Forall (λ kv, wf kv.2)) (mapR (λ kv, x ← f kv.2; Ok (kv.1, x)) m)) as Hok.
  { apply okR_mapR. intros [k x] Hx. rewrite Forall_forall in Hm. specialize (Hm _ Hx). simpl in *.
    specialize (Hf x Hm). by destruct (f x). }
  pose proof (mapR_keys f m) as Hk. destruct (mapR _ m) as [m'| |]; [|done..].
  simpl in *. apply wf_map. by rewrite (Hk m' eq_refl).
Qed.

Lemma wf_pad i l : wf (VSeq l) → Forall wf (pad_to i l).
Proof.
  intros Hl%wf_seq. apply Forall_app. split; [done|]. apply List.Forall_forall. by intros x ->%repeat_spec.
Qed.

Lemma wf_default (o : option value) : (∀ x, o = Some x → wf x) → wf (default VNull o).
Proof. destruct o; simpl; auto. Qed.

Lemma update_ok node p u : (∀ old, wf old → okv (u old)) → wf node → okv (updateOverridePath node p u).
Proof.
  intros Hu. revert node. induction p as [|[key|i|] p IH]; intros node Hn; cbn [updateOverridePath]; [auto|..].
  - assert (∀ m, wf (VMap m) → okv (x ← updateOverridePath (map_at key m) p u; Ok (VMap (map_set key x m)))) as Hm.
    { intros m Hm. eapply okR_bind; [by apply IH, wf_map_at|]. intros x Hx. by apply wf_map_set. }
    destruct node; try done; apply Hm; [by split; [constructor|]|done].
  - assert (∀ l, wf (VSeq l) → okv (
      if (resolve_index i (length l) <? 0)%Z then Err "array index is out of range"
      else x ← updateOverridePath (default VNull (pad_to (resolve_index i (length l)) l !! Z.to_nat (resolve_index i (length l)))) p u;
           Ok (VSeq (<[Z.to_nat (resolve_index i (length l)) := x]> (pad_to (resolve_index i (length l)) l))))) as Hl.
    { intros l Hl. case_match; [done|]. pose proof (wf_pad (resolve_index i (length l)) l Hl) as Hp.
      eapply okR_bind; [apply IH, wf_default; intros; by eapply Forall_lookup|].
      intros x Hx. cbn [okX]. apply wf_seq. by apply Forall_insert. }
    destruct node; try done; by apply Hl.
  - destruct node as [| | | | |l|m|]; try done.
    + eapply okR_bind; [apply okR_mapR|by intros l' Hl'%wf_seq].
      intros x Hx. apply IH. apply wf_seq in Hn. rewrite Forall_forall in Hn. auto.
    + eapply okR_bind; [by apply (map_values_ok (λ x, updateOverridePath x p u))|]. auto.
Qed.

Lemma wf_delete node paths : wf node → wf (deleteOverridePaths node paths).
Proof.
  revert paths. induction node as [| | | | |l IH|m IH|] using value_ind'; intros paths Hn; try done.
  - rewrite delete_seq. apply wf_seq in Hn. apply wf_seq, Forall_forall. intros x Hx.
    apply list_elem_of_omap in Hx as ([i y] & Hy & Hf). apply elem_of_lookup_imap in Hy as (j & z & [= <- <-] & Hz).
    simpl in Hf. destruct (child_tails _ _) as [ts|]; [|done]. simplify_eq/=.
    eapply (Forall_lookup_1 _ _ _ _ IH Hz). by eapply Forall_lookup.
  - rewrite delete_map. apply wf_map in Hn as [Hs Hm]. apply wf_map. split.
    + clear IH Hm. induction m as [|[k x] m IHm]; [constructor|]. apply StronglySorted_inv in Hs as [Hs Hk].
      cbn [omap list_omap fst snd]. destruct (child_tails _ _) as [ts|]; simpl; [|auto].
      constructor; [auto|]. rewrite Forall_forall in *. intros k' Hk'. apply Hk.
      apply list_elem_of_fmap in Hk' as ([k1 x1] & -> & Hin). apply list_elem_of_omap in Hin as ([k2 x2] & Hin & Hf).
      simpl in Hf. destruct (child_tails _ _); [|done]. simplify_eq/=. apply list_elem_of_fmap. by exists (k1, x2).
    + apply Forall_forall. intros kv Hkv. apply list_elem_of_omap in Hkv as ([k x] & Hin & Hf).
      simpl in Hf. destruct (child_tails _ _) as [ts|]; [|done]. simplify_eq/=.
      rewrite Forall_forall in IH, Hm. apply (IH _ Hin), (Hm _ Hin).
Qed.

(** *** Functions *)

Lemma flatten_wf v d : wf v → Forall wf (flatten_value v d).
Proof.
  revert d. induction v as [| | | | |l IH| |] using value_ind'; intros d Hv; cbn [flatten_value]; rewrite ?clone_id;
    try (constructor; [exact Hv|constructor]).
  case_match; [constructor; [exact Hv|constructor]|]. apply wf_seq in Hv.
    induction IH as [|x l Hx _ IHl]; [constructor|]. apply Forall_cons in Hv as [Hx' Hl].
    apply Forall_app. auto.
Qed.

Lemma unique_ok seen l : Forall wf l → okZ (Forall wf) (unique_values seen l).
Proof.
  intros Hl. revert seen. induction Hl as [|x l Hx _ IH]; intros seen; simpl; [constructor|].
  eapply (okR_bind (λ _, True)).
  { unfold overrideUniqueKey. pose proof (yaml_Marshal_returns x).
    destruct (isOverrideScalar x); [by destruct x|]. by destruct (yaml_Marshal x). }
  intros key _. case_decide; [auto|]. eapply okR_bind; [apply IH|]. intros r Hr. simpl.
  rewrite clone_id. by constructor.
Qed.

Lemma marshal_ok x : okZ (λ v, v = VNoMatch ∨ wf v) (encoded ← yaml_Marshal x; Ok (VStr (trim_newline encoded))).
Proof. pose proof (yaml_Marshal_returns x). destruct (yaml_Marshal x); simpl; [auto|done|done]. Qed.

Lemma wf_seq_sub (l k : list value) : wf (VSeq l) → (∀ x, x ∈ k → x ∈ l) → wf (VSeq k).
Proof. rewrite !wf_seq, !Forall_forall. auto. Qed.

Lemma wf_flatten l d : wf (VSeq l) → wf (VSeq (flattenOverrideArray l d)).
Proof.
  intros Hl%wf_seq. apply wf_seq, Forall_bind. eapply Forall_impl; [exact Hl|]. intros x. apply flatten_wf.
Qed.

#[local] Arguments wf_value : simpl never.

(** No argument of a function becomes part of its result. *)
Lemma function_ok name input args : wf input →
  okZ (λ v, v = VNoMatch ∨ wf v) (eval_function name input args).
Proof.
  intros Hi. destruct name; simpl;
    unfold fn_length, fn_type, fn_keys, fn_has, fn_contains, fn_select, fn_sub, fn_test, fn_split,
      fn_join, fn_case, fn_tostring, fn_tonumber, fn_not, fn_reverse, fn_sort, fn_unique, fn_flatten,
      fn_any, fn_all, args0, args1, args2, stringArg, stringInput, arrayInput, compile_pattern;
    repeat (case_match; simplify_eq/=; try done; try by right); try (by left); try apply marshal_ok;
    try (right; first [apply wf_strings|by apply wf_flatten]).
  - right. apply wf_seq. by apply Forall_fmap, Forall_true.
  - right. apply wf_seq. by apply Forall_fmap, Forall_true.
  - right. eapply wf_seq_sub; [done|]. intros x. by rewrite !list_elem_of_In, <- in_rev.
  - right. eapply wf_seq_sub; [done|]. intros x. by rewrite sort_stable_perm.
  - eapply okR_bind; [by apply unique_ok, wf_seq|]. intros r Hr%wf_seq. by right.
Qed.

(** *** Entries and streams *)

Lemma wf_entry k x : wf k → wf x → wf (entry_value k x).
Proof.
  intros. unfold entry_value. apply wf_map. split; [|by repeat constructor].
  repeat constructor.
Qed.

Lemma to_entries_ok v : wf v → okZ (λ o, ∀ es, o = Some es → Forall wf es) (toOverrideEntries v).
Proof.
  intros Hv. destruct v as [| | | | |l|m|]; simpl; try done; intros es [= <-].
  - apply Forall_forall. intros x (i & y & -> & Hy)%elem_of_lookup_imap. rewrite clone_id.
    apply wf_entry; [done|]. by eapply wf_seq_lookup.
  - apply wf_map in Hv as [_ Hv]. apply Forall_fmap. eapply Forall_impl; [exact Hv|].
    intros [k x] Hx. simpl. rewrite clone_id. by apply wf_entry.
Qed.

Lemma from_entries_ok l : Forall wf l → okv (fromOverrideEntries (VSeq l)).
Proof.
  intros Hl. simpl. eapply (okR_bind (λ m, wf (VMap m))); [|done].
  apply okR_foldM; [|by apply wf_map; split; constructor].
  intros x m Hx Hm. rewrite Forall_forall in Hl. specialize (Hl _ Hx). unfold from_entry.
  destruct x as [| | | | | |e|]; try done. destruct (map_get (lit "key") e) as [k|]; [|done].
  destruct (map_get (lit "value") e) as [x|] eqn:E; [|done]. destruct k; try done.
  cbn [okX]. apply wf_map_set; [done|]. rewrite clone_id. by eapply (wf_map_get _ e).
Qed.

Lemma to_stream_ok r : okZ (λ v, v = VNoMatch ∨ wf v) r → okZ (Forall wf) (to_stream r).
Proof.
  intros Hr. eapply okR_bind; [exact Hr|]. intros v [->|Hv]; [constructor|]. simpl.
  destruct (isOverrideNoMatch v); by repeat constructor.
Qed.

Lemma single_ok r : okZ (Forall wf) r → okZ (λ v, v = VNoMatch ∨ wf v) (single r).
Proof.
  intros Hr. eapply okR_bind; [exact Hr|]. intros [|v [|]]; simpl; [by left| |done].
  intros Hv. right. by inversion Hv.
Qed.

Lemma quantify_ok stop f l : (∀ x, wf x → okZ (Forall wf) (f x)) → Forall wf l → okZ (λ _, True) (quantify stop f l).
Proof.
  intros Hf. induction 1 as [|x l Hx _ IH]; simpl; [done|].
  eapply okR_bind; [by apply Hf|]. intros [|i items] _; [done|]. by case_match.
Qed.

Lemma eval_binary_ok op (lefts : list value) (right : unit → result (list value)) : Forall wf lefts → okZ (Forall wf) (right tt) →
  okZ (Forall wf) (eval_binary op lefts right).
Proof.
  intros Hl Hr. rewrite Forall_forall in Hl.
  assert (okZ (Forall wf) (collect (λ left, if overrideTruthy left then Ok [left] else right tt) lefts)) as Halt.
  { apply okR_collect. intros x Hx. case_match; [|done]. simpl. repeat constructor. auto. }
  assert (∀ b : bool, okZ (Forall wf) (if b then Ok ((λ l, VBool (bool_decide (op = OpOr) && overrideTruthy l)) <$> lefts)
    else rights ← right tt; collect (λ left,
        if bool_decide (op = OpAnd) && negb (overrideTruthy left) then Ok [VBool false]
        else if bool_decide (op = OpOr) && overrideTruthy left then Ok [VBool true]
        else mapR (evaluateOverrideBinary op left) rights) lefts)) as Hrest.
  { intros [|]; simpl; [by apply Forall_fmap, Forall_true|]. eapply okR_bind; [exact Hr|]. intros rs Hrs.
    apply okR_collect. intros x Hx. case_match; [by repeat constructor|]. case_match; [by repeat constructor|].
    apply okR_mapR. intros y Hy. rewrite Forall_forall in Hrs. apply binary_ok; auto. }
  destruct op; try apply Hrest. simpl. by destruct lefts.
Qed.

(** *** Expressions *)

Lemma eval_update_ok p o run input : match o with AssignSet | AssignUpdate => True | _ => nm = true end →
  (∀ x, wf x → okZ (λ v, v = VNoMatch ∨ wf v) (run x)) → wf input → okv (eval_update p o run input).
Proof.
  intros Ho Hrun Hi. unfold eval_update. rewrite clone_id.
  assert (nm = true → okv (v ← run input; updateOverridePath input p (λ old, evaluateOverrideBinary (assign_binop o) old v))) as Hc.
  { intros Hnm. eapply okR_bind; [by apply Hrun|]. intros v Hv. apply update_ok; [|done]. intros old Hold.
    apply binary_ok; [done|]. by destruct Hv as [->|]. }
  destruct o; auto.
  - eapply okR_bind; [by apply Hrun|]. intros v Hv. destruct (isOverrideNoMatch v) eqn:E; [done|].
    apply update_ok; [|done]. intros _ _. rewrite clone_id. by destruct Hv as [->|].
  - apply update_ok; [|done]. intros old Hold. eapply okR_bind; [by apply Hrun|]. intros v Hv. cbn [okX].
    destruct (isOverrideNoMatch v) eqn:E; [done|]. by destruct Hv as [->|].
Qed.

Lemma stream_function_ok name n mapped run input : (∀ l, Forall wf l → okZ (Forall wf) (mapped l)) →
  (∀ x, wf x → okZ (Forall wf) (run x)) → wf input →
  okZ (Forall wf) (eval_stream_function name n mapped run input).
Proof.
  intros Hmap Hrun Hi.
  assert (okZ (Forall wf) (overrideCollectionValues input)) as Hcol.
  { destruct input as [| | | | |l|m|]; simpl; try done; [by apply wf_seq|].
    apply wf_map in Hi as [_ Hi]. by apply Forall_fmap. }
  destruct n as [|n], name; simpl; try done.
  - eapply okR_bind; [by apply to_entries_ok|]. intros [es|] Hes; [|constructor].
    simpl. constructor; [by apply wf_seq, Hes|constructor].
  - eapply (okR_bind wf); [|by repeat constructor]. destruct input; try done.
    by apply from_entries_ok, wf_seq.
  - eapply okR_bind; [exact Hcol|]. intros l Hl. eapply okR_bind; [by apply Hmap|].
    intros items Hit. constructor; [by apply wf_seq|constructor].
  - eapply okR_bind; [exact Hcol|]. intros l Hl. eapply (okR_bind (Forall wf)).
    + apply okR_collect. intros x Hx. rewrite Forall_forall in Hl. eapply okR_bind; [apply Hrun, Hl, Hx|].
      intros items _. simpl. rewrite clone_id. case_match; repeat constructor. auto.
    + intros items Hit. constructor; [by apply wf_seq|constructor].
  - assert (∀ v, wf v → okv (items ← run v; Ok match items with [] => v | x :: _ => cloneOverrideValue x end)) as Hu.
    { intros v Hv. eapply okR_bind; [by apply Hrun|]. intros [|x items] Hit; [done|]. cbn [okX].
      rewrite clone_id. by inversion Hit. }
    rewrite clone_id. destruct input as [| | | | |l|m|]; try done.
    + eapply (okR_bind (Forall wf)); [apply okR_mapR|].
      * intros x Hx. apply Hu. apply wf_seq in Hi. rewrite Forall_forall in Hi. auto.
      * intros l' Hl'. constructor; [by apply wf_seq|constructor].
    + eapply okR_bind; [by apply (map_values_ok _ m Hu)|]. intros m' Hm'. by constructor.
  - destruct input as [| | | | | |m|]; try done. pose proof (to_entries_ok _ Hi) as Hes. simpl in *.
    specialize (Hes _ eq_refl). eapply (okR_bind (Forall wf)).
    + apply okR_collect. intros x Hx. apply Hrun. rewrite Forall_forall in Hes. auto.
    + intros es Hes'. eapply okR_bind; [by apply from_entries_ok|]. intros v Hv. by constructor.
  - destruct input as [| | | | |l| |]; try done. eapply okR_bind; [by eapply quantify_ok, wf_seq|]. by repeat constructor.
  - destruct input as [| | | | |l| |]; try done. eapply okR_bind; [by eapply quantify_ok, wf_seq|]. by repeat constructor.
Qed.

Lemma interpolate_ok vs : okZ (λ _, True) (interpolate vs).
Proof.
  destruct vs as [|v vs]; simpl; [done|]. pose proof (yaml_Marshal_returns v).
  destruct v; simpl; try done; by destruct (yaml_Marshal _).
Qed.

Lemma evs_ok e inputs : expr_ok nm e = true → Forall wf inputs → okZ (Forall wf) (evs e inputs).
Proof.
  revert inputs. induction e as [l IH|l IH|v|l IH|p|l IH|l IH|p o e IH|op l r IHl IHr|f l IH|f l IH] using expr_ind';
    intros inputs He Hi; cbn [expr_ok evs] in *.
  2: { rewrite forallb_forall in He. rewrite Forall_forall in IH. apply okR_collect. intros x Hx.
       apply IH; [done| |done]. by apply He, list_elem_of_In. }
  all: apply okR_collect; intros x Hx; rewrite Forall_forall in Hi; specialize (Hi _ Hx);
    assert (Forall wf [x]) as Hi1 by by repeat constructor.
  - rewrite forallb_forall in He. rewrite Forall_forall in IH. apply okR_stages; [|done].
    intros e s Hin Hs. apply IH; [done| |done]. by apply He, list_elem_of_In.
  - apply to_stream_ok. right. rewrite clone_id. by destruct v.
  - eapply (okR_bind (Forall (λ _, True))).
    + apply okR_mapR. intros part Hp. rewrite forallb_forall in He. rewrite Forall_forall in IH.
      specialize (He _ (proj1 (list_elem_of_In _ _) Hp)). destruct part as [t|e]; [done|].
      eapply okR_bind; [by eapply IH|]. intros vs _. apply interpolate_ok.
    + intros. apply to_stream_ok. by right.
  - by apply wf_lookup.
  - eapply (okR_bind (Forall wf)).
    + apply okR_collect. intros e Hin. rewrite forallb_forall in He. rewrite Forall_forall in IH.
      apply IH; [done| |done]. by apply He, list_elem_of_In.
    + intros items Hit. apply to_stream_ok. right. by apply wf_seq.
  - eapply (okR_bind (λ m, wf (VMap m))).
    + apply okR_stages; [|by apply wf_map; split; constructor]. intros [k e] s Hin Hs.
      rewrite forallb_forall in He. rewrite Forall_forall in IH.
      eapply okR_bind; [eapply (IH (k, e)); [done| |done]; by apply (He (k, e)), list_elem_of_In|].
      intros vs Hvs. cbn [okX]. destruct (last vs) as [y|] eqn:E; [|done]. apply wf_map_set; [done|].
      rewrite Forall_forall in Hvs. apply Hvs. by apply last_Some_elem_of.
    + intros m Hm. apply to_stream_ok. by right.
  - apply andb_true_iff in He as [Ho He]. apply to_stream_ok. eapply okR_impl; [apply eval_update_ok|by right].
    + by destruct o.
    + intros y Hy. apply single_ok, IH; [done|by repeat constructor].
    + done.
  - apply andb_true_iff in He as [Hl Hr]. eapply okR_bind; [by apply IHl|]. intros lefts Hls.
    apply eval_binary_ok; [done|]. by apply IHr.
  - case_match; [constructor|]. eapply (okR_bind (Forall (λ _, True))).
    + apply okR_mapR. intros e Hin. rewrite forallb_forall in He. rewrite Forall_forall in IH.
      eapply okR_impl; [apply single_ok, IH; [done|by apply He, list_elem_of_In|done]|done].
    + intros args _. apply to_stream_ok. by apply function_ok.
  - rewrite forallb_forall in He. rewrite Forall_forall in IH.
    apply stream_function_ok; [..|done].
    + intros vs Hvs. apply okR_collect. intros e Hin. apply IH; [done|by apply He, list_elem_of_In|done].
    + intros y Hy. apply okR_collect. intros e Hin. apply IH; [done|by apply He, list_elem_of_In|by repeat constructor].
Qed.
End wf.

(** ** Collections *)

(** *** Entries *)

Lemma map_set_last {A} k (v : A) m : Forall (λ k', str_lt k' k) m.*1 → map_set k v m = m ++ [(k, v)].
Proof.
  induction m as [|[k' v'] m IH]; simpl; [done|]. intros [Hk Hm]%Forall_cons. unfold str_lt in Hk.
  rewrite decide_False by (intros ->; by apply str_ltb_ne in Hk).
  rewrite (str_ltb_asym _ _ Hk). by rewrite IH.
Qed.

Lemma from_entry_entry acc k v : from_entry acc (entry_value (VStr k) v) = Ok (map_set k v acc).
Proof. rewrite <- (clone_id v) at 2. reflexivity. Qed.

Lemma from_to_entries (acc m : list (str * value)) : sorted_map (acc ++ m) →
  foldM from_entry acc ((λ kv, entry_value (VStr kv.1) (cloneOverrideValue kv.2)) <$> m) = Ok (acc ++ m).
Proof.
  revert acc. induction m as [|[k v] m IH]; intros acc Hs; [by rewrite app_nil_r|].
  cbn [fmap list_fmap foldM fst snd]. rewrite from_entry_entry, clone_id, map_set_last.
  - cbn [mbind result_bind]. rewrite IH; by rewrite <- app_assoc.
  - rewrite fmap_app in Hs. apply StronglySorted_app in Hs as (Hlt & _ & _).
    apply Forall_forall. intros k' Hk'. apply Hlt; [done|]. simpl. left.
Qed.

Section collections.
Context `{OverrideEnv}.

Lemma to_from_entries m : sorted_map m →
  (es ← toOverrideEntries (VMap m); match es with Some es => fromOverrideEntries (VSeq es) | None => Ok VNull end) = Ok (VMap m).
Proof. intros Hs. simpl. by rewrite (from_to_entries [] m Hs). Qed.

Lemma collect_singleton {A} (l : list A) : collect (λ x, Ok [x]) l = Ok l.
Proof. induction l as [|x l IH]; simpl; [done|]. by rewrite IH. Qed.

Lemma evs_dot l : evs (EPath []) l = Ok l.
Proof. apply collect_singleton. Qed.

(** [to_entries | from_entries]. *)
Definition through_entries : expr := EPipeline [EStreamFunction Sto_entries []; EStreamFunction Sfrom_entries []].

(** A mapping survives the trip through its entries: [to_entries |
    from_entries] and [with_entries(.)] give it back. *)
Theorem entries_roundtrip (m : list (str * value)) : wf_value true (VMap m) →
  evs through_entries [VMap m] = Ok [VMap m] ∧
  evs (EStreamFunction Swith_entries [EPath []]) [VMap m] = Ok [VMap m].
Proof.
  intros [Hs _]%wf_map. pose proof (from_to_entries [] m Hs) as Hf. simpl in Hf. split.
  - cbn. by rewrite Hf.
  - cbn -[collect].
    assert (∀ l, collect (λ x, collect (λ a, evs a [x]) [EPath []]) l = Ok l) as Hid.
    { induction l as [|x l IH]; [done|]. cbn in *. by rewrite IH. }
    change (collect ?f [VMap m]) with (ys ← f (VMap m); Ok (ys ++ [])). cbn [toOverrideEntries mbind result_bind].
    rewrite Hid. cbn. by rewrite Hf.
Qed.

(** Joining what a split returns gives the string back, for every
    separator, the empty one included. *)
Theorem split_join_roundtrip (s sep : str) :
  evs (EPipeline [EFunction Fsplit [ELiteral (VStr sep)]; EFunction Fjoin [ELiteral (VStr sep)]]) [VStr s]
  = Ok [VStr s].
Proof.
  cbn -[Split join]. rewrite <- list_fmap_compose. do 3 f_equal.
  rewrite (list_fmap_ext _ id) by done. rewrite list_fmap_id. apply join_Split.
Qed.
End collections.

Lemma entries_roundtrip_witness :
  @evs literal_env (EStreamFunction Swith_entries [EPath []])
    [VMap [(lit "a", VNull); (lit "b", VSeq [VInt 1])]] = Ok [VMap [(lit "a", VNull); (lit "b", VSeq [VInt 1])]].
Proof. apply (@entries_roundtrip literal_env). repeat split; repeat constructor. Defined.

(** *** Sorting *)

(** Numbers other than NaN are ordered like these triples. *)
Definition float_key (f : spec_float) : Z * Z * Z :=
  match f with
  | S754_infinity true => (-2, 0, 0)
  | S754_finite true m e => (-1, - e, Zneg m)
  | S754_finite false m e => (1, e, Zpos m)
  | S754_infinity false => (2, 0, 0)
  | _ => (0, 0, 0)
  end%Z.
Definition key_lt (x y : Z * Z * Z) : Prop :=
  (x.1.1 < y.1.1 ∨ x.1.1 = y.1.1 ∧ (x.1.2 < y.1.2 ∨ x.1.2 = y.1.2 ∧ x.2 < y.2))%Z.

Lemma SFltb_key f g : f ≠ S754_nan → g ≠ S754_nan → SFltb f g = true ↔ key_lt (float_key f) (float_key g).
Proof.
  intros Hf Hg. unfold SFltb, key_lt.
  destruct f as [[]|[]| |[] m e], g as [[]|[]| |[] m' e']; try done; simpl; try (split; [done|lia]); try (split; [lia|done]).
  - change (Pos.compare_cont Eq m m') with (Pos.compare m m').
    destruct (Z.compare_spec e e'), (Pos.compare_spec m m'); simpl; split; try done; try lia.
  - change (Pos.compare_cont Eq m m') with (Pos.compare m m').
    destruct (Z.compare_spec e e'), (Pos.compare_spec m m'); simpl; split; try done; try lia.
Qed.

Lemma SFltb_false f g : f ≠ S754_nan → g ≠ S754_nan → SFltb f g = false ↔ ¬ key_lt (float_key f) (float_key g).
Proof. intros Hf Hg. rewrite <- SFltb_key by done. by destruct (SFltb f g). Qed.

(** The conversion of an integer is a number. *)
Lemma shr_1_nonneg r : (0 ≤ shr_m r)%Z → (0 ≤ shr_m (shr_1 r))%Z.
Proof. destruct r as [[|[p|p|]|p] b c]; simpl; lia. Qed.

Lemma iter_shr_nonneg n r : (0 ≤ shr_m r)%Z → (0 ≤ shr_m (SpecFloat.iter_pos shr_1 n r))%Z.
Proof. revert r. induction n as [n IH|n IH|]; intros r Hr; simpl; auto using shr_1_nonneg. Qed.

Lemma shr_fexp_nonneg m e l : (0 ≤ m)%Z → (0 ≤ shr_m (shr_fexp 53 1024 m e l).1)%Z.
Proof.
  intros Hm. unfold shr_fexp, shr. assert (0 ≤ shr_m (shr_record_of_loc m l))%Z by (by destruct l as [|[]]).
  destruct (_ - e)%Z; simpl; auto using iter_shr_nonneg.
Qed.

Lemma float_of_int_not_nan n : float_of_int n ≠ S754_nan.
Proof.
  assert (∀ s p e, binary_round_aux 53 1024 s (Zpos p) e loc_Exact ≠ S754_nan) as Haux.
  { intros s p e. unfold binary_round_aux. pose proof (shr_fexp_nonneg (Zpos p) e loc_Exact ltac:(lia)) as H1.
    destruct (shr_fexp 53 1024 (Zpos p) e loc_Exact) as [r1 e1]. simpl in H1.
    set (x := round_nearest_even _ _). assert (0 ≤ x)%Z as Hx.
    { subst x. destruct (loc_of_shr_record r1) as [|[]]; simpl; try lia. destruct (Z.even _); lia. }
    pose proof (shr_fexp_nonneg x e1 loc_Exact Hx) as H2. destruct (shr_fexp 53 1024 x e1 loc_Exact) as [r2 e2].
    simpl in H2. destruct (shr_m r2); [done| |lia]. by destruct (Z.leb _ _). }
  unfold float_of_int, binary_normalize, binary_round. destruct n; [done|..];
    destruct (shl_align _ _ _) as [mz ez]; apply Haux.
Qed.

Definition not_nan (v : value) : Prop := v ≠ VFloat S754_nan.

Lemma number_not_nan `{OverrideEnv} v x b : not_nan v → overrideNumber v = Some (x, b) → x ≠ S754_nan.
Proof. intros Hv. destruct v; simpl; try done; intros [= <- _]; [apply float_of_int_not_nan|congruence]. Qed.

Section sorting.
Context `{OverrideLaws}.
#[local] Set Default Proof Using "All".

(** The order inside one type. *)
Definition inner_less (a b : value) : bool :=
  match a, b with
  | VBool x, VBool y => negb x && y
  | VStr s, VStr t => str_ltb s t
  | _, _ => match overrideNumber a, overrideNumber b with
            | Some (x, _), Some (y, _) => SFltb x y
            | _, _ => false
            end
  end.

Lemma sort_less_spec a b :
  sort_less a b = if (sort_rank a =? sort_rank b)%Z then inner_less a b else (sort_rank a <? sort_rank b)%Z.
Proof.
  unfold sort_less, compareOverrideSortValues.
  destruct (Z.eqb_spec (sort_rank a) (sort_rank b)) as [E|E]; simpl.
  2: { by destruct (sort_rank a <? sort_rank b)%Z. }
  destruct a, b; try done; simpl; unfold compareOverrideValues; simpl;
    repeat match goal with
    | |- context [SFltb ?x ?y] => destruct (SFltb x y)
    end; try done.
  - by destruct b0, b.
  - unfold str_compare. destruct (decide (s = s0)) as [->|Hne]; [by rewrite str_ltb_irrefl|]. by destruct (str_ltb s s0).
Qed.

Lemma inner_asym a b : not_nan a → not_nan b → inner_less a b = true → inner_less b a = false.
Proof.
  intros Ha Hb. assert (∀ x y, overrideNumber a = Some x → overrideNumber b = Some y →
    SFltb x.1 y.1 = true → SFltb y.1 x.1 = false) as Hnum.
  { intros [x bx] [y by_] Ex Ey. pose proof (number_not_nan _ _ _ Ha Ex). pose proof (number_not_nan _ _ _ Hb Ey). simpl.
    rewrite SFltb_key, SFltb_false by done. unfold key_lt. lia. }
  destruct a, b; simpl in *; try done; try (apply (Hnum _ _ eq_refl eq_refl)).
  - by destruct b0, b.
  - apply str_ltb_asym.
Qed.

Lemma inner_negtrans a b c : not_nan a → not_nan b → not_nan c →
  sort_rank a = sort_rank b → sort_rank b = sort_rank c →
  inner_less b a = false → inner_less c b = false → inner_less c a = false.
Proof.
  intros Ha Hb Hc Hab Hbc. assert (∀ x y z, overrideNumber a = Some x → overrideNumber b = Some y → overrideNumber c = Some z →
    SFltb y.1 x.1 = false → SFltb z.1 y.1 = false → SFltb z.1 x.1 = false) as Hnum.
  { intros [x bx] [y by_] [z bz] Ex Ey Ez. pose proof (number_not_nan _ _ _ Ha Ex). pose proof (number_not_nan _ _ _ Hb Ey).
    pose proof (number_not_nan _ _ _ Hc Ez). simpl. rewrite !SFltb_false by done. unfold key_lt. lia. }
  destruct a, b; try done; destruct c; try done; simpl in *; try (apply (Hnum _ _ _ eq_refl eq_refl eq_refl)).
  - by destruct b, b0, b1.
  - apply str_ltb_negtrans.
Qed.

Lemma sort_less_weak l : Forall not_nan l → strict_weak_on sort_less l.
Proof.
  intros Hl. rewrite Forall_forall in Hl. split.
  - intros x y Hx Hy. rewrite !sort_less_spec, (Z.eqb_sym (sort_rank y)).
    destruct (Z.eqb_spec (sort_rank x) (sort_rank y)); [apply inner_asym; auto|]. rewrite Z.ltb_lt, Z.ltb_ge. lia.
  - intros x y z Hx Hy Hz. rewrite !sort_less_spec.
    destruct (Z.eqb_spec (sort_rank y) (sort_rank x)), (Z.eqb_spec (sort_rank z) (sort_rank y)),
      (Z.eqb_spec (sort_rank z) (sort_rank x)); rewrite ?Z.ltb_ge; try lia.
    apply inner_negtrans; auto.
Qed.

(** [sort] rejects an array with two values that are not scalars; on any
    other array without NaN it returns the elements in order (null, booleans,
    numbers by value, strings by bytes, at most one collection last), and keeps
    the order of equal ones. *)
Theorem sort_correct (l : list value) : Forall not_nan l →
  if unsortable l then ∃ e, evs (EFunction Fsort []) [VSeq l] = Err e
  else ∃ l', evs (EFunction Fsort []) [VSeq l] = Ok [VSeq l'] ∧ l' ≡ₚ l
    ∧ StronglySorted (λ x y, sort_less y x = false) l'
    ∧ ∀ x, x ∈ l → List.filter (same_class sort_less x) l' = List.filter (same_class sort_less x) l.
Proof.
  intros Hl. pose proof (sort_less_weak l Hl) as Hw. destruct (unsortable l) eqn:E.
  - eexists. cbn -[unsortable]. unfold fn_sort, args0, arrayInput. by rewrite E.
  - exists (sort_stable sort_less l). split.
    { cbn -[unsortable]. unfold fn_sort, args0, arrayInput. by rewrite E. }
    split; [apply sort_stable_perm|]. split; [by apply sort_stable_sorted|].
    intros x Hx. by apply sort_stable_stable.
Qed.
End sorting.

Lemma sort_correct_witness : ∃ l',
  @evs literal_env (EFunction Fsort []) [VSeq [VStr (lit "b"); VInt 3; VNull; VInt (-2)]] = Ok [VSeq l'] ∧
  l' ≡ₚ [VStr (lit "b"); VInt 3; VNull; VInt (-2)].
Proof.
  destruct (@sort_correct literal_env literal_laws [VStr (lit "b"); VInt 3; VNull; VInt (-2)]) as (l' & H1 & H2 & _).
  - repeat constructor; discriminate.
  - by exists l'.
Defined.
