(* ===== verification/OverrideApply.v ===== *)
(** * OverrideApply: override statements and the override of a provider

    The statements of src/adapter/provider/override_expr.go (assignment,
    deletion, filter) and [overrideSchema.Apply] of
    src/adapter/provider/override.go, which rewrite the mapping of one proxy
    before it is built.

    A statement takes the entries of the mapping to the entries after it; on an
    error the provider drops the proxy, so the half-updated mapping is not part
    of the result. A mapping that is decoded from a document is a tree, and one
    statement on a tree is modelled exactly. Between statements the code can
    share structure in one way, an update [|=] whose right side mentions its
    input twice; [Apply] and its theorems are about mappings that stay trees. *)
From Stdlib Require Import SpecFloat.
From S2P Require Import Prelude GoStrings NetIP OverrideValue OverrideEval OverrideFacts.

(** ** Statements *)

Inductive target_stage :=
| StagePath (p : path)
| StageCond (condition : expr).

Inductive statement :=
| AssignStatement (p : path) (target : option (list target_stage)) (operator : assign_op) (v : expr)
| FilterStatement (e : expr)
| DeleteStatement (paths : list path).

Abbreviation mapping := (list (str * value)).

Section apply.
Context `{OverrideEnv}.

Definition resolve_stage (st : target_stage) (sels : list selection) : result (list selection) :=
  match st with
  | StagePath p => Ok (sels ≫= λ s, expandOverrideTargetPath s p)
  | StageCond c => collect (λ s, matches ← evalOverrideStream c (sel_value s);
                                 Ok (if existsb overrideTruthy matches then [s] else [])) sels
  end.
Definition resolve (stages : list target_stage) (root : value) : result (list selection) :=
  stagesR resolve_stage stages [Selection root []].

(** The mapping of a root value. *)
Definition root_mapping (updated : value) : result mapping :=
  match updated with
  | VMap m => Ok m
  | _ => Err "root expression must produce a mapping"
  end.

(** The update of the selected paths one after the other. *)
Definition update_selections (sels : list selection) (updater : value → result value) (m : mapping) : result mapping :=
  foldM (λ m s, updated ← updateOverridePath (VMap m) (sel_path s) updater; root_mapping updated) m sels.

Definition apply_update (p : path) (target : option (list target_stage)) (updater : value → result value)
    (m : mapping) : result mapping :=
  match target with
  | Some stages => sels ← resolve stages (VMap m); update_selections sels updater m
  | None => updated ← updateOverridePath (VMap m) p updater; root_mapping updated
  end.

Definition apply_assign (p : path) (target : option (list target_stage)) (o : assign_op) (e : expr)
    (m : mapping) : result mapping :=
  match o with
  | AssignUpdate =>
    apply_update p target (λ old, v ← evalOverrideSingle e old; Ok (if isOverrideNoMatch v then old else v)) m
  | _ =>
    v ← evalOverrideSingle e (VMap m);
    if isOverrideNoMatch v then Ok m
    else apply_update p target
      match o with
      | AssignSet => λ _, Ok (cloneOverrideValue v)
      | _ => λ old, evaluateOverrideBinary (assign_binop o) old v
      end m
  end.

Definition apply_filter (e : expr) (m : mapping) : result mapping :=
  v ← evalOverrideSingle e (VMap m);
  if isOverrideNoMatch v then Err "filter expression produced no result; a mapping is required"
  else match cloneOverrideValue v with
  | VMap r => Ok r
  | _ => Err "filter expression must produce a mapping"
  end.

Definition apply_delete (paths : list path) (m : mapping) : result mapping :=
  match deleteOverridePaths (VMap m) paths with
  | VMap r => Ok r
  | _ => Err "root expression must produce a mapping"
  end.

Definition apply_statement (m : mapping) (s : statement) : result mapping :=
  match s with
  | AssignStatement p target o e => apply_assign p target o e m
  | FilterStatement e => apply_filter e m
  | DeleteStatement paths => apply_delete paths m
  end.

(** [OverrideExpr.Apply] *)
Definition Apply (statements : list statement) (m : mapping) : result mapping :=
  foldM apply_statement m statements.
End apply.

(** ** The override of a provider *)

(** A pattern is what it is used for, its [Replace] method: the name and the
    target to the new name, or an error. *)
Record overrideProxyNameSchema := ProxyNameSchema {
  pn_Replace : str → str → option str;
  pn_Target : str
}.

Record overrideSchema := OverrideSchema {
  os_TFO : option bool;
  os_MPTcp : option bool;
  os_UDP : option bool;
  os_UDPOverTCP : option bool;
  os_Up : option str;
  os_Down : option str;
  os_DialerProxy : option str;
  os_SkipCertVerify : option bool;
  os_NameCertVerify : option str;
  os_Interface : option str;
  os_RoutingMark : option Z;
  os_IPVersion : option str;
  os_AdditionalPrefix : option str;
  os_AdditionalSuffix : option str;
  os_ProxyName : list overrideProxyNameSchema;
  os_OverrideExpr : list (list statement)
}.

(** [if o.F != nil { mapping[key] = *o.F }] *)
Definition set_opt {A} (key : string) (f : A → value) (o : option A) (m : mapping) : mapping :=
  match o with Some x => map_set (lit key) (f x) m | None => m end.

(** The fields that only set an entry, in the order of the code. *)
Definition set_fields (o : overrideSchema) (m : mapping) : mapping :=
  set_opt "ip-version" VStr (os_IPVersion o)
  (set_opt "routing-mark" VInt (os_RoutingMark o)
  (set_opt "interface-name" VStr (os_Interface o)
  (set_opt "name-cert-verify" VStr (os_NameCertVerify o)
  (set_opt "skip-cert-verify" VBool (os_SkipCertVerify o)
  (set_opt "dialer-proxy" VStr (os_DialerProxy o)
  (set_opt "down" VStr (os_Down o)
  (set_opt "up" VStr (os_Up o)
  (set_opt "udp-over-tcp" VBool (os_UDPOverTCP o)
  (set_opt "udp" VBool (os_UDP o)
  (set_opt "mptcp" VBool (os_MPTcp o)
  (set_opt "tfo" VBool (os_TFO o) m))))))))))).

Section schema.
Context `{OverrideEnv}.

Definition key_name : str := lit "name".

(** One round of the loop over [ProxyName]; the type assertion panics when the
    name is not a string. *)
Definition replace_name (m : mapping) (e : overrideProxyNameSchema) : result mapping :=
  match map_at key_name m with
  | VStr name =>
    match pn_Replace e name (pn_Target e) with
    | Some newName => Ok (map_set key_name (VStr newName) m)
    | None => Err "proxy name replace error"
    end
  | _ => Panic
  end.

(** [%s] of a value. *)
Definition sprintf_s (v : value) : str := match v with VStr s => s | _ => sprintf_bad v end.

Definition add_prefix (o : option str) (m : mapping) : mapping :=
  match o with
  | Some p => map_set key_name (VStr (p ++ sprintf_s (map_at key_name m))) m
  | None => m
  end.
Definition add_suffix (o : option str) (m : mapping) : mapping :=
  match o with
  | Some s => map_set key_name (VStr (sprintf_s (map_at key_name m) ++ s)) m
  | None => m
  end.

(** [overrideSchema.Apply] *)
Definition overrideSchema_Apply (o : overrideSchema) (m : mapping) : result mapping :=
  m ← foldM replace_name (set_fields o m) (os_ProxyName o);
  foldM (λ m e, Apply e m)
    (add_suffix (os_AdditionalSuffix o) (add_prefix (os_AdditionalPrefix o) m)) (os_OverrideExpr o).
End schema.

(** ** Theorems *)

(** *** Assignments *)

Lemma root_mapping_update m p u node' : p ≠ [] → updateOverridePath (VMap m) p u = Ok node' →
  ∃ m', node' = VMap m'.
Proof.
  intros Hp. destruct p as [|[k|i|] p]; [done|..]; cbn [updateOverridePath].
  - intros (x & _ & [= <-])%result_bind_Ok. eauto.
  - intros [= <-]. eauto.
  - intros (x & _ & [= <-])%result_bind_Ok. eauto.
Qed.

Section statements.
Context `{OverrideEnv}.

Lemma apply_set_eq p e v (m : mapping) : evalOverrideSingle e (VMap m) = Ok v → v ≠ VNoMatch →
  apply_statement m (AssignStatement p None AssignSet e) =
  (updated ← updateOverridePath (VMap m) p (λ _, Ok v); root_mapping updated).
Proof.
  intros He Hv. simpl. rewrite He. simpl. rewrite clone_id. by destruct v.
Qed.

(** C12: an assignment [p = e] to a path without wildcards, other than the root,
    where [e] has the result [v]: when the path can be followed, creating what is missing, [p]
    holds [v] afterwards and every path that parts from it holds what it held;
    when a value of another type is in the way, nothing changes; an index before
    the start of an array is an error. *)
Theorem assign_statement_correct (m : mapping) (p : path) (e : expr) (v : value) :
  wf_value true (VMap m) → definite p = true → p ≠ [] →
  evalOverrideSingle e (VMap m) = Ok v → v ≠ VNoMatch →
  match status (VMap m) p with
  | Reachable => ∃ m', apply_statement m (AssignStatement p None AssignSet e) = Ok m'
      ∧ lookupOverridePathStream (VMap m') p = [v]
      ∧ ∀ q, definite q = true → disjoint_paths p q = true →
          lookupOverridePathStream (VMap m') q = lookupOverridePathStream (VMap m) q
  | Blocked => apply_statement m (AssignStatement p None AssignSet e) = Ok m
  | OutOfRange => ∃ err, apply_statement m (AssignStatement p None AssignSet e) = Err err
  end.
Proof.
  intros Hw Hp Hne He Hv. rewrite (apply_set_eq p e v m He Hv). destruct (status (VMap m) p) eqn:Hs.
  - destruct (update_reachable (VMap m) p (λ _, Ok v) v Hs eq_refl) as (node' & Hu & Hval).
    destruct (root_mapping_update m p _ node' Hne Hu) as [m' ->]. exists m'. rewrite Hu. split; [done|].
    split; [by rewrite lookup_definite, Hval|]. intros q Hq Hd. rewrite !lookup_definite by done.
    f_equal. by eapply update_frame.
  - by rewrite (update_blocked (VMap m) p _ Hw Hp Hs).
  - destruct (update_out_of_range (VMap m) p (λ _, Ok v) Hs) as [err ->]. by exists err.
Qed.

(** A right side without a result leaves the mapping as it is, for [=] and
    the compound operators and every target. *)
Theorem no_result_untouched (m : mapping) (p : path) (target : option (list target_stage)) (o : assign_op) (e : expr) :
  o ≠ AssignUpdate → evalOverrideStream e (VMap m) = Ok [] →
  apply_statement m (AssignStatement p target o e) = Ok m.
Proof.
  intros Ho He. unfold apply_statement, apply_assign, evalOverrideSingle.
  unfold evalOverrideStream in He. rewrite He. by destruct o.
Qed.

(** *** Conditional targets *)

Lemma expand_definite v pre p : definite p = true →
  match status v p with
  | Reachable => ∃ q x, expandOverrideTargetPath (Selection v pre) p = [Selection x (pre ++ q)]
      ∧ ∀ u, updateOverridePath v q u = updateOverridePath v p u
  | Blocked => expandOverrideTargetPath (Selection v pre) p = []
  | OutOfRange => True
  end.
Proof.
  revert v pre. induction p as [|[k|i|] p IH]; intros v pre Hp; cbn [status expandOverrideTargetPath sel_value sel_path].
  - exists [], v. by rewrite app_nil_r.
  - destruct v as [| | | | | |m|]; try done.
    + specialize (IH VNull (pre ++ [SField k]) Hp). destruct (status VNull p); [|done|done].
      destruct IH as (q & x & -> & Hu). exists (SField k :: q), x. rewrite <- app_assoc. split; [done|].
      intros u. cbn [updateOverridePath]. by rewrite map_at_nil, Hu.
    + specialize (IH (map_at k m) (pre ++ [SField k]) Hp). destruct (status _ p); [|done|done].
      destruct IH as (q & x & -> & Hu). exists (SField k :: q), x. rewrite <- app_assoc. split; [done|].
      intros u. cbn [updateOverridePath]. by rewrite Hu.
  - destruct v as [| | | | |l| |]; try done; cbn zeta.
    + destruct (Z.ltb_spec i 0) as [|Hi]; [done|]. specialize (IH VNull (pre ++ [SIndex i]) Hp).
      destruct (status VNull p); [|done|done].
      destruct IH as (q & x & -> & Hu). exists (SIndex i :: q), x. rewrite <- app_assoc. split; [done|].
      intros u. cbn [updateOverridePath]. rewrite !pad_to_lookup. cbn [lookup list_lookup default]. by rewrite Hu.
    + set (j := resolve_index i (length l)). destruct (Z.ltb_spec j 0) as [|Hj]; [done|].
      specialize (IH (default VNull (l !! Z.to_nat j)) (pre ++ [SIndex j]) Hp). destruct (status _ p); [|done|done].
      destruct IH as (q & x & -> & Hu). exists (SIndex j :: q), x. rewrite <- app_assoc. split; [done|].
      intros u. cbn [updateOverridePath]. fold j. rewrite (resolve_nonneg j) by done.
      by rewrite !pad_to_lookup, Hu.
  - done.
Qed.

(** A conditional assignment [(select(c) | p) op= e] to a path without
    wildcards is [p op= e] when [c] has a true result, and does nothing when it
    has none; the index must not be before the start of an array. *)
Theorem conditional_assignment (m : mapping) (c : expr) (p : path) (o : assign_op) (e : expr) (cs : list value) :
  wf_value true (VMap m) → definite p = true → p ≠ [] → status (VMap m) p ≠ OutOfRange →
  evalOverrideStream c (VMap m) = Ok cs → (∃ v, evalOverrideSingle e (VMap m) = Ok v) →
  apply_statement m (AssignStatement [] (Some [StageCond c; StagePath p]) o e) =
  if existsb overrideTruthy cs then apply_statement m (AssignStatement p None o e) else Ok m.
Proof.
  intros Hw Hp Hne Hs Hc [v He].
  assert (∀ u, apply_update [] (Some [StageCond c; StagePath p]) u m =
               if existsb overrideTruthy cs then apply_update p None u m else Ok m) as Hup.
  { intros u. unfold apply_update, resolve. cbn [stagesR resolve_stage collect sel_value mbind result_bind].
    rewrite Hc. cbn [mbind result_bind]. destruct (existsb overrideTruthy cs); [|done].
    cbn [app mbind result_bind list_bind]. rewrite app_nil_r.
    pose proof (expand_definite (VMap m) [] p Hp) as He'. destruct (status (VMap m) p) eqn:Est; [| |done].
    - destruct He' as (q & x & -> & Hu). unfold update_selections. cbn [foldM sel_path app]. rewrite Hu.
      destruct (updateOverridePath (VMap m) p u) as [node'| |] eqn:E; [|done|done].
      destruct (root_mapping_update m p u node' Hne E) as [m' ->]. done.
    - rewrite He'. unfold update_selections. cbn [foldM]. by rewrite (update_blocked (VMap m) p u Hw Hp Est). }
  unfold apply_statement, apply_assign. destruct o; rewrite ?He; cbn [mbind result_bind]; rewrite ?Hup; [|done|..];
    (destruct (isOverrideNoMatch v); [by case_match|done]).
Qed.
End statements.

(** *** Deletion *)

(** C14: [del(paths)] never fails, and what it leaves of a mapping is the mapping
    without the places that some path selects in it as it was before: a field
    selects the entry of its key, an index the element it counts from the start
    or, when negative, from the end of the array, a wildcard every entry and
    element. Entries and elements that are not selected, and all inside them that
    is not, stay, in their order; there is only one such mapping. *)
Theorem delete_statement_correct `{OverrideEnv} (m : mapping) (paths : list path) :
  wf_value true (VMap m) →
  ∃ m', apply_statement m (DeleteStatement paths) = Ok m'
  ∧ pruned (λ q, ∃ p, p ∈ paths ∧ selects p (VMap m) q) (VMap m) (VMap m')
  ∧ ∀ v, pruned (λ q, ∃ p, p ∈ paths ∧ selects p (VMap m) q) (VMap m) v → v = VMap m'.
Proof.
  intros Hw. pose proof (delete_pruned true (VMap m) paths Hw) as Hp. rewrite delete_map in Hp.
  eexists. split; [cbn [apply_statement]; unfold apply_delete; by rewrite delete_map|]. split; [done|].
  intros v Hv. by eapply pruned_unique.
Qed.

(** *** Every statement *)

Definition stage_ok (nm : bool) (st : target_stage) : bool :=
  match st with StagePath _ => true | StageCond c => expr_ok nm c end.
Definition statement_ok (nm : bool) (s : statement) : bool :=
  match s with
  | AssignStatement _ target _ e => expr_ok nm e && match target with Some st => forallb (stage_ok nm) st | None => true end
  | FilterStatement e => expr_ok nm e
  | DeleteStatement _ => true
  end.

Section invariant.
Context `{OverrideLaws} (nm : bool).
#[local] Set Default Proof Using "All".
#[local] Arguments wf_value : simpl never.
Abbreviation wfm := (λ m : mapping, wf_value nm (VMap m)).
Abbreviation okZ := (okX conversion_gives_zero).

Lemma expand_wf s p : wf_value nm (sel_value s) →
  Forall (λ s', wf_value nm (sel_value s')) (expandOverrideTargetPath s p).
Proof.
  revert s. induction p as [|[k|i|] p IH]; intros [v pre] Hv; cbn [expandOverrideTargetPath sel_value sel_path] in *;
    [by repeat constructor|..].
  - destruct v as [| | | | | |m|]; try constructor; apply IH; [done|by apply wf_map_at].
  - destruct v as [| | | | |l| |]; try constructor; [by apply IH|]. cbn zeta. case_match; [constructor|].
    apply IH, wf_default. intros x Hx. by eapply wf_seq_lookup.
  - destruct v as [| | | | |l|m|]; try constructor; apply Forall_bind, Forall_forall.
    + intros s' (i & x & -> & Hx)%elem_of_lookup_imap. apply IH. by eapply wf_seq_lookup.
    + intros [k x] Hx. apply IH. apply wf_map in Hv as [_ Hv]. rewrite Forall_forall in Hv. by apply (Hv (k, x)).
Qed.

Lemma resolve_ok stages root : forallb (stage_ok nm) stages = true → wf_value nm root →
  okZ (λ _, True) (resolve stages root).
Proof.
  intros Hst Hr. eapply (okR_impl (Forall (λ s, wf_value nm (sel_value s)))); [|done].
  apply okR_stages; [|by repeat constructor]. intros st sels Hin Hs.
  rewrite forallb_forall in Hst. specialize (Hst st (proj1 (list_elem_of_In _ _) Hin)). destruct st as [p|c]; simpl.
  - apply Forall_bind. eapply Forall_impl; [exact Hs|]. intros s. apply expand_wf.
  - rewrite Forall_forall in Hs. apply okR_collect. intros s Hin'. eapply okR_bind.
    { apply (evs_ok nm); [done|by repeat constructor; apply Hs]. }
    intros vs _. simpl. case_match; repeat constructor. auto.
Qed.

Lemma root_mapping_ok node : wf_value nm node → okZ wfm (root_mapping node).
Proof. by destruct node. Qed.

Lemma apply_update_ok p target u m : match target with Some st => forallb (stage_ok nm) st = true | None => True end →
  (∀ old, wf_value nm old → okZ (wf_value nm) (u old)) → wfm m → okZ wfm (apply_update p target u m).
Proof.
  intros Ht Hu Hm.
  assert (∀ q m, wfm m → okZ wfm (updated ← updateOverridePath (VMap m) q u; root_mapping updated)) as Hone.
  { intros q m' Hm'. eapply okR_bind; [by apply update_ok|]. apply root_mapping_ok. }
  destruct target as [st|]; [|by apply Hone]. simpl. eapply okR_bind; [by apply resolve_ok|].
  intros sels _. apply okR_foldM; [|done]. intros s m' _ Hm'. by apply Hone.
Qed.

Lemma single_result_ok e v : expr_ok nm e = true → wf_value nm v →
  okZ (λ x, x = VNoMatch ∨ wf_value nm x) (evalOverrideSingle e v).
Proof. intros He Hv. by apply single_ok, evs_ok; [|repeat constructor]. Qed.

Lemma assign_ok p target o e m : expr_ok nm e = true →
  match target with Some st => forallb (stage_ok nm) st = true | None => True end →
  wfm m → okZ wfm (apply_assign p target o e m).
Proof.
  intros He Ht Hm.
  assert (∀ f, (∀ v old, wf_value nm v → wf_value nm old → okZ (wf_value nm) (f v old)) →
    okZ wfm (v ← evalOverrideSingle e (VMap m); if isOverrideNoMatch v then Ok m else apply_update p target (f v) m)) as Hset.
  { intros f Hf. eapply okR_bind; [by apply single_result_ok|]. intros v [->|Hv]; [done|].
    destruct (isOverrideNoMatch v); [done|]. apply apply_update_ok; auto. }
  destruct o; cbn [apply_assign].
  - apply (Hset (λ v _, Ok (cloneOverrideValue v))). intros v old Hv _. by rewrite clone_id.
  - apply apply_update_ok; [done| |done]. intros old Hold. eapply okR_bind; [by apply single_result_ok|].
    intros v Hv. simpl. destruct (isOverrideNoMatch v) eqn:E; [done|]. by destruct Hv as [->|].
  - apply (Hset (λ v old, evaluateOverrideBinary OpAdd old v)). intros. by apply binary_ok.
  - apply (Hset (λ v old, evaluateOverrideBinary OpSub old v)). intros. by apply binary_ok.
  - apply (Hset (λ v old, evaluateOverrideBinary OpMul old v)). intros. by apply binary_ok.
Qed.

Lemma statement_keeps_wf m s : statement_ok nm s = true → wfm m → okZ wfm (apply_statement m s).
Proof.
  intros Hs Hm. destruct s as [p target o e|e|paths]; cbn [apply_statement statement_ok] in *.
  - apply andb_true_iff in Hs as [He Ht]. apply assign_ok; [done| |done]. by destruct target.
  - unfold apply_filter. eapply okR_bind; [by apply single_result_ok|]. intros v Hv. rewrite clone_id.
    destruct (isOverrideNoMatch v) eqn:E; [done|]. destruct Hv as [->|Hv]; [done|]. by destruct v.
  - unfold apply_delete. rewrite delete_map.
    pose proof (wf_delete nm (VMap m) paths Hm) as Hd. by rewrite delete_map in Hd.
Qed.

End invariant.

(** *** Two behaviours that differ from the comments of the code *)

Definition select_false : expr := EFunction Fselect [ELiteral (VBool false)].

(** Inside a value expression a compound assignment does not check for an
    absent result, so the internal marker is stored in the mapping: here by
    [.obj |= (.x += select(false))]. The comment of the type says that a right
    side without a result leaves its target untouched. *)
Theorem compound_update_stores_marker `{OverrideEnv} (m : mapping) :
  map_get (lit "obj") m = None →
  Apply [AssignStatement [SField (lit "obj")] None AssignUpdate
           (EUpdate [SField (lit "x")] AssignAdd select_false)] m
  = Ok (map_set (lit "obj") (VMap [(lit "x", VNoMatch)]) m).
Proof.
  intros Hm. unfold Apply, select_false. cbn [foldM apply_statement]. unfold apply_assign, apply_update.
  cbn [updateOverridePath]. unfold map_at. rewrite Hm. reflexivity.
Qed.

(** [.missing |= select(false)] creates the entry with the value null,
    which the same comment excludes. *)
Theorem update_no_result_creates_null `{OverrideEnv} (m : mapping) (k : str) :
  map_get k m = None →
  Apply [AssignStatement [SField k] None AssignUpdate select_false] m = Ok (map_set k VNull m).
Proof.
  intros Hm. unfold Apply, select_false. cbn [foldM apply_statement]. unfold apply_assign, apply_update.
  cbn [updateOverridePath]. unfold map_at. rewrite Hm. reflexivity.
Qed.

(** *** The override of a provider *)

Fixpoint replace_names (l : list overrideProxyNameSchema) (name : str) : option str :=
  match l with
  | [] => Some name
  | e :: l' => n ← pn_Replace e name (pn_Target e); replace_names l' n
  end.

(** The entries an override sets: key and value. *)
Definition schema_fields (o : overrideSchema) : list (str * option value) :=
  [(lit "tfo", VBool <$> os_TFO o); (lit "mptcp", VBool <$> os_MPTcp o); (lit "udp", VBool <$> os_UDP o);
   (lit "udp-over-tcp", VBool <$> os_UDPOverTCP o); (lit "up", VStr <$> os_Up o); (lit "down", VStr <$> os_Down o);
   (lit "dialer-proxy", VStr <$> os_DialerProxy o); (lit "skip-cert-verify", VBool <$> os_SkipCertVerify o);
   (lit "name-cert-verify", VStr <$> os_NameCertVerify o); (lit "interface-name", VStr <$> os_Interface o);
   (lit "routing-mark", VInt <$> os_RoutingMark o); (lit "ip-version", VStr <$> os_IPVersion o)].

Lemma map_get_set_opt {A} k key (f : A → value) o m :
  map_get k (set_opt key f o m) =
  if decide (k = lit key) then match o with Some x => Some (f x) | None => map_get k m end else map_get k m.
Proof.
  destruct o as [x|]; simpl; [|by destruct (decide _)].
  destruct (decide (k = lit key)) as [->|]; [apply map_get_set_eq|by apply map_get_set_ne].
Qed.

Lemma set_fields_get o m k : map_get k (set_fields o m) =
  match map_get k (schema_fields o) with Some (Some v) => Some v | _ => map_get k m end.
Proof.
  unfold set_fields. rewrite !map_get_set_opt. unfold schema_fields. cbn [map_get].
  repeat match goal with
  | |- context [decide (k = ?x)] => destruct (decide (k = x)) as [->|]; [by vm_compute; case_match|]
  end. done.
Qed.

Section schema_facts.
Context `{OverrideEnv}.

Lemma replace_name_loop l m name : map_get key_name m = Some (VStr name) →
  match replace_names l name with
  | Some n => ∃ m', foldM replace_name m l = Ok m' ∧ map_get key_name m' = Some (VStr n)
      ∧ ∀ k, k ≠ key_name → map_get k m' = map_get k m
  | None => ∃ e, foldM replace_name m l = Err e
  end.
Proof.
  revert m name. induction l as [|e l IH]; intros m name Hm; cbn [replace_names foldM]; [by exists m|].
  assert (replace_name m e = match pn_Replace e name (pn_Target e) with
    Some n => Ok (map_set key_name (VStr n) m) | None => Err "proxy name replace error" end) as ->
    by (unfold replace_name, map_at; by rewrite Hm).
  destruct (pn_Replace e name (pn_Target e)) as [n|]; cbn [mbind option_bind result_bind]; [|by eexists].
  specialize (IH (map_set key_name (VStr n) m) n (map_get_set_eq _ _ _)).
  destruct (replace_names l n) as [n'|]; [|done]. destruct IH as (m' & Hf & Hn & Ho).
  exists m'. split; [done|]. split; [done|]. intros k Hk. rewrite Ho by done. by apply map_get_set_ne.
Qed.

(** C33: for a proxy whose name is a string, which the provider has checked, an
    override sets the given fields, rewrites the name by the patterns in order
    and puts prefix and suffix around it, changes no other entry, and then
    applies the expressions; it does not panic before them. *)
Theorem overrideSchema_Apply_correct (o : overrideSchema) (m : mapping) (name : str) :
  map_get key_name m = Some (VStr name) →
  match replace_names (os_ProxyName o) name with
  | None => ∃ e, overrideSchema_Apply o m = Err e
  | Some n => ∃ m', overrideSchema_Apply o m = foldM (λ m e, Apply e m) m' (os_OverrideExpr o)
      ∧ map_get key_name m' = Some (VStr (default [] (os_AdditionalPrefix o) ++ n ++ default [] (os_AdditionalSuffix o)))
      ∧ ∀ k, k ≠ key_name → map_get k m' =
          match map_get k (schema_fields o) with Some (Some v) => Some v | _ => map_get k m end
  end.
Proof.
  intros Hm. pose proof (replace_name_loop (os_ProxyName o) (set_fields o m) name) as Hl.
  assert (map_get key_name (schema_fields o) = None) as Hnone by by vm_compute.
  rewrite set_fields_get, Hnone, Hm in Hl.
  specialize (Hl eq_refl). unfold overrideSchema_Apply. destruct (replace_names _ _) as [n|].
  - destruct Hl as (m1 & -> & Hn & Ho). cbn [mbind result_bind]. eexists. split; [done|].
    destruct (os_AdditionalPrefix o) as [p|], (os_AdditionalSuffix o) as [s|];
      cbn [add_prefix add_suffix default]; unfold map_at; rewrite ?map_get_set_eq, ?Hn; cbn [default sprintf_s];
      rewrite ?app_nil_r, ?app_assoc; (split; [done|]);
      intros k Hk; rewrite ?map_get_set_ne by done; rewrite Ho by done; apply set_fields_get.
  - destruct Hl as [e ->]. by exists e.
Qed.
End schema_facts.

(** *** Witnesses *)

Definition demo_mapping : mapping := [(lit "a", VSeq [VInt 1; VInt 2]); (lit "name", VStr (lit "n"))].

Lemma assign_statement_correct_witness : ∃ m',
  @apply_statement literal_env demo_mapping
    (AssignStatement [SField (lit "a"); SIndex (-1)] None AssignSet (ELiteral (VInt 7))) = Ok m'
  ∧ lookupOverridePathStream (VMap m') [SField (lit "a"); SIndex (-1)] = [VInt 7].
Proof.
  pose proof (@assign_statement_correct literal_env demo_mapping [SField (lit "a"); SIndex (-1)] (ELiteral (VInt 7)) (VInt 7)
    ltac:(repeat split; repeat constructor) ltac:(reflexivity) ltac:(discriminate) ltac:(reflexivity) ltac:(discriminate)) as Hw.
  destruct Hw as (m' & H1 & H2 & _). by exists m'.
Defined.

Lemma no_result_untouched_witness :
  @apply_statement literal_env demo_mapping (AssignStatement [SField (lit "a")] None AssignAdd select_false) = Ok demo_mapping.
Proof. apply (@no_result_untouched literal_env); [discriminate|reflexivity]. Defined.

Lemma conditional_assignment_witness :
  @apply_statement literal_env demo_mapping (AssignStatement [] (Some [StageCond (EPath [SField (lit "a")]);
    StagePath [SField (lit "b")]]) AssignSet (ELiteral VNull)) =
  @apply_statement literal_env demo_mapping (AssignStatement [SField (lit "b")] None AssignSet (ELiteral VNull)).
Proof.
  rewrite (@conditional_assignment literal_env demo_mapping (EPath [SField (lit "a")]) [SField (lit "b")] AssignSet
    (ELiteral VNull) [VSeq [VInt 1; VInt 2]]); [reflexivity|repeat split; repeat constructor|reflexivity|discriminate
    |discriminate|reflexivity|by eexists].
Defined.


(** The last element of an array. *)
Lemma delete_statement_correct_witness :
  ∃ m', @apply_statement literal_env demo_mapping (DeleteStatement [[SField (lit "a"); SIndex (-1)]]) = Ok m'
  ∧ pruned (λ q, ∃ p, p ∈ [[SField (lit "a"); SIndex (-1)]] ∧ selects p (VMap demo_mapping) q) (VMap demo_mapping) (VMap m')
  ∧ map_get (lit "a") m' = Some (VSeq [VInt 1]).
Proof.
  destruct (@delete_statement_correct literal_env demo_mapping [[SField (lit "a"); SIndex (-1)]] ltac:(repeat split; repeat constructor))
    as (m' & E & Hp & _).
  exists m'. split; [exact E|]. split; [exact Hp|]. by injection E as <-.
Defined.

(** Where an out-of-range conversion gives 0, the remainder by the largest [int]
    (whose float64 is [2^63]) panics. *)
Definition zero_env : OverrideEnv := {|
  sprint_float := @sprint_float literal_env; sprintf_bad := @sprintf_bad literal_env; ParseFloat := @ParseFloat literal_env;
  int_out_of_range _ := 0%Z; yaml_Marshal := @yaml_Marshal literal_env; regex := str; regexp_Compile := Some;
  MatchString re s := str_contains s re; ReplaceAllString re s r := join r (Split s re);
  unicode_upper := id; unicode_lower := id; sort_stable := @insertion_sort
|}.
Example remainder_panics : @Apply zero_env [AssignStatement [SField (lit "x")] None AssignSet
  (EBinary OpMod (ELiteral (VInt 1)) (ELiteral (VInt 9223372036854775807)))] [] = Panic.
Proof. vm_compute. reflexivity. Qed.

Lemma compound_update_stores_marker_witness :
  @Apply literal_env [AssignStatement [SField (lit "obj")] None AssignUpdate
    (EUpdate [SField (lit "x")] AssignAdd select_false)] [] = Ok [(lit "obj", VMap [(lit "x", VNoMatch)])].
Proof. apply (@compound_update_stores_marker literal_env []). reflexivity. Defined.

Lemma update_no_result_creates_null_witness :
  @Apply literal_env [AssignStatement [SField (lit "x")] None AssignUpdate select_false] [] = Ok [(lit "x", VNull)].
Proof. apply (@update_no_result_creates_null literal_env [] (lit "x")). reflexivity. Defined.

Definition demo_schema : overrideSchema :=
  OverrideSchema None None (Some true) None None None None None None None None None (Some (lit "p-")) None
    [ProxyNameSchema (λ s t, Some (s ++ t)) (lit "!")] [].

Lemma overrideSchema_Apply_correct_witness :
  ∃ m', @overrideSchema_Apply literal_env demo_schema demo_mapping = Ok m' ∧
        map_get key_name m' = Some (VStr (lit "p-n!")).
Proof.
  pose proof (@overrideSchema_Apply_correct literal_env demo_schema demo_mapping (lit "n") ltac:(reflexivity)) as Hw.
  simpl replace_names in Hw. destruct Hw as (m' & H1 & H2 & _). by exists m'.
Defined.
