(* ===== verification/OverrideParse.v ===== *)
(** * OverrideParse: the lexer and the parser of override expressions

    [lexOverrideExpr] and [overrideExprParser] of
    src/adapter/provider/override_expr.go, from the text of an expression to the
    statements of [OverrideApply].

    - The state of the parser, the tokens and the position, is the list of the
      tokens that remain; it ends in an end token, which is never consumed.
      Positions only appear in messages and are left out.
    - The lexer looks at single bytes and asks the Unicode tables about the code
      point with the number of the byte, so [is_letter] is the table of the
      first 256 code points.
    - The parser is recursive descent over the text of string interpolations as
      well. [parse_value] takes fuel for the nesting; running out of fuel is the
      result [Panic], and [NewOverrideExpr_returns] shows that it does not
      happen. *)
From Stdlib Require Import SpecFloat.
From S2P Require Import Prelude GoStrings NetIP OverrideValue OverrideEval OverrideFacts OverrideApply.

(** ** Tokens *)

Inductive kind :=
| KEOF | KDot | KIdentifier | KString | KNumber | KLeftParen | KRightParen | KLeftBracket | KRightBracket
| KLeftBrace | KRightBrace | KComma | KSemicolon | KColon | KPipe | KAssign | KUpdateAssign | KAddAssign
| KSubtractAssign | KMultiplyAssign | KPlus | KMinus | KMultiply | KDivide | KModulo | KAlternative
| KEqual | KNotEqual | KLess | KLessEqual | KGreater | KGreaterEqual.

#[export] Instance kind_eq_dec : EqDecision kind.
Proof. solve_decision. Defined.

Record token := Token { t_kind : kind; t_text : str }.
#[export] Instance token_eq_dec : EqDecision token.
Proof. solve_decision. Defined.

Definition eof : token := Token KEOF [].

(** ** The lexer *)

Definition quote : ascii := byte_of 34.
Definition backslash : ascii := byte_of 92.

(** [unicode.IsLetter] and [unicode.IsDigit] of the code point of a byte. *)
Definition is_letter (c : ascii) : bool :=
  let b := byteZ c in
  in_z 65 90 b || in_z 97 122 b || existsb (Z.eqb b) [170; 181; 186]%Z
  || in_z 192 214 b || in_z 216 246 b || in_z 248 255 b.
Definition isOverrideIdentifierStart (c : ascii) : bool := bool_decide (c = "_"%char) || is_letter c.
Definition isOverrideIdentifierPart (c : ascii) : bool :=
  bool_decide (c = "_"%char) || bool_decide (c = "-"%char) || is_letter c || is_digit c.
Definition is_hex (c : ascii) : bool :=
  in_z 48 57 (byteZ c) || in_z 97 102 (byteZ c) || in_z 65 70 (byteZ c).

Fixpoint assoc_char {A} (c : ascii) (l : list (ascii * A)) : option A :=
  match l with
  | [] => None
  | (d, a) :: l' => if decide (c = d) then Some a else assoc_char c l'
  end.

(** The characters that are a token by themselves. *)
Definition simple_tokens : list (ascii * kind) :=
  [("."%char, KDot); ("("%char, KLeftParen); (")"%char, KRightParen); ("["%char, KLeftBracket);
   ("]"%char, KRightBracket); ("{"%char, KLeftBrace); ("}"%char, KRightBrace); (","%char, KComma);
   (";"%char, KSemicolon); (":"%char, KColon); ("%"%char, KModulo); ("~"%char, KIdentifier)].

(** The characters that may be followed by a second one: the kind alone, the
    second character, the kind of both. *)
Definition pair_tokens : list (ascii * (kind * ascii * kind)) :=
  [("|"%char, (KPipe, "="%char, KUpdateAssign)); ("+"%char, (KPlus, "="%char, KAddAssign));
   ("-"%char, (KMinus, "="%char, KSubtractAssign)); ("*"%char, (KMultiply, "="%char, KMultiplyAssign));
   ("/"%char, (KDivide, "/"%char, KAlternative)); ("="%char, (KAssign, "="%char, KEqual));
   ("<"%char, (KLess, "="%char, KLessEqual)); (">"%char, (KGreater, "="%char, KGreaterEqual))].

(** After the opening quote: the raw text and what follows the closing one. *)
Fixpoint scanOverrideString (s : str) : option (str * str) :=
  match s with
  | [] => None
  | c :: s' =>
    if decide (c = backslash) then
      match s' with
      | [] => None
      | d :: s'' => '(raw, rest) ← scanOverrideString s''; Some (c :: d :: raw, rest)
      end
    else if decide (c = quote) then Some ([], s')
    else '(raw, rest) ← scanOverrideString s'; Some (c :: raw, rest)
  end.

Definition scan_exponent (s : str) : str * str :=
  match s with
  | e :: s1 =>
    if bool_decide (e = "e"%char) || bool_decide (e = "E"%char) then
      let '(sign, s2) := match s1 with
                         | c :: s2 => if bool_decide (c = "+"%char) || bool_decide (c = "-"%char) then ([c], s2) else ([], s1)
                         | [] => ([], [])
                         end in
      let '(ds, s3) := span is_digit s2 in (e :: sign ++ ds, s3)
    else ([], s)
  | [] => ([], [])
  end.
Definition scanOverrideNumber (s : str) : str * str :=
  match s with
  | z :: x :: s' =>
    if bool_decide (z = "0"%char) && (bool_decide (x = "x"%char) || bool_decide (x = "X"%char)) then
      let '(ds, rest) := span is_hex s' in (z :: x :: ds, rest)
    else
      let '(int, s1) := span is_digit s in
      let '(frac, s2) := match s1 with
                         | c :: s2 => if decide (c = "."%char) then let '(ds, s3) := span is_digit s2 in (c :: ds, s3) else ([], s1)
                         | [] => ([], [])
                         end in
      let '(ex, s3) := scan_exponent s2 in (int ++ frac ++ ex, s3)
  | _ => let '(int, s1) := span is_digit s in (int, s1)
  end.

(** One round of the loop on a non-empty source: the token, if the round makes
    one, and the rest; [None] ends the loop at a comment. *)
Definition lex_step (c : ascii) (s : str) : result (option (option token * str)) :=
  if is_space (byteZ c) then Ok (Some (None, s))
  else if decide (c = "#"%char) then Ok None
  else match assoc_char c simple_tokens with
  | Some k => Ok (Some (Some (Token k [c]), s))
  | None =>
    match assoc_char c pair_tokens with
    | Some (k, d, k') =>
      match s with
      | d' :: s' => if decide (d' = d) then Ok (Some (Some (Token k' [c; d]), s')) else Ok (Some (Some (Token k [c]), s))
      | [] => Ok (Some (Some (Token k [c]), s))
      end
    | None =>
      if decide (c = "!"%char) then
        match s with
        | d :: s' => if decide (d = "="%char) then Ok (Some (Some (Token KNotEqual [c; d]), s')) else Err "unexpected character"
        | [] => Err "unexpected character"
        end
      else if decide (c = quote) then
        match scanOverrideString s with
        | Some (raw, rest) => Ok (Some (Some (Token KString raw), rest))
        | None => Err "unterminated string"
        end
      else if is_digit c then
        let '(text, rest) := scanOverrideNumber (c :: s) in Ok (Some (Some (Token KNumber text), rest))
      else if isOverrideIdentifierStart c then
        let '(more, rest) := span isOverrideIdentifierPart s in Ok (Some (Some (Token KIdentifier (c :: more)), rest))
      else Err "unexpected character"
    end
  end.

Fixpoint lex_fuel (fuel : nat) (s : str) : result (list token) :=
  match fuel, s with
  | _, [] => Ok [eof]
  | 0, _ => Panic
  | S f, c :: s' =>
    r ← lex_step c s';
    match r with
    | None => Ok [eof]
    | Some (None, rest) => lex_fuel f rest
    | Some (Some t, rest) => ts ← lex_fuel f rest; Ok (t :: ts)
    end
  end.
(** Every round consumes a byte. *)
Definition lexOverrideExpr (source : str) : result (list token) := lex_fuel (length source) source.

(** ** Strings and numbers *)

Fixpoint decodeOverrideString (raw : str) : result str :=
  match raw with
  | [] => Ok []
  | c :: raw' =>
    if decide (c = backslash) then
      match raw' with
      | [] => Err "invalid string escape"
      | d :: raw'' =>
        rest ← decodeOverrideString raw'';
        Ok (if decide (d = quote) then quote :: rest
            else if decide (d = "n"%char) then byte_of 10 :: rest
            else if decide (d = backslash) then backslash :: rest
            else backslash :: d :: rest)
      end
    else rest ← decodeOverrideString raw'; Ok (c :: rest)
  end.

(** From the text after an opening parenthesis: the text before the closing one
    and the text after it; [instr] is inside a quoted string. *)
Fixpoint findOverrideInterpolationEnd (s : str) (depth : nat) (instr : bool) : option (str * str) :=
  match s with
  | [] => None
  | c :: s' =>
    if decide (c = backslash) then
      match s' with
      | [] => None
      | d :: s'' => '(e, rest) ← findOverrideInterpolationEnd s'' depth instr; Some (c :: d :: e, rest)
      end
    else if instr then
      '(e, rest) ← findOverrideInterpolationEnd s' depth (negb (bool_decide (c = quote))); Some (c :: e, rest)
    else if decide (c = quote) then
      '(e, rest) ← findOverrideInterpolationEnd s' depth true; Some (c :: e, rest)
    else if decide (c = "("%char) then
      '(e, rest) ← findOverrideInterpolationEnd s' (S depth) false; Some (c :: e, rest)
    else if decide (c = ")"%char) then
      match depth with
      | 0 => Some ([], s')
      | S d => '(e, rest) ← findOverrideInterpolationEnd s' d false; Some (c :: e, rest)
      end
    else '(e, rest) ← findOverrideInterpolationEnd s' depth false; Some (c :: e, rest)
  end.

(** Replace every escaped quote by a quote. *)
Fixpoint unescape_quotes (s : str) : str :=
  match s with
  | [] => []
  | c :: s' =>
    match s' with
    | d :: s'' => if bool_decide (c = backslash) && bool_decide (d = quote) then quote :: unescape_quotes s''
                  else c :: unescape_quotes s'
    | [] => [c]
    end
  end.

(** ** The state of the parser *)

Abbreviation tokens := (list token).
Abbreviation parser A := (tokens → result (A * tokens)).

Definition peek (ts : tokens) : token := match ts with t :: _ => t | [] => eof end.
Definition next (ts : tokens) : token * tokens :=
  match ts with
  | t :: ts' => if decide (t_kind t = KEOF) then (t, ts) else (t, ts')
  | [] => (eof, [])
  end.
Definition peekIs (k : kind) (ts : tokens) : bool := bool_decide (t_kind (peek ts) = k).
(** [match(k)]: the tokens after one of kind [k]. *)
Definition matchTok (k : kind) (ts : tokens) : option tokens :=
  if peekIs k ts then Some (next ts).2 else None.
Definition expect (k : kind) : parser token := λ ts,
  let '(t, ts') := next ts in if decide (t_kind t = k) then Ok (t, ts') else Err "unexpected token".
Definition peekIdentifier (s : string) (ts : tokens) : bool :=
  peekIs KIdentifier ts && bool_decide (t_text (peek ts) = lit s).

Definition assign_of (k : kind) : option assign_op :=
  match k with
  | KAssign => Some AssignSet
  | KUpdateAssign => Some AssignUpdate
  | KAddAssign => Some AssignAdd
  | KSubtractAssign => Some AssignSub
  | KMultiplyAssign => Some AssignMul
  | _ => None
  end.
Definition isOverrideAssignmentToken (k : kind) : bool := bool_decide (is_Some (assign_of k)).

(** ** Paths *)

Definition pathField (t : token) : result str :=
  match t_kind t with
  | KIdentifier => Ok (t_text t)
  | _ => decodeOverrideString (t_text t)
  end.

(** The segment inside brackets, after the opening one. *)
Definition bracket_segment : parser segment := λ ts,
  match matchTok KRightBracket ts with
  | Some ts' => Ok (SWild, ts')
  | None =>
    let '(t, ts1) := next ts in
    '(seg, ts2) ← match t_kind t with
                  | KString | KIdentifier => key ← pathField t; Ok (SField key, ts1)
                  | KNumber | KMinus =>
                    '(text, ts2) ← match t_kind t with
                                   | KMinus => '(n, ts2) ← expect KNumber ts1; Ok (t_text t ++ t_text n, ts2)
                                   | _ => Ok (t_text t, ts1)
                                   end;
                    match ParseInt 10 text with
                    | Some i => Ok (SIndex i, ts2)
                    | None => Err "invalid array index"
                    end
                  | _ => Err "expected field name or array index"
                  end;
    '(_, ts3) ← expect KRightBracket ts2;
    Ok (seg, ts3)
  end.

Fixpoint path_loop (fuel : nat) (segs : path) (ts : tokens) : result (path * tokens) :=
  match fuel with
  | 0 => Panic
  | S f =>
    match t_kind (peek ts) with
    | KDot =>
      let '(t, ts') := next (next ts).2 in
      match t_kind t with
      | KIdentifier | KString => key ← pathField t; path_loop f (segs ++ [SField key]) ts'
      | _ => Err "expected field name after '.'"
      end
    | KLeftBracket => '(seg, ts') ← bracket_segment (next ts).2; path_loop f (segs ++ [seg]) ts'
    | _ => Ok (segs, ts)
    end
  end.

Definition parsePath : parser path := λ ts,
  '(_, ts1) ← expect KDot ts;
  match t_kind (peek ts1) with
  | KIdentifier | KString =>
    let '(t, ts2) := next ts1 in
    key ← pathField t; path_loop (S (length ts2)) [SField key] ts2
  | _ => path_loop (S (length ts1)) [] ts1
  end.

(** ** Expressions *)

Fixpoint assoc_name {A} (name : str) (l : list (string * A)) : option A :=
  match l with
  | [] => None
  | (n, a) :: l' => if decide (name = lit n) then Some a else assoc_name name l'
  end.

(** [isOverrideFunction] and [isOverrideStreamFunction]. *)
Definition functions : list (string * fn) :=
  [("length", Flength); ("type", Ftype); ("keys", Fkeys); ("has", Fhas); ("contains", Fcontains);
   ("select", Fselect); ("sub", Fsub); ("test", Ftest); ("split", Fsplit); ("join", Fjoin); ("upcase", Fupcase);
   ("downcase", Fdowncase); ("trim", Ftrim); ("tostring", Ftostring); ("tonumber", Ftonumber); ("not", Fnot);
   ("reverse", Freverse); ("sort", Fsort); ("unique", Funique); ("flatten", Fflatten); ("any", Fany);
   ("all", Fall)]%string.
Definition stream_functions : list (string * sfn) :=
  [("map", Smap); ("map_values", Smap_values); ("filter", Sfilter); ("to_entries", Sto_entries);
   ("from_entries", Sfrom_entries); ("with_entries", Swith_entries); ("any_c", Sany_c); ("all_c", Sall_c)]%string.

Definition call_function (name : str) (args : list expr) : result expr :=
  match assoc_name name stream_functions with
  | Some f => Ok (EStreamFunction f args)
  | None =>
    match assoc_name name functions with
    | Some f => Ok (EFunction f args)
    | None => Err "unknown function"
    end
  end.

Section parser.
Context `{OverrideEnv}.

Definition parseNumber (text : str) : result expr :=
  if existsb (λ c, bool_decide (c ∈ lit ".eE")) text then
    match ParseFloat text with
    | Some x => Ok (ELiteral (VFloat x))
    | None => Err "invalid number"
    end
  else
    match (if has_prefix (lit "0x") text || has_prefix (lit "0X") text
           then ParseInt 16 (drop 2 text) else ParseInt 10 text) with
    | Some n => Ok (ELiteral (VInt n))
    | None => Err "invalid number"
    end.

(** Left-associative operators: [op_of] is the operator of a token. *)
Fixpoint binary_loop (fuel : nat) (operand : parser expr) (op_of : token → option binop) (lhs : expr)
    (ts : tokens) : result (expr * tokens) :=
  match fuel with
  | 0 => Panic
  | S f =>
    match op_of (peek ts) with
    | Some op =>
      '(rhs, ts') ← operand (next ts).2;
      binary_loop f operand op_of (EBinary op lhs rhs) ts'
    | None => Ok (lhs, ts)
    end
  end.
Definition binary_level (operand : parser expr) (op_of : token → option binop) : parser expr := λ ts,
  '(lhs, ts') ← operand ts; binary_loop (S (length ts')) operand op_of lhs ts'.

Definition mul_of (t : token) : option binop :=
  match t_kind t with KMultiply => Some OpMul | KDivide => Some OpDiv | KModulo => Some OpMod | _ => None end.
Definition add_of (t : token) : option binop :=
  match t_kind t with KPlus => Some OpAdd | KMinus => Some OpSub | _ => None end.
Definition compare_of (t : token) : option binop :=
  match t_kind t with
  | KEqual => Some OpEq | KNotEqual => Some OpNe | KLess => Some OpLt | KLessEqual => Some OpLe
  | KGreater => Some OpGt | KGreaterEqual => Some OpGe | _ => None
  end.
Definition alt_of (t : token) : option binop := match t_kind t with KAlternative => Some OpAlt | _ => None end.
Definition and_of (t : token) : option binop := if peekIdentifier "and" [t] then Some OpAnd else None.
Definition or_of (t : token) : option binop := if peekIdentifier "or" [t] then Some OpOr else None.

(** A list of items with separators, after the first item. *)
Fixpoint items_loop {A} (fuel : nat) (separator : kind → bool) (item : parser A) (acc : list A)
    (ts : tokens) : result (list A * tokens) :=
  match fuel with
  | 0 => Panic
  | S f =>
    if separator (t_kind (peek ts)) then
      '(x, ts') ← item (next ts).2; items_loop f separator item (acc ++ [x]) ts'
    else Ok (acc, ts)
  end.
Definition items {A} (separator : kind → bool) (item : parser A) : parser (list A) := λ ts,
  '(x, ts') ← item ts; items_loop (S (length ts')) separator item [x] ts'.

Definition is_comma (k : kind) : bool := bool_decide (k = KComma).
Definition is_pipe (k : kind) : bool := bool_decide (k = KPipe).
Definition is_arg_separator (k : kind) : bool := bool_decide (k = KComma) || bool_decide (k = KSemicolon).

(** The parser of one nesting level, over the parser [rec] of the next:
    [parseValueExpression] with the flag for the low precedences. *)
Section level.
Variable rec : bool → parser expr.

Definition parseUnionExpression : parser expr := λ ts,
  '(values, ts') ← items is_comma (rec true) ts;
  Ok (match values with [v] => v | _ => EUnion values end, ts').

Definition parseOverrideValueExpr (source : str) : result expr :=
  ts ← lexOverrideExpr source;
  '(e, ts') ← parseUnionExpression ts;
  if peekIs KEOF ts' then Ok e else Err "unexpected token".

(** The loop of [parseString]: [raw] is the literal text since the last
    interpolation. *)
Fixpoint string_parts (fuel : nat) (raw s : str) (parts : list (str + expr)) : result (list (str + expr) * str) :=
  match fuel with
  | 0 => Panic
  | S f =>
    match s with
    | [] => literal ← decodeOverrideString raw; Ok (parts, literal)
    | c :: s' =>
      match s' with
      | d :: s'' =>
        if negb (bool_decide (c = backslash)) then string_parts f (raw ++ [c]) s' parts
        else if negb (bool_decide (d = "("%char)) then string_parts f (raw ++ [c; d]) s'' parts
        else
          literal ← decodeOverrideString raw;
          match findOverrideInterpolationEnd s'' 0 false with
          | None => Err "unterminated interpolation"
          | Some (text, rest) =>
            e ← parseOverrideValueExpr (unescape_quotes text);
            string_parts f [] rest (parts ++ (if decide (literal = []) then [] else [inl literal]) ++ [inr e])
          end
      | [] => string_parts f (raw ++ [c]) s' parts
      end
    end
  end.
Definition parseString (text : str) : result expr :=
  '(parts, literal) ← string_parts (S (length text)) [] text [];
  Ok (match parts with
      | [] => ELiteral (VStr literal)
      | _ => EString (parts ++ (if decide (literal = []) then [] else [inl literal]))
      end).

Definition map_entry : parser (str * expr) := λ ts,
  let '(key, ts1) := next ts in
  if decide (t_kind key = KString) then
    '(_, ts2) ← expect KColon ts1;
    keyValue ← decodeOverrideString (t_text key);
    '(v, ts3) ← rec true ts2;
    Ok ((keyValue, v), ts3)
  else Err "expected quoted map key".

(** Items between brackets, none if the closing one follows at once. *)
Definition bracketed {A} (close : kind) (p : parser (list A)) : parser (list A) := λ ts,
  match matchTok close ts with
  | Some ts' => Ok ([], ts')
  | None => '(xs, ts1) ← p ts; '(_, ts2) ← expect close ts1; Ok (xs, ts2)
  end.

Definition parsePrimary : parser expr := λ ts,
  let '(t, ts1) := next ts in
  match t_kind t with
  | KDot => '(p, ts2) ← parsePath ts; Ok (EPath p, ts2)
  | KString => e ← parseString (t_text t); Ok (e, ts1)
  | KNumber => e ← parseNumber (t_text t); Ok (e, ts1)
  | KLeftParen =>
    '(e, ts2) ← parseUnionExpression ts1;
    '(_, ts3) ← expect KRightParen ts2;
    Ok (e, ts3)
  | KLeftBracket =>
    '(es, ts2) ← bracketed KRightBracket (items is_comma (rec true)) ts1; Ok (EArray es, ts2)
  | KLeftBrace =>
    '(es, ts2) ← bracketed KRightBrace (items is_comma map_entry) ts1; Ok (EMap es, ts2)
  | KIdentifier =>
    if decide (t_text t = lit "true") then Ok (ELiteral (VBool true), ts1)
    else if decide (t_text t = lit "false") then Ok (ELiteral (VBool false), ts1)
    else if decide (t_text t = lit "null" ∨ t_text t = lit "~") then Ok (ELiteral VNull, ts1)
    else
      '(args, ts2) ← match matchTok KLeftParen ts1 with
                     | Some ts2 => bracketed KRightParen (items is_arg_separator (rec true)) ts2
                     | None => Ok ([], ts1)
                     end;
      e ← call_function (t_text t) args; Ok (e, ts2)
  | _ => Err "expected value"
  end.

Definition parseUnary : parser expr := λ ts,
  if peekIs KMinus ts then
    let '(number, ts2) := next (next ts).2 in
    if decide (t_kind number = KNumber) then e ← parseNumber (lit "-" ++ t_text number); Ok (e, ts2)
    else Err "unary '-' is only supported for number literals"
  else parsePrimary ts.

Definition parseMultiplicative : parser expr := binary_level parseUnary mul_of.
Definition parseAdditive : parser expr := binary_level parseMultiplicative add_of.
Definition parseComparison : parser expr := binary_level parseAdditive compare_of.
Definition parseAlternative : parser expr := binary_level parseComparison alt_of.
Definition parseAnd : parser expr := binary_level parseAlternative and_of.
Definition parseOr : parser expr := binary_level parseAnd or_of.

(** [None] when the tokens are not a path and an assignment operator. *)
Definition update_prefix (ts : tokens) : option (path * assign_op * tokens) :=
  if peekIs KDot ts then
    match parsePath ts with
    | Ok (p, ts') => o ← assign_of (t_kind (peek ts')); Some (p, o, (next ts').2)
    | _ => None
    end
  else None.
Definition or_update (operand : parser expr) : parser expr := λ ts,
  match update_prefix ts with
  | Some (p, o, ts') => '(v, ts'') ← rec false ts'; Ok (EUpdate p o v, ts'')
  | None => operand ts
  end.

Definition parseValueExpression (low : bool) : parser expr := λ ts,
  if low then
    '(stages, ts') ← items is_pipe (or_update parseOr) ts;
    Ok (match stages with [e] => e | _ => EPipeline stages end, ts')
  else or_update parseAlternative ts.
End level.

Fixpoint parse_value (fuel : nat) : bool → parser expr :=
  match fuel with
  | 0 => λ _ _, Panic
  | S f => parseValueExpression (parse_value f)
  end.

(** ** Statements *)

Section statements.
Variable rec : bool → parser expr.

(** The token after the parenthesis that closes the first one. *)
Fixpoint after_paren (depth : nat) (ts : tokens) : option token :=
  match ts with
  | [] => None
  | t :: ts' =>
    match t_kind t with
    | KLeftParen => after_paren (S depth) ts'
    | KRightParen => match depth with
                     | 0 | 1 => head ts'
                     | S d => after_paren d ts'
                     end
    | _ => after_paren depth ts'
    end
  end.

Definition startsAssignmentStatement (ts : tokens) : bool :=
  if peekIs KDot ts then
    match parsePath ts with
    | Ok (_, ts') => isOverrideAssignmentToken (t_kind (peek ts'))
    | _ => false
    end
  else if peekIs KLeftParen ts then
    match after_paren 0 ts with
    | Some t => isOverrideAssignmentToken (t_kind t)
    | None => false
    end
  else false.

Definition target_stage_item : parser target_stage := λ ts,
  if peekIdentifier "select" ts then
    '(_, ts1) ← expect KLeftParen (next ts).2;
    '(c, ts2) ← rec true ts1;
    '(_, ts3) ← expect KRightParen ts2;
    Ok (StageCond c, ts3)
  else '(p, ts1) ← parsePath ts; Ok (StagePath p, ts1).

Definition is_path_stage (st : target_stage) : bool := match st with StagePath _ => true | StageCond _ => false end.

Definition parseAssignmentTarget : parser (list target_stage) := λ ts,
  '(_, ts1) ← expect KLeftParen ts;
  '(stages, ts2) ← items is_pipe target_stage_item ts1;
  '(_, ts3) ← expect KRightParen ts2;
  if existsb is_path_stage stages then Ok (stages, ts3) else Err "conditional assignment must select a path".

Definition parse_delete : parser statement := λ ts,
  '(_, ts1) ← expect KLeftParen (next ts).2;
  '(paths, ts2) ← items is_comma parsePath ts1;
  '(_, ts3) ← expect KRightParen ts2;
  if existsb (λ p : path, bool_decide (p = [])) paths
  then Err "del(.) cannot be represented by a mapping override"
  else Ok (DeleteStatement paths, ts3).

Definition parse_assign : parser statement := λ ts,
  '((p, target), ts1) ← (if peekIs KLeftParen ts
                         then '(t, ts1) ← parseAssignmentTarget ts; Ok (([] : path, Some t), ts1)
                         else '(p, ts1) ← parsePath ts; Ok ((p, None), ts1));
  let '(op, ts2) := next ts1 in
  match assign_of (t_kind op) with
  | Some o => '(v, ts3) ← rec false ts2; Ok (AssignStatement p target o v, ts3)
  | None => Err "expected assignment operator after path"
  end.

Definition parseStatement : parser statement := λ ts,
  if peekIdentifier "del" ts then parse_delete ts
  else if negb (startsAssignmentStatement ts) then
    '(e, ts') ← parseUnionExpression rec ts; Ok (FilterStatement e, ts')
  else parse_assign ts.

(** The loop of [parse]. *)
Fixpoint parse_loop (fuel : nat) (acc : list statement) (ts : tokens) : result (list statement) :=
  match fuel with
  | 0 => Panic
  | S f =>
    '(s, ts1) ← parseStatement ts;
    match matchTok KPipe ts1 with
    | Some ts2 =>
      if peekIs KEOF ts2 then Err "expected expression after pipe" else parse_loop f (acc ++ [s]) ts2
    | None => if peekIs KEOF ts1 then Ok (acc ++ [s]) else Err "unexpected token"
    end
  end.
Definition parse (ts : tokens) : result (list statement) :=
  if peekIs KEOF ts then Err "expression is empty" else parse_loop (length ts) [] ts.
End statements.

(** Enough for the nesting of a text of this length. *)
Definition parse_fuel (n : nat) : nat := (n + 3) * (n + 3).

Definition NewOverrideExpr (source : str) : result (list statement) :=
  ts ← lexOverrideExpr source; parse (parse_value (parse_fuel (length source))) ts.

(** *** The text form *)

Record OverrideExpr := MkOverrideExpr { oe_source : str; oe_statements : list statement }.

Definition UnmarshalText (text : str) : result OverrideExpr :=
  statements ← NewOverrideExpr text; Ok (MkOverrideExpr text statements).
Definition MarshalText (e : OverrideExpr) : str := oe_source e.
End parser.
