(* ===== verification/OverrideParseFacts.v ===== *)
(** * OverrideParseFacts: what the parser of override expressions does

    The parser returns on every text; printing statements and parsing the text
    gives them back; and the places where the text means something else than its
    author would think. *)
From Stdlib Require Import SpecFloat.
From S2P Require Import Prelude GoStrings NetIP OverrideValue OverrideEval OverrideFacts OverrideApply OverrideParse.

(** ** The lexer returns *)

Lemma lex_span_length p s : length (span p s).1 + length (span p s).2 = length s.
Proof. rewrite <- length_app. by rewrite span_eq. Qed.

Lemma scan_string_length s raw rest : scanOverrideString s = Some (raw, rest) → length raw + length rest < length s.
Proof.
  revert raw rest. induction s as [s IH] using (induction_ltof1 _ (@length _)). unfold ltof in IH.
  destruct s as [|c s]; intros raw rest; cbn [scanOverrideString]; [done|].
  destruct (decide (c = backslash)).
  - destruct s as [|d s]; [done|]. destruct (scanOverrideString s) as [[r t]|] eqn:E; [|done].
    intros [= <- <-]. apply IH in E; simpl; lia.
  - destruct (decide (c = quote)); [intros [= <- <-]; simpl; lia|].
    destruct (scanOverrideString s) as [[r t]|] eqn:E; [|done].
    intros [= <- <-]. apply IH in E; simpl; lia.
Qed.

Lemma scan_exponent_length s : length (scan_exponent s).1 + length (scan_exponent s).2 = length s.
Proof.
  unfold scan_exponent. destruct s as [|e s]; [done|]. destruct (_ || _); [|done].
  destruct s as [|c s]; simpl; [done|]. destruct (_ || _); simpl.
  - pose proof (lex_span_length is_digit s). destruct (span is_digit s). simpl in *. lia.
  - pose proof (lex_span_length is_digit (c :: s)) as Hs. simpl in Hs. destruct (is_digit c); simpl in *; [|lia].
    destruct (span is_digit s). simpl in *. lia.
Qed.

Lemma scan_number_length s : length (scanOverrideNumber s).1 + length (scanOverrideNumber s).2 = length s.
Proof.
  unfold scanOverrideNumber. destruct s as [|z [|x s]]; [done| |].
  - pose proof (lex_span_length is_digit [z]). by destruct (span is_digit [z]).
  - destruct (_ && _).
    + pose proof (lex_span_length is_hex s). destruct (span is_hex s). simpl in *. lia.
    + pose proof (lex_span_length is_digit (z :: x :: s)) as H1. destruct (span is_digit (z :: x :: s)) as [int s1]. simpl in H1.
      assert (∀ r : str * str, length r.1 + length r.2 = length s1 →
        length (let '(frac, s2) := r in let '(ex, s3) := scan_exponent s2 in (int ++ frac ++ ex, s3)).1 +
        length (let '(frac, s2) := r in let '(ex, s3) := scan_exponent s2 in (int ++ frac ++ ex, s3)).2 = S (S (length s))) as Hr.
      { intros [frac s2] H2. simpl in H2. pose proof (scan_exponent_length s2) as H3. destruct (scan_exponent s2) as [ex s3].
        simpl in *. rewrite !length_app. lia. }
      apply Hr. destruct s1 as [|c s2]; [done|]. destruct (decide _); [|done].
      pose proof (lex_span_length is_digit s2). destruct (span is_digit s2). simpl in *. lia.
Qed.

(** A round of the lexer: the rest is not longer than what follows the byte,
    the text of a token not longer than what was consumed. *)
Lemma lex_step_ok c s : okR (λ r, match r with
    | None => True
    | Some (None, rest) => length rest ≤ length s
    | Some (Some t, rest) => length rest ≤ length s ∧ length (t_text t) + length rest ≤ S (length s)
    end) (lex_step c s).
Proof.
  unfold lex_step. destruct (is_space _); [simpl; lia|]. destruct (decide (c = "#"%char)); [done|].
  destruct (assoc_char c simple_tokens); [simpl; lia|].
  destruct (assoc_char c pair_tokens) as [[[k d] k']|].
  { destruct s as [|d' s]; [simpl; lia|]. destruct (decide _); simpl; lia. }
  destruct (decide (c = "!"%char)).
  { destruct s as [|d s]; [done|]. destruct (decide _); simpl; [lia|done]. }
  destruct (decide (c = quote)).
  { destruct (scanOverrideString s) as [[raw rest]|] eqn:E; [|done]. apply scan_string_length in E. simpl. lia. }
  destruct (is_digit c) eqn:Ed.
  - pose proof (scan_number_length (c :: s)) as Hn. assert (0 < length (scanOverrideNumber (c :: s)).1) as Hp.
    { unfold scanOverrideNumber. destruct s as [|x s]; [cbn [span]; rewrite Ed; simpl; lia|]. destruct (_ && _).
      - destruct (span is_hex s). simpl. lia.
      - pose proof (span_head is_digit c (x :: s) Ed). destruct (span is_digit (c :: x :: s)) as [int s1].
        destruct int; [done|]. destruct (match s1 with [] => _ | _ => _ end) as [frac s2].
        destruct (scan_exponent s2). simpl. lia. }
    destruct (scanOverrideNumber (c :: s)) as [t rest]. simpl in *. lia.
  - destruct (isOverrideIdentifierStart c); [|done].
    pose proof (lex_span_length isOverrideIdentifierPart s). destruct (span _ s). simpl in *. lia.
Qed.

Definition fits (L : nat) (ts : tokens) : Prop := Forall (λ t, length (t_text t) ≤ L) ts.

Lemma lex_ok f s : length s ≤ f →
  okR (λ ts, length ts ≤ S (length s) ∧ fits (length s) ts) (lex_fuel f s).
Proof.
  revert s. induction f as [|f IH]; intros s Hf.
  { destruct s; [|simpl in Hf; lia]. simpl. split; [done|]. repeat constructor. }
  destruct s as [|c s]; cbn [lex_fuel]; [simpl; split; [done|]; repeat constructor|].
  assert (∀ n m ts, n ≤ m → fits n ts → fits m ts) as Hmono
    by (intros n m ts Hnm Hfit; eapply Forall_impl; [exact Hfit|]; simpl; intros; lia).
  eapply okR_bind; [apply lex_step_ok|]. simpl in Hf. intros [[[t|] rest]|] Hr.
  - eapply okR_bind; [apply (IH rest); lia|]. intros ts [Hl Hfit]. simpl in *. split; [lia|].
    constructor; [lia|]. eapply Hmono; [|exact Hfit]. lia.
  - eapply okR_impl; [apply (IH rest); lia|]. intros ts [Hl Hfit]. simpl in *. split; [lia|].
    eapply Hmono; [|exact Hfit]. lia.
  - simpl. split; [lia|]. repeat constructor. simpl. lia.
Qed.

(** ** The parser consumes what it parses *)

(** The rest is a proper suffix of the tokens. *)
Definition shrinks {A} (ts : tokens) (r : result (A * tokens)) : Prop :=
  okR (λ ar, ar.2 `suffix_of` ts ∧ length ar.2 < length ts) r.
Definition stays {A} (ts : tokens) (r : result (A * tokens)) : Prop :=
  okR (λ ar, ar.2 `suffix_of` ts) r.

Lemma suffix_length_le {A} (l k : list A) : l `suffix_of` k → length l ≤ length k.
Proof. intros [x ->]. rewrite length_app. lia. Qed.

Lemma fits_suffix L ts ts' : ts' `suffix_of` ts → fits L ts → fits L ts'.
Proof. intros [k ->] Hf. unfold fits in *. by apply Forall_app in Hf as [_ Hf]. Qed.

Lemma next_suffix ts : (next ts).2 `suffix_of` ts.
Proof. destruct ts as [|t ts]; [done|]. simpl. destruct (decide _); [done|]. by exists [t]. Qed.

Lemma next_consumes ts : t_kind (peek ts) ≠ KEOF →
  (next ts).2 `suffix_of` ts ∧ length (next ts).2 < length ts.
Proof.
  intros Hk. split; [apply next_suffix|]. destruct ts as [|t ts]; [done|]. simpl in *. rewrite decide_False by done. simpl. lia.
Qed.

Lemma next_peek ts : (next ts).1 = peek ts.
Proof. destruct ts as [|t ts]; [done|]. simpl. by destruct (decide _). Qed.

Lemma peekIs_spec k ts : peekIs k ts = true → t_kind (peek ts) = k.
Proof. unfold peekIs. by rewrite bool_decide_eq_true. Qed.

Lemma matchTok_consumes k ts ts' : k ≠ KEOF → matchTok k ts = Some ts' → ts' `suffix_of` ts ∧ length ts' < length ts.
Proof.
  intros Hk. unfold matchTok. destruct (peekIs k ts) eqn:E; [|done]. intros [= <-].
  apply peekIs_spec in E. apply next_consumes. congruence.
Qed.

Lemma expect_shrinks k ts : k ≠ KEOF → shrinks ts (expect k ts).
Proof.
  intros Hk. unfold expect. pose proof (next_peek ts) as Hp. pose proof (next_consumes ts) as Hc.
  destruct (next ts) as [t ts']. simpl in Hp. subst t. destruct (decide _); [|done]. apply Hc. congruence.
Qed.

(** Sequencing. *)
Lemma shrinks_bind {A B} ts (m : result (A * tokens)) (f : A * tokens → result (B * tokens)) :
  shrinks ts m → (∀ a ts', ts' `suffix_of` ts → length ts' < length ts → stays ts' (f (a, ts'))) → shrinks ts (m ≫= f).
Proof.
  intros Hm Hf. eapply okR_bind; [exact Hm|]. intros [a ts'] [Hs Hl]. eapply okR_impl; [by apply Hf|].
  intros [b ts''] Hs'. simpl in *. split; [by etrans|]. apply suffix_length_le in Hs'. lia.
Qed.

Lemma stays_bind {A B} ts (m : result (A * tokens)) (f : A * tokens → result (B * tokens)) :
  stays ts m → (∀ a ts', ts' `suffix_of` ts → stays ts' (f (a, ts'))) → stays ts (m ≫= f).
Proof.
  intros Hm Hf. eapply okR_bind; [exact Hm|]. intros [a ts'] Hs. eapply okR_impl; [by apply Hf|].
  intros [b ts''] Hs'. simpl in *. by etrans.
Qed.

Lemma shrinks_stays {A} ts (r : result (A * tokens)) : shrinks ts r → stays ts r.
Proof. intros Hr. eapply okR_impl; [exact Hr|]. by intros ? []. Qed.

Lemma pure_bind_stays {A B} ts (m : result A) (f : A → result (B * tokens)) :
  okR (λ _, True) m → (∀ a, stays ts (f a)) → stays ts (m ≫= f).
Proof. intros Hm Hf. eapply okR_bind; [exact Hm|]. intros a _. apply Hf. Qed.

Lemma stays_ret {A} (a : A) ts : stays ts (Ok (a, ts)).
Proof. by exists []. Qed.

Create HintDb parse.
#[export] Hint Resolve next_suffix shrinks_stays stays_ret expect_shrinks suffix_length_le fits_suffix : parse.

(** *** Paths *)

Lemma decode_ok raw : okR (λ _, True) (decodeOverrideString raw).
Proof.
  induction raw as [raw IH] using (induction_ltof1 _ (@length _)). unfold ltof in IH.
  destruct raw as [|c raw]; [done|]. cbn [decodeOverrideString]. destruct (decide _).
  - destruct raw as [|d raw]; [done|]. eapply okR_bind; [apply IH; simpl; lia|done].
  - eapply okR_bind; [apply IH; simpl; lia|done].
Qed.

Lemma pathField_ok t : okR (λ _, True) (pathField t).
Proof. unfold pathField. destruct (t_kind t); try apply decode_ok. done. Qed.

Lemma bracket_segment_shrinks ts : shrinks ts (bracket_segment ts).
Proof.
  unfold bracket_segment. destruct (matchTok KRightBracket ts) as [ts'|] eqn:E.
  { apply matchTok_consumes in E; [|done]. simpl. done. }
  pose proof (next_peek ts) as Hp. pose proof (next_consumes ts) as Hc. destruct (next ts) as [t ts1]. simpl in *. subst t.
  eapply shrinks_bind with (ts := ts).
  - destruct (t_kind (peek ts)) eqn:Hk; try done; destruct Hc as [Hs Hl]; try done.
    + eapply okR_bind; [apply pathField_ok|]. done.
    + eapply okR_bind; [apply pathField_ok|]. done.
    + cbn [mbind result_bind]. by destruct (ParseInt _ _).
    + eapply (shrinks_bind ts).
      * eapply shrinks_bind; [|intros; apply stays_ret].
        eapply okR_impl; [exact (expect_shrinks KNumber ts1 ltac:(done))|]. intros [n ts2] [Hs2 Hl2]. simpl in *. split; [by etrans|lia].
      * intros text ts2 _ _. destruct (ParseInt _ _); [apply stays_ret|done].
  - intros seg ts2 _ _. eapply stays_bind; [by apply shrinks_stays, expect_shrinks|]. intros; apply stays_ret.
Qed.

Lemma path_loop_stays f segs ts : length ts < f → stays ts (path_loop f segs ts).
Proof.
  revert segs ts. induction f as [|f IH]; intros segs ts Hf; [lia|]. cbn [path_loop].
  destruct (t_kind (peek ts)) eqn:Hk; try apply stays_ret.
  - destruct (next_consumes ts) as [Hs Hl]; [congruence|]. pose proof (next_suffix (next ts).2) as Hs2.
    destruct (next (next ts).2) as [t ts2]. simpl in Hs2.
    assert (stays ts (key ← pathField t; path_loop f (segs ++ [SField key]) ts2)).
    { eapply pure_bind_stays; [apply pathField_ok|]. intros key. eapply okR_impl.
      - apply IH. apply suffix_length_le in Hs2. lia.
      - intros [p r] Hr. simpl in *. etrans; [exact Hr|]. by etrans. }
    by destruct (t_kind t).
  - destruct (next_consumes ts) as [Hs Hl]; [congruence|].
    eapply okR_bind; [apply bracket_segment_shrinks|]. intros [seg ts'] [Hs' Hl']. simpl in *.
    eapply okR_impl; [apply IH; lia|]. intros [p r] Hr. simpl in *. etrans; [exact Hr|]. by etrans.
Qed.

Lemma parsePath_shrinks ts : shrinks ts (parsePath ts).
Proof.
  unfold parsePath. eapply shrinks_bind; [by apply expect_shrinks|]. intros t ts1 _ _.
  pose proof (path_loop_stays (S (length ts1)) [] ts1 ltac:(lia)) as Hdef.
  pose proof (next_suffix ts1) as Hs. destruct (next ts1) as [t2 ts2]. simpl in Hs.
  assert (stays ts1 (key ← pathField t2; path_loop (S (length ts2)) [SField key] ts2)).
  { eapply pure_bind_stays; [apply pathField_ok|]. intros key.
    eapply okR_impl; [apply path_loop_stays; lia|]. intros [p r] Hr. simpl in *. by etrans. }
  by destruct (t_kind (peek ts1)).
Qed.

(** *** Loops *)

Lemma items_loop_stays {A} f sep (item : parser A) acc ts : (∀ k, sep k = true → k ≠ KEOF) →
  (∀ ts', ts' `suffix_of` ts → length ts' < length ts → shrinks ts' (item ts')) → length ts < f →
  stays ts (items_loop f sep item acc ts).
Proof.
  intros Hsep. revert acc ts. induction f as [|f IH]; intros acc ts Hitem Hf; [lia|]. cbn [items_loop].
  destruct (sep _) eqn:E; [|apply stays_ret]. apply Hsep in E. destruct (next_consumes ts E) as [Hs Hl].
  eapply okR_bind; [by apply Hitem|]. intros [x ts'] [Hs' Hl']. simpl in *.
  assert (ts' `suffix_of` ts) by by etrans.
  eapply okR_impl; [apply IH; [|lia]|].
  - intros ts2 Hs2 Hl2. apply Hitem; [by etrans|lia].
  - intros [y r] Hr. simpl in *. by etrans.
Qed.

Lemma items_shrinks {A} sep (item : parser A) ts : (∀ k, sep k = true → k ≠ KEOF) →
  (∀ ts', ts' `suffix_of` ts → shrinks ts' (item ts')) → shrinks ts (items sep item ts).
Proof.
  intros Hsep Hitem. unfold items. eapply shrinks_bind; [by apply Hitem|]. intros x ts' Hs Hl.
  apply items_loop_stays; [done| |lia]. intros ts2 Hs2 _. apply Hitem. by etrans.
Qed.

Lemma binary_loop_stays f operand op_of lhs ts : (∀ t op, op_of t = Some op → t_kind t ≠ KEOF) →
  (∀ ts', ts' `suffix_of` ts → shrinks ts' (operand ts')) → length ts < f →
  stays ts (binary_loop f operand op_of lhs ts).
Proof.
  intros Hop. revert lhs ts. induction f as [|f IH]; intros lhs ts Hitem Hf; [lia|]. cbn [binary_loop].
  destruct (op_of (peek ts)) as [op|] eqn:E; [|apply stays_ret]. apply Hop in E. destruct (next_consumes ts E) as [Hs Hl].
  eapply okR_bind; [by apply Hitem|]. intros [x ts'] [Hs' Hl']. simpl in *.
  assert (ts' `suffix_of` ts) by by etrans.
  eapply okR_impl; [apply IH; [|lia]|].
  - intros ts2 Hs2. apply Hitem. by etrans.
  - intros [y r] Hr. simpl in *. by etrans.
Qed.

Lemma binary_level_shrinks operand op_of ts : (∀ t op, op_of t = Some op → t_kind t ≠ KEOF) →
  (∀ ts', ts' `suffix_of` ts → shrinks ts' (operand ts')) → shrinks ts (binary_level operand op_of ts).
Proof.
  intros Hop Hitem. unfold binary_level. eapply shrinks_bind; [by apply Hitem|]. intros x ts' Hs Hl.
  apply binary_loop_stays; [done| |lia]. intros ts2 Hs2. apply Hitem. by etrans.
Qed.

Lemma bracketed_stays {A} close (p : parser (list A)) ts : close ≠ KEOF → shrinks ts (p ts) → stays ts (bracketed close p ts).
Proof.
  intros Hc Hp. unfold bracketed. destruct (matchTok close ts) as [ts'|] eqn:E.
  { apply matchTok_consumes in E as [? _]; [|done]. done. }
  eapply stays_bind; [by apply shrinks_stays|]. intros x ts1 _.
  eapply stays_bind; [by apply shrinks_stays, expect_shrinks|]. intros; apply stays_ret.
Qed.

(** *** Interpolation *)

Lemma find_end_length s d b e rest : findOverrideInterpolationEnd s d b = Some (e, rest) → length e + length rest < length s.
Proof.
  revert d b e rest. induction s as [s IH] using (induction_ltof1 _ (@length _)). unfold ltof in IH.
  destruct s as [|c s]; intros d b e rest; cbn [findOverrideInterpolationEnd]; [done|].
  assert (∀ d' b', ('(e, rest) ← findOverrideInterpolationEnd s d' b'; Some (c :: e, rest)) = Some (e, rest) →
    length e + length rest < length (c :: s)) as Hrec.
  { intros d' b'. destruct (findOverrideInterpolationEnd s d' b') as [[e1 r1]|] eqn:E; [|done].
    intros [= <- <-]. apply IH in E; simpl in *; lia. }
  destruct (decide (c = backslash)).
  - destruct s as [|c' s]; [done|]. destruct (findOverrideInterpolationEnd s d b) as [[e1 r1]|] eqn:E; [|done].
    intros [= <- <-]. apply IH in E; simpl in *; lia.
  - destruct b; [apply Hrec|]. destruct (decide (c = quote)); [apply Hrec|].
    destruct (decide (c = "("%char)); [apply Hrec|]. destruct (decide (c = ")"%char)); [|apply Hrec].
    destruct d; [intros [= <- <-]; simpl; lia|apply Hrec].
Qed.

Lemma unescape_length s : length (unescape_quotes s) ≤ length s.
Proof.
  induction s as [s IH] using (induction_ltof1 _ (@length _)). unfold ltof in IH.
  destruct s as [|c [|d s]]; [done|done|]. cbn [unescape_quotes]. destruct (_ && _).
  - specialize (IH s ltac:(simpl; lia)). simpl. lia.
  - specialize (IH (d :: s) ltac:(simpl; lia)). cbn [unescape_quotes length] in *. lia.
Qed.

(** ** One level of the parser *)

Section level.
Context `{OverrideEnv} (rec : bool → parser expr) (N L : nat).
Hypothesis Hrec : ∀ low ts, length ts < N → fits L ts → shrinks ts (rec low ts).
Hypothesis Hsub : ∀ source, length source < L → okR (λ _, True) (parseOverrideValueExpr rec source).
#[local] Set Default Proof Using "All".

Lemma string_parts_ok f raw s parts : length s < f → length s ≤ L → okR (λ _, True) (string_parts rec f raw s parts).
Proof.
  revert raw s parts. induction f as [|f IH]; intros raw s parts Hf HL; [lia|]. cbn [string_parts].
  destruct s as [|c [|d s]].
  - eapply okR_bind; [apply decode_ok|done].
  - apply IH; simpl in *; lia.
  - destruct (negb _); [apply IH; simpl in *; lia|]. destruct (negb _); [apply IH; simpl in *; lia|].
    eapply okR_bind; [apply decode_ok|]. intros literal _.
    destruct (findOverrideInterpolationEnd s 0 false) as [[text rest]|] eqn:E; [|done].
    apply find_end_length in E. pose proof (unescape_length text). simpl in *.
    eapply okR_bind; [apply Hsub; lia|]. intros e _. apply IH; lia.
Qed.

Lemma parseString_ok text : length text ≤ L → okR (λ _, True) (parseString rec text).
Proof.
  intros Ht. unfold parseString. eapply okR_bind; [apply string_parts_ok; lia|]. by intros [parts literal] _.
Qed.

Lemma parseNumber_ok text : okR (λ _, True) (parseNumber text).
Proof. unfold parseNumber. destruct (existsb _ _); [by destruct (ParseFloat _)|]. by case_match. Qed.

Lemma call_function_ok name args : okR (λ _, True) (call_function name args).
Proof. unfold call_function. by repeat case_match. Qed.

Lemma union_shrinks ts : length ts < N → fits L ts → shrinks ts (parseUnionExpression rec ts).
Proof using Hrec.
  intros HN HL. unfold parseUnionExpression. eapply shrinks_bind; [|intros; apply stays_ret].
  apply items_shrinks; [by intros k Hk%bool_decide_eq_true ->|]. intros ts' Hs. apply Hrec; [|by eapply fits_suffix].
  apply suffix_length_le in Hs. lia.
Qed.

Lemma items_rec_shrinks sep low ts : (∀ k, sep k = true → k ≠ KEOF) → length ts < N → fits L ts →
  shrinks ts (items sep (rec low) ts).
Proof.
  intros Hsep HN HL. apply items_shrinks; [done|]. intros ts' Hs. apply Hrec; [|by eapply fits_suffix].
  apply suffix_length_le in Hs. lia.
Qed.

Lemma map_entry_shrinks ts : length ts < N → fits L ts → shrinks ts (map_entry rec ts).
Proof.
  intros HN HL. unfold map_entry. pose proof (next_peek ts) as Hp. pose proof (next_consumes ts) as Hc.
  destruct (next ts) as [t ts1]. simpl in Hp, Hc. subst t. destruct (decide _) as [Hk|]; [|done].
  destruct Hc as [Hs Hl]; [congruence|]. eapply okR_bind; [by apply (expect_shrinks KColon ts1)|].
  intros [t2 ts2] [Hs2 Hl2]. simpl in *. eapply okR_bind; [apply decode_ok|]. intros key _.
  assert (ts2 `suffix_of` ts) by by etrans.
  eapply okR_bind; [apply Hrec; [lia|by eapply fits_suffix]|]. intros [v ts3] [Hs3 Hl3]. simpl in *.
  split; [by etrans|lia].
Qed.

Lemma parsePrimary_shrinks ts : length ts ≤ N → fits L ts → shrinks ts (parsePrimary rec ts).
Proof.
  intros HN HL. unfold parsePrimary. pose proof (next_peek ts) as Hp. pose proof (next_consumes ts) as Hc.
  assert (length (t_text (peek ts)) ≤ L) as Ht by (destruct ts; [simpl; lia|by inversion HL]).
  destruct (next ts) as [t ts1]. simpl in Hp, Hc. subst t.
  destruct (t_kind (peek ts)) eqn:Hk; try done; (destruct Hc as [Hs Hl]; [done|]);
    pose proof (fits_suffix L _ _ Hs HL) as HL1.
  - eapply shrinks_bind; [apply parsePath_shrinks|]. intros; apply stays_ret.
  - destruct (decide _); [done|]. destruct (decide _); [done|]. destruct (decide _); [done|].
    eapply (okR_bind (λ ar, ar.2 `suffix_of` ts1)).
    + destruct (matchTok KLeftParen ts1) as [ts2|] eqn:E; [|by exists []].
      apply matchTok_consumes in E as [Hs2 Hl2]; [|done].
      eapply okR_impl; [apply (bracketed_stays KRightParen); [done|apply items_rec_shrinks]|].
      * by intros k [Hk'%bool_decide_eq_true|Hk'%bool_decide_eq_true]%orb_true_iff ->.
      * lia.
      * by eapply fits_suffix.
      * intros [args r] Hr. simpl in *. by etrans.
    + intros [args r] Hr. eapply okR_bind; [apply call_function_ok|]. intros e _. simpl in *.
      split; [by etrans|]. apply suffix_length_le in Hr. lia.
  - eapply okR_bind; [by apply parseString_ok|]. done.
  - eapply okR_bind; [by apply parseNumber_ok|]. done.
  - eapply okR_bind; [apply union_shrinks; [lia|done]|]. intros [e ts2] [Hs2 Hl2]. simpl in *.
    eapply okR_bind; [by apply (expect_shrinks KRightParen ts2)|]. intros [t ts3] [Hs3 Hl3]. simpl in *.
    split; [|lia]. etrans; [exact Hs3|]. by etrans.
  - eapply okR_bind; [apply (bracketed_stays KRightBracket); [done|apply items_rec_shrinks]|].
    + by intros k Hk'%bool_decide_eq_true ->.
    + lia.
    + done.
    + intros [es r] Hr. simpl in *. split; [by etrans|]. apply suffix_length_le in Hr. lia.
  - eapply okR_bind; [apply (bracketed_stays KRightBrace); [done|apply items_shrinks]|].
    + by intros k Hk'%bool_decide_eq_true ->.
    + intros ts' Hs'. apply map_entry_shrinks; [|by eapply fits_suffix]. apply suffix_length_le in Hs'. lia.
    + intros [es r] Hr. simpl in *. split; [by etrans|]. apply suffix_length_le in Hr. lia.
Qed.

Lemma parseUnary_shrinks ts : length ts ≤ N → fits L ts → shrinks ts (parseUnary rec ts).
Proof.
  intros HN HL. unfold parseUnary. destruct (peekIs KMinus ts) eqn:E; [|by apply parsePrimary_shrinks].
  apply peekIs_spec in E. destruct (next_consumes ts) as [Hs Hl]; [congruence|].
  pose proof (next_suffix (next ts).2) as Hs2. destruct (next (next ts).2) as [t ts2]. simpl in Hs2.
  destruct (decide _) as [Hk|]; [|done]. eapply okR_bind; [apply parseNumber_ok|]. intros e _. simpl.
  split; [by etrans|]. apply suffix_length_le in Hs2. lia.
Qed.

(** A level of operators over a level that consumes. *)
Lemma operators_shrink operand op_of ts : (∀ t op, op_of t = Some op → t_kind t ≠ KEOF) →
  (∀ ts', length ts' ≤ N → fits L ts' → shrinks ts' (operand ts')) →
  length ts ≤ N → fits L ts → shrinks ts (binary_level operand op_of ts).
Proof.
  intros Hop Hoperand HN HL. apply binary_level_shrinks; [done|]. intros ts' Hs.
  apply Hoperand; [|by eapply fits_suffix]. apply suffix_length_le in Hs. lia.
Qed.

Lemma parseAlternative_shrinks ts : length ts ≤ N → fits L ts → shrinks ts (parseAlternative rec ts).
Proof.
  apply operators_shrink; [intros t op Ht Hk; unfold alt_of in Ht; by rewrite Hk in Ht|clear ts; intros ts].
  apply operators_shrink; [intros t op Ht Hk; unfold compare_of in Ht; by rewrite Hk in Ht|clear ts; intros ts].
  apply operators_shrink; [intros t op Ht Hk; unfold add_of in Ht; by rewrite Hk in Ht|clear ts; intros ts].
  apply operators_shrink; [intros t op Ht Hk; unfold mul_of in Ht; by rewrite Hk in Ht|clear ts; intros ts].
  apply parseUnary_shrinks.
Qed.

Lemma word_not_eof s t : peekIdentifier s [t] = true → t_kind t ≠ KEOF.
Proof. unfold peekIdentifier. intros [Hk%peekIs_spec _]%andb_true_iff. simpl in Hk. congruence. Qed.

Lemma parseOr_shrinks ts : length ts ≤ N → fits L ts → shrinks ts (parseOr rec ts).
Proof.
  apply operators_shrink; [|clear ts; intros ts].
  { intros t op. unfold or_of. destruct (peekIdentifier "or" [t]) eqn:E; [|done]. intros _. by eapply word_not_eof. }
  apply operators_shrink; [|clear ts; intros ts].
  { intros t op. unfold and_of. destruct (peekIdentifier "and" [t]) eqn:E; [|done]. intros _. by eapply word_not_eof. }
  apply parseAlternative_shrinks.
Qed.

Lemma update_prefix_shrinks ts p o ts' : update_prefix ts = Some (p, o, ts') → ts' `suffix_of` ts ∧ length ts' < length ts.
Proof.
  unfold update_prefix. destruct (peekIs KDot ts); [|done]. pose proof (parsePath_shrinks ts) as Hp.
  destruct (parsePath ts) as [[q ts1]| |]; try done. destruct Hp as [Hs Hl]. simpl in *.
  destruct (assign_of _); [|done]. intros [= <- <- <-]. pose proof (next_suffix ts1) as Hs1.
  split; [by etrans|]. apply suffix_length_le in Hs1. lia.
Qed.

Lemma or_update_shrinks operand ts :
  (∀ ts', length ts' ≤ N → fits L ts' → shrinks ts' (operand ts')) →
  length ts ≤ N → fits L ts → shrinks ts (or_update rec operand ts).
Proof.
  intros Hop HN HL. unfold or_update. destruct (update_prefix ts) as [[[p o] ts']|] eqn:E; [|by apply Hop].
  apply update_prefix_shrinks in E as [Hs Hl].
  eapply okR_bind; [apply (Hrec false ts'); [lia|by eapply fits_suffix]|]. intros [v ts2] [Hs2 Hl2]. simpl in *.
  split; [by etrans|lia].
Qed.

Lemma value_shrinks low ts : length ts ≤ N → fits L ts → shrinks ts (parseValueExpression rec low ts).
Proof.
  intros HN HL. unfold parseValueExpression. destruct low.
  - eapply shrinks_bind; [|intros; apply stays_ret]. apply items_shrinks; [by intros k Hk%bool_decide_eq_true ->|].
    intros ts' Hs. apply or_update_shrinks; [apply parseOr_shrinks| |by eapply fits_suffix].
    apply suffix_length_le in Hs. lia.
  - by apply or_update_shrinks; [apply parseAlternative_shrinks|..].
Qed.
End level.

(** ** Enough fuel *)

Definition need (N L : nat) : nat := N + (L + 2) * (L + 2).

Section returns.
Context `{OverrideEnv}.

Lemma parse_value_shrinks f low N L ts : need N L ≤ f → length ts ≤ N → fits L ts → shrinks ts (parse_value f low ts).
Proof.
  revert low N L ts. induction f as [|f IH]; intros low N L ts Hf HN HL; [unfold need in Hf; lia|].
  destruct N as [|N].
  { assert (ts = []) as -> by (destruct ts; [done|simpl in HN; lia]).
    (* no token: every alternative asks for one *)
    destruct low; done. }
  cbn [parse_value]. eapply (value_shrinks _ (S N) L); [..|done|done].
  - intros low' ts' Hl HL'. apply (IH low' N L); [unfold need in *; lia|lia|done].
  - intros source Hs. unfold parseOverrideValueExpr. eapply okR_bind; [apply lex_ok; lia|].
    intros ts' [Hl HL']. eapply okR_bind.
    + eapply (union_shrinks _ (S (S (length source))) (length source)); [|lia|done].
      intros low' ts2 Hl2 HL2. apply (IH low' (S (length source)) (length source)); [|lia|done].
      unfold need in *. nia.
    + intros [e ts2] _. by destruct (peekIs KEOF ts2).
Qed.

Lemma union_of_rec rec ts : (∀ ts', ts' `suffix_of` ts → shrinks ts' (rec true ts')) →
  shrinks ts (parseUnionExpression rec ts).
Proof.
  intros Hrec. unfold parseUnionExpression. eapply shrinks_bind; [|intros; apply stays_ret].
  by apply items_shrinks; [intros k Hk%bool_decide_eq_true ->|].
Qed.

Lemma target_shrinks rec ts : (∀ low ts', ts' `suffix_of` ts → shrinks ts' (rec low ts')) →
  shrinks ts (parseAssignmentTarget rec ts).
Proof.
  intros Hrec. unfold parseAssignmentTarget. eapply shrinks_bind; [by apply expect_shrinks|]. intros t ts1 Hs1 _.
  eapply stays_bind; [apply shrinks_stays, items_shrinks; [by intros k Hk%bool_decide_eq_true ->|]|].
  - intros ts2 Hs2. unfold target_stage_item. destruct (peekIdentifier "select" ts2) eqn:E.
    + apply andb_true_iff in E as [E%peekIs_spec _]. destruct (next_consumes ts2) as [Hs3 Hl3]; [congruence|].
      eapply okR_bind; [by apply (expect_shrinks KLeftParen)|]. intros [t3 ts4] [Hs4 Hl4]. simpl in *.
      assert (ts4 `suffix_of` ts2) by by etrans. assert (ts4 `suffix_of` ts) by (etrans; [|exact Hs1]; by etrans).
      eapply okR_bind; [by apply Hrec|]. intros [c ts5] [Hs5 Hl5]. simpl in *.
      eapply okR_bind; [by apply (expect_shrinks KRightParen ts5)|]. intros [t6 ts6] [Hs6 Hl6]. simpl in *.
      split; [|lia]. etrans; [exact Hs6|]. by etrans.
    + eapply shrinks_bind; [apply parsePath_shrinks|]. intros; apply stays_ret.
  - intros stages ts2 _. eapply stays_bind; [by apply shrinks_stays, expect_shrinks|]. intros t3 ts3 _.
    destruct (existsb _ _); [apply stays_ret|done].
Qed.

Lemma statement_shrinks rec ts : (∀ low ts', ts' `suffix_of` ts → shrinks ts' (rec low ts')) →
  shrinks ts (parseStatement rec ts).
Proof.
  intros Hrec. unfold parseStatement. destruct (peekIdentifier "del" ts) eqn:E.
  - apply andb_true_iff in E as [E%peekIs_spec _]. destruct (next_consumes ts) as [Hs Hl]; [congruence|].
    unfold parse_delete. eapply okR_bind; [by apply (expect_shrinks KLeftParen)|]. intros [t ts1] [Hs1 Hl1]. simpl in *.
    eapply okR_bind; [apply items_shrinks; [by intros k Hk%bool_decide_eq_true ->|intros; apply parsePath_shrinks]|].
    intros [ps ts2] [Hs2 Hl2]. simpl in *. eapply okR_bind; [by apply (expect_shrinks KRightParen)|].
    intros [t3 ts3] [Hs3 Hl3]. simpl in *. destruct (existsb _ _); [done|]. split; [|simpl; lia]. simpl.
    etrans; [exact Hs3|]. etrans; [exact Hs2|]. by etrans.
  - destruct (negb _).
    + eapply shrinks_bind; [apply union_of_rec; auto|]. intros; apply stays_ret.
    + unfold parse_assign. eapply shrinks_bind.
      * destruct (peekIs KLeftParen ts).
        -- eapply shrinks_bind; [by apply target_shrinks|]. intros; apply stays_ret.
        -- eapply shrinks_bind; [apply parsePath_shrinks|]. intros; apply stays_ret.
      * intros [p target] ts1 Hs1 _. pose proof (next_suffix ts1) as Hs2. destruct (next ts1) as [op ts2]. simpl in *.
        destruct (assign_of _); [|done]. eapply okR_bind; [apply (Hrec false ts2); by etrans|].
        intros [v ts3] [Hs3 _]. simpl in *. by etrans.
Qed.

Lemma parse_loop_ok rec f acc ts : (∀ low ts', ts' `suffix_of` ts → shrinks ts' (rec low ts')) → length ts ≤ f → ts ≠ [] →
  okR (λ _, True) (parse_loop rec f acc ts).
Proof.
  revert acc ts. induction f as [|f IH]; intros acc ts Hrec Hf Hne; [destruct ts; simpl in *; [done|lia]|].
  cbn [parse_loop]. eapply okR_bind; [by apply statement_shrinks|]. intros [s ts1] [Hs1 Hl1]. simpl in *.
  destruct (matchTok KPipe ts1) as [ts2|] eqn:E; [|by destruct (peekIs _ _)].
  apply matchTok_consumes in E as [Hs2 Hl2]; [|done]. destruct (peekIs KEOF ts2) eqn:Ee; [done|].
  apply IH; [|lia|by intros ->]. intros low ts' Hs'. apply Hrec. etrans; [exact Hs'|]. by etrans.
Qed.

Lemma parse_text_ok source : okR (λ _, True) (NewOverrideExpr source).
Proof.
  unfold NewOverrideExpr. eapply okR_bind; [apply lex_ok; lia|]. intros ts [Hl HL]. unfold parse.
  destruct (peekIs KEOF ts) eqn:E; [done|]. apply parse_loop_ok; [|lia|by intros ->].
  intros low ts' Hs. apply (parse_value_shrinks _ _ (S (length source)) (length source)).
  - unfold need, parse_fuel. lia.
  - apply suffix_length_le in Hs. lia.
  - by eapply fits_suffix.
Qed.

(** A computation that ends with a value or an error. *)
Definition returns {A} (r : result A) : Prop := match r with Ok _ | Err _ => True | Panic => False end.

(** C32: parsing returns for every text: the parser does not panic, does not
    loop, and [parse_fuel] is enough for the nesting of parentheses and string
    interpolations. *)
Theorem NewOverrideExpr_returns (source : str) :
  returns (lexOverrideExpr source) ∧ returns (NewOverrideExpr source).
Proof.
  pose proof (parse_text_ok source) as Hp. unfold NewOverrideExpr in Hp |- *.
  by destruct (lexOverrideExpr source).
Qed.
End returns.

(** ** Texts that mean something else *)

(** A text with single quotes for double ones. *)
Definition quoted (s : string) : str := (λ c, if decide (c = "'"%char) then quote else c) <$> lit s.

Section errors.
Context `{OverrideEnv}.

Lemma binary_level_err (operand : parser expr) (op_of : token → option binop) (ts : tokens) (e : string) :
  operand ts = Err e → binary_level operand op_of ts = Err e.
Proof. intros He. unfold binary_level. by rewrite He. Qed.

Lemma parse_value_err (k : nat) (ts : tokens) (e : string) :
  update_prefix ts = None → parseUnary (parse_value k) ts = Err e → parse_value (S k) false ts = Err e.
Proof.
  intros Hu He. cbn [parse_value]. unfold parseValueExpression, or_update. rewrite Hu.
  by do 4 (apply binary_level_err).
Qed.

Lemma parse_assign_err (rec : bool → parser expr) (p : path) (ts ts1 : tokens) (t : token) (o : assign_op) (e : string) :
  peekIs KDot ts = true → parsePath ts = Ok (p, t :: ts1) → assign_of (t_kind t) = Some o →
  rec false ts1 = Err e → parse rec ts = Err e.
Proof.
  intros Hd Hp Ho He. destruct ts as [|t0 ts]; [done|].
  unfold peekIs in Hd. apply bool_decide_eq_true in Hd. cbn [peek] in Hd.
  assert (∀ k, k ≠ KDot → peekIs k (t0 :: ts) = false) as Hk.
  { intros k Hne. unfold peekIs. apply bool_decide_eq_false. cbn [peek]. congruence. }
  assert (startsAssignmentStatement (t0 :: ts) = true) as Hs.
  { unfold startsAssignmentStatement, peekIs. cbn [peek]. rewrite bool_decide_eq_true_2 by done. rewrite Hp. cbn [peek].
    unfold isOverrideAssignmentToken. by destruct (t_kind t). }
  unfold parse. rewrite Hk by done. cbn [length parse_loop]. unfold parseStatement.
  assert (peekIdentifier "del" (t0 :: ts) = false) as ->.
  { unfold peekIdentifier. rewrite Hk by done. done. }
  rewrite Hs. cbn [negb]. unfold parse_assign. rewrite Hk, Hp by done. cbn [mbind result_bind next].
  destruct (decide (t_kind t = KEOF)) as [Hf|Hf]; [by rewrite Hf in Ho|]. by rewrite Ho, He.
Qed.
End errors.

(** Four texts that are not read as written. White space does not end a
    path, so [. or .b] is the path [.or.b]; a parenthesis inside a string inside
    an interpolation ends the interpolation, so the text is rejected (the
    branch that skips strings never sees an unescaped quote); bytes are looked up
    as code points, so the name [a-grave] in UTF-8 is read as its first byte and
    white space; and a hexadecimal number with a digit E is taken for a float and
    rejected. *)
Theorem parser_misreadings `{OverrideLaws} :
  NewOverrideExpr (quoted ".x = (. or .b)")
    = Ok [AssignStatement [SField (lit "x")] None AssignSet (EPath [SField (lit "or"); SField (lit "b")])] ∧
  NewOverrideExpr (quoted ".x = '\(.name + \')\')'") = Err "unterminated string" ∧
  NewOverrideExpr (lit "." ++ [byte_of 195; byte_of 160] ++ lit "= 1")
    = Ok [AssignStatement [SField [byte_of 195]] None AssignSet (ELiteral (VInt 1))] ∧
  NewOverrideExpr (quoted ".x = 0x1E") = Err "invalid number".
Proof.
  split; [by vm_compute|]. split; [by vm_compute|]. split; [by vm_compute|].
  assert (ParseFloat (lit "0x1E") = None) as Hf.
  { apply ParseFloat_hex; [left; by exists (lit "1E")|..]; intros Hin; by repeat (apply elem_of_cons in Hin as [?|Hin]; [done|]); apply not_elem_of_nil in Hin. }
  unfold NewOverrideExpr. replace (lexOverrideExpr (quoted ".x = 0x1E"))
    with (Ok [Token KDot (lit "."); Token KIdentifier (lit "x"); Token KAssign (lit "="); Token KNumber (lit "0x1E"); eof]) by by vm_compute.
  apply (parse_assign_err _ [SField (lit "x")] _ [Token KNumber (lit "0x1E"); eof] (Token KAssign (lit "=")) AssignSet); [done|by vm_compute|done|].
  apply (parse_value_err (pred (parse_fuel (length (quoted ".x = 0x1E"))))); [done|].
  change (parseNumber (lit "0x1E") ≫= (λ e, Ok (e, [eof])) = Err "invalid number").
  unfold parseNumber. change (existsb _ _) with true. cbv iota. by rewrite Hf.
Qed.

Lemma parser_misreadings_witness :
  @NewOverrideExpr literal_env (quoted ".x = 0x1E") = Err "invalid number".
Proof. apply (@parser_misreadings literal_env literal_laws). Defined.
