(* ===== verification/OverridePrint.v ===== *)
(** * OverridePrint: printing statements and parsing them back

    A printer from the statements of [OverrideApply] to text, and the round
    trip: the parser reads every printed statement back. The printer is not part
    of the program; it covers the syntax of statements, paths and expressions,
    with every compound expression in parentheses, except float literals (their
    syntax is that of [ParseFloat]) and string interpolations. *)
From Stdlib Require Import SpecFloat.
From S2P Require Import Prelude GoStrings NetIP OverrideValue OverrideEval OverrideFacts OverrideApply OverrideParse OverrideParseFacts.

(** ** Tokens of an expression *)

Definition tok (k : kind) (s : string) : token := Token k (lit s).
Definition t_open := tok KLeftParen "(".
Definition t_close := tok KRightParen ")".
Definition t_dot := tok KDot ".".
Definition t_pipe := tok KPipe "|".
Definition t_comma := tok KComma ",".
Definition t_minus := tok KMinus "-".
Definition ident (s : string) : token := tok KIdentifier s.
Definition number (n : Z) : token := Token KNumber (format_uint n).

(** Quotes and backslashes are escaped. *)
Definition encode_char (c : ascii) : str :=
  if decide (c = quote) then [backslash; quote]
  else if decide (c = backslash) then [backslash; backslash] else [c].
Definition encode (s : str) : str := s ≫= encode_char.
Definition string_token (s : str) : token := Token KString (encode s).

Definition paren (ts : tokens) : tokens := t_open :: ts ++ [t_close].
Fixpoint sep_by (sep : token) (l : list tokens) : tokens :=
  match l with
  | [] => []
  | [x] => x
  | x :: l' => x ++ sep :: sep_by sep l'
  end.

Definition print_segment (s : segment) : tokens :=
  tok KLeftBracket "[" :: match s with
    | SField k => [string_token k]
    | SIndex i => if (i <? 0)%Z then [t_minus; number (- i)] else [number i]
    | SWild => []
    end ++ [tok KRightBracket "]"].
Definition print_path (p : path) : tokens := t_dot :: (p ≫= print_segment).

Definition assign_token (o : assign_op) : token :=
  match o with
  | AssignSet => tok KAssign "=" | AssignUpdate => tok KUpdateAssign "|=" | AssignAdd => tok KAddAssign "+="
  | AssignSub => tok KSubtractAssign "-=" | AssignMul => tok KMultiplyAssign "*="
  end.
Definition op_token (op : binop) : token :=
  match op with
  | OpAnd => ident "and" | OpOr => ident "or" | OpAlt => tok KAlternative "//" | OpEq => tok KEqual "=="
  | OpNe => tok KNotEqual "!=" | OpLt => tok KLess "<" | OpLe => tok KLessEqual "<=" | OpGt => tok KGreater ">"
  | OpGe => tok KGreaterEqual ">=" | OpAdd => tok KPlus "+" | OpSub => t_minus | OpMul => tok KMultiply "*"
  | OpDiv => tok KDivide "/" | OpMod => tok KModulo "%"
  end.
Definition fn_name (f : fn) : string :=
  match f with
  | Flength => "length" | Ftype => "type" | Fkeys => "keys" | Fhas => "has" | Fcontains => "contains"
  | Fselect => "select" | Fsub => "sub" | Ftest => "test" | Fsplit => "split" | Fjoin => "join"
  | Fupcase => "upcase" | Fdowncase => "downcase" | Ftrim => "trim" | Ftostring => "tostring"
  | Ftonumber => "tonumber" | Fnot => "not" | Freverse => "reverse" | Fsort => "sort" | Funique => "unique"
  | Fflatten => "flatten" | Fany => "any" | Fall => "all"
  end.
Definition sfn_name (f : sfn) : string :=
  match f with
  | Smap => "map" | Sfilter => "filter" | Smap_values => "map_values" | Sto_entries => "to_entries"
  | Sfrom_entries => "from_entries" | Swith_entries => "with_entries" | Sany_c => "any_c" | Sall_c => "all_c"
  end.

Fixpoint print_expr (e : expr) : tokens :=
  match e with
  | ELiteral v =>
    match v with
    | VNull => [ident "null"]
    | VBool b => [ident (if b then "true" else "false")]
    | VStr s => [string_token s]
    | VInt n => if (n <? 0)%Z then paren [t_minus; number (- n)] else [number n]
    | _ => []
    end
  | EString _ => []
  | EPath p => paren (print_path p)
  | EArray es => tok KLeftBracket "[" :: sep_by t_comma (print_expr <$> es) ++ [tok KRightBracket "]"]
  | EMap es =>
    tok KLeftBrace "{" :: sep_by t_comma ((λ kv, string_token kv.1 :: tok KColon ":" :: print_expr kv.2) <$> es)
      ++ [tok KRightBrace "}"]
  | EUnion es => paren (sep_by t_comma (print_expr <$> es))
  | EPipeline es => paren (sep_by t_pipe (print_expr <$> es))
  | EUpdate p o v => paren (print_path p ++ assign_token o :: print_expr v)
  | EBinary op l r => paren (print_expr l ++ op_token op :: print_expr r)
  | EFunction f args => ident (fn_name f) :: paren (sep_by t_comma (print_expr <$> args))
  | EStreamFunction f args => ident (sfn_name f) :: paren (sep_by t_comma (print_expr <$> args))
  end.

(** What the printer covers; the numbers are those of [int]. *)
Definition in_int_range (i : Z) : bool := in_z (- 2 ^ 63) (2 ^ 63 - 1) i.
Definition printable_segment (s : segment) : bool :=
  match s with SIndex i => in_int_range i | _ => true end.
Fixpoint printable (e : expr) : bool :=
  match e with
  | ELiteral v => match v with VNull | VBool _ | VStr _ => true | VInt n => in_int_range n | _ => false end
  | EString _ => false
  | EPath p => forallb printable_segment p
  | EArray es | EFunction _ es | EStreamFunction _ es => forallb printable es
  | EMap es => forallb (λ kv, printable kv.2) es
  | EUnion es | EPipeline es => (2 <=? length es)%nat && forallb printable es
  | EUpdate p _ v => forallb printable_segment p && printable v
  | EBinary _ l r => printable l && printable r
  end.

(** The nesting the parser goes through. *)
Fixpoint depth (e : expr) : nat :=
  match e with
  | ELiteral _ | EPath _ | EString _ => 1
  | EArray es | EUnion es | EPipeline es | EFunction _ es | EStreamFunction _ es => S (max_list (depth <$> es))
  | EMap es => S (max_list ((λ kv, depth kv.2) <$> es))
  | EUpdate _ _ v => S (S (depth v))
  | EBinary _ l r => S (max (depth l) (depth r))
  end.

(** ** Strings and numbers *)

Lemma encode_cons c s : encode (c :: s) = encode_char c ++ encode s.
Proof. done. Qed.

Lemma decode_encode s : decodeOverrideString (encode s) = Ok s.
Proof.
  induction s as [|c s IH]; [done|]. rewrite encode_cons. unfold encode_char.
  destruct (decide (c = quote)) as [->|Hq]; [|destruct (decide (c = backslash)) as [->|Hb]].
  - change (decodeOverrideString ([backslash; quote] ++ encode s)) with
      (rest ← decodeOverrideString (encode s); Ok (quote :: rest)). by rewrite IH.
  - change (decodeOverrideString ([backslash; backslash] ++ encode s)) with
      (rest ← decodeOverrideString (encode s); Ok (backslash :: rest)). by rewrite IH.
  - cbn [app decodeOverrideString]. rewrite decide_False by done. by rewrite IH.
Qed.

Lemma scan_encode s rest : scanOverrideString (encode s ++ quote :: rest) = Some (encode s, rest).
Proof.
  induction s as [|c s IH]; [done|]. rewrite encode_cons, <- app_assoc. unfold encode_char.
  destruct (decide (c = quote)) as [->|Hq]; [|destruct (decide (c = backslash)) as [->|Hb]].
  - cbn [app scanOverrideString]. rewrite decide_True by done. rewrite IH. done.
  - cbn [app scanOverrideString]. rewrite decide_True by done. rewrite IH. done.
  - cbn [app scanOverrideString]. rewrite !decide_False by done. by rewrite IH.
Qed.

Section roundtrip.
Context `{OverrideEnv}.

(** An encoded string has no interpolation. *)
Lemma string_parts_encode rec f raw s parts : length (encode s) < f →
  string_parts rec f raw (encode s) parts = (literal ← decodeOverrideString (raw ++ encode s); Ok (parts, literal)).
Proof.
  revert f raw. induction s as [|c s IH]; intros f raw Hf.
  { destruct f; [simpl in Hf; lia|]. simpl. by rewrite app_nil_r. }
  rewrite encode_cons in *. unfold encode_char in *.
  destruct (decide (c = quote)) as [->|Hq]; [|destruct (decide (c = backslash)) as [->|Hb]];
    destruct f as [|f]; simpl in Hf; try lia; cbn [app string_parts].
  - rewrite bool_decide_eq_true_2 by done. rewrite bool_decide_eq_false_2 by done. simpl negb. cbn iota.
    rewrite IH by lia. by rewrite <- app_assoc.
  - rewrite bool_decide_eq_true_2 by done. rewrite bool_decide_eq_false_2 by done. simpl negb. cbn iota.
    rewrite IH by lia. by rewrite <- app_assoc.
  - destruct (encode s) as [|d t] eqn:E.
    + destruct f; simpl in *; [lia|]. done.
    + rewrite bool_decide_eq_false_2 by done. simpl negb. cbn iota. rewrite IH by lia. by rewrite <- app_assoc.
Qed.

Lemma parseString_encode rec s : parseString rec (encode s) = Ok (ELiteral (VStr s)).
Proof. unfold parseString. rewrite string_parts_encode by lia. simpl. by rewrite decode_encode. Qed.

Lemma digits_in_val acc s : Forall (λ c, is_digit c = true) s → digits_in 10 acc s = digits_val acc s.
Proof.
  intros Hs. revert acc. induction Hs as [|c s Hc _ IH]; intros acc; [done|]. cbn [digits_in digits_val].
  rewrite Hc. unfold digit_in, is_digit in *. rewrite Hc. unfold in_z in Hc. zify_bool.
  destruct (Z.ltb_spec (byteZ c - 48) 10); [|lia]. simpl. by rewrite IH.
Qed.

Lemma format_uint_head n : (0 ≤ n)%Z → ∃ c t, format_uint n = c :: t ∧ is_digit c = true ∧ Forall (λ c, is_digit c = true) t.
Proof.
  intros Hn. destruct (format_uint_spec n Hn) as (_ & Hne & Hd). destruct (format_uint n) as [|c t]; [done|].
  apply Forall_cons in Hd as [? ?]. eauto.
Qed.

Lemma digit_not c d : is_digit c = true → is_digit d = false → c ≠ d.
Proof. congruence. Qed.

Lemma ParseInt_format n : (0 ≤ n < 2 ^ 63)%Z → ParseInt 10 (format_uint n) = Some n.
Proof.
  intros Hn. destruct (format_uint_spec n) as (Hv & Hne & Hd); [lia|].
  destruct (format_uint_head n) as (c & t & Ec & Hc & _); [lia|]. unfold ParseInt. rewrite Ec in *. cbn [head].
  rewrite !bool_decide_eq_false_2 by (intros [= ->]; done). cbn [orb]. rewrite decide_False by done.
  rewrite digits_in_val, Hv by done. simpl. destruct (Z.ltb_spec n (2 ^ 63)); [done|lia].
Qed.

Lemma ParseInt_format_neg n : (0 ≤ n ≤ 2 ^ 63)%Z → ParseInt 10 ("-"%char :: format_uint n) = Some (- n)%Z.
Proof.
  intros Hn. destruct (format_uint_spec n) as (Hv & Hne & Hd); [lia|]. unfold ParseInt. cbn [head tail].
  rewrite bool_decide_eq_true_2 by done. cbn [orb]. rewrite decide_False by done.
  rewrite digits_in_val, Hv by done. simpl. destruct (Z.leb_spec n (2 ^ 63)); [done|lia].
Qed.

Lemma parseNumber_digits sign n v : (0 ≤ n)%Z → sign = [] ∨ sign = lit "-" →
  ParseInt 10 (sign ++ format_uint n) = Some v → parseNumber (sign ++ format_uint n) = Ok (ELiteral (VInt v)).
Proof.
  intros Hn Hsign Hp. destruct (format_uint_spec n Hn) as (_ & _ & Hd).
  destruct (format_uint_head n Hn) as (c & t & Ec & Hc & Ht).
  assert (Forall (λ c, is_digit c = true ∨ c = "-"%char) (sign ++ format_uint n)) as Hall.
  { apply Forall_app. split; [destruct Hsign as [->| ->]; repeat constructor; by right|].
    eapply Forall_impl; [exact Hd|]. by left. }
  unfold parseNumber.
  assert (existsb (λ c, bool_decide (c ∈ lit ".eE")) (sign ++ format_uint n) = false) as ->.
  { apply not_true_iff_false. intros (x & Hx%list_elem_of_In & He%bool_decide_eq_true)%existsb_exists.
    rewrite Forall_forall in Hall. destruct (Hall _ Hx) as [Hdig| ->].
    - repeat (apply elem_of_cons in He as [->|He]; [done|]). by apply not_elem_of_nil in He.
    - repeat (apply elem_of_cons in He as [?|He]; [done|]). by apply not_elem_of_nil in He. }
  assert (∀ p, p = lit "0x" ∨ p = lit "0X" → has_prefix p (sign ++ format_uint n) = false) as Hpre.
  { intros p Hx. apply bool_decide_eq_false. intros [k Hk]. rewrite Hk in Hall.
    destruct Hx as [->| ->]; apply Forall_app in Hall as [Hall _]; apply Forall_cons in Hall as [_ Hall];
      apply Forall_cons in Hall as [[?|?] _]; done. }
  rewrite !Hpre by auto. cbn [orb]. by rewrite Hp.
Qed.

(** ** Paths *)

Lemma bracket_print s rest : printable_segment s = true →
  bracket_segment (tail (print_segment s) ++ rest) = Ok (s, rest).
Proof.
  intros Hs. destruct s as [k|i|]; cbn [print_segment tail app].
  - change (bracket_segment (string_token k :: tok KRightBracket "]" :: rest)) with
      ('(seg, ts2) ← (key ← decodeOverrideString (encode k); Ok (SField key, tok KRightBracket "]" :: rest));
       '(_, ts3) ← expect KRightBracket ts2; Ok (seg, ts3)). by rewrite decode_encode.
  - unfold printable_segment, in_int_range, in_z in Hs. zify_bool. destruct (Z.ltb_spec i 0) as [Hi|Hi]; cbn [app].
    + change (bracket_segment (t_minus :: number (- i) :: tok KRightBracket "]" :: rest)) with
        ('(seg, ts2) ← match ParseInt 10 ("-"%char :: format_uint (- i)) with
                       | Some i => Ok (SIndex i, tok KRightBracket "]" :: rest) | None => Err "invalid array index" end;
         '(_, ts3) ← expect KRightBracket ts2; Ok (seg, ts3)).
      rewrite ParseInt_format_neg by lia. rewrite Z.opp_involutive. done.
    + change (bracket_segment (number i :: tok KRightBracket "]" :: rest)) with
        ('(seg, ts2) ← match ParseInt 10 (format_uint i) with
                       | Some i => Ok (SIndex i, tok KRightBracket "]" :: rest) | None => Err "invalid array index" end;
         '(_, ts3) ← expect KRightBracket ts2; Ok (seg, ts3)).
      rewrite ParseInt_format by lia. done.
  - done.
Qed.

(** The token after a path does not continue it. *)
Definition ends_path (t : token) : bool :=
  match t_kind t with KDot | KLeftBracket | KIdentifier | KString => false | _ => true end.

Lemma path_loop_print f segs p rest : forallb printable_segment p = true → ends_path (peek rest) = true →
  length p < f → path_loop f segs ((p ≫= print_segment) ++ rest) = Ok (segs ++ p, rest).
Proof.
  intros Hp He. revert f segs Hp. induction p as [|s p IH]; intros f segs Hp Hf; (destruct f as [|f]; [lia|]).
  - cbn [mbind list_bind app path_loop]. rewrite app_nil_r. unfold ends_path in He. by destruct (t_kind (peek rest)).
  - apply andb_true_iff in Hp as [Hs Hp]. simpl in Hf. cbn [mbind list_bind]. rewrite <- app_assoc.
    change (print_segment s ++ (p ≫= print_segment) ++ rest) with
      (tok KLeftBracket "[" :: tail (print_segment s) ++ (p ≫= print_segment) ++ rest).
    cbn [path_loop peek t_kind tok]. cbn [next snd]. rewrite decide_False by done. cbn [snd].
    rewrite bracket_print by done. cbn [mbind result_bind]. rewrite IH by (done || lia). by rewrite <- app_assoc.
Qed.

Lemma length_print_path p : length p ≤ length (p ≫= print_segment).
Proof.
  induction p as [|s p IH]; [done|]. rewrite bind_cons, length_app.
  assert (1 ≤ length (print_segment s)) by (unfold print_segment; simpl; lia). simpl length. lia.
Qed.

Lemma parsePath_dot ts : parsePath (t_dot :: ts) =
  match t_kind (peek ts) with
  | KIdentifier | KString => let '(t, ts2) := next ts in key ← pathField t; path_loop (S (length ts2)) [SField key] ts2
  | _ => path_loop (S (length ts)) [] ts
  end.
Proof. reflexivity. Qed.

Lemma parsePath_print p rest : forallb printable_segment p = true → ends_path (peek rest) = true →
  parsePath (print_path p ++ rest) = Ok (p, rest).
Proof.
  intros Hp He. unfold print_path. rewrite <- app_comm_cons, parsePath_dot.
  pose proof (path_loop_print (S (length ((p ≫= print_segment) ++ rest))) [] p rest Hp He) as Hl.
  rewrite Hl by (rewrite length_app; pose proof (length_print_path p); lia).
  destruct p as [|s p]; [|done]. cbn [mbind list_bind app]. unfold ends_path in He. by destruct (t_kind (peek rest)).
Qed.

(** ** Levels *)

Lemma binary_skip operand op_of ts e rest : operand ts = Ok (e, rest) → op_of (peek rest) = None →
  binary_level operand op_of ts = Ok (e, rest).
Proof. intros Ho Hn. unfold binary_level. rewrite Ho. cbn. by rewrite Hn. Qed.

Lemma binary_one operand op_of ts l t ts' op r rest : operand ts = Ok (l, t :: ts') → op_of t = Some op → t_kind t ≠ KEOF →
  operand ts' = Ok (r, rest) → op_of (peek rest) = None →
  binary_level operand op_of ts = Ok (EBinary op l r, rest).
Proof.
  intros Ho Hop Hk Hr Hn. unfold binary_level. rewrite Ho. cbn [mbind result_bind binary_loop peek length].
  rewrite Hop. cbn [next]. rewrite decide_False by done. cbn [snd]. rewrite Hr. cbn [mbind result_bind binary_loop]. by rewrite Hn.
Qed.

(** The tokens that end an operand at every level, and an expression. *)
Definition closing (t : token) : bool :=
  match t_kind t with
  | KEOF | KRightParen | KRightBracket | KRightBrace | KComma | KSemicolon | KPipe => true | _ => false
  end.

(** A printed expression is a primary expression whatever follows it. *)
Definition reads_primary (f : nat) (e : expr) : Prop := ∀ rest,
  parsePrimary (parse_value f) (print_expr e ++ rest) = Ok (e, rest).

Definition starts_primary (ts : tokens) : bool :=
  match t_kind (peek ts) with
  | KIdentifier | KString | KNumber | KLeftParen | KLeftBracket | KLeftBrace => true | _ => false
  end.

Lemma print_starts e rest : printable e = true → starts_primary (print_expr e ++ rest) = true ∧ print_expr e ≠ [].
Proof. intros He. destruct e as [| |v| | | | | | | |]; try done. destruct v; try done. simpl. by destruct (_ <? 0)%Z. Qed.

Section levels.
Variables (f : nat) (e : expr).
Hypothesis He : printable e = true.
Hypothesis Hp : reads_primary f e.
#[local] Set Default Proof Using "All".

Lemma unary_reads rest : parseUnary (parse_value f) (print_expr e ++ rest) = Ok (e, rest).
Proof.
  unfold parseUnary. destruct (peekIs KMinus _) eqn:E; [|apply Hp]. apply peekIs_spec in E.
  destruct (print_starts e rest He) as [Hs _]. unfold starts_primary in Hs. by rewrite E in Hs.
Qed.
Lemma mul_reads rest : mul_of (peek rest) = None → parseMultiplicative (parse_value f) (print_expr e ++ rest) = Ok (e, rest).
Proof. intros. apply binary_skip; [apply unary_reads|done]. Qed.
Lemma add_reads rest : mul_of (peek rest) = None → add_of (peek rest) = None →
  parseAdditive (parse_value f) (print_expr e ++ rest) = Ok (e, rest).
Proof. intros. apply binary_skip; [by apply mul_reads|done]. Qed.
Lemma compare_reads rest : mul_of (peek rest) = None → add_of (peek rest) = None → compare_of (peek rest) = None →
  parseComparison (parse_value f) (print_expr e ++ rest) = Ok (e, rest).
Proof. intros. apply binary_skip; [by apply add_reads|done]. Qed.
Lemma alt_reads rest : mul_of (peek rest) = None → add_of (peek rest) = None → compare_of (peek rest) = None →
  alt_of (peek rest) = None → parseAlternative (parse_value f) (print_expr e ++ rest) = Ok (e, rest).
Proof. intros. apply binary_skip; [by apply compare_reads|done]. Qed.
Lemma and_reads rest : mul_of (peek rest) = None → add_of (peek rest) = None → compare_of (peek rest) = None →
  alt_of (peek rest) = None → and_of (peek rest) = None → parseAnd (parse_value f) (print_expr e ++ rest) = Ok (e, rest).
Proof. intros. apply binary_skip; [by apply alt_reads|done]. Qed.
End levels.

Lemma closing_ops t : closing t = true →
  mul_of t = None ∧ add_of t = None ∧ compare_of t = None ∧ alt_of t = None ∧ and_of t = None ∧ or_of t = None.
Proof.
  unfold closing, mul_of, add_of, compare_of, alt_of, and_of, or_of, peekIdentifier, peekIs. cbn [peek].
  destruct (t_kind t); done.
Qed.

Lemma or_reads f e rest : printable e = true → reads_primary f e → closing (peek rest) = true →
  parseOr (parse_value f) (print_expr e ++ rest) = Ok (e, rest).
Proof.
  intros He Hp (?&?&?&?&?&?)%closing_ops. apply binary_skip; [|done]. by apply and_reads.
Qed.

(** One operator between two printed operands. *)
Lemma or_binary f op l r rest : printable l = true → printable r = true → reads_primary f l → reads_primary f r →
  closing (peek rest) = true →
  parseOr (parse_value f) (print_expr l ++ op_token op :: print_expr r ++ rest) = Ok (EBinary op l r, rest).
Proof.
  intros Hl Hr Pl Pr (?&?&?&?&?&?)%closing_ops.
  destruct op;
    repeat (first
      [ eapply binary_one; [..|done];
          [ first [by apply and_reads|by apply alt_reads|by apply compare_reads|by apply add_reads|by apply mul_reads|by apply unary_reads]
          | reflexivity | done
          | first [by apply and_reads|by apply alt_reads|by apply compare_reads|by apply add_reads|by apply mul_reads|by apply unary_reads] ]
      | eapply binary_skip; [|done] ]).
Qed.

(** ** Lists of items *)

Lemma items_loop_print {A} f sep (item : parser A) (pr : A → tokens) t acc xs rest :
  sep (t_kind t) = true → t_kind t ≠ KEOF → sep (t_kind (peek rest)) = false → length xs < f →
  (∀ x r, x ∈ xs → (peek r = t ∨ peek r = peek rest) → item (pr x ++ r) = Ok (x, r)) →
  items_loop f sep item acc (concat ((λ x, t :: pr x) <$> xs) ++ rest) = Ok (acc ++ xs, rest).
Proof.
  intros Ht Hk Hend. revert f acc. induction xs as [|x xs IH]; intros f acc Hf Hitem; (destruct f as [|f]; [lia|]).
  - cbn [fmap list_fmap concat app items_loop]. rewrite Hend. by rewrite app_nil_r.
  - cbn [fmap list_fmap concat app items_loop peek]. rewrite Ht. cbn [next]. rewrite decide_False by done. cbn [snd].
    rewrite <- app_assoc, Hitem.
    + cbn [mbind result_bind]. rewrite IH; [by rewrite <- app_assoc|simpl in Hf; lia|].
      intros y r Hy. apply Hitem. by right.
    + left.
    + destruct xs as [|y xs]; cbn; auto.
Qed.

Lemma sep_by_concat t (x : tokens) xs : sep_by t (x :: xs) = x ++ concat (cons t <$> xs).
Proof.
  revert x. induction xs as [|y xs IH]; intros x; cbn [sep_by fmap list_fmap concat]; [by rewrite app_nil_r|].
  cbn [app]. by rewrite <- (IH y).
Qed.

Lemma items_print {A} sep (item : parser A) (pr : A → tokens) t xs rest :
  xs ≠ [] → sep (t_kind t) = true → t_kind t ≠ KEOF → sep (t_kind (peek rest)) = false →
  (∀ x r, x ∈ xs → (peek r = t ∨ peek r = peek rest) → item (pr x ++ r) = Ok (x, r)) →
  items sep item (sep_by t (pr <$> xs) ++ rest) = Ok (xs, rest).
Proof.
  intros Hne Ht Hk Hend Hitem. destruct xs as [|x xs]; [done|]. cbn [fmap list_fmap]. rewrite sep_by_concat, <- app_assoc.
  unfold items. rewrite Hitem; [|left|destruct xs as [|y xs]; cbn; auto]. cbn [mbind result_bind].
  assert (cons t <$> (pr <$> xs) = (λ x, t :: pr x) <$> xs) as -> by (by rewrite <- list_fmap_compose).
  assert (length xs ≤ length (concat ((λ x, t :: pr x) <$> xs))) as Hlen.
  { clear. induction xs as [|y xs IH]; [done|]. cbn [fmap list_fmap concat length app]. rewrite length_app. lia. }
  rewrite (items_loop_print _ sep item pr t [x] xs rest); [done..| |].
  - rewrite length_app. lia.
  - intros y r Hy. apply Hitem. by right.
Qed.

Lemma bracketed_print {A} close sep (item : parser A) (pr : A → tokens) t c xs rest :
  t_kind c = close → close ≠ KEOF → sep (t_kind t) = true → t_kind t ≠ KEOF → sep close = false →
  (∀ x r, x ∈ xs → t_kind (peek (pr x ++ r)) ≠ close) →
  (∀ x r, x ∈ xs → (peek r = t ∨ peek r = c) → item (pr x ++ r) = Ok (x, r)) →
  bracketed close (items sep item) (sep_by t (pr <$> xs) ++ c :: rest) = Ok (xs, rest).
Proof.
  intros Hc Hce Ht Hk Hsep Hstart Hitem. unfold bracketed. destruct xs as [|x xs].
  - cbn [fmap list_fmap sep_by app]. unfold matchTok, peekIs. cbn [peek]. rewrite bool_decide_eq_true_2 by done.
    cbn [next]. rewrite decide_False by congruence. done.
  - assert (matchTok close (sep_by t (pr <$> (x :: xs)) ++ c :: rest) = None) as ->.
    { unfold matchTok, peekIs. rewrite bool_decide_eq_false_2; [done|]. cbn [fmap list_fmap].
      rewrite sep_by_concat, <- app_assoc. apply Hstart. left. }
    rewrite items_print; [|done|done|done|by cbn; rewrite Hc|done].
    cbn [mbind result_bind]. unfold expect. cbn [next]. rewrite decide_False by congruence.
    by rewrite decide_True.
Qed.

(** ** Values *)

Definition not_pipe (t : token) : bool := negb (is_pipe (t_kind t)).

Lemma update_prefix_print e rest : printable e = true → update_prefix (print_expr e ++ rest) = None.
Proof.
  intros He. unfold update_prefix. destruct (peekIs KDot _) eqn:E; [|done]. apply peekIs_spec in E.
  destruct (print_starts e rest He) as [Hs _]. unfold starts_primary in Hs. by rewrite E in Hs.
Qed.

Lemma or_update_reads f e rest : printable e = true → reads_primary f e → closing (peek rest) = true →
  or_update (parse_value f) (parseOr (parse_value f)) (print_expr e ++ rest) = Ok (e, rest).
Proof. intros He Hp Hc. unfold or_update. rewrite update_prefix_print by done. by apply or_reads. Qed.

Lemma value_reads f e low rest : printable e = true → reads_primary f e → closing (peek rest) = true →
  (low = true → not_pipe (peek rest) = true) → parse_value (S f) low (print_expr e ++ rest) = Ok (e, rest).
Proof.
  intros He Hp Hc Hl. cbn [parse_value]. unfold parseValueExpression. destruct low.
  - unfold items. rewrite or_update_reads by done. cbn [mbind result_bind items_loop].
    specialize (Hl eq_refl). unfold not_pipe in Hl. apply negb_true_iff in Hl. by rewrite Hl.
  - unfold or_update. rewrite update_prefix_print by done.
    destruct (closing_ops _ Hc) as (?&?&?&?&?&?). by apply alt_reads.
Qed.

Lemma union_reads f e c rest : printable e = true → reads_primary f e → c = t_close ∨ c = eof →
  parseUnionExpression (parse_value (S f)) (print_expr e ++ c :: rest) = Ok (e, c :: rest).
Proof.
  intros He Hp Hc. unfold parseUnionExpression, items.
  rewrite value_reads by (done || by destruct Hc as [->| ->]). by destruct Hc as [->| ->].
Qed.

(** A parenthesised text is what is inside. *)
Lemma paren_reads f ts e rest :
  parseUnionExpression (parse_value f) (ts ++ t_close :: rest) = Ok (e, t_close :: rest) →
  parsePrimary (parse_value f) (paren ts ++ rest) = Ok (e, rest).
Proof.
  intros Hu. unfold paren. rewrite <- app_comm_cons, <- app_assoc. cbn [app].
  change (parsePrimary (parse_value f) (t_open :: ts ++ t_close :: rest)) with
    ('(e, ts2) ← parseUnionExpression (parse_value f) (ts ++ t_close :: rest);
     '(_, ts3) ← expect KRightParen ts2; Ok (e, ts3)).
  rewrite Hu. done.
Qed.

(** The same when what is inside is one value expression. *)
Lemma paren_value f ts e rest :
  parse_value f true (ts ++ t_close :: rest) = Ok (e, t_close :: rest) →
  parsePrimary (parse_value f) (paren ts ++ rest) = Ok (e, rest).
Proof. intros Hv. apply paren_reads. unfold parseUnionExpression, items. by rewrite Hv. Qed.

Lemma or_of_unary f ts e rest : parseUnary (parse_value f) ts = Ok (e, rest) → closing (peek rest) = true →
  parseOr (parse_value f) ts = Ok (e, rest).
Proof.
  intros Hu (?&?&?&?&?&?)%closing_ops. do 6 (apply binary_skip; [|done]). done.
Qed.

Lemma value_one f ts e rest : or_update (parse_value f) (parseOr (parse_value f)) ts = Ok (e, rest) →
  not_pipe (peek rest) = true → parse_value (S f) true ts = Ok (e, rest).
Proof.
  intros Hu Hn. cbn [parse_value]. unfold parseValueExpression, items. rewrite Hu. cbn [mbind result_bind items_loop].
  unfold not_pipe in Hn. apply negb_true_iff in Hn. by rewrite Hn.
Qed.

Lemma update_prefix_path p t ts : forallb printable_segment p = true → ends_path t = true →
  update_prefix (print_path p ++ t :: ts) = (o ← assign_of (t_kind t); Some (p, o, (next (t :: ts)).2)).
Proof. intros Hp He. unfold update_prefix. rewrite parsePath_print by done. done. Qed.

(** ** Reading printed expressions *)

Lemma call_fn f args : call_function (lit (fn_name f)) args = Ok (EFunction f args).
Proof. by destruct f. Qed.
Lemma call_sfn f args : call_function (lit (sfn_name f)) args = Ok (EStreamFunction f args).
Proof. by destruct f. Qed.

Lemma args_reads f args rest : Forall (λ a, printable a = true ∧ reads_primary f a) args →
  bracketed KRightParen (items is_arg_separator (parse_value (S f) true)) (sep_by t_comma (print_expr <$> args) ++ t_close :: rest)
  = Ok (args, rest).
Proof.
  intros Ha. rewrite Forall_forall in Ha. apply bracketed_print; try done.
  - intros x r Hx Hk. destruct (print_starts x r (proj1 (Ha x Hx))) as [Hs _]. unfold starts_primary in Hs. by rewrite Hk in Hs.
  - intros x r Hx Hr. destruct (Ha x Hx). apply value_reads; [done..| |]; by destruct Hr as [-> | ->].
Qed.

(** The children of a printable expression are read one level down. *)
Lemma children_read f (es : list expr) :
  Forall (λ e, ∀ f, printable e = true → depth e ≤ f → reads_primary f e) es →
  forallb printable es = true → max_list (depth <$> es) ≤ f →
  Forall (λ a, printable a = true ∧ reads_primary f a) es.
Proof.
  intros IH Hp Hd. rewrite forallb_forall in Hp. rewrite Forall_forall in *. intros e He.
  assert (printable e = true) as Hpe by (by apply Hp, list_elem_of_In). split; [done|]. apply IH; [done..|].
  assert (depth e ≤ max_list (depth <$> es)); [|lia]. by apply max_list_elem_of_le, list_elem_of_fmap_2.
Qed.

Lemma pipeline_reads f es rest : (2 ≤ length es)%nat → Forall (λ a, printable a = true ∧ reads_primary f a) es →
  parse_value (S f) true (sep_by t_pipe (print_expr <$> es) ++ t_close :: rest) = Ok (EPipeline es, t_close :: rest).
Proof.
  intros Hlen Hes. rewrite Forall_forall in Hes. cbn [parse_value]. unfold parseValueExpression.
  rewrite items_print; [|intros ->; simpl in Hlen; lia|done..|].
  - destruct es as [|x [|y es]]; simpl in Hlen; [lia|lia|done].
  - intros x r Hx Hr. destruct (Hes x Hx). apply or_update_reads; [done..|]. by destruct Hr as [-> | ->].
Qed.

Lemma union_list_reads f es rest : (2 ≤ length es)%nat → Forall (λ a, printable a = true ∧ reads_primary f a) es →
  parseUnionExpression (parse_value (S f)) (sep_by t_comma (print_expr <$> es) ++ t_close :: rest) = Ok (EUnion es, t_close :: rest).
Proof.
  intros Hlen Hes. rewrite Forall_forall in Hes. unfold parseUnionExpression.
  rewrite items_print; [|intros ->; simpl in Hlen; lia|done..|].
  - destruct es as [|x [|y es]]; simpl in Hlen; [lia|lia|done].
  - intros x r Hx Hr. destruct (Hes x Hx). apply value_reads; [done..| |]; by destruct Hr as [-> | ->].
Qed.

Lemma literal_reads f v : printable (ELiteral v) = true → 1 ≤ f → reads_primary f (ELiteral v).
Proof.
  intros Hv Hf rest. destruct v as [|b|s|n| | | |]; try done; cbn [print_expr app].
  - by destruct b.
  - change (parsePrimary (parse_value f) (string_token s :: rest)) with
      (e ← parseString (parse_value f) (encode s); Ok (e, rest)). by rewrite parseString_encode.
  - unfold printable, in_int_range, in_z in Hv. zify_bool. destruct (Z.ltb_spec n 0) as [Hn|Hn].
    + apply paren_value. destruct f as [|f]; [lia|]. apply value_one; [|done]. apply or_of_unary; [|done].
      change (parseUnary (parse_value f) ([t_minus; number (- n)] ++ t_close :: rest)) with
        (e ← parseNumber (lit "-" ++ format_uint (- n)); Ok (e, t_close :: rest)).
      rewrite (parseNumber_digits (lit "-") (- n) n); [done|lia|by right|].
      change (lit "-" ++ format_uint (- n)) with ("-"%char :: format_uint (- n)).
      rewrite ParseInt_format_neg by lia. by rewrite Z.opp_involutive.
    + change (parsePrimary (parse_value f) ([number n] ++ rest)) with (e ← parseNumber ([] ++ format_uint n); Ok (e, rest)).
      rewrite (parseNumber_digits [] n n); [done|lia|by left|]. apply ParseInt_format. lia.
Qed.

Lemma path_reads f p : forallb printable_segment p = true → 1 ≤ f → reads_primary f (EPath p).
Proof.
  intros Hp Hf rest. cbn [print_expr]. apply paren_value. destruct f as [|f]; [lia|]. apply value_one; [|done].
  unfold or_update. rewrite update_prefix_path by done. apply or_of_unary; [|done].
  change (parseUnary (parse_value f) (print_path p ++ t_close :: rest)) with
    ('(p, ts2) ← parsePath (print_path p ++ t_close :: rest); Ok (EPath p, ts2)).
  by rewrite parsePath_print.
Qed.

Lemma update_reads f p o e : forallb printable_segment p = true → printable e = true → reads_primary f e →
  reads_primary (S (S f)) (EUpdate p o e).
Proof.
  intros Hp He Hr rest. cbn [print_expr]. apply paren_value. apply value_one; [|done]. rewrite <- app_assoc, <- app_comm_cons.
  unfold or_update. rewrite update_prefix_path by (done || by destruct o).
  assert (assign_of (t_kind (assign_token o)) = Some o) as -> by by destruct o. cbn [mbind option_bind].
  assert ((next (assign_token o :: print_expr e ++ t_close :: rest)).2 = print_expr e ++ t_close :: rest) as -> by by destruct o.
  by rewrite value_reads.
Qed.

Lemma map_reads f es rest : Forall (λ kv, printable kv.2 = true ∧ reads_primary f kv.2) es →
  bracketed KRightBrace (items is_comma (map_entry (parse_value (S f))))
    (sep_by t_comma ((λ kv, string_token kv.1 :: tok KColon ":" :: print_expr kv.2) <$> es) ++ tok KRightBrace "}" :: rest)
  = Ok (es, rest).
Proof.
  intros Ha. rewrite Forall_forall in Ha. apply bracketed_print; try done.
  intros [k x] r Hx Hr. destruct (Ha _ Hx) as [Hp Hread]. cbn [fst snd app] in *.
  change (map_entry (parse_value (S f)) (string_token k :: tok KColon ":" :: print_expr x ++ r)) with
    (keyValue ← decodeOverrideString (encode k); '(v, ts3) ← parse_value (S f) true (print_expr x ++ r); Ok ((keyValue, v), ts3)).
  rewrite decode_encode. cbn [mbind result_bind]. rewrite value_reads; [done..| |]; by destruct Hr as [-> | ->].
Qed.

Lemma primary_reads e f : printable e = true → depth e ≤ f → reads_primary f e.
Proof.
  revert f. induction e as [es IH|es IH|v|es IH|p|es IH|es IH|p o e IH|op l r IHl IHr|g es IH|g es IH] using expr_ind';
    intros f Hp Hd; cbn [printable depth] in *.
  - apply andb_true_iff in Hp as [Hl Hp]. apply Nat.leb_le in Hl. destruct f as [|f]; [lia|]. intros rest. cbn [print_expr].
    apply paren_value. apply pipeline_reads; [done|]. apply children_read; [done..|lia].
  - apply andb_true_iff in Hp as [Hl Hp]. apply Nat.leb_le in Hl. destruct f as [|f]; [lia|]. intros rest. cbn [print_expr].
    apply paren_reads. apply union_list_reads; [done|]. apply children_read; [done..|lia].
  - by apply literal_reads.
  - done.
  - by apply path_reads.
  - destruct f as [|f]; [lia|]. intros rest. cbn [print_expr]. rewrite <- app_comm_cons, <- app_assoc. cbn [app].
    change (parsePrimary (parse_value (S f)) (tok KLeftBracket "[" :: sep_by t_comma (print_expr <$> es) ++ tok KRightBracket "]" :: rest)) with
      ('(es, ts2) ← bracketed KRightBracket (items is_comma (parse_value (S f) true))
          (sep_by t_comma (print_expr <$> es) ++ tok KRightBracket "]" :: rest); Ok (EArray es, ts2)).
    assert (Forall (λ a, printable a = true ∧ reads_primary f a) es) as Ha by (apply children_read; [done..|lia]).
    rewrite Forall_forall in Ha. rewrite bracketed_print; try done.
    + intros x r Hx Hk. destruct (print_starts x r (proj1 (Ha x Hx))) as [Hs _]. unfold starts_primary in Hs. by rewrite Hk in Hs.
    + intros x r Hx Hr. destruct (Ha x Hx). apply value_reads; [done..| |]; by destruct Hr as [-> | ->].
  - destruct f as [|f]; [lia|]. intros rest. cbn [print_expr]. rewrite <- app_comm_cons, <- app_assoc. cbn [app].
    change (parsePrimary (parse_value (S f)) (tok KLeftBrace "{" :: ?ts)) with
      ('(es, ts2) ← bracketed KRightBrace (items is_comma (map_entry (parse_value (S f)))) ts; Ok (EMap es, ts2)).
    rewrite map_reads; [done|]. rewrite forallb_forall in Hp. rewrite Forall_forall in *. intros [k x] Hx.
    assert (printable x = true) as Hpx by (by apply (Hp (k, x)), list_elem_of_In). split; [done|]. apply (IH _ Hx); [done|].
    cbn [snd]. assert (depth x ≤ max_list ((λ kv, depth kv.2) <$> es)); [|lia].
    apply max_list_elem_of_le. by apply (list_elem_of_fmap_2 (λ kv : str * expr, depth kv.2) es (k, x)).
  - apply andb_true_iff in Hp as [Hp He]. destruct f as [|[|f]]; [lia|lia|]. apply update_reads; [done..|].
    apply IH; [done|lia].
  - apply andb_true_iff in Hp as [Hl Hr]. destruct f as [|f]; [lia|]. intros rest. cbn [print_expr].
    apply paren_value, value_one; [|done]. rewrite <- app_assoc, <- app_comm_cons. unfold or_update.
    rewrite update_prefix_print by done. apply or_binary; [done..|apply IHl|apply IHr|]; done || lia.
  - destruct f as [|f]; [lia|]. intros rest. cbn [print_expr]. unfold paren.
    rewrite <- !app_comm_cons, <- app_assoc. cbn [app].
    assert (Forall (λ a, printable a = true ∧ reads_primary f a) es) as Ha by (apply children_read; [done..|lia]).
    pose proof (args_reads f es rest Ha) as Hargs. pose proof (call_fn g es) as Hcall.
    destruct g; cbn [fn_name] in *;
      change (parsePrimary (parse_value (S f)) (ident ?n :: t_open :: ?ts)) with
        ('(args, ts2) ← bracketed KRightParen (items is_arg_separator (parse_value (S f) true)) ts;
         e ← call_function (lit n) args; Ok (e, ts2));
      rewrite Hargs; cbn [mbind result_bind]; rewrite Hcall; done.
  - destruct f as [|f]; [lia|]. intros rest. cbn [print_expr]. unfold paren.
    rewrite <- !app_comm_cons, <- app_assoc. cbn [app].
    assert (Forall (λ a, printable a = true ∧ reads_primary f a) es) as Ha by (apply children_read; [done..|lia]).
    pose proof (args_reads f es rest Ha) as Hargs. pose proof (call_sfn g es) as Hcall.
    destruct g; cbn [sfn_name] in *;
      change (parsePrimary (parse_value (S f)) (ident ?n :: t_open :: ?ts)) with
        ('(args, ts2) ← bracketed KRightParen (items is_arg_separator (parse_value (S f) true)) ts;
         e ← call_function (lit n) args; Ok (e, ts2));
      rewrite Hargs; cbn [mbind result_bind]; rewrite Hcall; done.
Qed.

(** ** Matching parentheses *)

(** Scanning over the tokens from inside a parenthesis comes back to the same
    depth. *)
Definition balanced (ts : tokens) : Prop := ∀ d rest, after_paren (S d) (ts ++ rest) = after_paren (S d) rest.

Definition no_paren (t : token) : bool := match t_kind t with KLeftParen | KRightParen => false | _ => true end.

Lemma balanced_nil : balanced [].
Proof. done. Qed.
Lemma balanced_cons t ts : no_paren t = true → balanced ts → balanced (t :: ts).
Proof. intros Ht Hts d rest. unfold no_paren in Ht. cbn [app after_paren]. destruct (t_kind t); try done; apply Hts. Qed.
Lemma balanced_app ts us : balanced ts → balanced us → balanced (ts ++ us).
Proof. intros Ht Hu d rest. by rewrite <- app_assoc, Ht, Hu. Qed.
Lemma balanced_paren ts : balanced ts → balanced (paren ts).
Proof.
  intros Hts d rest. unfold paren. rewrite <- app_comm_cons, <- app_assoc. cbn [after_paren t_kind t_open tok].
  rewrite Hts. done.
Qed.
Lemma balanced_sep t l : no_paren t = true → Forall balanced l → balanced (sep_by t l).
Proof.
  intros Ht Hl. induction Hl as [|x l Hx Hl IH]; [done|]. destruct l as [|y l]; [done|].
  cbn [sep_by]. apply balanced_app; [done|]. by apply balanced_cons.
Qed.

Lemma balanced_path p : balanced (print_path p).
Proof.
  apply balanced_cons; [done|]. induction p as [|s p IH]; [done|]. rewrite bind_cons. apply balanced_app; [|done].
  assert (∀ ts, forallb no_paren ts = true → balanced ts) as Hflat.
  { induction ts as [|t ts IHts]; [done|]. intros [??]%andb_true_iff. apply balanced_cons; auto. }
  apply Hflat. destruct s as [k|i|]; [reflexivity| |reflexivity]. unfold print_segment. destruct (i <? 0)%Z; reflexivity.
Qed.

Lemma balanced_expr e : balanced (print_expr e).
Proof.
  assert (∀ es, Forall (λ e, balanced (print_expr e)) es → Forall balanced (print_expr <$> es)) as Hmap
    by (intros es Hes; by apply Forall_fmap).
  induction e as [es IH|es IH|v|es IH|p|es IH|es IH|p o e IH|op l r IHl IHr|g es IH|g es IH] using expr_ind'; cbn [print_expr].
  - by apply balanced_paren, balanced_sep, Hmap.
  - by apply balanced_paren, balanced_sep, Hmap.
  - destruct v as [|[]| |n| | | |]; try apply balanced_nil; try (apply balanced_cons; [done|apply balanced_nil]).
    destruct (n <? 0)%Z; [apply balanced_paren|]; repeat (apply balanced_cons; [done|]); apply balanced_nil.
  - apply balanced_nil.
  - apply balanced_paren, balanced_path.
  - apply balanced_cons; [done|]. apply balanced_app; [by apply balanced_sep, Hmap|].
    apply balanced_cons; [done|apply balanced_nil].
  - apply balanced_cons; [done|]. apply balanced_app; [|apply balanced_cons; [done|apply balanced_nil]].
    apply balanced_sep; [done|]. apply Forall_fmap. eapply Forall_impl; [exact IH|]. intros [k x] Hx.
    by do 2 (apply balanced_cons; [done|]).
  - apply balanced_paren, balanced_app; [apply balanced_path|]. apply balanced_cons; [by destruct o|done].
  - apply balanced_paren, balanced_app; [done|]. apply balanced_cons; [by destruct op|done].
  - apply balanced_cons; [done|]. by apply balanced_paren, balanced_sep, Hmap.
  - apply balanced_cons; [done|]. by apply balanced_paren, balanced_sep, Hmap.
Qed.

Lemma after_paren_paren ts rest : balanced ts → after_paren 0 (paren ts ++ rest) = head rest.
Proof.
  intros Hts. unfold paren. rewrite <- app_comm_cons, <- app_assoc. cbn [after_paren t_kind t_open tok]. by rewrite Hts.
Qed.
End roundtrip.

(** ** Statements *)

Definition print_stage (st : target_stage) : tokens :=
  match st with
  | StagePath p => print_path p
  | StageCond c => ident "select" :: paren (print_expr c)
  end.
Definition print_target (p : path) (target : option (list target_stage)) : tokens :=
  match target with
  | None => print_path p
  | Some stages => paren (sep_by t_pipe (print_stage <$> stages))
  end.
Definition print_statement (s : statement) : tokens :=
  match s with
  | AssignStatement p target o e => print_target p target ++ assign_token o :: print_expr e
  | FilterStatement e => print_expr e
  | DeleteStatement paths => ident "del" :: paren (sep_by t_comma (print_path <$> paths))
  end.
Definition print_statements (l : list statement) : tokens := sep_by t_pipe (print_statement <$> l).

Definition printable_stage (st : target_stage) : bool :=
  match st with StagePath p => forallb printable_segment p | StageCond c => printable c end.
Definition printable_statement (s : statement) : bool :=
  match s with
  | AssignStatement p target _ e =>
    printable e && match target with
                   | None => forallb printable_segment p
                   | Some st => bool_decide (p = []) && forallb printable_stage st && existsb is_path_stage st
                   end
  | FilterStatement e => printable e
  | DeleteStatement paths =>
    negb (bool_decide (paths = [])) && forallb (λ p, negb (bool_decide (p = [])) && forallb printable_segment p) paths
  end.
Definition is_filter (s : statement) : bool := match s with FilterStatement _ => true | _ => false end.

(** A filter takes the rest of the text as its own pipeline, so it comes last. *)
Fixpoint printable_statements (l : list statement) : bool :=
  match l with
  | [] => false
  | [s] => printable_statement s
  | s :: l' => printable_statement s && negb (is_filter s) && printable_statements l'
  end.

Definition stage_depth (st : target_stage) : nat := match st with StagePath _ => 0 | StageCond c => S (depth c) end.
Definition statement_depth (s : statement) : nat :=
  match s with
  | AssignStatement _ target _ e => S (max (depth e) (max_list (stage_depth <$> default [] target)))
  | FilterStatement e => S (depth e)
  | DeleteStatement _ => 0
  end.

Section statements.
Context `{OverrideEnv}.

Lemma reads_value e f low rest : printable e = true → S (depth e) ≤ f → closing (peek rest) = true →
  (low = true → not_pipe (peek rest) = true) → parse_value f low (print_expr e ++ rest) = Ok (e, rest).
Proof. intros He Hf Hc Hl. destruct f as [|f]; [lia|]. apply value_reads; [done| |done|done]. apply primary_reads; [done|lia]. Qed.

Lemma stage_reads f st r : printable_stage st = true → stage_depth st ≤ f → ends_path (peek r) = true →
  target_stage_item (parse_value f) (print_stage st ++ r) = Ok (st, r).
Proof.
  intros Hp Hd He. destruct st as [p|c]; cbn [print_stage printable_stage stage_depth] in *.
  - change (target_stage_item (parse_value f) (print_path p ++ r)) with
      ('(p, ts1) ← parsePath (print_path p ++ r); Ok (StagePath p, ts1)). by rewrite parsePath_print.
  - unfold paren. rewrite <- !app_comm_cons, <- app_assoc. cbn [app].
    change (target_stage_item (parse_value f) (ident "select" :: t_open :: print_expr c ++ t_close :: r)) with
      ('(c, ts2) ← parse_value f true (print_expr c ++ t_close :: r);
       '(_, ts3) ← expect KRightParen ts2; Ok (StageCond c, ts3)).
    by rewrite reads_value.
Qed.

Lemma target_reads f st rest : forallb printable_stage st = true → existsb is_path_stage st = true →
  max_list (stage_depth <$> st) ≤ f →
  parseAssignmentTarget (parse_value f) (paren (sep_by t_pipe (print_stage <$> st)) ++ rest) = Ok (st, rest).
Proof.
  intros Hp Hex Hd. unfold paren. rewrite <- app_comm_cons, <- app_assoc. cbn [app].
  change (parseAssignmentTarget (parse_value f) (t_open :: ?ts)) with
    ('(stages, ts2) ← items is_pipe (target_stage_item (parse_value f)) ts;
     '(_, ts3) ← expect KRightParen ts2;
     if existsb is_path_stage stages then Ok (stages, ts3) else Err "conditional assignment must select a path").
  rewrite (items_print is_pipe (target_stage_item (parse_value f)) print_stage t_pipe st (t_close :: rest)); try done.
  - cbn [mbind result_bind]. change (expect KRightParen (t_close :: rest)) with (Ok (t_close, rest)).
    cbn [mbind result_bind]. by rewrite Hex.
  - by intros ->.
  - intros s r Hs Hr. apply stage_reads.
    + rewrite forallb_forall in Hp. by apply Hp, list_elem_of_In.
    + assert (stage_depth s ≤ max_list (stage_depth <$> st)); [|lia]. by apply max_list_elem_of_le, list_elem_of_fmap_2.
    + by destruct Hr as [-> | ->].
Qed.

Lemma balanced_stages st : balanced (sep_by t_pipe (print_stage <$> st)).
Proof.
  apply balanced_sep; [done|]. apply Forall_fmap, Forall_forall. intros [p|c] _; cbn.
  - apply balanced_path.
  - apply balanced_cons; [done|]. apply balanced_paren, balanced_expr.
Qed.

Lemma starts_assign p target o e rest : printable_statement (AssignStatement p target o e) = true →
  startsAssignmentStatement (print_statement (AssignStatement p target o e) ++ rest) = true.
Proof.
  intros [_ Ht]%andb_true_iff. cbn [print_statement]. rewrite <- app_assoc, <- app_comm_cons.
  destruct target as [st|]; cbn [print_target].
  - change (startsAssignmentStatement (paren (sep_by t_pipe (print_stage <$> st)) ++ ?ts)) with
      (match after_paren 0 (paren (sep_by t_pipe (print_stage <$> st)) ++ ts) with
       | Some t => isOverrideAssignmentToken (t_kind t) | None => false end).
    rewrite after_paren_paren by apply balanced_stages. cbn [head]. by destruct o.
  - change (startsAssignmentStatement (print_path p ++ ?ts)) with
      (match parsePath (print_path p ++ ts) with
       | Ok (_, ts') => isOverrideAssignmentToken (t_kind (peek ts')) | _ => false end).
    rewrite parsePath_print by (done || by destruct o). by destruct o.
Qed.

Lemma assign_reads f p target o e rest : printable_statement (AssignStatement p target o e) = true →
  statement_depth (AssignStatement p target o e) ≤ f → closing (peek rest) = true →
  parseStatement (parse_value f) (print_statement (AssignStatement p target o e) ++ rest) = Ok (AssignStatement p target o e, rest).
Proof.
  intros Hp Hd Hc. unfold parseStatement. rewrite starts_assign by done. cbn [negb].
  cbn [printable_statement statement_depth print_statement] in *. apply andb_true_iff in Hp as [He Ht].
  rewrite <- app_assoc, <- app_comm_cons.
  assert (∀ target', ('(v, ts3) ← parse_value f false (print_expr e ++ rest); Ok (AssignStatement p target' o v, ts3))
            = Ok (AssignStatement p target' o e, rest)) as Hval
    by (intros; rewrite reads_value; [done|done|lia|done|done]).
  assert (∀ x, next (assign_token o :: x) = (assign_token o, x)) as Hnext by by destruct o.
  assert (assign_of (t_kind (assign_token o)) = Some o) as Hop by by destruct o.
  destruct target as [st|]; cbn [print_target default] in *.
  - apply andb_true_iff in Ht as [[Hnil%bool_decide_eq_true Hst]%andb_true_iff Hex]. subst p.
    assert (max_list (stage_depth <$> st) ≤ f) by (apply Nat.lt_le_incl, Nat.le_lt_trans with (2 := Hd); apply Nat.le_max_r).
    change (peekIdentifier "del" (paren (sep_by t_pipe (print_stage <$> st)) ++ ?ts)) with false. cbn iota.
    change (parse_assign (parse_value f) (paren (sep_by t_pipe (print_stage <$> st)) ++ ?ts)) with
      ('((p, target), ts1) ← ('(t, ts1) ← parseAssignmentTarget (parse_value f) (paren (sep_by t_pipe (print_stage <$> st)) ++ ts);
                              Ok (([] : path, Some t), ts1));
       let '(op, ts2) := next ts1 in
       match assign_of (t_kind op) with
       | Some o => '(v, ts3) ← parse_value f false ts2; Ok (AssignStatement p target o v, ts3)
       | None => Err "expected assignment operator after path"
       end).
    rewrite target_reads by (done || lia). cbn [mbind result_bind]. rewrite Hnext, Hop. apply Hval.
  - change (peekIdentifier "del" (print_path p ++ ?ts)) with false. cbn iota.
    change (parse_assign (parse_value f) (print_path p ++ ?ts)) with
      ('((p, target), ts1) ← ('(p, ts1) ← parsePath (print_path p ++ ts); Ok ((p, None), ts1));
       let '(op, ts2) := next ts1 in
       match assign_of (t_kind op) with
       | Some o => '(v, ts3) ← parse_value f false ts2; Ok (AssignStatement p target o v, ts3)
       | None => Err "expected assignment operator after path"
       end).
    rewrite parsePath_print by (done || by destruct o). cbn [mbind result_bind]. rewrite Hnext, Hop. apply Hval.
Qed.

Lemma delete_reads f paths rest : printable_statement (DeleteStatement paths) = true →
  parseStatement (parse_value f) (print_statement (DeleteStatement paths) ++ rest) = Ok (DeleteStatement paths, rest).
Proof.
  intros [Hne Hp]%andb_true_iff. apply negb_true_iff, bool_decide_eq_false in Hne. cbn [print_statement]. unfold paren.
  rewrite <- !app_comm_cons, <- app_assoc. cbn [app].
  change (parseStatement (parse_value f) (ident "del" :: t_open :: ?ts)) with
    ('(paths, ts2) ← items is_comma parsePath ts;
     '(_, ts3) ← expect KRightParen ts2;
     if existsb (λ p : path, bool_decide (p = [])) paths
     then Err "del(.) cannot be represented by a mapping override" else Ok (DeleteStatement paths, ts3)).
  rewrite forallb_forall in Hp.
  rewrite (items_print is_comma parsePath print_path t_comma paths (t_close :: rest)); try done.
  - cbn [mbind result_bind]. change (expect KRightParen (t_close :: rest)) with (Ok (t_close, rest)).
    cbn [mbind result_bind]. assert (existsb (λ p : path, bool_decide (p = [])) paths = false) as ->; [|done].
    apply not_true_iff_false. intros (q & Hq & Hb)%existsb_exists. specialize (Hp q Hq). by rewrite Hb in Hp.
  - intros q r Hq Hr. specialize (Hp q (proj1 (list_elem_of_In _ _) Hq)). apply andb_true_iff in Hp as [_ Hp].
    apply parsePath_print; [done|]. by destruct Hr as [-> | ->].
Qed.

Lemma starts_filter e : startsAssignmentStatement (print_expr e ++ [eof]) = false.
Proof.
  assert (∀ ts, balanced ts → startsAssignmentStatement (paren ts ++ [eof]) = false) as Hparen.
  { intros ts Hts. change (startsAssignmentStatement (paren ts ++ [eof])) with
      (match after_paren 0 (paren ts ++ [eof]) with
       | Some t => isOverrideAssignmentToken (t_kind t) | None => false end). by rewrite after_paren_paren. }
  pose proof (balanced_expr e) as Hb.
  destruct e as [es|es|v|es|p|es|es|p o e|op l r|g es|g es]; try reflexivity; cbn [print_expr] in *.
  1,2,4,5,6: apply Hparen.
  - apply balanced_sep; [done|]. apply Forall_fmap, Forall_true. apply balanced_expr.
  - apply balanced_sep; [done|]. apply Forall_fmap, Forall_true. apply balanced_expr.
  - apply balanced_path.
  - apply balanced_app; [apply balanced_path|]. apply balanced_cons; [by destruct o|apply balanced_expr].
  - apply balanced_app; [apply balanced_expr|]. apply balanced_cons; [by destruct op|apply balanced_expr].
  - destruct v as [| | |n| | | |]; try reflexivity. destruct (n <? 0)%Z; [|reflexivity].
    apply Hparen. do 2 (apply balanced_cons; [done|]). apply balanced_nil.
Qed.

Lemma filter_reads f e : printable e = true → statement_depth (FilterStatement e) ≤ f →
  parseStatement (parse_value f) (print_statement (FilterStatement e) ++ [eof]) = Ok (FilterStatement e, [eof]).
Proof.
  intros Hp Hd. cbn [statement_depth print_statement] in *. unfold parseStatement. rewrite starts_filter.
  assert (peekIdentifier "del" (print_expr e ++ [eof]) = false) as ->.
  { destruct e as [| |v| | | | | | |g|g]; try reflexivity; try done.
    - destruct v as [|[]| |n| | | |]; try reflexivity; try done. cbn [print_expr]. by destruct (n <? 0)%Z.
    - by destruct g.
    - by destruct g. }
  cbn [negb]. destruct f as [|f]; [lia|]. rewrite union_reads; [done|done| |by right]. apply primary_reads; [done|lia].
Qed.

Lemma statement_reads f s rest : printable_statement s = true → statement_depth s ≤ f →
  rest = [eof] ∨ (is_filter s = false ∧ peek rest = t_pipe) →
  parseStatement (parse_value f) (print_statement s ++ rest) = Ok (s, rest).
Proof.
  intros Hp Hd Hr. destruct s as [p target o e|e|paths].
  - apply assign_reads; [done..|]. by destruct Hr as [->|[_ ->]].
  - destruct Hr as [->|[? _]]; [|done]. by apply filter_reads.
  - by apply delete_reads.
Qed.

Lemma parse_loop_print f n acc l : printable_statements l = true → Forall (λ s, statement_depth s ≤ f) l →
  length l ≤ n → parse_loop (parse_value f) n acc (print_statements l ++ [eof]) = Ok (acc ++ l).
Proof.
  intros Hp Hd. revert n acc Hp. induction Hd as [|s l Hs Hd IH]; intros n acc Hp Hn; [done|].
  destruct n as [|n]; [simpl in Hn; lia|]. cbn [parse_loop]. unfold print_statements in *. cbn [fmap list_fmap].
  destruct l as [|s' l].
  - cbn [fmap list_fmap sep_by printable_statements] in *. rewrite statement_reads by auto. done.
  - change (printable_statement s && negb (is_filter s) && printable_statements (s' :: l) = true) in Hp.
    apply andb_true_iff in Hp as [[Hps Hf%negb_true_iff]%andb_true_iff Hp].
    change (sep_by t_pipe (print_statement s :: (print_statement <$> s' :: l))) with
      (print_statement s ++ t_pipe :: sep_by t_pipe (print_statement <$> s' :: l)).
    rewrite <- app_assoc, <- app_comm_cons. rewrite statement_reads by auto. cbn [mbind result_bind].
    set (ts := sep_by t_pipe (print_statement <$> s' :: l) ++ [eof]).
    change (matchTok KPipe (t_pipe :: ts)) with (Some ts). cbn iota.
    assert (peekIs KEOF ts = false) as ->.
    { subst ts. cbn [fmap list_fmap]. rewrite sep_by_concat, <- app_assoc. set (r := concat _ ++ _).
      assert (printable_statement s' = true) as Hps'.
      { destruct l; [done|]. by apply andb_true_iff in Hp as [[? _]%andb_true_iff _]. }
      destruct s' as [p target o e|e|paths]; [|cbn [print_statement]|done].
      - by destruct target.
      - destruct (print_starts e r Hps') as [Hst _]. unfold starts_primary, peekIs in *.
        apply bool_decide_eq_false. intros Hk. by rewrite Hk in Hst. }
    subst ts. rewrite IH by (done || (simpl in *; lia)). by rewrite <- app_assoc.
Qed.
End statements.

(** ** The text of tokens *)

Definition token_source (t : token) : str :=
  match t_kind t with KString => quote :: t_text t ++ [quote] | _ => t_text t end.
(** A space after every token. *)
Definition unlex (ts : tokens) : str := ts ≫= λ t, token_source t ++ lit " ".
Definition print_source (l : list statement) : str := unlex (print_statements l).

(** The lexer reads the token off a text that goes on with a space. *)
Definition reads_token (t : token) : Prop := ∀ s,
  ∃ c r, token_source t ++ lit " " ++ s = c :: r ∧ lex_step c r = Ok (Some (Some t, lit " " ++ s)).

Lemma reads_number n : (0 ≤ n)%Z → reads_token (number n).
Proof.
  intros Hn s. destruct (format_uint_head n Hn) as (c & t & Ec & Hc & Ht). exists c, (t ++ lit " " ++ s).
  unfold token_source, number. cbn [t_kind t_text]. rewrite Ec. split; [done|].
  assert (scanOverrideNumber (c :: t ++ lit " " ++ s) = (c :: t, lit " " ++ s)) as Hscan.
  { assert (span is_digit (c :: t ++ lit " " ++ s) = (c :: t, lit " " ++ s)) as Hspan
      by (apply (span_app is_digit (c :: t)); [by constructor|done]).
    unfold scanOverrideNumber. destruct (t ++ lit " " ++ s) as [|x r] eqn:E; [by destruct t|].
    assert (x ≠ "x"%char ∧ x ≠ "X"%char) as [H1 H2].
    { destruct t as [|d t]; simpl in E; [by injection E as <- _|]. injection E as <- _.
      apply Forall_cons in Ht as [Hd _]. by split; intros ->. }
    rewrite (bool_decide_eq_false_2 _ H1), (bool_decide_eq_false_2 _ H2). rewrite andb_false_r.
    rewrite Hspan. cbn -[scan_exponent]. rewrite decide_False by done.
    change (scan_exponent (" "%char :: s)) with ([] : str, " "%char :: s). cbn. by rewrite app_nil_r. }
  unfold lex_step.
  assert (∀ d, is_digit d = false → c ≠ d) as Hne by (intros d Hd ->; congruence).
  assert (is_space (byteZ c) = false) as ->.
  { apply is_digit_plain in Hc. unfold plain in Hc. apply andb_true_iff in Hc as [_ Hc]. by apply negb_true_iff. }
  rewrite decide_False by by apply Hne.
  assert (assoc_char c simple_tokens = None) as ->.
  { unfold simple_tokens. cbn [assoc_char]. rewrite !decide_False by by apply Hne. done. }
  assert (assoc_char c pair_tokens = None) as ->.
  { unfold pair_tokens. cbn [assoc_char]. rewrite !decide_False by by apply Hne. done. }
  rewrite !decide_False by by apply Hne. rewrite Hc, Hscan. done.
Qed.

Lemma reads_string s : reads_token (string_token s).
Proof.
  intros r. exists quote, (encode s ++ [quote] ++ lit " " ++ r). unfold token_source. cbn [t_kind t_text string_token].
  split; [by rewrite <- app_comm_cons, <- app_assoc|].
  change (lex_step quote ?ts) with (match scanOverrideString ts with
    | Some (raw, rest) => Ok (Some (Some (Token KString raw), rest)) | None => Err "unterminated string" end).
  cbn [app]. by rewrite scan_encode.
Qed.

Ltac reads_fixed := let x := fresh in intros x; do 2 eexists; split; [reflexivity|reflexivity].

Lemma reads_assign o : reads_token (assign_token o).
Proof. destruct o; reads_fixed. Qed.
Lemma reads_op op : reads_token (op_token op).
Proof. destruct op; reads_fixed. Qed.
Lemma reads_fn f : reads_token (ident (fn_name f)).
Proof. destruct f; reads_fixed. Qed.
Lemma reads_sfn f : reads_token (ident (sfn_name f)).
Proof. destruct f; reads_fixed. Qed.
Lemma reads_open : reads_token t_open.
Proof. reads_fixed. Qed.
Lemma reads_close : reads_token t_close.
Proof. reads_fixed. Qed.
Lemma reads_comma : reads_token t_comma.
Proof. reads_fixed. Qed.
Lemma reads_pipe : reads_token t_pipe.
Proof. reads_fixed. Qed.

Lemma lex_unlex ts f : Forall reads_token ts → length (unlex ts) ≤ f → lex_fuel f (unlex ts) = Ok (ts ++ [eof]).
Proof.
  intros Hts. revert f. induction Hts as [|t ts Ht _ IH]; intros f Hf; [by destruct f|].
  unfold unlex in *. rewrite bind_cons, <- app_assoc in *. destruct (Ht (ts ≫= λ t, token_source t ++ lit " ")) as (c & r & Hc & Hl).
  rewrite Hc in *. destruct f as [|f]; [simpl in Hf; lia|]. cbn [lex_fuel]. rewrite Hl. cbn [mbind result_bind].
  pose proof (lex_step_ok c r) as Hlen. rewrite Hl in Hlen. destruct Hlen as [Hlen _].
  cbn [lit String.list_ascii_of_string app length] in *.
  destruct f as [|f]; [simpl in Hf; lia|].
  change (lex_fuel (S f) (" "%char :: ?s)) with (lex_fuel f s). rewrite IH; [done|]. simpl in Hf. lia.
Qed.

(** *** Every printed token is read *)

Lemma reads_paren ts : Forall reads_token ts → Forall reads_token (paren ts).
Proof.
  intros Hts. constructor; [apply reads_open|]. apply Forall_app. split; [done|]. constructor; [apply reads_close|constructor].
Qed.
Lemma reads_sep t l : reads_token t → Forall (Forall reads_token) l → Forall reads_token (sep_by t l).
Proof.
  intros Ht Hl. induction Hl as [|x l Hx Hl IH]; [constructor|]. destruct l as [|y l]; [done|].
  cbn [sep_by]. apply Forall_app. split; [done|]. by constructor.
Qed.

Lemma reads_path p : forallb printable_segment p = true → Forall reads_token (print_path p).
Proof.
  intros Hp. constructor; [reads_fixed|]. induction p as [|s p IH]; [constructor|].
  apply andb_true_iff in Hp as [Hs Hp]. rewrite bind_cons. apply Forall_app. split; [|auto].
  unfold print_segment. constructor; [reads_fixed|]. apply Forall_app. split; [|constructor; [reads_fixed|constructor]].
  destruct s as [k|i|]; [constructor; [apply reads_string|constructor]| |constructor].
  destruct (Z.ltb_spec i 0).
  - constructor; [reads_fixed|]. constructor; [apply reads_number; lia|constructor].
  - constructor; [apply reads_number; lia|constructor].
Qed.

Lemma reads_exprs (es : list expr) :
  Forall (λ e, printable e = true → Forall reads_token (print_expr e)) es → forallb printable es = true →
  Forall (Forall reads_token) (print_expr <$> es).
Proof.
  intros IH Hp. apply Forall_fmap. rewrite forallb_forall in Hp. rewrite Forall_forall in *. intros e He.
  apply IH; [done|]. by apply Hp, list_elem_of_In.
Qed.

Lemma reads_expr e : printable e = true → Forall reads_token (print_expr e).
Proof.
  induction e as [es IH|es IH|v|es IH|p|es IH|es IH|p o e IH|op l r IHl IHr|g es IH|g es IH] using expr_ind';
    intros Hp; cbn [printable print_expr] in *.
  - apply andb_true_iff in Hp as [_ Hp]. by apply reads_paren, reads_sep; [apply reads_pipe|apply reads_exprs].
  - apply andb_true_iff in Hp as [_ Hp]. by apply reads_paren, reads_sep; [apply reads_comma|apply reads_exprs].
  - destruct v as [|[]|s|n| | | |]; try done; try (constructor; [reads_fixed|constructor]).
    + constructor; [apply reads_string|constructor].
    + destruct (Z.ltb_spec n 0).
      * apply reads_paren. constructor; [reads_fixed|]. constructor; [apply reads_number; lia|constructor].
      * constructor; [apply reads_number; lia|constructor].
  - done.
  - by apply reads_paren, reads_path.
  - constructor; [reads_fixed|]. apply Forall_app. split; [|constructor; [reads_fixed|constructor]].
    by apply reads_sep; [apply reads_comma|apply reads_exprs].
  - constructor; [reads_fixed|]. apply Forall_app. split; [|constructor; [reads_fixed|constructor]].
    apply reads_sep; [apply reads_comma|]. apply Forall_fmap. rewrite forallb_forall in Hp. rewrite Forall_forall in *.
    intros [k x] Hx. constructor; [apply reads_string|]. constructor; [reads_fixed|]. apply (IH _ Hx).
    by apply (Hp (k, x)), list_elem_of_In.
  - apply andb_true_iff in Hp as [Hp He]. apply reads_paren, Forall_app. split; [by apply reads_path|].
    constructor; [apply reads_assign|auto].
  - apply andb_true_iff in Hp as [Hl Hr]. apply reads_paren, Forall_app. split; [auto|].
    constructor; [apply reads_op|auto].
  - constructor; [apply reads_fn|]. by apply reads_paren, reads_sep; [apply reads_comma|apply reads_exprs].
  - constructor; [apply reads_sfn|]. by apply reads_paren, reads_sep; [apply reads_comma|apply reads_exprs].
Qed.

Lemma reads_statement s : printable_statement s = true → Forall reads_token (print_statement s).
Proof.
  destruct s as [p target o e|e|paths]; cbn [printable_statement print_statement].
  - intros [He Ht]%andb_true_iff. apply Forall_app. split; [|constructor; [apply reads_assign|by apply reads_expr]].
    destruct target as [st|]; cbn [print_target]; [|by apply reads_path].
    apply andb_true_iff in Ht as [[_ Hst]%andb_true_iff _]. apply reads_paren, reads_sep; [apply reads_pipe|].
    apply Forall_fmap. rewrite forallb_forall in Hst. apply Forall_forall. intros [q|c] Hin%list_elem_of_In; apply Hst in Hin; cbn in *.
    + by apply reads_path.
    + constructor; [reads_fixed|]. by apply reads_paren, reads_expr.
  - apply reads_expr.
  - intros [_ Hp]%andb_true_iff. constructor; [reads_fixed|]. apply reads_paren, reads_sep; [apply reads_comma|].
    apply Forall_fmap. rewrite forallb_forall in Hp. apply Forall_forall. intros q Hq%list_elem_of_In. apply Hp in Hq.
    apply andb_true_iff in Hq as [_ Hq]. by apply reads_path.
Qed.

Lemma printable_each l : printable_statements l = true → Forall (λ s, printable_statement s = true) l ∧ l ≠ [].
Proof.
  induction l as [|s [|s' l] IH]; [done|by repeat constructor|].
  change (printable_statement s && negb (is_filter s) && printable_statements (s' :: l) = true → Forall (λ s, printable_statement s = true) (s :: s' :: l) ∧ s :: s' :: l ≠ []).
  intros [[Hs _]%andb_true_iff Hl]%andb_true_iff. split; [|done]. constructor; [done|]. by apply IH.
Qed.

(** *** The fuel is enough *)

Lemma sep_by_length t l (x : tokens) : x ∈ l → length x ≤ length (sep_by t l).
Proof.
  induction l as [|y [|z l] IH]; [by intros ?%not_elem_of_nil| |]; intros Hx.
  - apply elem_of_cons in Hx as [->|Hx]; [done|by apply not_elem_of_nil in Hx].
  - change (sep_by t (y :: z :: l)) with (y ++ t :: sep_by t (z :: l)). rewrite length_app. cbn [length].
    apply elem_of_cons in Hx as [->|Hx]; [lia|]. specialize (IH Hx). lia.
Qed.

Lemma max_list_le {A} (f : A → nat) (l : list A) n : (∀ x, x ∈ l → f x ≤ n) → max_list (f <$> l) ≤ n.
Proof.
  induction l as [|x l IH]; intros Hl; [simpl; lia|].
  change (max_list (f <$> x :: l)) with (max (f x) (max_list (f <$> l))). apply Nat.max_lub.
  - apply Hl. left.
  - apply IH. intros y Hy. apply Hl. by right.
Qed.

Lemma list_depth (es : list expr) t : Forall (λ e, printable e = true → depth e ≤ length (print_expr e)) es →
  forallb printable es = true → max_list (depth <$> es) ≤ length (sep_by t (print_expr <$> es)).
Proof.
  intros IH Hp. rewrite Forall_forall in IH. rewrite forallb_forall in Hp. apply max_list_le. intros e He.
  etrans; [apply IH; [done|by apply Hp, list_elem_of_In]|]. apply sep_by_length. by apply list_elem_of_fmap_2.
Qed.

Lemma length_paren ts : length (paren ts) = S (S (length ts)).
Proof. unfold paren. cbn [length]. rewrite length_app. simpl. lia. Qed.

Lemma depth_length e : printable e = true → depth e ≤ length (print_expr e).
Proof.
  induction e as [es IH|es IH|v|es IH|p|es IH|es IH|p o e IH|op l r IHl IHr|g es IH|g es IH] using expr_ind';
    intros Hp; cbn [printable depth print_expr] in *; rewrite ?length_paren; try lia.
  - apply andb_true_iff in Hp as [_ Hp]. pose proof (list_depth es t_pipe IH Hp). lia.
  - apply andb_true_iff in Hp as [_ Hp]. pose proof (list_depth es t_comma IH Hp). lia.
  - destruct v; simpl; try done; try lia. destruct (_ <? 0)%Z; simpl; lia.
  - pose proof (list_depth es t_comma IH Hp). cbn [length]. rewrite length_app. lia.
  - cbn [length]. rewrite length_app. apply le_n_S. etrans; [|apply Nat.le_add_r]. apply max_list_le. intros [k x] Hx.
    rewrite Forall_forall in IH. rewrite forallb_forall in Hp. etrans; [apply (IH _ Hx); by apply (Hp (k, x)), list_elem_of_In|].
    etrans; [|apply sep_by_length; by apply (list_elem_of_fmap_2 _ es (k, x))]. cbn [snd fst length]. lia.
  - apply andb_true_iff in Hp as [_ Hp]. specialize (IH Hp). rewrite length_app. unfold print_path. cbn [length]. lia.
  - apply andb_true_iff in Hp as [Hl Hr]. specialize (IHl Hl). specialize (IHr Hr). rewrite length_app. cbn [length]. lia.
  - pose proof (list_depth es t_comma IH Hp). cbn [length]. rewrite length_paren. lia.
  - pose proof (list_depth es t_comma IH Hp). cbn [length]. rewrite length_paren. lia.
Qed.

Lemma statement_depth_length s : printable_statement s = true → statement_depth s ≤ S (length (print_statement s)).
Proof.
  destruct s as [p target o e|e|paths]; cbn [printable_statement statement_depth print_statement]; [..|lia].
  - intros [He Ht]%andb_true_iff. rewrite length_app. cbn [length]. pose proof (depth_length e He).
    apply le_n_S, Nat.max_lub; [lia|]. etrans; [|apply Nat.le_add_r].
    destruct target as [st|]; [|cbn; lia]. apply andb_true_iff in Ht as [[_ Hst]%andb_true_iff _].
    rewrite forallb_forall in Hst. cbn [print_target]. rewrite length_paren. apply max_list_le. intros s Hs.
    assert (length (print_stage s) ≤ length (sep_by t_pipe (print_stage <$> st))) as Hle
      by (apply sep_by_length; by apply list_elem_of_fmap_2).
    specialize (Hst s (proj1 (list_elem_of_In _ _) Hs)). destruct s as [q|c]; cbn [stage_depth print_stage printable_stage] in *; [lia|].
    pose proof (depth_length c Hst). cbn [length] in Hle. rewrite length_paren in Hle. lia.
  - intros He. pose proof (depth_length e He). lia.
Qed.

Lemma length_unlex ts : length ts ≤ length (unlex ts).
Proof.
  unfold unlex. induction ts as [|t ts IH]; [done|]. rewrite bind_cons, !length_app.
  assert (length (lit " ") = 1) as -> by done. cbn [length]. lia.
Qed.

(** ** The round trip *)

Section text.
Context `{OverrideEnv}.

Lemma parse_print l : printable_statements l = true → NewOverrideExpr (print_source l) = Ok l.
Proof.
  intros Hl. destruct (printable_each l Hl) as [Hall Hne]. unfold NewOverrideExpr, lexOverrideExpr, print_source.
  assert (Forall reads_token (print_statements l)) as Hr.
  { apply reads_sep; [apply reads_pipe|]. apply Forall_fmap. eapply Forall_impl; [exact Hall|]. intros s. apply reads_statement. }
  rewrite lex_unlex by done. cbn [mbind result_bind]. unfold parse.
  assert (peekIs KEOF (print_statements l ++ [eof]) = false) as ->.
  { unfold peekIs. apply bool_decide_eq_false. unfold print_statements. destruct l as [|s l]; [done|].
    cbn [fmap list_fmap]. rewrite sep_by_concat, <- app_assoc. set (r := concat _ ++ _). apply Forall_cons in Hall as [Hs _].
    destruct s as [p target o e|e|paths]; [by destruct target| |done]. cbn [print_statement]. intros Hk.
    destruct (print_starts e r Hs) as [Hst _]. unfold starts_primary in Hst. by rewrite Hk in Hst. }
  assert (∀ s, s ∈ l → length (print_statement s) ≤ length (print_statements l)) as Hlen.
  { intros s Hs. apply sep_by_length. by apply list_elem_of_fmap_2. }
  pose proof (length_unlex (print_statements l)) as Hun.
  rewrite (parse_loop_print _ _ [] l); [done|done| |].
  - rewrite Forall_forall in Hall. apply Forall_forall. intros s Hs. pose proof (statement_depth_length s (Hall s Hs)).
    specialize (Hlen s Hs). unfold parse_fuel. nia.
  - rewrite length_app. simpl. assert (length l ≤ length (print_statements l)); [|lia].
    clear -Hall. unfold print_statements. induction Hall as [|s [|s' l] Hs Hall IH]; [done| |].
    + cbn [fmap list_fmap sep_by length]. destruct s as [p target o e|e|paths]; cbn [print_statement length]; [rewrite length_app; simpl; lia| |lia].
      destruct (print_starts e [] Hs) as [_ Hne]. destruct (print_expr e); [done|simpl; lia].
    + change (sep_by t_pipe (print_statement <$> s :: s' :: l)) with
        (print_statement s ++ t_pipe :: sep_by t_pipe (print_statement <$> s' :: l)).
      rewrite length_app. simpl length in *. lia.
Qed.

(** C13: the parser reads back what is printed: for statements in the printed
    syntax, the text parses to the same statements, through the lexer, the
    precedence levels and the lookahead that tells assignments from filters. *)
Theorem print_parse_roundtrip (l : list statement) : printable_statements l = true →
  NewOverrideExpr (print_source l) = Ok l.
Proof. apply parse_print. Qed.
End text.

Definition demo_statements : list statement :=
  [AssignStatement [SField (lit "a"); SIndex (-1)] None AssignUpdate
     (EPipeline [EPath []; EFunction Fupcase []]);
   DeleteStatement [[SField (quote :: lit "x"); SWild]];
   AssignStatement [] (Some [StageCond (EBinary OpGt (EPath [SField (lit "n")]) (ELiteral (VInt (-5)))); StagePath [SField (lit "t")]])
     AssignAdd (EMap [(lit "k", EArray [ELiteral VNull; ELiteral (VStr [backslash])])])].

Lemma print_parse_roundtrip_witness : @NewOverrideExpr literal_env (print_source demo_statements) = Ok demo_statements.
Proof. apply (@print_parse_roundtrip literal_env). reflexivity. Defined.
